(* ===== verification/_CoqProject ===== *)
-Q . S2P
Prelude.v
Index.v
IpNet.v
AddrText.v
KeyBytes.v
AllowedIps.v
IpPacket.v
Timestamper.v
Wire.v
Relay.v
PacketPool.v
PacketQueue.v
Session.v
Bounded.v
PeerHealth.v
Handshake.v
RateLimiter.v
Timers.v
Tunn.v
TunnPair.v
TunnTotal.v
PeerTable.v
Routes.v
Device.v
DeviceSafe.v
DeviceSend.v
DeviceRun.v
DeviceRelay.v
Reconciler.v
ReconcilerSafe.v
ReconcilerSpec.v
ReconcilerDevice.v
Commands.v
DeviceLive.v
SharedDevice.v
Desktop.v
Nic.v
ApiError.v
