(* ===== verification/Prelude.v ===== *)
(** * Tendrilix: a WireGuard device with relays

    Tendrilix is a WireGuard implementation for desktops and microcontrollers
    ([alloc] and heapless builds of one crate, [src/tendrilix]) whose peers can
    relay for each other and whose configuration is kept in line with a network
    map. This library models the crate as executable functions and proves what
    makes each part correct, up to the loop of the device and the loop of the
    reconciler.

    ** The program and the files

    The bottom layer is data structures:
    - [IpNet] ([ipnet.rs]): addresses, CIDR blocks, masks, the compact serde
      form; [AddrText] has the textual form, over executable definitions of the
      address printer and parser of [core::net];
    - [KeyBytes] ([serialization.rs]): the text and serde forms of a key;
    - [AllowedIps] ([allowed_ips.rs]): the path-compressed trie behind
      cryptokey routing, refined to a finite map with longest-prefix match;
    - [Index] ([index.rs]): the LFSR that hands out peer indexes, its full
      period, and its atomics as an interleaving semantics;
    - [IpPacket] ([ip_packet.rs]), [Timestamper] ([timestamper.rs]),
      [Bounded] ([bounded.rs]);
    - [PacketPool] ([packet_pool.rs]): the heap pool and the arena of the
      heapless build, both instances of the class [packet_pool_laws];
    - [PacketQueue] ([noise/mod.rs]): the intrusive queue of packets threaded
      through the pool, refined to a FIFO list, against that class alone.

    The protocol is built on them:
    - [Wire] ([noise/mod.rs], [noise/errors.rs]): messages and their parser;
    - [Relay] ([noise/relay.rs], [authz.rs]): relay envelopes and who may
      forward to whom;
    - [Session] ([noise/session.rs]): transport encryption and the replay
      window;
    - [Handshake] ([noise/handshake.rs]) and [RateLimiter]
      ([noise/rate_limiter.rs]): the Noise IK handshake, its macs and cookies;
    - [Timers] ([noise/timers.rs]) and [Tunn] ([noise/mod.rs],
      [noise/timers.rs]): a tunnel, which joins handshake, ring of sessions,
      queue and timers; [TunnPair] proves two tunnels against each other,
      [TunnTotal] one tunnel against arbitrary input.

    The device and its control plane come last:
    - [PeerTable] ([device.rs], [PeerState] and [Peer]): the tables by key, by
      address and by index, and their invariant;
    - [Device] ([device.rs]): the event handlers and one turn of the loop;
      [DeviceSafe] states the invariant of a device and proves every handler
      total, [DeviceSend] says what its messages hold, [DeviceRun] has the
      properties of all runs; [DeviceRelay] puts two and three devices together;
    - [PeerHealth] ([control/peer_health.rs]): the state machine that decides
      when a peer changes its route;
    - [Routes] ([control/reconciler.rs], [types/v1alpha1/net_map.rs]): from a
      network map to the desired peers and their route policies;
    - [Reconciler] ([control/reconciler.rs]): the methods of [PeerReconciler];
      [ReconcilerSafe] states what it needs of a device as the class
      [device_client_laws] and reasons in a weakest-precondition style;
      [ReconcilerSpec] has the theorems; [ReconcilerDevice] proves that the
      device of [Device] is an instance and composes the two;
    - [Commands] ([device.rs], [CommandClient]): the tasks that share the client,
      the two mailboxes and the device as a transition system;
    - [DeviceLive] and [SharedDevice] ([device.rs], [Device::run]): a device that
      handles packets and ticks between the commands of one client, and of many
      over the mailboxes of [Commands];
    - [Desktop] ([src/desktop-client]): from a configuration file to the loops of
      device and reconciler, and the fetching of maps;
    - [Nic] ([nic.rs], [LinuxTunDevice]) and [ApiError] ([error.rs]): the adapters
      of network interfaces, and the error document of a directory.

    ** Conventions

    Machine integers are [Z] with their wrap-around written out ([wrap],
    [in_width]; the traffic counters of a tunnel take [usize] as 64 bits), bytes are [Z] and buffers [list Z]. A record field or a
    constant keeps the name it has in the source. The outer [option] of an
    operation is a panic (an index out of range, [expect], a checked overflow,
    a poisoned invariant), [result] the source's [Result]; an operation on
    [&mut self] returns the object it leaves, also when it fails. The two storage
    modes of the crate are one definition with a capacity, [None] for [alloc]
    and [Some n] for a heapless collection of capacity [n]. The clock, the random
    draws and the order in which a hash map is traversed are arguments. Code of
    other crates is an interface with laws, each with a concrete instance that the
    examples run: the cryptographic primitives ([aead_laws], [noise_laws],
    [noise_open_laws], [noise_seal_laws]), the codecs of a key ([text_codecs_laws]),
    the order of a map ([map_order_laws]), an unstable sort ([policy_sort_laws]),
    the channels of a device ([mailbox_laws]), the hash of a configuration
    ([config_hash], without any law: what is proved holds up to equal
    fingerprints). Between components of the crate the interfaces are
    [packet_pool_laws] (what a queue asks of a pool), [device_client_laws] (what
    the reconciler asks of a client of the device) and [executor_laws] (what that
    client asks of the device that serves it).

    ** What the theorems show

    - Data structures: insertion, removal and lookup of [AllowedIps] are those
      of a map with longest-prefix match, on every history; indexes are distinct
      until they run out, also under concurrent callers; the arena allocates
      first-fit without moving or overlapping packets; the queue is a bounded
      FIFO whose old packets expire and which takes a packet exactly when it is not
      full and the pool has room.
    - Text: a network and a key come back from the text they are printed as.
    - Messages: the parser accepts exactly the images of the encoder and never
      panics; envelopes survive forwarding; a session decrypts what its peer
      encrypted, never reuses a nonce, and accepts a counter exactly when it is in
      the window and new; initiator and responder derive the same keys; a cookie
      exchange admits a client under load and the limit is kept.
    - Tunnels: a handshake joins two tunnels, which then carry packets both
      ways; handling arbitrary datagrams and ticking the timers never panics;
      decapsulated packets are exactly the datagrams of the two IP layouts, trimmed.
    - The device: adding, updating and removing peers keeps the tables
      consistent, so that no address belongs to two peers; no sequence of packets,
      ticks and admissible commands panics the device, and admissible are all
      commands under which the relays of some fixed set, and only these, relay for
      others and are not relayed themselves; the endpoint of a peer only moves to
      the sender of a packet which its tunnel accepts; a packet from the interface
      only leaves for the next hop of the peer that owns its destination, sealed for
      that peer, and for a relayed peer in an envelope that names it; a
      datagram only reaches the interface, a relay or the sender as authenticated,
      allowed and authorised.
    - Several devices ([DeviceRelay]): between devices whose tunnels are joined, a
      packet from the interface of one comes out of the interface of the owner of
      its destination, directly or across a relay, unchanged and once.
    - The control plane: a switch of routes is justified by the samples, spaced by
      the cooldown, and a dead route is left; the policies of a peer are normalised
      and the initial one balanced; a network map is applied in one pass unless its
      addresses conflict, failures leave the reconciler consistent, and its loop
      never panics on the device.
    - Commands: tasks that share a client see an atomic device unless a call is
      cancelled; no call gets stuck, and no answer is returned twice. A device that
      serves such tasks while packets and ticks reach it never panics, and whatever
      happened the task that holds the client gets an answer.
    - The desktop client: a configuration with distinct keys and addresses starts
      the device and the reconciler, and under maps that keep to the roles neither
      ever panics, whatever reaches the device in between; a map is that of the
      first directory that answers; a directory is reached at the address its URL
      prints. The queues of an interface lose and reorder nothing they accept.
    - Defects: relays of relays make the device panic on packets of certain sizes
      ([DeviceRun.chained_relay_panics]) and a map can configure them
      ([ReconcilerDevice.chained_relays_configured]); an update clears a learned
      endpoint ([ReconcilerDevice.learned_endpoint_cleared]); exchanging the
      addresses of two peers can never be applied
      ([ReconcilerSpec.exchanged_addresses_rejected]); after a cancelled call the next
      one can return the wrong answer ([Commands.late_completion]); a map that changed
      within the second of the last is ignored ([Desktop.same_second_map_ignored]);
      [initialize] of the index generator races with [new_index]
      ([Index.Interleaved]).

    ** Bounds and fuel

    The walks of a trie take the width of the address plus one as fuel, since
    each link leads to a longer prefix; the search for a gap in the arena its size
    plus one, since each retry starts at a later byte; the walks of a packet queue
    its length; the decay of a suspicion score the score itself; the clearing of
    the replay bitmap the number of its words or of the bits of a word. In each
    case it is proved that the fuel suffices. [Device.flush_queued_packets] recurses
    on [MAX_ITR] = 100, the bound of the loop in the source. Everything else
    recurses on the data.

    ** Not modelled

    Sockets and tasks (the [select] of [Device::run]): an event of the device is
    an input, what it sends an output, and a failing send has no effect, as in
    the code. The channels under [CommandClient] and the queues under an interface
    are those of tokio and embassy, interfaces with laws; the handling of a command
    is one step. The estimate of packet loss and round-trip times in [Tunn::stats]
    is floating-point. The serde forms that are derived, the HTTP exchange, name
    resolution and the reading of the configuration file are calls of other
    crates. Instants that overflow the clock are not modelled in [PeerHealth]. *)

From Stdlib Require Export ZArith Lia Bool.
From stdpp Require Export base list gmap option decidable.
From stdpp Require Export list_basics list_relations list_monad list_misc list_tactics list_numbers.

#[global] Open Scope Z_scope.

(** ** Results *)

(** The two-constructor [Result<T, E>] of the source. *)
Inductive result (A E : Type) : Type :=
  | Ok (a : A)
  | Err (e : E).
Arguments Ok {A E} a.
Arguments Err {A E} e.

Declare Scope tendrilix_scope.
Delimit Scope tendrilix_scope with tx.

Definition result_bind {A B E} (r : result A E) (k : A → result B E) : result B E :=
  match r with
  | Ok a => k a
  | Err e => Err e
  end.

(** [r.map_err(f)] *)
Definition map_err {A E F} (f : E → F) (r : result A E) : result A F :=
  match r with
  | Ok a => Ok a
  | Err e => Err (f e)
  end.

(** [o.ok_or(e)] *)
Definition ok_or {A E} (o : option A) (e : E) : result A E :=
  match o with
  | Some a => Ok a
  | None => Err e
  end.

Definition is_ok {A E} (r : result A E) : bool :=
  match r with
  | Ok _ => true
  | Err _ => false
  end.

Notation "'let?' x ':=' r 'in' k" := (result_bind r (λ x, k))
  (at level 10, x name, r at level 100, k at level 200)
  : tendrilix_scope.
Notation "'let?' ' p ':=' r 'in' k" := (result_bind r (λ x, match x with p => k end))
  (at level 10, p strict pattern, r at level 100, k at level 200)
  : tendrilix_scope.
Notation "'let!' x ':=' o 'in' k" := (mbind (M:=option) (λ x, k) o)
  (at level 10, x name, o at level 100, k at level 200)
  : tendrilix_scope.
Notation "'let!' ' p ':=' o 'in' k" :=
  (mbind (M:=option) (λ x, match x with p => k end) o)
  (at level 10, p strict pattern, o at level 100, k at level 200)
  : tendrilix_scope.
#[global] Open Scope tendrilix_scope.

(** ** Machine integers *)

(** A w-bit unsigned integer is a [Z] in [0, 2^w). *)
Definition in_width (w x : Z) : Prop := 0 ≤ x < 2 ^ w.
Definition wrap (w x : Z) : Z := x mod 2 ^ w.

#[global] Instance in_width_dec w x : Decision (in_width w x).
Proof. unfold in_width. apply _. Defined.

Definition u8_max : Z := 2 ^ 8 - 1.
Definition u16_max : Z := 2 ^ 16 - 1.
Definition u32_max : Z := 2 ^ 32 - 1.
Definition u64_max : Z := 2 ^ 64 - 1.

Lemma in_width_le w w' x : 0 ≤ w ≤ w' → in_width w x → in_width w' x.
Proof.
  unfold in_width. intros Hw Hx.
  assert (2 ^ w ≤ 2 ^ w') by (apply Z.pow_le_mono_r; lia). lia.
Qed.

Lemma in_width_0 w : 0 ≤ w → in_width w 0.
Proof. unfold in_width. intros. assert (0 < 2 ^ w) by (apply Z.pow_pos_nonneg; lia). lia. Qed.

Lemma in_width_nonneg w x : in_width w x → 0 ≤ w.
Proof.
  unfold in_width. intros Hx. destruct (decide (0 ≤ w)); [done|].
  rewrite Z.pow_neg_r in Hx by lia. lia.
Qed.

Lemma wrap_in_width w x : 0 ≤ w → in_width w (wrap w x).
Proof. intros. apply Z.mod_pos_bound. apply Z.pow_pos_nonneg; lia. Qed.

Lemma wrap_small w x : in_width w x → wrap w x = x.
Proof. apply Z.mod_small. Qed.

(** ** Bits *)

Lemma in_width_testbit w x i : in_width w x → w ≤ i → 0 ≤ w → Z.testbit x i = false.
Proof.
  intros [Hx0 Hxw] Hi Hw.
  destruct (decide (x = 0)) as [->|]; [apply Z.bits_0|].
  apply Z.bits_above_log2; [lia|].
  apply Z.log2_lt_pow2; [lia|].
  eapply Z.lt_le_trans; [exact Hxw|]. apply Z.pow_le_mono_r; lia.
Qed.

Lemma in_width_of_bits w x :
  0 ≤ w → 0 ≤ x → (∀ i, w ≤ i → Z.testbit x i = false) → in_width w x.
Proof.
  intros Hw Hx Hb. split; [done|].
  destruct (decide (x = 0)) as [->|]; [by apply Z.pow_pos_nonneg|].
  apply Z.log2_lt_pow2; [lia|].
  destruct (decide (Z.log2 x < w)); [done|].
  specialize (Hb (Z.log2 x)). rewrite Z.bit_log2 in Hb by lia.
  discriminate Hb. lia.
Qed.

Lemma lxor_in_width w x y : 0 ≤ w → in_width w x → in_width w y → in_width w (Z.lxor x y).
Proof.
  intros Hw Hx Hy. apply in_width_of_bits; [done| |].
  - apply Z.lxor_nonneg. destruct Hx, Hy. lia.
  - intros i Hi. rewrite Z.lxor_spec.
    by rewrite (in_width_testbit w x), (in_width_testbit w y).
Qed.

Lemma land_in_width_r w x y : 0 ≤ w → in_width w y → in_width w (Z.land x y).
Proof.
  intros Hw Hy. apply in_width_of_bits; [done| |].
  - apply Z.land_nonneg. destruct Hy. lia.
  - intros i Hi. rewrite Z.land_spec, (in_width_testbit w y) by done. apply andb_false_r.
Qed.

Lemma lor_in_width w x y : 0 ≤ w → in_width w x → in_width w y → in_width w (Z.lor x y).
Proof.
  intros Hw Hx Hy. apply in_width_of_bits; [done| |].
  - apply Z.lor_nonneg. destruct Hx, Hy. lia.
  - intros i Hi. rewrite Z.lor_spec.
    by rewrite (in_width_testbit w x), (in_width_testbit w y).
Qed.

Lemma land_ones_in_width w x : 0 ≤ w → in_width w x → Z.land x (Z.ones w) = x.
Proof. intros. rewrite Z.land_ones by done. by apply Z.mod_small. Qed.

(** Equality of integers by comparing every bit. *)
Ltac bit_ext i Hi :=
  apply Z.bits_inj'; intros i Hi;
  repeat first
    [ rewrite Z.lxor_spec | rewrite Z.land_spec | rewrite Z.lor_spec
    | rewrite Z.lnot_spec by lia
    | rewrite Z.shiftr_spec by lia | rewrite Z.shiftl_spec by lia
    | rewrite Z.bits_0 ].

(** ** Time *)

(** Instants and durations are integers, in nanoseconds. *)
Definition NANOS_PER_SEC : Z := 1000000000.
Definition from_secs (s : Z) : Z := s * NANOS_PER_SEC.

(** [Instant::duration_since] saturates at zero. *)
Definition duration_since (later earlier : Z) : Z := Z.max 0 (later - earlier).

(** [Duration - Duration] panics on underflow. *)
Definition duration_sub (a b : Z) : option Z := if b <=? a then Some (a - b) else None.

(** ** Byte strings *)

(** A byte string is a list of [Z] in [0, 256). *)
Abbreviation bytes := (list Z).
Definition is_bytes (l : bytes) : Prop := Forall (in_width 8) l.

(** [x.to_le_bytes()] for an integer of [n] bytes, and its inverse. *)
Fixpoint to_le_bytes (n : nat) (x : Z) : bytes :=
  match n with
  | O => []
  | S n => x mod 256 :: to_le_bytes n (x / 256)
  end.

Fixpoint from_le_bytes (l : bytes) : Z :=
  match l with
  | [] => 0
  | b :: l => b + 256 * from_le_bytes l
  end.

(** [x.to_be_bytes()] and [from_be_bytes]. *)
Definition to_be_bytes (n : nat) (x : Z) : bytes := reverse (to_le_bytes n x).
Definition from_be_bytes (l : bytes) : Z := from_le_bytes (reverse l).

Lemma length_to_le_bytes n x : length (to_le_bytes n x) = n.
Proof. revert x; induction n as [|n IH]; intros x; simpl; [done|by rewrite IH]. Qed.

Lemma length_to_be_bytes n x : length (to_be_bytes n x) = n.
Proof. unfold to_be_bytes. by rewrite length_reverse, length_to_le_bytes. Qed.

Lemma to_le_bytes_is_bytes n x : is_bytes (to_le_bytes n x).
Proof.
  revert x; induction n as [|n IH]; intros x; simpl; constructor; [|apply IH].
  unfold in_width. pose proof (Z.mod_pos_bound x 256). lia.
Qed.

Lemma to_be_bytes_is_bytes n x : is_bytes (to_be_bytes n x).
Proof. unfold is_bytes, to_be_bytes. apply Forall_reverse, to_le_bytes_is_bytes. Qed.

Lemma from_to_le_bytes n x :
  in_width (8 * Z.of_nat n) x → from_le_bytes (to_le_bytes n x) = x.
Proof.
  revert x; induction n as [|n IH]; intros x Hx; simpl.
  - unfold in_width in Hx. simpl in Hx. lia.
  - rewrite IH.
    + pose proof (Z.div_mod x 256). lia.
    + unfold in_width in *.
      replace (8 * Z.of_nat (S n)) with (8 + 8 * Z.of_nat n) in Hx by lia.
      rewrite Z.pow_add_r in Hx by lia. change (2 ^ 8) with 256 in Hx.
      split; [apply Z.div_pos; lia|]. apply Z.div_lt_upper_bound; lia.
Qed.

Lemma from_to_be_bytes n x :
  in_width (8 * Z.of_nat n) x → from_be_bytes (to_be_bytes n x) = x.
Proof.
  intros. unfold from_be_bytes, to_be_bytes.
  by rewrite reverse_involutive, from_to_le_bytes.
Qed.

Lemma to_from_le_bytes l :
  is_bytes l → to_le_bytes (length l) (from_le_bytes l) = l.
Proof.
  induction 1 as [|b l Hb Hl IH]; [done|]. simpl.
  unfold in_width in Hb. change (2 ^ 8) with 256 in Hb.
  replace (b + 256 * from_le_bytes l) with (from_le_bytes l * 256 + b) by lia.
  rewrite Z.add_comm, Z.mod_add by lia. rewrite Z.mod_small by lia.
  rewrite Z.div_add by lia. rewrite Z.div_small by lia. by rewrite Z.add_0_l, IH.
Qed.

Lemma from_le_bytes_bound l :
  is_bytes l → in_width (8 * Z.of_nat (length l)) (from_le_bytes l).
Proof.
  unfold in_width. induction 1 as [|b l Hb Hl IH]; [simpl; lia|].
  cbn [length from_le_bytes]. unfold in_width in Hb. change (2 ^ 8) with 256 in Hb.
  replace (8 * Z.of_nat (S (length l))) with (8 + 8 * Z.of_nat (length l)) by lia.
  rewrite Z.pow_add_r by lia. change (2 ^ 8) with 256. lia.
Qed.

Lemma to_from_be_bytes l :
  is_bytes l → to_be_bytes (length l) (from_be_bytes l) = l.
Proof.
  intros Hl. unfold to_be_bytes, from_be_bytes.
  rewrite <- (length_reverse l), to_from_le_bytes by by apply Forall_reverse.
  apply reverse_involutive.
Qed.

Lemma from_be_bytes_bound l :
  is_bytes l → in_width (8 * Z.of_nat (length l)) (from_be_bytes l).
Proof.
  intros. unfold from_be_bytes. rewrite <- (length_reverse l).
  by apply from_le_bytes_bound, Forall_reverse.
Qed.

(** [&buf[a..b]] *)
Definition slice (a b : nat) (l : bytes) : bytes := take (b - a) (drop a l).

(** [buf[off..off + data.len()].copy_from_slice(data)] *)
Definition write_at (off : nat) (data l : bytes) : bytes :=
  take off l ++ data ++ drop (off + length data) l.

Lemma length_slice a b l : (a ≤ b ≤ length l)%nat → length (slice a b l) = (b - a)%nat.
Proof. intros. unfold slice. rewrite length_take, length_drop. lia. Qed.

Lemma length_write_at off data l :
  (off + length data ≤ length l)%nat → length (write_at off data l) = length l.
Proof. intros. unfold write_at. rewrite !length_app, length_take, length_drop. lia. Qed.

Lemma slice_is_bytes a b l : is_bytes l → is_bytes (slice a b l).
Proof. intros. unfold slice. by apply Forall_take, Forall_drop. Qed.

(** A slice that lies inside the middle part of a three-part buffer. *)
Lemma slice_app_mid (p d s : bytes) :
  slice (length p) (length p + length d) (p ++ d ++ s) = d.
Proof.
  unfold slice. rewrite drop_app_length.
  replace (length p + length d - length p)%nat with (length d) by lia.
  apply take_app_length.
Qed.

Lemma slice_app_mid' a b (p d s : bytes) :
  a = length p → b = (length p + length d)%nat → slice a b (p ++ d ++ s) = d.
Proof. intros -> ->. apply slice_app_mid. Qed.

(** ** Generic lemmas on options and lists *)

Lemma fold_left_invariant {A S} (P : S → Prop) (f : S → A → S) l s :
  P s → (∀ s a, a ∈ l → P s → P (f s a)) → P (fold_left f l s).
Proof.
  revert s; induction l as [|a l IH]; intros s Hs Hf; simpl; [done|].
  apply IH; [apply Hf; [left|done]|]. intros s' a' Ha'. apply Hf. by right.
Qed.

Lemma lookup_snoc {A} (l : list A) x : (l ++ [x]) !! length l = Some x.
Proof. by rewrite lookup_app_r, Nat.sub_diag by lia. Qed.

(** Closes goals on the width of machine integers. *)
Create HintDb widths discriminated.
#[export] Hint Resolve in_width_0 wrap_in_width lxor_in_width land_in_width_r lor_in_width
  to_le_bytes_is_bytes to_be_bytes_is_bytes slice_is_bytes : widths.
#[export] Hint Extern 1 (_ ≤ _) => lia : widths.
Create Rewrite HintDb lengths.
#[export] Hint Rewrite length_to_le_bytes length_to_be_bytes : lengths.

Lemma lxor_cancel_r a b c : Z.lxor a c = Z.lxor b c → a = b.
Proof.
  intros H. apply (f_equal (λ z, Z.lxor z c)) in H.
  by rewrite !Z.lxor_assoc, Z.lxor_nilpotent, !Z.lxor_0_r in H.
Qed.

(** ** Counting the entries of a map that satisfy a test *)

Section count.
Context {K A : Type} `{Countable K} (f : A → bool).

Definition map_count (m : gmap K A) : nat := size (filter (λ kv, f kv.2 = true) m).

Lemma map_count_insert_None m k a :
  m !! k = None → map_count (<[k:=a]> m) = (Nat.b2n (f a) + map_count m)%nat.
Proof.
  intros Hk. unfold map_count. destruct (f a) eqn:Hf.
  - rewrite map_filter_insert_True by done. rewrite map_size_insert_None; [done|].
    apply map_lookup_filter_None. by left.
  - rewrite map_filter_insert_False by (simpl; congruence).
    by rewrite delete_id by done.
Qed.

Lemma map_count_update m k a b :
  m !! k = Some a →
  (map_count (<[k:=b]> m) + Nat.b2n (f a) = map_count m + Nat.b2n (f b))%nat.
Proof.
  intros Hk. rewrite <- (insert_id m k a Hk) at 2.
  rewrite <- (insert_delete_eq m k a), <- (insert_delete_eq m k b).
  rewrite !map_count_insert_None by apply lookup_delete_eq. lia.
Qed.
End count.

Lemma map_to_list_disj_union {K A} `{Countable K} (m1 m2 : gmap K A) :
  m1 ##ₘ m2 → map_to_list (m1 ∪ m2) ≡ₚ map_to_list m1 ++ map_to_list m2.
Proof.
  intros Hd. apply NoDup_Permutation.
  - apply NoDup_map_to_list.
  - apply list.NoDup_app. split_and!; [apply NoDup_map_to_list| |apply NoDup_map_to_list].
    intros [k a] H1%elem_of_map_to_list H2%elem_of_map_to_list. by eapply map_disjoint_spec.
  - intros [k a]. rewrite elem_of_app, !elem_of_map_to_list. by apply lookup_union_Some.
Qed.

(** ** Bounds-checked access *)

(** [&buf[a..b]]: [None] is the bounds panic. *)
Definition get_range (a b : nat) (l : bytes) : option bytes :=
  if decide (a ≤ b ≤ length l)%nat then Some (slice a b l) else None.

(** [buf[a..b].copy_from_slice(data)]: [None] is a bounds or length panic. *)
Definition copy_range (a b : nat) (data l : bytes) : option bytes :=
  if decide ((a ≤ b ≤ length l)%nat ∧ length data = (b - a)%nat) then Some (write_at a data l)
  else None.

Lemma get_range_Some a b l : (a ≤ b ≤ length l)%nat → get_range a b l = Some (slice a b l).
Proof. intros. unfold get_range. by rewrite decide_True. Qed.

Lemma copy_range_Some a b data l :
  (a ≤ b ≤ length l)%nat → length data = (b - a)%nat → copy_range a b data l = Some (write_at a data l).
Proof. intros. unfold copy_range. by rewrite decide_True. Qed.

Lemma lookup_byte_Some l i : (i < length l)%nat → ∃ b, l !! i = Some b ∧ (is_bytes l → in_width 8 b).
Proof.
  intros Hi. destruct (lookup_lt_is_Some_2 l i Hi) as [b Hb]. exists b. split; [done|].
  intros Hl. by eapply Forall_lookup_1.
Qed.

(** Reading a field placed after [pre]. *)
Lemma get_range_field pre field post a b :
  a = length pre → b = (length pre + length field)%nat →
  get_range a b (pre ++ field ++ post) = Some field.
Proof.
  intros -> ->. rewrite get_range_Some by (rewrite !length_app; lia).
  by rewrite slice_app_mid.
Qed.

Lemma get_range_skip pre post a b :
  (length pre ≤ a ≤ b)%nat →
  get_range a b (pre ++ post) = get_range (a - length pre) (b - length pre) post.
Proof.
  intros Ha. unfold get_range, slice. rewrite length_app.
  destruct (decide (a ≤ b ≤ length pre + length post)%nat).
  - rewrite decide_True by lia. rewrite drop_app_ge by lia. do 2 f_equal. lia.
  - by rewrite decide_False by lia.
Qed.

Lemma get_range_head field post b : b = length field → get_range 0 b (field ++ post) = Some field.
Proof. intros ->. by apply (get_range_field []). Qed.

Lemma get_range_all l b : b = length l → get_range 0 b l = Some l.
Proof. intros ->. rewrite <- (app_nil_r l) at 2. by apply get_range_head. Qed.

(** Splitting a buffer at a boundary. *)
Lemma drop_slice a b l : (a ≤ b)%nat → drop a l = slice a b l ++ drop b l.
Proof.
  intros Hab. unfold slice. rewrite <- (take_drop (b - a) (drop a l)) at 1.
  rewrite drop_drop. do 2 f_equal. lia.
Qed.

Lemma le_bytes_slice a n l :
  is_bytes l → (a + n ≤ length l)%nat →
  to_le_bytes n (from_le_bytes (slice a (a + n) l)) = slice a (a + n) l ∧
  in_width (8 * Z.of_nat n) (from_le_bytes (slice a (a + n) l)).
Proof.
  intros Hl Hn. assert (length (slice a (a + n) l) = n) as Hs by (rewrite length_slice; lia).
  split.
  - rewrite <- Hs at 1. by apply to_from_le_bytes, slice_is_bytes.
  - rewrite <- Hs at 1. by apply from_le_bytes_bound, slice_is_bytes.
Qed.

(** Overwriting a field placed after [pre]. *)
Lemma copy_range_field pre field post data a b :
  a = length pre → b = (length pre + length field)%nat → length data = length field →
  copy_range a b data (pre ++ field ++ post) = Some (pre ++ data ++ post).
Proof.
  intros -> -> Hl. rewrite copy_range_Some by (rewrite ?length_app; lia).
  unfold write_at. rewrite take_app_length, Hl, (app_assoc pre field), drop_app_ge by (rewrite length_app; lia).
  by rewrite length_app, Nat.sub_diag, drop_0.
Qed.

(** ** Sums over a list that is updated in place *)

Lemma sum_list_with_insert {A} (f : A → nat) l i x y :
  l !! i = Some x → (sum_list_with f (<[i := y]> l) + f x = sum_list_with f l + f y)%nat.
Proof.
  revert i; induction l as [|z l IH]; intros [|i] H; simpl in *; [done..|injection H as ->; lia|].
  specialize (IH _ H). lia.
Qed.

Lemma sum_list_with_snoc {A} (f : A → nat) l x :
  sum_list_with f (l ++ [x]) = (sum_list_with f l + f x)%nat.
Proof. rewrite sum_list_with_app. simpl. lia. Qed.

Lemma filter_bool_ext {A} (f g : A → bool) (l : list A) :
  (∀ x, x ∈ l → f x = g x) →
  filter (λ x, f x = true) l = filter (λ x, g x = true) l.
Proof.
  induction l as [|x l IH]; intros Hfg; [done|].
  rewrite !filter_cons, Hfg by left. rewrite IH; [done|]. intros y Hy. apply Hfg. by right.
Qed.
