(* ===== verification/Index.v ===== *)
(** * Peer indexes: [tendrilix/src/index.rs]

    [IndexGenerator] hands out 24-bit peer indexes by stepping a Galois LFSR.
    The definitions follow the methods of the struct; the atomics are modelled
    twice, once as one sequential call ([new_index]) and once as interleaved
    atomic steps of many threads ([Module Interleaved]).

    The main result is that the 2^24 - 1 indexes handed out before the
    generator panics are pairwise distinct, non-zero 24-bit values. It rests on
    the LFSR having full period, which is proved by linear algebra over GF(2):
    one step is a 24x24 matrix, its (2^24 - 1)-th power is the identity, and
    for each prime divisor p of 2^24 - 1 the matrix of (2^24 - 1)/p steps plus
    the identity is invertible. *)

From Stdlib Require Import Zdivisibility.
From S2P Require Import Prelude.

(** ** The generator *)

(** The three atomics of [struct IndexGenerator]. *)
Record index_generator := IndexGenerator {
  lfsr : Z;
  remaining : Z;
  mask : Z
}.

Definition LFSR_MAX : Z := 0x00ffffff.
Definition LFSR_POLY : Z := 0x00d80000.

Definition new : index_generator :=
  {| lfsr := 0; remaining := LFSR_MAX; mask := 0 |}.

(** [draws] are the values the caller's RNG returns from [next_u32], in order;
    [None] when the loop has used all of them without a non-zero index. *)
Fixpoint random_index (draws : list Z) : option (Z * list Z) :=
  match draws with
  | [] => None
  | d :: draws =>
      let value := Z.land d LFSR_MAX in
      if decide (value ≠ 0) then Some (value, draws) else random_index draws
  end.

Definition initialize (draws : list Z) (g : index_generator)
    : option (index_generator * list Z) :=
  if decide (lfsr g ≠ 0) then Some (g, draws)
  else
    let! '(seed, draws) := random_index draws in
    let! '(m, draws) := random_index draws in
    (* compare_exchange(0, seed) succeeds: nobody else runs *)
    Some ({| lfsr := seed; remaining := remaining g; mask := m |}, draws).

(** The u32 arithmetic of [step]: [0u32.wrapping_sub(state & 1)]. *)
Definition step (state : Z) : Z :=
  Z.lxor (Z.shiftr state 1) (Z.land (wrap 32 (0 - Z.land state 1)) LFSR_POLY).

(** The index returned once [current] has been exchanged. *)
Definition index_of (current mask : Z) : Z :=
  let index := Z.land (Z.lxor (current - 1) mask) LFSR_MAX in
  if decide (index = 0) then Z.lxor LFSR_MAX mask else index.

(** [None] is a panic: the generator is not initialized, or exhausted. *)
Definition new_index (g : index_generator) : option (Z * index_generator) :=
  if decide (lfsr g = 0) then None
  else if decide (remaining g = 0) then None
  else
    let current := lfsr g in
    Some (index_of current (mask g),
      {| lfsr := step current; remaining := remaining g - 1; mask := mask g |}).

(** [n] successive calls: the indexes returned and the final generator. *)
Fixpoint new_indexes (n : nat) (g : index_generator) : option (list Z * index_generator) :=
  match n with
  | O => Some ([], g)
  | S n =>
      let! '(i, g) := new_index g in
      let! '(rest, g) := new_indexes n g in
      Some (i :: rest, g)
  end.

(** What [initialize] establishes and [new_index] preserves. *)
Definition wf (g : index_generator) : Prop :=
  0 < lfsr g ≤ LFSR_MAX ∧ 0 < mask g ≤ LFSR_MAX ∧ 0 ≤ remaining g ≤ LFSR_MAX.

(** ** Linear maps on 24-bit vectors *)

(** A linear map is given by its columns: the images of bits 0, 1, 2, ... *)
Fixpoint apply_cols (cols : list Z) (i : Z) (v : Z) : Z :=
  match cols with
  | [] => 0
  | c :: cols => Z.lxor (if Z.testbit v i then c else 0) (apply_cols cols (i + 1) v)
  end.

Definition mat_apply (m : list Z) (v : Z) : Z := apply_cols m 0 v.
Definition mat_mul (a b : list Z) : list Z := map (mat_apply a) b.
Definition mat_add (a b : list Z) : list Z := zip_with Z.lxor a b.
Definition mat_id : list Z := map (λ i, 2 ^ Z.of_nat i) (seq 0 24).

Fixpoint mat_pow (m : list Z) (p : positive) : list Z :=
  match p with
  | xH => m
  | xO p => let q := mat_pow m p in mat_mul q q
  | xI p => let q := mat_pow m p in mat_mul m (mat_mul q q)
  end.

(** One LFSR step as a matrix. *)
Definition mat_step : list Z := map step mat_id.

Definition vec (v : Z) : Prop := in_width 24 v.
Definition mat (m : list Z) : Prop := length m = 24%nat ∧ Forall vec m.

Lemma apply_cols_lxor m i u v :
  apply_cols m i (Z.lxor u v) = Z.lxor (apply_cols m i u) (apply_cols m i v).
Proof.
  revert i; induction m as [|c m IH]; intros i; simpl; [done|].
  rewrite IH, Z.lxor_spec.
  destruct (Z.testbit u i), (Z.testbit v i); simpl; rewrite ?Z.lxor_0_l;
    bit_ext j Hj; repeat destruct (Z.testbit _ _); done.
Qed.

Lemma apply_cols_vec m i v : Forall vec m → vec (apply_cols m i v).
Proof.
  intros Hm; revert i; induction Hm as [|c m Hc Hm IH]; intros i; simpl.
  - by apply in_width_0.
  - apply lxor_in_width; [lia| |apply IH].
    destruct (Z.testbit v i); [done|by apply in_width_0].
Qed.

Lemma mat_apply_0 m : mat_apply m 0 = 0.
Proof.
  unfold mat_apply. generalize 0 at 1. induction m as [|c m IH]; intros i; simpl; [done|].
  by rewrite Z.bits_0, IH.
Qed.

(** Composition of two linear maps. *)
Lemma apply_cols_map a b i v :
  apply_cols (map (mat_apply a) b) i v = mat_apply a (apply_cols b i v).
Proof.
  revert i; induction b as [|c b IH]; intros i; simpl.
  - by rewrite mat_apply_0.
  - rewrite IH. unfold mat_apply at 2 3. rewrite apply_cols_lxor.
    f_equal. destruct (Z.testbit v i); [done|].
    symmetry. apply mat_apply_0.
Qed.

Lemma mat_mul_apply a b v : mat_apply (mat_mul a b) v = mat_apply a (mat_apply b v).
Proof. apply apply_cols_map. Qed.

Lemma apply_cols_zip a b i v :
  length a = length b →
  apply_cols (zip_with Z.lxor a b) i v = Z.lxor (apply_cols a i v) (apply_cols b i v).
Proof.
  revert b i; induction a as [|c a IH]; intros [|d b] i Hl; simpl; try done.
  rewrite IH by (simpl in Hl; lia).
  destruct (Z.testbit v i); bit_ext j Hj; repeat destruct (Z.testbit _ _); done.
Qed.

Lemma mat_mul_mat a b : mat a → mat b → mat (mat_mul a b).
Proof.
  intros [Hla Ha] [Hlb Hb]. unfold mat_mul. split; [by rewrite length_map|].
  apply Forall_map, Forall_true. intros v. by apply apply_cols_vec.
Qed.

Lemma mat_pow_mat m p : mat m → mat (mat_pow m p).
Proof. intros Hm. induction p; simpl; eauto using mat_mul_mat. Qed.

Lemma mat_apply_vec m v : mat m → vec (mat_apply m v).
Proof. intros [_ Hm]. by apply apply_cols_vec. Qed.

Lemma mat_pow_apply m p v : mat_apply (mat_pow m p) v = Pos.iter (mat_apply m) v p.
Proof.
  revert v; induction p as [p IH|p IH|]; intros v; simpl; [| |done].
  - by rewrite !mat_mul_apply, !IH.
  - by rewrite mat_mul_apply, !IH.
Qed.

Lemma mat_pow_iter m p v : mat_apply (mat_pow m p) v = Nat.iter (Pos.to_nat p) (mat_apply m) v.
Proof. rewrite mat_pow_apply. apply Pos2Nat.inj_iter. Qed.

(** The columns [2^k, 2^(k+1), ...] give back the bits from [k] on. *)
Lemma apply_cols_id n k v :
  0 ≤ k → in_width (k + Z.of_nat n) v →
  apply_cols (map (λ i, 2 ^ Z.of_nat i) (seq (Z.to_nat k) n)) k v
    = Z.shiftl (Z.shiftr v k) k.
Proof.
  revert k; induction n as [|n IH]; intros k Hk Hv; cbn [seq map apply_cols].
  - rewrite Z.shiftr_div_pow2 by lia. rewrite Z.div_small; [by rewrite Z.shiftl_0_l|].
    unfold in_width in Hv. by replace (k + Z.of_nat 0) with k in Hv by lia.
  - replace (S (Z.to_nat k)) with (Z.to_nat (k + 1)) by lia.
    rewrite IH; [|lia|by replace (k + 1 + Z.of_nat n) with (k + Z.of_nat (S n)) by lia].
    rewrite Z2Nat.id by lia.
    bit_ext j Hj.
    assert (Hb : Z.testbit (if Z.testbit v k then 2 ^ k else 0) j
      = (Z.testbit v k && bool_decide (j = k))).
    { destruct (Z.testbit v k); [|by rewrite Z.bits_0].
      rewrite Z.pow2_bits_eqb by lia. case_bool_decide; simpl; [|]; by try apply Z.eqb_neq; lia. }
    rewrite Hb. clear Hb.
    destruct (decide (j < k)) as [Hjk|Hjk].
    + rewrite !(Z.testbit_neg_r _ (j - _)) by lia.
      rewrite bool_decide_eq_false_2 by lia. by rewrite andb_false_r.
    + rewrite (Z.shiftr_spec _ _ (j - k)) by lia.
      replace (j - k + k) with j by lia.
      destruct (decide (j = k)) as [->|Hne].
      * rewrite (Z.testbit_neg_r _ (k - (k + 1))) by lia.
        rewrite bool_decide_eq_true_2 by done. by rewrite andb_true_r, xorb_false_r.
      * rewrite (Z.shiftr_spec _ _ (j - (k + 1))) by lia.
        rewrite bool_decide_eq_false_2 by done. rewrite andb_false_r, xorb_false_l.
        f_equal. lia.
Qed.

Lemma mat_id_apply v : vec v → mat_apply mat_id v = v.
Proof.
  intros Hv. unfold mat_apply, mat_id.
  rewrite (apply_cols_id 24 0) by done.
  by rewrite Z.shiftr_0_r, Z.shiftl_0_r.
Qed.

(** ** The LFSR as a matrix *)

Lemma step_alt v : step v = Z.lxor (Z.shiftr v 1) (if Z.testbit v 0 then LFSR_POLY else 0).
Proof.
  unfold step. f_equal.
  assert (Z.land v 1 = Z.b2z (Z.testbit v 0)) as ->.
  { change 1 with (Z.ones 1). rewrite Z.land_ones, Z.bit0_mod by lia. done. }
  by destruct (Z.testbit v 0).
Qed.

Lemma step_lxor u v : step (Z.lxor u v) = Z.lxor (step u) (step v).
Proof.
  rewrite !step_alt, Z.lxor_spec. generalize LFSR_POLY; intros poly.
  destruct (Z.testbit u 0), (Z.testbit v 0); simpl; bit_ext i Hi;
    repeat destruct (Z.testbit _ _); done.
Qed.

Lemma step_vec v : vec v → vec (step v).
Proof.
  intros Hv. rewrite step_alt. apply lxor_in_width; [lia| |].
  - destruct Hv. apply in_width_of_bits; [lia|by apply Z.shiftr_nonneg|].
    intros i Hi. rewrite Z.shiftr_spec by lia. apply (in_width_testbit 24); [done|lia|lia].
  - destruct (Z.testbit v 0); [done|by apply in_width_0].
Qed.

Lemma mat_step_apply v : vec v → mat_apply mat_step v = step v.
Proof.
  intros Hv. unfold mat_apply, mat_step.
  assert (∀ m i, apply_cols (map step m) i v = step (apply_cols m i v)) as ->.
  { induction m as [|c m IH]; intros i; cbn [map apply_cols]; [done|].
    rewrite IH, step_lxor. by destruct (Z.testbit v i). }
  f_equal. by apply mat_id_apply.
Qed.

Lemma mat_step_mat : mat mat_step.
Proof. split; [done|]. unfold mat_step. apply Forall_map. by repeat constructor. Qed.

Lemma iter_step_vec k v : vec v → vec (Nat.iter k step v).
Proof. intros. apply Nat.iter_invariant; [apply step_vec|done]. Qed.

Lemma mat_pow_step p v : vec v → mat_apply (mat_pow mat_step p) v = Nat.iter (Pos.to_nat p) step v.
Proof.
  intros Hv. rewrite mat_pow_apply, Pos2Nat.inj_iter.
  induction (Pos.to_nat p) as [|n IH]; simpl; [done|].
  rewrite IH. by apply mat_step_apply, iter_step_vec.
Qed.

Definition period : positive := 16777215.

Lemma mat_step_period : mat_pow mat_step period = mat_id.
Proof. vm_compute. reflexivity. Qed.

Lemma step_period v : vec v → Nat.iter (Pos.to_nat period) step v = v.
Proof.
  intros Hv. rewrite <- mat_pow_step by done. rewrite mat_step_period. by apply mat_id_apply.
Qed.

(** The prime divisors of [period], and the map "after period/p steps, minus
    the identity". *)
Definition period_primes : list positive := [3; 5; 7; 13; 17; 241]%positive.

Definition mat_diff (p : positive) : list Z :=
  mat_add (mat_pow mat_step (Z.to_pos (Z.pos period / Z.pos p))) mat_id.

Lemma mat_diff_period :
  forallb (λ p, bool_decide (mat_pow (mat_diff p) period = mat_id)) period_primes = true.
Proof. vm_compute. reflexivity. Qed.

Lemma mat_diff_apply p v :
  p ∈ period_primes → vec v →
  mat_apply (mat_diff p) v
    = Z.lxor (Nat.iter (Z.to_nat (Z.pos period / Z.pos p)) step v) v.
Proof.
  intros Hp Hv. unfold mat_diff, mat_add, mat_apply.
  assert (0 < Z.pos period / Z.pos p) as Hpos.
  { apply Z.div_str_pos. unfold period_primes in Hp.
    repeat (apply elem_of_cons in Hp as [->|Hp]; [unfold period; lia|]).
    by apply elem_of_nil in Hp. }
  rewrite apply_cols_zip
    by by destruct (mat_pow_mat mat_step (Z.to_pos (Z.pos period / Z.pos p)) mat_step_mat).
  fold (mat_apply (mat_pow mat_step (Z.to_pos (Z.pos period / Z.pos p))) v).
  fold (mat_apply mat_id v).
  rewrite mat_pow_step, mat_id_apply by done.
  by rewrite <- Z2Nat.inj_pos, Z2Pos.id by done.
Qed.

(** No non-zero state comes back to itself after period/p steps. *)
Lemma step_no_short_period p v :
  p ∈ period_primes → vec v →
  Nat.iter (Z.to_nat (Z.pos period / Z.pos p)) step v = v → v = 0.
Proof.
  intros Hp Hv Hfix.
  assert (mat_apply (mat_diff p) v = 0) as Hdiff.
  { rewrite mat_diff_apply, Hfix by done. apply Z.lxor_nilpotent. }
  pose proof mat_diff_period as Hall. rewrite forallb_forall in Hall.
  apply list_elem_of_In, Hall, bool_decide_eq_true in Hp.
  rewrite <- (mat_id_apply v Hv), <- Hp, mat_pow_iter.
  destruct (Pos2Nat.is_succ period) as [n ->]. rewrite Nat.iter_succ_r, Hdiff.
  induction n as [|n IH]; [done|]. simpl. by rewrite IH, mat_apply_0.
Qed.

(** ** Divisors of the period *)

Lemma period_primes_prime p : p ∈ period_primes → Z.prime (Z.pos p).
Proof.
  assert (∀ q, 1 < q →
    forallb (λ i, negb (q mod Z.of_nat i =? 0)) (seq 2 (Z.to_nat q - 2)) = true → Z.prime q) as Hchk.
  { intros q Hq Hf. split; [done|]. intros n Hn Hd.
    rewrite forallb_forall in Hf. specialize (Hf (Z.to_nat n)).
    rewrite Z2Nat.id in Hf by lia. apply Z.mod_divide in Hd; [|lia].
    rewrite Hd in Hf. discriminate Hf. apply in_seq. lia. }
  intros Hp. unfold period_primes in Hp.
  repeat (apply elem_of_cons in Hp as [->|Hp]; [apply Hchk; [lia|by vm_compute]|]).
  by apply elem_of_nil in Hp.
Qed.

(** A divisor of the period other than 1 has one of the listed primes. *)
Lemma period_divisor m :
  (m | Z.pos period) → 1 < m → ∃ p, p ∈ period_primes ∧ (Z.pos p | m).
Proof.
  intros Hm Hm1.
  destruct (decide (Exists (λ p, Z.gcd (Z.pos p) m ≠ 1) period_primes)) as [He|Hn].
  - apply List.Exists_exists in He as (p & Hp%list_elem_of_In & Hgcd).
    exists p. split; [done|].
    destruct (decide (m mod Z.pos p = 0)) as [Hd|Hd]; [by apply (proj1 (Z.mod_divide m (Z.pos p) ltac:(lia)))|].
    exfalso. apply Hgcd, Z.coprime_prime_l; [by apply period_primes_prime|].
    intros Hdiv. apply Hd. by apply (proj2 (Z.mod_divide m (Z.pos p) ltac:(lia))).
  - exfalso. apply not_Exists_Forall in Hn; [|intros ?; apply _].
    assert (∀ p, p ∈ period_primes → Z.coprime m (Z.pos p)) as Hrel.
    { intros p Hp. rewrite List.Forall_forall in Hn. apply list_elem_of_In, Hn in Hp.
      symmetry. unfold Z.coprime. by apply dec_stable. }
    assert (Z.coprime m (Z.pos period)) as Hr.
    { change (Z.pos period) with (3 * (3 * (5 * (7 * (13 * (17 * 241)))))).
      repeat apply Z.coprime_mul_r; apply (Hrel _); unfold period_primes; set_solver. }
    assert ((m | Z.gcd m (Z.pos period))) as Hd by by apply Z.gcd_greatest.
    rewrite Hr in Hd. apply Z.divide_1_r_nonneg in Hd; lia.
Qed.

Lemma period_LFSR_MAX : Z.of_nat (Pos.to_nat period) = LFSR_MAX.
Proof. by rewrite positive_nat_Z. Qed.

(** *** The LFSR has full period. *)

Lemma iter_step_fix_mul k v n :
  Nat.iter k step v = v → Nat.iter (n * k) step v = v.
Proof.
  intros Hk. induction n as [|n IH]; simpl; [done|].
  by rewrite Nat.iter_add, IH.
Qed.

Lemma step_full_period k v :
  vec v → v ≠ 0 → (0 < k < Pos.to_nat period)%nat → Nat.iter k step v ≠ v.
Proof.
  intros Hv Hv0 Hk Hfix.
  assert (Nat.iter (Pos.to_nat period) step v = v) as HN by exact (step_period v Hv).
  remember (Pos.to_nat period) as N eqn:HNp.
  assert (Nat.iter (Nat.gcd k N) step v = v) as Hg.
  { destruct (Nat.gcd_bezout_pos k N) as (a & b & Hab); [lia|].
    pose proof (iter_step_fix_mul k v a Hfix) as Ha.
    rewrite Hab, Nat.iter_add in Ha.
    by rewrite (iter_step_fix_mul N v b HN) in Ha. }
  assert (Nat.gcd k N ≤ k)%nat as Hgk by (apply Nat.divide_pos_le; [lia|apply Nat.gcd_divide_l]).
  pose proof (Nat.gcd_divide_r k N) as [m Hm].
  remember (Nat.gcd k N) as g eqn:Hgdef. clear Hgdef.
  assert (g ≠ 0)%nat as Hg0 by (intros E; rewrite E in Hm; lia).
  assert (1 < m)%nat as Hm1 by nia.
  destruct (period_divisor (Z.of_nat m)) as (p & Hp & [q Hq]); [|lia|].
  { exists (Z.of_nat g). lia. }
  apply Hv0, (step_no_short_period p); [done..|].
  assert (Z.pos period / Z.pos p = q * Z.of_nat g) as ->.
  { replace (Z.pos period) with (q * Z.of_nat g * Z.pos p) by lia.
    by apply Z.div_mul. }
  assert (0 ≤ q) by lia.
  rewrite Z2Nat.inj_mul, Nat2Z.id by lia. by apply iter_step_fix_mul.
Qed.

(** ** Sequential calls *)

Lemma wf_vec g : wf g → vec (lfsr g) ∧ vec (mask g).
Proof. unfold wf, vec, in_width, LFSR_MAX. lia. Qed.

Lemma land_LFSR_MAX v : vec v → Z.land v LFSR_MAX = v.
Proof. intros. change LFSR_MAX with (Z.ones 24). by apply land_ones_in_width. Qed.

Lemma vec_LFSR_MAX : vec LFSR_MAX.
Proof. done. Qed.

Lemma index_of_range c m :
  0 < c ≤ LFSR_MAX → 0 < m ≤ LFSR_MAX → 0 < index_of c m ≤ LFSR_MAX.
Proof.
  intros Hc Hm.
  assert (vec (c - 1)) as Hcv by (unfold vec, in_width, LFSR_MAX in *; lia).
  assert (vec m) as Hmv by (unfold vec, in_width, LFSR_MAX in *; lia).
  unfold index_of. rewrite land_LFSR_MAX by by apply lxor_in_width.
  assert (∀ z, vec z → z ≠ 0 → 0 < z ≤ LFSR_MAX) as Hpos
    by (unfold vec, in_width, LFSR_MAX; lia).
  case_decide as H0; apply Hpos; [| |by apply lxor_in_width|done].
  - by apply lxor_in_width, Hmv.
  - intros E. apply Z.lxor_eq in H0, E. lia.
Qed.

Lemma index_of_inj c d m :
  0 < c ≤ LFSR_MAX → 0 < d ≤ LFSR_MAX → 0 < m ≤ LFSR_MAX →
  index_of c m = index_of d m → c = d.
Proof.
  intros Hc Hd Hm.
  assert (vec (c - 1) ∧ vec (d - 1) ∧ vec m) as (Hcv & Hdv & Hmv)
    by (unfold vec, in_width, LFSR_MAX in *; lia).
  unfold index_of. rewrite !land_LFSR_MAX by by apply lxor_in_width.
  repeat case_decide; intros E.
  - apply Z.lxor_eq in H, H0. lia.
  - apply lxor_cancel_r in E. lia.
  - apply lxor_cancel_r in E. lia.
  - apply lxor_cancel_r in E. lia.
Qed.

Lemma step_nonzero v : 0 < v ≤ LFSR_MAX → 0 < step v ≤ LFSR_MAX.
Proof.
  intros Hv. assert (vec v) as Hvv by (unfold vec, in_width, LFSR_MAX in *; lia).
  pose proof (step_vec v Hvv) as Hs.
  destruct (decide (step v = 0)) as [E|]; [|unfold vec, in_width, LFSR_MAX in *; lia].
  exfalso. pose proof (step_period v Hvv) as Hp.
  destruct (Pos2Nat.is_succ period) as [n Hn]. rewrite Hn, Nat.iter_succ_r, E in Hp.
  assert (Nat.iter n step 0 = 0) as H0 by (clear; induction n as [|n IH]; simpl; [done|by rewrite IH]).
  lia.
Qed.

Lemma iter_step_nonzero k v : 0 < v ≤ LFSR_MAX → 0 < Nat.iter k step v ≤ LFSR_MAX.
Proof. intros Hv. apply Nat.iter_invariant; [apply step_nonzero|done]. Qed.

(** The states visited within one period are pairwise distinct. *)
Lemma iter_step_inj i j v :
  0 < v ≤ LFSR_MAX → (i < Pos.to_nat period)%nat → (j < Pos.to_nat period)%nat →
  Nat.iter i step v = Nat.iter j step v → i = j.
Proof.
  intros Hv. assert (∀ i j, (i < j < Pos.to_nat period)%nat →
    Nat.iter i step v ≠ Nat.iter j step v) as Hlt.
  { clear i j. intros i j Hij E. pose proof (iter_step_nonzero i v Hv) as Hi.
    apply (step_full_period (j - i) (Nat.iter i step v)); [|lia|lia|].
    - unfold vec, in_width, LFSR_MAX in *. lia.
    - rewrite <- Nat.iter_add. by replace (j - i + i)%nat with j by lia. }
  intros Hi Hj E. destruct (Nat.lt_trichotomy i j) as [|[|]]; [|done|]; exfalso.
  - by apply (Hlt i j).
  - by apply (Hlt j i).
Qed.

Lemma new_index_wf g i g' : wf g → new_index g = Some (i, g') → wf g'.
Proof.
  intros (Hl & Hm & Hr). unfold new_index. repeat case_decide; try done.
  intros [= <- <-]. pose proof (step_nonzero (lfsr g) Hl). unfold wf; simpl. lia.
Qed.

Definition index_at (g : index_generator) (k : nat) : Z :=
  index_of (Nat.iter k step (lfsr g)) (mask g).

(** [n] successive calls return the first [n] points of the LFSR orbit. *)
Lemma new_indexes_orbit n g :
  wf g → Z.of_nat n ≤ remaining g →
  new_indexes n g = Some (map (index_at g) (seq 0 n),
    {| lfsr := Nat.iter n step (lfsr g); remaining := remaining g - Z.of_nat n;
       mask := mask g |}).
Proof.
  revert g; induction n as [|n IH]; intros g Hg Hn.
  - simpl. do 2 f_equal. destruct g; simpl. f_equal. lia.
  - cbn [new_indexes]. destruct (new_index g) as [[i g']|] eqn:Hi.
    2: { exfalso. destruct Hg as (Hl & _). unfold new_index in Hi.
         repeat case_decide; try done; lia. }
    pose proof (new_index_wf _ _ _ Hg Hi) as Hg'.
    unfold new_index in Hi. repeat case_decide; try done. injection Hi as <- <-.
    cbn -[new_indexes]. rewrite IH; [|done|simpl; lia]. cbn.
    f_equal. f_equal.
    + f_equal. rewrite <- seq_shift, map_map. apply map_ext. intros k.
      unfold index_at; cbn. by rewrite <- Nat.iter_succ_r.
    + f_equal; [by rewrite <- Nat.iter_succ_r|lia].
Qed.

(** C34: from an initialized generator, [n] calls of [new_index] succeed as long
    as [n] is at most the number of remaining indexes, and the indexes they
    return are pairwise distinct non-zero 24-bit values. *)
Theorem new_indexes_unique (n : nat) (g : index_generator) :
  wf g → Z.of_nat n ≤ remaining g →
  ∃ l g', new_indexes n g = Some (l, g') ∧ length l = n ∧ NoDup l ∧
    Forall (λ i, 0 < i ≤ LFSR_MAX) l ∧ wf g' ∧ remaining g' = remaining g - Z.of_nat n.
Proof.
  intros Hg Hn. eexists _, _. split; [by apply new_indexes_orbit|].
  destruct Hg as (Hl & Hm & Hr). split_and!; simpl.
  - by rewrite length_map, length_seq.
  - apply NoDup_ListNoDup, NoDup_map_NoDup_ForallPairs; [|apply seq_NoDup].
    intros i j Hi%in_seq Hj%in_seq E. unfold index_at in E.
    apply index_of_inj in E; [|apply iter_step_nonzero; done..|done].
    pose proof period_LFSR_MAX. apply (iter_step_inj i j (lfsr g)); [done|lia|lia|done].
  - apply Forall_map, Forall_true. intros k. by apply index_of_range; [apply iter_step_nonzero|].
  - split_and!; simpl; try lia; by apply iter_step_nonzero.
  - done.
Qed.

Lemma new_indexes_unique_witness :
  let g := {| lfsr := 1; remaining := LFSR_MAX; mask := 7 |} in
  wf g ∧ ∃ l g', new_indexes 3 g = Some (l, g') ∧ length l = 3%nat ∧ NoDup l ∧
    Forall (λ i, 0 < i ≤ LFSR_MAX) l ∧ wf g' ∧ remaining g' = remaining g - 3.
Proof.
  intros g. assert (wf g) as Hg by (unfold wf, g, LFSR_MAX; simpl; lia).
  split; [exact Hg|]. apply (new_indexes_unique 3 g Hg). unfold g, LFSR_MAX; simpl; lia.
Defined.

(** An index that the generator will still hand out. *)
Definition still_to_come (g : index_generator) (i : Z) : Prop :=
  ∃ k, Z.of_nat k < remaining g ∧ i = index_at g k.

(** A call returns an index that was to come and never comes again. *)
Lemma new_index_spec g :
  wf g →
  match new_index g with
  | Some (i, g') =>
      wf g' ∧ 0 < i ≤ LFSR_MAX ∧ still_to_come g i ∧ ¬ still_to_come g' i ∧
      (∀ j, still_to_come g' j → still_to_come g j) ∧ remaining g' = remaining g - 1
  | None => remaining g = 0
  end.
Proof.
  intros Hg. destruct (new_index g) as [[i g']|] eqn:Hi.
  2: { destruct Hg as (Hl & _). unfold new_index in Hi. repeat case_decide; try done; lia. }
  pose proof (new_index_wf _ _ _ Hg Hi) as Hg'. split; [done|].
  unfold new_index in Hi. repeat case_decide; try done. injection Hi as <- <-.
  destruct Hg as (Hl & Hm & Hr). pose proof period_LFSR_MAX.
  assert (∀ k, index_at (IndexGenerator (step (lfsr g)) (remaining g - 1) (mask g)) k = index_at g (S k)) as HS.
  { intros k. unfold index_at; cbn [lfsr mask]. by rewrite <- Nat.iter_succ_r. }
  split; [by apply (index_of_range (lfsr g))|]. split; [|split; [|split; [|done]]].
  - exists 0%nat. split; [simpl; lia|done].
  - intros (k & Hk & E). cbn in Hk. rewrite HS in E. unfold index_at in E.
    apply (index_of_inj (lfsr g)) in E; [|exact Hl|by apply iter_step_nonzero|exact Hm].
    assert (0%nat = S k) as [=]. apply (iter_step_inj 0 (S k) (lfsr g)); [exact Hl|lia|lia|exact E].
  - intros j (k & Hk & ->). cbn in Hk. rewrite HS. exists (S k). split; [lia|done].
Qed.

Lemma random_index_vec draws v rest :
  random_index draws = Some (v, rest) → 0 < v ≤ LFSR_MAX.
Proof.
  induction draws as [|d draws IH]; simpl; [done|]. case_decide as Hd; [|done].
  intros [= <- <-].
  assert (vec (Z.land d LFSR_MAX)) by by apply land_in_width_r, vec_LFSR_MAX.
  unfold vec, in_width, LFSR_MAX in *. lia.
Qed.

(** [initialize] on a fresh generator, when it returns, establishes [wf]
    with the whole budget of 2^24 - 1 indexes, and a second [initialize]
    draws nothing and changes nothing. *)
Theorem initialize_wf (draws draws' rest : list Z) (g : index_generator) :
  initialize draws new = Some (g, rest) →
  wf g ∧ remaining g = LFSR_MAX ∧ initialize draws' g = Some (g, draws').
Proof.
  unfold initialize at 1. simpl.
  destruct (random_index draws) as [[seed d1]|] eqn:H1; simpl; [|done].
  destruct (random_index d1) as [[m d2]|] eqn:H2; simpl; [|done].
  intros [= <- <-]. apply random_index_vec in H1, H2.
  split_and!; [|done|].
  - unfold wf, LFSR_MAX in *; simpl; lia.
  - unfold initialize; simpl. by rewrite decide_True by lia.
Qed.

Lemma initialize_wf_witness :
  let g := {| lfsr := 5; remaining := LFSR_MAX; mask := 9 |} in
  initialize [0; 5; 0x1000000; 9; 8] new = Some (g, [8]) ∧
  wf g ∧ remaining g = LFSR_MAX ∧ initialize [1] g = Some (g, [1]).
Proof. split; [reflexivity|]. by apply (initialize_wf [0; 5; 0x1000000; 9; 8] [1] [8]). Defined.

(** ** Concurrent calls

    Each thread makes one call of [new_index] or of [initialize]; a step of the
    system is one atomic operation of one thread. *)
Module Interleaved.

(** Where a thread is, with the local values it holds. *)
Inductive pc : Type :=
  | Start                           (* new_index: before the initialization check *)
  | Checked                         (* lfsr was non-zero; before fetch_update *)
  | Reserved                        (* remaining decremented; at the loop head *)
  | Loaded (current : Z)            (* current loaded; before the exchange *)
  | Swapped (current : Z)           (* exchange done; before the mask load *)
  | Done (index : Z)
  | Panicked
  | InitStart                       (* initialize: before the lfsr check *)
  | InitDrawn (seed m : Z)          (* both random indexes drawn *)
  | InitSwapped (m : Z)             (* exchange done; before the mask store *)
  | InitDone.

(** One atomic operation of one thread. *)
Inductive op : index_generator → pc → index_generator → pc → Prop :=
  | op_check g : lfsr g ≠ 0 → op g Start g Checked
  | op_check_fail g : lfsr g = 0 → op g Start g Panicked
  | op_reserve g : remaining g ≠ 0 →
      op g Checked {| lfsr := lfsr g; remaining := remaining g - 1; mask := mask g |} Reserved
  | op_exhausted g : remaining g = 0 → op g Checked g Panicked
  | op_load g : op g Reserved g (Loaded (lfsr g))
  | op_swap g current : lfsr g = current →
      op g (Loaded current)
        {| lfsr := step current; remaining := remaining g; mask := mask g |} (Swapped current)
  (* compare_exchange_weak fails, because lfsr changed or spuriously *)
  | op_retry g current : op g (Loaded current) g Reserved
  | op_finish g current : op g (Swapped current) g (Done (index_of current (mask g)))
  | op_init_skip g : lfsr g ≠ 0 → op g InitStart g InitDone
  | op_init_draw g seed m : lfsr g = 0 → 0 < seed ≤ LFSR_MAX → 0 < m ≤ LFSR_MAX →
      op g InitStart g (InitDrawn seed m)
  | op_init_swap g seed m : lfsr g = 0 →
      op g (InitDrawn seed m)
        {| lfsr := seed; remaining := remaining g; mask := mask g |} (InitSwapped m)
  | op_init_lost g seed m : lfsr g ≠ 0 → op g (InitDrawn seed m) g InitDone
  | op_init_store g m :
      op g (InitSwapped m) {| lfsr := lfsr g; remaining := remaining g; mask := m |} InitDone.

Abbreviation sys := (index_generator * gmap nat pc)%type.

Inductive sys_step : sys → sys → Prop :=
  | sys_step_thread t a b g g' ts :
      ts !! t = Some a → op g a g' b → sys_step (g, ts) (g', <[t:=b]> ts).

Definition reachable : sys → sys → Prop := rtc sys_step.

(** The threads that hold a reserved slot and have not exchanged yet. *)
Definition in_flight (a : pc) : bool :=
  match a with Reserved | Loaded _ => true | _ => false end.

(** The thread owns the [k]-th point of the LFSR orbit of [g0]. *)
Definition owns (g0 : index_generator) (a : pc) (k : nat) : Prop :=
  a = Swapped (Nat.iter k step (lfsr g0)) ∨ a = Done (index_at g0 k).

Definition idle (a : pc) : Prop :=
  match a with
  | Swapped _ | Done _ | InitDrawn _ _ | InitSwapped _ => False
  | _ => True
  end.

(** Invariant of the runs that start from an initialized generator [g0]:
    [k] exchanges have succeeded and [pos] says which thread owns which point. *)
Record inv (g0 : index_generator) (k : nat) (pos : gmap nat nat) (s : sys) : Prop := {
  inv_lfsr : lfsr s.1 = Nat.iter k step (lfsr g0);
  inv_mask : mask s.1 = mask g0;
  inv_count : Z.of_nat (k + map_count in_flight s.2) = remaining g0 - remaining s.1;
  inv_remaining : 0 ≤ remaining s.1;
  inv_owned : ∀ t i, pos !! t = Some i → (i < k)%nat ∧ ∃ a, s.2 !! t = Some a ∧ owns g0 a i;
  inv_idle : ∀ t a, s.2 !! t = Some a → pos !! t = None → idle a;
  inv_inj : ∀ t u i, pos !! t = Some i → pos !! u = Some i → t = u
}.

(** A step that neither exchanges nor changes who owns what. *)
Lemma inv_update g0 k pos g g' ts t a b :
  inv g0 k pos (g, ts) → ts !! t = Some a →
  lfsr g' = lfsr g → mask g' = mask g → 0 ≤ remaining g' →
  Z.of_nat (Nat.b2n (in_flight b)) = Z.of_nat (Nat.b2n (in_flight a)) + (remaining g - remaining g') →
  (∀ i, pos !! t = Some i → owns g0 a i → owns g0 b i) →
  (pos !! t = None → idle b) →
  inv g0 k pos (g', <[t:=b]> ts).
Proof.
  intros [H1 H2 H3 H4 H5 H6 H7] Ha El Em Hr Hn Ho Hi. simpl in *.
  pose proof (map_count_update in_flight ts t a b Ha) as Hc.
  constructor; simpl; try congruence; try lia.
  - intros u i Hu. destruct (H5 u i Hu) as (Hik & a' & Ha' & Hown). split; [done|].
    destruct (decide (u = t)) as [->|Hne].
    + exists b. rewrite lookup_insert_eq. split; [done|]. apply Ho; [done|]. congruence.
    + exists a'. by rewrite lookup_insert_ne.
  - intros u c Hu Hp. destruct (decide (u = t)) as [->|Hne].
    + rewrite lookup_insert_eq in Hu. injection Hu as <-. by apply Hi.
    + rewrite lookup_insert_ne in Hu by done. by apply (H6 u).
  - done.
Qed.

(** A successful exchange hands the next point of the orbit to the thread. *)
Lemma inv_swap g0 k pos g ts t :
  inv g0 k pos (g, ts) → ts !! t = Some (Loaded (lfsr g)) →
  inv g0 (S k) (<[t:=k]> pos)
    ({| lfsr := step (lfsr g); remaining := remaining g; mask := mask g |},
     <[t:=Swapped (lfsr g)]> ts).
Proof.
  intros [H1 H2 H3 H4 H5 H6 H7] Ha. simpl in *.
  pose proof (map_count_update in_flight ts t _ (Swapped (lfsr g)) Ha) as Hc.
  assert (∀ i, pos !! t = Some i → False) as Hnot.
  { intros i Hi. destruct (H5 t i Hi) as (_ & a' & Ha' & [-> | ->]); congruence. }
  constructor; simpl in *; try done; try lia.
  - by rewrite H1.
  - intros u i Hu. destruct (decide (u = t)) as [->|Hne].
    + rewrite lookup_insert_eq in Hu. injection Hu as <-. split; [lia|].
      exists (Swapped (lfsr g)). rewrite lookup_insert_eq. split; [done|]. left. by rewrite H1.
    + rewrite lookup_insert_ne in Hu by done. destruct (H5 u i Hu) as (Hik & a' & Ha' & Hown).
      split; [lia|]. exists a'. by rewrite lookup_insert_ne.
  - intros u c Hu Hp. destruct (decide (u = t)) as [->|Hne].
    + by rewrite lookup_insert_eq in Hp.
    + rewrite lookup_insert_ne in Hu by done. rewrite lookup_insert_ne in Hp by done.
      by apply (H6 u).
  - intros u v i Hu Hv.
    rewrite lookup_insert in Hu. rewrite lookup_insert in Hv.
    destruct (decide (t = u)) as [Eu|Nu], (decide (t = v)) as [Ev|Nv].
    + congruence.
    + injection Hu as <-. destruct (H5 v k Hv). lia.
    + injection Hv as <-. destruct (H5 u k Hu). lia.
    + by apply (H7 u v i).
Qed.

Lemma inv_step g0 k pos s s' :
  wf g0 → inv g0 k pos s → sys_step s s' → ∃ k' pos', inv g0 k' pos' s'.
Proof.
  intros Hg0 Hinv Hstep. destruct Hstep as [t a b g g' ts Ha Hop].
  assert (lfsr g ≠ 0) as Hnz.
  { pose proof (inv_lfsr _ _ _ _ Hinv) as Hl0. simpl in Hl0. rewrite Hl0.
    destruct Hg0 as (Hl & _). pose proof (iter_step_nonzero k (lfsr g0) Hl). lia. }
  pose proof (inv_remaining _ _ _ _ Hinv) as Hrem. simpl in Hrem.
  assert (pos !! t = None → idle a) as Hidle by (intros; by eapply inv_idle).
  inversion Hop; subst; try done;
    try (exists k, pos; eapply inv_update; [done|done|..]; simpl; auto; try lia;
         unfold owns; intros; destruct_or?; congruence).
  - (* op_swap *) exists (S k), (<[t:=k]> pos). by apply inv_swap.
  - (* op_finish *) exists k, pos. eapply inv_update; [done|done|..]; simpl; auto; [lia|..].
    intros i _ [Hs|]; [|congruence]. right. injection Hs as ->.
    unfold index_at. do 2 f_equal. exact (inv_mask _ _ _ _ Hinv).
  - (* op_init_store *) exfalso.
    destruct (pos !! t) as [i|] eqn:Hp; [|by apply Hidle].
    destruct (inv_owned _ _ _ _ Hinv t i Hp) as (_ & a' & Ha' & [-> | ->]); simpl in *; congruence.
Qed.

Lemma inv_reachable g0 k pos s s' :
  wf g0 → inv g0 k pos s → reachable s s' → ∃ k' pos', inv g0 k' pos' s'.
Proof.
  intros Hg0 Hinv Hr. revert k pos Hinv.
  induction Hr as [s|s s1 s2 Hs Hr IH]; intros k pos Hinv; [eauto|].
  destruct (inv_step g0 k pos s s1 Hg0 Hinv Hs) as (k' & pos' & Hinv'). eauto.
Qed.

(** Threads that have not called anything yet. *)
Definition fresh (ts : gmap nat pc) : Prop :=
  map_Forall (λ _ a, a = Start ∨ a = InitStart) ts.

Lemma inv_init g0 ts : wf g0 → fresh ts → inv g0 0 ∅ (g0, ts).
Proof.
  intros (_ & _ & Hr) Hts. constructor; simpl; try done; try lia.
  - assert (map_count in_flight ts = 0%nat) as ->; [|lia].
    unfold map_count. apply map_size_empty_iff, map_empty_filter_2.
    intros t a Ha. destruct (Hts t a Ha) as [-> | ->]; done.
  - intros t a Ha _. destruct (Hts t a Ha) as [-> | ->]; done.
Qed.

(** C40: whatever the interleaving of any number of concurrent callers of
    [new_index] and [initialize] on an initialized generator, two different
    threads never get the same index, and every index is a non-zero 24-bit
    value. *)
Theorem concurrent_indexes_unique (g0 g : index_generator) (ts0 ts : gmap nat pc)
    (t u : nat) (i j : Z) :
  wf g0 → fresh ts0 → reachable (g0, ts0) (g, ts) →
  ts !! t = Some (Done i) → ts !! u = Some (Done j) →
  0 < i ≤ LFSR_MAX ∧ (t ≠ u → i ≠ j).
Proof.
  intros Hg0 Hts Hr Ht Hu.
  destruct (inv_reachable g0 0 ∅ _ _ Hg0 (inv_init g0 ts0 Hg0 Hts) Hr) as (k & pos & Hinv).
  destruct Hg0 as (Hl & Hm & Hrem).
  assert (∀ v a, ts !! v = Some (Done a) → ∃ p, pos !! v = Some p ∧ (p < k)%nat ∧ a = index_at g0 p)
    as Hown.
  { intros v a Hv. destruct (pos !! v) as [p|] eqn:Hp.
    - destruct (inv_owned _ _ _ _ Hinv v p Hp) as (Hpk & b & Hb & Ho). simpl in Hb.
      exists p. destruct Ho; split_and!; congruence.
    - destruct (inv_idle _ _ _ _ Hinv v _ Hv Hp). }
  destruct (Hown t i Ht) as (p & Hp & Hpk & ->), (Hown u j Hu) as (q & Hq & Hqk & ->).
  split; [by apply index_of_range; [apply iter_step_nonzero|]|].
  intros Hne E. apply Hne. unfold index_at in E.
  apply index_of_inj in E; [|by apply iter_step_nonzero..|done].
  pose proof (inv_count _ _ _ _ Hinv) as Hc. pose proof (inv_remaining _ _ _ _ Hinv).
  simpl in *. pose proof period_LFSR_MAX.
  apply iter_step_inj in E; [|done|lia|lia]. subst q.
  by apply (inv_inj _ _ _ _ Hinv t u p).
Qed.

(** Two threads that each run [new_index] to completion, one after the other. *)
Lemma two_calls g t u ts :
  lfsr g ≠ 0 → step (lfsr g) ≠ 0 → remaining g ≠ 0 → remaining g - 1 ≠ 0 → t ≠ u →
  ts !! t = Some Start → ts !! u = Some Start →
  ∃ g' ts', reachable (g, ts) (g', ts') ∧
    ts' !! t = Some (Done (index_of (lfsr g) (mask g))) ∧
    ts' !! u = Some (Done (index_of (step (lfsr g)) (mask g))).
Proof.
  intros Hl Hs Hr1 Hr2 Hne Ht Hu.
  assert (∀ g v ts, lfsr g ≠ 0 → remaining g ≠ 0 → ts !! v = Some Start →
    reachable (g, ts)
      ({| lfsr := step (lfsr g); remaining := remaining g - 1; mask := mask g |},
       <[v:=Done (index_of (lfsr g) (mask g))]> ts)) as Hcall.
  { clear. intros g v ts Hl Hr Hv.
    eapply rtc_l; [by eapply sys_step_thread; [exact Hv|by constructor]|].
    eapply rtc_l; [eapply sys_step_thread; [apply lookup_insert_eq|by constructor]|].
    eapply rtc_l; [eapply sys_step_thread; [apply lookup_insert_eq|constructor]|].
    eapply rtc_l; [eapply sys_step_thread; [apply lookup_insert_eq|by constructor]|].
    eapply rtc_l; [eapply sys_step_thread; [apply lookup_insert_eq|constructor]|].
    rewrite !insert_insert_eq. apply rtc_refl. }
  eexists _, _. split; [unfold reachable; etrans; [by apply (Hcall g t)|]|].
  - apply Hcall; [done|done|]. by rewrite lookup_insert_ne.
  - simpl. rewrite lookup_insert_ne, !lookup_insert_eq by done. done.
Qed.

Lemma concurrent_indexes_unique_witness :
  let g0 := {| lfsr := 1; remaining := LFSR_MAX; mask := 7 |} in
  let ts0 := <[0%nat:=Start]> {[1%nat := Start]} in
  wf g0 ∧ fresh ts0 ∧
  ∃ g ts i j, reachable (g0, ts0) (g, ts) ∧
    ts !! 0%nat = Some (Done i) ∧ ts !! 1%nat = Some (Done j) ∧
    0 < i ≤ LFSR_MAX ∧ (0%nat ≠ 1%nat → i ≠ j).
Proof.
  intros g0 ts0.
  assert (wf g0) as Hg by (unfold wf, g0, LFSR_MAX; simpl; lia).
  assert (fresh ts0) as Hf.
  { apply map_Forall_insert_2; [by left|]. apply map_Forall_singleton. by left. }
  destruct (two_calls g0 0 1 ts0) as (g & ts & Hr & H0 & H1); try done.
  split; [exact Hg|]. split; [exact Hf|].
  exists g, ts. eexists _, _. split; [exact Hr|]. split; [exact H0|]. split; [exact H1|].
  exact (concurrent_indexes_unique g0 g ts0 ts 0 1 _ _ Hg Hf Hr H0 H1).
Defined.

(** Without an initialized generator the guarantee is lost.
    [initialize] publishes [lfsr] before [mask], so a caller that runs between
    the two stores computes its index with mask 0, and a later caller can get
    the same index. *)
Theorem initialize_race_duplicates :
  ∃ (ts0 : gmap nat pc) (g : index_generator) (ts : gmap nat pc) (i : Z),
    fresh ts0 ∧ reachable (new, ts0) (g, ts) ∧
    ts !! 1%nat = Some (Done i) ∧ ts !! 2%nat = Some (Done i).
Proof.
  exists (<[0%nat:=InitStart]> (<[1%nat:=Start]> {[2%nat := Start]})).
  eexists _, _, 1. split.
  { repeat apply map_Forall_insert_2; [by right|by left|by left|apply map_Forall_empty]. }
  split; [|split].
  - eapply rtc_l; [eapply (sys_step_thread 0); [reflexivity|by apply (op_init_draw _ 2 1)]|].
    eapply rtc_l; [eapply (sys_step_thread 0); [reflexivity|by constructor]|].
    eapply rtc_l; [eapply (sys_step_thread 1); [reflexivity|by constructor]|].
    eapply rtc_l; [eapply (sys_step_thread 1); [reflexivity|by constructor]|].
    eapply rtc_l; [eapply (sys_step_thread 1); [reflexivity|apply op_load]|].
    eapply rtc_l; [eapply (sys_step_thread 1); [reflexivity|by apply op_swap]|].
    eapply rtc_l; [eapply (sys_step_thread 1); [reflexivity|apply op_finish]|].
    eapply rtc_l; [eapply (sys_step_thread 0); [reflexivity|apply op_init_store]|].
    eapply rtc_l; [eapply (sys_step_thread 2); [reflexivity|by constructor]|].
    eapply rtc_l; [eapply (sys_step_thread 2); [reflexivity|by constructor]|].
    eapply rtc_l; [eapply (sys_step_thread 2); [reflexivity|apply op_load]|].
    eapply rtc_l; [eapply (sys_step_thread 2); [reflexivity|by apply op_swap]|].
    eapply rtc_l; [eapply (sys_step_thread 2); [reflexivity|apply op_finish]|].
    apply rtc_refl.
  - reflexivity.
  - reflexivity.
Qed.
End Interleaved.
