(* ===== verification/IpNet.v ===== *)
(** * Addresses and CIDR blocks: [tendrilix/src/ipnet.rs]

    The address types of [core::net], the networks built on them, their
    netmasks and their compact (binary) serde form. [AddrText] has the textual
    form. *)

From S2P Require Import Prelude.

(** ** Addresses *)

(** [core::net::IpAddr]: the address as the integer [u32::from] or
    [u128::from] gives. *)
Inductive ip_addr : Type :=
  | IpV4 (addr : Z)
  | IpV6 (addr : Z).

(** [core::net::SocketAddr]. *)
Inductive socket_addr : Type :=
  | SockV4 (ip port : Z)
  | SockV6 (ip port flowinfo scope_id : Z).

#[global] Instance ip_addr_eq_dec : EqDecision ip_addr.
Proof. solve_decision. Defined.
#[global] Instance socket_addr_eq_dec : EqDecision socket_addr.
Proof. solve_decision. Defined.

Definition ip_addr_valid (a : ip_addr) : Prop :=
  match a with
  | IpV4 x => in_width 32 x
  | IpV6 x => in_width 128 x
  end.

Definition socket_addr_ip (a : socket_addr) : ip_addr :=
  match a with
  | SockV4 ip _ => IpV4 ip
  | SockV6 ip _ _ _ => IpV6 ip
  end.

(** ** Networks *)

(** [PrefixLenError] is a unit struct. *)
Inductive prefix_len_error : Type := PrefixLenError.

(** [u32::MAX << (32 - prefix_len)], truncated to 32 bits as the shift is. *)
Definition v4_netmask (prefix_len : Z) : Z :=
  if prefix_len =? 0 then 0 else wrap 32 (Z.shiftl u32_max (32 - prefix_len)).

Definition v6_netmask (prefix_len : Z) : Z :=
  if prefix_len =? 0 then 0 else wrap 128 (Z.shiftl (2 ^ 128 - 1) (128 - prefix_len)).

Record ipv4_net := Ipv4Net { v4_addr : Z; v4_prefix_len : Z }.
Record ipv6_net := Ipv6Net { v6_addr : Z; v6_prefix_len : Z }.

Definition ipv4_net_new (addr prefix_len : Z) : result ipv4_net prefix_len_error :=
  if 32 <? prefix_len then Err PrefixLenError
  else Ok {| v4_addr := addr; v4_prefix_len := prefix_len |}.

Definition ipv6_net_new (addr prefix_len : Z) : result ipv6_net prefix_len_error :=
  if 128 <? prefix_len then Err PrefixLenError
  else Ok {| v6_addr := addr; v6_prefix_len := prefix_len |}.

Definition ipv4_network (n : ipv4_net) : Z := Z.land (v4_addr n) (v4_netmask (v4_prefix_len n)).
Definition ipv6_network (n : ipv6_net) : Z := Z.land (v6_addr n) (v6_netmask (v6_prefix_len n)).

Inductive ip_net : Type :=
  | NetV4 (n : ipv4_net)
  | NetV6 (n : ipv6_net).

#[global] Instance ipv4_net_eq_dec : EqDecision ipv4_net.
Proof. solve_decision. Defined.
#[global] Instance ipv6_net_eq_dec : EqDecision ipv6_net.
Proof. solve_decision. Defined.
#[global] Instance ip_net_eq_dec : EqDecision ip_net.
Proof. solve_decision. Defined.

Definition ip_net_new (addr : ip_addr) (prefix_len : Z) : result ip_net prefix_len_error :=
  match addr with
  | IpV4 a => let? n := ipv4_net_new a prefix_len in Ok (NetV4 n)
  | IpV6 a => let? n := ipv6_net_new a prefix_len in Ok (NetV6 n)
  end.

Definition ip_net_addr (n : ip_net) : ip_addr :=
  match n with
  | NetV4 n => IpV4 (v4_addr n)
  | NetV6 n => IpV6 (v6_addr n)
  end.

Definition ip_net_prefix_len (n : ip_net) : Z :=
  match n with
  | NetV4 n => v4_prefix_len n
  | NetV6 n => v6_prefix_len n
  end.

Definition ip_net_network (n : ip_net) : ip_addr :=
  match n with
  | NetV4 n => IpV4 (ipv4_network n)
  | NetV6 n => IpV6 (ipv6_network n)
  end.

Definition is_ipv4 (n : ip_net) : bool := match n with NetV4 _ => true | NetV6 _ => false end.
Definition is_ipv6 (n : ip_net) : bool := match n with NetV4 _ => false | NetV6 _ => true end.

(** The values the constructors build: the fields are private in the source. *)
Definition ip_net_valid (n : ip_net) : Prop :=
  match n with
  | NetV4 n => in_width 32 (v4_addr n) ∧ 0 ≤ v4_prefix_len n ≤ 32
  | NetV6 n => in_width 128 (v6_addr n) ∧ 0 ≤ v6_prefix_len n ≤ 128
  end.

(** ** Compact serde form *)

(** The parts of serde's data model that the non-human-readable code uses. *)
Inductive serde : Type :=
  | Tuple (elems : bytes)
  | Variant (index : Z) (inner : serde).

Inductive de_error : Type := DeError.

Definition ipv4_net_serialize (n : ipv4_net) : serde :=
  Tuple (to_be_bytes 4 (v4_addr n) ++ [v4_prefix_len n]).

Definition ipv6_net_serialize (n : ipv6_net) : serde :=
  Tuple (to_be_bytes 16 (v6_addr n) ++ [v6_prefix_len n]).

(** [<[u8; 5]>::deserialize] accepts exactly five elements. *)
Definition ipv4_net_deserialize (s : serde) : result ipv4_net de_error :=
  match s with
  | Tuple b =>
      if decide (length b = 5%nat) then
        map_err (λ _, DeError)
          (ipv4_net_new (from_be_bytes (take 4 b)) (nth 4 b 0))
      else Err DeError
  | _ => Err DeError
  end.

Definition ipv6_net_deserialize (s : serde) : result ipv6_net de_error :=
  match s with
  | Tuple b =>
      if decide (length b = 17%nat) then
        map_err (λ _, DeError)
          (ipv6_net_new (from_be_bytes (take 16 b)) (nth 16 b 0))
      else Err DeError
  | _ => Err DeError
  end.

Definition ip_net_serialize (n : ip_net) : serde :=
  match n with
  | NetV4 n => Variant 0 (ipv4_net_serialize n)
  | NetV6 n => Variant 1 (ipv6_net_serialize n)
  end.

Definition ip_net_deserialize (s : serde) : result ip_net de_error :=
  match s with
  | Variant 0 v => let? n := ipv4_net_deserialize v in Ok (NetV4 n)
  | Variant 1 v => let? n := ipv6_net_deserialize v in Ok (NetV6 n)
  | _ => Err DeError
  end.

(** ** Netmasks *)

Lemma netmask_testbit w p i :
  0 < p ≤ w → 0 ≤ i →
  Z.testbit (wrap w (Z.shiftl (2 ^ w - 1) (w - p))) i = ((w - p <=? i) && (i <? w)).
Proof.
  intros Hp Hi. unfold wrap.
  rewrite <- Z.land_ones, Z.land_spec, Z.shiftl_spec by lia.
  replace (2 ^ w - 1) with (Z.ones w) by (rewrite Z.ones_equiv; lia).
  destruct (Z.ltb_spec i w); [|rewrite (Z.ones_spec_high w i) by lia; by rewrite !andb_false_r].
  rewrite (Z.ones_spec_low w i) by lia. rewrite !andb_true_r.
  destruct (Z.leb_spec (w - p) i).
  - by rewrite Z.ones_spec_low by lia.
  - by rewrite Z.testbit_neg_r by lia.
Qed.

(** The network address keeps the first [p] bits of the address and clears the rest. *)
Lemma network_testbit w p a i :
  0 ≤ p ≤ w → in_width w a → 0 ≤ i →
  Z.testbit (Z.land a (if p =? 0 then 0 else wrap w (Z.shiftl (2 ^ w - 1) (w - p)))) i
    = (Z.testbit a i && (w - p <=? i)).
Proof.
  intros Hp Ha Hi. rewrite Z.land_spec.
  destruct (Z.eqb_spec p 0) as [->|Hp0].
  - rewrite Z.bits_0, andb_false_r. destruct (Z.leb_spec (w - 0) i); [|by rewrite andb_false_r].
    by rewrite (in_width_testbit w) by (done || lia).
  - rewrite netmask_testbit by lia.
    destruct (Z.leb_spec (w - p) i), (Z.ltb_spec i w); rewrite ?andb_false_r, ?andb_true_r; try done.
    symmetry. apply (in_width_testbit w); (done || lia).
Qed.

(** For every valid network, the network address has exactly the bits of the
    stored address that lie in the prefix: the shift never loses a prefix bit
    and never keeps a host bit, for /0 and for the full length too. *)
Theorem network_bits (n : ip_net) (i : Z) :
  ip_net_valid n → 0 ≤ i →
  match n, ip_net_network n with
  | NetV4 m, IpV4 a => Z.testbit a i = (Z.testbit (v4_addr m) i && (32 - v4_prefix_len m <=? i))
  | NetV6 m, IpV6 a => Z.testbit a i = (Z.testbit (v6_addr m) i && (128 - v6_prefix_len m <=? i))
  | _, _ => False
  end.
Proof.
  destruct n as [n|n]; intros [Ha Hp] Hi; simpl in *.
  - by apply (network_testbit 32).
  - by apply (network_testbit 128).
Qed.

Lemma network_bits_witness :
  let n := {| v4_addr := 0x2d190f01; v4_prefix_len := 30 |} in
  ip_net_valid (NetV4 n) ∧ 0 ≤ 0 ∧
  Z.testbit (ipv4_network n) 0 = (Z.testbit (v4_addr n) 0 && (32 - v4_prefix_len n <=? 0)).
Proof.
  intros n. assert (ip_net_valid (NetV4 n)) as Hn by done.
  split; [exact Hn|]. split; [lia|]. apply (network_bits (NetV4 n) 0 Hn). lia.
Defined.

Lemma ip_net_new_valid a p n :
  ip_addr_valid a → in_width 8 p → ip_net_new a p = Ok n → ip_net_valid n.
Proof.
  intros Ha [Hp _]. destruct a as [x|x]; simpl in *; unfold ipv4_net_new, ipv6_net_new.
  - destruct (Z.ltb_spec 32 p); simpl; [done|]. intros [= <-]; simpl. split; [done|lia].
  - destruct (Z.ltb_spec 128 p); simpl; [done|]. intros [= <-]; simpl. split; [done|lia].
Qed.

Lemma ip_net_network_valid n : ip_net_valid n → ip_addr_valid (ip_net_network n).
Proof.
  destruct n as [n|n]; intros [Ha Hp]; simpl; unfold ipv4_network, ipv6_network;
    rewrite Z.land_comm; by apply land_in_width_r.
Qed.

(** The bytes of a serde value. *)
Fixpoint serde_is_bytes (s : serde) : Prop :=
  match s with
  | Tuple b => is_bytes b
  | Variant _ v => serde_is_bytes v
  end.

Lemma ip_net_serialize_roundtrip n :
  ip_net_valid n → ip_net_deserialize (ip_net_serialize n) = Ok n.
Proof.
  destruct n as [[a p]|[a p]]; intros [Ha Hp]; cbn [v4_addr v4_prefix_len v6_addr v6_prefix_len] in *;
    unfold ip_net_serialize, ip_net_deserialize, ipv4_net_serialize, ipv4_net_deserialize,
      ipv6_net_serialize, ipv6_net_deserialize, ipv4_net_new, ipv6_net_new;
    rewrite decide_True by (by rewrite length_app, length_to_be_bytes).
  - rewrite take_app_length', app_nth2 by (rewrite length_to_be_bytes; lia).
    rewrite length_to_be_bytes, from_to_be_bytes by done. cbn [nth Nat.sub v4_addr v4_prefix_len v6_addr v6_prefix_len].
    by rewrite (proj2 (Z.ltb_ge 32 p)) by lia.
  - rewrite take_app_length', app_nth2 by (rewrite length_to_be_bytes; lia).
    rewrite length_to_be_bytes, from_to_be_bytes by done. cbn [nth Nat.sub v4_addr v4_prefix_len v6_addr v6_prefix_len].
    by rewrite (proj2 (Z.ltb_ge 128 p)) by lia.
Qed.

(** A tuple of [k + 1] bytes split into an address and a prefix length. *)
Lemma tuple_parts b k :
  is_bytes b → length b = S k →
  in_width (8 * Z.of_nat k) (from_be_bytes (take k b)) ∧ in_width 8 (nth k b 0) ∧
  to_be_bytes k (from_be_bytes (take k b)) ++ [nth k b 0] = b.
Proof.
  intros Hb Hl.
  assert (length (take k b) = k) as Hk by (rewrite length_take; lia).
  split_and!.
  - rewrite <- Hk at 1. by apply from_be_bytes_bound, Forall_take.
  - destruct (lookup_lt_is_Some_2 b k) as [x Hx]; [lia|].
    rewrite (nth_lookup_Some b k 0 x Hx). by eapply Forall_lookup_1.
  - rewrite <- Hk at 1. rewrite to_from_be_bytes by by apply Forall_take.
    destruct (lookup_lt_is_Some_2 b k) as [x Hx]; [lia|].
    rewrite (nth_lookup_Some b k 0 x Hx), <- take_S_r by done.
    by rewrite firstn_all2 by lia.
Qed.

Lemma ip_net_deserialize_sound s n :
  serde_is_bytes s → ip_net_deserialize s = Ok n → ip_net_valid n ∧ ip_net_serialize n = s.
Proof.
  destruct s as [|[|[]|] [b|]]; simpl; try done; intros Hb;
    unfold ipv4_net_new, ipv6_net_new; case_decide as Hl; try done.
  - destruct (tuple_parts b 4 Hb Hl) as (Ha & [Hp _] & He).
    destruct (Z.ltb_spec 32 (nth 4 b 0)); simpl; [done|]. intros [= <-].
    split; [split; [done|simpl; lia]|]. by rewrite <- He at 3.
  - destruct (tuple_parts b 16 Hb Hl) as (Ha & [Hp _] & He).
    destruct (Z.ltb_spec 128 (nth 16 b 0)); simpl; [done|]. intros [= <-].
    split; [split; [done|simpl; lia]|]. by rewrite <- He at 3.
Qed.

(** The compact form round-trips both ways: a valid network comes back from
    its serialization, and what deserializes from bytes is always a network
    whose prefix length fits its address family, and whose serialization is
    the input. *)
Theorem ip_net_serde_roundtrip (n : ip_net) (s : serde) :
  (ip_net_valid n → ip_net_deserialize (ip_net_serialize n) = Ok n) ∧
  (serde_is_bytes s → ip_net_deserialize s = Ok n → ip_net_valid n ∧ ip_net_serialize n = s).
Proof. split; [apply ip_net_serialize_roundtrip|apply ip_net_deserialize_sound]. Qed.

Lemma ip_net_serde_roundtrip_witness :
  let n := NetV6 {| v6_addr := 2 ^ 127 + 1; v6_prefix_len := 64 |} in
  ip_net_valid n ∧ ip_net_deserialize (ip_net_serialize n) = Ok n.
Proof.
  intros n. assert (ip_net_valid n) as Hn by done.
  split; [exact Hn|]. exact (proj1 (ip_net_serde_roundtrip n (ip_net_serialize n)) Hn).
Defined.
