(* ===== verification/AddrText.v ===== *)
(** * The textual form of addresses and networks: [tendrilix/src/ipnet.rs]

    [Display], [FromStr] and the human-readable serde form of the networks,
    over the address parser and printer of [core::net]. A string is the list
    of its UTF-8 bytes; a printer gives the pieces it hands to the formatter,
    because the fixed-capacity string it writes to takes or refuses a piece as
    a whole. A parser of [core::net] takes the bytes it may read and returns
    what is left of them: a failed attempt consumes nothing. *)

From S2P Require Import Prelude IpNet.

(** ** ASCII *)

Definition ch_plus : Z := 43.
Definition ch_minus : Z := 45.
Definition ch_dot : Z := 46.
Definition ch_slash : Z := 47.
Definition ch_0 : Z := 48.
Definition ch_colon : Z := 58.

(** [char::from_digit], lower case, and [char::to_digit], either case. *)
Definition from_digit (d : Z) : Z := if d <? 10 then ch_0 + d else 87 + d.

Definition to_digit (radix c : Z) : option Z :=
  let d :=
    if (48 <=? c) && (c <=? 57) then Some (c - 48)
    else if (97 <=? c) && (c <=? 122) then Some (c - 87)
    else if (65 <=? c) && (c <=? 90) then Some (c - 55)
    else None in
  match d with
  | Some d => if d <? radix then Some d else None
  | None => None
  end.

(** ** Numbers *)

(** The values of the digits of [n], most significant first; [fuel] is at
    least their number. *)
Fixpoint digit_values (fuel : nat) (radix n : Z) : list Z :=
  match fuel with
  | O => []
  | S fuel =>
      if n <? radix then [n] else digit_values fuel radix (n / radix) ++ [n mod radix]
  end.

Definition digits (fuel : nat) (radix n : Z) : bytes := map from_digit (digit_values fuel radix n).

(** [{}] of a [u8] and [{:x}] of a [u16]. *)
Definition fmt_u8 (n : Z) : bytes := digits 3 10 n.
Definition fmt_hex16 (n : Z) : bytes := digits 4 16 n.

(** [u8::from_str]: an optional plus sign, then decimal digits, without
    overflow at any of them. *)
Fixpoint u8_from_digits (acc : Z) (s : bytes) : option Z :=
  match s with
  | [] => Some acc
  | c :: s =>
      match to_digit 10 c with
      | Some d =>
          let acc := acc * 10 + d in
          if acc <=? u8_max then u8_from_digits acc s else None
      | None => None
      end
  end.

Definition u8_from_str (s : bytes) : option Z :=
  match s with
  | [] => None
  | c :: t =>
      if (c =? ch_plus) || (c =? ch_minus) then
        match t with
        | [] => None
        | _ => if c =? ch_plus then u8_from_digits 0 t else u8_from_digits 0 s
        end
      else u8_from_digits 0 s
  end.

(** ** The address parser of [core::net] *)

Definition parser (A : Type) : Type := bytes → option (A * bytes).

Definition parser_bind {A B} (p : parser A) (k : A → parser B) : parser B :=
  λ s, match p s with Some (a, s) => k a s | None => None end.

#[local] Notation "'let*' x ':=' p 'in' k" := (parser_bind p (λ x, k))
  (at level 10, x name, p at level 100, k at level 200) : tendrilix_scope.

Definition parser_ret {A} (a : A) : parser A := λ s, Some (a, s).

Definition read_given_char (c : Z) : parser () := λ s,
  match s with
  | x :: s => if x =? c then Some ((), s) else None
  | [] => None
  end.

(** The separator stands before every item but the first. *)
Definition read_separator {A} (sep : Z) (index : nat) (inner : parser A) : parser A :=
  if (0 <? index)%nat then let* _ := read_given_char sep in inner else inner.

(** The digits of [read_number]: their number, their value and the rest. *)
Fixpoint read_digits (radix : Z) (max_digits count : nat) (acc : Z) (s : bytes) :
    option (nat * Z * bytes) :=
  match s with
  | [] => Some (count, acc, [])
  | c :: s' =>
      match to_digit radix c with
      | Some d =>
          if (max_digits <? S count)%nat then None
          else read_digits radix max_digits (S count) (acc * radix + d) s'
      | None => Some (count, acc, s)
      end
  end.

(** A number of [w] bits. *)
Definition read_number (w radix : Z) (max_digits : nat) (allow_zero_prefix : bool) : parser Z := λ s,
  let has_leading_zero := match s with c :: _ => c =? ch_0 | [] => false end in
  match read_digits radix max_digits 0 0 s with
  | Some (digit_count, n, s') =>
      if (digit_count =? 0)%nat then None
      else if negb allow_zero_prefix && has_leading_zero && (1 <? digit_count)%nat then None
      else if n <? 2 ^ w then Some (n, s') else None
  | None => None
  end.

Definition read_octet (i : nat) : parser Z := read_separator ch_dot i (read_number 8 10 3 false).

Definition read_ipv4_addr : parser Z :=
  let* a := read_octet 0 in
  let* b := read_octet 1 in
  let* c := read_octet 2 in
  let* d := read_octet 3 in
  parser_ret (from_be_bytes [a; b; c; d]).

(** [read_groups], with [n] slots left after the [i] groups read: the groups,
    whether the last two are an embedded IPv4 address, and the rest. *)
Fixpoint read_groups (i n : nat) (s : bytes) : list Z * bool * bytes :=
  match n with
  | O => ([], false, s)
  | S n' =>
      match (if (0 <? n')%nat then read_separator ch_colon i read_ipv4_addr s else None) with
      | Some (v4, s) => ([Z.shiftr v4 16; wrap 16 v4], true, s)
      | None =>
          match read_separator ch_colon i (read_number 16 16 4 true) s with
          | Some (g, s) =>
              let '(gs, v4, s) := read_groups (S i) n' s in (g :: gs, v4, s)
          | None => ([], false, s)
          end
      end
  end.

Fixpoint from_groups (acc : Z) (gs : list Z) : Z :=
  match gs with
  | [] => acc
  | g :: gs => from_groups (Z.shiftl acc 16 + g) gs
  end.

Definition read_ipv6_addr : parser Z := λ s,
  let '(head, head_ipv4, s) := read_groups 0 8 s in
  if (length head =? 8)%nat then Some (from_groups 0 head, s)
  else if head_ipv4 then None
  else
    (let* _ := read_given_char ch_colon in
     let* _ := read_given_char ch_colon in
     λ s,
       let '(tail, _, s) := read_groups 0 (8 - (length head + 1)) s in
       Some (from_groups 0 (head ++ replicate (8 - length head - length tail) 0 ++ tail), s)) s.

Definition read_ip_addr : parser ip_addr := λ s,
  match read_ipv4_addr s with
  | Some (a, s) => Some (IpV4 a, s)
  | None => match read_ipv6_addr s with Some (a, s) => Some (IpV6 a, s) | None => None end
  end.

(** A text is an address when nothing is left of it. *)
Definition parse_with {A} (p : parser A) (s : bytes) : option A :=
  match p s with Some (a, []) => Some a | _ => None end.

Definition ipv4_addr_from_str (s : bytes) : option Z :=
  if (15 <? length s)%nat then None else parse_with read_ipv4_addr s.
Definition ipv6_addr_from_str (s : bytes) : option Z := parse_with read_ipv6_addr s.
Definition ip_addr_from_str (s : bytes) : option ip_addr := parse_with read_ip_addr s.

(** ** The address printer of [core::net] *)

Definition fmt_ipv4_addr (a : Z) : list bytes :=
  match to_be_bytes 4 a with
  | [a; b; c; d] =>
      [fmt_u8 a; [ch_dot]; fmt_u8 b; [ch_dot]; fmt_u8 c; [ch_dot]; fmt_u8 d]
  | _ => []
  end.

(** [Ipv6Addr::segments]. *)
Fixpoint to_groups (n : nat) (a : Z) : list Z :=
  match n with
  | O => []
  | S n => to_groups n (Z.shiftr a 16) ++ [wrap 16 a]
  end.

Definition segments (a : Z) : list Z := to_groups 8 a.

(** [to_ipv4_mapped]: the prefix ::ffff:0:0/96. *)
Definition to_ipv4_mapped (a : Z) : option Z :=
  if Z.shiftr a 32 =? 0xffff then Some (wrap 32 a) else None.

(** The first longest run of zero segments, as its start and its length. *)
Record span := { span_start : nat; span_len : nat }.

Definition span_default : span := {| span_start := 0; span_len := 0 |}.

Fixpoint longest_zeroes (i : nat) (longest current : span) (gs : list Z) : span :=
  match gs with
  | [] => longest
  | g :: gs =>
      if g =? 0 then
        let current :=
          {| span_start := if (span_len current =? 0)%nat then i else span_start current;
             span_len := S (span_len current) |} in
        let longest := if (span_len longest <? span_len current)%nat then current else longest in
        longest_zeroes (S i) longest current gs
      else longest_zeroes (S i) longest span_default gs
  end.

Definition fmt_subslice (gs : list Z) : list bytes :=
  match gs with
  | [] => []
  | g :: gs => fmt_hex16 g :: concat (map (λ g, [[ch_colon]; fmt_hex16 g]) gs)
  end.

Definition fmt_ipv6_addr (a : Z) : list bytes :=
  match to_ipv4_mapped a with
  | Some v4 => [ch_colon; ch_colon; 102; 102; 102; 102; ch_colon] :: fmt_ipv4_addr v4
  | None =>
      let gs := segments a in
      let zeroes := longest_zeroes 0 span_default span_default gs in
      if (1 <? span_len zeroes)%nat then
        fmt_subslice (take (span_start zeroes) gs) ++ [[ch_colon; ch_colon]]
          ++ fmt_subslice (drop (span_start zeroes + span_len zeroes) gs)
      else fmt_subslice gs
  end.

(** ** Networks *)

Inductive addr_parse_error : Type := AddrParseError.

Definition fmt_ipv4_net (n : ipv4_net) : list bytes :=
  fmt_ipv4_addr (v4_addr n) ++ [[ch_slash]; fmt_u8 (v4_prefix_len n)].

Definition fmt_ipv6_net (n : ipv6_net) : list bytes :=
  fmt_ipv6_addr (v6_addr n) ++ [[ch_slash]; fmt_u8 (v6_prefix_len n)].

Definition fmt_ip_net (n : ip_net) : list bytes :=
  match n with
  | NetV4 n => fmt_ipv4_net n
  | NetV6 n => fmt_ipv6_net n
  end.

Fixpoint split_once (c : Z) (s : bytes) : option (bytes * bytes) :=
  match s with
  | [] => None
  | x :: s =>
      if x =? c then Some ([], s)
      else match split_once c s with Some (a, b) => Some (x :: a, b) | None => None end
  end.

Definition ipv4_net_from_str (s : bytes) : result ipv4_net addr_parse_error :=
  let? '(addr_s, prefix_s) := ok_or (split_once ch_slash s) AddrParseError in
  let? addr := ok_or (ipv4_addr_from_str addr_s) AddrParseError in
  let? prefix_len := ok_or (u8_from_str prefix_s) AddrParseError in
  map_err (λ _, AddrParseError) (ipv4_net_new addr prefix_len).

Definition ipv6_net_from_str (s : bytes) : result ipv6_net addr_parse_error :=
  let? '(addr_s, prefix_s) := ok_or (split_once ch_slash s) AddrParseError in
  let? addr := ok_or (ipv6_addr_from_str addr_s) AddrParseError in
  let? prefix_len := ok_or (u8_from_str prefix_s) AddrParseError in
  map_err (λ _, AddrParseError) (ipv6_net_new addr prefix_len).

Definition ip_net_from_str (s : bytes) : result ip_net addr_parse_error :=
  let? '(addr_s, prefix_s) := ok_or (split_once ch_slash s) AddrParseError in
  let? prefix_len := ok_or (u8_from_str prefix_s) AddrParseError in
  let? addr := ok_or (ip_addr_from_str addr_s) AddrParseError in
  match addr with
  | IpV4 addr =>
      map_err (λ _, AddrParseError) (let? n := ipv4_net_new addr prefix_len in Ok (NetV4 n))
  | IpV6 addr =>
      map_err (λ _, AddrParseError) (let? n := ipv6_net_new addr prefix_len in Ok (NetV6 n))
  end.

(** ** Human-readable serde form *)

(** [fmt::write] to a [heapless::String<CAP>] whose error is ignored: the
    pieces up to the first that does not fit. *)
Fixpoint heapless_write (cap : nat) (buf : bytes) (pieces : list bytes) : bytes :=
  match pieces with
  | [] => buf
  | p :: pieces =>
      if (length buf + length p <=? cap)%nat then heapless_write cap (buf ++ p) pieces else buf
  end.

Definition ipv4_net_serialize_str (n : ipv4_net) : bytes := heapless_write 18 [] (fmt_ipv4_net n).
Definition ipv6_net_serialize_str (n : ipv6_net) : bytes := heapless_write 64 [] (fmt_ipv6_net n).

Definition ip_net_serialize_str (n : ip_net) : bytes :=
  match n with
  | NetV4 n => ipv4_net_serialize_str n
  | NetV6 n => ipv6_net_serialize_str n
  end.

(** * Theorems *)

(** ** Digits *)

(** A text at which a number of the radix has ended. *)
Definition stops (radix : Z) (s : bytes) : Prop :=
  match s with
  | [] => True
  | c :: _ => to_digit radix c = None
  end.

Definition is_digit (radix d : Z) : Prop := 0 ≤ d < radix.

Lemma to_from_digit radix d : radix ≤ 16 → is_digit radix d → to_digit radix (from_digit d) = Some d.
Proof.
  unfold is_digit, to_digit, from_digit, ch_0. intros Hr [H0 Hd].
  destruct (Z.ltb_spec d 10).
  - rewrite (proj2 (Z.leb_le 48 _)), (proj2 (Z.leb_le _ 57)) by lia. simpl.
    replace (48 + d - 48) with d by lia. by rewrite (proj2 (Z.ltb_lt _ _)) by lia.
  - rewrite (proj2 (Z.leb_gt _ 57)), andb_false_r by lia.
    rewrite (proj2 (Z.leb_le 97 _)), (proj2 (Z.leb_le _ 122)) by lia. simpl.
    replace (87 + d - 87) with d by lia. by rewrite (proj2 (Z.ltb_lt _ _)) by lia.
Qed.

(** The characters of a printed number. *)
Lemma from_digit_range d : is_digit 16 d → 48 ≤ from_digit d ≤ 57 ∨ 97 ≤ from_digit d ≤ 102.
Proof. unfold is_digit, from_digit, ch_0. destruct (Z.ltb_spec d 10); lia. Qed.

Lemma from_digit_0 d : is_digit 16 d → (from_digit d =? ch_0) = (d =? 0).
Proof.
  unfold is_digit, from_digit, ch_0. intros Hd.
  destruct (Z.ltb_spec d 10); apply eq_true_iff_eq; rewrite !Z.eqb_eq; lia.
Qed.

(** Reading digits from the left. *)
Definition digits_value (radix acc : Z) (ds : list Z) : Z := fold_left (λ a d, a * radix + d) ds acc.

Lemma digits_value_snoc r acc ds d : digits_value r acc (ds ++ [d]) = digits_value r acc ds * r + d.
Proof. unfold digits_value. by rewrite fold_left_app. Qed.

Section digits.
Context (r : Z) (Hr : 2 ≤ r ≤ 16).

Lemma digit_values_spec fuel n :
  0 ≤ n < r ^ Z.of_nat fuel →
  Forall (is_digit r) (digit_values fuel r n) ∧ digits_value r 0 (digit_values fuel r n) = n.
Proof using Hr.
  revert n. induction fuel as [|fuel IH]; intros n Hn; [simpl in *; split; [constructor|lia]|].
  rewrite Nat2Z.inj_succ, Z.pow_succ_r in Hn by lia. simpl.
  destruct (Z.ltb_spec n r).
  - split; [apply Forall_singleton; unfold is_digit; lia|]. unfold digits_value; simpl; lia.
  - destruct (IH (n / r)) as [Hd Hv].
    { split; [apply Z.div_pos; lia|apply Z.div_lt_upper_bound; lia]. }
    split.
    + apply Forall_app. split; [done|]. constructor; [|done]. apply Z.mod_pos_bound; lia.
    + rewrite digits_value_snoc, Hv. pose proof (Z.div_mod n r). lia.
Qed.

Lemma digit_values_length fuel n :
  (1 ≤ fuel)%nat → (1 ≤ length (digit_values fuel r n) ≤ fuel)%nat.
Proof.
  revert n. induction fuel as [|fuel IH]; intros n Hf; [lia|]. simpl.
  destruct (Z.ltb_spec n r); [simpl; lia|]. rewrite length_app. simpl.
  destruct fuel as [|fuel]; [simpl; lia|]. specialize (IH (n / r)). lia.
Qed.

(** Only zero is printed with a leading zero. *)
Lemma digit_values_no_zero fuel n l :
  0 ≤ n < r ^ Z.of_nat fuel → digit_values fuel r n = 0 :: l → l = [].
Proof using Hr.
  revert n l. induction fuel as [|fuel IH]; intros n l Hn; [done|].
  rewrite Nat2Z.inj_succ, Z.pow_succ_r in Hn by lia. simpl.
  destruct (Z.ltb_spec n r); [by intros [= -> <-]|]. intros He.
  assert (0 ≤ n / r < r ^ Z.of_nat fuel) as Hq.
  { split; [apply Z.div_pos; lia|apply Z.div_lt_upper_bound; lia]. }
  assert (1 ≤ n / r) by (apply Z.div_le_lower_bound; lia).
  destruct (digit_values_spec _ _ Hq) as [_ Hv].
  destruct (digit_values fuel r (n / r)) as [|d ds] eqn:Hds.
  - unfold digits_value in Hv; simpl in Hv; lia.
  - simplify_eq/=. apply IH in Hds as ->; [|done]. unfold digits_value in Hv; simpl in Hv; lia.
Qed.

Lemma read_digits_map max c acc ds rest :
  Forall (is_digit r) ds → (c + length ds ≤ max)%nat →
  read_digits r max c acc (map from_digit ds ++ rest)
    = read_digits r max (c + length ds) (digits_value r acc ds) rest.
Proof using Hr.
  revert c acc. induction ds as [|d ds IH]; intros c acc Hd Hm; simpl in *.
  { by rewrite Nat.add_0_r. }
  apply Forall_cons in Hd as [Hd Hds]. rewrite to_from_digit by (done || lia).
  rewrite (proj2 (Nat.ltb_ge _ _)) by lia. rewrite IH by (done || lia).
  by rewrite <- Nat.add_succ_comm.
Qed.

Lemma read_digits_stops max c acc rest :
  stops r rest → read_digits r max c acc rest = Some (c, acc, rest).
Proof. destruct rest as [|x rest]; simpl; [done|]. by intros ->. Qed.

(** A printed number is read back, whatever follows it. *)
Lemma read_number_digits w fuel n max zeros rest :
  0 ≤ n < r ^ Z.of_nat fuel → n < 2 ^ w → (1 ≤ fuel ≤ max)%nat → stops r rest →
  read_number w r max zeros (digits fuel r n ++ rest) = Some (n, rest).
Proof using Hr.
  intros Hn Hw Hf Hs. unfold read_number, digits.
  destruct (digit_values_spec _ _ Hn) as [Hd Hv].
  destruct (digit_values_length fuel n) as [Hl1 Hl2]; [lia|].
  rewrite read_digits_map, read_digits_stops, Hv by (done || lia). simpl Nat.add.
  rewrite (proj2 (Nat.eqb_neq _ _)) by lia.
  rewrite (proj2 (Z.ltb_lt n _)) by done.
  destruct (digit_values fuel r n) as [|d ds] eqn:He; [simpl in *; lia|]. simpl map. simpl app.
  apply Forall_cons in Hd as [Hd _].
  rewrite from_digit_0 by (unfold is_digit in *; lia).
  destruct (Z.eqb_spec d 0) as [->|]; [|by rewrite andb_false_r].
  apply digit_values_no_zero in He as ->; [|done]. by rewrite andb_false_r.
Qed.
End digits.

(** ** Small numbers *)

Lemma digits_value_ge r acc ds :
  1 ≤ r → 0 ≤ acc → Forall (is_digit r) ds → acc ≤ digits_value r acc ds.
Proof.
  intros Hr. unfold digits_value. revert acc.
  induction ds as [|d ds IH]; intros acc Ha Hds; simpl; [lia|].
  apply Forall_cons in Hds as [[Hd _] Hds]. specialize (IH (acc * r + d) ltac:(nia) Hds). nia.
Qed.

Lemma u8_from_digits_map acc ds :
  0 ≤ acc → Forall (is_digit 10) ds → digits_value 10 acc ds ≤ u8_max →
  u8_from_digits acc (map from_digit ds) = Some (digits_value 10 acc ds).
Proof.
  revert acc. induction ds as [|d ds IH]; intros acc Ha Hds Hm; simpl; [done|].
  apply Forall_cons in Hds as [Hd Hds]. rewrite to_from_digit by done.
  pose proof (digits_value_ge 10 (acc * 10 + d) ds) as Hge. unfold is_digit in Hd.
  change (digits_value 10 acc (d :: ds)) with (digits_value 10 (acc * 10 + d) ds) in *.
  rewrite (proj2 (Z.leb_le _ u8_max)) by (specialize (Hge ltac:(lia) ltac:(lia) Hds); lia).
  apply IH; [lia|done..].
Qed.

Lemma u8_bounds n : in_width 8 n → 0 ≤ n < 10 ^ Z.of_nat 3.
Proof. unfold in_width. change (10 ^ Z.of_nat 3) with 1000. change (2 ^ 8) with 256. lia. Qed.

Lemma u16_bounds n : in_width 16 n → 0 ≤ n < 16 ^ Z.of_nat 4.
Proof. done. Qed.

Lemma fmt_u8_digits n :
  in_width 8 n → ∃ d ds, fmt_u8 n = map from_digit (d :: ds) ∧
    Forall (is_digit 10) (d :: ds) ∧ digits_value 10 0 (d :: ds) = n ∧ (length (d :: ds) ≤ 3)%nat.
Proof.
  intros Hn%u8_bounds. destruct (digit_values_spec 10 ltac:(lia) 3 n Hn) as [Hd Hv].
  destruct (digit_values_length 10 3 n) as [Hl1 Hl2]; [lia|]. unfold fmt_u8, digits.
  destruct (digit_values 3 10 n) as [|d ds]; [simpl in *; lia|]. by exists d, ds.
Qed.

Lemma u8_from_str_fmt n : in_width 8 n → u8_from_str (fmt_u8 n) = Some n.
Proof.
  intros Hn. destruct (fmt_u8_digits n Hn) as (d & ds & -> & Hds & Hv & _).
  assert (is_digit 16 d) as Hd by (apply Forall_cons in Hds as [[? ?] _]; unfold is_digit; lia).
  pose proof (from_digit_range d Hd) as Hc.
  unfold u8_from_str. simpl map. unfold ch_plus, ch_minus.
  rewrite (proj2 (Z.eqb_neq _ 43)), (proj2 (Z.eqb_neq _ 45)) by lia. simpl orb.
  change (from_digit d :: map from_digit ds) with (map from_digit (d :: ds)).
  rewrite u8_from_digits_map, Hv; [done|done|done|].
  rewrite Hv. unfold in_width, u8_max in *. lia.
Qed.

Lemma to_digit_nonneg r c d : to_digit r c = Some d → 0 ≤ d.
Proof.
  unfold to_digit. destruct ((48 <=? c) && (c <=? 57)) eqn:H1.
  { apply andb_prop in H1 as [?%Z.leb_le ?%Z.leb_le]. case_match; intros [= <-]; lia. }
  destruct ((97 <=? c) && (c <=? 122)) eqn:H2.
  { apply andb_prop in H2 as [?%Z.leb_le ?%Z.leb_le]. case_match; intros [= <-]; lia. }
  destruct ((65 <=? c) && (c <=? 90)) eqn:H3; [|done].
  apply andb_prop in H3 as [?%Z.leb_le ?%Z.leb_le]. case_match; intros [= <-]; lia.
Qed.

Lemma u8_from_digits_bound acc s n : 0 ≤ acc ≤ u8_max → u8_from_digits acc s = Some n → in_width 8 n.
Proof.
  revert acc. induction s as [|c s IH]; intros acc Ha; simpl.
  { intros [= <-]. unfold in_width, u8_max in *. lia. }
  destruct (to_digit 10 c) as [d|] eqn:Hd; [|done].
  destruct (Z.leb_spec (acc * 10 + d) u8_max); [|done]. apply IH.
  apply to_digit_nonneg in Hd. lia.
Qed.

Lemma u8_from_str_bound s n : u8_from_str s = Some n → in_width 8 n.
Proof.
  unfold u8_from_str. destruct s as [|c t]; [done|].
  repeat case_match; try done; by apply u8_from_digits_bound.
Qed.

(** ** IPv4 addresses *)

Lemma stops_char c rest : (c <? 48) || ((57 <? c) && (c <? 65)) = true → ∀ r, stops r (c :: rest).
Proof.
  intros Hc r. simpl. unfold to_digit.
  apply orb_prop in Hc as [Hc%Z.ltb_lt|[H1%Z.ltb_lt H2%Z.ltb_lt]%andb_prop];
    rewrite ?(proj2 (Z.leb_gt 48 c)), ?(proj2 (Z.leb_gt c 57)), ?(proj2 (Z.leb_gt 97 c)),
      ?(proj2 (Z.leb_gt 65 c)) by lia; simpl; rewrite ?andb_false_r; done.
Qed.

Lemma read_octet_0 n rest :
  in_width 8 n → stops 10 rest → read_octet 0 (fmt_u8 n ++ rest) = Some (n, rest).
Proof.
  intros Hn Hs. unfold read_octet, read_separator. simpl.
  apply read_number_digits; [lia|by apply u8_bounds|apply Hn|lia|done].
Qed.

Lemma read_octet_S i n rest :
  in_width 8 n → stops 10 rest → read_octet (S i) (ch_dot :: fmt_u8 n ++ rest) = Some (n, rest).
Proof. apply read_octet_0. Qed.

Lemma be_bytes_4 a :
  in_width 32 a → ∃ b0 b1 b2 b3, to_be_bytes 4 a = [b0; b1; b2; b3] ∧
    in_width 8 b0 ∧ in_width 8 b1 ∧ in_width 8 b2 ∧ in_width 8 b3 ∧
    from_be_bytes [b0; b1; b2; b3] = a.
Proof.
  intros Ha. pose proof (to_be_bytes_is_bytes 4 a) as Hb.
  pose proof (from_to_be_bytes 4 a Ha) as Hv. pose proof (length_to_be_bytes 4 a) as Hl.
  destruct (to_be_bytes 4 a) as [|b0 [|b1 [|b2 [|b3 [|]]]]]; try done.
  exists b0, b1, b2, b3. unfold is_bytes in Hb. rewrite !Forall_cons in Hb. naive_solver.
Qed.

Lemma read_ipv4_addr_fmt a rest :
  in_width 32 a → stops 10 rest →
  read_ipv4_addr (concat (fmt_ipv4_addr a) ++ rest) = Some (a, rest).
Proof.
  intros Ha Hs. destruct (be_bytes_4 a Ha) as (b0 & b1 & b2 & b3 & He & H0 & H1 & H2 & H3 & Hv).
  unfold fmt_ipv4_addr. rewrite He. simpl concat. rewrite app_nil_r, <- !app_assoc.
  assert (∀ t, stops 10 (ch_dot :: t)) as Hdot by (intros t; by apply stops_char).
  unfold read_ipv4_addr, parser_bind.
  rewrite read_octet_0 by done. simpl app. rewrite <- !app_assoc.
  rewrite read_octet_S by done. simpl app. rewrite <- !app_assoc.
  rewrite read_octet_S by done. simpl app. rewrite <- ?app_assoc.
  rewrite read_octet_S by done. unfold parser_ret. by rewrite Hv.
Qed.

(** ** Groups of an IPv6 address *)

Lemma to_digit_10 c d : to_digit 10 c = Some d → 48 ≤ c ≤ 57.
Proof.
  unfold to_digit. destruct ((48 <=? c) && (c <=? 57)) eqn:H1.
  { apply andb_prop in H1 as [?%Z.leb_le ?%Z.leb_le]. lia. }
  destruct ((97 <=? c) && (c <=? 122)) eqn:H2.
  { apply andb_prop in H2 as [?%Z.leb_le ?%Z.leb_le]. destruct (Z.ltb_spec (c - 87) 10); [lia|done]. }
  destruct ((65 <=? c) && (c <=? 90)) eqn:H3; [|done].
  apply andb_prop in H3 as [?%Z.leb_le ?%Z.leb_le]. destruct (Z.ltb_spec (c - 55) 10); [lia|done].
Qed.

Lemma read_digits_prefix max count acc s count' n s' :
  read_digits 10 max count acc s = Some (count', n, s') →
  ∃ ds, s = ds ++ s' ∧ Forall (λ c, 48 ≤ c ≤ 57) ds.
Proof.
  revert count acc. induction s as [|c s IH]; intros count acc; simpl.
  { intros [= <- <- <-]. by exists []. }
  destruct (to_digit 10 c) eqn:Hd; [|intros [= <- <- <-]; by exists []].
  case_match; [done|]. intros (ds & -> & Hds)%IH. exists (c :: ds). split; [done|].
  constructor; [by eapply to_digit_10|done].
Qed.

(** Only a text with a dot after its first digits is an IPv4 address. *)
Lemma read_ipv4_addr_dot s a s' :
  read_ipv4_addr s = Some (a, s') → ∃ ds t, s = ds ++ ch_dot :: t ∧ Forall (λ c, 48 ≤ c ≤ 57) ds.
Proof.
  unfold read_ipv4_addr, parser_bind, read_octet, read_separator. simpl.
  destruct (read_number 8 10 3 false s) as [[x s1]|] eqn:H1; [|done].
  unfold parser_bind, read_given_char at 1.
  destruct s1 as [|c t]; [done|]. destruct (Z.eqb_spec c ch_dot) as [->|]; [|done]. intros _.
  revert H1. unfold read_number.
  destruct (read_digits 10 3 0 0 s) as [[[k n] s1]|] eqn:Hr; [|done].
  apply read_digits_prefix in Hr as (ds & -> & Hds).
  repeat case_match; try done; intros [= _ ->]; by exists ds, t.
Qed.

(** What may follow the groups that are read: nothing, or a colon. *)
Definition colon_or_end (s : bytes) : Prop := s = [] ∨ ∃ t, s = ch_colon :: t.

Lemma read_ipv4_addr_hex cs rest :
  Forall (λ c, c ≠ ch_dot) cs → colon_or_end rest → read_ipv4_addr (cs ++ rest) = None.
Proof.
  intros Hcs Hrest. destruct (read_ipv4_addr _) as [[a s']|] eqn:He; [|done]. exfalso.
  apply read_ipv4_addr_dot in He as (ds & t & He & Hds).
  assert (∀ u, rest ≠ ch_dot :: u) as Hdot by (intros u ->; destruct Hrest as [?|[? ?]]; done).
  apply app_eq_app in He as [k [[-> Hk]|[-> Hk]]].
  - destruct k as [|c k]; [by apply (Hdot t)|]. injection Hk as <- Hk.
    apply Forall_app in Hcs as [_ [Hc _]%Forall_cons]. done.
  - destruct k as [|c k]; [by apply (Hdot t)|].
    destruct Hrest as [->|[u ->]]; [done|]. injection Hk as <- Hk.
    apply Forall_app in Hds as [_ [Hc _]%Forall_cons]. unfold ch_colon in Hc. lia.
Qed.

Lemma fmt_hex16_chars g :
  in_width 16 g → Forall (λ c, 48 ≤ c ≤ 57 ∨ 97 ≤ c ≤ 102) (fmt_hex16 g).
Proof.
  intros Hg%u16_bounds. destruct (digit_values_spec 16 ltac:(lia) 4 g Hg) as [Hd _].
  unfold fmt_hex16, digits. apply Forall_map. eapply Forall_impl; [exact Hd|].
  intros d. apply from_digit_range.
Qed.

Lemma read_hex16 g rest :
  in_width 16 g → colon_or_end rest →
  read_number 16 16 4 true (fmt_hex16 g ++ rest) = Some (g, rest) ∧
  read_ipv4_addr (fmt_hex16 g ++ rest) = None.
Proof.
  intros Hg Hrest. split.
  - apply read_number_digits; [lia|by apply u16_bounds|apply Hg|lia|].
    destruct Hrest as [->|[t ->]]; [done|by apply stops_char].
  - apply read_ipv4_addr_hex; [|done]. eapply Forall_impl; [by apply fmt_hex16_chars|].
    unfold ch_dot. simpl. lia.
Qed.

(** The groups end at the end of the text and at a double colon. *)
Definition groups_end (s : bytes) : Prop := s = [] ∨ ∃ t, s = ch_colon :: ch_colon :: t.

Lemma groups_end_colon s : groups_end s → colon_or_end s.
Proof. intros [->|[t ->]]; [by left|right; eauto]. Qed.

Lemma read_groups_end i n s : groups_end s → read_groups i n s = ([], false, s).
Proof.
  intros Hs. destruct n as [|n]; [done|]. simpl.
  assert (∀ A (p : parser A), p [] = None → (∀ t, p (ch_colon :: t) = None) →
    read_separator ch_colon i p s = None) as Hnone.
  { intros A p H0 H1. unfold read_separator, parser_bind.
    destruct i; simpl; destruct Hs as [->|[t ->]]; simpl; auto. }
  rewrite (Hnone _ (read_number 16 16 4 true)) by done.
  rewrite (Hnone _ read_ipv4_addr) by done. by destruct (0 <? n)%nat.
Qed.

(** The text of the groups that follow another one. *)
Definition groups_text (gs : list Z) : bytes := concat (map (λ g, ch_colon :: fmt_hex16 g) gs).

Lemma concat_fmt_subslice g gs :
  concat (fmt_subslice (g :: gs)) = fmt_hex16 g ++ groups_text gs.
Proof.
  simpl. f_equal. unfold groups_text. induction gs as [|h gs IH]; [done|].
  simpl. by rewrite IH.
Qed.

Lemma groups_text_end gs rest : groups_end rest → colon_or_end (groups_text gs ++ rest).
Proof.
  intros Hr. destruct gs as [|g gs]; [by apply groups_end_colon|]. right. by eexists.
Qed.

Lemma read_groups_text gs i n rest :
  (1 ≤ i)%nat → Forall (in_width 16) gs → (length gs ≤ n)%nat → groups_end rest →
  read_groups i n (groups_text gs ++ rest) = (gs, false, rest).
Proof.
  intros Hi Hgs. revert i n Hi. induction Hgs as [|g gs Hg Hgs IH]; intros i n Hi Hn Hr.
  { by apply read_groups_end. }
  destruct n as [|n]; [simpl in Hn; lia|]. simpl in Hn.
  destruct i as [|i]; [lia|]. cbn [read_groups].
  unfold groups_text; cbn [map concat]; fold (groups_text gs).
  rewrite <- app_assoc. unfold read_separator, parser_bind; simpl.
  destruct (read_hex16 g (groups_text gs ++ rest)) as [-> ->]; [done|by apply groups_text_end|].
  rewrite IH by (done || lia). by destruct (0 <? n)%nat.
Qed.

Lemma read_groups_first g n rest :
  in_width 16 g → colon_or_end rest →
  read_groups 0 (S n) (fmt_hex16 g ++ rest)
    = let '(gs, v4, s) := read_groups 1 n rest in (g :: gs, v4, s).
Proof.
  intros Hg Hr. cbn [read_groups]. unfold read_separator. change (0 <? 0)%nat with false.
  destruct (read_hex16 g rest) as [Hn Ha]; [done..|].
  cbv beta iota. rewrite Ha, Hn. by destruct (0 <? n)%nat.
Qed.

Lemma read_groups_fmt gs n rest :
  Forall (in_width 16) gs → (length gs ≤ n)%nat → groups_end rest →
  read_groups 0 n (concat (fmt_subslice gs) ++ rest) = (gs, false, rest).
Proof.
  intros Hgs Hn Hr. destruct gs as [|g gs]; [by apply read_groups_end|].
  destruct n as [|n]; [simpl in Hn; lia|]. simpl in Hn.
  apply Forall_cons in Hgs as [Hg Hgs]. rewrite concat_fmt_subslice, <- app_assoc.
  rewrite read_groups_first by (done || by apply groups_text_end).
  by rewrite read_groups_text by (done || lia).
Qed.

(** ** IPv6 addresses *)

Lemma from_groups_snoc acc gs g : from_groups acc (gs ++ [g]) = Z.shiftl (from_groups acc gs) 16 + g.
Proof. revert acc. induction gs as [|h gs IH]; intros acc; simpl; [done|apply IH]. Qed.

Lemma to_groups_spec n a :
  in_width (16 * Z.of_nat n) a →
  length (to_groups n a) = n ∧ Forall (in_width 16) (to_groups n a) ∧ from_groups 0 (to_groups n a) = a.
Proof.
  revert a. induction n as [|n IH]; intros a Ha.
  { unfold in_width in Ha. simpl in *. split_and!; [done|done|lia]. }
  destruct (IH (Z.shiftr a 16)) as (Hl & Hg & Hv).
  { unfold in_width in *. rewrite Z.shiftr_div_pow2 by lia.
    replace (16 * Z.of_nat (S n)) with (16 + 16 * Z.of_nat n) in Ha by lia.
    rewrite Z.pow_add_r in Ha by lia.
    split; [apply Z.div_pos; lia|apply Z.div_lt_upper_bound; lia]. }
  simpl. split_and!.
  - rewrite length_app, Hl. simpl. lia.
  - apply Forall_app. split; [done|]. apply Forall_singleton. by apply wrap_in_width.
  - rewrite from_groups_snoc, Hv. unfold wrap.
    rewrite Z.shiftl_mul_pow2, Z.shiftr_div_pow2 by lia. pose proof (Z.div_mod a (2 ^ 16)). lia.
Qed.

(** A run of zero segments of the address. *)
Definition zero_span (gs : list Z) (z : span) : Prop :=
  (span_start z + span_len z ≤ length gs)%nat ∧
  ∀ k, (span_start z ≤ k < span_start z + span_len z)%nat → gs !! k = Some 0.

Lemma zero_span_app gs gs' z : zero_span gs z → zero_span (gs ++ gs') z.
Proof.
  intros [Hl Hz]. split; [rewrite length_app; lia|].
  intros k Hk. rewrite lookup_app_l by lia. by apply Hz.
Qed.

Lemma longest_zeroes_span pre longest current gs :
  zero_span pre longest → zero_span pre current →
  (span_len current = 0 ∨ span_start current + span_len current = length pre)%nat →
  zero_span (pre ++ gs) (longest_zeroes (length pre) longest current gs).
Proof.
  revert pre longest current. induction gs as [|g gs IH]; intros pre longest current Hl Hc He.
  { by rewrite app_nil_r. }
  assert (S (length pre) = length (pre ++ [g])) as Hlen by (rewrite length_app; simpl; lia).
  simpl longest_zeroes. rewrite cons_middle, app_assoc, Hlen.
  destruct (Z.eqb_spec g 0) as [->|]; [|apply IH; [by apply zero_span_app|split; simpl; lia|by left]].
  set (c := {| span_start := _; span_len := _ |}).
  assert (span_start c + span_len c = length (pre ++ [0%Z]))%nat as Hce.
  { subst c; simpl. rewrite <- Hlen. destruct (Nat.eqb_spec (span_len current) 0); lia. }
  assert (zero_span (pre ++ [0]) c) as Hspan.
  { split; [lia|]. intros k Hk. destruct (decide (k = length pre)) as [->|Hne]; [by apply lookup_snoc|].
    rewrite lookup_app_l by lia. apply Hc. subst c; simpl in *.
    destruct (Nat.eqb_spec (span_len current) 0); lia. }
  apply IH; [|done|by right]. case_match; [done|by apply zero_span_app].
Qed.

Lemma zero_span_split gs z :
  zero_span gs z →
  take (span_start z) gs ++ replicate (span_len z) 0 ++ drop (span_start z + span_len z) gs = gs.
Proof.
  intros [Hl Hz]. rewrite <- (take_drop (span_start z) gs) at 3. f_equal.
  rewrite <- (take_drop (span_len z) (drop (span_start z) gs)), drop_drop. f_equal.
  apply list_eq. intros k. destruct (decide (k < span_len z)%nat) as [Hk|Hk].
  - rewrite lookup_replicate_2, lookup_take_lt, lookup_drop, Hz by lia. done.
  - rewrite !lookup_ge_None_2; [done|rewrite length_take; lia|rewrite length_replicate; lia].
Qed.

(** The text with a double colon stands for the groups around as many zeros as
    are missing. *)
Lemma read_ipv6_addr_compressed gs hs text tail v4 :
  Forall (in_width 16) gs → (length gs + length hs < 8)%nat →
  read_groups 0 (8 - (length gs + 1)) text = (hs, v4, tail) →
  read_ipv6_addr (concat (fmt_subslice gs) ++ ch_colon :: ch_colon :: text)
    = Some (from_groups 0 (gs ++ replicate (8 - length gs - length hs) 0 ++ hs), tail).
Proof.
  intros Hgs Hl Ht. unfold read_ipv6_addr.
  rewrite read_groups_fmt by (done || lia || (right; eauto)).
  rewrite (proj2 (Nat.eqb_neq _ _)) by lia.
  unfold parser_bind, read_given_char. rewrite !Z.eqb_refl. by rewrite Ht.
Qed.

Lemma to_ipv4_mapped_spec a v4 :
  in_width 128 a → to_ipv4_mapped a = Some v4 →
  in_width 32 v4 ∧ from_groups 0 (replicate 5 0 ++ [0xffff; Z.shiftr v4 16; wrap 16 v4]) = a.
Proof.
  intros Ha. unfold to_ipv4_mapped. destruct (Z.eqb_spec (Z.shiftr a 32) 0xffff) as [He|]; [|done].
  intros [= <-]. split; [by apply wrap_in_width|].
  simpl. unfold wrap. rewrite !Z.shiftl_mul_pow2, Z.shiftr_div_pow2 by lia.
  rewrite Z.shiftr_div_pow2 in He by lia. pose proof (Z.div_mod a (2 ^ 32)).
  pose proof (Z.div_mod (a mod 2 ^ 32) (2 ^ 16)). lia.
Qed.

Lemma read_ipv6_addr_mapped v4 :
  in_width 32 v4 →
  read_ipv6_addr (concat ([ch_colon; ch_colon; 102; 102; 102; 102; ch_colon] :: fmt_ipv4_addr v4))
    = Some (from_groups 0 (replicate 5 0 ++ [0xffff; Z.shiftr v4 16; wrap 16 v4]), []).
Proof.
  intros Hv. simpl concat.
  apply (read_ipv6_addr_compressed [] [0xffff; Z.shiftr v4 16; wrap 16 v4] _ [] true); [done|simpl; lia|].
  set (text := concat (fmt_ipv4_addr v4)).
  assert (read_ipv4_addr text = Some (v4, [])) as Hr.
  { rewrite <- (app_nil_r text). by apply read_ipv4_addr_fmt. }
  change (read_groups 0 7 (fmt_hex16 0xffff ++ ch_colon :: text)
    = ([0xffff; Z.shiftr v4 16; wrap 16 v4], true, [])).
  rewrite read_groups_first by (done || (right; eauto)).
  cbn [read_groups]. unfold read_separator, parser_bind. simpl. by rewrite Hr.
Qed.

Lemma read_ipv6_addr_fmt a :
  in_width 128 a → read_ipv6_addr (concat (fmt_ipv6_addr a)) = Some (a, []).
Proof.
  intros Ha. unfold fmt_ipv6_addr. destruct (to_ipv4_mapped a) as [v4|] eqn:Hm.
  { destruct (to_ipv4_mapped_spec a v4 Ha Hm) as [Hv <-]. by apply read_ipv6_addr_mapped. }
  destruct (to_groups_spec 8 a Ha) as (Hl & Hg & Hv). unfold segments.
  generalize dependent (to_groups 8 a). intros gs Hl Hg Hv.
  assert (zero_span gs (longest_zeroes 0 span_default span_default gs)) as Hz.
  { apply (longest_zeroes_span [] span_default span_default gs); [split; simpl; lia..|by left]. }
  generalize dependent (longest_zeroes 0 span_default span_default gs). intros z Hz.
  destruct (Nat.ltb_spec 1 (span_len z)) as [H1|_].
  - pose proof (zero_span_split gs z Hz) as Hs. destruct Hz as [Hle _].
    assert (length (take (span_start z) gs) = span_start z) as Ht by (rewrite length_take; lia).
    assert (length (drop (span_start z + span_len z) gs) = 8 - (span_start z + span_len z))%nat as Hd
      by (rewrite length_drop; lia).
    rewrite !concat_app. change (concat [[ch_colon; ch_colon]]) with [ch_colon; ch_colon]. cbn [app].
    rewrite (read_ipv6_addr_compressed _ (drop (span_start z + span_len z) gs) _ [] false).
    + rewrite Ht, Hd. replace (8 - span_start z - (8 - (span_start z + span_len z)))%nat with (span_len z) by lia.
      by rewrite Hs, Hv.
    + by apply Forall_take.
    + lia.
    + rewrite <- (app_nil_r (concat (fmt_subslice _))).
      apply read_groups_fmt; [by apply Forall_drop|lia|by left].
  - unfold read_ipv6_addr. rewrite <- (app_nil_r (concat _)).
    rewrite read_groups_fmt by (done || lia || by left). by rewrite Hl, Hv.
Qed.

(** ** The texts of addresses *)

Lemma fmt_u8_text n :
  in_width 8 n → Forall (λ c, c ≠ ch_slash) (fmt_u8 n) ∧ (length (fmt_u8 n) ≤ 3)%nat.
Proof.
  intros Hn. destruct (fmt_u8_digits n Hn) as (d & ds & -> & Hd & _ & Hl).
  rewrite length_map. split; [|done]. apply Forall_map. eapply Forall_impl; [exact Hd|].
  intros x Hx. unfold is_digit in Hx. pose proof (from_digit_range x) as Hr.
  unfold is_digit, ch_slash in *. simpl. lia.
Qed.

Lemma fmt_hex16_text g :
  in_width 16 g → Forall (λ c, c ≠ ch_slash) (fmt_hex16 g) ∧ (length (fmt_hex16 g) ≤ 4)%nat.
Proof.
  intros Hg. split.
  - eapply Forall_impl; [by apply fmt_hex16_chars|]. unfold ch_slash. simpl. lia.
  - unfold fmt_hex16, digits. rewrite length_map.
    destruct (digit_values_length 16 4 g); [lia..|done].
Qed.

Lemma fmt_ipv4_addr_text a :
  in_width 32 a →
  Forall (λ c, c ≠ ch_slash) (concat (fmt_ipv4_addr a)) ∧ (length (concat (fmt_ipv4_addr a)) ≤ 15)%nat.
Proof.
  intros Ha. destruct (be_bytes_4 a Ha) as (b0 & b1 & b2 & b3 & He & H0 & H1 & H2 & H3 & _).
  unfold fmt_ipv4_addr. rewrite He.
  destruct (fmt_u8_text b0 H0), (fmt_u8_text b1 H1), (fmt_u8_text b2 H2), (fmt_u8_text b3 H3).
  cbn [concat]. rewrite !length_app. split; [|simpl; lia].
  rewrite !Forall_app, !Forall_singleton. by unfold ch_dot, ch_slash.
Qed.

Lemma fmt_subslice_text gs :
  Forall (in_width 16) gs →
  Forall (λ c, c ≠ ch_slash) (concat (fmt_subslice gs)) ∧
  (length (concat (fmt_subslice gs)) ≤ 5 * length gs)%nat.
Proof.
  intros Hgs. assert (Forall (λ c, c ≠ ch_slash) (groups_text gs) ∧
    (length (groups_text gs) ≤ 5 * length gs)%nat) as [Hc Hl].
  { unfold groups_text. induction Hgs as [|g gs Hg Hgs [IHc IHl]]; [by split; [constructor|simpl; lia]|].
    destruct (fmt_hex16_text g Hg). cbn [map concat length]. rewrite length_app.
    split; [|simpl; lia]. apply Forall_app. split; [by constructor|done]. }
  destruct gs as [|g gs]; [by split; [constructor|simpl; lia]|].
  rewrite concat_fmt_subslice. unfold groups_text in Hc, Hl. cbn [map concat app length] in Hc, Hl.
  fold (groups_text gs) in Hc, Hl. apply Forall_cons in Hc as [_ Hc]. split; [done|].
  cbn [length]. lia.
Qed.

Lemma fmt_ipv6_addr_text a :
  in_width 128 a →
  Forall (λ c, c ≠ ch_slash) (concat (fmt_ipv6_addr a)) ∧ (length (concat (fmt_ipv6_addr a)) ≤ 42)%nat.
Proof.
  intros Ha. unfold fmt_ipv6_addr. destruct (to_ipv4_mapped a) as [v4|] eqn:Hm.
  { destruct (to_ipv4_mapped_spec a v4 Ha Hm) as [Hv _]. destruct (fmt_ipv4_addr_text v4 Hv).
    cbn [concat]. rewrite length_app. split; [|cbn [length]; lia].
    apply Forall_app. split; [|done]. by repeat constructor. }
  destruct (to_groups_spec 8 a Ha) as (Hl & Hg & _). unfold segments.
  generalize dependent (to_groups 8 a). intros gs Hl Hg.
  generalize (longest_zeroes 0 span_default span_default gs). intros z.
  destruct (fmt_subslice_text gs Hg) as [Hc Hle].
  destruct (Nat.ltb_spec 1 (span_len z)); [|split; [done|lia]].
  destruct (fmt_subslice_text (take (span_start z) gs)) as [Hc1 Hl1]; [by apply Forall_take|].
  destruct (fmt_subslice_text (drop (span_start z + span_len z) gs)) as [Hc2 Hl2]; [by apply Forall_drop|].
  rewrite length_take in Hl1. rewrite length_drop in Hl2.
  rewrite !concat_app, !length_app. change (length (concat [[ch_colon; ch_colon]])) with 2%nat.
  split; [|lia]. rewrite !Forall_app. split_and!; [done| |done]. by repeat constructor.
Qed.

(** An IPv6 text is never read as an IPv4 address. *)
Lemma fmt_ipv6_addr_not_ipv4 a : in_width 128 a → read_ipv4_addr (concat (fmt_ipv6_addr a)) = None.
Proof.
  intros Ha. unfold fmt_ipv6_addr. destruct (to_ipv4_mapped a) as [v4|]; [done|].
  destruct (to_groups_spec 8 a Ha) as (Hl & Hg & _). unfold segments.
  generalize dependent (to_groups 8 a). intros gs Hl Hg.
  assert (∀ gs rest, Forall (in_width 16) gs → groups_end rest →
    read_ipv4_addr (concat (fmt_subslice gs) ++ rest) = None) as Hnone.
  { intros [|g gs'] rest Hgs Hr; [by apply (read_ipv4_addr_hex []), groups_end_colon|].
    apply Forall_cons in Hgs as [Hg' Hgs]. rewrite concat_fmt_subslice, <- app_assoc.
    apply (read_hex16 g (groups_text gs' ++ rest)); [done|by apply groups_text_end]. }
  generalize (longest_zeroes 0 span_default span_default gs). intros z.
  destruct (1 <? span_len z)%nat.
  - rewrite concat_app. apply Hnone; [by apply Forall_take|]. right.
    rewrite concat_app. by eexists.
  - rewrite <- (app_nil_r (concat _)). apply Hnone; [done|by left].
Qed.

Lemma ip_addr_from_str_fmt a :
  ip_addr_valid a →
  ip_addr_from_str (concat (match a with IpV4 x => fmt_ipv4_addr x | IpV6 x => fmt_ipv6_addr x end)) = Some a.
Proof.
  unfold ip_addr_from_str, parse_with, read_ip_addr. destruct a as [x|x]; intros Ha; simpl in Ha.
  - by rewrite <- (app_nil_r (concat _)), read_ipv4_addr_fmt.
  - by rewrite fmt_ipv6_addr_not_ipv4, read_ipv6_addr_fmt.
Qed.

Lemma ipv4_addr_from_str_fmt a : in_width 32 a → ipv4_addr_from_str (concat (fmt_ipv4_addr a)) = Some a.
Proof.
  intros Ha. unfold ipv4_addr_from_str, parse_with. destruct (fmt_ipv4_addr_text a Ha) as [_ Hl].
  rewrite (proj2 (Nat.ltb_ge _ _)) by lia. by rewrite <- (app_nil_r (concat _)), read_ipv4_addr_fmt.
Qed.

Lemma split_once_app c s t : Forall (λ x, x ≠ c) s → split_once c (s ++ c :: t) = Some (s, t).
Proof.
  induction 1 as [|x s Hx Hs IH]; simpl; [by rewrite Z.eqb_refl|].
  by rewrite (proj2 (Z.eqb_neq x c)), IH.
Qed.

(** ** The buffers of the serializer *)

Lemma heapless_write_fits cap buf pieces :
  (length buf + length (concat pieces) ≤ cap)%nat →
  heapless_write cap buf pieces = buf ++ concat pieces.
Proof.
  revert buf. induction pieces as [|p pieces IH]; intros buf Hl; simpl in *; [by rewrite app_nil_r|].
  rewrite length_app in Hl. rewrite (proj2 (Nat.leb_le _ _)) by lia.
  rewrite IH by (rewrite length_app; lia). by rewrite app_assoc.
Qed.

Lemma fmt_u8_short n : 0 ≤ n < 100 → (length (fmt_u8 n) ≤ 2)%nat.
Proof.
  intros Hn. unfold fmt_u8, digits. rewrite length_map. cbn [digit_values].
  destruct (Z.ltb_spec n 10); [simpl; lia|].
  destruct (Z.ltb_spec (n / 10) 10) as [|Hge]; [simpl; lia|].
  assert (n / 10 < 10) by (apply Z.div_lt_upper_bound; lia). lia.
Qed.

Lemma ipv4_net_serialize_str_whole n :
  ip_net_valid (NetV4 n) → ipv4_net_serialize_str n = concat (fmt_ipv4_net n).
Proof.
  intros [Ha Hp]. apply heapless_write_fits. unfold fmt_ipv4_net.
  destruct (fmt_ipv4_addr_text _ Ha). pose proof (fmt_u8_short (v4_prefix_len n)).
  rewrite concat_app. cbn [concat]. rewrite !length_app. cbn [length]. lia.
Qed.

Lemma ipv6_net_serialize_str_whole n :
  ip_net_valid (NetV6 n) → ipv6_net_serialize_str n = concat (fmt_ipv6_net n).
Proof.
  intros [Ha Hp]. apply heapless_write_fits. unfold fmt_ipv6_net.
  destruct (fmt_ipv6_addr_text _ Ha). destruct (fmt_u8_text (v6_prefix_len n)); [unfold in_width; lia|].
  rewrite concat_app. cbn [concat]. rewrite !length_app. cbn [length]. lia.
Qed.

(** ** Numbers and addresses that are read are in range *)

Lemma read_number_bound w r max zeros s n s' :
  0 ≤ r → read_number w r max zeros s = Some (n, s') → in_width w n.
Proof.
  intros Hr. unfold read_number.
  assert (∀ s count acc k m t, 0 ≤ acc → read_digits r max count acc s = Some (k, m, t) → 0 ≤ m) as Hpos.
  { clear s. induction s as [|c s IH]; intros count acc k m t Ha; simpl; [by intros [= <- <- <-]|].
    destruct (to_digit r c) as [d|] eqn:Hd; [|by intros [= <- <- <-]].
    apply to_digit_nonneg in Hd. case_match; [done|]. apply IH. nia. }
  destruct (read_digits r max 0 0 s) as [[[k m] t]|] eqn:He; [|done].
  apply Hpos in He; [|lia]. destruct (k =? 0)%nat; [done|]. destruct (_ && _); [done|].
  destruct (Z.ltb_spec m (2 ^ w)); [|done]. intros [= <- <-]. done.
Qed.

Lemma read_octet_bound i s n s' : read_octet i s = Some (n, s') → in_width 8 n.
Proof.
  unfold read_octet, read_separator, parser_bind. destruct (0 <? i)%nat.
  - destruct (read_given_char ch_dot s) as [[? ?]|]; [|done]. by apply read_number_bound.
  - by apply read_number_bound.
Qed.

Lemma read_ipv4_addr_bound s a s' : read_ipv4_addr s = Some (a, s') → in_width 32 a.
Proof.
  unfold read_ipv4_addr, parser_bind, parser_ret.
  destruct (read_octet 0 s) as [[b0 s0]|] eqn:H0; [|done].
  destruct (read_octet 1 s0) as [[b1 s1]|] eqn:H1; [|done].
  destruct (read_octet 2 s1) as [[b2 s2]|] eqn:H2; [|done].
  destruct (read_octet 3 s2) as [[b3 s3]|] eqn:H3; [|done]. intros [= <- <-].
  apply (from_be_bytes_bound [b0; b1; b2; b3]). unfold is_bytes. rewrite !Forall_cons.
  split_and!; [by eapply read_octet_bound..|done].
Qed.

Lemma read_groups_bound i n s gs v4 s' :
  read_groups i n s = (gs, v4, s') → Forall (in_width 16) gs ∧ (length gs ≤ n)%nat.
Proof.
  revert i s gs v4 s'. induction n as [|n IH]; intros i s gs v4 s'; cbn [read_groups].
  { intros [= <- <- <-]. by split. }
  assert (∀ A sep (p : parser A) t x, read_separator sep i p t = Some x → ∃ t', p t' = Some x) as Hsep.
  { intros A sep p t x. unfold read_separator, parser_bind.
    destruct (0 <? i)%nat; [|eauto]. destruct (read_given_char sep t) as [[? ?]|]; [eauto|done]. }
  destruct (if (0 <? n)%nat then _ else None) as [[v t]|] eqn:Hv.
  { intros [= <- <- <-]. destruct (Nat.ltb_spec 0 n); [|done]. split; [|simpl; lia].
    apply Hsep in Hv as [t' Hv%read_ipv4_addr_bound].
    apply Forall_cons; split; [|by apply Forall_singleton, wrap_in_width].
    unfold in_width in *. rewrite Z.shiftr_div_pow2 by lia.
    split; [apply Z.div_pos; lia|apply Z.div_lt_upper_bound; lia]. }
  destruct (read_separator ch_colon i (read_number 16 16 4 true) s) as [[g t]|] eqn:Hg.
  - apply Hsep in Hg as [t' Hg%read_number_bound]; [|lia].
    destruct (read_groups (S i) n t) as [[gs' v4'] t''] eqn:Hr. intros [= <- <- <-].
    apply IH in Hr as [Hgs Hl]. split; [by constructor|simpl; lia].
  - intros [= <- <- <-]. split; [constructor|simpl; lia].
Qed.

Lemma from_groups_bound gs acc w :
  0 ≤ w → in_width w acc → Forall (in_width 16) gs →
  in_width (w + 16 * Z.of_nat (length gs)) (from_groups acc gs).
Proof.
  intros Hw Ha Hgs. revert acc w Hw Ha. induction Hgs as [|g gs Hg Hgs IH]; intros acc w Hw Ha.
  { simpl. by rewrite Z.add_0_r. }
  cbn [from_groups length]. replace (w + 16 * Z.of_nat (S (length gs)))
    with ((w + 16) + 16 * Z.of_nat (length gs)) by lia.
  apply IH; [lia|]. unfold in_width in *. rewrite Z.shiftl_mul_pow2, Z.pow_add_r by lia. nia.
Qed.

Lemma read_ipv6_addr_bound s a s' : read_ipv6_addr s = Some (a, s') → in_width 128 a.
Proof.
  unfold read_ipv6_addr. destruct (read_groups 0 8 s) as [[head v4] t] eqn:Hh.
  apply read_groups_bound in Hh as [Hh Hl].
  assert (∀ gs, Forall (in_width 16) gs → length gs = 8%nat → in_width 128 (from_groups 0 gs)) as Hok.
  { intros gs Hgs Hlen. pose proof (from_groups_bound gs 0 0) as Hb. rewrite Hlen in Hb.
    apply Hb; [lia|done|done]. }
  destruct (Nat.eqb_spec (length head) 8); [intros [= <- <-]; by apply Hok|].
  destruct v4; [done|]. unfold parser_bind.
  destruct (read_given_char ch_colon t) as [[_ t1]|]; [|done].
  destruct (read_given_char ch_colon t1) as [[_ t2]|]; [|done].
  destruct (read_groups 0 (8 - (length head + 1)) t2) as [[tail v4'] t3] eqn:Ht.
  apply read_groups_bound in Ht as [Ht Hlt]. intros [= <- <-]. apply Hok.
  - rewrite !Forall_app. split_and!; [done| |done]. by apply Forall_replicate.
  - rewrite !length_app, length_replicate. lia.
Qed.

Lemma ip_addr_from_str_bound s a : ip_addr_from_str s = Some a → ip_addr_valid a.
Proof.
  unfold ip_addr_from_str, parse_with, read_ip_addr.
  destruct (read_ipv4_addr s) as [[x [|? ?]]|] eqn:H4; [intros [= <-]; by eapply read_ipv4_addr_bound|done|].
  destruct (read_ipv6_addr s) as [[x [|? ?]]|] eqn:H6; [intros [= <-]; by eapply read_ipv6_addr_bound|done|done].
Qed.

(** ** Networks *)

Lemma split_once_fmt_net pieces p :
  Forall (λ c, c ≠ ch_slash) (concat pieces) → in_width 8 p →
  split_once ch_slash (concat (pieces ++ [[ch_slash]; fmt_u8 p])) = Some (concat pieces, fmt_u8 p).
Proof.
  intros Hc Hp. rewrite concat_app. simpl (concat [_; _]). rewrite app_nil_r. by apply split_once_app.
Qed.

Lemma ip_net_serialize_str_whole n :
  ip_net_valid n → ip_net_serialize_str n = concat (fmt_ip_net n).
Proof.
  destruct n; intros Hn; [by apply ipv4_net_serialize_str_whole|by apply ipv6_net_serialize_str_whole].
Qed.

Lemma ip_net_from_str_fmt n : ip_net_valid n → ip_net_from_str (concat (fmt_ip_net n)) = Ok n.
Proof.
  destruct n as [[a p]|[a p]]; intros [Ha Hp]; cbn [v4_addr v4_prefix_len v6_addr v6_prefix_len] in *;
    assert (in_width 8 p) as Hp8 by (unfold in_width; lia);
    unfold ip_net_from_str, fmt_ip_net, fmt_ipv4_net, fmt_ipv6_net;
    cbn [v4_addr v4_prefix_len v6_addr v6_prefix_len].
  - rewrite split_once_fmt_net by (done || by apply fmt_ipv4_addr_text). cbn [ok_or result_bind].
    rewrite u8_from_str_fmt by done. cbn [ok_or result_bind].
    rewrite (ip_addr_from_str_fmt (IpV4 a) Ha). cbn [ok_or result_bind].
    unfold ipv4_net_new. by rewrite (proj2 (Z.ltb_ge 32 p)) by lia.
  - rewrite split_once_fmt_net by (done || by apply fmt_ipv6_addr_text). cbn [ok_or result_bind].
    rewrite u8_from_str_fmt by done. cbn [ok_or result_bind].
    rewrite (ip_addr_from_str_fmt (IpV6 a) Ha). cbn [ok_or result_bind].
    unfold ipv6_net_new. by rewrite (proj2 (Z.ltb_ge 128 p)) by lia.
Qed.

Lemma ip_net_from_str_valid s n : ip_net_from_str s = Ok n → ip_net_valid n.
Proof.
  unfold ip_net_from_str. destruct (split_once ch_slash s) as [[addr_s prefix_s]|]; [|done].
  cbn [ok_or result_bind]. destruct (u8_from_str prefix_s) as [p|] eqn:Hp; [|done].
  cbn [ok_or result_bind]. destruct (ip_addr_from_str addr_s) as [a|] eqn:Ha; [|done].
  cbn [ok_or result_bind]. apply u8_from_str_bound in Hp. apply ip_addr_from_str_bound in Ha.
  intros Hn. apply (ip_net_new_valid a p); [done..|]. revert Hn. destruct a as [x|x]; simpl.
  - destruct (ipv4_net_new x p) as [m|]; [by intros [= <-]|done].
  - destruct (ipv6_net_new x p) as [m|]; [by intros [= <-]|done].
Qed.

(** What the parsers of the two families accept, the parser of [IpNet]
    accepts with the same network. *)
Lemma ipv4_net_from_str_agree s n : ipv4_net_from_str s = Ok n → ip_net_from_str s = Ok (NetV4 n).
Proof.
  unfold ipv4_net_from_str, ip_net_from_str.
  destruct (split_once ch_slash s) as [[addr_s prefix_s]|]; [|done]. cbn [ok_or result_bind].
  unfold ipv4_addr_from_str, ip_addr_from_str, parse_with, read_ip_addr.
  destruct (15 <? length addr_s)%nat; [done|].
  destruct (read_ipv4_addr addr_s) as [[x [|? ?]]|]; [|done..]. cbn [ok_or result_bind].
  destruct (u8_from_str prefix_s) as [p|]; [|done]. cbn [ok_or result_bind].
  destruct (ipv4_net_new x p) as [m|]; [by intros [= <-]|done].
Qed.

(** C37: the textual serde form of every valid network is written whole to
    its fixed buffer, 18 bytes for IPv4 and 64 for IPv6, although the result
    of writing is ignored, and parses back to the network, whichever form the
    printer of IPv6 addresses chooses; and a text that parses, from whatever
    source, is a valid network. *)
Theorem ip_net_text_roundtrip (n : ip_net) :
  ip_net_valid n →
  ip_net_serialize_str n = concat (fmt_ip_net n) ∧
  ip_net_from_str (ip_net_serialize_str n) = Ok n ∧
  (∀ s m, ip_net_from_str s = Ok m →
    ip_net_valid m ∧ ip_net_from_str (ip_net_serialize_str m) = Ok m).
Proof.
  intros Hn. rewrite ip_net_serialize_str_whole by done. split_and!; [done|by apply ip_net_from_str_fmt|].
  intros s m Hm%ip_net_from_str_valid. split; [done|].
  rewrite ip_net_serialize_str_whole by done. by apply ip_net_from_str_fmt.
Qed.

(** 2001:db8:0:1:1::/64, whose second run of zeros is the longer one. *)
Lemma ip_net_text_roundtrip_witness :
  let n := NetV6 {| v6_addr := 0x20010db8000000010001000000000000; v6_prefix_len := 64 |} in
  ip_net_valid n ∧ ip_net_from_str (ip_net_serialize_str n) = Ok n.
Proof.
  intros n. assert (ip_net_valid n) as Hn by done.
  split; [exact Hn|]. exact (proj1 (proj2 (ip_net_text_roundtrip n Hn))).
Defined.
