(* ===== verification/KeyBytes.v ===== *)
(** * The forms of a key: [tendrilix/src/serialization.rs]

    [KeyBytes] is 32 bytes. Text is decoded and encoded by the crates [hex] and
    [base64], which are an interface here, with what their documentation promises
    as laws; the examples run hexadecimal and RFC 4648 codecs. A string is the
    list of its UTF-8 bytes. A serde sequence is the list of what the
    deserializer gives for each element. *)

From stdpp Require Import strings.
From S2P Require Import Prelude AddrText.

Definition KEY_BYTES : nat := 32.

(** [hex::decode_to_slice] and the [STANDARD] engine of [base64]; [n] is the
    length of the output slice. *)
Class text_codecs := {
  hex_decode_to_slice : bytes → nat → option bytes;
  b64_decode_slice : bytes → nat → option bytes;
  b64_encode : bytes → bytes
}.

Class text_codecs_laws `{text_codecs} := {
  hex_decode_length s n b : hex_decode_to_slice s n = Some b → length b = n;
  b64_decode_length s n b : b64_decode_slice s n = Some b → (length b ≤ n)%nat;
  b64_decode_padded s n b : b64_decode_slice s n = Some b → (length s mod 4 = 0)%nat;
  b64_encode_length b : length (b64_encode b) = (4 * ((length b + 2) `div` 3))%nat;
  b64_decode_encode b n : is_bytes b → (length b ≤ n)%nat → b64_decode_slice (b64_encode b) n = Some b
}.

(** The messages of [FromStr]. *)
Inductive key_error : Type := IllegalCharacter | IllegalKeySize.

(** The errors of a deserializer: its own, and the ones of the visitor. *)
Inductive key_de_error (E : Type) : Type :=
  | ElementError (e : E)
  | InvalidLength (n : nat)
  | InvalidKeyLength
  | Custom (e : key_error).
Arguments ElementError {E}.
Arguments InvalidLength {E}.
Arguments InvalidKeyLength {E}.
Arguments Custom {E}.

Section key_bytes.
Context `{C : text_codecs}.

Definition from_str (s : bytes) : result bytes key_error :=
  let len := length s in
  if (len =? 64)%nat then ok_or (hex_decode_to_slice s KEY_BYTES) IllegalCharacter
  else if (len =? 43)%nat || (len =? 44)%nat then
    let? internal := ok_or (b64_decode_slice s KEY_BYTES) IllegalCharacter in
    if (length internal =? KEY_BYTES)%nat then Ok internal else Err IllegalKeySize
  else Err IllegalKeySize.

(** [Display]: the whole buffer is printed, whatever part of it was written. *)
Definition fmt_key (key : bytes) : option bytes :=
  let encoded := b64_encode key in
  if (length encoded <=? 44)%nat then Some (encoded ++ repeat 0 (44 - length encoded)) else None.

(** [serialize] for text formats: only what was written. *)
Definition serialize_str (key : bytes) : option bytes :=
  let encoded := b64_encode key in
  if (length encoded <=? 44)%nat then Some encoded else None.

(** [serialize] for binary formats: one element for each byte. *)
Definition serialize_tuple (key : bytes) : list Z := key.

Section visitor.
Context {E : Type}.

(** The loop of [visit_seq] over the slots that are left. *)
Fixpoint visit_elements (index n : nat) (seq : list (result Z E)) (key : bytes) :
    result (bytes * list (result Z E)) (key_de_error E) :=
  match n with
  | O => Ok (key, seq)
  | S n =>
      match seq with
      | [] => Err (InvalidLength index)
      | Err e :: _ => Err (ElementError e)
      | Ok byte :: seq => visit_elements (S index) n seq (key ++ [byte])
      end
  end.

Definition visit_seq (seq : list (result Z E)) : result bytes (key_de_error E) :=
  let? '(key, seq) := visit_elements 0 KEY_BYTES seq [] in
  match seq with
  | [] => Ok key
  | Err e :: _ => Err (ElementError e)
  | Ok _ :: _ => Err (InvalidLength 33)
  end.

Definition visit_bytes (value : bytes) : result bytes (key_de_error E) :=
  if (length value =? KEY_BYTES)%nat then Ok value else Err InvalidKeyLength.

Definition visit_str (value : bytes) : result bytes (key_de_error E) :=
  map_err Custom (from_str value).
End visitor.
End key_bytes.

(** ** Sequences *)

Lemma visit_elements_spec {E} n index (seq : list (result Z E)) key :
  match visit_elements index n seq key with
  | Ok (key', rest) => ∃ l, length l = n ∧ key' = key ++ l ∧ seq = map Ok l ++ rest
  | Err (InvalidLength i) => ∃ l, (length l < n)%nat ∧ seq = map Ok l ∧ i = (index + length l)%nat
  | Err (ElementError e) => ∃ l rest, (length l < n)%nat ∧ seq = map Ok l ++ Err e :: rest
  | Err _ => False
  end.
Proof.
  revert index seq key. induction n as [|n IH]; intros index seq key; cbn [visit_elements].
  { exists []. by rewrite app_nil_r. }
  destruct seq as [|[b|e] seq].
  - exists []. split_and!; [simpl; lia|done|simpl; lia].
  - specialize (IH (S index) seq (key ++ [b])).
    destruct (visit_elements (S index) n seq (key ++ [b])) as [[key' rest]|[e|i| |e]]; try done.
    + destruct IH as (l & Hl & -> & ->). exists (b :: l). by rewrite <- app_assoc; split_and!; [simpl; lia| |].
    + destruct IH as (l & rest & Hl & ->). exists (b :: l), rest. split; [simpl; lia|done].
    + destruct IH as (l & Hl & -> & ->). exists (b :: l). split_and!; [simpl; lia|done|simpl; lia].
  - exists [], seq. split; [simpl; lia|done].
Qed.

Lemma map_Ok_inj {E} (l l' : bytes) (r r' : list (result Z E)) :
  length l = length l' → map Ok l ++ r = map Ok l' ++ r' → l = l' ∧ r = r'.
Proof.
  revert l'. induction l as [|b l IH]; intros [|b' l'] Hl; simpl in *; try done.
  intros [= -> He]. injection Hl as Hl. by destruct (IH l' Hl He) as [-> ->].
Qed.

(** A key is read from exactly the sequences of 32 bytes; a shorter one is
    reported with its length, a longer one with 33, and the error of an element
    is passed on unless the key was already too short. *)
Theorem visit_seq_exact {E} (seq : list (result Z E)) :
  match visit_seq seq with
  | Ok key => length key = KEY_BYTES ∧ seq = map Ok key
  | Err (InvalidLength i) =>
      (∃ l, i = length l ∧ (i < KEY_BYTES)%nat ∧ seq = map Ok l) ∨
      (i = 33%nat ∧ ∃ l b rest, length l = KEY_BYTES ∧ seq = map Ok l ++ Ok b :: rest)
  | Err (ElementError e) => ∃ l rest, (length l ≤ KEY_BYTES)%nat ∧ seq = map Ok l ++ Err e :: rest
  | Err _ => False
  end.
Proof.
  unfold visit_seq. pose proof (visit_elements_spec KEY_BYTES 0 seq []) as Hv.
  destruct (visit_elements 0 KEY_BYTES seq []) as [[key rest]|[e|i| |e]]; cbn [result_bind]; try done.
  - destruct Hv as (l & Hl & -> & ->). destruct rest as [|[b|e] rest]; simpl app.
    + by rewrite app_nil_r.
    + right. split; [done|]. by exists l, b, rest.
    + exists l, rest. split; [lia|done].
  - destruct Hv as (l & rest & Hl & ->). exists l, rest. split; [lia|done].
  - destruct Hv as (l & Hl & -> & ->). left. by exists l.
Qed.

Lemma visit_seq_key {E} (key : bytes) :
  length key = KEY_BYTES → visit_seq (E := E) (map Ok key) = Ok key.
Proof.
  intros Hk. pose proof (visit_seq_exact (E := E) (map Ok key)) as Hv.
  destruct (visit_seq (map Ok key)) as [key'|[e|i| |e]]; try done.
  - destruct Hv as [Hl He]. rewrite <- (app_nil_r (map Ok key)), <- (app_nil_r (map Ok key')) in He.
    by apply map_Ok_inj in He as [-> _]; [|congruence].
  - destruct Hv as (l & rest & _ & He). exfalso.
    apply (f_equal (lookup (length l))) in He.
    rewrite lookup_app_r, length_map, Nat.sub_diag in He by (by rewrite length_map).
    change (map (Ok (E := E)) key) with (Ok (E := E) <$> key) in He. rewrite list_lookup_fmap in He.
    by destruct (key !! length l).
  - destruct Hv as [(l & -> & Hi & He)|(_ & l & b & rest & Hl & He)].
    + apply (f_equal length) in He. rewrite !length_map in He. lia.
    + apply (f_equal length) in He. rewrite length_app, !length_map in He. simpl in He. lia.
Qed.

(** ** Texts *)

Section texts.
Context `{L : text_codecs_laws}.

(** What a text that is accepted looks like, and which error the others get. *)
Theorem from_str_outcomes s :
  match from_str s with
  | Ok key => length key = KEY_BYTES ∧
      (length s = 64%nat ∧ hex_decode_to_slice s KEY_BYTES = Some key ∨
       length s = 44%nat ∧ b64_decode_slice s KEY_BYTES = Some key)
  | Err IllegalCharacter =>
      length s = 64%nat ∧ hex_decode_to_slice s KEY_BYTES = None ∨
      (length s = 43 ∨ length s = 44)%nat ∧ b64_decode_slice s KEY_BYTES = None
  | Err IllegalKeySize =>
      (length s ≠ 64 ∧ length s ≠ 43 ∧ length s ≠ 44)%nat ∨
      ∃ b, length s = 44%nat ∧ b64_decode_slice s KEY_BYTES = Some b ∧ (length b < KEY_BYTES)%nat
  end.
Proof.
  unfold from_str. destruct (Nat.eqb_spec (length s) 64) as [H64|H64].
  { destruct (hex_decode_to_slice s KEY_BYTES) as [b|] eqn:Hh; cbn [ok_or]; [|by left].
    split; [by eapply hex_decode_length|by left]. }
  destruct (Nat.eqb_spec (length s) 43) as [H43|H43], (Nat.eqb_spec (length s) 44) as [H44|H44];
    cbn [orb]; try lia.
  - destruct (b64_decode_slice s KEY_BYTES) as [b|] eqn:Hb; cbn [ok_or result_bind]; [|by right; split; [left|]].
    apply b64_decode_padded in Hb. by rewrite H43 in Hb.
  - destruct (b64_decode_slice s KEY_BYTES) as [b|] eqn:Hb; cbn [ok_or result_bind]; [|by right; split; [right|]].
    pose proof (b64_decode_length _ _ _ Hb). destruct (Nat.eqb_spec (length b) KEY_BYTES).
    + split; [done|by right].
    + right. exists b. split_and!; [done..|lia].
Qed.

(** No text of 43 characters is a key: the engine that decodes it wants the
    padding. *)
Lemma unpadded_key_refused s : length s = 43%nat → from_str s = Err IllegalCharacter.
Proof.
  intros Hs. pose proof (from_str_outcomes s) as Ho.
  destruct (from_str s) as [key|[|]]; [|done|].
  - destruct Ho as [_ [[? _]|[? _]]]; lia.
  - destruct Ho as [(_ & ? & _)|(b & ? & _)]; lia.
Qed.

Lemma encoded_length key : length key = KEY_BYTES → length (b64_encode key) = 44%nat.
Proof. intros Hk. by rewrite b64_encode_length, Hk. Qed.

(** A key comes back from each of its forms: the text that is printed or
    serialized, and the tuple of bytes, which the visitor also takes as a whole. *)
Theorem key_roundtrip {E} key :
  is_bytes key → length key = KEY_BYTES →
  fmt_key key = serialize_str key ∧
  (∃ s, serialize_str key = Some s ∧ from_str s = Ok key ∧ visit_str (E := E) s = Ok key) ∧
  visit_seq (E := E) (map Ok (serialize_tuple key)) = Ok key ∧ visit_bytes (E := E) key = Ok key.
Proof.
  intros Hb Hk. pose proof (encoded_length key Hk) as Hl.
  assert (from_str (b64_encode key) = Ok key) as Hf.
  { unfold from_str. rewrite Hl. cbn [Nat.eqb orb].
    rewrite b64_decode_encode by (done || lia). cbn [ok_or result_bind]. by rewrite Hk. }
  unfold fmt_key, serialize_str. rewrite Hl. cbn [Nat.leb Nat.sub repeat]. split_and!.
  - by rewrite app_nil_r.
  - exists (b64_encode key). split; [done|]. split; [done|]. unfold visit_str. by rewrite Hf.
  - by apply visit_seq_key.
  - unfold visit_bytes. by rewrite Hk.
Qed.
End texts.

(** ** Examples: hexadecimal and RFC 4648 *)

Fixpoint hex_decode (s : bytes) : option bytes :=
  match s with
  | [] => Some []
  | x :: y :: s =>
      match to_digit 16 x, to_digit 16 y, hex_decode s with
      | Some a, Some b, Some l => Some (16 * a + b :: l)
      | _, _, _ => None
      end
  | _ => None
  end.

(** The character of a sextet, and its inverse. *)
Definition sextet_char (v : Z) : Z :=
  if v <? 26 then 65 + v
  else if v <? 52 then 71 + v
  else if v <? 62 then v - 4
  else if v =? 62 then 43 else 47.

Definition char_sextet (c : Z) : option Z :=
  if (65 <=? c) && (c <=? 90) then Some (c - 65)
  else if (97 <=? c) && (c <=? 122) then Some (c - 71)
  else if (48 <=? c) && (c <=? 57) then Some (c + 4)
  else if c =? 43 then Some 62
  else if c =? 47 then Some 63 else None.

Definition pad_char : Z := 61.

Fixpoint rfc4648_encode (l : bytes) : bytes :=
  match l with
  | [] => []
  | [a] => [sextet_char (a / 4); sextet_char (a mod 4 * 16); pad_char; pad_char]
  | [a; b] =>
      [sextet_char (a / 4); sextet_char (a mod 4 * 16 + b / 16); sextet_char (b mod 16 * 4); pad_char]
  | a :: b :: c :: l =>
      sextet_char (a / 4) :: sextet_char (a mod 4 * 16 + b / 16) ::
      sextet_char (b mod 16 * 4 + c / 64) :: sextet_char (c mod 64) :: rfc4648_encode l
  end.

(** Only the last four characters may be padded, and the bits that padding
    drops are zero. *)
Fixpoint rfc4648_decode (s : bytes) : option bytes :=
  match s with
  | [] => Some []
  | x :: y :: z :: w :: s =>
      match char_sextet x, char_sextet y with
      | Some p, Some q =>
          if bool_decide (s = []) && (w =? pad_char) then
            if z =? pad_char then
              if q mod 16 =? 0 then Some [p * 4 + q / 16] else None
            else
              match char_sextet z with
              | Some r => if r mod 4 =? 0 then Some [p * 4 + q / 16; q mod 16 * 16 + r / 4] else None
              | None => None
              end
          else
            match char_sextet z, char_sextet w, rfc4648_decode s with
            | Some r, Some t, Some l => Some (p * 4 + q / 16 :: q mod 16 * 16 + r / 4 :: r mod 4 * 64 + t :: l)
            | _, _, _ => None
            end
      | _, _ => None
      end
  | _ => None
  end.

Definition toy_codecs : text_codecs := {|
  hex_decode_to_slice s n := b ← hex_decode s; if decide (length b = n) then Some b else None;
  b64_decode_slice s n := b ← rfc4648_decode s; if decide (length b ≤ n)%nat then Some b else None;
  b64_encode := rfc4648_encode
|}.

Lemma char_sextet_char v : 0 ≤ v < 64 → char_sextet (sextet_char v) = Some v ∧ sextet_char v ≠ pad_char.
Proof.
  intros Hv. assert (forallb (λ v, bool_decide (char_sextet (sextet_char v) = Some v ∧ sextet_char v ≠ pad_char))
    (seqZ 0 64) = true) as Hf by (by vm_compute).
  rewrite forallb_forall in Hf. apply (bool_decide_eq_true_1 _), Hf, list_elem_of_In, elem_of_seqZ. lia.
Qed.

(** Lists by groups of three. *)
Lemma list_three_ind (Q : bytes → Prop) :
  Q [] → (∀ a, Q [a]) → (∀ a b, Q [a; b]) → (∀ a b c l, Q l → Q (a :: b :: c :: l)) → ∀ l, Q l.
Proof.
  intros H0 H1 H2 H3. fix IH 1. intros [|a [|b [|c l]]]; [exact H0|apply H1|apply H2|apply H3, IH].
Qed.

Lemma rfc4648_roundtrip l : is_bytes l → rfc4648_decode (rfc4648_encode l) = Some l.
Proof.
  unfold is_bytes. induction l as [|a|a b|a b c l IH] using list_three_ind; [done| | |];
    rewrite !Forall_cons; unfold in_width; change (2 ^ 8) with 256.
  - intros [Ha _]. cbn [rfc4648_encode rfc4648_decode].
    destruct (char_sextet_char (a / 4)) as [-> _]; [Z.div_mod_to_equations; lia|].
    destruct (char_sextet_char (a mod 4 * 16)) as [-> _]; [Z.div_mod_to_equations; lia|].
    rewrite !Z.eqb_refl. cbn [andb bool_decide]. rewrite bool_decide_true by done. cbn [andb].
    rewrite (proj2 (Z.eqb_eq _ 0)) by (Z.div_mod_to_equations; lia). do 2 f_equal. Z.div_mod_to_equations; lia.
  - intros (Ha & Hb & _). cbn [rfc4648_encode rfc4648_decode].
    destruct (char_sextet_char (a / 4)) as [-> _]; [Z.div_mod_to_equations; lia|].
    destruct (char_sextet_char (a mod 4 * 16 + b / 16)) as [-> _]; [Z.div_mod_to_equations; lia|].
    destruct (char_sextet_char (b mod 16 * 4)) as [-> Hp]; [Z.div_mod_to_equations; lia|].
    rewrite bool_decide_true by done. rewrite Z.eqb_refl, (proj2 (Z.eqb_neq _ _) Hp). cbn [andb].
    rewrite (proj2 (Z.eqb_eq _ 0)) by (Z.div_mod_to_equations; lia).
    do 2 f_equal; [|f_equal]; Z.div_mod_to_equations; lia.
  - intros (Ha & Hb & Hc & Hl). cbn [rfc4648_encode rfc4648_decode].
    destruct (char_sextet_char (a / 4)) as [-> _]; [Z.div_mod_to_equations; lia|].
    destruct (char_sextet_char (a mod 4 * 16 + b / 16)) as [-> _]; [Z.div_mod_to_equations; lia|].
    destruct (char_sextet_char (b mod 16 * 4 + c / 64)) as [-> _]; [Z.div_mod_to_equations; lia|].
    destruct (char_sextet_char (c mod 64)) as [-> Hp]; [Z.div_mod_to_equations; lia|].
    rewrite (proj2 (Z.eqb_neq _ _) Hp), andb_false_r, IH by done.
    do 2 f_equal; [|f_equal; [|f_equal]]; Z.div_mod_to_equations; lia.
Qed.

Lemma rfc4648_encode_length l : length (rfc4648_encode l) = (4 * ((length l + 2) `div` 3))%nat.
Proof.
  induction l as [|a|a b|a b c l IH] using list_three_ind; [done..|].
  cbn [rfc4648_encode length]. rewrite IH.
  replace (S (S (S (length l))) + 2)%nat with (length l + 2 + 1 * 3)%nat by lia.
  rewrite Nat.div_add by lia. lia.
Qed.

Lemma rfc4648_decode_padded s b : rfc4648_decode s = Some b → (length s mod 4 = 0)%nat.
Proof.
  revert b. induction s as [s IH] using (induction_ltof1 _ (@length Z)). unfold ltof in IH. intros b.
  destruct s as [|x [|y [|z [|w s]]]]; try done.
  replace (length (x :: y :: z :: w :: s)) with (length s + 1 * 4)%nat by (simpl; lia).
  rewrite Nat.Div0.mod_add. cbn [rfc4648_decode]. intros Hd. repeat case_match; simplify_eq.
  all: try match goal with H : bool_decide _ && _ = true |- _ =>
    by apply andb_prop in H as [->%bool_decide_eq_true_1 _] end.
  all: by eapply IH; [simpl; lia|].
Qed.

Lemma toy_codecs_laws : @text_codecs_laws toy_codecs.
Proof.
  split; cbn [hex_decode_to_slice b64_decode_slice b64_encode toy_codecs].
  - intros s n b. destruct (hex_decode s) as [b'|]; [|done]. cbn [option_bind mbind].
    by case_decide; intros; simplify_eq.
  - intros s n b. destruct (rfc4648_decode s) as [b'|]; [|done]. cbn [option_bind mbind].
    by case_decide; intros; simplify_eq.
  - intros s n b. destruct (rfc4648_decode s) as [b'|] eqn:Hd; [|done].
    intros _. by eapply rfc4648_decode_padded.
  - apply rfc4648_encode_length.
  - intros b n Hb Hn. rewrite rfc4648_roundtrip by done. cbn. by rewrite decide_True.
Qed.

Definition ascii_bytes (s : String.string) : bytes := map (λ c, Z.of_N (Ascii.N_of_ascii c)) (String.list_ascii_of_string s).

(** The key of the tests, and the texts they read. *)
Definition toy_key : bytes := seqZ 0 32.

Example toy_key_texts :
  let base64 := ascii_bytes "AAECAwQFBgcICQoLDA0ODxAREhMUFRYXGBkaGxwdHh8="%string in
  @from_str toy_codecs (ascii_bytes "000102030405060708090a0b0c0d0e0f101112131415161718191a1b1c1d1e1f"%string) = Ok toy_key ∧
  @from_str toy_codecs base64 = Ok toy_key ∧ @serialize_str toy_codecs toy_key = Some base64 ∧
  @from_str toy_codecs (take 43 base64) = Err IllegalCharacter ∧
  @from_str toy_codecs (ascii_bytes "abc"%string) = Err IllegalKeySize ∧
  @from_str toy_codecs (ascii_bytes "AAECAwQFBgcICQoLDA0ODxAREhMUFRYXGBkaGxwdHh?="%string) = Err IllegalCharacter ∧
  @from_str toy_codecs (ascii_bytes "AAECAwQFBgcICQoLDA0ODxAREhMUFRYXGBkaGxwdHg=="%string) = Err IllegalKeySize.
Proof. by vm_compute. Qed.

Lemma key_roundtrip_witness :
  ∃ s, @serialize_str toy_codecs toy_key = Some s ∧ @from_str toy_codecs s = Ok toy_key.
Proof.
  destruct (@key_roundtrip toy_codecs toy_codecs_laws unit toy_key) as (_ & (s & Hs & Hf & _) & _).
  - apply Forall_forall. intros x Hx%elem_of_seqZ. unfold in_width. lia.
  - done.
  - by exists s.
Defined.
