(* ===== verification/AllowedIps.v ===== *)
(** * The AllowedIPs table: [tendrilix/src/allowed_ips.rs]

    A path-compressed binary trie stored in an arena of nodes linked by
    indices. [Module Trie] models one address family at width [w]
    ([PrefixWord::ADDR_BITS]); the table at the end of the file pairs an IPv4
    and an IPv6 trie.

    The two storage modes of the source are one definition with a capacity
    argument: [None] is the growable [alloc::vec::Vec] of the [alloc] feature,
    [Some N] the [heapless::Vec] of capacity [N] without it.

    The specification is a finite map from (prefix, prefix length) to payloads:
    [insert] is map insertion, [remove] is filtering, [find] is
    longest-prefix match. Each operation is proved to implement it on every
    reachable arena. *)

From S2P Require Import Prelude IpNet.

Inductive allowed_ips_error : Type := InvalidCidr | Full.

(** ** Prefix words *)

Section prefix_word.
Context (w : Z).

Definition bit_at (x index : Z) : Z := Z.land (Z.shiftr x (w - 1 - index)) 1.

(** The bitwise complement [!x] of a w-bit word. *)
Definition not_word (x : Z) : Z := Z.lxor (Z.ones w) x.

Definition mask (x prefix_len : Z) : Z :=
  if prefix_len =? 0 then 0
  else if prefix_len =? w then x
  else
    let host_bits := w - prefix_len in
    let host_mask := Z.shiftl 1 host_bits - 1 in
    Z.land x (not_word host_mask).

(** The loop of [common_prefix_len] from bit [i], over [n] more bits. *)
Fixpoint common_prefix_from (n : nat) (i a b : Z) : Z :=
  match n with
  | O => i
  | S n => if bit_at a i =? bit_at b i then common_prefix_from n (i + 1) a b else i
  end.

Definition common_prefix_len (a a_len b b_len : Z) : Z :=
  common_prefix_from (Z.to_nat (Z.min a_len b_len)) 0 a b.

Definition prefixes_overlap (a a_len b b_len : Z) : bool :=
  common_prefix_len a a_len b b_len =? Z.min a_len b_len.

(** [a] and [b] have the same first [n] bits. *)
Definition agree (a b n : Z) : Prop := ∀ i, 0 ≤ i < n → bit_at a i = bit_at b i.

Lemma bit_at_testbit x i : bit_at x i = Z.b2z (Z.testbit x (w - 1 - i)).
Proof.
  unfold bit_at. change 1 with (Z.ones 1) at 2. rewrite Z.land_ones by lia.
  change (2 ^ 1) with 2. rewrite <- Z.bit0_mod, Z.shiftr_spec by lia. done.
Qed.

Lemma bit_at_cases x i : bit_at x i = 0 ∨ bit_at x i = 1.
Proof. rewrite bit_at_testbit. destruct (Z.testbit _ _); auto. Qed.

Lemma mask_testbit x n i :
  in_width w x → 0 ≤ n ≤ w → 0 ≤ i →
  Z.testbit (mask x n) i = (Z.testbit x i && (w - n <=? i)).
Proof.
  intros Hx Hn Hi. unfold mask.
  destruct (Z.eqb_spec n 0) as [->|Hn0].
  { rewrite Z.bits_0. destruct (Z.leb_spec (w - 0) i); [|by rewrite andb_false_r].
    by rewrite (in_width_testbit w) by (done || lia). }
  destruct (Z.eqb_spec n w) as [->|Hnw].
  { destruct (Z.leb_spec (w - w) i); [by rewrite andb_true_r|lia]. }
  unfold not_word. rewrite Z.shiftl_1_l.
  replace (2 ^ (w - n) - 1) with (Z.ones (w - n)) by (rewrite Z.ones_equiv; lia).
  rewrite Z.land_spec, Z.lxor_spec.
  destruct (decide (i < w)) as [Hiw|Hiw].
  - rewrite (Z.ones_spec_low w i) by lia.
    destruct (Z.leb_spec (w - n) i).
    + by rewrite (Z.ones_spec_high (w - n) i) by lia.
    + by rewrite (Z.ones_spec_low (w - n) i) by lia.
  - by rewrite !(in_width_testbit w x) by (done || lia).
Qed.

Lemma mask_in_width x n : in_width w x → 0 ≤ n ≤ w → in_width w (mask x n).
Proof.
  intros Hx Hn. apply in_width_of_bits; [lia| |].
  - unfold mask. destruct (n =? 0); [lia|]. destruct (n =? w); [by destruct Hx|].
    apply Z.land_nonneg. left. by destruct Hx.
  - intros i Hi. rewrite mask_testbit by (done || lia).
    by rewrite (in_width_testbit w) by (done || lia).
Qed.

Lemma mask_bit_at x n i :
  in_width w x → 0 ≤ n ≤ w → 0 ≤ i < w →
  bit_at (mask x n) i = if i <? n then bit_at x i else 0.
Proof.
  intros Hx Hn Hi. rewrite !bit_at_testbit, mask_testbit by (done || lia).
  destruct (Z.ltb_spec i n), (Z.leb_spec (w - n) (w - 1 - i)); try lia;
    by rewrite ?andb_true_r, ?andb_false_r.
Qed.

(** Two words with equal bits are equal. *)
Lemma bit_at_ext x y :
  in_width w x → in_width w y → agree x y w → x = y.
Proof.
  intros Hx Hy Hag. pose proof (in_width_nonneg w x Hx). apply Z.bits_inj'. intros i Hi.
  destruct (decide (i < w)) as [Hiw|Hiw].
  - specialize (Hag (w - 1 - i)). rewrite !bit_at_testbit in Hag.
    replace (w - 1 - (w - 1 - i)) with i in Hag by lia.
    apply Z.b2z_inj, Hag. lia.
  - by rewrite !(in_width_testbit w) by (done || lia).
Qed.

Lemma mask_eq_agree x y n :
  in_width w x → in_width w y → 0 ≤ n ≤ w → mask x n = mask y n ↔ agree x y n.
Proof.
  intros Hx Hy Hn. split.
  - intros E i Hi. pose proof (mask_bit_at x n i) as H1. pose proof (mask_bit_at y n i) as H2.
    rewrite E in H1. rewrite H2 in H1 by (done || lia).
    destruct (Z.ltb_spec i n); [|lia]. symmetry. apply H1; (done || lia).
  - intros Hag. apply bit_at_ext; [by apply mask_in_width..|].
    intros i Hi. rewrite !mask_bit_at by (done || lia).
    destruct (Z.ltb_spec i n); [|done]. apply Hag. lia.
Qed.

Lemma mask_idemp x n : in_width w x → 0 ≤ n ≤ w → mask (mask x n) n = mask x n.
Proof.
  intros Hx Hn. apply mask_eq_agree; [by apply mask_in_width|done..|].
  intros i Hi. rewrite mask_bit_at by (done || lia). destruct (Z.ltb_spec i n); [done|lia].
Qed.

Lemma mask_0 x : mask x 0 = 0.
Proof. done. Qed.

Lemma mask_full x : 0 < w → mask x w = x.
Proof. intros. unfold mask. destruct (Z.eqb_spec w 0); [lia|]. by rewrite Z.eqb_refl. Qed.

Lemma agree_mask x n : in_width w x → 0 ≤ n ≤ w → agree (mask x n) x n.
Proof. intros. apply mask_eq_agree; [by apply mask_in_width|done..|by apply mask_idemp]. Qed.

Lemma agree_sym a b n : agree a b n → agree b a n.
Proof. intros H i Hi. symmetry. by apply H. Qed.

Lemma agree_trans a b c n : agree a b n → agree b c n → agree a c n.
Proof. intros H1 H2 i Hi. by rewrite H1, H2. Qed.

Lemma agree_le a b n m : m ≤ n → agree a b n → agree a b m.
Proof. intros Hm H i Hi. apply H. lia. Qed.

Lemma agree_succ a b n : 0 ≤ n → agree a b n → bit_at a n = bit_at b n → agree a b (n + 1).
Proof.
  intros Hn H Hb i Hi. destruct (decide (i = n)) as [->|]; [done|]. apply H. lia.
Qed.

Lemma agree_0 a b : agree a b 0.
Proof. intros i Hi. lia. Qed.

Lemma common_prefix_from_spec n i a b :
  0 ≤ i → agree a b i →
  let c := common_prefix_from n i a b in
  i ≤ c ≤ i + Z.of_nat n ∧ agree a b c ∧ (c < i + Z.of_nat n → bit_at a c ≠ bit_at b c).
Proof.
  revert i; induction n as [|n IH]; intros i Hi Hag; simpl.
  - split_and!; [lia|lia|done|lia].
  - destruct (Z.eqb_spec (bit_at a i) (bit_at b i)) as [E|NE].
    + destruct (IH (i + 1)) as (H1 & H2 & H3); [lia|by apply agree_succ|].
      split_and!; [lia|lia|done|]. intros. apply H3. lia.
    + split_and!; [lia|lia|done|done].
Qed.

(** [common_prefix_len] is the longest common prefix, capped at both lengths. *)
Lemma common_prefix_len_spec a al b bl :
  0 ≤ al → 0 ≤ bl →
  let c := common_prefix_len a al b bl in
  0 ≤ c ≤ Z.min al bl ∧ agree a b c ∧ (c < Z.min al bl → bit_at a c ≠ bit_at b c).
Proof.
  intros Ha Hb c. unfold c, common_prefix_len.
  destruct (common_prefix_from_spec (Z.to_nat (Z.min al bl)) 0 a b) as (H1 & H2 & H3);
    [lia|apply agree_0|].
  split_and!; [lia|lia|done|]. intros. apply H3. lia.
Qed.

Lemma common_prefix_len_eq a al b bl n :
  0 ≤ al → 0 ≤ bl → n ≤ Z.min al bl →
  n ≤ common_prefix_len a al b bl ↔ agree a b n.
Proof.
  intros Ha Hb Hn. destruct (common_prefix_len_spec a al b bl Ha Hb) as (H1 & H2 & H3).
  split; [intros; by eapply agree_le|].
  intros Hag. destruct (decide (n ≤ common_prefix_len a al b bl)); [done|].
  exfalso. apply H3; [lia|]. apply Hag. lia.
Qed.

Lemma prefixes_overlap_agree a al b bl :
  0 ≤ al → 0 ≤ bl → prefixes_overlap a al b bl = true ↔ agree a b (Z.min al bl).
Proof.
  intros Ha Hb. unfold prefixes_overlap. rewrite Z.eqb_eq.
  rewrite <- (common_prefix_len_eq a al b bl) by lia.
  destruct (common_prefix_len_spec a al b bl Ha Hb). lia.
Qed.

(** The address [key] belongs to the block [p/l]. *)
Definition matches (key p l : Z) : Prop := mask key l = p.

#[global] Instance matches_dec key p l : Decision (matches key p l).
Proof. unfold matches. apply _. Defined.
End prefix_word.

(** On normalized blocks, [prefixes_overlap] answers exactly whether some
    address belongs to both. *)
Lemma prefixes_overlap_address (w a al b bl : Z) :
  in_width w a → in_width w b → 0 ≤ al ≤ w → 0 ≤ bl ≤ w →
  mask w a al = a → mask w b bl = b →
  prefixes_overlap w a al b bl = true ↔
  ∃ key, in_width w key ∧ matches w key a al ∧ matches w key b bl.
Proof.
  intros Ha Hb Hal Hbl Hma Hmb. rewrite prefixes_overlap_agree by lia. split.
  - intros Hag. destruct (decide (al ≤ bl)) as [Hle|Hle].
    + exists b. split_and!; [done| |done]. unfold matches. rewrite <- Hma.
      apply mask_eq_agree; [done..|]. apply agree_sym. by replace (Z.min al bl) with al in Hag by lia.
    + exists a. split_and!; [done|done|]. unfold matches. rewrite <- Hmb.
      apply mask_eq_agree; [done..|]. by replace (Z.min al bl) with bl in Hag by lia.
  - intros (key & Hk & Hka & Hkb). unfold matches in *. rewrite <- Hma in Hka.
    rewrite <- Hmb in Hkb. apply mask_eq_agree in Hka, Hkb; [|done..].
    eapply agree_trans; [apply agree_sym; eapply agree_le; [|exact Hka]; lia|].
    eapply agree_le; [|exact Hkb]. lia.
Qed.

(** ** Node indices *)

(** [NonZeroU16]: the stored value of arena index [index] is [index + 1]. *)
Definition encode_node_index (index : nat) : result Z allowed_ips_error :=
  if Z.of_nat index + 1 <=? u16_max then Ok (Z.of_nat index + 1) else Err Full.

Definition decode_node_index (stored : Z) : nat := Z.to_nat (stored - 1).

Lemma encode_node_index_Ok i z :
  encode_node_index i = Ok z → z = Z.of_nat i + 1 ∧ decode_node_index z = i.
Proof.
  unfold encode_node_index, decode_node_index. destruct (_ <=? _); [|done].
  intros [= <-]. split; [done|lia].
Qed.

(** ** The trie of one address family *)
Module Trie.

Record node (D : Type) : Type := Node {
  prefix : Z;
  prefix_len : Z;
  child : option Z * option Z;
  data : option D
}.
Arguments Node {D}.
Arguments prefix {D}.
Arguments prefix_len {D}.
Arguments child {D}.
Arguments data {D}.

Definition node_new {D} (p l : Z) : node D := Node p l (None, None) None.

(** [self.child[branch]]; a branch is one bit. *)
Definition get_child {D} (nd : node D) (branch : Z) : option Z :=
  if branch =? 0 then (child nd).1 else (child nd).2.

Definition set_child {D} (nd : node D) (branch : Z) (c : option Z) : node D :=
  Node (prefix nd) (prefix_len nd)
    (if branch =? 0 then (c, (child nd).2) else ((child nd).1, c)) (data nd).

Definition set_data {D} (nd : node D) (d : option D) : node D :=
  Node (prefix nd) (prefix_len nd) (child nd) d.

(** The arena [nodes: NodeVec<Node<W, D>, N>]. *)
Abbreviation arena D := (list (node D)).

Section operations.
Context (w : Z) (cap : option nat) {D : Type}.

(** A capacity of 0 panics here and in [clear]; the capacities of the crate are
    positive, so that case is left out. *)
Definition new : arena D := [node_new 0 0].

Definition clear (nodes : arena D) : arena D := [node_new 0 0].

(** [NodeVec::push]: the growable vector always accepts. *)
Definition push (nodes : arena D) (nd : node D) : option (arena D) :=
  match cap with
  | None => Some (nodes ++ [nd])
  | Some n => if (length nodes <? n)%nat then Some (nodes ++ [nd]) else None
  end.

(** The capacity check before a split; compiled only without [alloc]. *)
Definition lacks_room (nodes : arena D) (needed : nat) : bool :=
  match cap with
  | None => false
  | Some n => (n <? length nodes + needed)%nat
  end.

(** [self.nodes[node_idx].child[branch] = Some(idx)]; [None] is the bounds panic. *)
Definition link (nodes : arena D) (node_idx : nat) (branch idx : Z) : option (arena D) :=
  let! nd := nodes !! node_idx in
  Some (<[node_idx := set_child nd branch (Some idx)]> nodes).

Definition leaf (p l : Z) (d : D) : node D := Node p l (None, None) (Some d).

Abbreviation outcome := (option (result (option D) allowed_ips_error * arena D)).

(** The new leaf hangs directly below [node_idx]. *)
Definition insert_leaf (nodes : arena D) (node_idx : nat) (p l branch : Z) (d : D) : outcome :=
  match encode_node_index (length nodes) with
  | Err e => Some (Err e, nodes)
  | Ok new_idx =>
      match push nodes (leaf p l d) with
      | None => Some (Err Full, nodes)
      | Some nodes =>
          let! nodes := link nodes node_idx branch new_idx in
          Some (Ok None, nodes)
      end
  end.

(** The child at [child_idx] shares only [common] bits: split the edge. *)
Definition insert_split (nodes : arena D) (node_idx child_idx : nat) (child_prefix : Z)
    (p l branch common : Z) (d : D) : outcome :=
  let needed := if common =? l then 1%nat else 2%nat in
  if lacks_room nodes needed then Some (Err Full, nodes)
  else
    let intermediate_idx := length nodes in
    match encode_node_index intermediate_idx with
    | Err e => Some (Err e, nodes)
    | Ok encoded_intermediate_idx =>
        let old_branch := bit_at w child_prefix common in
        match encode_node_index child_idx with
        | Err e => Some (Err e, nodes)
        | Ok encoded_child =>
            let intermediate :=
              set_child (node_new (mask w p common) common) old_branch (Some encoded_child) in
            if common =? l then
              match push nodes (set_data intermediate (Some d)) with
              | None => Some (Err Full, nodes)
              | Some nodes =>
                  let! nodes := link nodes node_idx branch encoded_intermediate_idx in
                  Some (Ok None, nodes)
              end
            else
              let new_branch := bit_at w p common in
              match encode_node_index (intermediate_idx + 1) with
              | Err e => Some (Err e, nodes)
              | Ok encoded_leaf =>
                  match push nodes (set_child intermediate new_branch (Some encoded_leaf)) with
                  | None => Some (Err Full, nodes)
                  | Some nodes =>
                      match push nodes (leaf p l d) with
                      | None => Some (Err Full, nodes)
                      | Some nodes =>
                          let! nodes := link nodes node_idx branch encoded_intermediate_idx in
                          Some (Ok None, nodes)
                      end
                  end
              end
        end
    end.

(** The descent loop. [None] is a bounds panic or no more fuel; both are
    proved impossible on well-formed arenas with fuel [w + 1]. *)
Fixpoint insert_loop (fuel : nat) (nodes : arena D) (node_idx : nat) (p l : Z) (d : D) : outcome :=
  match fuel with
  | O => None
  | S fuel =>
      let! nd := nodes !! node_idx in
      if prefix_len nd =? l then
        Some (Ok (data nd), <[node_idx := Node p (prefix_len nd) (child nd) (Some d)]> nodes)
      else
        let branch := bit_at w p (prefix_len nd) in
        match decode_node_index <$> get_child nd branch with
        | None => insert_leaf nodes node_idx p l branch d
        | Some child_idx =>
            let! cd := nodes !! child_idx in
            let common := common_prefix_len w p l (prefix cd) (prefix_len cd) in
            if common =? prefix_len cd then insert_loop fuel nodes child_idx p l d
            else insert_split nodes node_idx child_idx (prefix cd) p l branch common d
        end
  end.

Definition insert (nodes : arena D) (p l : Z) (d : D) : outcome :=
  insert_loop (S (Z.to_nat w)) nodes 0 (mask w p l) l d.

Fixpoint find_loop (fuel : nat) (nodes : arena D) (key : Z) (node_idx : nat) (best : option D)
    : option (option D) :=
  match fuel with
  | O => None
  | S fuel =>
      let! nd := nodes !! node_idx in
      if prefix_len nd =? w then Some best
      else
        let branch := bit_at w key (prefix_len nd) in
        match decode_node_index <$> get_child nd branch with
        | None => Some best
        | Some child_idx =>
            let! cd := nodes !! child_idx in
            if decide (mask w key (prefix_len cd) ≠ prefix cd) then Some best
            else
              find_loop fuel nodes key child_idx
                (match data cd with Some d => Some d | None => best end)
        end
  end.

Definition find (nodes : arena D) (key : Z) : option (option D) :=
  let! root := nodes !! 0%nat in
  find_loop (S (Z.to_nat w)) nodes key 0 (data root).

(** Lazy removal: payloads are cleared, nodes stay. *)
Definition remove (predicate : D → bool) (nodes : arena D) : arena D :=
  map (λ nd,
    match data nd with
    | Some d => if predicate d then set_data nd None else nd
    | None => nd
    end) nodes.

(** [TrieIter]: the payload nodes, in arena order. *)
Definition iter (nodes : arena D) : list (D * Z * Z) :=
  omap (λ nd, (λ d, (d, prefix nd, prefix_len nd)) <$> data nd) nodes.

Definition overlaps (nodes : arena D) (p l : Z) : bool :=
  let p := mask w p l in
  existsb (λ '(_, ep, el), prefixes_overlap w p l ep el) (iter nodes).
End operations.

(** *** Invariant *)

Section invariant.
Context (w : Z) (Hw : 0 < w) {D : Type}.
Implicit Types (nodes : arena D) (nd cd : node D) (key p l : Z).

(** The edge from arena index [i] on branch [b]. *)
Definition edge nodes (i : nat) (b : Z) (c : nat) : Prop :=
  ∃ nd z, nodes !! i = Some nd ∧ get_child nd b = Some z ∧ decode_node_index z = c.

Inductive reach nodes : nat → Prop :=
  | reach_root : reach nodes 0
  | reach_edge i b c : reach nodes i → (b = 0 ∨ b = 1) → edge nodes i b c → reach nodes c.

Definition node_ok nd : Prop :=
  in_width w (prefix nd) ∧ 0 ≤ prefix_len nd ≤ w ∧
  mask w (prefix nd) (prefix_len nd) = prefix nd.

(** A child extends its parent by the bit of its branch. *)
Definition child_ok nd (b : Z) cd : Prop :=
  prefix_len nd < prefix_len cd ∧ agree w (prefix nd) (prefix cd) (prefix_len nd) ∧
  bit_at w (prefix cd) (prefix_len nd) = b.

Record wf nodes : Prop := {
  wf_root : ∃ nd, nodes !! 0%nat = Some nd ∧ prefix_len nd = 0;
  wf_node : ∀ i nd, nodes !! i = Some nd → node_ok nd;
  wf_child : ∀ i nd b c, nodes !! i = Some nd → (b = 0 ∨ b = 1) → edge nodes i b c →
    ∃ cd, nodes !! c = Some cd ∧ child_ok nd b cd;
  wf_reach : ∀ i, (i < length nodes)%nat → reach nodes i
}.

(** [key] belongs to the block of node [nd]. *)
Definition on_path key nd : Prop := matches w key (prefix nd) (prefix_len nd).

Lemma on_path_agree key nd :
  in_width w key → node_ok nd → on_path key nd ↔ agree w key (prefix nd) (prefix_len nd).
Proof.
  intros Hk (Hp & Hl & Hm). unfold on_path, matches. rewrite <- Hm at 1.
  by apply mask_eq_agree.
Qed.

(** One step of [find] toward [key]. *)
Definition next nodes key (i : nat) : option nat :=
  let! nd := nodes !! i in
  let! z := get_child nd (bit_at w key (prefix_len nd)) in
  let! cd := nodes !! decode_node_index z in
  if decide (on_path key cd) then Some (decode_node_index z) else None.

Fixpoint walk nodes key (n : nat) : option nat :=
  match n with
  | O => Some 0%nat
  | S n => let! i := walk nodes key n in next nodes key i
  end.

Lemma get_child_set_child nd b b' z :
  (b = 0 ∨ b = 1) → (b' = 0 ∨ b' = 1) →
  get_child (set_child nd b (Some z)) b' = if b =? b' then Some z else get_child nd b'.
Proof. intros [-> | ->] [-> | ->]; done. Qed.

Lemma next_spec nodes key i j :
  next nodes key i = Some j ↔
  ∃ nd cd, nodes !! i = Some nd ∧ edge nodes i (bit_at w key (prefix_len nd)) j ∧
    nodes !! j = Some cd ∧ on_path key cd.
Proof.
  unfold next. split.
  - intros H. destruct (nodes !! i) as [nd|] eqn:Hi; simpl in H; [|done].
    destruct (get_child nd _) as [z|] eqn:Hz; simpl in H; [|done].
    destruct (nodes !! decode_node_index z) as [cd|] eqn:Hc; simpl in H; [|done].
    case_decide as Ho; [|done]. injection H as <-. exists nd, cd. split_and!; try done.
    by exists nd, z.
  - intros (nd & cd & Hi & (nd' & z & Hi' & Hz & <-) & Hc & Ho).
    rewrite Hi in Hi'. injection Hi' as <-. rewrite Hi; simpl. rewrite Hz; simpl.
    rewrite Hc; simpl. by rewrite decide_True.
Qed.

Lemma edge_lookup nodes i b c : edge nodes i b c → is_Some (nodes !! i).
Proof. intros (nd & z & Hi & _). by exists nd. Qed.

Lemma reach_lookup nodes i : wf nodes → reach nodes i → is_Some (nodes !! i).
Proof.
  intros Hwf. induction 1 as [|i b c Hr IH Hb He].
  - destruct (wf_root _ Hwf) as (nd & Hnd & _). by exists nd.
  - destruct IH as [nd Hnd]. destruct (wf_child _ Hwf i nd b c Hnd Hb He) as (cd & Hcd & _).
    by exists cd.
Qed.

Lemma next_facts nodes key i j nd :
  wf nodes → next nodes key i = Some j → nodes !! i = Some nd →
  ∃ cd, nodes !! j = Some cd ∧ on_path key cd ∧ prefix_len nd < prefix_len cd.
Proof.
  intros Hwf Hn Hi. apply next_spec in Hn as (nd' & cd & Hi' & He & Hc & Ho).
  rewrite Hi in Hi'. injection Hi' as <-.
  destruct (wf_child _ Hwf i nd _ j Hi (bit_at_cases w key _) He) as (cd' & Hc' & Hok).
  rewrite Hc in Hc'. injection Hc' as <-. exists cd. split_and!; [done..|]. apply Hok.
Qed.

(** The parent of a node on the path is on the path, and leads to it. *)
Lemma on_path_parent nodes key i b c nd cd :
  wf nodes → in_width w key → (b = 0 ∨ b = 1) → edge nodes i b c →
  nodes !! i = Some nd → nodes !! c = Some cd → on_path key cd →
  on_path key nd ∧ next nodes key i = Some c.
Proof.
  intros Hwf Hk Hb He Hi Hc Ho.
  destruct (wf_child _ Hwf i nd b c Hi Hb He) as (cd' & Hc' & Hlt & Hag & Hbit).
  rewrite Hc in Hc'. injection Hc' as <-.
  pose proof (wf_node _ Hwf _ _ Hi) as Hok. pose proof (wf_node _ Hwf _ _ Hc) as Hcok.
  pose proof Ho as Hoc. apply on_path_agree in Ho; [|done..]. destruct Hok as (Hp & Hl & Hm).
  split.
  - apply on_path_agree; [done|done|]. eapply agree_trans; [|apply agree_sym, Hag].
    eapply agree_le; [|exact Ho]. lia.
  - apply next_spec. exists nd, cd. split_and!; try done.
    rewrite Ho by lia. by rewrite Hbit.
Qed.

(** Every node on the path of [key] is met by the walk from the root. *)
Lemma reach_walk nodes key j nd :
  wf nodes → in_width w key → reach nodes j → nodes !! j = Some nd → on_path key nd →
  ∃ n, walk nodes key n = Some j.
Proof.
  intros Hwf Hk Hr. revert nd. induction Hr as [|i b c Hr IH Hb He]; intros cd Hc Ho.
  - by exists 0%nat.
  - destruct (edge_lookup _ _ _ _ He) as [nd Hi].
    destruct (on_path_parent nodes key i b c nd cd) as [Hoi Hn]; try done.
    destruct (IH nd Hi Hoi) as [n Hn']. exists (S n). simpl. by rewrite Hn'.
Qed.

Lemma walk_prefix nodes key n m j :
  walk nodes key m = Some j → (n ≤ m)%nat → ∃ i, walk nodes key n = Some i.
Proof.
  revert j; induction m as [|m IH]; intros j Hm Hle.
  - assert (n = 0)%nat as -> by lia. eauto.
  - destruct (decide (n = S m)) as [->|]; [eauto|].
    simpl in Hm. destruct (walk nodes key m) as [i|] eqn:Hi; [|done].
    apply (IH i); [done|lia].
Qed.

Lemma walk_lookup nodes key n i :
  wf nodes → walk nodes key n = Some i → ∃ nd, nodes !! i = Some nd ∧ on_path key nd.
Proof.
  intros Hwf. destruct n as [|n]; simpl.
  - intros [= <-]. destruct (wf_root _ Hwf) as (nd & Hnd & Hl). exists nd. split; [done|].
    unfold on_path, matches. rewrite Hl, mask_0.
    destruct (wf_node _ Hwf _ _ Hnd) as (_ & _ & Hm). by rewrite Hl, mask_0 in Hm.
  - destruct (walk nodes key n) as [k|]; [|done]. simpl. intros Hn.
    apply next_spec in Hn as (_ & cd & _ & _ & Hc & Ho). eauto.
Qed.

Lemma walk_len_lt nodes key n m i j nd md :
  wf nodes → walk nodes key n = Some i → walk nodes key m = Some j → (n < m)%nat →
  nodes !! i = Some nd → nodes !! j = Some md → prefix_len nd < prefix_len md.
Proof.
  intros Hwf Hi. revert j md; induction m as [|m IH]; intros j md Hj Hlt Hnd Hmd; [lia|].
  simpl in Hj. destruct (walk nodes key m) as [k|] eqn:Hk; [|done]. simpl in Hj.
  destruct (walk_lookup _ _ _ _ Hwf Hk) as (kd & Hkd & _).
  destruct (next_facts _ _ _ _ _ Hwf Hj Hkd) as (md' & Hmd' & _ & Hl).
  rewrite Hmd in Hmd'. injection Hmd' as <-.
  destruct (decide (n = m)) as [->|].
  - rewrite Hi in Hk. injection Hk as <-. rewrite Hnd in Hkd. by injection Hkd as <-.
  - specialize (IH k kd eq_refl ltac:(lia) Hnd Hkd). lia.
Qed.

(** Between two nodes on the path of [key] there is a next node. *)
Lemma path_step nodes key i j nd md :
  wf nodes → in_width w key → nodes !! i = Some nd → nodes !! j = Some md →
  on_path key nd → on_path key md → prefix_len nd < prefix_len md →
  ∃ c cd, next nodes key i = Some c ∧ nodes !! c = Some cd ∧ prefix_len cd ≤ prefix_len md.
Proof.
  intros Hwf Hk Hi Hj Hoi Hoj Hlt.
  destruct (reach_walk nodes key i nd) as [n Hn]; [done|done| |done|done|].
  { by apply wf_reach, (lookup_lt_Some _ _ nd). }
  destruct (reach_walk nodes key j md) as [m Hm]; [done|done| |done|done|].
  { by apply wf_reach, (lookup_lt_Some _ _ md). }
  assert (n < m)%nat as Hnm.
  { destruct (Nat.lt_trichotomy n m) as [|[->|Hgt]]; [done|exfalso..].
    - rewrite Hn in Hm. injection Hm as <-. rewrite Hi in Hj. injection Hj as <-. lia.
    - pose proof (walk_len_lt _ _ _ _ _ _ _ _ Hwf Hm Hn Hgt Hj Hi). lia. }
  destruct (walk_prefix nodes key (S n) m j Hm) as [c Hc]; [lia|].
  simpl in Hc. rewrite Hn in Hc. simpl in Hc. 
  destruct (next_facts _ _ _ _ _ Hwf Hc Hi) as (cd & Hcd & _ & _).
  exists c, cd. split_and!; [done|done|].
  destruct (decide (S n = m)) as [Heq|Hne].
  - subst m. simpl in Hm. rewrite Hn in Hm. simpl in Hm. rewrite Hc in Hm.
    injection Hm as <-. rewrite Hcd in Hj. injection Hj as <-. lia.
  - assert (walk nodes key (S n) = Some c) as HSn by (simpl; by rewrite Hn).
    pose proof (walk_len_lt nodes key (S n) m c j cd md Hwf HSn Hm ltac:(lia) Hcd Hj). lia.
Qed.

Lemma path_unique nodes key i j nd md :
  wf nodes → in_width w key → nodes !! i = Some nd → nodes !! j = Some md →
  on_path key nd → on_path key md → prefix_len nd = prefix_len md → i = j.
Proof.
  intros Hwf Hk Hi Hj Hoi Hoj Hl.
  destruct (reach_walk nodes key i nd) as [n Hn]; [done|done| |done|done|].
  { by apply wf_reach, (lookup_lt_Some _ _ nd). }
  destruct (reach_walk nodes key j md) as [m Hm]; [done|done| |done|done|].
  { by apply wf_reach, (lookup_lt_Some _ _ md). }
  destruct (Nat.lt_trichotomy n m) as [Hlt|[->|Hgt]]; [exfalso| |exfalso].
  - pose proof (walk_len_lt _ _ _ _ _ _ _ _ Hwf Hn Hm Hlt Hi Hj). lia.
  - congruence.
  - pose proof (walk_len_lt _ _ _ _ _ _ _ _ Hwf Hm Hn Hgt Hj Hi). lia.
Qed.

(** A node is determined by its block. *)
Lemma node_unique nodes i j nd md :
  wf nodes → nodes !! i = Some nd → nodes !! j = Some md →
  prefix nd = prefix md → prefix_len nd = prefix_len md → i = j.
Proof.
  intros Hwf Hi Hj Hp Hl.
  destruct (wf_node _ Hwf _ _ Hi) as (Hk & Hlen & Hm).
  apply (path_unique nodes (prefix nd) i j nd md); try done.
  unfold on_path, matches. by rewrite <- Hl, <- Hp.
Qed.
End invariant.

(** *** Abstraction: the finite map of installed blocks *)

Section entries.
Context {D : Type}.
Implicit Types (nodes : arena D) (nd cd : node D).

Definition node_key nd : Z * Z := (prefix nd, prefix_len nd).

Definition entry_list nodes : list (Z * Z * D) :=
  omap (λ nd, (λ d, (node_key nd, d)) <$> data nd) nodes.

Definition entries nodes : gmap (Z * Z) D := list_to_map (entry_list nodes).

Lemma entry_list_elem nodes k d :
  (k, d) ∈ entry_list nodes ↔ ∃ i nd, nodes !! i = Some nd ∧ node_key nd = k ∧ data nd = Some d.
Proof.
  unfold entry_list. rewrite list_elem_of_omap. split.
  - intros (nd & Hnd & Hd). apply list_elem_of_lookup in Hnd as [i Hi].
    destruct (data nd) as [d'|] eqn:Hdata; [|done]. injection Hd as <- <-. eauto.
  - intros (i & nd & Hi & <- & Hd). exists nd. split; [by eapply list_elem_of_lookup_2|].
    by rewrite Hd.
Qed.

Lemma entry_list_keys nodes k :
  k ∈ (entry_list nodes).*1 → ∃ i nd, nodes !! i = Some nd ∧ node_key nd = k.
Proof.
  intros Hk. apply list_elem_of_fmap in Hk as ([k' d] & -> & Hin).
  apply entry_list_elem in Hin as (i & nd & Hi & Hkey & _). eauto.
Qed.

Lemma entry_list_NoDup w nodes : wf w nodes → NoDup (entry_list nodes).*1.
Proof.
  intros Hwf.
  assert (∀ i j nd md, nodes !! i = Some nd → nodes !! j = Some md →
    node_key nd = node_key md → i = j) as Hinj.
  { intros i j nd md Hi Hj [= Hp Hl]. by eapply (node_unique w nodes). }
  clear Hwf w. induction nodes as [|nd nodes IH]; [constructor|].
  assert (NoDup (entry_list nodes).*1) as Hnd.
  { apply IH. intros i j md md' Hi Hj He. apply Nat.succ_inj.
    by apply (Hinj (S i) (S j) md md'). }
  unfold entry_list. simpl. destruct (data nd) as [d|]; simpl; [|done].
  constructor; [|done]. intros Hin. apply entry_list_keys in Hin as (i & md & Hi & He).
  by specialize (Hinj (S i) 0%nat md nd Hi eq_refl He).
Qed.

(** What the specification map contains. *)
Lemma entries_lookup w nodes p l d :
  wf w nodes →
  entries nodes !! (p, l) = Some d ↔
  ∃ i nd, nodes !! i = Some nd ∧ prefix nd = p ∧ prefix_len nd = l ∧ data nd = Some d.
Proof.
  intros Hwf. unfold entries. rewrite <- elem_of_list_to_map by by eapply entry_list_NoDup.
  rewrite entry_list_elem. unfold node_key. split.
  - intros (i & nd & Hi & [= <- <-] & Hd). eauto 6.
  - intros (i & nd & Hi & <- & <- & Hd). eauto 6.
Qed.

Lemma entries_node w nodes i nd :
  wf w nodes → nodes !! i = Some nd → entries nodes !! (prefix nd, prefix_len nd) = data nd.
Proof.
  intros Hwf Hi. apply option_eq. intros d. rewrite (entries_lookup w) by done. split.
  - intros (j & md & Hj & Hp & Hl & Hd).
    assert (i = j) as <- by by eapply (node_unique w nodes). congruence.
  - intros Hd. eauto 6.
Qed.

Lemma entries_no_node w nodes p l :
  wf w nodes → (∀ i nd, nodes !! i = Some nd → prefix nd = p → prefix_len nd = l → False) →
  entries nodes !! (p, l) = None.
Proof.
  intros Hwf Hno. destruct (entries nodes !! (p, l)) as [d|] eqn:He; [|done].
  apply (entries_lookup w) in He as (i & nd & Hi & Hp & Hl & _); [|done].
  by destruct (Hno i nd Hi Hp Hl).
Qed.
End entries.

(** *** Lookup *)

(** The specification of lookup: try the block of every length, longest first. *)
Fixpoint lpm {D} (w : Z) (m : gmap (Z * Z) D) (key : Z) (n : nat) : option D :=
  match m !! (mask w key (Z.of_nat n), Z.of_nat n) with
  | Some d => Some d
  | None => match n with O => None | S n => lpm w m key n end
  end.

Section lookup.
Context (w : Z) (Hw : 0 < w) {D : Type}.
Implicit Types (nodes : arena D) (nd cd : node D) (key : Z).

(** Lengths at which no node lies on the path contribute nothing. *)
Lemma lpm_skip nodes key n m :
  wf w nodes → in_width w key → (n ≤ m)%nat → Z.of_nat m ≤ w →
  (∀ j md, nodes !! j = Some md → on_path w key md → Z.of_nat n < prefix_len md →
    Z.of_nat m < prefix_len md) →
  lpm w (entries nodes) key m = lpm w (entries nodes) key n.
Proof.
  intros Hwf Hk Hnm Hm Hno. induction m as [|m IH].
  - by assert (n = 0)%nat as -> by lia.
  - destruct (decide (n = S m)) as [->|Hne]; [done|].
    cbn [lpm]. rewrite (entries_no_node w) by
      (done || (intros j md Hj Hp Hl; specialize (Hno j md Hj); unfold on_path, matches in Hno;
                rewrite Hp, Hl in Hno; specialize (Hno eq_refl); lia)).
    apply IH; [lia|lia|]. intros j md Hj Ho Hlt. specialize (Hno j md Hj Ho Hlt). lia.
Qed.

Lemma lpm_node nodes key i nd :
  wf w nodes → nodes !! i = Some nd → on_path w key nd →
  lpm w (entries nodes) key (Z.to_nat (prefix_len nd)) =
    match data nd with
    | Some d => Some d
    | None => match Z.to_nat (prefix_len nd) with
              | O => None
              | S n => lpm w (entries nodes) key n
              end
    end.
Proof.
  intros Hwf Hi Ho. destruct (wf_node _ _ Hwf _ _ Hi) as (_ & Hl & _).
  assert (entries nodes !! (mask w key (prefix_len nd), prefix_len nd) = data nd) as He.
  { rewrite Ho. by eapply entries_node. }
  destruct (Z.to_nat (prefix_len nd)) as [|n] eqn:Hn; cbn [lpm].
  - replace (Z.of_nat 0) with (prefix_len nd) by lia. by rewrite He.
  - replace (Z.of_nat (S n)) with (prefix_len nd) by lia. by rewrite He.
Qed.

(** The loop invariant: [best] is the answer for lengths up to this node's. *)
Lemma find_loop_spec fuel nodes key i nd best :
  wf w nodes → in_width w key → nodes !! i = Some nd → on_path w key nd →
  w - prefix_len nd < Z.of_nat fuel →
  best = lpm w (entries nodes) key (Z.to_nat (prefix_len nd)) →
  find_loop w fuel nodes key i best = Some (lpm w (entries nodes) key (Z.to_nat w)).
Proof.
  intros Hwf Hk. revert i nd best; induction fuel as [|fuel IH];
    intros i nd best Hi Ho Hf ->; destruct (wf_node _ _ Hwf _ _ Hi) as (_ & Hl & _); [lia|].
  cbn [find_loop]. rewrite Hi. cbn.
  destruct (Z.eqb_spec (prefix_len nd) w) as [E|NE]; [by rewrite E|].
  assert (next w nodes key i = None →
    lpm w (entries nodes) key (Z.to_nat w) = lpm w (entries nodes) key (Z.to_nat (prefix_len nd)))
    as Hstop.
  { intros Hn. apply lpm_skip; [done|done|lia|lia|]. intros j md Hj Hom Hlt. exfalso.
    destruct (path_step w nodes key i j nd md) as (c & cd & Hc & _); try done; [lia|].
    congruence. }
  unfold next in Hstop. rewrite Hi in Hstop. cbn in Hstop.
  destruct (get_child nd _) as [z|] eqn:Hz; cbn in *; [|by rewrite Hstop].
  assert (edge nodes i (bit_at w key (prefix_len nd)) (decode_node_index z)) as He
    by by exists nd, z.
  destruct (wf_child _ _ Hwf i nd _ _ Hi (bit_at_cases w key _) He) as (cd & Hcd & Hcok).
  rewrite Hcd in *. cbn in *. unfold on_path in Hstop. unfold matches in Hstop.
  destruct (decide (mask w key (prefix_len cd) = prefix cd)) as [Hm|Hm].
  - rewrite decide_False by (intros Hn; by apply Hn).
    destruct (wf_node _ _ Hwf _ _ Hcd) as (_ & Hcl & _). destruct Hcok as (Hlt & _).
    apply (IH _ cd); [done|done|lia|].
    rewrite (lpm_node nodes key _ cd) by done.
    destruct (data cd) as [d|]; [done|].
    destruct (Z.to_nat (prefix_len cd)) as [|n] eqn:Hn; [lia|].
    symmetry. apply lpm_skip; [done|done|lia|lia|]. intros j md Hj Hom Hlm.
    destruct (path_step w nodes key i j nd md) as (c' & cd' & Hc' & Hcd' & Hle); try done; [lia|].
    apply next_spec in Hc' as (nd' & cd'' & Hi' & (nd'' & z' & Hi'' & Hz' & <-) & _).
    rewrite Hi in Hi'. injection Hi' as <-. rewrite Hi in Hi''. injection Hi'' as <-.
    rewrite Hz in Hz'. injection Hz' as <-. rewrite Hcd in Hcd'. injection Hcd' as <-. lia.
  - rewrite decide_True by done. f_equal. symmetry. by apply Hstop.
Qed.

Lemma wf_root_on_path nodes key :
  wf w nodes → ∃ nd, nodes !! 0%nat = Some nd ∧ prefix_len nd = 0 ∧ on_path w key nd.
Proof.
  intros Hwf. destruct (wf_root _ _ Hwf) as (nd & Hnd & Hl). exists nd. split_and!; [done|done|].
  destruct (walk_lookup w nodes key 0 0 Hwf eq_refl) as (nd' & Hnd' & Ho). congruence.
Qed.

Lemma find_spec nodes key :
  wf w nodes → in_width w key →
  find w nodes key = Some (lpm w (entries nodes) key (Z.to_nat w)).
Proof.
  intros Hwf Hk. destruct (wf_root_on_path nodes key Hwf) as (nd & Hnd & Hl & Ho).
  unfold find. rewrite Hnd. cbn -[find_loop].
  apply (find_loop_spec _ _ _ _ nd); [done..|rewrite Hl; lia|].
  rewrite (lpm_node nodes key 0 nd) by done. rewrite Hl. cbn. by destruct (data nd).
Qed.
End lookup.

(** *** Edits that keep the shape of the trie *)

Section edits.
Context (w : Z) (Hw : 0 < w) {D : Type}.
Implicit Types (nodes : arena D) (nd cd : node D) (key p l : Z).

(** [nodes'] differs from [nodes] in payloads only. *)
Definition same_shape nodes nodes' : Prop :=
  map (λ nd, set_data nd None) nodes = map (λ nd, set_data nd None) nodes'.

Lemma same_shape_sym nodes nodes' : same_shape nodes nodes' → same_shape nodes' nodes.
Proof. done. Qed.

Lemma same_shape_lookup nodes nodes' i nd :
  same_shape nodes nodes' → nodes !! i = Some nd →
  ∃ nd', nodes' !! i = Some nd' ∧ prefix nd' = prefix nd ∧ prefix_len nd' = prefix_len nd ∧
    child nd' = child nd.
Proof.
  intros Hs Hi. apply (f_equal (.!! i)) in Hs. rewrite !list_lookup_fmap, Hi in Hs. simpl in Hs.
  destruct (nodes' !! i) as [nd'|]; [|done]. exists nd'. by injection Hs as [= -> -> ->].
Qed.

Lemma same_shape_edge nodes nodes' i b c :
  same_shape nodes nodes' → edge nodes i b c → edge nodes' i b c.
Proof.
  intros Hs (nd & z & Hi & Hz & Hc).
  destruct (same_shape_lookup _ _ _ _ Hs Hi) as (nd' & Hi' & _ & _ & Hch).
  exists nd', z. split_and!; [done| |done]. unfold get_child in *. by rewrite Hch.
Qed.

Lemma wf_same_shape nodes nodes' : same_shape nodes nodes' → wf w nodes → wf w nodes'.
Proof.
  intros Hs Hwf. pose proof (same_shape_sym _ _ Hs) as Hs'. split.
  - destruct (wf_root _ _ Hwf) as (nd & Hnd & Hl).
    destruct (same_shape_lookup _ _ _ _ Hs Hnd) as (nd' & Hnd' & _ & Hl' & _).
    exists nd'. by rewrite Hl'.
  - intros i nd Hi. destruct (same_shape_lookup _ _ _ _ Hs' Hi) as (nd' & Hi' & Hp & Hl & _).
    unfold node_ok. rewrite <- Hp, <- Hl. by eapply wf_node.
  - intros i nd b c Hi Hb He. apply (same_shape_edge _ _ _ _ _ Hs') in He.
    destruct (same_shape_lookup _ _ _ _ Hs' Hi) as (nd' & Hi' & Hp & Hl & _).
    destruct (wf_child _ _ Hwf _ _ _ _ Hi' Hb He) as (cd' & Hc' & Hok).
    destruct (same_shape_lookup _ _ _ _ Hs Hc') as (cd & Hc & Hcp & Hcl & _).
    exists cd. split; [done|]. unfold child_ok. by rewrite <- Hp, <- Hl, Hcp, Hcl.
  - intros i Hi. assert (length nodes = length nodes') as Hlen.
    { apply (f_equal length) in Hs. by rewrite !length_map in Hs. }
    assert (reach nodes i) as Hr by (apply (wf_reach _ _ Hwf); lia).
    clear Hi. induction Hr as [|j b c Hr IH Hb He]; [constructor|].
    by eapply reach_edge; [exact IH|exact Hb|eapply same_shape_edge].
Qed.

(** Relinking one branch of node [i] to a new node. *)
Lemma wf_relink nodes nodes' i nd b z :
  wf w nodes → nodes !! i = Some nd → (b = 0 ∨ b = 1) →
  (∀ j jd, nodes !! j = Some jd → j ≠ i → nodes' !! j = Some jd) →
  nodes' !! i = Some (set_child nd b (Some z)) →
  (∃ md, nodes' !! decode_node_index z = Some md ∧ child_ok w nd b md) →
  (∀ j jd, nodes' !! j = Some jd → (length nodes ≤ j)%nat → node_ok w jd ∧
    ∀ b' c', (b' = 0 ∨ b' = 1) → edge nodes' j b' c' →
      ∃ cd, nodes' !! c' = Some cd ∧ child_ok w jd b' cd) →
  (∀ j, (length nodes ≤ j < length nodes')%nat → reach nodes' i → reach nodes' j) →
  (∀ c, edge nodes i b c → reach nodes' i → reach nodes' c) →
  wf w nodes'.
Proof.
  intros Hwf Hi Hb Hold Hi' (md & Hmd & Hmdok) Hnew Hreach Hch.
  assert (∀ j jd, nodes' !! j = Some jd → (j < length nodes)%nat →
    ∃ jd0, nodes !! j = Some jd0 ∧ prefix jd = prefix jd0 ∧ prefix_len jd = prefix_len jd0 ∧
      ((j ≠ i ∧ jd = jd0) ∨ (j = i ∧ jd0 = nd ∧ jd = set_child nd b (Some z)))) as Hback.
  { intros j jd Hj Hlt. apply lookup_lt_is_Some_2 in Hlt as [jd0 Hj0]. exists jd0.
    destruct (decide (j = i)) as [->|Hne].
    - rewrite Hi in Hj0. injection Hj0 as <-. rewrite Hi' in Hj. injection Hj as <-. auto 10.
    - rewrite (Hold j jd0) in Hj by done. injection Hj as <-. auto 10. }
  assert (∀ j jd0, nodes !! j = Some jd0 → ∃ jd, nodes' !! j = Some jd ∧
    prefix jd = prefix jd0 ∧ prefix_len jd = prefix_len jd0) as Hfwd.
  { intros j jd0 Hj. destruct (decide (j = i)) as [->|Hne].
    - rewrite Hi in Hj. injection Hj as <-. eauto.
    - exists jd0. split; [by apply Hold|done]. }
  split.
  - destruct (wf_root _ _ Hwf) as (rd & Hrd & Hl).
    destruct (Hfwd _ _ Hrd) as (rd' & ? & _ & Hl'). exists rd'. by rewrite Hl'.
  - intros j jd Hj. destruct (decide (length nodes ≤ j)%nat) as [Hge|Hlt];
      [by apply (Hnew j jd)|].
    destruct (Hback j jd Hj) as (jd0 & Hj0 & Hp & Hl & _); [lia|].
    unfold node_ok. rewrite Hp, Hl. by eapply wf_node.
  - intros j jd b' c' Hj Hb' He. destruct (decide (length nodes ≤ j)%nat) as [Hge|Hlt];
      [by apply (Hnew j jd)|].
    destruct (Hback j jd Hj) as (jd0 & Hj0 & Hp & Hl & Hor); [lia|].
    assert (edge nodes j b' c' → ∃ cd, nodes' !! c' = Some cd ∧ child_ok w jd b' cd) as Hsame.
    { intros He0. destruct (wf_child _ _ Hwf j jd0 b' c' Hj0 Hb' He0) as (cd0 & Hc0 & Hok).
      destruct (Hfwd _ _ Hc0) as (cd & Hc & Hcp & Hcl). exists cd. split; [done|].
      unfold child_ok. by rewrite Hp, Hl, Hcp, Hcl. }
    destruct He as (jd' & z' & Hj' & Hz' & Hc'). rewrite Hj in Hj'. injection Hj' as <-.
    destruct Hor as [[Hne ->]|(-> & -> & ->)]; [apply Hsame; by exists jd0, z'|].
    rewrite get_child_set_child in Hz' by done.
    destruct (Z.eqb_spec b b') as [<-|Hbb]; [|apply Hsame; by exists nd, z'].
    injection Hz' as <-. subst c'. eauto.
  - intros j Hj. assert (∀ k, reach nodes k → reach nodes' k) as Hmono.
    { intros k Hr. induction Hr as [|k b' c Hr IH Hb' He]; [constructor|].
      pose proof He as (kd & z' & Hk & Hz' & Hc). destruct (decide (k = i)) as [->|Hne].
      - destruct (decide (b' = b)) as [->|Hbb]; [by apply Hch|].
        apply (reach_edge _ i b' c IH Hb'). exists (set_child nd b (Some z)), z'.
        rewrite Hi in Hk. injection Hk as <-. split_and!; [done| |done].
        rewrite get_child_set_child by done. by destruct (Z.eqb_spec b b') as [<-|].
      - apply (reach_edge _ k b' c IH Hb'). exists kd, z'. by rewrite (Hold k kd). }
    destruct (decide (length nodes ≤ j)%nat).
    + apply Hreach; [lia|]. by apply Hmono, (wf_reach _ _ Hwf), (lookup_lt_Some _ _ nd).
    + apply Hmono, (wf_reach _ _ Hwf). lia.
Qed.

(** The entries of an arena that gained one payload node. *)
Lemma entries_extend nodes nodes' k0 kd d :
  wf w nodes → wf w nodes' →
  (∀ j jd, nodes !! j = Some jd → ∃ jd', nodes' !! j = Some jd' ∧
    prefix jd' = prefix jd ∧ prefix_len jd' = prefix_len jd ∧ data jd' = data jd) →
  (length nodes ≤ k0)%nat → nodes' !! k0 = Some kd → data kd = Some d →
  (∀ j jd, nodes' !! j = Some jd → (length nodes ≤ j)%nat → j ≠ k0 → data jd = None) →
  entries nodes !! (prefix kd, prefix_len kd) = None ∧
  entries nodes' = <[(prefix kd, prefix_len kd) := d]> (entries nodes).
Proof.
  intros Hwf Hwf' Hold Hk0 Hkd Hd Hnew.
  assert (entries nodes !! (prefix kd, prefix_len kd) = None) as Hnone.
  { apply (entries_no_node w); [done|]. intros j jd Hj Hp Hl.
    destruct (Hold j jd Hj) as (jd' & Hj' & Hp' & Hl' & _).
    assert (j = k0) as -> by (apply (node_unique w nodes' j k0 jd' kd); first [done|congruence]).
    apply lookup_lt_Some in Hj. lia. }
  split; [done|]. apply map_eq. intros [p' l']. apply option_eq. intros d'.
  rewrite (entries_lookup w) by done. rewrite lookup_insert_Some, (entries_lookup w) by done.
  split.
  - intros (j & jd & Hj & Hp & Hl & Hdj). destruct (decide (length nodes ≤ j)%nat) as [Hge|Hlt].
    + destruct (decide (j = k0)) as [->|Hne]; [left|by rewrite (Hnew j jd) in Hdj].
      split; congruence.
    + assert (j < length nodes)%nat as Hlt' by lia. apply lookup_lt_is_Some_2 in Hlt' as [jd0 Hj0].
      destruct (Hold j jd0 Hj0) as (jd' & Hj' & Hp' & Hl' & Hd').
      rewrite Hj in Hj'. injection Hj' as <-. right. split.
      * intros [= Hpk Hlk]. apply Hlt, (Nat.le_trans _ k0); [done|].
        rewrite (node_unique w nodes' k0 j kd jd); first [done|congruence].
      * exists j, jd0. split_and!; congruence.
  - intros [([= <- <-] & <-)|(Hne & j & jd & Hj & Hp & Hl & Hdj)].
    + eauto 6.
    + destruct (Hold j jd Hj) as (jd' & Hj' & Hp' & Hl' & Hd'). exists j, jd'.
      split_and!; congruence.
Qed.
End edits.

(** *** Insertion *)

(** The number of nodes an arena can ever hold. *)
Definition node_limit (cap : option nat) : nat :=
  match cap with
  | None => Z.to_nat u16_max
  | Some n => n `min` Z.to_nat u16_max
  end.

Section insertion.
Context (w : Z) (Hw : 0 < w) (cap : option nat) {D : Type}.
Implicit Types (nodes : arena D) (nd cd : node D) (key p l : Z) (d : D).

(** What an insertion of [p/l] may do: on success it is map insertion and
    the old payload is returned; on failure nothing changes, and fewer than
    two nodes were free. *)
Definition insert_post nodes p l d (o : option (result (option D) allowed_ips_error * arena D))
    : Prop :=
  ∃ r nodes', o = Some (r, nodes') ∧
  match r with
  | Ok old =>
      wf w nodes' ∧ old = entries nodes !! (p, l) ∧
      entries nodes' = <[(p, l) := d]> (entries nodes) ∧
      (length nodes' = length nodes ∨
        length nodes < length nodes' ≤ length nodes + 2 ∧ length nodes' ≤ node_limit cap)%nat
  | Err e => e = Full ∧ nodes' = nodes ∧ (node_limit cap < length nodes + 2)%nat
  end.

Lemma push_spec nodes nd :
  (push cap nodes nd = Some (nodes ++ [nd]) ∧
    ((length nodes < Z.to_nat u16_max)%nat → (length nodes < node_limit cap)%nat)) ∨
  (push cap nodes nd = None ∧ (node_limit cap ≤ length nodes)%nat).
Proof.
  unfold push, node_limit. destruct cap as [n|]; [|by left].
  destruct (Nat.ltb_spec (length nodes) n); [left|right]; (split; [done|lia]).
Qed.

Lemma encode_spec i :
  (encode_node_index i = Ok (Z.of_nat i + 1) ∧ (i < Z.to_nat u16_max)%nat) ∨
  (encode_node_index i = Err Full ∧ (node_limit cap ≤ i)%nat).
Proof.
  unfold encode_node_index. destruct (Z.leb_spec (Z.of_nat i + 1) u16_max); [left|right].
  - split; [done|lia].
  - split; [done|]. unfold node_limit. destruct cap; lia.
Qed.

Lemma insert_post_replace nodes i nd p l d :
  wf w nodes → nodes !! i = Some nd → prefix nd = p → prefix_len nd = l →
  insert_post nodes p l d
    (Some (Ok (data nd), <[i := Node p (prefix_len nd) (child nd) (Some d)]> nodes)).
Proof.
  intros Hwf Hi <- <-. eexists _, _. split; [done|].
  set (nodes' := <[i := _]> nodes).
  assert (same_shape nodes nodes') as Hs.
  { apply list_eq. intros j. rewrite !list_lookup_fmap. unfold nodes'.
    destruct (decide (i = j)) as [<-|Hne]; [|by rewrite list_lookup_insert_ne].
    rewrite list_lookup_insert_eq by by eapply lookup_lt_Some. by rewrite Hi. }
  pose proof (wf_same_shape w nodes nodes' Hs Hwf) as Hwf'. split_and!.
  - done.
  - symmetry. by eapply entries_node.
  - apply map_eq. intros [p' l']. apply option_eq. intros d'.
    rewrite (entries_lookup w), lookup_insert_Some, (entries_lookup w) by done. split.
    + intros (j & jd & Hj & <- & <- & Hd). unfold nodes' in Hj.
      apply list_lookup_insert_Some in Hj as [(<- & <- & _)|(Hne & Hj)].
      * left. simpl in *. split; congruence.
      * right. split; [|eauto 6]. intros [= Hp' Hl'].
        apply Hne, (node_unique w nodes i j nd jd); first [done|congruence].
    + intros [([= <- <-] & <-)|(Hne & j & jd & Hj & <- & <- & Hd)].
      * exists i. eexists. split; [unfold nodes'; by rewrite list_lookup_insert_eq
          by by eapply lookup_lt_Some|]. done.
      * exists j, jd. split_and!; try done. unfold nodes'.
        rewrite list_lookup_insert_ne; [done|]. intros ->. apply Hne. congruence.
  - left. unfold nodes'. by rewrite length_insert.
Qed.

(** The common part of the two structural insertions: the nodes [md :: rest]
    are appended and branch [b] of node [i] is relinked to [md]. *)
Lemma insert_post_relink nodes md rest i nd b p l d k0 kd :
  let extra := md :: rest in
  let m := length nodes in
  let nodes' := <[i := set_child nd b (Some (Z.of_nat m + 1))]> (nodes ++ extra) in
  wf w nodes → nodes !! i = Some nd → (b = 0 ∨ b = 1) → child_ok w nd b md →
  (∀ k jd, extra !! k = Some jd → node_ok w jd ∧
    ∀ b' c', (b' = 0 ∨ b' = 1) → edge nodes' (m + k) b' c' →
      ∃ cd, nodes' !! c' = Some cd ∧ child_ok w jd b' cd) →
  (reach nodes' m → ∀ k, (k < length extra)%nat → reach nodes' (m + k)) →
  (∀ c, edge nodes i b c → reach nodes' m → reach nodes' c) →
  extra !! k0 = Some kd → prefix kd = p → prefix_len kd = l → data kd = Some d →
  (∀ k jd, extra !! k = Some jd → k ≠ k0 → data jd = None) →
  (length extra ≤ 2)%nat → (m + length extra ≤ node_limit cap)%nat →
  insert_post nodes p l d (Some (Ok None, nodes')).
Proof.
  intros extra m nodes' Hwf Hi Hb Hmd Hextra Hreach Hold Hk0 <- <- Hd Hnone Hlen Hlim.
  assert (i < m)%nat as Him by by eapply lookup_lt_Some.
  assert (∀ j jd, nodes' !! j = Some jd → (m ≤ j)%nat → extra !! (j - m)%nat = Some jd) as Hnew.
  { intros j jd Hj Hge. unfold nodes' in Hj. rewrite list_lookup_insert_ne in Hj by lia.
    by rewrite lookup_app_r in Hj by lia. }
  assert (∀ k jd, extra !! k = Some jd → nodes' !! (m + k)%nat = Some jd) as Hnew'.
  { intros k jd Hk. unfold nodes'. rewrite list_lookup_insert_ne by lia.
    rewrite lookup_app_r by lia. by replace (m + k - length nodes)%nat with k by lia. }
  assert (∀ j jd, nodes !! j = Some jd → j ≠ i → nodes' !! j = Some jd) as Hkeep.
  { intros j jd Hj Hne. unfold nodes'. rewrite list_lookup_insert_ne by done.
    by apply lookup_app_l_Some. }
  assert (nodes' !! i = Some (set_child nd b (Some (Z.of_nat m + 1)))) as Hi'.
  { unfold nodes'. apply list_lookup_insert_eq. rewrite length_app. lia. }
  assert (decode_node_index (Z.of_nat m + 1) = m) as Hdec by (unfold decode_node_index; lia).
  assert (nodes' !! m = Some md) as Hm.
  { rewrite <- (Nat.add_0_r m). by apply Hnew'. }
  assert (reach nodes' i → reach nodes' m) as Hri.
  { intros Hr. apply (reach_edge _ i b m Hr Hb). exists (set_child nd b (Some (Z.of_nat m + 1))).
    eexists. split_and!; [done| |exact Hdec]. rewrite get_child_set_child by done.
    by rewrite Z.eqb_refl. }
  assert (wf w nodes') as Hwf'.
  { apply (wf_relink w nodes nodes' i nd b (Z.of_nat m + 1)); try done.
    - exists md. by rewrite Hdec.
    - intros j jd Hj Hge. destruct (Hextra _ _ (Hnew j jd Hj Hge)) as [Hok Hed].
      split; [done|]. intros b' c' Hb' He. apply Hed; [done|].
      by replace (m + (j - m))%nat with j by (fold m in Hge; lia).
    - intros j [Hge Hlt] Hr. fold m in Hge. replace j with (m + (j - m))%nat by lia.
      apply Hreach; [by apply Hri|]. unfold nodes' in Hlt.
      rewrite length_insert, length_app in Hlt. lia.
    - intros c He Hr. apply Hold; [done|by apply Hri]. }
  destruct (entries_extend w nodes nodes' (m + k0) kd d) as [H1 H2]; try done.
  - intros j jd Hj. destruct (decide (j = i)) as [->|Hne]; [|exists jd; auto].
    rewrite Hi in Hj. injection Hj as <-. eauto.
  - unfold m. lia.
  - by apply Hnew'.
  - intros j jd Hj Hge Hne. apply (Hnone (j - m)%nat jd); [by apply Hnew|fold m in Hge; lia].
  - eexists _, _. split; [done|]. split_and!; [done|by rewrite H1|done|]. right.
    unfold nodes'. rewrite length_insert, length_app. simpl in *. fold m. lia.
Qed.

(** The blocks that may hang below a node are the longer ones it contains. *)
Lemma child_ok_leaf nd p l d :
  in_width w p → node_ok w nd → on_path w p nd → prefix_len nd < l →
  child_ok w nd (bit_at w p (prefix_len nd)) (leaf p l d).
Proof.
  intros Hp Hok Ho Hlt. split_and!; [done| |done].
  apply agree_sym. by apply on_path_agree in Ho.
Qed.

Lemma leaf_edge p l d nodes j b c :
  nodes !! j = Some (leaf p l d) → ¬ edge nodes j b c.
Proof.
  intros Hj (jd & z & Hj' & Hz & _). rewrite Hj in Hj'. injection Hj' as <-.
  unfold get_child in Hz. simpl in Hz. by destruct (b =? 0).
Qed.

Lemma node_ok_leaf p l d :
  in_width w p → 0 ≤ l ≤ w → mask w p l = p → node_ok w (leaf p l d).
Proof. done. Qed.

Lemma insert_leaf_post nodes i nd p l d :
  let b := bit_at w p (prefix_len nd) in
  wf w nodes → in_width w p → mask w p l = p → l ≤ w →
  nodes !! i = Some nd → on_path w p nd → prefix_len nd < l → get_child nd b = None →
  insert_post nodes p l d (insert_leaf cap nodes i p l b d).
Proof.
  intros b Hwf Hp Hm Hl Hi Ho Hlt Hc. unfold insert_leaf.
  destruct (encode_spec (length nodes)) as [[-> Henc]|[-> Henc]];
    [|by eexists _, _; split; [done|split_and!; [done|done|lia]]].
  destruct (push_spec nodes (leaf p l d)) as [[-> Hroom]|[-> Hfull]];
    [|by eexists _, _; split; [done|split_and!; [done|done|lia]]].
  assert (i < length nodes)%nat as Hlen by by eapply lookup_lt_Some.
  unfold link. rewrite lookup_app_l, Hi by done. cbn -[set_child].
  apply (insert_post_relink nodes (leaf p l d) [] i nd b p l d 0 (leaf p l d));
    try done; try (specialize (Hroom Henc); simpl; lia).
  - apply bit_at_cases.
  - apply child_ok_leaf; [done| |done..]. by eapply wf_node.
  - intros k jd Hk. apply list_lookup_singleton_Some in Hk as [-> <-]. split.
    + apply node_ok_leaf; [done| |done]. destruct (wf_node _ _ Hwf _ _ Hi). lia.
    + intros b' c' _ He. exfalso. revert He. apply (leaf_edge p l d).
      rewrite list_lookup_insert_ne by lia. rewrite Nat.add_0_r. apply lookup_snoc.
  - intros Hr k Hk. simpl in Hk. by replace (length nodes + k)%nat with (length nodes) by lia.
  - intros c (nd' & z & Hi' & Hz & _). rewrite Hi in Hi'. injection Hi' as <-. congruence.
  - intros k jd Hk Hne. by apply list_lookup_singleton_Some in Hk as [-> _].
Qed.

Lemma lacks_room_spec nodes needed :
  (needed ≤ 2)%nat →
  (lacks_room cap nodes needed = true ∧ (node_limit cap < length nodes + 2)%nat) ∨
  (lacks_room cap nodes needed = false ∧
    ((length nodes + needed ≤ Z.to_nat u16_max)%nat →
      (length nodes + needed ≤ node_limit cap)%nat)).
Proof.
  intros Hn. unfold lacks_room, node_limit. destruct cap as [n|]; [|by right].
  destruct (Nat.ltb_spec n (length nodes + needed)); [left|right]; (split; [done|lia]).
Qed.

Lemma push_room nodes nd :
  (length nodes < node_limit cap)%nat → push cap nodes nd = Some (nodes ++ [nd]).
Proof. intros. destruct (push_spec nodes nd) as [[? _]|[_ ?]]; [done|lia]. Qed.

(** The geometry of a split: the intermediate block lies strictly between
    the parent and the old child. *)
Lemma split_facts nodes i nd c cd p l :
  let b := bit_at w p (prefix_len nd) in
  let common := common_prefix_len w p l (prefix cd) (prefix_len cd) in
  wf w nodes → in_width w p → mask w p l = p → l ≤ w →
  nodes !! i = Some nd → on_path w p nd → prefix_len nd < l →
  edge nodes i b c → nodes !! c = Some cd → common ≠ prefix_len cd →
  prefix_len nd < common < prefix_len cd ∧ common ≤ l ∧
  (common ≠ l → bit_at w p common ≠ bit_at w (prefix cd) common) ∧
  ∀ ch (dd : option D), let im := Node (mask w p common) common ch dd in
    node_ok w im ∧ child_ok w nd b im ∧ child_ok w im (bit_at w (prefix cd) common) cd ∧
    (common ≠ l → ∀ d, child_ok w im (bit_at w p common) (leaf p l d)).
Proof.
  intros b common Hwf Hp Hm Hl Hi Ho Hlt He Hc Hne.
  destruct (wf_node _ _ Hwf _ _ Hi) as (Hnp & Hnl & Hnm).
  destruct (wf_node _ _ Hwf _ _ Hc) as (Hcp & Hcl & Hcm).
  destruct (wf_child _ _ Hwf i nd b c Hi (bit_at_cases w _ _) He) as (cd' & Hc' & Hlen & Hag & Hbit).
  rewrite Hc in Hc'. injection Hc' as <-.
  assert (agree w p (prefix nd) (prefix_len nd)) as Hpn by by apply on_path_agree.
  destruct (common_prefix_len_spec w p l (prefix cd) (prefix_len cd)) as (Hcb & Hca & Hcd);
    [lia|lia|]. fold common in Hcb, Hca, Hcd.
  assert (prefix_len nd + 1 ≤ common) as Hge.
  { apply common_prefix_len_eq; [lia..|]. apply agree_succ; [lia| |by rewrite Hbit].
    by eapply agree_trans. }
  assert (agree w (mask w p common) p common) as Hmc by (apply agree_mask; [done|lia]).
  split_and!; [lia|lia|lia|intros Hcl'; apply Hcd; lia|]. intros ch dd im. split_and!.
  - split; [apply mask_in_width; [done|lia]|]. split; [simpl; lia|].
    simpl. apply mask_idemp; [done|lia].
  - split_and!; [simpl; lia| |].
    + simpl. eapply agree_trans; [apply agree_sym, Hpn|]. apply agree_sym.
      eapply agree_le; [|exact Hmc]. lia.
    + simpl. rewrite Hmc by lia. done.
  - split_and!; [simpl; lia| |done]. simpl. by eapply agree_trans.
  - intros Hcl' d. split_and!; [simpl; lia|done|done].
Qed.

Lemma relink_lookup_old nodes extra i x c cd :
  nodes !! c = Some cd → c ≠ i → (<[i := x]> (nodes ++ extra) : arena D) !! c = Some cd.
Proof. intros. rewrite list_lookup_insert_ne by done. by apply lookup_app_l_Some. Qed.

Lemma relink_lookup_new nodes extra i x k :
  (i < length nodes)%nat →
  (<[i := x]> (nodes ++ extra) : arena D) !! (length nodes + k)%nat = extra !! k.
Proof.
  intros. rewrite list_lookup_insert_ne by lia. rewrite lookup_app_r by lia.
  f_equal. lia.
Qed.

Lemma edge_unique nodes i nd b z c :
  nodes !! i = Some nd → get_child nd b = Some z → edge nodes i b c → c = decode_node_index z.
Proof. intros Hi Hz (nd' & z' & Hi' & Hz' & <-). congruence. Qed.

Lemma get_child_set_same nd b z : get_child (set_child nd b (Some z)) b = Some z.
Proof. unfold get_child, set_child. by destruct (b =? 0) eqn:E; simpl; rewrite ?E. Qed.

Lemma get_child_intermediate p l ob b z z' (dd : option D) :
  (ob = 0 ∨ ob = 1) → (b = 0 ∨ b = 1) →
  get_child (set_data (set_child (node_new p l) ob (Some z)) dd) b = Some z' →
  b = ob ∧ z' = z.
Proof. intros [-> | ->] [-> | ->]; compute; intros [= <-]; auto. Qed.

Lemma get_child_intermediate2 p l ob nb b z1 z2 z' :
  (ob = 0 ∨ ob = 1) → (nb = 0 ∨ nb = 1) → nb ≠ ob → (b = 0 ∨ b = 1) →
  get_child (set_child (@set_child D (node_new p l) ob (Some z1)) nb (Some z2)) b = Some z' →
  (b = ob ∧ z' = z1) ∨ (b = nb ∧ z' = z2).
Proof. intros [-> | ->] [-> | ->] ? [-> | ->]; compute; intros [= <-]; auto; done. Qed.

(** The two shapes of a split share the geometry of [split_facts]. *)
Section split.
Context (nodes : arena D) (i : nat) (nd : node D) (c : nat) (cd : node D) (p l : Z) (d : D).
Let b := bit_at w p (prefix_len nd).
Let common := common_prefix_len w p l (prefix cd) (prefix_len cd).
Context (Hwf : wf w nodes) (Hp : in_width w p) (Hm : mask w p l = p) (Hl : l ≤ w)
  (Hi : nodes !! i = Some nd) (Ho : on_path w p nd) (Hlt : prefix_len nd < l)
  (He : edge nodes i b c) (Hc : nodes !! c = Some cd) (Hne : common ≠ prefix_len cd).
Let ob := bit_at w (prefix cd) common.
Let nb := bit_at w p common.
Let encoded_child := Z.of_nat c + 1.
Let base : node D := set_child (node_new (mask w p common) common) ob (Some encoded_child).

Local Lemma split_edge c0 : edge nodes i b c0 → c0 = c.
Proof.
  intros He0. destruct He as (nd' & z & Hi' & Hz & <-). rewrite Hi in Hi'.
  injection Hi' as ->. by apply (edge_unique nodes i nd' b z c0).
Qed.

Local Lemma split_old_child : c ≠ i.
Proof.
  destruct (split_facts nodes i nd c cd p l) as (Hcom & _); try done.
  intros ->. rewrite Hi in Hc. injection Hc as <-. lia.
Qed.

Local Lemma decode_encoded_child : decode_node_index encoded_child = c.
Proof. unfold decode_node_index, encoded_child. lia. Qed.

Lemma split_exact_post :
  common = l → (length nodes + 1 ≤ node_limit cap)%nat →
  let im := set_data base (Some d) in
  insert_post nodes p l d (Some (Ok None,
    <[i := set_child nd b (Some (Z.of_nat (length nodes) + 1))]> (nodes ++ [im]))).
Proof.
  intros Hcl Hroom im.
  assert (i < length nodes)%nat as Hil by by eapply lookup_lt_Some.
  destruct (split_facts nodes i nd c cd p l) as (Hcom & Hcoml & _ & Him); try done.
  destruct (Him (child im) (Some d)) as (Hiok & Hib & Hic & _).
  apply (insert_post_relink nodes im [] i nd b p l d 0 im); try done; try (simpl; lia).
  + apply bit_at_cases.
  + intros k jd Hk. apply list_lookup_singleton_Some in Hk as [-> <-].
    split; [done|]. intros b' c' Hb' (jd & z & Hj & Hz & <-).
    rewrite relink_lookup_new in Hj by done. injection Hj as <-.
    apply get_child_intermediate in Hz as [-> ->]; [|apply bit_at_cases|done].
    exists cd. rewrite decode_encoded_child. split; [apply relink_lookup_old; [done|apply split_old_child]|done].
  + intros Hr k Hk. simpl in Hk. by replace (length nodes + k)%nat with (length nodes) by lia.
  + intros c0 He0 Hr. rewrite (split_edge c0 He0).
    apply (reach_edge _ (length nodes) ob);
      [done|apply bit_at_cases|]. exists im. eexists. split_and!; [|apply get_child_set_same|apply decode_encoded_child].
    rewrite <- (Nat.add_0_r (length nodes)). by rewrite relink_lookup_new.
  + change (mask w p common = p). by rewrite Hcl.
  + intros k jd Hk Hk0. by apply list_lookup_singleton_Some in Hk as [-> _].
Qed.

Lemma split_branch_post :
  common ≠ l → (length nodes + 2 ≤ node_limit cap)%nat →
  let im := set_child base nb (Some (Z.of_nat (length nodes + 1) + 1)) in
  insert_post nodes p l d (Some (Ok None,
    <[i := set_child nd b (Some (Z.of_nat (length nodes) + 1))]> (nodes ++ [im; leaf p l d]))).
Proof.
  intros Hcl Hroom im.
  assert (i < length nodes)%nat as Hil by by eapply lookup_lt_Some.
  destruct (split_facts nodes i nd c cd p l) as (Hcom & Hcoml & Hbits & Him); try done.
  destruct (Him (child im) None) as (Hiok & Hib & Hic & Hin).
  specialize (Hbits Hcl). specialize (Hin Hcl d).
  assert (decode_node_index (Z.of_nat (length nodes + 1) + 1) = (length nodes + 1)%nat) as Hdec'
    by (unfold decode_node_index; lia).
  apply (insert_post_relink nodes im [leaf p l d] i nd b p l d 1 (leaf p l d));
    try done; try (simpl; lia).
  + apply bit_at_cases.
  + intros k jd Hk.
    destruct k as [|[|k]]; [injection Hk as <-|injection Hk as <-|done]; split.
    * done.
    * intros b' c' Hb' (jd & z & Hj & Hz & <-).
      rewrite relink_lookup_new in Hj by done. injection Hj as <-.
      apply get_child_intermediate2 in Hz as [[-> ->]|[-> ->]];
        [| |apply bit_at_cases|apply bit_at_cases|done|done].
      -- exists cd. rewrite decode_encoded_child. split; [apply relink_lookup_old; [done|apply split_old_child]|done].
      -- exists (leaf p l d). rewrite Hdec'. split; [by rewrite relink_lookup_new|done].
    * apply node_ok_leaf; [done| |done]. destruct (wf_node _ _ Hwf _ _ Hi). lia.
    * intros b' c' _ He'. exfalso. revert He'. apply (leaf_edge p l d).
      by rewrite relink_lookup_new.
  + intros Hr k Hk. destruct k as [|[|k]]; [by rewrite Nat.add_0_r| |simpl in Hk; lia].
    apply (reach_edge _ (length nodes) nb); [done|apply bit_at_cases|].
    exists im. eexists. split_and!; [|apply get_child_set_same|exact Hdec'].
    rewrite <- (Nat.add_0_r (length nodes)). by rewrite relink_lookup_new.
  + intros c0 He0 Hr. rewrite (split_edge c0 He0).
    apply (reach_edge _ (length nodes) ob);
      [done|apply bit_at_cases|]. exists im, encoded_child. split_and!; [| |apply decode_encoded_child].
    * rewrite <- (Nat.add_0_r (length nodes)). by rewrite relink_lookup_new.
    * unfold im. rewrite get_child_set_child by apply bit_at_cases.
      destruct (Z.eqb_spec nb ob); [done|].
      apply get_child_set_same.
  + intros k jd Hk Hk1. destruct k as [|[|k]]; [by injection Hk as <-|lia|done].
Qed.
End split.

Lemma insert_split_post nodes i nd c cd p l d :
  let b := bit_at w p (prefix_len nd) in
  let common := common_prefix_len w p l (prefix cd) (prefix_len cd) in
  wf w nodes → in_width w p → mask w p l = p → l ≤ w →
  nodes !! i = Some nd → on_path w p nd → prefix_len nd < l →
  edge nodes i b c → nodes !! c = Some cd → common ≠ prefix_len cd →
  insert_post nodes p l d (insert_split w cap nodes i c (prefix cd) p l b common d).
Proof.
  intros b common Hwf Hp Hm Hl Hi Ho Hlt He Hc Hne.
  assert ((node_limit cap < length nodes + 2)%nat →
    insert_post nodes p l d (Some (Err Full, nodes))) as Herr by by intros; eexists _, _.
  assert (i < length nodes)%nat as Hil by by eapply lookup_lt_Some.
  assert (c < length nodes)%nat as Hcl by by eapply lookup_lt_Some.
  unfold insert_split.
  destruct (lacks_room_spec nodes (if (common =? l)%Z then 1 else 2)%nat) as [[-> ?]|[-> Hroom]];
    [by destruct (_ =? _); lia|by apply Herr|].
  destruct (encode_spec (length nodes)) as [[-> Henc]|[-> Henc]]; [|apply Herr; lia].
  destruct (encode_spec c) as [[-> _]|[-> Habs]]; [|apply Herr; lia].
  destruct (Z.eqb_spec common l) as [Hcl'|Hcl'].
  - rewrite push_room by lia. unfold link. rewrite lookup_app_l, Hi by done.
    apply (split_exact_post nodes i nd c cd p l d); first [done|lia].
  - destruct (encode_spec (length nodes + 1)) as [[-> Henc']|[-> Henc']]; [|apply Herr; lia].
    rewrite push_room by lia. rewrite push_room by (rewrite length_app; simpl; lia).
    unfold link. rewrite <- app_assoc, lookup_app_l, Hi by done.
    apply (split_branch_post nodes i nd c cd p l d); first [done|lia].
Qed.

Lemma insert_loop_post fuel nodes i nd p l d :
  wf w nodes → in_width w p → mask w p l = p → l ≤ w →
  nodes !! i = Some nd → on_path w p nd → prefix_len nd ≤ l →
  l - prefix_len nd < Z.of_nat fuel →
  insert_post nodes p l d (insert_loop w cap fuel nodes i p l d).
Proof.
  intros Hwf Hp Hm Hl. revert i nd; induction fuel as [|fuel IH]; intros i nd Hi Ho Hle Hf; [lia|].
  cbn [insert_loop]. rewrite Hi. cbn -[insert_loop].
  destruct (Z.eqb_spec (prefix_len nd) l) as [E|NE].
  { apply insert_post_replace; [done..| |done]. unfold on_path, matches in Ho. congruence. }
  destruct (get_child nd _) as [z|] eqn:Hz; cbn -[insert_loop];
    [|by apply (insert_leaf_post nodes i nd); [..|lia|]].
  assert (edge nodes i (bit_at w p (prefix_len nd)) (decode_node_index z)) as He by by exists nd, z.
  destruct (wf_child _ _ Hwf i nd _ _ Hi (bit_at_cases w p _) He) as (cd & Hcd & Hcok).
  rewrite Hcd. cbn -[insert_loop].
  destruct (Z.eqb_spec (common_prefix_len w p l (prefix cd) (prefix_len cd)) (prefix_len cd))
    as [E|NE']; [|apply (insert_split_post nodes i nd _ cd); (done || lia)].
  destruct (wf_node _ _ Hwf _ _ Hcd) as (Hcp & Hcl & Hcm).
  destruct (common_prefix_len_spec w p l (prefix cd) (prefix_len cd)) as (Hb & Hag & _); [|lia|].
  { destruct (wf_node _ _ Hwf _ _ Hi). lia. }
  rewrite E in Hb, Hag. apply (IH _ cd); [done| |lia|destruct Hcok; lia].
  by apply on_path_agree.
Qed.

Lemma insert_ok nodes p l d :
  wf w nodes → in_width w p → 0 ≤ l ≤ w →
  insert_post nodes (mask w p l) l d (insert w cap nodes p l d).
Proof.
  intros Hwf Hp Hl. destruct (wf_root_on_path w nodes (mask w p l) Hwf) as (nd & Hnd & Hl0 & Ho).
  apply (insert_loop_post _ nodes 0 nd);
    [done|by apply mask_in_width|by apply mask_idemp|lia|done|done|lia|lia].
Qed.
End insertion.

(** *** The remaining operations *)

Section rest.
Context (w : Z) (Hw : 0 < w) {D : Type}.
Implicit Types (nodes : arena D) (nd : node D) (d : D).

Lemma wf_new : wf w (new : arena D).
Proof.
  split.
  - by eexists.
  - intros i nd Hi. apply list_lookup_singleton_Some in Hi as [-> <-].
    split; [by apply in_width_0; lia|]. split; [simpl; lia|done].
  - intros i nd b c Hi Hb (nd' & z & Hi' & Hz & _).
    apply list_lookup_singleton_Some in Hi' as [-> <-].
    by destruct Hb as [-> | ->].
  - intros i Hi. simpl in Hi. assert (i = 0)%nat as -> by lia. constructor.
Qed.

Lemma entries_new : entries (new : arena D) = ∅.
Proof. done. Qed.

Lemma remove_same_shape f nodes : same_shape nodes (remove f nodes).
Proof.
  unfold same_shape, remove. rewrite map_map. apply map_ext. intros nd.
  destruct (data nd) as [d|]; [|done]. by destruct (f d).
Qed.

Lemma remove_lookup f nodes i :
  remove f nodes !! i = (λ nd, set_data nd (let! d := data nd in if f d then None else Some d))
    <$> nodes !! i.
Proof.
  unfold remove. rewrite list_lookup_fmap. destruct (nodes !! i) as [[p l c [d|]]|]; simpl; [|done..].
  by destruct (f d).
Qed.

Lemma remove_wf f nodes : wf w nodes → wf w (remove f nodes).
Proof. apply wf_same_shape, remove_same_shape. Qed.

Lemma remove_entries f nodes :
  wf w nodes → entries (remove f nodes) = filter (λ kd, f kd.2 = false) (entries nodes).
Proof.
  intros Hwf. pose proof (remove_wf f _ Hwf) as Hwf'. apply map_eq. intros [p l].
  apply option_eq. intros d.
  rewrite map_lookup_filter_Some, !(entries_lookup w) by done. split.
  - intros (i & nd & Hi & <- & <- & Hd). rewrite remove_lookup in Hi.
    destruct (nodes !! i) as [nd0|] eqn:Hi0; [|done]. injection Hi as <-. simpl in *.
    destruct (data nd0) as [d0|] eqn:Hd0; [|done]. simpl in Hd.
    destruct (f d0) eqn:Hf; [done|]. injection Hd as <-. split; [eauto 6|done].
  - intros [(i & nd & Hi & <- & <- & Hd) Hf]. exists i. eexists.
    rewrite remove_lookup, Hi. split; [done|]. simpl in *. by rewrite Hd; simpl; rewrite Hf.
Qed.

Lemma iter_entry_list nodes :
  iter nodes = (λ '((p, l), d), (d, p, l)) <$> entry_list nodes.
Proof.
  unfold iter, entry_list. induction nodes as [|nd nodes IH]; [done|]. simpl.
  destruct (data nd) as [d|]; simpl; [by f_equal|done].
Qed.

(** [iter] visits every installed block once. *)
Lemma iter_entries nodes :
  wf w nodes → entry_list nodes ≡ₚ map_to_list (entries nodes).
Proof. intros Hwf. symmetry. by apply map_to_list_to_map, (entry_list_NoDup w). Qed.

Lemma entries_ok nodes p l d :
  wf w nodes → entries nodes !! (p, l) = Some d → in_width w p ∧ 0 ≤ l ≤ w ∧ mask w p l = p.
Proof.
  intros Hwf He. apply (entries_lookup w) in He as (i & nd & Hi & <- & <- & _); [|done].
  by eapply wf_node.
Qed.

(** [overlaps]: some installed block shares an address with the queried one. *)
Lemma overlaps_spec nodes p l :
  wf w nodes →
  overlaps w nodes p l = true ↔
  ∃ ep el d, entries nodes !! (ep, el) = Some d ∧
    prefixes_overlap w (mask w p l) l ep el = true.
Proof.
  intros Hwf. unfold overlaps. rewrite existsb_exists. rewrite iter_entry_list. split.
  - intros ([[d ep] el] & Hin & Ho). apply list_elem_of_In in Hin.
    apply list_elem_of_fmap in Hin as ([[ep' el'] d'] & [= -> -> ->] & Hin).
    exists ep', el', d'. split; [|done]. unfold entries.
    by apply elem_of_list_to_map; [eapply entry_list_NoDup|].
  - intros (ep & el & d & He & Ho). exists (d, ep, el). split; [|done].
    apply list_elem_of_In, list_elem_of_fmap. exists (ep, el, d). split; [done|].
    unfold entries in He. apply elem_of_list_to_map in He; [done|by eapply entry_list_NoDup].
Qed.

(** [lpm] is the entry of the longest block that contains the key. *)
Lemma lpm_Some (m : gmap (Z * Z) D) key n d :
  lpm w m key n = Some d ↔
  ∃ l, 0 ≤ l ≤ Z.of_nat n ∧ m !! (mask w key l, l) = Some d ∧
    ∀ l', l < l' ≤ Z.of_nat n → m !! (mask w key l', l') = None.
Proof.
  induction n as [|n IH]; cbn [lpm].
  - change (Z.of_nat 0) with 0. destruct (m !! _) as [d'|] eqn:Hm.
    + split; [intros [= <-]; exists 0; split_and!; (done || lia)|].
      intros (l & Hl & Hd & _). replace l with 0 in Hd by lia. congruence.
    + split; [done|]. intros (l & Hl & Hd & _). replace l with 0 in Hd by lia. congruence.
  - destruct (m !! _) as [d'|] eqn:Hm.
    + split.
      * intros [= <-]. exists (Z.of_nat (S n)). split_and!; (done || lia).
      * intros (l & Hl & Hd & Hno). destruct (decide (l = Z.of_nat (S n))) as [->|Hne]; [congruence|].
        rewrite Hno in Hm by lia. done.
    + rewrite IH. split; intros (l & Hl & Hd & Hno); exists l.
      * split_and!; [lia|lia|done|]. intros l' Hl'.
        destruct (decide (l' = Z.of_nat (S n))) as [->|]; [done|]. apply Hno. lia.
      * destruct (decide (l = Z.of_nat (S n))) as [->|]; [congruence|].
        split_and!; [lia|lia|done|]. intros l' Hl'. apply Hno. lia.
Qed.

Lemma lpm_blocks nodes key d :
  wf w nodes → in_width w key →
  lpm w (entries nodes) key (Z.to_nat w) = Some d ↔
  ∃ p l, entries nodes !! (p, l) = Some d ∧ matches w key p l ∧
    ∀ p' l' d', entries nodes !! (p', l') = Some d' → matches w key p' l' → l' ≤ l.
Proof.
  intros Hwf Hk. rewrite lpm_Some, Z2Nat.id by lia. split.
  - intros (l & Hl & Hd & Hno). exists (mask w key l), l. split_and!; [done|done|].
    intros p' l' d' Hd' Hm. destruct (decide (l' ≤ l)) as [|Hgt]; [done|exfalso].
    destruct (entries_ok _ _ _ _ Hwf Hd') as (_ & Hl' & _).
    unfold matches in Hm. rewrite <- Hm, Hno in Hd' by lia. done.
  - intros (p & l & Hd & <- & Hmax). destruct (entries_ok _ _ _ _ Hwf Hd) as (_ & Hl & _).
    exists l. split_and!; [lia|lia|done|]. intros l' Hl'.
    destruct (entries nodes !! (mask w key l', l')) as [d'|] eqn:Hd'; [exfalso|done].
    specialize (Hmax _ _ _ Hd' eq_refl). lia.
Qed.
End rest.
End Trie.

(** ** The table: [AllowedIPs] *)

Record allowed_ips (D : Type) : Type := AllowedIps {
  trie4 : Trie.arena D;
  trie6 : Trie.arena D
}.
Arguments AllowedIps {D}.
Arguments trie4 {D}.
Arguments trie6 {D}.

(** Blocks key the specification map. *)
#[global] Program Instance ip_net_countable : Countable ip_net :=
  inj_countable'
    (λ n, match n with
          | NetV4 n => (true, v4_addr n, v4_prefix_len n)
          | NetV6 n => (false, v6_addr n, v6_prefix_len n)
          end)
    (λ '(v4, a, p), if v4 : bool then NetV4 (Ipv4Net a p) else NetV6 (Ipv6Net a p)) _.
Next Obligation. by intros [[]|[]]. Qed.

Module Table.

Section operations.
Context (cap : option nat) {D : Type}.

Definition new : allowed_ips D := AllowedIps Trie.new Trie.new.

Definition clear (t : allowed_ips D) : allowed_ips D :=
  AllowedIps (Trie.clear (trie4 t)) (Trie.clear (trie6 t)).

Definition insert (t : allowed_ips D) (network : ip_net) (d : D)
    : option (result (option D) allowed_ips_error * allowed_ips D) :=
  let cidr := ip_net_prefix_len network in
  match ip_net_network network with
  | IpV4 addr =>
      let! '(r, nodes) := Trie.insert 32 cap (trie4 t) addr cidr d in
      Some (r, AllowedIps nodes (trie6 t))
  | IpV6 addr =>
      let! '(r, nodes) := Trie.insert 128 cap (trie6 t) addr cidr d in
      Some (r, AllowedIps (trie4 t) nodes)
  end.

Definition find (t : allowed_ips D) (key : ip_addr) : option (option D) :=
  match key with
  | IpV4 addr => Trie.find 32 (trie4 t) addr
  | IpV6 addr => Trie.find 128 (trie6 t) addr
  end.

Definition overlaps (t : allowed_ips D) (network : ip_net) : result bool allowed_ips_error :=
  let cidr := ip_net_prefix_len network in
  match ip_net_network network with
  | IpV4 addr => Ok (Trie.overlaps 32 (trie4 t) addr cidr)
  | IpV6 addr => Ok (Trie.overlaps 128 (trie6 t) addr cidr)
  end.

Definition remove (predicate : D → bool) (t : allowed_ips D) : allowed_ips D :=
  AllowedIps (Trie.remove predicate (trie4 t)) (Trie.remove predicate (trie6 t)).

(** [IpNet::new(..).unwrap()]: [None] is the panic. *)
Definition iter_item (mk : Z → ip_addr) (e : D * Z * Z) : option (D * ip_net) :=
  let '(d, p, l) := e in
  match ip_net_new (mk p) l with
  | Ok n => Some (d, n)
  | Err _ => None
  end.

Definition iter (t : allowed_ips D) : option (list (D * ip_net)) :=
  let! l4 := mapM (iter_item IpV4) (Trie.iter (trie4 t)) in
  let! l6 := mapM (iter_item IpV6) (Trie.iter (trie6 t)) in
  Some (l4 ++ l6).

Fixpoint insert_all (t : allowed_ips D) (l : list (ip_net * D))
    : option (result (allowed_ips D) allowed_ips_error) :=
  match l with
  | [] => Some (Ok t)
  | (ip, d) :: l =>
      let! '(r, t) := insert t ip d in
      match r with
      | Ok _ => insert_all t l
      | Err e => Some (Err e)
      end
  end.

Definition try_from_iter (l : list (ip_net * D)) : option (result (allowed_ips D) allowed_ips_error) :=
  insert_all new l.
End operations.

(** *** Specification *)

(** A block with its host bits cleared. *)
Definition normalize (n : ip_net) : ip_net :=
  match n with
  | NetV4 m => NetV4 (Ipv4Net (ipv4_network m) (v4_prefix_len m))
  | NetV6 m => NetV6 (Ipv6Net (ipv6_network m) (v6_prefix_len m))
  end.

(** The address [key] belongs to the block [n]. *)
Definition contains (n : ip_net) (key : ip_addr) : bool :=
  match n, key with
  | NetV4 m, IpV4 a => Z.land a (v4_netmask (v4_prefix_len m)) =? ipv4_network m
  | NetV6 m, IpV6 a => Z.land a (v6_netmask (v6_prefix_len m)) =? ipv6_network m
  | _, _ => false
  end.

Definition net4 (k : Z * Z) : ip_net := NetV4 (Ipv4Net k.1 k.2).
Definition net6 (k : Z * Z) : ip_net := NetV6 (Ipv6Net k.1 k.2).

#[global] Instance net4_inj : Inj (=) (=) net4.
Proof. by intros [??] [??] [= -> ->]. Qed.
#[global] Instance net6_inj : Inj (=) (=) net6.
Proof. by intros [??] [??] [= -> ->]. Qed.

(** The finite map of installed blocks a table stands for. *)
Definition contents {D} (t : allowed_ips D) : gmap ip_net D :=
  kmap net4 (Trie.entries (trie4 t)) ∪ kmap net6 (Trie.entries (trie6 t)).

Record wf {D} (t : allowed_ips D) : Prop := {
  wf_trie4 : Trie.wf 32 (trie4 t);
  wf_trie6 : Trie.wf 128 (trie6 t)
}.

Section lemmas.
Context {D : Type}.
Implicit Types (t : allowed_ips D) (d : D) (n : ip_net).

Lemma contents_v4 t k : contents t !! net4 k = Trie.entries (trie4 t) !! k.
Proof.
  unfold contents. rewrite lookup_union, lookup_kmap by apply _.
  rewrite (proj2 (lookup_kmap_None _ _ _)) by (intros ? [=]). by rewrite (right_id_L None _).
Qed.

Lemma contents_v6 t k : contents t !! net6 k = Trie.entries (trie6 t) !! k.
Proof.
  unfold contents. rewrite lookup_union, lookup_kmap by apply _.
  rewrite (proj2 (lookup_kmap_None _ _ _)) by (intros ? [=]). by rewrite (left_id_L None _).
Qed.

Lemma contents_ext t (m : gmap ip_net D) :
  (∀ k, Trie.entries (trie4 t) !! k = m !! net4 k) →
  (∀ k, Trie.entries (trie6 t) !! k = m !! net6 k) → contents t = m.
Proof.
  intros H4 H6. apply map_eq. intros [[a p]|[a p]].
  - change (NetV4 _) with (net4 (a, p)). by rewrite contents_v4.
  - change (NetV6 _) with (net6 (a, p)). by rewrite contents_v6.
Qed.

Lemma network_mask4 a p :
  0 ≤ p ≤ 32 → in_width 32 a → Z.land a (v4_netmask p) = mask 32 a p.
Proof.
  intros Hp Ha. apply Z.bits_inj'. intros i Hi. rewrite mask_testbit by done.
  by apply (network_testbit 32).
Qed.

Lemma network_mask6 a p :
  0 ≤ p ≤ 128 → in_width 128 a → Z.land a (v6_netmask p) = mask 128 a p.
Proof.
  intros Hp Ha. apply Z.bits_inj'. intros i Hi. rewrite mask_testbit by done.
  by apply (network_testbit 128).
Qed.

Lemma normalize_v4 m :
  ip_net_valid (NetV4 m) → normalize (NetV4 m) = net4 (mask 32 (v4_addr m) (v4_prefix_len m), v4_prefix_len m).
Proof. intros [Ha Hp]. unfold normalize, ipv4_network. by rewrite network_mask4. Qed.

Lemma normalize_v6 m :
  ip_net_valid (NetV6 m) → normalize (NetV6 m) = net6 (mask 128 (v6_addr m) (v6_prefix_len m), v6_prefix_len m).
Proof. intros [Ha Hp]. unfold normalize, ipv6_network. by rewrite network_mask6. Qed.

Lemma normalize_idemp n : ip_net_valid n → normalize (normalize n) = normalize n.
Proof.
  destruct n as [m|m]; intros Hn; pose proof Hn as [Ha Hp].
  - rewrite normalize_v4 by done. unfold net4.
    rewrite normalize_v4 by (split; [by apply mask_in_width|done]). simpl.
    by rewrite mask_idemp.
  - rewrite normalize_v6 by done. unfold net6.
    rewrite normalize_v6 by (split; [by apply mask_in_width|done]). simpl.
    by rewrite mask_idemp.
Qed.

Lemma normalize_valid n : ip_net_valid n → ip_net_valid (normalize n).
Proof. destruct n; intros Hn; split; try apply Hn; by apply (ip_net_network_valid _ Hn). Qed.

(** Every installed block is valid and normalized. *)
Lemma contents_ok t n d :
  wf t → contents t !! n = Some d → ip_net_valid n ∧ normalize n = n.
Proof.
  intros [Hw4 Hw6]. destruct n as [[a p]|[a p]].
  - change (NetV4 _) with (net4 (a, p)). rewrite contents_v4. intros He.
    apply Trie.entries_ok with (w := 32) in He as (Ha & Hp & Hm); [|done].
    unfold net4. rewrite normalize_v4 by done. simpl. by rewrite Hm.
  - change (NetV6 _) with (net6 (a, p)). rewrite contents_v6. intros He.
    apply Trie.entries_ok with (w := 128) in He as (Ha & Hp & Hm); [|done].
    unfold net6. rewrite normalize_v6 by done. simpl. by rewrite Hm.
Qed.

Lemma contains_v4 a p key :
  ip_net_valid (net4 (a, p)) → normalize (net4 (a, p)) = net4 (a, p) → in_width 32 key →
  contains (net4 (a, p)) (IpV4 key) = true ↔ matches 32 key a p.
Proof.
  intros Hv Hn Hk. pose proof Hv as [_ Hp]. cbn in Hp, Hn. injection Hn as Hn.
  unfold net4, contains. cbn -[v4_netmask ipv4_network]. rewrite Hn, Z.eqb_eq.
  by rewrite network_mask4.
Qed.

Lemma contains_v6 a p key :
  ip_net_valid (net6 (a, p)) → normalize (net6 (a, p)) = net6 (a, p) → in_width 128 key →
  contains (net6 (a, p)) (IpV6 key) = true ↔ matches 128 key a p.
Proof.
  intros Hv Hn Hk. pose proof Hv as [_ Hp]. cbn in Hp, Hn. injection Hn as Hn.
  unfold net6, contains. cbn -[v6_netmask ipv6_network]. rewrite Hn, Z.eqb_eq.
  by rewrite network_mask6.
Qed.
End lemmas.
End Table.

(** ** Properties *)

Section properties.
Context {D : Type}.
Implicit Types (t : allowed_ips D) (d : D) (n : ip_net) (key : ip_addr).

(** The nodes of the family a block belongs to. *)
Definition family_nodes t n : Trie.arena D :=
  match n with NetV4 _ => trie4 t | NetV6 _ => trie6 t end.

Lemma contents_insert4 t nodes k d :
  Trie.entries nodes = <[k := d]> (Trie.entries (trie4 t)) →
  Table.contents (AllowedIps nodes (trie6 t)) = <[Table.net4 k := d]> (Table.contents t).
Proof.
  intros He. apply Table.contents_ext; intros k'; simpl.
  - rewrite He. destruct (decide (k = k')) as [->|Hne]; [by rewrite !lookup_insert_eq|].
    rewrite !lookup_insert_ne, Table.contents_v4; [done| |done]. by intros ?%(inj _).
  - by rewrite lookup_insert_ne, Table.contents_v6.
Qed.

Lemma contents_insert6 t nodes k d :
  Trie.entries nodes = <[k := d]> (Trie.entries (trie6 t)) →
  Table.contents (AllowedIps (trie4 t) nodes) = <[Table.net6 k := d]> (Table.contents t).
Proof.
  intros He. apply Table.contents_ext; intros k'; simpl.
  - by rewrite lookup_insert_ne, Table.contents_v4.
  - rewrite He. destruct (decide (k = k')) as [->|Hne]; [by rewrite !lookup_insert_eq|].
    rewrite !lookup_insert_ne, Table.contents_v6; [done| |done]. by intros ?%(inj _).
Qed.

Lemma insert_total cap t n d :
  Table.wf t → ip_net_valid n →
  ∃ r t', Table.insert cap t n d = Some (r, t') ∧
  match r with
  | Ok old =>
      Table.wf t' ∧ old = Table.contents t !! Table.normalize n ∧
      Table.contents t' = <[Table.normalize n := d]> (Table.contents t) ∧
      ∀ n', (length (family_nodes t' n') ≤ length (family_nodes t n') + 2)%nat
  | Err e =>
      e = Full ∧ t' = t ∧ (Trie.node_limit cap < length (family_nodes t n) + 2)%nat
  end.
Proof.
  intros [Hw4 Hw6] Hn. destruct n as [m|m]; pose proof Hn as [Ha Hp]; unfold Table.insert;
    cbn [ip_net_network ip_net_prefix_len family_nodes].
  - unfold ipv4_network. rewrite Table.network_mask4, Table.normalize_v4 by done.
    destruct (Trie.insert_ok 32 ltac:(lia) cap (trie4 t) (mask 32 (v4_addr m) (v4_prefix_len m))
      (v4_prefix_len m) d) as (r & nodes & -> & Hr); [done|by apply mask_in_width|done|].
    rewrite mask_idemp in Hr by done. eexists r, _. split; [done|]. destruct r as [old|e].
    + destruct Hr as (Hwf & -> & He & Hlen). rewrite Table.contents_v4.
      split_and!; [by split|done|by apply contents_insert4|]. intros [?|?]; simpl; lia.
    + destruct Hr as (-> & -> & Hlim). by destruct t.
  - unfold ipv6_network. rewrite Table.network_mask6, Table.normalize_v6 by done.
    destruct (Trie.insert_ok 128 ltac:(lia) cap (trie6 t) (mask 128 (v6_addr m) (v6_prefix_len m))
      (v6_prefix_len m) d) as (r & nodes & -> & Hr); [done|by apply mask_in_width|done|].
    rewrite mask_idemp in Hr by done. eexists r, _. split; [done|]. destruct r as [old|e].
    + destruct Hr as (Hwf & -> & He & Hlen). rewrite Table.contents_v6.
      split_and!; [by split|done|by apply contents_insert6|]. intros [?|?]; simpl; lia.
    + destruct Hr as (-> & -> & Hlim). by destruct t.
Qed.

Lemma find_total t key :
  Table.wf t → ip_addr_valid key →
  ∃ r, Table.find t key = Some r ∧ ∀ d, r = Some d ↔
    ∃ n, Table.contents t !! n = Some d ∧ Table.contains n key = true ∧
      ∀ n' d', Table.contents t !! n' = Some d' → Table.contains n' key = true →
        ip_net_prefix_len n' ≤ ip_net_prefix_len n.
Proof.
  intros Hwf Hk. pose proof Hwf as [Hw4 Hw6]. destruct key as [k|k]; simpl in Hk; cbn [Table.find].
  - rewrite Trie.find_spec by done. eexists; split; [done|]. intros d.
    rewrite Trie.lpm_blocks by done. split.
    + intros (p & l & He & Hm & Hmax). rewrite <- Table.contents_v4 in He. exists (Table.net4 (p, l)).
      destruct (Table.contents_ok _ _ _ Hwf He) as [Hv Hn].
      split_and!; [done|by apply Table.contains_v4|]. intros [[a q]|[a q]] d' He' Hc; [|done].
      destruct (Table.contents_ok _ _ _ Hwf He') as [Hv' Hn'].
      apply (Table.contains_v4 a q k) in Hc; [|done..]. apply (Hmax a q d'); [|done].
      by rewrite <- Table.contents_v4.
    + intros ([[a q]|[a q]] & He & Hc & Hmax); [|done].
      destruct (Table.contents_ok _ _ _ Hwf He) as [Hv Hn].
      apply (Table.contains_v4 a q k) in Hc; [|done..]. exists a, q.
      split_and!; [by rewrite <- Table.contents_v4|done|]. intros p' l' d' He' Hm.
      rewrite <- Table.contents_v4 in He'. apply (Hmax (Table.net4 (p', l')) d'); [done|].
      destruct (Table.contents_ok _ _ _ Hwf He') as [Hv' Hn']. by apply Table.contains_v4.
  - rewrite Trie.find_spec by done. eexists; split; [done|]. intros d.
    rewrite Trie.lpm_blocks by done. split.
    + intros (p & l & He & Hm & Hmax). rewrite <- Table.contents_v6 in He. exists (Table.net6 (p, l)).
      destruct (Table.contents_ok _ _ _ Hwf He) as [Hv Hn].
      split_and!; [done|by apply Table.contains_v6|]. intros [[a q]|[a q]] d' He' Hc; [done|].
      destruct (Table.contents_ok _ _ _ Hwf He') as [Hv' Hn'].
      apply (Table.contains_v6 a q k) in Hc; [|done..]. apply (Hmax a q d'); [|done].
      by rewrite <- Table.contents_v6.
    + intros ([[a q]|[a q]] & He & Hc & Hmax); [done|].
      destruct (Table.contents_ok _ _ _ Hwf He) as [Hv Hn].
      apply (Table.contains_v6 a q k) in Hc; [|done..]. exists a, q.
      split_and!; [by rewrite <- Table.contents_v6|done|]. intros p' l' d' He' Hm.
      rewrite <- Table.contents_v6 in He'. apply (Hmax (Table.net6 (p', l')) d'); [done|].
      destruct (Table.contents_ok _ _ _ Hwf He') as [Hv' Hn']. by apply Table.contains_v6.
Qed.

Lemma new_wf : Table.wf (Table.new : allowed_ips D) ∧ Table.contents (Table.new : allowed_ips D) = ∅.
Proof. split; [split; by apply Trie.wf_new|done]. Qed.

Lemma remove_total f t :
  Table.wf t →
  Table.wf (Table.remove f t) ∧
  Table.contents (Table.remove f t) = filter (λ nd, f nd.2 = false) (Table.contents t).
Proof.
  intros [Hw4 Hw6]. split; [split; by apply Trie.remove_wf|].
  apply Table.contents_ext; intros k; simpl.
  - rewrite (Trie.remove_entries 32) by done. apply option_eq. intros d.
    by rewrite !map_lookup_filter_Some, Table.contents_v4.
  - rewrite (Trie.remove_entries 128) by done. apply option_eq. intros d.
    by rewrite !map_lookup_filter_Some, Table.contents_v6.
Qed.

(** Two valid blocks of one family overlap when some address is in both. *)
Lemma overlap_contains4 a p ep el :
  ip_net_valid (Table.net4 (a, p)) → ip_net_valid (Table.net4 (ep, el)) →
  Table.normalize (Table.net4 (ep, el)) = Table.net4 (ep, el) →
  prefixes_overlap 32 (mask 32 a p) p ep el = true ↔
  ∃ key, ip_addr_valid key ∧ Table.contains (Table.net4 (a, p)) key = true ∧
    Table.contains (Table.net4 (ep, el)) key = true.
Proof.
  intros [Ha Hp] [Hep Hel] Hn. cbn in Ha, Hp, Hep, Hel. unfold Table.net4 in *. cbn [fst snd] in *.
  rewrite Table.normalize_v4 in Hn by done. injection Hn as Hn.
  rewrite prefixes_overlap_address by (first [done|by apply mask_in_width|by apply mask_idemp]).
  assert (∀ x, in_width 32 x → ∀ b q, in_width 32 b → 0 ≤ q ≤ 32 →
    Table.contains (NetV4 (Ipv4Net b q)) (IpV4 x) = true ↔ mask 32 x q = mask 32 b q) as Hc.
  { intros x Hk b q Hb Hq. unfold Table.contains, ipv4_network. cbn [v4_addr v4_prefix_len].
    by rewrite Z.eqb_eq, !Table.network_mask4. }
  split.
  - intros (key & Hk & H1 & H2). exists (IpV4 key). split_and!; [done|by apply Hc|].
    apply Hc; [done..|]. simpl in Hn. by rewrite Hn.
  - intros ([key|key] & Hk & H1 & H2); [|done]. exists key. apply Hc in H1, H2; [|done..].
    simpl in Hn. split_and!; [done|done|]. unfold matches. by rewrite H2.
Qed.

Lemma overlap_contains6 a p ep el :
  ip_net_valid (Table.net6 (a, p)) → ip_net_valid (Table.net6 (ep, el)) →
  Table.normalize (Table.net6 (ep, el)) = Table.net6 (ep, el) →
  prefixes_overlap 128 (mask 128 a p) p ep el = true ↔
  ∃ key, ip_addr_valid key ∧ Table.contains (Table.net6 (a, p)) key = true ∧
    Table.contains (Table.net6 (ep, el)) key = true.
Proof.
  intros [Ha Hp] [Hep Hel] Hn. cbn in Ha, Hp, Hep, Hel. unfold Table.net6 in *. cbn [fst snd] in *.
  rewrite Table.normalize_v6 in Hn by done. injection Hn as Hn.
  rewrite prefixes_overlap_address by (first [done|by apply mask_in_width|by apply mask_idemp]).
  assert (∀ x, in_width 128 x → ∀ b q, in_width 128 b → 0 ≤ q ≤ 128 →
    Table.contains (NetV6 (Ipv6Net b q)) (IpV6 x) = true ↔ mask 128 x q = mask 128 b q) as Hc.
  { intros x Hk b q Hb Hq. unfold Table.contains, ipv6_network. cbn [v6_addr v6_prefix_len].
    by rewrite Z.eqb_eq, !Table.network_mask6. }
  split.
  - intros (key & Hk & H1 & H2). exists (IpV6 key). split_and!; [done|by apply Hc|].
    apply Hc; [done..|]. simpl in Hn. by rewrite Hn.
  - intros ([key|key] & Hk & H1 & H2); [done|]. exists key. apply Hc in H1, H2; [|done..].
    simpl in Hn. split_and!; [done|done|]. unfold matches. by rewrite H2.
Qed.

Lemma overlaps_total t n :
  Table.wf t → ip_net_valid n →
  ∃ b, Table.overlaps t n = Ok b ∧ (b = true ↔
    ∃ n' d key, Table.contents t !! n' = Some d ∧ ip_addr_valid key ∧
      Table.contains n key = true ∧ Table.contains n' key = true).
Proof.
  intros Hwf Hn. pose proof Hwf as [Hw4 Hw6].
  destruct n as [[a p]|[a p]]; pose proof Hn as [Ha Hp]; cbn in Ha, Hp; eexists; (split; [done|]);
    cbn [ip_net_prefix_len v4_prefix_len v6_prefix_len].
  - unfold ipv4_network. cbn [v4_addr v4_prefix_len].
    rewrite Table.network_mask4, Trie.overlaps_spec, mask_idemp by done. split.
    + intros (ep & el & d & He & Ho). rewrite <- Table.contents_v4 in He.
      destruct (Table.contents_ok _ _ _ Hwf He) as [Hv Hnn].
      apply overlap_contains4 in Ho as (key & Hk & H1 & H2); [|done..].
      by exists (Table.net4 (ep, el)), d, key.
    + intros ([[ep el]|[ep el]] & d & [key|key] & He & Hk & H1 & H2); try done.
      destruct (Table.contents_ok _ _ _ Hwf He) as [Hv Hnn]. exists ep, el, d.
      split; [by rewrite <- Table.contents_v4|]. apply overlap_contains4; [done..|by exists (IpV4 key)].
  - unfold ipv6_network. cbn [v6_addr v6_prefix_len].
    rewrite Table.network_mask6, Trie.overlaps_spec, mask_idemp by done. split.
    + intros (ep & el & d & He & Ho). rewrite <- Table.contents_v6 in He.
      destruct (Table.contents_ok _ _ _ Hwf He) as [Hv Hnn].
      apply overlap_contains6 in Ho as (key & Hk & H1 & H2); [|done..].
      by exists (Table.net6 (ep, el)), d, key.
    + intros ([[ep el]|[ep el]] & d & [key|key] & He & Hk & H1 & H2); try done.
      destruct (Table.contents_ok _ _ _ Hwf He) as [Hv Hnn]. exists ep, el, d.
      split; [by rewrite <- Table.contents_v6|]. apply overlap_contains6; [done..|by exists (IpV6 key)].
Qed.

Lemma mapM_iter_item4 nodes :
  (∀ nd, nd ∈ nodes → Trie.node_ok 32 nd) →
  mapM (Table.iter_item IpV4) (Trie.iter nodes) =
    Some ((λ '(k, d), (d, Table.net4 k)) <$> (Trie.entry_list nodes : list (Z * Z * D))).
Proof.
  intros Hok. rewrite Trie.iter_entry_list. apply mapM_Some_2, Forall2_fmap, Forall_Forall2_diag.
  apply Forall_forall. intros [[p l] d] Hin. apply Trie.entry_list_elem in Hin as (i & nd & Hi & [= <- <-] & _).
  apply list_elem_of_lookup_2, Hok in Hi as (Hp & Hl & _). cbn. unfold ipv4_net_new.
  by rewrite (proj2 (Z.ltb_ge _ _)) by lia.
Qed.

Lemma mapM_iter_item6 nodes :
  (∀ nd, nd ∈ nodes → Trie.node_ok 128 nd) →
  mapM (Table.iter_item IpV6) (Trie.iter nodes) =
    Some ((λ '(k, d), (d, Table.net6 k)) <$> (Trie.entry_list nodes : list (Z * Z * D))).
Proof.
  intros Hok. rewrite Trie.iter_entry_list. apply mapM_Some_2, Forall2_fmap, Forall_Forall2_diag.
  apply Forall_forall. intros [[p l] d] Hin. apply Trie.entry_list_elem in Hin as (i & nd & Hi & [= <- <-] & _).
  apply list_elem_of_lookup_2, Hok in Hi as (Hp & Hl & _). cbn. unfold ipv6_net_new.
  by rewrite (proj2 (Z.ltb_ge _ _)) by lia.
Qed.

Lemma wf_nodes_ok w (nodes : Trie.arena D) nd : Trie.wf w nodes → nd ∈ nodes → Trie.node_ok w nd.
Proof. intros Hwf [i Hi]%list_elem_of_lookup. by eapply Trie.wf_node. Qed.

Lemma iter_total t :
  Table.wf t →
  ∃ l, Table.iter t = Some l ∧ ((λ '(d, n), (n, d)) <$> l) ≡ₚ map_to_list (Table.contents t).
Proof.
  intros Hwf. pose proof Hwf as [Hw4 Hw6]. unfold Table.iter.
  rewrite mapM_iter_item4, mapM_iter_item6 by (intros; by eapply wf_nodes_ok).
  eexists. split; [done|]. unfold Table.contents. rewrite map_to_list_disj_union.
  - rewrite fmap_app, <- !list_fmap_compose, !map_to_list_kmap by apply _.
    rewrite <- (Trie.iter_entries 32 (trie4 t)), <- (Trie.iter_entries 128 (trie6 t))
      by done.
    apply eq_subrelation; [apply _|]. f_equal; apply list_fmap_ext; by intros ? [??].
  - apply map_disjoint_spec. intros n d d' H1 H2.
    apply lookup_kmap_Some in H1 as (k & -> & _); [|apply _].
    apply lookup_kmap_Some in H2 as (k' & [=] & _). apply _.
Qed.

(** The map a list of insertions builds. *)
Definition insert_blocks (m : gmap ip_net D) (l : list (ip_net * D)) : gmap ip_net D :=
  fold_left (λ m '(n, d), <[Table.normalize n := d]> m) l m.

Lemma insert_all_total cap t l :
  Table.wf t → Forall (λ nd, ip_net_valid nd.1) l →
  ∃ r, Table.insert_all cap t l = Some r ∧
  match r with
  | Ok t' => Table.wf t' ∧ Table.contents t' = insert_blocks (Table.contents t) l
  | Err e => e = Full ∧ ∃ n, (Trie.node_limit cap < length (family_nodes t n) + 2 * length l)%nat
  end.
Proof.
  revert t; induction l as [|[n d] l IH]; intros t Hwf Hl; [by eexists|].
  inversion_clear Hl as [|?? Hn Hl']. cbn [Table.insert_all].
  destruct (insert_total cap t n d Hwf Hn) as (r & t' & -> & Hr). cbn.
  destruct r as [old|e].
  - destruct Hr as (Hwf' & _ & Hc & Hlen). destruct (IH t' Hwf' Hl') as (r & -> & Hr).
    eexists; split; [done|]. destruct r as [t''|e]; [by rewrite <- Hc|].
    destruct Hr as (-> & n' & Hlim). split; [done|]. exists n'. specialize (Hlen n'). lia.
  - destruct Hr as (-> & -> & Hlim). eexists; split; [done|]. split; [done|]. exists n. lia.
Qed.
End properties.

(** A small table for the concrete instances below: nested and split blocks. *)
Definition sample_blocks : list (ip_net * nat) :=
  [(NetV4 (Ipv4Net 0x0a000001 8), 1%nat); (NetV4 (Ipv4Net 0x0a010000 16), 2%nat);
   (NetV4 (Ipv4Net 0x0a810000 16), 3%nat); (NetV6 (Ipv6Net 0 64), 4%nat)].

Definition sample_table : allowed_ips nat :=
  match Table.try_from_iter None sample_blocks with
  | Some (Ok t) => t
  | _ => Table.new
  end.

Lemma sample_table_wf : Table.wf sample_table.
Proof.
  destruct (insert_all_total None (Table.new : allowed_ips nat) sample_blocks) as (r & Hr & Hp);
    [apply new_wf|repeat constructor; simpl; lia|].
  unfold sample_table, Table.try_from_iter. rewrite Hr.
  destruct r as [t|e]; [apply Hp|apply new_wf].
Qed.

(** C3: [AllowedIPs::insert] is map insertion. On every well-formed table it
    returns, in both storage modes; on success the block (with its host bits
    cleared) is bound to the new payload, the previous payload of exactly that
    block is returned and every other binding is kept, whatever nodes were
    split; on failure the error is [Full], nothing changed, and fewer than two
    nodes were free. *)
Theorem insert_refines_map {D} (cap : option nat) (t : allowed_ips D) (n : ip_net) (d : D) :
  Table.wf t → ip_net_valid n →
  ∃ r t', Table.insert cap t n d = Some (r, t') ∧
  match r with
  | Ok old =>
      Table.wf t' ∧ old = Table.contents t !! Table.normalize n ∧
      Table.contents t' = <[Table.normalize n := d]> (Table.contents t)
  | Err e =>
      e = Full ∧ t' = t ∧ (Trie.node_limit cap < length (family_nodes t n) + 2)%nat
  end.
Proof.
  intros Hwf Hn. destruct (insert_total cap t n d Hwf Hn) as (r & t' & Hi & Hr).
  exists r, t'. split; [done|]. destruct r; [|done]. by destruct Hr as (? & ? & ? & _).
Qed.

Lemma insert_refines_map_witness :
  let n := NetV4 (Ipv4Net 0x0a000001 8) in
  Table.wf sample_table ∧ ip_net_valid n ∧
  ∃ r t', Table.insert None sample_table n 7%nat = Some (r, t') ∧
  match r with
  | Ok old =>
      Table.wf t' ∧ old = Table.contents sample_table !! Table.normalize n ∧
      Table.contents t' = <[Table.normalize n := 7%nat]> (Table.contents sample_table)
  | Err e =>
      e = Full ∧ t' = sample_table ∧
      (Trie.node_limit None < length (family_nodes sample_table n) + 2)%nat
  end.
Proof.
  intros n. assert (Table.wf sample_table) as Hwf by exact sample_table_wf.
  assert (ip_net_valid n) as Hn by (by split; [split|]).
  split; [exact Hwf|]. split; [exact Hn|].
  exact (insert_refines_map None sample_table n 7%nat Hwf Hn).
Defined.

(** C6: [AllowedIPs::find] is longest-prefix match: it always returns, and it
    answers a payload exactly when that payload is installed under a block
    that contains the address and no installed block that contains the address
    is longer. Blocks of the other address family never match. *)
Theorem find_longest_match {D} (t : allowed_ips D) (key : ip_addr) :
  Table.wf t → ip_addr_valid key →
  ∃ r, Table.find t key = Some r ∧ ∀ d, r = Some d ↔
    ∃ n, Table.contents t !! n = Some d ∧ Table.contains n key = true ∧
      ∀ n' d', Table.contents t !! n' = Some d' → Table.contains n' key = true →
        ip_net_prefix_len n' ≤ ip_net_prefix_len n.
Proof. apply find_total. Qed.

Lemma find_longest_match_witness :
  Table.wf sample_table ∧ ip_addr_valid (IpV4 0x0a010203) ∧
  Table.find sample_table (IpV4 0x0a010203) = Some (Some 2%nat) ∧
  ∃ r, Table.find sample_table (IpV4 0x0a010203) = Some r ∧ ∀ d, r = Some d ↔
    ∃ n, Table.contents sample_table !! n = Some d ∧ Table.contains n (IpV4 0x0a010203) = true ∧
      ∀ n' d', Table.contents sample_table !! n' = Some d' →
        Table.contains n' (IpV4 0x0a010203) = true → ip_net_prefix_len n' ≤ ip_net_prefix_len n.
Proof.
  assert (Table.wf sample_table) as Hwf by exact sample_table_wf.
  assert (ip_addr_valid (IpV4 0x0a010203)) as Hk by by split.
  split; [exact Hwf|]. split; [exact Hk|]. split; [vm_compute; reflexivity|].
  exact (find_longest_match sample_table (IpV4 0x0a010203) Hwf Hk).
Defined.

(** [AllowedIPs::overlaps] answers exactly whether the queried block shares
    an address with some installed block of the same family. *)
Theorem overlaps_iff_common_address {D} (t : allowed_ips D) (n : ip_net) :
  Table.wf t → ip_net_valid n →
  ∃ b, Table.overlaps t n = Ok b ∧ (b = true ↔
    ∃ n' d key, Table.contents t !! n' = Some d ∧ ip_addr_valid key ∧
      Table.contains n key = true ∧ Table.contains n' key = true).
Proof. apply overlaps_total. Qed.

Lemma overlaps_iff_common_address_witness :
  let n := NetV6 (Ipv6Net 0 64) in
  Table.wf sample_table ∧ ip_net_valid n ∧
  ∃ b, Table.overlaps sample_table n = Ok b ∧ (b = true ↔
    ∃ n' d key, Table.contents sample_table !! n' = Some d ∧ ip_addr_valid key ∧
      Table.contains n key = true ∧ Table.contains n' key = true).
Proof.
  intros n. assert (Table.wf sample_table) as Hwf by exact sample_table_wf.
  assert (ip_net_valid n) as Hn by (by split; [split|]).
  split; [exact Hwf|]. split; [exact Hn|].
  exact (overlaps_iff_common_address sample_table n Hwf Hn).
Defined.

(** Removal is exact and iteration is complete: [remove] keeps the table
    well formed and drops exactly the bindings whose payload satisfies the
    predicate, although no node is unlinked; [iter] never panics and visits
    every installed block once. *)
Theorem remove_iter_spec {D} (t : allowed_ips D) (f : D → bool) :
  Table.wf t →
  Table.wf (Table.remove f t) ∧
  Table.contents (Table.remove f t) = filter (λ nd, f nd.2 = false) (Table.contents t) ∧
  ∃ l, Table.iter (Table.remove f t) = Some l ∧
    ((λ '(d, n), (n, d)) <$> l) ≡ₚ
      map_to_list (filter (λ nd, f nd.2 = false) (Table.contents t)).
Proof.
  intros Hwf. destruct (remove_total f t Hwf) as [Hwf' Hc]. split_and!; [done|done|].
  rewrite <- Hc. by apply iter_total.
Qed.

Lemma remove_iter_spec_witness :
  let f := λ d : nat, Nat.even d in
  Table.wf sample_table ∧
  Table.wf (Table.remove f sample_table) ∧
  Table.contents (Table.remove f sample_table) = filter (λ nd, f nd.2 = false) (Table.contents sample_table) ∧
  ∃ l, Table.iter (Table.remove f sample_table) = Some l ∧
    ((λ '(d, n), (n, d)) <$> l) ≡ₚ
      map_to_list (filter (λ nd, f nd.2 = false) (Table.contents sample_table)).
Proof.
  intros f. assert (Table.wf sample_table) as Hwf by exact sample_table_wf.
  split; [exact Hwf|]. exact (remove_iter_spec sample_table f Hwf).
Defined.

(** [try_from_iter] builds the table of its list: it returns, the table is
    well formed and holds the last payload of each block of the list; it can
    only fail with [Full], and never does when every trie can hold the root and
    two nodes per block. *)
Theorem try_from_iter_spec {D} (cap : option nat) (l : list (ip_net * D)) :
  Forall (λ nd, ip_net_valid nd.1) l →
  ∃ r, Table.try_from_iter cap l = Some r ∧
  match r with
  | Ok t => Table.wf t ∧ Table.contents t = insert_blocks ∅ l
  | Err e => e = Full ∧ (Trie.node_limit cap < 1 + 2 * length l)%nat
  end.
Proof.
  intros Hl. destruct (@new_wf D) as [Hwf Hc].
  destruct (insert_all_total cap Table.new l Hwf Hl) as (r & Hr & Hp).
  exists r. split; [exact Hr|]. destruct r as [t|e]; [by rewrite Hc in Hp|].
  destruct Hp as (-> & [?|?] & Hlim); split; done.
Qed.

Lemma try_from_iter_spec_witness :
  let l := [(NetV4 (Ipv4Net 0x0a000000 8), 1%nat); (NetV4 (Ipv4Net 0x0a010000 16), 2%nat);
            (NetV4 (Ipv4Net 0x0a810000 16), 3%nat)] in
  Forall (λ nd, ip_net_valid nd.1) l ∧
  ∃ r, Table.try_from_iter (Some 4%nat) l = Some r ∧
  match r with
  | Ok t => Table.wf t ∧ Table.contents t = insert_blocks ∅ l
  | Err e => e = Full ∧ (Trie.node_limit (Some 4%nat) < 1 + 2 * length l)%nat
  end.
Proof.
  intros l. assert (Forall (λ nd, ip_net_valid nd.1) l) as Hl.
  { repeat constructor; simpl; lia. }
  split; [exact Hl|]. exact (try_from_iter_spec (Some 4%nat) l Hl).
Defined.
