(* ===== verification/IpPacket.v ===== *)
(** * Addresses of IP packets: [tendrilix/src/ip_packet.rs]

    [src_address] and [dst_address] read untrusted bytes. The outer option of
    the definitions is the slice panic of the source, which is proved
    unreachable; the inner one is the [Option] the functions return. *)

From S2P Require Import Prelude IpNet.

Definition IPV4_MIN_HEADER_SIZE : nat := 20.
Definition IPV4_SRC_IP_OFF : nat := 12.
Definition IPV4_DST_IP_OFF : nat := 16.
Definition IPV4_IP_SZ : nat := 4.
Definition IPV4_IHL_MASK : Z := 0x0f.
Definition IPV6_MIN_HEADER_SIZE : nat := 40.
Definition IPV6_SRC_IP_OFF : nat := 8.
Definition IPV6_DST_IP_OFF : nat := 24.
Definition IPV6_IP_SZ : nat := 16.

Definition valid_ipv4_header_len (packet : bytes) : option (option nat) :=
  if (length packet <? IPV4_MIN_HEADER_SIZE)%nat then Some None
  else
    let! b0 := packet !! 0%nat in
    let header_len := (Z.to_nat (Z.land b0 IPV4_IHL_MASK) * 4)%nat in
    if ((header_len <? IPV4_MIN_HEADER_SIZE) || (length packet <? header_len))%nat then Some None
    else Some (Some header_len).

(** The common body of the two functions, at the offsets of one address. *)
Definition address_at (v4_off v6_off : nat) (packet : bytes) : option (option ip_addr) :=
  if decide (packet = []) then Some None
  else
    let! b0 := packet !! 0%nat in
    let! ipv4_header := valid_ipv4_header_len packet in
    let version := Z.shiftr b0 4 in
    if (version =? 4) && bool_decide (is_Some ipv4_header) then
      let! addr_bytes := get_range v4_off (v4_off + IPV4_IP_SZ) packet in
      Some (Some (IpV4 (from_be_bytes addr_bytes)))
    else if (version =? 6) && (IPV6_MIN_HEADER_SIZE <=? length packet)%nat then
      let! addr_bytes := get_range v6_off (v6_off + IPV6_IP_SZ) packet in
      Some (Some (IpV6 (from_be_bytes addr_bytes)))
    else Some None.

Definition src_address (packet : bytes) : option (option ip_addr) :=
  address_at IPV4_SRC_IP_OFF IPV6_SRC_IP_OFF packet.

Definition dst_address (packet : bytes) : option (option ip_addr) :=
  address_at IPV4_DST_IP_OFF IPV6_DST_IP_OFF packet.

(** ** The header formats (RFC 791, RFC 8200) *)

(** An IPv4 packet: version and header length, eleven bytes, the addresses, then
    options and payload. *)
Definition ipv4_packet (ihl : Z) (fields : bytes) (src dst : Z) (rest : bytes) : bytes :=
  [Z.lor 0x40 ihl] ++ fields ++ to_be_bytes 4 src ++ to_be_bytes 4 dst ++ rest.

(** An IPv6 packet: version and traffic class, seven bytes, the addresses, payload. *)
Definition ipv6_packet (low : Z) (fields : bytes) (src dst : Z) (rest : bytes) : bytes :=
  [Z.lor 0x60 low] ++ fields ++ to_be_bytes 16 src ++ to_be_bytes 16 dst ++ rest.

Lemma valid_ipv4_header_len_total packet :
  ∃ r, valid_ipv4_header_len packet = Some r ∧
    ∀ n, r = Some n → (IPV4_MIN_HEADER_SIZE ≤ n ≤ length packet)%nat.
Proof.
  unfold valid_ipv4_header_len.
  destruct (Nat.ltb_spec (length packet) IPV4_MIN_HEADER_SIZE) as [|Hge]; [by eexists|].
  destruct (lookup_byte_Some packet 0) as (b & -> & _); [unfold IPV4_MIN_HEADER_SIZE in Hge; lia|].
  cbn -[Nat.ltb Nat.mul IPV4_MIN_HEADER_SIZE].
  destruct (Nat.ltb_spec (Z.to_nat (Z.land b IPV4_IHL_MASK) * 4) IPV4_MIN_HEADER_SIZE);
    [by eexists|].
  destruct (Nat.ltb_spec (length packet) (Z.to_nat (Z.land b IPV4_IHL_MASK) * 4)); [by eexists|].
  eexists. split; [done|]. intros n [= <-]. lia.
Qed.

Lemma address_at_total v4_off v6_off packet :
  (v4_off + IPV4_IP_SZ ≤ IPV4_MIN_HEADER_SIZE)%nat →
  (v6_off + IPV6_IP_SZ ≤ IPV6_MIN_HEADER_SIZE)%nat →
  is_bytes packet →
  ∃ r, address_at v4_off v6_off packet = Some r ∧ ∀ a, r = Some a → ip_addr_valid a.
Proof.
  intros H4 H6 Hp. unfold address_at. case_decide as Hne; [by eexists|].
  destruct packet as [|b0 packet']; [done|]. set (packet := b0 :: packet') in *.
  change (packet !! 0%nat) with (Some b0). cbn [mbind option_bind].
  destruct (valid_ipv4_header_len_total packet) as (r & -> & Hr). cbn [mbind option_bind].
  destruct ((_ =? 4) && _) eqn:E4.
  { apply andb_prop in E4 as [_ E4]. apply bool_decide_eq_true in E4 as [n ->].
    specialize (Hr n eq_refl). rewrite get_range_Some by lia. eexists. split; [done|].
    intros a [= <-]. cbn. change 32 with (8 * Z.of_nat 4).
    replace 4%nat with (length (slice v4_off (v4_off + IPV4_IP_SZ) packet))
      by (rewrite length_slice; unfold IPV4_IP_SZ in *; lia).
    by apply from_be_bytes_bound, slice_is_bytes. }
  destruct ((_ =? 6) && _) eqn:E6; [|by eexists].
  apply andb_prop in E6 as [_ E6]. apply Nat.leb_le in E6.
  rewrite get_range_Some by lia. eexists. split; [done|].
  intros a [= <-]. cbn. change 128 with (8 * Z.of_nat 16).
  replace 16%nat with (length (slice v6_off (v6_off + IPV6_IP_SZ) packet))
    by (rewrite length_slice; unfold IPV6_IP_SZ in *; lia).
  by apply from_be_bytes_bound, slice_is_bytes.
Qed.

(** A nibble under the version nibble can be read back. *)
Lemma version_nibble v x : 0 ≤ v < 16 → 0 ≤ x < 16 →
  Z.shiftr (Z.lor (v * 16) x) 4 = v ∧ Z.land (Z.lor (v * 16) x) 0x0f = x.
Proof.
  intros Hv Hx. change (v * 16) with (v * 2 ^ 4). rewrite <- Z.shiftl_mul_pow2 by lia.
  assert (∀ i, 4 ≤ i → Z.testbit x i = false) as Hhi.
  { intros i Hi. apply (in_width_testbit 4); [done|lia|lia]. }
  split; bit_ext i Hi.
  - rewrite Hhi by lia. rewrite orb_false_r. f_equal. lia.
  - change 0x0f with (Z.ones 4). destruct (decide (i < 4)) as [Hlt|Hge].
    + rewrite Z.ones_spec_low, Z.testbit_neg_r by lia. by rewrite andb_true_r.
    + rewrite Z.ones_spec_high, Hhi by lia. by rewrite andb_false_r.
Qed.

Lemma length_ipv4_packet ihl fields src dst rest :
  length (ipv4_packet ihl fields src dst rest) = (1 + length fields + 8 + length rest)%nat.
Proof. unfold ipv4_packet. rewrite !length_app, !length_to_be_bytes. simpl. lia. Qed.

Lemma valid_ipv4_header_len_ipv4 ihl fields src dst rest :
  5 ≤ ihl < 16 → length fields = 11%nat → (Z.to_nat ihl * 4 ≤ 20 + length rest)%nat →
  valid_ipv4_header_len (ipv4_packet ihl fields src dst rest) = Some (Some (Z.to_nat ihl * 4)%nat).
Proof.
  intros Hihl Hf Hlen. unfold valid_ipv4_header_len. rewrite length_ipv4_packet, Hf.
  unfold IPV4_MIN_HEADER_SIZE.
  rewrite (proj2 (Nat.ltb_ge _ _)) by lia.
  change (ipv4_packet ihl fields src dst rest !! 0%nat) with (Some (Z.lor (4 * 16) ihl)).
  cbn [mbind option_bind]. destruct (version_nibble 4 ihl) as [_ E]; [lia|lia|].
  unfold IPV4_IHL_MASK. rewrite E. clear E.
  rewrite (proj2 (Nat.ltb_ge _ _)) by lia. by rewrite (proj2 (Nat.ltb_ge _ _)) by lia.
Qed.

Lemma address_at_ipv4 v4_off v6_off ihl fields src dst rest a post :
  5 ≤ ihl < 16 → length fields = 11%nat → (Z.to_nat ihl * 4 ≤ 20 + length rest)%nat →
  in_width 32 a →
  (∃ pre, ipv4_packet ihl fields src dst rest = pre ++ to_be_bytes 4 a ++ post ∧ v4_off = length pre) →
  address_at v4_off v6_off (ipv4_packet ihl fields src dst rest) = Some (Some (IpV4 a)).
Proof.
  intros Hihl Hf Hlen Ha (pre & He & ->). unfold address_at. rewrite decide_False by done.
  rewrite valid_ipv4_header_len_ipv4 by done.
  change (ipv4_packet ihl fields src dst rest !! 0%nat) with (Some (Z.lor (4 * 16) ihl)).
  cbn [mbind option_bind]. destruct (version_nibble 4 ihl) as [E _]; [lia|lia|]. rewrite E. clear E.
  rewrite Z.eqb_refl, bool_decide_eq_true_2 by by eexists. cbn [andb].
  rewrite He, get_range_field by (done || by rewrite length_to_be_bytes).
  cbn [mbind option_bind]. by rewrite from_to_be_bytes.
Qed.

Lemma address_at_ipv6 v4_off v6_off low fields src dst rest a post :
  0 ≤ low < 16 → length fields = 7%nat → in_width 128 a →
  (∃ pre, ipv6_packet low fields src dst rest = pre ++ to_be_bytes 16 a ++ post ∧ v6_off = length pre) →
  address_at v4_off v6_off (ipv6_packet low fields src dst rest) = Some (Some (IpV6 a)).
Proof.
  intros Hlow Hf Ha (pre & He & ->). unfold address_at. rewrite decide_False by done.
  destruct (valid_ipv4_header_len_total (ipv6_packet low fields src dst rest)) as (r & -> & _).
  change (ipv6_packet low fields src dst rest !! 0%nat) with (Some (Z.lor (6 * 16) low)).
  cbn [mbind option_bind]. destruct (version_nibble 6 low) as [E _]; [lia|lia|]. rewrite E. clear E.
  change (6 =? 4) with false. change (6 =? 6) with true. cbn [andb].
  rewrite (proj2 (Nat.leb_le _ _)) by
    (unfold ipv6_packet, IPV6_MIN_HEADER_SIZE; rewrite !length_app, !length_to_be_bytes, Hf; simpl; lia).
  rewrite He, get_range_field by (done || by rewrite length_to_be_bytes).
  cbn [mbind option_bind]. by rewrite from_to_be_bytes.
Qed.

(** Reading addresses from untrusted bytes never panics, and whatever it
    answers is an address of its family. *)
Theorem packet_addresses_total (packet : bytes) :
  is_bytes packet →
  ∃ s d, src_address packet = Some s ∧ dst_address packet = Some d ∧
    (∀ a, s = Some a → ip_addr_valid a) ∧ (∀ a, d = Some a → ip_addr_valid a) ∧
    (is_Some s ↔ is_Some d).
Proof.
  intros Hp. destruct (address_at_total IPV4_SRC_IP_OFF IPV6_SRC_IP_OFF packet) as (s & Hs & Hsv);
    [by vm_compute; lia|by vm_compute; lia|done|].
  destruct (address_at_total IPV4_DST_IP_OFF IPV6_DST_IP_OFF packet) as (d & Hd & Hdv);
    [by vm_compute; lia|by vm_compute; lia|done|].
  exists s, d. split_and!; [done|done|done|done|]. unfold address_at in Hs, Hd.
  case_decide; [by simplify_eq|]. destruct (packet !! 0%nat); [|done]. cbn [mbind option_bind] in *.
  destruct (valid_ipv4_header_len packet); [|done]. cbn [mbind option_bind] in *.
  destruct (_ && bool_decide _);
    [|destruct (_ && (_ <=? _)%nat); [|by simplify_eq]];
    destruct (get_range _ _ _); cbn [mbind option_bind] in Hs; simplify_eq;
    destruct (get_range _ _ _); cbn [mbind option_bind] in Hd; simplify_eq; by split; eexists.
Qed.

Lemma packet_addresses_total_witness :
  is_bytes [0x45; 0; 0; 20] ∧
  ∃ s d, src_address [0x45; 0; 0; 20] = Some s ∧ dst_address [0x45; 0; 0; 20] = Some d ∧
    (∀ a, s = Some a → ip_addr_valid a) ∧ (∀ a, d = Some a → ip_addr_valid a) ∧
    (is_Some s ↔ is_Some d).
Proof.
  assert (is_bytes [0x45; 0; 0; 20]) as H by (repeat constructor; simpl; lia).
  split; [exact H|]. exact (packet_addresses_total [0x45; 0; 0; 20] H).
Defined.

(** The addresses of a packet laid out as IPv4 (any header length its size
    allows, options included) or IPv6 are the ones it was built with. *)
Theorem packet_addresses_roundtrip (fields rest : bytes) (low src dst : Z) :
  (5 ≤ low < 16 → length fields = 11%nat → (Z.to_nat low * 4 ≤ 20 + length rest)%nat →
    in_width 32 src → in_width 32 dst →
    src_address (ipv4_packet low fields src dst rest) = Some (Some (IpV4 src)) ∧
    dst_address (ipv4_packet low fields src dst rest) = Some (Some (IpV4 dst))) ∧
  (0 ≤ low < 16 → length fields = 7%nat → in_width 128 src → in_width 128 dst →
    src_address (ipv6_packet low fields src dst rest) = Some (Some (IpV6 src)) ∧
    dst_address (ipv6_packet low fields src dst rest) = Some (Some (IpV6 dst))).
Proof.
  split; [intros Hl Hf Hlen Hs Hd|intros Hl Hf Hs Hd]; split.
  - eapply address_at_ipv4; [done..|]. eexists (_ :: fields). split; [done|].
    simpl. by rewrite Hf.
  - eapply address_at_ipv4; [done..|]. eexists (_ :: fields ++ to_be_bytes 4 src). split.
    + unfold ipv4_packet. simpl. by rewrite <- app_assoc.
    + simpl. by rewrite length_app, length_to_be_bytes, Hf.
  - eapply address_at_ipv6; [done..|]. eexists (_ :: fields). split; [done|].
    simpl. by rewrite Hf.
  - eapply address_at_ipv6; [done..|]. eexists (_ :: fields ++ to_be_bytes 16 src). split.
    + unfold ipv6_packet. simpl. by rewrite <- app_assoc.
    + simpl. by rewrite length_app, length_to_be_bytes, Hf.
Qed.

Lemma packet_addresses_roundtrip_witness :
  let fields := repeat 0 11 in
  5 ≤ 6 < 16 ∧ length fields = 11%nat ∧
  src_address (ipv4_packet 6 fields 0x0a000001 0x0a000002 [0; 0; 0; 0]) = Some (Some (IpV4 0x0a000001)) ∧
  dst_address (ipv4_packet 6 fields 0x0a000001 0x0a000002 [0; 0; 0; 0]) = Some (Some (IpV4 0x0a000002)).
Proof.
  split; [lia|]. split; [reflexivity|].
  apply (proj1 (packet_addresses_roundtrip (repeat 0 11) [0; 0; 0; 0] 6 0x0a000001 0x0a000002));
    [lia|reflexivity|vm_compute; lia|by split|by split].
Defined.
