(* ===== verification/Timestamper.v ===== *)
(** * TAI64N timestamps: [tendrilix/src/timestamper.rs]

    Instants of the monotonic clock are integers, in nanoseconds. The
    additions of [stamp] are on u64: an overflow is [None], the panic of a
    checked build. *)

From S2P Require Import Prelude.

Record time_stamper := TimeStamper {
  instant_at_start : Z;
  unix_time_secs_at_start : Z
}.

Definition TAI64_BASE : Z := 0x4000_0000_0000_000a.
Definition WHITENER_MASK : Z := 0x0100_0000 - 1.

Definition time_stamper_new (now unix_time_secs : Z) : time_stamper :=
  TimeStamper now unix_time_secs.

Definition checked_add (w x y : Z) : option Z :=
  if decide (in_width w (x + y)) then Some (x + y) else None.

(** [n & !WHITENER_MASK] on u32. *)
Definition whiten (n : Z) : Z := Z.land n (Z.lxor u32_max WHITENER_MASK).

Definition stamp (ts : time_stamper) (now : Z) : option bytes :=
  let elapsed := duration_since now (instant_at_start ts) in
  let! base := checked_add 64 TAI64_BASE (unix_time_secs_at_start ts) in
  let! seconds := checked_add 64 base (elapsed / NANOS_PER_SEC) in
  let nanoseconds := whiten (elapsed mod NANOS_PER_SEC) in
  Some (to_be_bytes 8 seconds ++ to_be_bytes 4 nanoseconds).

Record tai64n := Tai64N { secs : Z; nano : Z }.

Definition tai64n_zero : tai64n := Tai64N 0 0.

(** [Tai64N::parse] on a [[u8; 12]]; it never fails. *)
Definition parse (buf : bytes) : tai64n :=
  Tai64N (from_be_bytes (take 8 buf)) (from_be_bytes (drop 8 buf)).

Definition after (self other : tai64n) : bool :=
  (secs other <? secs self) || ((secs self =? secs other) && (nano other <? nano self)).

(** ** Lemmas *)

Lemma whiten_div n : 0 ≤ n < 2 ^ 32 → whiten n = n / 2 ^ 24 * 2 ^ 24.
Proof.
  intros Hn. unfold whiten. rewrite <- Z.shiftl_mul_pow2, <- Z.shiftr_div_pow2 by lia.
  apply Z.bits_inj'. intros i Hi. rewrite Z.land_spec, Z.lxor_spec, Z.shiftl_spec by lia.
  change u32_max with (Z.ones 32). change WHITENER_MASK with (Z.ones 24).
  destruct (decide (i < 24)) as [Hlt|Hge].
  - rewrite !Z.ones_spec_low, (Z.testbit_neg_r _ (i - 24)) by lia. apply andb_false_r.
  - rewrite Z.shiftr_spec by lia. replace (i - 24 + 24) with i by lia.
    rewrite (Z.ones_spec_high 24) by lia. destruct (decide (i < 32)) as [Hl|Hg].
    + rewrite Z.ones_spec_low by lia. apply andb_true_r.
    + rewrite (in_width_testbit 32 n) by (done || lia). done.
Qed.

Lemma whiten_bounds n : 0 ≤ n < 2 ^ 32 → 0 ≤ whiten n ≤ n.
Proof.
  intros Hn. rewrite whiten_div by done. pose proof (Z.div_mod n (2 ^ 24)).
  pose proof (Z.mod_pos_bound n (2 ^ 24)). pose proof (Z.div_pos n (2 ^ 24)). lia.
Qed.

(** A time in nanoseconds as [stamp] encodes it. *)
Definition encode (base elapsed : Z) : tai64n :=
  Tai64N (base + elapsed / NANOS_PER_SEC) (whiten (elapsed mod NANOS_PER_SEC)).

Lemma stamp_parse ts now :
  0 ≤ unix_time_secs_at_start ts →
  let elapsed := duration_since now (instant_at_start ts) in
  let base := TAI64_BASE + unix_time_secs_at_start ts in
  base + elapsed / NANOS_PER_SEC < 2 ^ 64 →
  ∃ b, stamp ts now = Some b ∧ length b = 12%nat ∧ is_bytes b ∧ parse b = encode base elapsed.
Proof.
  intros Hu elapsed base Hs. unfold stamp. fold elapsed.
  assert (0 ≤ elapsed) as He by (unfold elapsed, duration_since; lia).
  assert (0 ≤ elapsed / NANOS_PER_SEC) as Hd by (apply Z.div_pos; [done|unfold NANOS_PER_SEC; lia]).
  assert (0 < TAI64_BASE) by done.
  pose proof (Z.mod_pos_bound elapsed NANOS_PER_SEC ltac:(done)) as Hm.
  assert (NANOS_PER_SEC < 2 ^ 32) by done.
  destruct (whiten_bounds (elapsed mod NANOS_PER_SEC)) as [Hw0 Hw1]; [lia|].
  unfold checked_add. rewrite !decide_True by (unfold in_width; unfold base in Hs; lia).
  cbn [mbind option_bind]. rewrite decide_True by (unfold in_width; unfold base in Hs; lia).
  cbn [mbind option_bind]. eexists. split; [done|]. split_and!.
  - by rewrite length_app, !length_to_be_bytes.
  - apply Forall_app. split; apply to_be_bytes_is_bytes.
  - unfold parse, encode. rewrite take_app_length', drop_app_length' by by rewrite length_to_be_bytes.
    rewrite !from_to_be_bytes; [done|unfold in_width; change (8 * Z.of_nat 4) with 32; lia|].
    unfold in_width. change (8 * Z.of_nat 8) with 64. unfold base in Hs. lia.
Qed.

Lemma after_spec a b :
  after a b = true ↔ secs b < secs a ∨ (secs a = secs b ∧ nano b < nano a).
Proof.
  unfold after. rewrite orb_true_iff, andb_true_iff, !Z.ltb_lt, Z.eqb_eq. done.
Qed.

Lemma encode_after base x y :
  0 ≤ x → 0 ≤ y → (after (encode base y) (encode base x) = true → x < y) ∧
  (x + 2 ^ 24 ≤ y → after (encode base y) (encode base x) = true).
Proof.
  intros Hx Hy. rewrite after_spec. unfold encode. cbn [secs nano].
  pose proof (Z.mod_pos_bound x NANOS_PER_SEC ltac:(done)) as Hmx.
  pose proof (Z.mod_pos_bound y NANOS_PER_SEC ltac:(done)) as Hmy.
  assert (NANOS_PER_SEC < 2 ^ 32) by done.
  rewrite !whiten_div by lia.
  pose proof (Z.div_mod x NANOS_PER_SEC ltac:(done)). pose proof (Z.div_mod y NANOS_PER_SEC ltac:(done)).
  set (qx := x / NANOS_PER_SEC) in *. set (qy := y / NANOS_PER_SEC) in *.
  set (rx := x mod NANOS_PER_SEC) in *. set (ry := y mod NANOS_PER_SEC) in *.
  unfold NANOS_PER_SEC in *. change (2 ^ 24) with 16777216 in *.
  pose proof (Z.div_mod rx 16777216 ltac:(done)). pose proof (Z.div_mod ry 16777216 ltac:(done)).
  pose proof (Z.mod_pos_bound rx 16777216 ltac:(done)).
  pose proof (Z.mod_pos_bound ry 16777216 ltac:(done)).
  split; [intros [?|[? ?]]; lia|]. intros Hxy. destruct (decide (qx = qy)) as [Heq|Hne]; [right|left]; lia.
Qed.

(** [after] orders timestamps strictly: it is irreflexive, transitive and
    total on distinct timestamps, so that a stored greatest timestamp rejects
    every replay. *)
Theorem after_strict_order (a b c : tai64n) :
  after a a = false ∧ (after a b = true → after b c = true → after a c = true) ∧
  (after a b = false → after b a = false → a = b).
Proof.
  split_and!.
  - apply not_true_is_false. rewrite after_spec. lia.
  - rewrite !after_spec. lia.
  - intros H1%not_true_iff_false H2%not_true_iff_false. rewrite after_spec in H1, H2.
    destruct a, b; cbn [secs nano] in *. f_equal; lia.
Qed.

Lemma after_strict_order_witness :
  after (Tai64N 2 0) (Tai64N 1 5) = true ∧ after (Tai64N 1 5) (Tai64N 1 0) = true ∧
  after (Tai64N 2 0) (Tai64N 1 0) = true.
Proof.
  split; [reflexivity|]. split; [reflexivity|].
  apply (proj1 (proj2 (after_strict_order (Tai64N 2 0) (Tai64N 1 5) (Tai64N 1 0)))); reflexivity.
Defined.

(** [stamp] before the u64 overflow yields twelve bytes that parse back to
    the clock's seconds and whitened nanoseconds; timestamps never run
    backwards with the clock, and two taken at least 2^24 ns apart are
    strictly ordered. *)
Theorem stamp_monotone (ts : time_stamper) (now1 now2 : Z) :
  0 ≤ unix_time_secs_at_start ts → instant_at_start ts ≤ now1 ≤ now2 →
  TAI64_BASE + unix_time_secs_at_start ts + (now2 - instant_at_start ts) / NANOS_PER_SEC < 2 ^ 64 →
  ∃ b1 b2, stamp ts now1 = Some b1 ∧ stamp ts now2 = Some b2 ∧
    length b1 = 12%nat ∧ length b2 = 12%nat ∧
    after (parse b1) (parse b2) = false ∧
    (now1 + 2 ^ 24 ≤ now2 → after (parse b2) (parse b1) = true).
Proof.
  intros Hu Hn Hs.
  assert (duration_since now2 (instant_at_start ts) = now2 - instant_at_start ts) as E2
    by (unfold duration_since; lia).
  assert (duration_since now1 (instant_at_start ts) = now1 - instant_at_start ts) as E1
    by (unfold duration_since; lia).
  destruct (stamp_parse ts now1 Hu) as (b1 & -> & Hl1 & _ & Hp1).
  { rewrite E1. eapply Z.le_lt_trans; [|exact Hs]. apply Zplus_le_compat_l, Z.div_le_mono; [done|lia]. }
  destruct (stamp_parse ts now2 Hu) as (b2 & -> & Hl2 & _ & Hp2); [by rewrite E2|].
  exists b1, b2. split_and!; [done|done|done|done| |].
  - rewrite Hp1, Hp2, E1, E2. apply not_true_is_false. intros Ha.
    apply (encode_after (TAI64_BASE + unix_time_secs_at_start ts)
      (now2 - instant_at_start ts) (now1 - instant_at_start ts)) in Ha; lia.
  - intros Hfar. rewrite Hp1, Hp2, E1, E2. apply encode_after; lia.
Qed.

Lemma stamp_monotone_witness :
  let ts := time_stamper_new 0 1700000000 in
  0 ≤ unix_time_secs_at_start ts ∧ instant_at_start ts ≤ 1 ≤ 999999999 ∧
  TAI64_BASE + unix_time_secs_at_start ts + (999999999 - instant_at_start ts) / NANOS_PER_SEC < 2 ^ 64 ∧
  ∃ b1 b2, stamp ts 1 = Some b1 ∧ stamp ts 999999999 = Some b2 ∧
    length b1 = 12%nat ∧ length b2 = 12%nat ∧
    after (parse b1) (parse b2) = false ∧
    (1 + 2 ^ 24 ≤ 999999999 → after (parse b2) (parse b1) = true).
Proof.
  intros ts.
  assert (0 ≤ unix_time_secs_at_start ts) as H1 by (vm_compute; congruence).
  assert (instant_at_start ts ≤ 1 ≤ 999999999) as H2 by (split; vm_compute; congruence).
  assert (TAI64_BASE + unix_time_secs_at_start ts + (999999999 - instant_at_start ts) / NANOS_PER_SEC
    < 2 ^ 64) as H3 by (vm_compute; reflexivity).
  split; [exact H1|]. split; [exact H2|]. split; [exact H3|].
  exact (stamp_monotone ts 1 999999999 H1 H2 H3).
Defined.
