(* ===== verification/Wire.v ===== *)
(** * Wire messages: [tendrilix/src/noise/mod.rs] (constants, [Packet],
    [parse_incoming_packet]) and [noise/errors.rs]

    The parser reads untrusted datagrams. The outer option of
    [parse_incoming_packet] is the slice panic of the source, proved
    unreachable. *)

From S2P Require Import Prelude.

Inductive wireguard_error : Type :=
  | DestinationBufferTooSmall
  | UnexpectedPacket
  | WrongIndex
  | WrongKey
  | WrongTimestamp
  | InvalidMac
  | InvalidAeadTag
  | InvalidCounter
  | DuplicateCounter
  | InvalidPacket
  | NoCurrentSession
  | ConnectionExpired
  | UnderLoad.

Definition HANDSHAKE_INIT : Z := 1.
Definition HANDSHAKE_RESP : Z := 2.
Definition COOKIE_REPLY : Z := 3.
Definition DATA : Z := 4.
Definition RELAY_DATA : Z := 5.

Definition HANDSHAKE_INIT_SZ : nat := 148.
Definition HANDSHAKE_RESP_SZ : nat := 92.
Definition COOKIE_REPLY_SZ : nat := 64.
Definition DATA_OVERHEAD_SZ : nat := 32.

Record handshake_init := HandshakeInit {
  init_sender_idx : Z;
  init_unencrypted_ephemeral : bytes;
  encrypted_static : bytes;
  encrypted_timestamp : bytes
}.

Record handshake_response := HandshakeResponse {
  resp_sender_idx : Z;
  resp_receiver_idx : Z;
  resp_unencrypted_ephemeral : bytes;
  encrypted_nothing : bytes
}.

Record cookie_reply := CookieReply {
  cookie_receiver_idx : Z;
  cookie_nonce : bytes;
  encrypted_cookie : bytes
}.

Record data := Data {
  data_receiver_idx : Z;
  counter : Z;
  encrypted_encapsulated_packet : bytes
}.

Inductive packet : Type :=
  | PHandshakeInit (p : handshake_init)
  | PHandshakeResponse (p : handshake_response)
  | PCookieReply (p : cookie_reply)
  | PData (p : data)
  | PRelayData (p : data).

(** [TunnResult]: slices are the bytes they hold. *)
Inductive tunn_result : Type :=
  | Done
  | TunnErr (e : wireguard_error)
  | WriteToNetwork (packet : bytes)
  | WriteToInterfaceV4 (packet : bytes) (addr : Z)
  | WriteToInterfaceV6 (packet : bytes) (addr : Z).

(** [u32::from_le_bytes(src[off..off + 4].try_into().unwrap())] *)
Definition read_u32 (off : nat) (src : bytes) : option Z :=
  from_le_bytes <$> get_range off (off + 4) src.

Definition read_u64 (off : nat) (src : bytes) : option Z :=
  from_le_bytes <$> get_range off (off + 8) src.

Definition parse_data (src : bytes) : option data :=
  let! receiver_idx := read_u32 4 src in
  let! counter := read_u64 8 src in
  let! payload := get_range 16 (length src) src in
  Some (Data receiver_idx counter payload).

Definition parse_incoming_packet (src : bytes) : option (result packet wireguard_error) :=
  if (length src <? 4)%nat then Some (Err InvalidPacket)
  else
    let! packet_type := read_u32 0 src in
    let len := length src in
    if (packet_type =? HANDSHAKE_INIT) && (len =? HANDSHAKE_INIT_SZ)%nat then
      let! sender_idx := read_u32 4 src in
      let! ephemeral := get_range 8 40 src in
      let! static := get_range 40 88 src in
      let! timestamp := get_range 88 116 src in
      Some (Ok (PHandshakeInit (HandshakeInit sender_idx ephemeral static timestamp)))
    else if (packet_type =? HANDSHAKE_RESP) && (len =? HANDSHAKE_RESP_SZ)%nat then
      let! sender_idx := read_u32 4 src in
      let! receiver_idx := read_u32 8 src in
      let! ephemeral := get_range 12 44 src in
      let! nothing := get_range 44 60 src in
      Some (Ok (PHandshakeResponse (HandshakeResponse sender_idx receiver_idx ephemeral nothing)))
    else if (packet_type =? COOKIE_REPLY) && (len =? COOKIE_REPLY_SZ)%nat then
      let! receiver_idx := read_u32 4 src in
      let! nonce := get_range 8 32 src in
      let! cookie := get_range 32 64 src in
      Some (Ok (PCookieReply (CookieReply receiver_idx nonce cookie)))
    else if (packet_type =? DATA) && (DATA_OVERHEAD_SZ <=? len)%nat then
      let! p := parse_data src in Some (Ok (PData p))
    else if (packet_type =? RELAY_DATA) && (DATA_OVERHEAD_SZ <=? len)%nat then
      let! p := parse_data src in Some (Ok (PRelayData p))
    else Some (Err InvalidPacket).

(** ** The message layouts *)

(** The bytes a packet is read from; [mac] is the part the parser skips. *)
Definition encode_packet (p : packet) (mac : bytes) : bytes :=
  match p with
  | PHandshakeInit p =>
      to_le_bytes 4 HANDSHAKE_INIT ++ to_le_bytes 4 (init_sender_idx p) ++
      init_unencrypted_ephemeral p ++ encrypted_static p ++ encrypted_timestamp p ++ mac
  | PHandshakeResponse p =>
      to_le_bytes 4 HANDSHAKE_RESP ++ to_le_bytes 4 (resp_sender_idx p) ++
      to_le_bytes 4 (resp_receiver_idx p) ++ resp_unencrypted_ephemeral p ++
      encrypted_nothing p ++ mac
  | PCookieReply p =>
      to_le_bytes 4 COOKIE_REPLY ++ to_le_bytes 4 (cookie_receiver_idx p) ++
      cookie_nonce p ++ encrypted_cookie p
  | PData p =>
      to_le_bytes 4 DATA ++ to_le_bytes 4 (data_receiver_idx p) ++
      to_le_bytes 8 (counter p) ++ encrypted_encapsulated_packet p
  | PRelayData p =>
      to_le_bytes 4 RELAY_DATA ++ to_le_bytes 4 (data_receiver_idx p) ++
      to_le_bytes 8 (counter p) ++ encrypted_encapsulated_packet p
  end.

Definition data_ok (p : data) : Prop :=
  in_width 32 (data_receiver_idx p) ∧ in_width 64 (counter p) ∧
  (16 ≤ length (encrypted_encapsulated_packet p))%nat.

Definition packet_ok (p : packet) (mac : bytes) : Prop :=
  match p with
  | PHandshakeInit p =>
      in_width 32 (init_sender_idx p) ∧ length (init_unencrypted_ephemeral p) = 32%nat ∧
      length (encrypted_static p) = 48%nat ∧ length (encrypted_timestamp p) = 28%nat ∧
      length mac = 32%nat
  | PHandshakeResponse p =>
      in_width 32 (resp_sender_idx p) ∧ in_width 32 (resp_receiver_idx p) ∧
      length (resp_unencrypted_ephemeral p) = 32%nat ∧ length (encrypted_nothing p) = 16%nat ∧
      length mac = 32%nat
  | PCookieReply p =>
      in_width 32 (cookie_receiver_idx p) ∧ length (cookie_nonce p) = 24%nat ∧
      length (encrypted_cookie p) = 32%nat ∧ mac = []
  | PData p => data_ok p ∧ mac = []
  | PRelayData p => data_ok p ∧ mac = []
  end.

(** ** Parsing *)

(** Solves the length conditions of field reads. *)
Ltac field_lengths :=
  unfold HANDSHAKE_INIT_SZ, HANDSHAKE_RESP_SZ, COOKIE_REPLY_SZ, DATA_OVERHEAD_SZ;
  rewrite ?length_app, ?length_to_le_bytes, ?length_to_be_bytes;
  repeat match goal with H : length _ = _ |- _ => rewrite H end; cbn [length]; lia.

(** Reads the fields of a concatenation one after the other. *)
Ltac read_fields :=
  repeat first
    [ rewrite get_range_head by field_lengths
    | rewrite get_range_all by field_lengths
    | rewrite get_range_skip by field_lengths;
      rewrite ?length_to_le_bytes, ?length_to_be_bytes;
      repeat match goal with H : length _ = _ |- _ => rewrite H end; cbn [Nat.sub Nat.add] ];
  cbn [fmap option_fmap option_map mbind option_bind].

(** The message type and the lengths that select a branch of the parser. *)
Ltac select_branch :=
  unfold parse_incoming_packet, read_u32, read_u64;
  rewrite (proj2 (Nat.ltb_ge _ 4)) by field_lengths; read_fields;
  rewrite from_to_le_bytes by done;
  rewrite ?(proj2 (Z.eqb_neq _ _)) by done; rewrite ?Z.eqb_refl; cbn [andb];
  first [ rewrite (proj2 (Nat.eqb_eq _ _)) by field_lengths
        | rewrite (proj2 (Nat.leb_le _ _)) by field_lengths ];
  cbn [mbind option_bind]; read_fields.

Lemma parse_data_encode t r c d :
  data_ok (Data r c d) →
  parse_data (to_le_bytes 4 t ++ to_le_bytes 4 r ++ to_le_bytes 8 c ++ d) = Some (Data r c d).
Proof.
  intros (Hr & Hc & Hd). cbn in Hr, Hc. unfold parse_data, read_u32, read_u64.
  rewrite !length_app, !length_to_le_bytes. read_fields.
  rewrite !from_to_le_bytes by done. by read_fields.
Qed.

Lemma parse_encode p mac : packet_ok p mac → parse_incoming_packet (encode_packet p mac) = Some (Ok p).
Proof.
  destruct p as [[s e st ts]|[s r e n]|[r n c]|[r c d]|[r c d]]; intros Hok; cbn in Hok;
    cbn [encode_packet init_sender_idx init_unencrypted_ephemeral encrypted_static
      encrypted_timestamp resp_sender_idx resp_receiver_idx resp_unencrypted_ephemeral
      encrypted_nothing cookie_receiver_idx cookie_nonce encrypted_cookie data_receiver_idx
      counter encrypted_encapsulated_packet].
  - destruct Hok as (Hs & He & Hst & Hts & Hm). select_branch. by rewrite from_to_le_bytes.
  - destruct Hok as (Hs & Hr & He & Hn & Hm). select_branch. by rewrite !from_to_le_bytes.
  - destruct Hok as (Hr & Hn & Hc & ->). select_branch. by rewrite from_to_le_bytes.
  - destruct Hok as [Hok ->]. pose proof Hok as (_ & _ & Hd). cbn in Hd. select_branch.
    by rewrite (parse_data_encode DATA).
  - destruct Hok as [Hok ->]. pose proof Hok as (_ & _ & Hd). cbn in Hd. select_branch.
    by rewrite (parse_data_encode RELAY_DATA).
Qed.

Lemma read_u32_Some off src :
  (off + 4 ≤ length src)%nat → read_u32 off src = Some (from_le_bytes (slice off (off + 4) src)).
Proof. intros. unfold read_u32. by rewrite get_range_Some by lia. Qed.

Lemma read_u64_Some off src :
  (off + 8 ≤ length src)%nat → read_u64 off src = Some (from_le_bytes (slice off (off + 8) src)).
Proof. intros. unfold read_u64. by rewrite get_range_Some by lia. Qed.

(** Cuts a buffer into the slices at the given boundaries. *)
Lemma cut src : src = slice 0 (length src) src.
Proof. unfold slice. by rewrite drop_0, Nat.sub_0_r, firstn_all. Qed.

Lemma cut_at a b src : (a ≤ b)%nat → drop a src = slice a b src ++ drop b src.
Proof. apply drop_slice. Qed.

Lemma parse_data_sound src :
  is_bytes src → (DATA_OVERHEAD_SZ ≤ length src)%nat →
  ∃ p, parse_data src = Some p ∧ data_ok p ∧
    drop 4 src = to_le_bytes 4 (data_receiver_idx p) ++ to_le_bytes 8 (counter p) ++
      encrypted_encapsulated_packet p.
Proof.
  unfold DATA_OVERHEAD_SZ. intros Hb Hl. unfold parse_data.
  rewrite read_u32_Some, read_u64_Some by lia. cbn [mbind option_bind].
  rewrite get_range_Some by lia. cbn [mbind option_bind]. eexists. split; [done|].
  destruct (le_bytes_slice 4 4 src) as [E1 W1]; [done|lia|].
  destruct (le_bytes_slice 8 8 src) as [E2 W2]; [done|lia|].
  unfold data_ok. cbn [data_receiver_idx counter encrypted_encapsulated_packet].
  split; [split_and!; [done|done|rewrite length_slice; lia]|].
  rewrite E1, E2, (cut_at 4 8), (cut_at 8 16), (cut_at 16 (length src)) by lia.
  by rewrite drop_all, app_nil_r.
Qed.

(** The type field and the rest of a message. *)
Lemma message_type src t :
  is_bytes src → (4 ≤ length src)%nat → from_le_bytes (slice 0 4 src) = t →
  src = to_le_bytes 4 t ++ drop 4 src.
Proof.
  intros Hb Hl <-. destruct (le_bytes_slice 0 4 src) as [E _]; [done|lia|]. cbn [Nat.add] in E.
  rewrite E. rewrite <- (cut_at 0 4) by lia. done.
Qed.

(** Evaluates the field reads of a branch and names the bytes they return. *)
Ltac read_branch src Hb :=
  repeat first
    [ rewrite read_u32_Some by lia | rewrite read_u64_Some by lia
    | rewrite get_range_Some by lia ]; cbn [mbind option_bind Nat.add].

Ltac packet_fields :=
  cbn [packet_ok encode_packet init_sender_idx init_unencrypted_ephemeral encrypted_static
      encrypted_timestamp resp_sender_idx resp_receiver_idx resp_unencrypted_ephemeral
      encrypted_nothing cookie_receiver_idx cookie_nonce encrypted_cookie data_receiver_idx
      counter encrypted_encapsulated_packet].

Lemma parse_total src :
  is_bytes src →
  ∃ r, parse_incoming_packet src = Some r ∧
  match r with
  | Ok p => ∃ mac, packet_ok p mac ∧ src = encode_packet p mac
  | Err e => e = InvalidPacket
  end.
Proof.
  intros Hb. unfold parse_incoming_packet.
  destruct (Nat.ltb_spec (length src) 4) as [|Hl]; [by eexists|].
  rewrite (read_u32_Some 0) by lia. cbn [mbind option_bind Nat.add].
  pose proof (λ t, message_type src t Hb Hl) as Hty.
  unfold HANDSHAKE_INIT_SZ, HANDSHAKE_RESP_SZ, COOKIE_REPLY_SZ.
  destruct (_ && (_ =? 148)%nat) eqn:E1.
  { apply andb_prop in E1 as [Ht%Z.eqb_eq Hs%Nat.eqb_eq]. specialize (Hty _ Ht). read_branch src Hb.
    eexists. split; [done|]. exists (drop 116 src).
    destruct (le_bytes_slice 4 4 src) as [E W]; [done|lia|]. cbn [Nat.add] in *. packet_fields. split.
    - split_and!; [done|rewrite ?length_slice, ?length_drop; lia..].
    - rewrite Hty at 1. f_equal.
      by rewrite E, <- (cut_at 88 116), <- (cut_at 40 88), <- (cut_at 8 40), <- (cut_at 4 8) by lia. }
  destruct (_ && (_ =? 92)%nat) eqn:E2.
  { apply andb_prop in E2 as [Ht%Z.eqb_eq Hs%Nat.eqb_eq]. specialize (Hty _ Ht). read_branch src Hb.
    eexists. split; [done|]. exists (drop 60 src).
    destruct (le_bytes_slice 4 4 src) as [E W]; [done|lia|].
    destruct (le_bytes_slice 8 4 src) as [E' W']; [done|lia|]. cbn [Nat.add] in *. packet_fields. split.
    - split_and!; [done|done|rewrite ?length_slice, ?length_drop; lia..].
    - rewrite Hty at 1. f_equal.
      by rewrite E, E', <- (cut_at 44 60), <- (cut_at 12 44), <- (cut_at 8 12), <- (cut_at 4 8) by lia. }
  destruct (_ && (_ =? 64)%nat) eqn:E3.
  { apply andb_prop in E3 as [Ht%Z.eqb_eq Hs%Nat.eqb_eq]. specialize (Hty _ Ht). read_branch src Hb.
    eexists. split; [done|]. exists [].
    destruct (le_bytes_slice 4 4 src) as [E W]; [done|lia|]. cbn [Nat.add] in *. packet_fields. split.
    - split_and!; [done|rewrite ?length_slice; lia..|done].
    - rewrite Hty at 1. f_equal. rewrite E, (cut_at 4 8), (cut_at 8 32), (cut_at 32 64) by lia.
      by rewrite drop_ge, app_nil_r by lia. }
  destruct ((_ =? DATA) && _) eqn:E4.
  { apply andb_prop in E4 as [Ht%Z.eqb_eq Hs%Nat.leb_le]. specialize (Hty _ Ht).
    destruct (parse_data_sound src Hb Hs) as (p & -> & Hok & Hd). cbn [mbind option_bind].
    eexists. split; [done|]. exists []. split; [done|]. cbn [encode_packet]. by rewrite <- Hd. }
  destruct ((_ =? RELAY_DATA) && _) eqn:E5; [|by eexists].
  apply andb_prop in E5 as [Ht%Z.eqb_eq Hs%Nat.leb_le]. specialize (Hty _ Ht).
  destruct (parse_data_sound src Hb Hs) as (p & -> & Hok & Hd). cbn [mbind option_bind].
  eexists. split; [done|]. exists []. split; [done|]. cbn [encode_packet]. by rewrite <- Hd.
Qed.

(** C17: [parse_incoming_packet] never panics on received bytes, and it accepts
    exactly the wire encodings: whatever it accepts is the encoding of the
    packet it returns, with every field of its width and length, every
    well-formed packet's encoding is accepted as that packet, and the only
    error is [InvalidPacket]. *)
Theorem parse_incoming_packet_exact (src : bytes) :
  is_bytes src →
  ∃ r, parse_incoming_packet src = Some r ∧
  (∀ p, r = Ok p ↔ ∃ mac, packet_ok p mac ∧ src = encode_packet p mac) ∧
  (∀ e, r = Err e → e = InvalidPacket).
Proof.
  intros Hb. destruct (parse_total src Hb) as (r & Hr & Hp). exists r. split_and!; [done| |].
  - intros p. split; [intros ->; done|]. intros (mac & Hok & ->).
    rewrite parse_encode in Hr by done. congruence.
  - by intros e ->.
Qed.

Lemma parse_incoming_packet_exact_witness :
  let src := to_le_bytes 4 DATA ++ to_le_bytes 4 7 ++ to_le_bytes 8 9 ++ repeat 0 16 in
  is_bytes src ∧
  ∃ r, parse_incoming_packet src = Some r ∧
  (∀ p, r = Ok p ↔ ∃ mac, packet_ok p mac ∧ src = encode_packet p mac) ∧
  (∀ e, r = Err e → e = InvalidPacket).
Proof.
  intros src. assert (is_bytes src) as Hb by (repeat constructor; vm_compute; congruence).
  split; [exact Hb|]. exact (parse_incoming_packet_exact src Hb).
Defined.
