(* ===== verification/Relay.v ===== *)
(** * Relay envelopes: [tendrilix/src/noise/relay.rs] and [authz.rs]

    A relay envelope is a mutable buffer with the length of the packet it
    carries. Buffers are byte lists; a slice of the source that could panic is
    an option, proved to be [Some] where the checks before it hold. A public key
    is its 32 bytes ([PublicKey::from] and [as_bytes] of x25519-dalek). *)

From S2P Require Import Prelude Wire.

Definition ENVELOPE_VERSION : Z := 0x01.
Definition DEFAULT_HOP_LIMIT : Z := 8.
Definition ENVELOPE_HEADER_SIZE : nat := 36.
Definition ENVELOPE_VERSION_OFFSET : nat := 0.
Definition ENVELOPE_HOP_LIMIT_OFFSET : nat := 1.
Definition ENVELOPE_INNER_LEN_OFFSET : nat := 2.
Definition ENVELOPE_INNER_LEN_SIZE : nat := 2.
Definition ENVELOPE_DESTINATION_OFFSET : nat := 4.

Inductive error : Type :=
  | BufferTooSmall
  | TooShort
  | UnsupportedVersion (version : Z)
  | HopLimitExhausted
  | InnerPacketTooLarge
  | TooShortForType
  | InvalidMessageType (message_type : Z).

Module Envelope.
Record envelope := Envelope { buf : bytes; inner_len : nat }.

(** [bytes] is [src]; the outer option is a slice panic. *)
Definition parse (src : bytes) : option (result envelope error) :=
  if (length src <? ENVELOPE_HEADER_SIZE)%nat then Some (Err TooShort)
  else
    let! version := src !! ENVELOPE_VERSION_OFFSET in
    if negb (version =? ENVELOPE_VERSION) then Some (Err (UnsupportedVersion version))
    else
      let! hop_limit := src !! ENVELOPE_HOP_LIMIT_OFFSET in
      if hop_limit =? 0 then Some (Err HopLimitExhausted)
      else
        let! len_bytes := get_range ENVELOPE_INNER_LEN_OFFSET
          (ENVELOPE_INNER_LEN_OFFSET + ENVELOPE_INNER_LEN_SIZE) src in
        let inner_len := Z.to_nat (from_le_bytes len_bytes) in
        if (length src <? ENVELOPE_HEADER_SIZE + inner_len)%nat then Some (Err TooShort)
        else Some (Ok (Envelope src inner_len)).

Definition destination (e : envelope) : option bytes :=
  get_range ENVELOPE_DESTINATION_OFFSET ENVELOPE_HEADER_SIZE (buf e).

Definition inner_packet (e : envelope) : option bytes :=
  get_range ENVELOPE_HEADER_SIZE (ENVELOPE_HEADER_SIZE + inner_len e) (buf e).

Definition decrement_hop_limit (e : envelope) : option (result unit error * envelope) :=
  let! hop_limit := buf e !! ENVELOPE_HOP_LIMIT_OFFSET in
  if hop_limit <=? 1 then Some (Err HopLimitExhausted, e)
  else Some (Ok tt, Envelope (<[ENVELOPE_HOP_LIMIT_OFFSET := hop_limit - 1]> (buf e)) (inner_len e)).
End Envelope.

(** [dst[i] = v]: [None] is the bounds panic. *)
Definition set_byte (i : nat) (v : Z) (dst : bytes) : option bytes :=
  if decide (i < length dst)%nat then Some (<[i := v]> dst) else None.

(** Writes the envelope into [dst]; returns its length and the new buffer. *)
Definition build_envelope (dst destination inner_packet : bytes)
    : option (result nat error * bytes) :=
  if (Z.to_nat u16_max <? length inner_packet)%nat then Some (Err InnerPacketTooLarge, dst)
  else
    let envelope_len := (ENVELOPE_HEADER_SIZE + length inner_packet)%nat in
    if (length dst <? envelope_len)%nat then Some (Err BufferTooSmall, dst)
    else
      let! dst := copy_range 0 ENVELOPE_HEADER_SIZE (repeat 0 ENVELOPE_HEADER_SIZE) dst in
      let! dst := set_byte ENVELOPE_VERSION_OFFSET ENVELOPE_VERSION dst in
      let! dst := set_byte ENVELOPE_HOP_LIMIT_OFFSET DEFAULT_HOP_LIMIT dst in
      let! dst := copy_range ENVELOPE_INNER_LEN_OFFSET
        (ENVELOPE_INNER_LEN_OFFSET + ENVELOPE_INNER_LEN_SIZE)
        (to_le_bytes 2 (Z.of_nat (length inner_packet))) dst in
      let! dst := copy_range ENVELOPE_DESTINATION_OFFSET ENVELOPE_HEADER_SIZE destination dst in
      let! dst := copy_range ENVELOPE_HEADER_SIZE envelope_len inner_packet dst in
      Some (Ok envelope_len, dst).

(** The type and size check before forwarding. *)
Definition validate_inner_packet (inner : bytes) : option (result unit error) :=
  if (length inner <? 4)%nat then Some (Err TooShortForType)
  else
    let! message_type := read_u32 0 inner in
    let len := length inner in
    if (message_type =? HANDSHAKE_INIT) && (len =? HANDSHAKE_INIT_SZ)%nat then Some (Ok tt)
    else if (message_type =? HANDSHAKE_RESP) && (len =? HANDSHAKE_RESP_SZ)%nat then Some (Ok tt)
    else if (message_type =? COOKIE_REPLY) && (len =? COOKIE_REPLY_SZ)%nat then Some (Ok tt)
    else if (message_type =? DATA) && (DATA_OVERHEAD_SZ <=? len)%nat then Some (Ok tt)
    else if (message_type =? HANDSHAKE_INIT) || (message_type =? HANDSHAKE_RESP) ||
            (message_type =? COOKIE_REPLY) || (message_type =? DATA)
    then Some (Err TooShortForType)
    else Some (Err (InvalidMessageType message_type)).

(** ** Forwarding policy *)

(** The [ForwardingAuthorizer] trait. *)
Class forwarding_authorizer (A : Type) :=
  authorize : A → bytes → bytes → bool.

Inductive generic_authorizer : Type := AllowAll | RejectAll.

#[global] Instance generic_authorizer_forwarding : forwarding_authorizer generic_authorizer :=
  λ self _ _, match self with AllowAll => true | RejectAll => false end.

(** ** Envelope layout *)

Definition header (hop_limit : Z) (len : nat) (destination : bytes) : bytes :=
  [ENVELOPE_VERSION; hop_limit] ++ to_le_bytes 2 (Z.of_nat len) ++ destination.

Lemma length_header h n d : length d = 32%nat → length (header h n d) = ENVELOPE_HEADER_SIZE.
Proof. intros Hd. unfold header. by rewrite !length_app, length_to_le_bytes, Hd. Qed.

Lemma parse_header h n d inner post :
  1 ≤ h → Z.of_nat n ≤ u16_max → length d = 32%nat → length inner = n →
  let src := header h n d ++ inner ++ post in
  Envelope.parse src = Some (Ok (Envelope.Envelope src n)) ∧
  Envelope.destination (Envelope.Envelope src n) = Some d ∧
  Envelope.inner_packet (Envelope.Envelope src n) = Some inner.
Proof.
  intros Hh Hn Hd Hi src.
  assert (length src = (ENVELOPE_HEADER_SIZE + n + length post)%nat) as Hlen
    by (unfold src; rewrite !length_app, length_header, Hi by done; lia).
  assert (src = [ENVELOPE_VERSION; h] ++ to_le_bytes 2 (Z.of_nat n) ++ d ++ inner ++ post) as Hsrc
    by (unfold src, header; by rewrite <- !app_assoc).
  split_and!.
  - assert (src !! 0%nat = Some ENVELOPE_VERSION ∧ src !! 1%nat = Some h) as [H0 H1]
      by (by rewrite Hsrc).
    assert (get_range 2 4 src = Some (to_le_bytes 2 (Z.of_nat n))) as H2.
    { rewrite Hsrc. apply get_range_field; by rewrite ?length_to_le_bytes. }
    unfold Envelope.parse, ENVELOPE_VERSION_OFFSET, ENVELOPE_HOP_LIMIT_OFFSET.
    rewrite Hlen. rewrite (proj2 (Nat.ltb_ge _ _)) by lia.
    rewrite H0. cbn [mbind option_bind]. rewrite Z.eqb_refl, H1. cbn [mbind option_bind negb].
    rewrite (proj2 (Z.eqb_neq _ _)) by lia.
    change (get_range _ _ src) with (get_range 2 4 src). rewrite H2. cbn [mbind option_bind].
    rewrite from_to_le_bytes by (split; [lia|unfold u16_max in Hn; change (8 * Z.of_nat 2) with 16; lia]).
    rewrite Nat2Z.id. by rewrite (proj2 (Nat.ltb_ge _ _)) by lia.
  - unfold Envelope.destination. cbn [Envelope.buf]. rewrite Hsrc.
    rewrite app_assoc. apply get_range_field; rewrite length_app, length_to_le_bytes; [done|].
    by rewrite Hd.
  - unfold Envelope.inner_packet. cbn [Envelope.buf Envelope.inner_len]. unfold src.
    apply get_range_field; by rewrite length_header, ?Hi.
Qed.

Lemma build_envelope_ok dst destination inner :
  length destination = 32%nat → Z.of_nat (length inner) ≤ u16_max →
  (ENVELOPE_HEADER_SIZE + length inner ≤ length dst)%nat →
  build_envelope dst destination inner =
    Some (Ok (ENVELOPE_HEADER_SIZE + length inner)%nat,
      header DEFAULT_HOP_LIMIT (length inner) destination ++ inner ++
        drop (ENVELOPE_HEADER_SIZE + length inner) dst).
Proof.
  intros Hd Hi Hl. unfold build_envelope.
  rewrite (proj2 (Nat.ltb_ge _ _)) by (unfold u16_max in *; lia).
  rewrite (proj2 (Nat.ltb_ge _ _)) by lia.
  rewrite <- (take_drop ENVELOPE_HEADER_SIZE dst) at 1.
  set (rest := drop ENVELOPE_HEADER_SIZE dst).
  assert (length (take ENVELOPE_HEADER_SIZE dst) = ENVELOPE_HEADER_SIZE) as Ht
    by (rewrite length_take; lia).
  rewrite (copy_range_field [] (take ENVELOPE_HEADER_SIZE dst) rest)
    by (rewrite ?Ht; reflexivity). cbn [mbind option_bind app].
  unfold set_byte, ENVELOPE_VERSION_OFFSET, ENVELOPE_HOP_LIMIT_OFFSET.
  rewrite decide_True by (cbn; lia). cbn [mbind option_bind].
  rewrite decide_True by (cbn; lia). cbn [mbind option_bind].
  change (<[1%nat:=_]> _) with
    ([ENVELOPE_VERSION; DEFAULT_HOP_LIMIT] ++ [0; 0] ++ repeat 0 32 ++ rest).
  rewrite copy_range_field by (rewrite ?length_to_le_bytes; reflexivity). cbn [mbind option_bind].
  rewrite app_assoc.
  rewrite copy_range_field by (rewrite ?length_app, ?length_to_le_bytes, ?Hd; reflexivity).
  cbn [mbind option_bind].
  rewrite <- (take_drop (length inner) rest).
  assert (length (take (length inner) rest) = length inner) as Hr.
  { unfold rest. rewrite length_take, length_drop. lia. }
  rewrite (app_assoc (_ ++ _)).
  rewrite copy_range_field by
    (rewrite ?length_app, ?length_to_le_bytes, ?Hd, ?Hr; reflexivity).
  cbn [mbind option_bind]. unfold header, rest. rewrite <- !app_assoc, drop_drop.
  done.
Qed.

(** Spending one hop keeps everything else. *)
Lemma decrement_header h n d rest :
  length d = 32%nat →
  Envelope.decrement_hop_limit (Envelope.Envelope (header h n d ++ rest) n) =
    Some (if h <=? 1 then (Err HopLimitExhausted, Envelope.Envelope (header h n d ++ rest) n)
          else (Ok tt, Envelope.Envelope (header (h - 1) n d ++ rest) n)).
Proof.
  intros Hd. unfold Envelope.decrement_hop_limit. cbn -[to_le_bytes]. by destruct (h <=? 1).
Qed.

(** [k] forwarding relays, each parsing the envelope it received and spending a hop. *)
Fixpoint forward (k : nat) (src : bytes) : option (result bytes error) :=
  match k with
  | O => Some (Ok src)
  | S k =>
      let! r := Envelope.parse src in
      match r with
      | Err e => Some (Err e)
      | Ok env =>
          let! '(r, env) := Envelope.decrement_hop_limit env in
          match r with
          | Err e => Some (Err e)
          | Ok _ => forward k (Envelope.buf env)
          end
      end
  end.

Lemma forward_header k h n d inner post :
  1 ≤ h → Z.of_nat n ≤ u16_max → length d = 32%nat → length inner = n →
  forward k (header h n d ++ inner ++ post) =
    Some (if Z.of_nat k <? h then Ok (header (h - Z.of_nat k) n d ++ inner ++ post)
          else Err HopLimitExhausted).
Proof.
  intros Hh Hn Hd Hi. revert h Hh; induction k as [|k IH]; intros h Hh.
  - cbn [forward]. rewrite (proj2 (Z.ltb_lt _ _)) by lia. do 4 f_equal. lia.
  - cbn [forward]. destruct (parse_header h n d inner post) as [-> _]; [done..|].
    cbn [mbind option_bind]. rewrite decrement_header by done. cbn [mbind option_bind].
    destruct (Z.leb_spec h 1).
    + by rewrite (proj2 (Z.ltb_ge _ _)) by lia.
    + cbn [Envelope.buf]. rewrite IH by lia.
      destruct (Z.ltb_spec (Z.of_nat k) (h - 1)), (Z.ltb_spec (Z.of_nat (S k)) h); try lia; [|done].
      do 4 f_equal. lia.
Qed.

Lemma parse_no_panic src : is_Some (Envelope.parse src).
Proof.
  unfold Envelope.parse, ENVELOPE_HEADER_SIZE.
  destruct (Nat.ltb_spec (length src) 36) as [|Hl]; [by eexists|].
  destruct (lookup_byte_Some src ENVELOPE_VERSION_OFFSET) as (v & -> & _);
    [unfold ENVELOPE_VERSION_OFFSET; lia|]. cbn [mbind option_bind].
  destruct (negb _); [by eexists|].
  destruct (lookup_byte_Some src ENVELOPE_HOP_LIMIT_OFFSET) as (h & -> & _);
    [unfold ENVELOPE_HOP_LIMIT_OFFSET; lia|]. cbn [mbind option_bind].
  destruct (_ =? _); [by eexists|].
  rewrite get_range_Some by (unfold ENVELOPE_INNER_LEN_OFFSET, ENVELOPE_INNER_LEN_SIZE; lia).
  cbn [mbind option_bind]. by destruct (_ <? _)%nat; eexists.
Qed.

(** What an accepted envelope allows. *)
Lemma parse_ok src e :
  Envelope.parse src = Some (Ok e) →
  Envelope.buf e = src ∧ (ENVELOPE_HEADER_SIZE + Envelope.inner_len e ≤ length src)%nat.
Proof.
  unfold Envelope.parse. destruct (_ <? _)%nat; [done|].
  destruct (src !! ENVELOPE_VERSION_OFFSET); [|done]. cbn [mbind option_bind]. destruct (negb _); [done|].
  destruct (src !! ENVELOPE_HOP_LIMIT_OFFSET); [|done]. cbn [mbind option_bind]. destruct (_ =? _); [done|].
  destruct (get_range _ _ src) as [b|]; [|done]. cbn [mbind option_bind].
  destruct (Nat.ltb_spec (length src) (ENVELOPE_HEADER_SIZE + Z.to_nat (from_le_bytes b))); [done|].
  by intros [= <-].
Qed.

Lemma parsed_total src e :
  Envelope.parse src = Some (Ok e) →
  (∃ inner, Envelope.inner_packet e = Some inner) ∧ (∃ dest, Envelope.destination e = Some dest) ∧
  ∃ r e', Envelope.decrement_hop_limit e = Some (r, e') ∧ length (Envelope.buf e') = length src.
Proof.
  intros [Hb Hl]%parse_ok. unfold ENVELOPE_HEADER_SIZE in *. split_and!.
  - unfold Envelope.inner_packet, ENVELOPE_HEADER_SIZE. rewrite get_range_Some by (rewrite Hb; lia). by eexists.
  - unfold Envelope.destination, ENVELOPE_DESTINATION_OFFSET, ENVELOPE_HEADER_SIZE.
    rewrite get_range_Some by (rewrite Hb; lia). by eexists.
  - unfold Envelope.decrement_hop_limit.
    destruct (lookup_byte_Some (Envelope.buf e) ENVELOPE_HOP_LIMIT_OFFSET) as (h & -> & _);
      [rewrite Hb; unfold ENVELOPE_HOP_LIMIT_OFFSET; lia|]. cbn [mbind option_bind].
    destruct (_ <=? _); eexists _, _; (split; [done|]); cbn; by rewrite ?length_insert, Hb.
Qed.

Lemma validate_no_panic inner : is_Some (validate_inner_packet inner).
Proof.
  unfold validate_inner_packet. destruct (Nat.ltb_spec (length inner) 4); [by eexists|].
  rewrite read_u32_Some by lia. cbn [mbind option_bind]. by repeat case_match; eexists.
Qed.

(** An envelope built for a destination parses back to that destination
    and inner packet at every relay on its way: after [k] forwards it is
    unchanged except for [k] spent hops, and the hop limit stops it exactly
    after seven forwards, so no routing loop forwards a packet forever. *)
Theorem envelope_forwarding (dst destination inner : bytes) (k : nat) :
  length destination = 32%nat → Z.of_nat (length inner) ≤ u16_max →
  (ENVELOPE_HEADER_SIZE + length inner ≤ length dst)%nat →
  ∃ n dst', build_envelope dst destination inner = Some (Ok n, dst') ∧
  n = (ENVELOPE_HEADER_SIZE + length inner)%nat ∧ length dst' = length dst ∧
  if Z.of_nat k <? DEFAULT_HOP_LIMIT then
    ∃ src env, forward k (take n dst') = Some (Ok src) ∧ Envelope.parse src = Some (Ok env) ∧
      Envelope.destination env = Some destination ∧ Envelope.inner_packet env = Some inner
  else forward k (take n dst') = Some (Err HopLimitExhausted).
Proof.
  intros Hd Hi Hl. eexists _, _. split; [by apply build_envelope_ok|]. split; [done|].
  assert (length (header DEFAULT_HOP_LIMIT (length inner) destination ++ inner) =
    (ENVELOPE_HEADER_SIZE + length inner)%nat) as Hlen by (by rewrite length_app, length_header).
  rewrite app_assoc, take_app_length' by done. split.
  { rewrite length_app, Hlen, length_drop. lia. }
  pose proof (forward_header k DEFAULT_HOP_LIMIT (length inner) destination inner []) as Hf.
  rewrite app_nil_r in Hf. rewrite Hf by done.
  destruct (Z.ltb_spec (Z.of_nat k) DEFAULT_HOP_LIMIT) as [Hk|Hk]; [|done].
  pose proof (parse_header (DEFAULT_HOP_LIMIT - Z.of_nat k) (length inner) destination inner []) as Hp.
  rewrite app_nil_r in Hp. eexists _, _. split; [done|]. apply Hp; [lia|done..].
Qed.

Lemma envelope_forwarding_witness :
  let dst := repeat 0 64 in let destination := repeat 7 32 in let inner := [4; 0; 0; 0] in
  length destination = 32%nat ∧ Z.of_nat (length inner) ≤ u16_max ∧
  (ENVELOPE_HEADER_SIZE + length inner ≤ length dst)%nat ∧
  ∃ n dst', build_envelope dst destination inner = Some (Ok n, dst') ∧
  n = (ENVELOPE_HEADER_SIZE + length inner)%nat ∧ length dst' = length dst ∧
  if Z.of_nat 7 <? DEFAULT_HOP_LIMIT then
    ∃ src env, forward 7 (take n dst') = Some (Ok src) ∧ Envelope.parse src = Some (Ok env) ∧
      Envelope.destination env = Some destination ∧ Envelope.inner_packet env = Some inner
  else forward 7 (take n dst') = Some (Err HopLimitExhausted).
Proof.
  intros dst destination inner.
  assert (length destination = 32%nat) as H1 by reflexivity.
  assert (Z.of_nat (length inner) ≤ u16_max) as H2 by (vm_compute; congruence).
  assert (ENVELOPE_HEADER_SIZE + length inner ≤ length dst)%nat as H3 by (vm_compute; lia).
  split; [exact H1|]. split; [exact H2|]. split; [exact H3|].
  exact (envelope_forwarding dst destination inner 7 H1 H2 H3).
Defined.

(** Follows the reads of an accepting branch of the parser. *)
Ltac accepted Hr :=
  repeat match type of Hr with
    | mbind _ ?o = _ => destruct o; cbn [mbind option_bind] in Hr; [|done]
    end;
  injection Hr as <-; split; [intros _; eexists; by split|done].

(** The relay's check of an inner packet agrees with the parser of the
    destination: it accepts exactly the packets the parser accepts, relay
    data excepted, so no nested envelope and no malformed packet is forwarded. *)
Theorem validate_inner_packet_agrees (inner : bytes) :
  is_bytes inner →
  ∃ v r, validate_inner_packet inner = Some v ∧ parse_incoming_packet inner = Some r ∧
  (v = Ok tt ↔ ∃ p, r = Ok p ∧ ∀ d, p ≠ PRelayData d).
Proof.
  intros Hb. destruct (parse_total inner Hb) as (r & Hr & _).
  unfold validate_inner_packet. rewrite Hr. unfold parse_incoming_packet in Hr.
  destruct (Nat.ltb_spec (length inner) 4) as [|Hl].
  { injection Hr as <-. eexists _, _. split_and!; [done|done|]. split; [done|by intros (p & ? & _)]. }
  rewrite (read_u32_Some 0) in * by lia. cbn [mbind option_bind] in *.
  set (t := from_le_bytes _) in *. clearbody t.
  destruct (_ && (_ =? HANDSHAKE_INIT_SZ)%nat).
  { eexists _, r. split_and!; [done|done|]. accepted Hr. }
  destruct (_ && (_ =? HANDSHAKE_RESP_SZ)%nat).
  { eexists _, r. split_and!; [done|done|]. accepted Hr. }
  destruct (_ && (_ =? COOKIE_REPLY_SZ)%nat).
  { eexists _, r. split_and!; [done|done|]. accepted Hr. }
  destruct ((t =? DATA) && _).
  { eexists _, r. split_and!; [done|done|]. accepted Hr. }
  assert (¬ ∃ p, r = Ok p ∧ ∀ d, p ≠ PRelayData d) as Hrej.
  { intros (p & -> & Hp). destruct (_ && _); [|done].
    destruct (parse_data inner) as [d|]; [|done]. injection Hr as <-. by apply (Hp d). }
  destruct (_ || _); eexists _, r; (split_and!; [done|done|]); by split.
Qed.

Lemma validate_inner_packet_agrees_witness :
  let inner := to_le_bytes 4 RELAY_DATA ++ repeat 0 60 in
  is_bytes inner ∧
  ∃ v r, validate_inner_packet inner = Some v ∧ parse_incoming_packet inner = Some r ∧
  (v = Ok tt ↔ ∃ p, r = Ok p ∧ ∀ d, p ≠ PRelayData d).
Proof.
  intros inner.
  assert (is_bytes inner) as Hb by (repeat constructor; vm_compute; congruence).
  split; [exact Hb|]. exact (validate_inner_packet_agrees inner Hb).
Defined.
