(* ===== verification/PacketPool.v ===== *)
(** * The packet pool: [tendrilix/src/packet_pool.rs] and the size limits of [lib.rs]

    The source has two implementations of one interface, chosen by the [alloc]
    feature: descriptors and payloads on the heap ([Module Heap]), or a fixed
    table of descriptors over one byte arena ([Module Arena]). The interface is
    the class [packet_pool]; what it promises, the class [packet_pool_laws]: a
    pool is a finite map from handles to queued packets. Both implementations
    are proved to be instances, and the pending-packet queue of a tunnel is
    proved against the laws alone.

    In every operation the outer option is a panic ([expect] or an index out of
    range). *)

From S2P Require Import Prelude.

(** ** Sizes *)

Definition PACKET_OVERHEAD : nat := 32.
Definition MTU : nat := 1280.
Definition ENVELOPE_HEADER_SIZE : nat := 36.
Definition MAX_PACKET_SIZE : nat := MTU + 2 * PACKET_OVERHEAD + ENVELOPE_HEADER_SIZE.

Definition MIN_PACKET_POOL_PACKETS : Z := 32.
Definition PACKET_POOL_BYTES_PER_DESCRIPTOR : Z := 32.
Definition MAX_DERIVED_PACKET_POOL_PACKETS : Z := 512.

Definition packet_pool_packets_for_bytes (bytes : Z) : Z :=
  let packets := bytes / PACKET_POOL_BYTES_PER_DESCRIPTOR in
  let packets := if packets <? MIN_PACKET_POOL_PACKETS then MIN_PACKET_POOL_PACKETS else packets in
  if MAX_DERIVED_PACKET_POOL_PACKETS <? packets then MAX_DERIVED_PACKET_POOL_PACKETS else packets.

(** ** The interface *)

(** [PacketHandle]. *)
Abbreviation handle := nat.

(** What the pool stores for a handle. *)
Record queued := Queued {
  q_next : option handle;
  q_queued_at : Z;
  q_type : Z;
  q_data : bytes
}.

Definition set_q_next (n : option handle) (q : queued) : queued :=
  Queued n (q_queued_at q) (q_type q) (q_data q).

Class packet_pool (P : Type) := {
  alloc : Z → bytes → Z → P → option (option handle * P);
  queued_at : P → handle → option Z;
  get : P → handle → option (Z * bytes);
  free : handle → P → option P;
  set_next : handle → option handle → P → option P;
  next : P → handle → option (option handle);
  take_next : handle → P → option (option handle * P)
}.

(** [free_chain], the same loop in both implementations. *)
Fixpoint free_chain `{packet_pool P} (fuel : nat) (head : option handle) (pool : P) : option P :=
  match head with
  | None => Some pool
  | Some h =>
      match fuel with
      | O => None
      | S fuel =>
          let! '(head, pool) := take_next h pool in
          let! pool := free h pool in
          free_chain fuel head pool
      end
  end.

(** What a pool promises: it is a finite map from live handles to packets, and
    it takes a packet exactly when it has room for that many bytes. *)
Class packet_pool_laws (P : Type) `{packet_pool P} := {
  pool_inv : P → Prop;
  live : P → gmap handle queued;
  has_space : P → nat → Prop;
  alloc_law ty d t p : pool_inv p →
    ∃ r p', alloc ty d t p = Some (r, p') ∧ pool_inv p' ∧
      match r with
      | Some h => has_space p (length d) ∧ live p !! h = None ∧ live p' = <[h := Queued None t ty d]> (live p)
      | None => ¬ has_space p (length d) ∧ p' = p
      end;
  queued_at_law p h q : pool_inv p → live p !! h = Some q → queued_at p h = Some (q_queued_at q);
  get_law p h q : pool_inv p → live p !! h = Some q → get p h = Some (q_type q, q_data q);
  free_law p h q : pool_inv p → live p !! h = Some q →
    ∃ p', free h p = Some p' ∧ pool_inv p' ∧ live p' = delete h (live p);
  set_next_law p h q n : pool_inv p → live p !! h = Some q →
    ∃ p', set_next h n p = Some p' ∧ pool_inv p' ∧ live p' = <[h := set_q_next n q]> (live p);
  next_law p h q : pool_inv p → live p !! h = Some q → next p h = Some (q_next q);
  take_next_law p h q : pool_inv p → live p !! h = Some q →
    ∃ p', take_next h p = Some (q_next q, p') ∧ pool_inv p' ∧
      live p' = <[h := set_q_next None q]> (live p)
}.

(** ** Heap storage: the [alloc] feature *)
Module Heap.
Record pool := Pool {
  slots : list (option queued);
  free_list : list nat;
  used_bytes : nat
}.

Section operations.
Context (N BYTES : nat).

Definition new : pool := Pool [] [] 0.

(** [Vec::pop] takes the last element. *)
Definition free_slot (p : pool) : option handle * pool :=
  match last (free_list p) with
  | Some h => (Some h, Pool (slots p) (removelast (free_list p)) (used_bytes p))
  | None => ((if (length (slots p) <? N)%nat then Some (length (slots p)) else None), p)
  end.

Definition alloc (packet_type : Z) (packet : bytes) (queued_at : Z) (p : pool)
    : option (option handle * pool) :=
  if ((MAX_PACKET_SIZE <? length packet) || (BYTES <? used_bytes p + length packet))%nat
  then Some (None, p)
  else
    let '(h, p) := free_slot p in
    match h with
    | None => Some (None, p)
    | Some h =>
        let slot := Queued None queued_at packet_type packet in
        let! slots :=
          if decide (h = length (slots p)) then Some (slots p ++ [Some slot])
          else if decide (h < length (slots p))%nat then Some (<[h := Some slot]> (slots p))
          else None in
        Some (Some h, Pool slots (free_list p) (used_bytes p + length packet))
    end.

Definition slot (p : pool) (h : handle) : option queued :=
  let! s := slots p !! h in s.

Definition queued_at (p : pool) (h : handle) : option Z := q_queued_at <$> slot p h.

Definition get (p : pool) (h : handle) : option (Z * bytes) :=
  let! s := slot p h in Some (q_type s, q_data s).

(** [None] on a dead handle, and on the underflow of [used_bytes]. *)
Definition free (h : handle) (p : pool) : option pool :=
  let! s := slot p h in
  if decide (length (q_data s) ≤ used_bytes p)%nat then
    Some (Pool (<[h := None]> (slots p)) (free_list p ++ [h])
      (used_bytes p - length (q_data s)))
  else None.

Definition set_next (h : handle) (n : option handle) (p : pool) : option pool :=
  let! s := slot p h in
  Some (Pool (<[h := Some (set_q_next n s)]> (slots p)) (free_list p) (used_bytes p)).

Definition next (p : pool) (h : handle) : option (option handle) := q_next <$> slot p h.

Definition take_next (h : handle) (p : pool) : option (option handle * pool) :=
  let! s := slot p h in
  Some (q_next s,
    Pool (<[h := Some (set_q_next None s)]> (slots p)) (free_list p) (used_bytes p)).
End operations.

#[global] Instance heap_packet_pool (N BYTES : nat) : packet_pool pool := {
  PacketPool.alloc := alloc N BYTES;
  PacketPool.queued_at := queued_at;
  PacketPool.get := get;
  PacketPool.free := free;
  PacketPool.set_next := set_next;
  PacketPool.next := next;
  PacketPool.take_next := take_next
}.

Definition slot_bytes (s : option queued) : nat :=
  match s with Some q => length (q_data q) | None => 0 end.

Definition live (p : pool) : gmap handle queued := omap id (map_seq 0 (slots p)).

Record inv (N BYTES : nat) (p : pool) : Prop := {
  inv_free h : h ∈ free_list p ↔ slots p !! h = Some None;
  inv_free_NoDup : NoDup (free_list p);
  inv_used : used_bytes p = sum_list_with slot_bytes (slots p);
  inv_bytes : (used_bytes p ≤ BYTES)%nat;
  inv_slots : (length (slots p) ≤ N)%nat
}.

(** Room for a packet of [n] bytes: within the limits of a packet and of the
    pool, and a free descriptor. *)
Definition has_space (N BYTES : nat) (p : pool) (n : nat) : Prop :=
  (n ≤ MAX_PACKET_SIZE)%nat ∧ (used_bytes p + n ≤ BYTES)%nat ∧ (free_list p ≠ [] ∨ length (slots p) < N)%nat.

Lemma heap_live_lookup p h : live p !! h = slot p h.
Proof.
  unfold live, slot. rewrite lookup_omap, lookup_map_seq_0. by destruct (slots p !! h).
Qed.

Lemma slot_Some p h q : slot p h = Some q ↔ slots p !! h = Some (Some q).
Proof. unfold slot. destruct (slots p !! h); split; cbn; congruence. Qed.

Lemma heap_live_update p p' h q :
  (∀ h', h' ≠ h → slots p' !! h' = slots p !! h') → slots p' !! h = Some (Some q) →
  live p' = <[h := q]> (live p).
Proof.
  intros Hne He. apply map_eq. intros h'. destruct (decide (h' = h)) as [->|Hh].
  - rewrite lookup_insert_eq, heap_live_lookup. by apply slot_Some.
  - rewrite lookup_insert_ne, !heap_live_lookup by done. unfold slot. by rewrite Hne.
Qed.

Section laws.
Context (N BYTES : nat).

Lemma heap_inv_new : inv N BYTES new.
Proof. split; cbn; try lia; [|constructor]. intros h. split; [intros []%not_elem_of_nil|done]. Qed.

(** A live slot is rewritten in place, keeping its payload. *)
Lemma heap_inv_rewrite p h q q' :
  inv N BYTES p → slots p !! h = Some (Some q) → q_data q' = q_data q →
  inv N BYTES (Pool (<[h := Some q']> (slots p)) (free_list p) (used_bytes p)).
Proof.
  intros [Hf Hnd Hu Hb Hs] Hh Hd. split; cbn; [|done| |done|by rewrite length_insert].
  - intros h'. rewrite Hf. destruct (decide (h = h')) as [<-|Hne].
    + rewrite list_lookup_insert_eq by by eapply lookup_lt_Some. rewrite Hh. by split.
    + by rewrite list_lookup_insert_ne.
  - pose proof (sum_list_with_insert slot_bytes (slots p) h _ (Some q') Hh) as Hsum.
    cbn in Hsum. rewrite Hd in Hsum. lia.
Qed.

Lemma heap_alloc_spec ty d t p :
  inv N BYTES p →
  ∃ r p', alloc N BYTES ty d t p = Some (r, p') ∧ inv N BYTES p' ∧
    match r with
    | Some h => has_space N BYTES p (length d) ∧ live p !! h = None ∧
        live p' = <[h := Queued None t ty d]> (live p)
    | None => ¬ has_space N BYTES p (length d) ∧ p' = p
    end.
Proof.
  intros Hinv. pose proof Hinv as [Hf Hnd Hu Hb Hs]. unfold alloc, free_slot, has_space.
  destruct ((_ <? _) || (_ <? _))%nat eqn:Hfull.
  { eexists _, _. split; [done|]. split; [done|]. split; [|done].
    apply orb_true_iff in Hfull as [?%Nat.ltb_lt|?%Nat.ltb_lt]; lia. }
  apply orb_false_iff in Hfull as [Hmax%Nat.ltb_ge Hfull%Nat.ltb_ge].
  destruct (last (free_list p)) as [h|] eqn:Hlast.
  - apply last_Some in Hlast as [l' Hl']. cbn [slots free_list used_bytes].
    assert (slots p !! h = Some None) as Hh.
    { apply Hf. rewrite Hl'. apply elem_of_app. right. by apply list_elem_of_singleton. }
    pose proof (lookup_lt_Some _ _ _ Hh) as Hlt.
    rewrite decide_False by lia. rewrite decide_True by done. cbn [mbind option_bind].
    eexists _, _. split; [done|].
    pose proof (sum_list_with_insert slot_bytes (slots p) h _ (Some (Queued None t ty d)) Hh) as Hsum.
    cbn in Hsum. rewrite Hl', removelast_last.
    rewrite Hl' in Hnd. apply NoDup_app in Hnd as (Hnd & Hdisj & _). split_and!; try done.
    + split; cbn; [|done|lia|lia|by rewrite length_insert]. intros h'.
      destruct (decide (h = h')) as [<-|Hne].
      * rewrite list_lookup_insert_eq by done. split; [|done]. intros Hin.
        destruct (Hdisj _ Hin). by apply list_elem_of_singleton.
      * rewrite list_lookup_insert_ne by done. rewrite <- Hf, Hl', elem_of_app, list_elem_of_singleton.
        naive_solver.
    + left. by destruct l'.
    + rewrite heap_live_lookup. unfold slot. by rewrite Hh.
    + apply heap_live_update; cbn; [|by apply list_lookup_insert_eq].
      intros h' Hne. by rewrite list_lookup_insert_ne.
  - destruct (Nat.ltb_spec (length (slots p)) N) as [Hlt|Hge].
    2: { eexists _, _. split; [done|]. split; [done|]. split; [|done].
         apply last_None in Hlast. intros (_ & _ & [?|?]); [done|lia]. }
    rewrite decide_True by done. cbn [mbind option_bind].
    eexists _, _. split; [done|]. split_and!; [|done|done|by right|..].
    + split; cbn; [|done|rewrite sum_list_with_snoc; cbn; lia|lia|rewrite length_app; cbn; lia].
      intros h'. rewrite Hf. destruct (decide (h' = length (slots p))) as [->|Hne].
      * rewrite lookup_snoc. rewrite (lookup_ge_None_2 (slots p)) by lia. by split.
      * destruct (decide (h' < length (slots p))%nat).
        -- by rewrite lookup_app_l.
        -- rewrite !lookup_ge_None_2; [done|rewrite length_app; cbn; lia|lia].
    + rewrite heap_live_lookup. unfold slot. by rewrite lookup_ge_None_2 by lia.
    + apply heap_live_update; cbn; [|apply lookup_snoc]. intros h' Hne.
      destruct (decide (h' < length (slots p))%nat).
      * by rewrite lookup_app_l.
      * rewrite !lookup_ge_None_2; [done|lia|rewrite length_app; cbn; lia].
Qed.

Lemma heap_free_spec p h q :
  inv N BYTES p → live p !! h = Some q →
  ∃ p', free h p = Some p' ∧ inv N BYTES p' ∧ live p' = delete h (live p).
Proof.
  intros [Hf Hnd Hu Hb Hs] Hq. rewrite heap_live_lookup in Hq. pose proof Hq as Hh.
  apply slot_Some in Hh. unfold free. rewrite Hq. cbn [mbind option_bind].
  pose proof (sum_list_with_insert slot_bytes (slots p) h _ None Hh) as Hsum. cbn in Hsum.
  rewrite decide_True by lia. eexists. split; [done|].
  pose proof (lookup_lt_Some _ _ _ Hh) as Hlt. split.
  - split; cbn; [| |lia|lia|by rewrite length_insert].
    + intros h'. rewrite elem_of_app, list_elem_of_singleton, Hf.
      destruct (decide (h = h')) as [<-|Hne].
      * rewrite list_lookup_insert_eq by done. naive_solver.
      * rewrite list_lookup_insert_ne by done. naive_solver.
    + apply NoDup_app. split_and!; [done| |apply NoDup_singleton].
      intros h' Hin ->%list_elem_of_singleton. apply Hf in Hin. congruence.
  - apply map_eq. intros h'. rewrite heap_live_lookup. unfold slot. cbn [slots].
    destruct (decide (h = h')) as [<-|Hne].
    + by rewrite list_lookup_insert_eq, lookup_delete_eq by done.
    + rewrite list_lookup_insert_ne, lookup_delete_ne, heap_live_lookup by done. done.
Qed.

Lemma heap_set_next_spec p h q n :
  inv N BYTES p → live p !! h = Some q →
  inv N BYTES (Pool (<[h := Some (set_q_next n q)]> (slots p)) (free_list p) (used_bytes p)) ∧
  live (Pool (<[h := Some (set_q_next n q)]> (slots p)) (free_list p) (used_bytes p)) =
    <[h := set_q_next n q]> (live p).
Proof.
  intros Hinv Hq. rewrite heap_live_lookup in Hq. apply slot_Some in Hq. split.
  - by eapply heap_inv_rewrite.
  - apply heap_live_update; cbn; [|by eapply list_lookup_insert_eq, lookup_lt_Some].
    intros h' Hne. by rewrite list_lookup_insert_ne.
Qed.
End laws.

#[global] Program Instance heap_packet_pool_laws (N BYTES : nat) :
    @packet_pool_laws pool (heap_packet_pool N BYTES) := {
  pool_inv := inv N BYTES;
  PacketPool.live := live;
  PacketPool.has_space := has_space N BYTES;
  alloc_law := heap_alloc_spec N BYTES;
  free_law := heap_free_spec N BYTES
}.
Next Obligation. intros N BYTES p h q _ Hq. cbn. unfold queued_at. by rewrite <- heap_live_lookup, Hq. Qed.
Next Obligation. intros N BYTES p h q _ Hq. cbn. unfold get. by rewrite <- heap_live_lookup, Hq. Qed.
Next Obligation.
  intros N BYTES p h q n Hinv Hq. cbn. unfold set_next. rewrite <- heap_live_lookup, Hq.
  eexists. split; [done|]. by apply heap_set_next_spec.
Qed.
Next Obligation. intros N BYTES p h q _ Hq. cbn. unfold next. by rewrite <- heap_live_lookup, Hq. Qed.
Next Obligation.
  intros N BYTES p h q Hinv Hq. cbn. unfold take_next. rewrite <- heap_live_lookup, Hq.
  eexists. split; [done|]. by apply heap_set_next_spec.
Qed.
End Heap.

(** ** Arena storage: without the [alloc] feature *)
Module Arena.
Record packet_slot := PacketSlot {
  s_next : option handle;
  s_offset : nat;
  s_len : nat;
  s_queued_at : Z;
  s_type : Z;
  s_used : bool
}.

Definition slot_new : packet_slot := PacketSlot None 0 0 0 0 false.

Definition set_s_next (n : option handle) (s : packet_slot) : packet_slot :=
  PacketSlot n (s_offset s) (s_len s) (s_queued_at s) (s_type s) (s_used s).

Record pool := Pool {
  slots : list packet_slot;
  arena : bytes
}.

Section operations.
Context (N BYTES : nat).

Definition new : pool := Pool (replicate N slot_new) (replicate BYTES 0).

Fixpoint position (i : nat) (l : list packet_slot) : option handle :=
  match l with
  | [] => None
  | s :: l => if s_used s then position (S i) l else Some i
  end.

Definition free_slot (p : pool) : option handle := position 0 (slots p).

(** The scan of [find_gap]: the end of the first used slot that overlaps
    [start, end). *)
Fixpoint first_overlap (start fin : nat) (l : list packet_slot) : option nat :=
  match l with
  | [] => None
  | s :: l =>
      let slot_start := s_offset s in
      let slot_end := (s_offset s + s_len s)%nat in
      if s_used s && ((start <? slot_end) && (slot_start <? fin))%nat then Some slot_end
      else first_overlap start fin l
  end.

(** The loop of [find_gap]; the outer [None] is running out of fuel. *)
Fixpoint find_gap_loop (fuel start len : nat) (l : list packet_slot) : option (option nat) :=
  match fuel with
  | O => None
  | S fuel =>
      let fin := (start + len)%nat in
      if (BYTES <? fin)%nat then Some None
      else
        match first_overlap start fin l with
        | Some offset => find_gap_loop fuel offset len l
        | None => Some (Some start)
        end
  end.

Definition find_gap (p : pool) (len : nat) : option (option nat) :=
  find_gap_loop (S BYTES) 0 len (slots p).

Definition alloc (packet_type : Z) (packet : bytes) (queued_at : Z) (p : pool)
    : option (option handle * pool) :=
  if ((MAX_PACKET_SIZE <? length packet) || (BYTES <? length packet))%nat
  then Some (None, p)
  else
    match free_slot p with
    | None => Some (None, p)
    | Some h =>
        let! gap := find_gap p (length packet) in
        match gap with
        | None => Some (None, p)
        | Some offset =>
            let! arena := copy_range offset (offset + length packet) packet (arena p) in
            let! _ := slots p !! h in
            let slot := PacketSlot None offset (length packet) queued_at packet_type true in
            Some (Some h, Pool (<[h := slot]> (slots p)) arena)
        end
    end.

Definition queued_at (p : pool) (h : handle) : option Z := s_queued_at <$> slots p !! h.

Definition get (p : pool) (h : handle) : option (Z * bytes) :=
  let! s := slots p !! h in
  let! data := get_range (s_offset s) (s_offset s + s_len s) (arena p) in
  Some (s_type s, data).

Definition free (h : handle) (p : pool) : option pool :=
  let! s := slots p !! h in
  Some (Pool (<[h := PacketSlot None 0 0 (s_queued_at s) (s_type s) false]> (slots p)) (arena p)).

Definition set_next (h : handle) (n : option handle) (p : pool) : option pool :=
  let! s := slots p !! h in
  Some (Pool (<[h := set_s_next n s]> (slots p)) (arena p)).

Definition next (p : pool) (h : handle) : option (option handle) := s_next <$> slots p !! h.

Definition take_next (h : handle) (p : pool) : option (option handle * pool) :=
  let! s := slots p !! h in
  Some (s_next s, Pool (<[h := set_s_next None s]> (slots p)) (arena p)).
End operations.

#[global] Instance arena_packet_pool (N BYTES : nat) : packet_pool pool := {
  PacketPool.alloc := alloc BYTES;
  PacketPool.queued_at := queued_at;
  PacketPool.get := get;
  PacketPool.free := free;
  PacketPool.set_next := set_next;
  PacketPool.next := next;
  PacketPool.take_next := take_next
}.

(** *** Gaps *)

(** The byte range of a used slot meets [start, fin), as the scan tests it. *)
Definition overlaps (start fin : nat) (s : packet_slot) : Prop :=
  s_used s = true ∧ (start < s_offset s + s_len s)%nat ∧ (s_offset s < fin)%nat.

(** A packet of [len] bytes can be placed at [start]. *)
Definition fits (BYTES len : nat) (l : list packet_slot) (start : nat) : Prop :=
  (start + len ≤ BYTES)%nat ∧ ∀ s, s ∈ l → ¬ overlaps start (start + len) s.

(** Room for a packet of [n] bytes: within the limit of a packet, a free
    descriptor, and a gap of the arena. *)
Definition has_space (BYTES : nat) (p : pool) (n : nat) : Prop :=
  (n ≤ MAX_PACKET_SIZE)%nat ∧ (∃ s, s ∈ slots p ∧ s_used s = false) ∧ ∃ o, fits BYTES n (slots p) o.

Section gaps.
Context (BYTES : nat).

Lemma first_overlap_spec start fin l :
  match first_overlap start fin l with
  | Some e => ∃ s, s ∈ l ∧ overlaps start fin s ∧ e = (s_offset s + s_len s)%nat
  | None => ∀ s, s ∈ l → ¬ overlaps start fin s
  end.
Proof.
  induction l as [|s l IH]; cbn [first_overlap]; [by intros s ?%not_elem_of_nil|].
  destruct (s_used s && _) eqn:E.
  - apply andb_prop in E as [Hu [H1%Nat.ltb_lt H2%Nat.ltb_lt]%andb_prop].
    exists s. split_and!; [by left|by split_and!|done].
  - destruct (first_overlap start fin l) as [e|].
    + destruct IH as (s' & Hin & Ho & ->). exists s'. split_and!; [by right|done|done].
    + intros s' [->|Hin]%elem_of_cons (Hu & H1 & H2); [|by apply (IH s' Hin)].
      rewrite Hu in E. apply andb_false_iff in E as [|E]; [done|].
      apply andb_false_iff in E as [?%Nat.ltb_ge|?%Nat.ltb_ge]; lia.
Qed.

(** The loop returns the first position that fits. *)
Lemma find_gap_loop_spec fuel start len l :
  (∀ s, s ∈ l → s_used s = true → (s_offset s + s_len s ≤ BYTES)%nat) →
  (start ≤ BYTES)%nat → (BYTES < fuel + start)%nat →
  (∀ q, (q < start)%nat → ¬ fits BYTES len l q) →
  ∃ r, find_gap_loop BYTES fuel start len l = Some r ∧
  match r with
  | Some o => fits BYTES len l o ∧ ∀ q, (q < o)%nat → ¬ fits BYTES len l q
  | None => ∀ q, ¬ fits BYTES len l q
  end.
Proof.
  intros Hl. revert start; induction fuel as [|fuel IH]; intros start Hs Hf Hno; [lia|].
  cbn [find_gap_loop]. destruct (Nat.ltb_spec BYTES (start + len)) as [Hbig|Hok].
  { eexists. split; [done|]. intros q Hq. destruct (decide (q < start)%nat); [by apply (Hno q)|].
    destruct Hq as [Hq _]. lia. }
  pose proof (first_overlap_spec start (start + len) l) as Hfo.
  destruct (first_overlap start (start + len) l) as [e|].
  - destruct Hfo as (s & Hin & (Hu & H1 & H2) & ->).
    apply IH; [by apply Hl|lia|]. intros q Hq Hfit.
    destruct (decide (q < start)%nat); [by apply (Hno q)|].
    destruct Hfit as [_ Hfit]. apply (Hfit s Hin). split_and!; [done|lia|lia].
  - eexists. split; [done|]. by split.
Qed.
End gaps.

(** *** Invariant *)

Definition view (arena : bytes) (s : packet_slot) : option queued :=
  if s_used s
  then Some (Queued (s_next s) (s_queued_at s) (s_type s)
    (slice (s_offset s) (s_offset s + s_len s) arena))
  else None.

Definition live (p : pool) : gmap handle queued := omap (view (arena p)) (map_seq 0 (slots p)).

(** Used slots lie in the arena and never share a byte. *)
Record inv (N BYTES : nat) (p : pool) : Prop := {
  inv_slots : length (slots p) = N;
  inv_arena : length (arena p) = BYTES;
  inv_range h s : slots p !! h = Some s → s_used s = true → (s_offset s + s_len s ≤ BYTES)%nat;
  inv_disjoint h1 h2 s1 s2 :
    slots p !! h1 = Some s1 → slots p !! h2 = Some s2 → h1 ≠ h2 → s_used s1 = true →
    ¬ overlaps (s_offset s1) (s_offset s1 + s_len s1) s2
}.

Lemma arena_live_lookup p h : live p !! h = (let! s := slots p !! h in view (arena p) s).
Proof. unfold live. rewrite lookup_omap, lookup_map_seq_0. by destruct (slots p !! h). Qed.

Lemma live_Some p h q :
  live p !! h = Some q ↔ ∃ s, slots p !! h = Some s ∧ view (arena p) s = Some q.
Proof.
  rewrite arena_live_lookup. destruct (slots p !! h) as [s|]; cbn; [naive_solver|].
  split; [done|by intros (? & ? & _)].
Qed.

Lemma view_used arena s q : view arena s = Some q → s_used s = true.
Proof. unfold view. by destruct (s_used s). Qed.

Lemma position_spec i l :
  match position i l with
  | Some h => ∃ s, (i ≤ h)%nat ∧ l !! (h - i)%nat = Some s ∧ s_used s = false
  | None => ∀ s, s ∈ l → s_used s = true
  end.
Proof.
  revert i; induction l as [|s l IH]; intros i; cbn [position]; [by intros s ?%not_elem_of_nil|].
  destruct (s_used s) eqn:Hu.
  - specialize (IH (S i)). destruct (position (S i) l) as [h|].
    + destruct IH as (s' & Hle & Hl & Hs'). exists s'. split_and!; [lia| |done].
      by replace (h - i)%nat with (S (h - S i)) by lia.
    + intros s' [->|Hin]%elem_of_cons; [done|]. by apply IH.
  - exists s. by rewrite Nat.sub_diag.
Qed.

(** Writing outside a range does not change it. *)
Lemma slice_write_at a b off data (l : bytes) :
  (a ≤ b)%nat → (off + length data ≤ length l)%nat → (b ≤ length l)%nat →
  ((b ≤ off)%nat ∨ (off + length data ≤ a)%nat ∨ a = b) →
  slice a b (write_at off data l) = slice a b l.
Proof.
  intros Hab Hoff Hb Hd. unfold slice. apply list_eq. intros i.
  destruct (decide (i < b - a)%nat) as [Hi|Hi];
    [|by rewrite !lookup_ge_None_2 by (rewrite length_take; lia)].
  rewrite !lookup_take_lt, !lookup_drop by done. unfold write_at.
  destruct Hd as [Hd|[Hd|Hd]]; [| |lia].
  - rewrite lookup_app_l by (rewrite length_take; lia). by rewrite lookup_take_lt by lia.
  - rewrite lookup_app_r by (rewrite length_take; lia).
    rewrite length_take, Nat.min_l by lia.
    rewrite lookup_app_r by lia. rewrite lookup_drop. f_equal. lia.
Qed.

Lemma slice_write_at_same off data (l : bytes) :
  (off + length data ≤ length l)%nat →
  slice off (off + length data) (write_at off data l) = data.
Proof.
  intros Hoff. unfold write_at. apply slice_app_mid'; rewrite length_take; lia.
Qed.

Section laws.
Context (N BYTES : nat).

Lemma arena_inv_new : inv N BYTES (new N BYTES).
Proof.
  split; cbn; [apply length_replicate|apply length_replicate| |].
  - intros h s Hs. by apply lookup_replicate in Hs as [-> _].
  - intros h1 h2 s1 s2 Hs. by apply lookup_replicate in Hs as [-> _].
Qed.

(** The map of live packets after one slot changed. *)
Lemma arena_live_update p p' h s q :
  slots p' = <[h := s]> (slots p) → (h < length (slots p))%nat →
  view (arena p') s = Some q →
  (∀ h' s', h' ≠ h → slots p !! h' = Some s' → view (arena p') s' = view (arena p) s') →
  live p' = <[h := q]> (live p).
Proof.
  intros Hs Hlt Hv Hother. apply map_eq. intros h'. rewrite arena_live_lookup, Hs.
  destruct (decide (h = h')) as [<-|Hne].
  - by rewrite list_lookup_insert_eq, lookup_insert_eq by done.
  - rewrite list_lookup_insert_ne, lookup_insert_ne, arena_live_lookup by done.
    destruct (slots p !! h') as [s'|] eqn:Hh'; cbn; [|done]. by apply (Hother h').
Qed.

(** Changing links and metadata of a slot, but not its range. *)
Lemma arena_inv_rewrite p h s s' :
  inv N BYTES p → slots p !! h = Some s → s_used s' = s_used s →
  s_offset s' = s_offset s → s_len s' = s_len s →
  inv N BYTES (Pool (<[h := s']> (slots p)) (arena p)).
Proof.
  intros [Hn Ha Hr Hd] Hh Hu Ho Hl.
  assert (∀ k x, <[h := s']> (slots p) !! k = Some x → ∃ y, slots p !! k = Some y ∧
    s_used x = s_used y ∧ s_offset x = s_offset y ∧ s_len x = s_len y) as Hback.
  { intros k x. rewrite list_lookup_insert_Some. intros [(<- & <- & _)|[_ Hk]]; eauto. }
  split; cbn; [by rewrite length_insert|done| |].
  - intros k x (y & Hk & -> & -> & ->)%Hback. by apply Hr with k.
  - intros k1 k2 x1 x2 (y1 & Hk1 & -> & -> & ->)%Hback (y2 & Hk2 & E1 & E2 & E3)%Hback Hne Hu1.
    unfold overlaps. rewrite E1, E2, E3. by apply (Hd k1 k2).
Qed.

Lemma alloc_inv p h s0 off ty d t :
  inv N BYTES p → slots p !! h = Some s0 → s_used s0 = false →
  fits BYTES (length d) (slots p) off →
  let s := PacketSlot None off (length d) t ty true in
  inv N BYTES (Pool (<[h := s]> (slots p)) (write_at off d (arena p))).
Proof.
  intros [Hn Ha Hr Hd] Hh Hu [Hfit Hno] s. split; cbn.
  - by rewrite length_insert.
  - rewrite length_write_at; lia.
  - intros k x. rewrite list_lookup_insert_Some. intros [(<- & <- & _)|[_ Hk]]; [done|].
    by apply Hr with k.
  - intros k1 k2 x1 x2. rewrite !list_lookup_insert_Some.
    intros [(<- & <- & _)|[Hne1 Hk1]] [(<- & <- & _)|[Hne2 Hk2]] Hne Hu1; [done| | |].
    + apply Hno. by eapply list_elem_of_lookup_2.
    + intros (_ & H1 & H2). cbn in H1, H2. apply (Hno x1); [by eapply list_elem_of_lookup_2|].
      split_and!; [done|lia|lia].
    + by apply (Hd k1 k2).
Qed.

Lemma view_write p h off ty d t :
  inv N BYTES p → fits BYTES (length d) (slots p) off →
  (view (write_at off d (arena p)) (PacketSlot None off (length d) t ty true) =
    Some (Queued None t ty d)) ∧
  ∀ s, slots p !! h = Some s → view (write_at off d (arena p)) s = view (arena p) s.
Proof.
  intros [Hn Ha Hr Hd] [Hfit Hno]. split.
  - unfold view. cbn [s_used s_offset s_len s_next s_queued_at s_type].
    by rewrite slice_write_at_same by lia.
  - intros s Hs. unfold view. destruct (s_used s) eqn:Hu; [|done]. do 2 f_equal.
    apply slice_write_at; [lia|lia|rewrite Ha; by apply Hr with h|].
    assert (¬ overlaps off (off + length d) s) as Ho by (by eapply Hno, list_elem_of_lookup_2).
    destruct (decide (s_offset s + s_len s ≤ off)%nat) as [?|Hlt]; [by left|right; left].
    destruct (decide (off + length d ≤ s_offset s)%nat) as [?|Hlt']; [done|].
    exfalso. apply Ho. split_and!; [done|lia|lia].
Qed.

Lemma find_gap_spec p len :
  inv N BYTES p →
  ∃ r, find_gap BYTES p len = Some r ∧
  match r with
  | Some o => fits BYTES len (slots p) o ∧ ∀ q, (q < o)%nat → ¬ fits BYTES len (slots p) q
  | None => ∀ q, ¬ fits BYTES len (slots p) q
  end.
Proof.
  intros Hinv. apply find_gap_loop_spec; [|lia|lia|intros; lia].
  intros s [h Hh]%list_elem_of_lookup Hu. by eapply inv_range.
Qed.

Lemma arena_alloc_spec ty d t p :
  inv N BYTES p →
  ∃ r p', alloc BYTES ty d t p = Some (r, p') ∧ inv N BYTES p' ∧
    match r with
    | Some h => has_space BYTES p (length d) ∧ live p !! h = None ∧
        live p' = <[h := Queued None t ty d]> (live p)
    | None => ¬ has_space BYTES p (length d) ∧ p' = p
    end.
Proof.
  intros Hinv. unfold alloc. destruct ((_ <? _) || (_ <? _))%nat eqn:Hsz.
  { eexists _, _. split; [done|]. split; [done|]. split; [|done]. intros (Hmax & _ & o & Ho & _).
    apply orb_true_iff in Hsz as [?%Nat.ltb_lt|?%Nat.ltb_lt]; lia. }
  apply orb_false_iff in Hsz as [Hmax%Nat.ltb_ge _].
  unfold free_slot. pose proof (position_spec 0 (slots p)) as Hpos.
  destruct (position 0 (slots p)) as [h|].
  2: { eexists _, _. split; [done|]. split; [done|]. split; [|done].
       intros (_ & (s & Hs & Hu) & _). rewrite (Hpos s Hs) in Hu. done. }
  destruct Hpos as (s0 & _ & Hh & Hu). rewrite Nat.sub_0_r in Hh.
  destruct (find_gap_spec p (length d) Hinv) as (gap & -> & Hgap). cbn [mbind option_bind].
  destruct gap as [off|].
  2: { eexists _, _. split; [done|]. split; [done|]. split; [|done]. intros (_ & _ & o & Ho). by apply (Hgap o). }
  destruct Hgap as [Hfit _].
  rewrite copy_range_Some by (destruct Hfit; rewrite ?(inv_arena _ _ _ Hinv); lia).
  cbn [mbind option_bind]. rewrite Hh. cbn [mbind option_bind].
  destruct (view_write p h off ty d t Hinv Hfit) as [Hv _].
  eexists _, _. split; [done|]. split; [by eapply alloc_inv|]. split; [|split].
  - split; [done|]. split; [|by exists off]. exists s0. split; [by eapply list_elem_of_lookup_2|done].
  - rewrite arena_live_lookup, Hh. cbn. unfold view. by rewrite Hu.
  - eapply arena_live_update; [done|by eapply lookup_lt_Some|exact Hv|].
    intros h' s' _ Hs'. by apply (view_write p h' off ty d t Hinv Hfit).
Qed.

Lemma arena_free_spec p h q :
  inv N BYTES p → live p !! h = Some q →
  ∃ p', free h p = Some p' ∧ inv N BYTES p' ∧ live p' = delete h (live p).
Proof.
  intros [Hn Ha Hr Hd] Hq. apply live_Some in Hq as (s & Hh & _). unfold free. rewrite Hh.
  cbn [mbind option_bind]. pose proof (lookup_lt_Some _ _ _ Hh) as Hlt.
  eexists. split; [done|]. split; [split; cbn|].
  - by rewrite length_insert.
  - done.
  - intros k x. rewrite list_lookup_insert_Some. intros [(_ & <- & _)|[_ Hk]]; [done|].
    by apply Hr with k.
  - intros k1 k2 x1 x2. rewrite !list_lookup_insert_Some.
    intros [(<- & <- & _)|[Hne1 Hk1]] [(<- & <- & _)|[Hne2 Hk2]] Hne Hu1; [done|done| |].
    + by intros (? & _).
    + by apply (Hd k1 k2).
  - apply map_eq. intros h'. rewrite arena_live_lookup. cbn [slots arena].
    destruct (decide (h = h')) as [<-|Hne].
    + by rewrite list_lookup_insert_eq, lookup_delete_eq by done.
    + by rewrite list_lookup_insert_ne, lookup_delete_ne, arena_live_lookup by done.
Qed.

Lemma arena_set_next_spec p h q s n :
  inv N BYTES p → slots p !! h = Some s → view (arena p) s = Some q →
  inv N BYTES (Pool (<[h := set_s_next n s]> (slots p)) (arena p)) ∧
  live (Pool (<[h := set_s_next n s]> (slots p)) (arena p)) = <[h := set_q_next n q]> (live p).
Proof.
  intros Hinv Hh Hv. split; [by eapply arena_inv_rewrite|].
  eapply arena_live_update; [done|by eapply lookup_lt_Some| |done].
  unfold view in *. cbn. destruct (s_used s); [|done]. by injection Hv as <-.
Qed.
End laws.

#[global] Program Instance arena_packet_pool_laws (N BYTES : nat) :
    @packet_pool_laws pool (arena_packet_pool N BYTES) := {
  pool_inv := inv N BYTES;
  PacketPool.live := live;
  PacketPool.has_space := has_space BYTES;
  alloc_law := arena_alloc_spec N BYTES;
  free_law := arena_free_spec N BYTES
}.
Next Obligation.
  intros N BYTES p h q _ (s & Hh & Hv)%live_Some. cbn. unfold queued_at. rewrite Hh. cbn.
  unfold view in Hv. destruct (s_used s); [|done]. by injection Hv as <-.
Qed.
Next Obligation.
  intros N BYTES p h q Hinv (s & Hh & Hv)%live_Some. cbn. unfold get. rewrite Hh. cbn.
  unfold view in Hv. destruct (s_used s) eqn:Hu; [|done]. injection Hv as <-.
  rewrite get_range_Some; [done|]. rewrite (inv_arena _ _ _ Hinv).
  split; [lia|]. by eapply inv_range.
Qed.
Next Obligation.
  intros N BYTES p h q n Hinv (s & Hh & Hv)%live_Some. cbn. unfold set_next. rewrite Hh. cbn.
  eexists. split; [done|]. by apply arena_set_next_spec.
Qed.
Next Obligation.
  intros N BYTES p h q _ (s & Hh & Hv)%live_Some. cbn. unfold next. rewrite Hh. cbn.
  unfold view in Hv. destruct (s_used s); [|done]. by injection Hv as <-.
Qed.
Next Obligation.
  intros N BYTES p h q Hinv (s & Hh & Hv)%live_Some. cbn. unfold take_next. rewrite Hh. cbn.
  assert (s_next s = q_next q) as ->.
  { unfold view in Hv. destruct (s_used s); [|done]. by injection Hv as <-. }
  eexists. split; [done|]. by apply arena_set_next_spec.
Qed.
End Arena.

(** ** Properties *)

(** First-fit allocation in the arena is sound and complete. It never
    panics or loops; on success the new packet reads back byte for byte and
    every other live packet still does, because no byte is shared; it fails
    only for a packet larger than the limits, without a free descriptor, or
    when the packet fits at no position of the arena. *)
Theorem arena_alloc_first_fit (N BYTES : nat) (ty : Z) (d : bytes) (t : Z) (p : Arena.pool) :
  Arena.inv N BYTES p →
  ∃ r p', Arena.alloc BYTES ty d t p = Some (r, p') ∧ Arena.inv N BYTES p' ∧
  (∀ h q, Arena.live p !! h = Some q → Arena.get p' h = Some (q_type q, q_data q)) ∧
  match r with
  | Some h => Arena.live p !! h = None ∧ Arena.get p' h = Some (ty, d)
  | None => p' = p ∧
      ((MAX_PACKET_SIZE < length d)%nat ∨ (BYTES < length d)%nat ∨
       (∀ s, s ∈ Arena.slots p → Arena.s_used s = true) ∨
       ∀ o, ¬ Arena.fits BYTES (length d) (Arena.slots p) o)
  end.
Proof.
  intros Hinv. destruct (Arena.arena_alloc_spec N BYTES ty d t p Hinv) as (r & p' & Ha & Hinv' & Hr).
  pose proof (@get_law _ _ (Arena.arena_packet_pool_laws N BYTES) p') as Hget.
  cbn [pool_inv Arena.arena_packet_pool_laws live get Arena.arena_packet_pool] in Hget.
  exists r, p'. split; [done|]. split; [done|]. destruct r as [h|].
  - destruct Hr as (_ & Hnone & Hlive). split_and!; [|done|].
    + intros h' q Hq. apply Hget; [done|]. rewrite Hlive, lookup_insert_ne; [done|].
      intros <-. congruence.
    + apply (Hget h (Queued None t ty d)); [done|]. by rewrite Hlive, lookup_insert_eq.
  - destruct Hr as [_ ->]. split; [intros h q Hq; by apply Hget|]. split; [done|].
    unfold Arena.alloc in Ha. destruct ((_ <? _) || (_ <? _))%nat eqn:Hsz.
    { apply orb_true_iff in Hsz as [H%Nat.ltb_lt|H%Nat.ltb_lt]; auto. }
    unfold Arena.free_slot in Ha. pose proof (Arena.position_spec 0 (Arena.slots p)) as Hpos.
    destruct (Arena.position 0 (Arena.slots p)) as [h|]; [|by do 2 right; left].
    destruct (Arena.find_gap_spec N BYTES p (length d) Hinv) as (gap & Hg & Hgap). rewrite Hg in Ha.
    destruct gap as [o|]; [|by do 3 right]. exfalso. cbn [mbind option_bind] in Ha.
    destruct (copy_range _ _ _ _); [|done]. cbn [mbind option_bind] in Ha.
    by destruct (Arena.slots p !! h).
Qed.

Lemma arena_alloc_first_fit_witness :
  Arena.inv 2 8 (Arena.new 2 8) ∧
  ∃ r p', Arena.alloc 8 4 [1; 2; 3] 7 (Arena.new 2 8) = Some (r, p') ∧ Arena.inv 2 8 p' ∧
    r = Some 0%nat ∧ Arena.get p' 0 = Some (4, [1; 2; 3]).
Proof.
  assert (Arena.inv 2 8 (Arena.new 2 8)) as Hinv by exact (Arena.arena_inv_new 2 8).
  split; [exact Hinv|].
  destruct (arena_alloc_first_fit 2 8 4 [1; 2; 3] 7 (Arena.new 2 8) Hinv) as (r & p' & H1 & H2 & _).
  exists r, p'. split; [exact H1|]. split; [exact H2|].
  vm_compute in H1. injection H1 as <- <-. split; reflexivity.
Defined.

(** The heap pool is a map with a byte budget: [alloc] never panics, keeps
    every live packet readable, and fails only past the packet limit, the byte
    budget or the descriptor limit; [free] of a live handle returns its bytes
    to the budget and makes the handle dead, and a second [free] of it panics
    instead of corrupting the pool. *)
Theorem heap_alloc_free (N BYTES : nat) (ty : Z) (d : bytes) (t : Z) (p : Heap.pool) :
  Heap.inv N BYTES p →
  ∃ r p', Heap.alloc N BYTES ty d t p = Some (r, p') ∧ Heap.inv N BYTES p' ∧
  (∀ h q, Heap.live p !! h = Some q → Heap.get p' h = Some (q_type q, q_data q)) ∧
  match r with
  | Some h => Heap.live p !! h = None ∧ Heap.get p' h = Some (ty, d) ∧
      Heap.used_bytes p' = (Heap.used_bytes p + length d)%nat ∧
      ∃ p'', Heap.free h p' = Some p'' ∧ Heap.inv N BYTES p'' ∧ Heap.live p'' = Heap.live p ∧
        Heap.used_bytes p'' = Heap.used_bytes p ∧ Heap.free h p'' = None
  | None => p' = p ∧
      ((MAX_PACKET_SIZE < length d)%nat ∨ (BYTES < Heap.used_bytes p + length d)%nat ∨
       (Heap.free_list p = [] ∧ length (Heap.slots p) = N))
  end.
Proof.
  intros Hinv. destruct (Heap.heap_alloc_spec N BYTES ty d t p Hinv) as (r & p' & Ha & Hinv' & Hr).
  pose proof (@get_law _ _ (Heap.heap_packet_pool_laws N BYTES) p') as Hget.
  cbn [pool_inv Heap.heap_packet_pool_laws live get Heap.heap_packet_pool] in Hget.
  exists r, p'. split; [done|]. split; [done|].
  assert (∀ h q, Heap.live p !! h = Some q → Heap.get p' h = Some (q_type q, q_data q)) as Hold.
  { intros h q Hq. apply Hget; [done|]. destruct r as [h'|]; [|by destruct Hr as [_ ->]].
    destruct Hr as (_ & Hnone & ->). rewrite lookup_insert_ne; [done|]. intros <-. congruence. }
  split; [done|]. unfold Heap.alloc in Ha.
  destruct ((_ <? _) || (_ <? _))%nat eqn:Hsz.
  { injection Ha as <- <-. split; [done|].
    apply orb_true_iff in Hsz as [H%Nat.ltb_lt|H%Nat.ltb_lt]; auto. }
  destruct r as [h|].
  - destruct Hr as (_ & Hnone & Hlive).
    assert (Heap.live p' !! h = Some (Queued None t ty d)) as Hh by by rewrite Hlive, lookup_insert_eq.
    assert (Heap.used_bytes p' = (Heap.used_bytes p + length d)%nat) as Hu.
    { unfold Heap.free_slot in Ha. destruct (last (Heap.free_list p)) as [h0|];
        [|destruct (length (Heap.slots p) <? N)%nat; cbn in Ha; [|done]];
        cbn in Ha; destruct (decide _); cbn in Ha;
        try destruct (decide _); cbn in Ha; try done; by injection Ha as _ <-. }
    split_and!; [done|by apply (Hget h (Queued None t ty d))|done|].
    destruct (Heap.heap_free_spec N BYTES p' h _ Hinv' Hh) as (p'' & Hf & Hinv'' & Hlive'').
    exists p''. split_and!; [done|done| | |].
    + by rewrite Hlive'', Hlive, delete_insert_id.
    + unfold Heap.free in Hf. rewrite <- Heap.heap_live_lookup, Hh in Hf. cbn in Hf.
      case_decide; [|done]. injection Hf as <-. cbn. lia.
    + unfold Heap.free. by rewrite <- Heap.heap_live_lookup, Hlive'', lookup_delete_eq.
  - destruct Hr as [_ ->]. split; [done|]. right; right. unfold Heap.free_slot in Ha.
    destruct (last (Heap.free_list p)) as [h0|] eqn:Hl.
    { exfalso. destruct (decide _); cbn in Ha; [done|]. by destruct (decide _). }
    apply last_None in Hl. split; [done|]. destruct Hinv as [_ _ _ _ Hs].
    destruct (Nat.ltb_spec (length (Heap.slots p)) N); [|lia]. by rewrite decide_True in Ha.
Qed.

Lemma heap_alloc_free_witness :
  Heap.inv 1 8 Heap.new ∧
  ∃ r p', Heap.alloc 1 8 4 [1; 2; 3] 7 Heap.new = Some (r, p') ∧ Heap.inv 1 8 p' ∧ r = Some 0%nat.
Proof.
  assert (Heap.inv 1 8 Heap.new) as Hinv by exact (Heap.heap_inv_new 1 8).
  split; [exact Hinv|].
  destruct (heap_alloc_free 1 8 4 [1; 2; 3] 7 Heap.new Hinv) as (r & p' & H1 & H2 & _).
  exists r, p'. split; [exact H1|]. split; [exact H2|].
  vm_compute in H1. by injection H1 as <- <-.
Defined.
