(* ===== verification/PacketQueue.v ===== *)
(** * Pending packets of a tunnel: the queue operations of [noise/mod.rs]

    A tunnel keeps the packets that wait for a session as an intrusive linked
    list threaded through the shared pool. The operations are proved, against
    the pool's interface alone, to implement a FIFO list of packets; every
    statement has a frame, because the pool is shared by all tunnels. *)

From S2P Require Import Prelude PacketPool.

Definition MAX_PENDING_PACKETS : nat := 8.
Definition PENDING_PACKET_TTL : Z := from_secs 30.

(** The queue fields of [Tunn]. *)
Record queue := Queue {
  packet_queue_head : option handle;
  packet_queue_tail : option handle;
  packet_queue_len : nat
}.

Definition empty_queue : queue := Queue None None 0.

(** [usize -= 1]: [None] is the underflow. *)
Definition pred_len (n : nat) : option nat := match n with O => None | S n => Some n end.

Section operations.
Context {P : Type} `{packet_pool P}.

(** The loop of [drop_expired_queued_packets]. *)
Fixpoint drop_loop (fuel : nat) (now : Z) (prev current : option handle) (dropped : nat)
    (q : queue) (pool : P) : option (nat * queue * P) :=
  match current with
  | None => Some (dropped, q, pool)
  | Some h =>
      match fuel with
      | O => None
      | S fuel =>
          let! nxt := next pool h in
          let! t := queued_at pool h in
          if PENDING_PACKET_TTL <=? duration_since now t then
            let! '(head, pool) :=
              match prev with
              | Some prev =>
                  let! pool := set_next prev nxt pool in Some (packet_queue_head q, pool)
              | None => Some (nxt, pool)
              end in
            let tail := if decide (packet_queue_tail q = Some h) then prev else packet_queue_tail q in
            let! pool := set_next h None pool in
            let! pool := free h pool in
            let! len := pred_len (packet_queue_len q) in
            drop_loop fuel now prev nxt (S dropped) (Queue head tail len) pool
          else drop_loop fuel now (Some h) nxt dropped q pool
      end
  end.

Definition drop_expired_queued_packets (q : queue) (now : Z) (pool : P)
    : option (nat * queue * P) :=
  drop_loop (packet_queue_len q) now None (packet_queue_head q) 0 q pool.

Definition queue_packet (q : queue) (packet_type : Z) (packet : bytes) (now : Z) (pool : P)
    : option (queue * P) :=
  if (MAX_PACKET_SIZE <? length packet)%nat then Some (q, pool)
  else
    let! '(_, q, pool) := drop_expired_queued_packets q now pool in
    if (MAX_PENDING_PACKETS <=? packet_queue_len q)%nat then Some (q, pool)
    else
      let! '(h, pool) := alloc packet_type packet now pool in
      match h with
      | None => Some (q, pool)
      | Some h =>
          let! '(head, pool) :=
            match packet_queue_tail q with
            | Some tail =>
                let! pool := set_next tail (Some h) pool in Some (packet_queue_head q, pool)
            | None => Some (Some h, pool)
            end in
          Some (Queue head (Some h) (S (packet_queue_len q)), pool)
      end.

Definition requeue_packet (q : queue) (h : handle) (pool : P) : option (queue * P) :=
  if (MAX_PENDING_PACKETS <=? packet_queue_len q)%nat then
    let! pool := free h pool in Some (q, pool)
  else
    let! pool := set_next h (packet_queue_head q) pool in
    let tail := match packet_queue_tail q with None => Some h | Some t => Some t end in
    Some (Queue (Some h) tail (S (packet_queue_len q)), pool).

Definition dequeue_packet (q : queue) (pool : P) : option (option handle * queue * P) :=
  match packet_queue_head q with
  | None => Some (None, q, pool)
  | Some h =>
      let! '(nxt, pool) := take_next h pool in
      let tail := match nxt with None => None | Some _ => packet_queue_tail q end in
      let! len := pred_len (packet_queue_len q) in
      Some (Some h, Queue nxt tail len, pool)
  end.

Definition clear_packet_queue (q : queue) (pool : P) : option (queue * P) :=
  let! pool := free_chain (packet_queue_len q) (packet_queue_head q) pool in
  Some (empty_queue, pool).
End operations.

(** ** The linked list a queue stands for *)

(** The links from [hd] run through [hs] and end at [e]. *)
Fixpoint segment (m : gmap handle queued) (hd : option handle) (hs : list handle)
    (e : option handle) : Prop :=
  match hs with
  | [] => hd = e
  | h :: hs => hd = Some h ∧ ∃ x, m !! h = Some x ∧ segment m (q_next x) hs e
  end.

(** The queue [q] over the live packets [m] is the list of handles [hs]. *)
Record linked (m : gmap handle queued) (q : queue) (hs : list handle) : Prop := {
  linked_chain : segment m (packet_queue_head q) hs None;
  linked_NoDup : NoDup hs;
  linked_tail : packet_queue_tail q = last hs;
  linked_len : packet_queue_len q = length hs
}.

(** What a packet is to the queue: when it was queued, its type and its bytes. *)
Definition payload (x : queued) : Z * Z * bytes := (q_queued_at x, q_type x, q_data x).

(** The packets of a list of handles, front first. *)
Definition payloads (m : gmap handle queued) (hs : list handle) : list (Z * Z * bytes) :=
  omap (λ h, payload <$> m !! h) hs.

Lemma segment_app m hd hs1 hs2 e :
  segment m hd (hs1 ++ hs2) e ↔ ∃ mid, segment m hd hs1 mid ∧ segment m mid hs2 e.
Proof.
  revert hd; induction hs1 as [|h hs1 IH]; intros hd; simpl.
  - split; [eauto|by intros (? & -> & ?)].
  - setoid_rewrite IH. split.
    + intros (-> & x & Hx & mid & H1 & H2). eauto 8.
    + intros (mid & (-> & x & Hx & H1) & H2). eauto 8.
Qed.

Lemma segment_frame m m' hd hs e :
  (∀ h, h ∈ hs → m' !! h = m !! h) → segment m hd hs e → segment m' hd hs e.
Proof.
  revert hd; induction hs as [|h hs IH]; intros hd Hm; simpl; [done|].
  intros (-> & x & Hx & Hs). split; [done|]. exists x. split; [by rewrite Hm by left|].
  apply IH; [|done]. intros h' Hh'. apply Hm. by right.
Qed.

Lemma segment_live m hd hs e h : segment m hd hs e → h ∈ hs → is_Some (m !! h).
Proof.
  revert hd; induction hs as [|h' hs IH]; intros hd; simpl; [by intros _ ?%not_elem_of_nil|].
  intros (-> & x & Hx & Hs) [->|Hin]%elem_of_cons; [by eexists|by eapply IH].
Qed.

Lemma segment_det m hd hs e e' : segment m hd hs e → segment m hd hs e' → e = e'.
Proof.
  revert hd; induction hs as [|h hs IH]; intros hd; simpl; [congruence|].
  intros (_ & x & Hx & H1) (_ & x' & Hx' & H2). simplify_eq. by eapply IH.
Qed.

(** Redirecting the last link of a segment. *)
Lemma segment_unique m hd hs hs' : segment m hd hs None → segment m hd hs' None → hs = hs'.
Proof.
  revert hd hs'; induction hs as [|h hs IH]; intros hd [|h' hs']; simpl; [done|..].
  - by intros -> (? & _).
  - by intros (-> & _) ?.
  - intros (-> & x & Hx & Hs) ([= ->] & x' & Hx' & Hs'). simplify_eq. f_equal. by eapply IH.
Qed.

Lemma segment_redirect m hd hs k x e e' :
  NoDup (hs ++ [k]) → m !! k = Some x → segment m hd (hs ++ [k]) e →
  segment (<[k := set_q_next e' x]> m) hd (hs ++ [k]) e'.
Proof.
  intros Hnd Hk Hs. apply NoDup_app in Hnd as (_ & Hdisj & _).
  apply segment_app in Hs as (mid & H1 & H2). apply segment_app. exists mid. split.
  - eapply segment_frame; [|exact H1]. intros h Hh. rewrite lookup_insert_ne; [done|].
    intros <-. apply (Hdisj k Hh). by apply list_elem_of_singleton.
  - simpl in *. destruct H2 as (-> & x' & Hx' & _). split; [done|]. exists (set_q_next e' x).
    by rewrite lookup_insert_eq.
Qed.

Lemma payloads_cons m h hs :
  payloads m (h :: hs) =
    match payload <$> m !! h with Some x => x :: payloads m hs | None => payloads m hs end.
Proof. done. Qed.

Lemma payloads_app m hs1 hs2 : payloads m (hs1 ++ hs2) = payloads m hs1 ++ payloads m hs2.
Proof. apply omap_app. Qed.

Lemma payloads_frame m m' hs :
  (∀ h, h ∈ hs → payload <$> m' !! h = payload <$> m !! h) → payloads m' hs = payloads m hs.
Proof.
  intros Hm. induction hs as [|h hs IH]; [done|]. rewrite !payloads_cons, Hm by left.
  rewrite IH; [done|]. intros h' Hh'. apply Hm. by right.
Qed.

(** A packet that [drop_expired_queued_packets] keeps. *)
Definition fresh (now : Z) (x : Z * Z * bytes) : bool :=
  duration_since now x.1.1 <? PENDING_PACKET_TTL.

Definition fresh_handle (m : gmap handle queued) (now : Z) (h : handle) : bool :=
  match m !! h with Some x => fresh now (payload x) | None => false end.

(** Outside the handles of the queue the pool is untouched. *)
Definition frame (m m' : gmap handle queued) (hs : list handle) : Prop :=
  ∀ h, h ∉ hs → m' !! h = m !! h.

Lemma frame_refl m hs : frame m m hs.
Proof. by intros h Hh. Qed.

Lemma frame_trans m1 m2 m3 hs hs' :
  (∀ h, h ∈ hs' → h ∈ hs) → frame m1 m2 hs → frame m2 m3 hs' → frame m1 m3 hs.
Proof. intros Hsub H1 H2 h Hh. rewrite H2; [by apply H1|]. intros ?. by apply Hh, Hsub. Qed.

(** A queue only depends on its own packets. *)
Lemma linked_frame m m' q hs : (∀ h, h ∈ hs → m' !! h = m !! h) → linked m q hs → linked m' q hs.
Proof. intros Hm [Hc Hnd Ht Hl]. split; [by eapply segment_frame|done..]. Qed.

Lemma linked_live m q hs h : linked m q hs → h ∈ hs → is_Some (m !! h).
Proof. intros [Hc _ _ _] Hh. by eapply segment_live. Qed.

Lemma linked_payloads_length m q hs : linked m q hs → length (payloads m hs) = length hs.
Proof.
  intros [Hc _ _ _]. assert (∀ h, h ∈ hs → is_Some (m !! h)) as Hl by (intros h; by eapply segment_live).
  clear Hc. induction hs as [|h hs IH]; [done|]. rewrite payloads_cons.
  destruct (Hl h ltac:(by left)) as [x ->]. cbn. rewrite IH; [done|]. intros k Hk. apply Hl. by right.
Qed.

Lemma elem_of_payloads m hs x :
  x ∈ payloads m hs ↔ ∃ h, h ∈ hs ∧ payload <$> m !! h = Some x.
Proof. unfold payloads. by rewrite list_elem_of_omap. Qed.

Section refinement.
Context {P : Type} `{packet_pool_laws P}.
Implicit Types (pool : P) (q : queue) (hs : list handle).

Lemma linked_empty pool : linked (live pool) empty_queue [].
Proof. split; [done|constructor|done|done]. Qed.

Lemma dequeue_spec q pool hs :
  pool_inv pool → linked (live pool) q hs →
  ∃ q' pool', pool_inv pool' ∧ frame (live pool) (live pool') hs ∧
  match hs with
  | [] => dequeue_packet q pool = Some (None, q, pool) ∧ q' = q ∧ pool' = pool
  | h :: hs' =>
      dequeue_packet q pool = Some (Some h, q', pool') ∧ linked (live pool') q' hs' ∧
      payloads (live pool') hs' = payloads (live pool) hs' ∧
      payload <$> live pool' !! h = payload <$> live pool !! h
  end.
Proof.
  intros Hinv [Hc Hnd Ht Hl]. destruct hs as [|h hs].
  - simpl in Hc. exists q, pool. split_and!; [done|apply frame_refl| |done|done].
    unfold dequeue_packet. by rewrite Hc.
  - simpl in Hc. destruct Hc as (Hhd & x & Hx & Hseg).
    destruct (take_next_law pool h x Hinv Hx) as (pool' & Htake & Hinv' & Hlive).
    apply NoDup_cons in Hnd as [Hnin Hnd].
    assert (∀ h', h' ∈ hs → live pool' !! h' = live pool !! h') as Hsame.
    { intros h' Hh'. rewrite Hlive, lookup_insert_ne; [done|]. by intros <-. }
    eexists _, pool'. split; [done|]. split.
    { intros h' Hh'. rewrite Hlive, lookup_insert_ne; [done|]. intros <-. apply Hh'. by left. }
    split_and!.
    + unfold dequeue_packet. rewrite Hhd, Htake. cbn [mbind option_bind]. by rewrite Hl.
    + split; cbn [packet_queue_head packet_queue_tail packet_queue_len]; [|done| |done].
      * by eapply segment_frame.
      * destruct hs as [|h' hs]; simpl in Hseg; [by rewrite Hseg|].
        destruct Hseg as [-> _]. rewrite Ht. done.
    + apply payloads_frame. intros h' Hh'. by rewrite Hsame.
    + by rewrite Hlive, lookup_insert_eq, Hx.
Qed.

Lemma requeue_spec q pool hs h x :
  pool_inv pool → linked (live pool) q hs → live pool !! h = Some x → h ∉ hs →
  ∃ q' pool', requeue_packet q h pool = Some (q', pool') ∧ pool_inv pool' ∧
    frame (live pool) (live pool') (h :: hs) ∧
    if (MAX_PENDING_PACKETS <=? length hs)%nat
    then linked (live pool') q' hs ∧ payloads (live pool') hs = payloads (live pool) hs ∧
      live pool' !! h = None
    else linked (live pool') q' (h :: hs) ∧
      payloads (live pool') (h :: hs) = payload x :: payloads (live pool) hs.
Proof.
  intros Hinv [Hc Hnd Ht Hl] Hx Hnin. unfold requeue_packet. rewrite Hl.
  destruct (_ <=? _)%nat.
  - destruct (free_law pool h x Hinv Hx) as (pool' & -> & Hinv' & Hlive). cbn [mbind option_bind].
    assert (∀ h', h' ∈ hs → live pool' !! h' = live pool !! h') as Hsame.
    { intros h' Hh'. rewrite Hlive, lookup_delete_ne; [done|]. by intros <-. }
    eexists _, _. split; [done|]. split_and!.
    + done.
    + intros h' Hh'. rewrite Hlive, lookup_delete_ne; [done|]. intros <-. apply Hh'. by left.
    + split; [by eapply segment_frame|done..].
    + apply payloads_frame. intros h' Hh'. by rewrite Hsame.
    + by rewrite Hlive, lookup_delete_eq.
  - destruct (set_next_law pool h x (packet_queue_head q) Hinv Hx) as (pool' & -> & Hinv' & Hlive).
    cbn [mbind option_bind].
    assert (∀ h', h' ∈ hs → live pool' !! h' = live pool !! h') as Hsame.
    { intros h' Hh'. rewrite Hlive, lookup_insert_ne; [done|]. by intros <-. }
    eexists _, _. split; [done|]. split_and!.
    + done.
    + intros h' Hh'. rewrite Hlive, lookup_insert_ne; [done|]. intros <-. apply Hh'. by left.
    + split; cbn [packet_queue_head packet_queue_tail packet_queue_len].
      * simpl. split; [done|]. exists (set_q_next (packet_queue_head q) x).
        rewrite Hlive, lookup_insert_eq. split; [done|]. cbn.
        eapply segment_frame; [|exact Hc]. intros h' Hh'. rewrite <- Hlive. by apply Hsame.
      * by apply NoDup_cons.
      * rewrite Ht. destruct hs as [|h' hs]; [done|]. rewrite last_cons_cons.
        by destruct (last (h' :: hs)) eqn:E; [|apply last_None in E].
      * simpl. lia.
    + rewrite payloads_cons. rewrite Hlive at 1. rewrite lookup_insert_eq. cbn. f_equal.
      apply payloads_frame. intros h' Hh'. by rewrite Hsame.
Qed.

(** [free_chain] releases the packets of its list and nothing else. *)
Lemma free_chain_spec fuel hd pool hs :
  pool_inv pool → segment (live pool) hd hs None → NoDup hs → (length hs ≤ fuel)%nat →
  ∃ pool', free_chain fuel hd pool = Some pool' ∧ pool_inv pool' ∧
    frame (live pool) (live pool') hs ∧ ∀ h, h ∈ hs → live pool' !! h = None.
Proof.
  revert fuel hd pool; induction hs as [|h hs IH]; intros fuel hd pool Hinv Hseg Hnd Hf; simpl in Hseg.
  - subst hd. exists pool. split_and!; [by destruct fuel|done|apply frame_refl|].
    by intros h ?%not_elem_of_nil.
  - destruct Hseg as (-> & x & Hx & Hseg). destruct fuel as [|fuel]; [simpl in Hf; lia|].
    apply NoDup_cons in Hnd as [Hnin Hnd]. cbn [free_chain].
    destruct (take_next_law pool h x Hinv Hx) as (pool1 & -> & Hinv1 & Hl1). cbn [mbind option_bind].
    destruct (free_law pool1 h (set_q_next None x) Hinv1) as (pool2 & -> & Hinv2 & Hl2);
      [by rewrite Hl1, lookup_insert_eq|]. cbn [mbind option_bind].
    assert (live pool2 = delete h (live pool)) as Hl by by rewrite Hl2, Hl1, delete_insert_eq.
    destruct (IH fuel (q_next x) pool2) as (pool' & -> & Hinv' & Hfr & Hdead); [done| |done|simpl in Hf; lia|].
    { eapply segment_frame; [|exact Hseg]. intros h' Hh'. rewrite Hl, lookup_delete_ne; [done|].
      by intros <-. }
    exists pool'. split_and!; [done|done| |].
    + intros h' Hh'. rewrite Hfr by (intros ?; apply Hh'; by right).
      rewrite Hl, lookup_delete_ne; [done|]. intros <-. apply Hh'. by left.
    + intros h' [->|Hin]%elem_of_cons; [|by apply Hdead].
      rewrite Hfr by done. by rewrite Hl, lookup_delete_eq.
Qed.

Lemma clear_spec q pool hs :
  pool_inv pool → linked (live pool) q hs →
  ∃ pool', clear_packet_queue q pool = Some (empty_queue, pool') ∧ pool_inv pool' ∧
    frame (live pool) (live pool') hs ∧ ∀ h, h ∈ hs → live pool' !! h = None.
Proof.
  intros Hinv [Hc Hnd Ht Hl]. unfold clear_packet_queue. rewrite Hl.
  destruct (free_chain_spec (length hs) (packet_queue_head q) pool hs) as (pool' & -> & ?);
    [done|done|done|lia|]. by exists pool'.
Qed.

Lemma segment_next (m : gmap handle queued) hd hs : segment m hd hs None → hd = head hs.
Proof. destruct hs; simpl; [done|by intros [-> _]]. Qed.

(** Unlinking one packet: what [set_next] on its predecessor achieves. *)
Lemma segment_unlink (m : gmap handle queued) hd ks h rs x :
  NoDup (ks ++ h :: rs) → segment m hd (ks ++ h :: rs) None → m !! h = Some x →
  match last ks with
  | None => segment (delete h m) (q_next x) (ks ++ rs) None
  | Some k => ∃ xk, m !! k = Some xk ∧
      segment (delete h (<[k := set_q_next (q_next x) xk]> m)) hd (ks ++ rs) None
  end.
Proof.
  intros Hnd Hs Hx. apply segment_app in Hs as (mid & H1 & H2).
  simpl in H2. destruct H2 as (-> & x' & Hx' & H2). rewrite Hx in Hx'. injection Hx' as <-.
  pose proof Hnd as Hnd'. apply NoDup_app in Hnd' as (Hks & Hdisj & [Hhrs Hrs]%NoDup_cons).
  destruct ks as [|k ks _] using rev_ind; simpl in H1.
  - simpl. eapply segment_frame; [|exact H2]. intros h' Hh'. rewrite lookup_delete_ne; [done|].
    by intros <-.
  - rewrite last_snoc. destruct (segment_live _ _ _ _ k H1) as [xk Hk];
      [apply elem_of_app; right; by left|]. exists xk. split; [done|].
    assert (k ≠ h) as Hkh.
    { intros ->. apply (Hdisj h); [apply elem_of_app; right; by left|by left]. }
    assert (k ∉ rs) as Hkrs.
    { intros Hin. apply (Hdisj k); [apply elem_of_app; right; by left|by right]. }
    apply segment_frame with (m := <[k := set_q_next (q_next x) xk]> m).
    { intros h' Hh'. rewrite lookup_delete_ne; [done|]. intros <-.
      apply elem_of_app in Hh' as [Hin|Hin]; [apply (Hdisj h Hin); by left|done]. }
    apply segment_app. exists (q_next x). split.
    + by eapply segment_redirect.
    + eapply segment_frame; [|exact H2]. intros h' Hh'. rewrite lookup_insert_ne; [done|].
      by intros <-.
Qed.

(** The tail after an unlink. *)
Lemma last_unlink ks (h : handle) rs :
  NoDup (ks ++ h :: rs) →
  (if decide (last (ks ++ h :: rs) = Some h) then last ks else last (ks ++ h :: rs)) = last (ks ++ rs).
Proof.
  intros Hnd. rewrite !last_app. destruct rs as [|r rs].
  - cbn. by rewrite decide_True.
  - rewrite last_cons_cons. destruct (last (r :: rs)) as [t|] eqn:Ht; [|by apply last_None in Ht].
    rewrite decide_False; [done|]. intros [= ->].
    apply NoDup_app in Hnd as (_ & _ & [Hnin _]%NoDup_cons). apply Hnin.
    apply last_Some in Ht as [l' ->]. apply elem_of_app. right. by left.
Qed.

(** One expired packet is unlinked and released. *)
Lemma drop_step q pool ks h rs x :
  pool_inv pool → linked (live pool) q (ks ++ h :: rs) → live pool !! h = Some x →
  ∃ head pool1 pool2 pool3,
    match last ks with
    | Some prev => let! pool := set_next prev (q_next x) pool in Some (packet_queue_head q, pool)
    | None => Some (q_next x, pool)
    end = Some (head, pool1) ∧
    set_next h None pool1 = Some pool2 ∧ free h pool2 = Some pool3 ∧
    pool_inv pool3 ∧
    linked (live pool3) (Queue head
      (if decide (packet_queue_tail q = Some h) then last ks else packet_queue_tail q)
      (length (ks ++ rs))) (ks ++ rs) ∧
    live pool3 !! h = None ∧
    (∀ h', h' ≠ h → payload <$> live pool3 !! h' = payload <$> live pool !! h') ∧
    (∀ h', h' ∉ ks ++ h :: rs → live pool3 !! h' = live pool !! h').
Proof.
  intros Hinv [Hc Hnd Ht Hl] Hx.
  pose proof (segment_unlink _ _ _ _ _ _ Hnd Hc Hx) as Hun.
  assert (∃ head pool1, match last ks with
    | Some prev => let! pool := set_next prev (q_next x) pool in Some (packet_queue_head q, pool)
    | None => Some (q_next x, pool)
    end = Some (head, pool1) ∧ pool_inv pool1 ∧ live pool1 !! h = Some x ∧
    segment (delete h (live pool1)) head (ks ++ rs) None ∧
    (∀ h', payload <$> live pool1 !! h' = payload <$> live pool !! h') ∧
    (∀ h', h' ∉ ks → live pool1 !! h' = live pool !! h')) as (head & pool1 & -> & Hinv1 & Hx1 & Hs1 & Hp1 & Hf1).
  { destruct (last ks) as [k|] eqn:Hk.
    - destruct Hun as (xk & Hxk & Hs).
      assert (k ∈ ks) as Hin.
      { apply last_Some in Hk as [l' ->]. apply elem_of_app. right. by left. }
      assert (k ≠ h) as Hkh.
      { intros ->. apply NoDup_app in Hnd as (_ & Hd & _). apply (Hd h Hin). by left. }
      destruct (set_next_law pool k xk (q_next x) Hinv Hxk) as (pool1 & -> & Hinv1 & Hl1).
      eexists _, _. split; [done|]. rewrite Hl1. split_and!; [done| |done| |].
      + by rewrite lookup_insert_ne.
      + intros h'. destruct (decide (k = h')) as [<-|Hne].
        * by rewrite lookup_insert_eq, Hxk.
        * by rewrite lookup_insert_ne.
      + intros h' Hh'. rewrite lookup_insert_ne; [done|]. by intros <-.
    - eexists _, _. split; [done|]. by split_and!. }
  destruct (set_next_law pool1 h x None Hinv1 Hx1) as (pool2 & Hs2 & Hinv2 & Hl2).
  destruct (free_law pool2 h (set_q_next None x) Hinv2) as (pool3 & Hs3 & Hinv3 & Hl3);
    [by rewrite Hl2, lookup_insert_eq|].
  assert (live pool3 = delete h (live pool1)) as Hl' by by rewrite Hl3, Hl2, delete_insert_eq.
  exists head, pool1, pool2, pool3. split_and!; [done|done|done|done| | | |].
  - split; cbn [packet_queue_head packet_queue_tail packet_queue_len].
    + by rewrite Hl'.
    + apply NoDup_app in Hnd as (H1 & H2 & [H3 H4]%NoDup_cons). apply NoDup_app.
      split_and!; [done| |done]. intros k Hk Hk'. apply (H2 k Hk). by right.
    + rewrite Ht. by apply last_unlink.
    + done.
  - by rewrite Hl', lookup_delete_eq.
  - intros h' Hne. by rewrite Hl', lookup_delete_ne.
  - intros h' Hnin. rewrite Hl', lookup_delete_ne.
    + apply Hf1. intros ?. apply Hnin, elem_of_app. by left.
    + intros <-. apply Hnin, elem_of_app. right. by left.
Qed.

(** The fresh handles of a list. *)
Definition kept pool now hs : list handle :=
  filter (λ h, fresh_handle (live pool) now h = true) hs.

Lemma kept_cons pool now h hs :
  kept pool now (h :: hs) =
    if fresh_handle (live pool) now h then h :: kept pool now hs else kept pool now hs.
Proof. unfold kept. rewrite filter_cons. by destruct (fresh_handle _ _ _). Qed.

Lemma kept_elem pool now h hs : h ∈ kept pool now hs → h ∈ hs.
Proof. intros Hh. by apply list_elem_of_filter in Hh as [_ ?]. Qed.

Lemma kept_ext pool pool' now hs :
  (∀ h, h ∈ hs → payload <$> live pool' !! h = payload <$> live pool !! h) →
  kept pool' now hs = kept pool now hs.
Proof.
  intros Hp. apply filter_bool_ext. intros h Hh. specialize (Hp h Hh). unfold fresh_handle.
  destruct (live pool !! h) as [x|], (live pool' !! h) as [x'|]; try done.
  assert (payload x' = payload x) as -> by exact (Some_inj _ _ Hp). done.
Qed.

Lemma drop_loop_spec fuel now ks rs q pool n :
  pool_inv pool → linked (live pool) q (ks ++ rs) → (length rs ≤ fuel)%nat →
  ∃ q' pool',
    drop_loop fuel now (last ks) (head rs) n q pool =
      Some ((n + (length rs - length (kept pool now rs)))%nat, q', pool') ∧
    pool_inv pool' ∧ linked (live pool') q' (ks ++ kept pool now rs) ∧
    (∀ h, h ∈ ks ++ kept pool now rs → payload <$> live pool' !! h = payload <$> live pool !! h) ∧
    frame (live pool) (live pool') (ks ++ rs) ∧
    (∀ h, h ∈ rs → h ∉ kept pool now rs → live pool' !! h = None).
Proof.
  revert fuel ks q pool n; induction rs as [|h rs IH]; intros fuel ks q pool n Hinv Hlk Hf.
  - exists q, pool. cbn. split_and!; [|done|done|done|apply frame_refl|by intros ? ?%not_elem_of_nil].
    rewrite Nat.add_0_r. by destruct fuel.
  - destruct fuel as [|fuel]; [simpl in Hf; lia|]. cbn [drop_loop head].
    pose proof Hlk as [Hc Hnd _ Hlen]. apply segment_app in Hc as (mid & _ & Hc).
    destruct Hc as (-> & x & Hx & Hc). apply segment_next in Hc.
    rewrite (next_law pool h x), (queued_at_law pool h x) by done. cbn [mbind option_bind].
    assert (fresh_handle (live pool) now h = negb (PENDING_PACKET_TTL <=? duration_since now (q_queued_at x))) as Hfr.
    { unfold fresh_handle. rewrite Hx. unfold fresh. cbn. by rewrite Z.leb_antisym, negb_involutive. }
    assert (∀ l : list handle, length (filter (λ h, fresh_handle (live pool) now h = true) l) ≤ length l)%nat
      as Hle by (intros; apply length_filter).
    rewrite kept_cons, Hfr. specialize (Hle rs).
    destruct (PENDING_PACKET_TTL <=? _) eqn:Hexp; cbn [negb].
    + destruct (drop_step q pool ks h rs x Hinv Hlk Hx)
        as (hd & pool1 & pool2 & pool3 & -> & Hs2 & Hs3 & Hinv3 & Hlk3 & Hdead & Hpay & Hfrm).
      cbn [mbind option_bind]. rewrite Hs2. cbn [mbind option_bind]. rewrite Hs3. cbn [mbind option_bind].
      rewrite Hlen. replace (pred_len _) with (Some (length (ks ++ rs)))
        by (rewrite !length_app; simpl; by rewrite Nat.add_succ_r). cbn [mbind option_bind].
      rewrite Hc. apply NoDup_app in Hnd as (_ & Hdisj & [Hhrs _]%NoDup_cons).
      destruct (IH fuel ks _ pool3 (S n) Hinv3 Hlk3) as (q' & pool' & Hr & Hinv' & Hlk' & Hpay' & Hfrm' & Hdead');
        [simpl in Hf; lia|].
      assert (kept pool3 now rs = kept pool now rs) as Hk.
      { apply kept_ext. intros h' Hh'. apply Hpay. by intros ->. }
      rewrite Hk in *. exists q', pool'. split_and!; [|done|done| | |].
      * rewrite Hr. do 3 f_equal. unfold kept in *. simpl. lia.
      * intros h' Hh'. rewrite Hpay' by done. apply Hpay. intros ->.
        apply elem_of_app in Hh' as [?|?%kept_elem]; [|done]. apply (Hdisj h); [done|by left].
      * intros h' Hh'. rewrite Hfrm'; [by apply Hfrm|]. intros Hin. apply Hh'.
        apply elem_of_app in Hin as [?|?]; apply elem_of_app; [by left|right; by right].
      * intros h' [->|Hin]%elem_of_cons Hnk; [|by apply Hdead'].
        rewrite Hfrm'; [done|]. intros [Hin|Hin]%elem_of_app; [|done]. apply (Hdisj h Hin). by left.
    + destruct (IH fuel (ks ++ [h]) q pool n Hinv) as (q' & pool' & Hr & Hinv' & Hlk' & Hpay' & Hfrm' & Hdead');
        [by rewrite <- app_assoc|simpl in Hf; lia|].
      rewrite last_snoc, <- Hc in Hr. rewrite <- !app_assoc in *. exists q', pool'.
      split_and!; [|done|done|done|done|].
      * rewrite Hr. do 3 f_equal.
      * intros h' [->|Hin]%elem_of_cons Hnk; [destruct Hnk; by left|].
        apply Hdead'; [done|]. intros ?. apply Hnk. by right.
Qed.

Lemma drop_expired_spec q pool hs now :
  pool_inv pool → linked (live pool) q hs →
  ∃ q' pool',
    drop_expired_queued_packets q now pool =
      Some ((length hs - length (kept pool now hs))%nat, q', pool') ∧
    pool_inv pool' ∧ linked (live pool') q' (kept pool now hs) ∧
    payloads (live pool') (kept pool now hs) = filter (λ x, fresh now x = true) (payloads (live pool) hs) ∧
    frame (live pool) (live pool') hs ∧
    (∀ h, h ∈ hs → h ∉ kept pool now hs → live pool' !! h = None).
Proof.
  intros Hinv Hlk. pose proof Hlk as [Hc Hnd _ Hl]. apply segment_next in Hc as Hhd.
  destruct (drop_loop_spec (length hs) now [] hs q pool 0 Hinv Hlk)
    as (q' & pool' & Hr & Hinv' & Hlk' & Hpay & Hfrm & Hdead); [lia|].
  exists q', pool'. unfold drop_expired_queued_packets. rewrite Hl, Hhd.
  split_and!; [done|done|done| |done|done].
  rewrite (payloads_frame (live pool)) by done. clear -H0 Hc.
  assert (∀ h, h ∈ hs → is_Some (live pool !! h)) as Hlive by (intros; by eapply segment_live).
  clear Hc. induction hs as [|h hs IH]; [done|]. rewrite kept_cons.
  destruct (Hlive h) as [x Hx]; [by left|].
  rewrite (payloads_cons _ h hs), Hx. cbn [fmap option_fmap option_map].
  rewrite filter_cons. unfold fresh_handle. rewrite Hx.
  assert (∀ h, h ∈ hs → is_Some (live pool !! h)) as Hlive' by (intros; apply Hlive; by right).
  destruct (fresh now (payload x)) eqn:Hf.
  - rewrite decide_True by done. rewrite payloads_cons, Hx. cbn. f_equal. by apply IH.
  - rewrite decide_False by done. by apply IH.
Qed.

(** Appending a fresh packet at the tail. *)
Lemma append_spec q pool hs h ty d t m :
  pool_inv pool → linked m q hs → m !! h = None →
  live pool = <[h := Queued None t ty d]> m →
  ∃ q' pool',
    (let! '(head, pool) :=
       match packet_queue_tail q with
       | Some tail => let! pool := set_next tail (Some h) pool in Some (packet_queue_head q, pool)
       | None => Some (Some h, pool)
       end in
     Some (Queue head (Some h) (S (packet_queue_len q)), pool)) = Some (q', pool') ∧
    pool_inv pool' ∧ linked (live pool') q' (hs ++ [h]) ∧
    payloads (live pool') (hs ++ [h]) = payloads m hs ++ [(t, ty, d)] ∧
    ∀ h', h' ∉ hs → h' ≠ h → live pool' !! h' = m !! h'.
Proof.
  intros Hinv [Hc Hnd Ht Hl] Hm Hlive.
  assert (h ∉ hs) as Hnin.
  { intros Hin. destruct (segment_live _ _ _ _ h Hc Hin) as [x Hx]. congruence. }
  assert (NoDup (hs ++ [h])) as Hnd'.
  { apply NoDup_app. split_and!; [done| |apply NoDup_singleton].
    by intros h' Hh' ->%list_elem_of_singleton. }
  assert (∀ h', h' ∈ hs → live pool !! h' = m !! h') as Hsame.
  { intros h' Hh'. rewrite Hlive, lookup_insert_ne; [done|]. by intros <-. }
  destruct hs as [|k hs _] using rev_ind.
  - rewrite Ht. cbn [last mbind option_bind]. eexists _, _. split; [done|]. split_and!; [done| | |].
    + split; cbn; [|done|done|by rewrite Hl]. split; [done|]. exists (Queued None t ty d).
      by rewrite Hlive, lookup_insert_eq.
    + unfold payloads. simpl. by rewrite Hlive, lookup_insert_eq.
    + intros h' _ Hne. by rewrite Hlive, lookup_insert_ne.
  - rewrite Ht, last_snoc. destruct (segment_live _ _ _ _ k Hc) as [xk Hk];
      [apply elem_of_app; right; by left|].
    assert (k ≠ h) as Hkh by (intros ->; congruence).
    destruct (set_next_law pool k xk (Some h) Hinv) as (pool' & -> & Hinv' & Hl');
      [by rewrite Hlive, lookup_insert_ne|]. cbn [mbind option_bind].
    eexists _, _. split; [done|]. split_and!; [done| | |].
    + split; cbn [packet_queue_head packet_queue_tail packet_queue_len]; [|done|by rewrite last_snoc|].
      * apply segment_app. exists (Some h). split.
        -- rewrite Hl'. eapply segment_redirect; [done|by rewrite Hlive, lookup_insert_ne|].
           eapply segment_frame; [|exact Hc]. intros h' Hh'. by apply Hsame.
        -- simpl. split; [done|]. exists (Queued None t ty d).
           by rewrite Hl', lookup_insert_ne, Hlive, lookup_insert_eq.
      * rewrite Hl, (length_app (hs ++ [k])). simpl. lia.
    + rewrite payloads_app. f_equal.
      * apply payloads_frame. intros h' Hh'. rewrite Hl'. destruct (decide (k = h')) as [<-|Hne].
        -- by rewrite lookup_insert_eq, Hk.
        -- by rewrite lookup_insert_ne, Hsame.
      * unfold payloads. simpl. by rewrite Hl', lookup_insert_ne, Hlive, lookup_insert_eq.
    + intros h' Hnin' Hne. rewrite Hl', lookup_insert_ne, Hlive, lookup_insert_ne; [done|done|].
      intros <-. apply Hnin', elem_of_app. right. by left.
Qed.

Lemma queue_packet_spec q pool hs ty d now :
  pool_inv pool → linked (live pool) q hs →
  ∃ q' pool' hs', queue_packet q ty d now pool = Some (q', pool') ∧ pool_inv pool' ∧
    linked (live pool') q' hs' ∧
    (∀ h x, h ∉ hs → live pool !! h = Some x → (h ∉ hs') ∧ live pool' !! h = Some x) ∧
    if (MAX_PACKET_SIZE <? length d)%nat then
      payloads (live pool') hs' = payloads (live pool) hs
    else
      ∃ n q1 pool1, drop_expired_queued_packets q now pool = Some (n, q1, pool1) ∧
        let l := filter (λ x, fresh now x = true) (payloads (live pool) hs) in
        let room := (length l < MAX_PENDING_PACKETS)%nat ∧ has_space pool1 (length d) in
        room ∧ payloads (live pool') hs' = l ++ [(now, ty, d)] ∨ ¬ room ∧ payloads (live pool') hs' = l.
Proof.
  intros Hinv Hlk. unfold queue_packet. destruct (_ <? _)%nat.
  { exists q, pool, hs. by split_and!. }
  destruct (drop_expired_spec q pool hs now Hinv Hlk)
    as (q1 & pool1 & Hdrop & Hinv1 & Hlk1 & Hpay1 & Hfrm1 & _). rewrite Hdrop. cbn [mbind option_bind].
  pose proof Hlk1 as [Hc1 _ _ Hlen1]. rewrite Hlen1. cbv zeta. rewrite <- Hpay1, (linked_payloads_length _ _ _ Hlk1).
  destruct (Nat.leb_spec MAX_PENDING_PACKETS (length (kept pool now hs))) as [Hfull|Hroom].
  { exists q1, pool1, (kept pool now hs). split_and!; [done|done|done| |].
    - intros h x Hh Hx. split; [by intros ?%kept_elem|]. by rewrite Hfrm1.
    - eexists _, _, _. split; [done|]. right. split; [|done]. intros []. lia. }
  destruct (alloc_law ty d now pool1 Hinv1) as (r & pool2 & -> & Hinv2 & Hr). cbn [mbind option_bind].
  destruct r as [h|].
  - destruct Hr as (Hfits & Hnone & Hlive2).
    destruct (append_spec q1 pool2 (kept pool now hs) h ty d now (live pool1) Hinv2 Hlk1 Hnone Hlive2)
      as (q' & pool' & Happ & Hinv' & Hlk' & Hpay' & Hfrm').
    exists q', pool', (kept pool now hs ++ [h]). split_and!; [by rewrite <- Hlen1|done|done| |].
    + intros h' x Hh' Hx. assert (live pool1 !! h' = Some x) as Hx1 by by rewrite Hfrm1.
      assert (h' ≠ h) as Hne by (intros ->; congruence). split.
      * rewrite elem_of_app, list_elem_of_singleton. by intros [?%kept_elem|?].
      * rewrite Hfrm'; [done| |done]. by intros ?%kept_elem.
    + eexists _, _, _. split; [done|]. left. by rewrite Hpay'.
  - destruct Hr as [Hfull ->]. exists q1, pool1, (kept pool now hs). split_and!; [done|done|done| |].
    + intros h x Hh Hx. split; [by intros ?%kept_elem|]. by rewrite Hfrm1.
    + eexists _, _, _. split; [done|]. right. split; [by intros []|done].
Qed.
End refinement.

(** ** Properties *)

(** C33: [queue_packet] is the enqueue of a bounded FIFO, over any pool that
    keeps its promises: it never panics; an oversized packet changes nothing;
    otherwise the expired packets leave, the others keep their order, and the
    new packet goes last exactly when fewer than eight are left and the pool has
    room for it ([Heap.has_space], [Arena.has_space]) once the expired ones are
    gone. Packets of other tunnels in the shared pool are untouched. *)
Theorem queue_packet_refines_fifo {P} `{packet_pool_laws P} (q : queue) (pool : P)
    (hs : list handle) (ty : Z) (d : bytes) (now : Z) :
  pool_inv pool → linked (live pool) q hs →
  ∃ q' pool' hs', queue_packet q ty d now pool = Some (q', pool') ∧ pool_inv pool' ∧
    linked (live pool') q' hs' ∧
    (∀ h x, h ∉ hs → live pool !! h = Some x → (h ∉ hs') ∧ live pool' !! h = Some x) ∧
    if (MAX_PACKET_SIZE <? length d)%nat then
      payloads (live pool') hs' = payloads (live pool) hs
    else
      ∃ n q1 pool1, drop_expired_queued_packets q now pool = Some (n, q1, pool1) ∧
        let l := filter (λ x, fresh now x = true) (payloads (live pool) hs) in
        let room := (length l < MAX_PENDING_PACKETS)%nat ∧ has_space pool1 (length d) in
        room ∧ payloads (live pool') hs' = l ++ [(now, ty, d)] ∨ ¬ room ∧ payloads (live pool') hs' = l.
Proof. apply queue_packet_spec. Qed.

Lemma queue_packet_refines_fifo_witness :
  let pool := Arena.new 2 8 in
  pool_inv (packet_pool_laws := Arena.arena_packet_pool_laws 2 8) pool ∧
  linked (live (packet_pool_laws := Arena.arena_packet_pool_laws 2 8) pool) empty_queue [] ∧
  ∃ q' pool' hs', queue_packet (H := Arena.arena_packet_pool 2 8) empty_queue 4 [1; 2; 3] 5 pool =
    Some (q', pool') ∧ linked (live (packet_pool_laws := Arena.arena_packet_pool_laws 2 8) pool') q' hs' ∧
    payloads (live (packet_pool_laws := Arena.arena_packet_pool_laws 2 8) pool') hs' = [(5, 4, [1; 2; 3])].
Proof.
  intros pool.
  assert (pool_inv (packet_pool_laws := Arena.arena_packet_pool_laws 2 8) pool) as Hinv
    by exact (Arena.arena_inv_new 2 8).
  assert (linked (live (packet_pool_laws := Arena.arena_packet_pool_laws 2 8) pool) empty_queue [])
    as Hlk by apply linked_empty.
  split; [exact Hinv|]. split; [exact Hlk|].
  destruct (queue_packet_refines_fifo (H0 := Arena.arena_packet_pool_laws 2 8) empty_queue pool [] 4
    [1; 2; 3] 5 Hinv Hlk) as (q' & pool' & hs' & H1 & _ & H2 & _ & n & q1 & pool1 & Hd & Hroom).
  exists q', pool', hs'. split; [exact H1|]. split; [exact H2|]. vm_compute in Hd. injection Hd as _ _ <-.
  destruct Hroom as [[_ Hp]|[Hfull _]]; [exact Hp|]. destruct Hfull.
  split; [apply Nat.lt_0_succ|]. split; [apply (bool_decide_unpack _); vm_compute; exact I|].
  split; [eexists; split; [left|reflexivity]|].
  exists 0%nat. split; [apply (bool_decide_unpack _); vm_compute; exact I|].
  intros s. cbn. rewrite !elem_of_cons, elem_of_nil. intros [->|[->|[]]] [? _]; discriminate.
Defined.

(** [dequeue_packet] takes the oldest packet, whose bytes stay readable in
    the pool, and [requeue_packet] puts a packet back in front when the queue
    is not full (and releases it otherwise), so that a flush that finds no
    session undoes itself: dequeue then requeue restores the queue. *)
Theorem dequeue_requeue {P} `{packet_pool_laws P} (q : queue) (pool : P) (h : handle)
    (hs : list handle) :
  pool_inv pool → linked (live pool) q (h :: hs) → (length hs < MAX_PENDING_PACKETS)%nat →
  ∃ q1 pool1 q2 pool2 x, dequeue_packet q pool = Some (Some h, q1, pool1) ∧
    linked (live pool1) q1 hs ∧ live pool !! h = Some x ∧
    get pool1 h = Some (q_type x, q_data x) ∧
    payloads (live pool) (h :: hs) = payload x :: payloads (live pool1) hs ∧
    requeue_packet q1 h pool1 = Some (q2, pool2) ∧ pool_inv pool2 ∧
    linked (live pool2) q2 (h :: hs) ∧
    payloads (live pool2) (h :: hs) = payloads (live pool) (h :: hs).
Proof.
  intros Hinv Hlk Hlen. pose proof Hlk as [Hc Hnd _ _].
  destruct (dequeue_spec q pool (h :: hs) Hinv Hlk) as (q1 & pool1 & Hinv1 & _ & Hd & Hlk1 & Hp1 & Hh1).
  destruct (segment_live _ _ _ _ h Hc) as [x Hx]; [by left|]. rewrite Hx in Hh1.
  destruct (live pool1 !! h) as [x1|] eqn:Hx1; [|done].
  assert (payload x1 = payload x) as Hpx by exact (Some_inj _ _ Hh1).
  apply NoDup_cons in Hnd as [Hnin _].
  destruct (requeue_spec q1 pool1 hs h x1 Hinv1 Hlk1 Hx1 Hnin) as (q2 & pool2 & Hr & Hinv2 & _ & Hq).
  rewrite (proj2 (Nat.leb_gt _ _)) in Hq by done. destruct Hq as [Hlk2 Hp2].
  exists q1, pool1, q2, pool2, x. split_and!; [done|done|done| | |done|done|done|].
  - rewrite (get_law pool1 h x1) by done. unfold payload in Hpx. congruence.
  - rewrite payloads_cons, Hx. cbn. by rewrite Hp1.
  - rewrite Hp2, Hpx, Hp1, payloads_cons, Hx. done.
Qed.

Lemma dequeue_requeue_witness :
  let E := Heap.heap_packet_pool_laws 2 64 in
  ∃ q pool h,
    pool_inv (packet_pool_laws := E) pool ∧ linked (live (packet_pool_laws := E) pool) q [h] ∧
    (length (@nil handle) < MAX_PENDING_PACKETS)%nat ∧
    ∃ q1 pool1, dequeue_packet (H := Heap.heap_packet_pool 2 64) q pool = Some (Some h, q1, pool1).
Proof.
  intros E.
  set (pool := Heap.Pool [Some (Queued None 5 4 [1; 2; 3])] [] 3).
  assert (pool_inv (packet_pool_laws := E) pool) as Hinv.
  { split; cbn; [|constructor|reflexivity|lia|lia].
    intros h. split; [intros []%not_elem_of_nil|by destruct h as [|[]]]. }
  assert (linked (live (packet_pool_laws := E) pool) (Queue (Some 0%nat) (Some 0%nat) 1) [0%nat]) as Hlk.
  { split; [|apply NoDup_singleton|reflexivity|reflexivity].
    split; [reflexivity|]. exists (Queued None 5 4 [1; 2; 3]). split; reflexivity. }
  assert (length (@nil handle) < MAX_PENDING_PACKETS)%nat as Hlen by (vm_compute; lia).
  exists (Queue (Some 0%nat) (Some 0%nat) 1), pool, 0%nat.
  split; [exact Hinv|]. split; [exact Hlk|]. split; [exact Hlen|].
  destruct (dequeue_requeue (H0 := E) (Queue (Some 0%nat) (Some 0%nat) 1) pool 0%nat [] Hinv Hlk Hlen)
    as (q1 & pool1 & _ & _ & _ & H1 & _).
  exists q1, pool1. exact H1.
Defined.

(** Dropping expired packets and clearing the queue release the memory:
    the packets that stay are exactly the fresh ones, in order, the dropped
    handles are dead in the pool afterwards, the count is right, clearing
    frees every packet of the queue, and no other tunnel's packet is touched. *)
Theorem drop_and_clear_release {P} `{packet_pool_laws P} (q : queue) (pool : P)
    (hs : list handle) (now : Z) :
  pool_inv pool → linked (live pool) q hs →
  ∃ n q1 pool1 hs1 pool2,
    drop_expired_queued_packets q now pool = Some (n, q1, pool1) ∧ pool_inv pool1 ∧
    linked (live pool1) q1 hs1 ∧ (n + length hs1 = length hs)%nat ∧
    payloads (live pool1) hs1 = filter (λ x, fresh now x = true) (payloads (live pool) hs) ∧
    (∀ h, h ∈ hs → h ∉ hs1 → live pool1 !! h = None) ∧
    clear_packet_queue q1 pool1 = Some (empty_queue, pool2) ∧ pool_inv pool2 ∧
    ∀ h, live pool2 !! h = if decide (h ∈ hs) then None else live pool !! h.
Proof.
  intros Hinv Hlk.
  destruct (drop_expired_spec q pool hs now Hinv Hlk)
    as (q1 & pool1 & Hd & Hinv1 & Hlk1 & Hp1 & Hfrm1 & Hdead1).
  destruct (clear_spec q1 pool1 (kept pool now hs) Hinv1 Hlk1) as (pool2 & Hcl & Hinv2 & Hfrm2 & Hdead2).
  eexists _, q1, pool1, (kept pool now hs), pool2. split_and!; [done|done|done| |done|done|done|done|].
  - assert (length (kept pool now hs) ≤ length hs)%nat by apply length_filter. lia.
  - intros h. case_decide as Hin.
    + destruct (decide (h ∈ kept pool now hs)); [by apply Hdead2|]. rewrite Hfrm2 by done. by apply Hdead1.
    + rewrite Hfrm2 by (by intros ?%kept_elem). by apply Hfrm1.
Qed.

Lemma drop_and_clear_release_witness :
  let E := Heap.heap_packet_pool_laws 2 64 in
  let pool := Heap.new in
  pool_inv (packet_pool_laws := E) pool ∧ linked (live (packet_pool_laws := E) pool) empty_queue [] ∧
  ∃ n q1 pool1, drop_expired_queued_packets (H := Heap.heap_packet_pool 2 64) empty_queue 9 pool =
    Some (n, q1, pool1).
Proof.
  intros E pool.
  assert (pool_inv (packet_pool_laws := E) pool) as Hinv by exact (Heap.heap_inv_new 2 64).
  assert (linked (live (packet_pool_laws := E) pool) empty_queue []) as Hlk by apply linked_empty.
  split; [exact Hinv|]. split; [exact Hlk|].
  destruct (drop_and_clear_release (H0 := E) empty_queue pool [] 9 Hinv Hlk)
    as (n & q1 & pool1 & _ & _ & H1 & _).
  exists n, q1, pool1. exact H1.
Defined.
