(* ===== verification/Session.v ===== *)
(** * Transport sessions: [tendrilix/src/noise/session.rs]

    A session encrypts with a strictly increasing counter as nonce and rejects
    replayed counters with a sliding bitmap. The AEAD cipher
    (chacha20poly1305) is not part of the repository: it is the class [aead],
    and what the code relies on is [aead_laws]. The atomics and the mutex of the
    source make each operation on a counter one step; the operations below are
    those steps.

    The outer option of an operation is a panic. Of the destination buffer only
    the length and the returned slice are modelled. *)

From S2P Require Import Prelude Wire PacketPool.

(** ** The cipher *)

(** [encrypt_in_place_detached] and [decrypt_in_place_detached], with empty
    associated data: key, nonce and text; the tag is separate. *)
Class aead := {
  aead_seal : bytes → bytes → bytes → bytes * bytes;
  aead_open : bytes → bytes → bytes → bytes → option bytes
}.

Class aead_laws `{aead} := {
  aead_open_seal k n m : aead_open k n (aead_seal k n m).1 (aead_seal k n m).2 = Some m;
  aead_length k n m : length (aead_seal k n m).1 = length m;
  aead_tag_length k n m : length (aead_seal k n m).2 = 16%nat
}.

(** ** Replay protection *)

Definition DATA_OFFSET : nat := 16.
Definition AEAD_SIZE : nat := 16.
Definition REKEY_AFTER_MESSAGES : Z := Z.shiftl 1 60.
Definition REJECT_AFTER_MESSAGES : Z := u64_max - Z.shiftl 1 16 - 1.
Definition WORD_SIZE : Z := 64.
Definition N_WORDS : Z := 4.
Definition N_BITS : Z := WORD_SIZE * N_WORDS.

Module Validator.

(** [ReceivingKeyCounterValidator]; [bitmap] holds [N_WORDS] words. *)
Record validator := Validator {
  nxt : Z;
  receive_cnt : Z;
  bitmap : list Z
}.

Definition new : validator := Validator 0 0 (replicate (Z.to_nat N_WORDS) 0).

Definition with_bitmap (v : validator) (b : list Z) : validator :=
  Validator (nxt v) (receive_cnt v) b.

(** The word and bit of a counter; the word index is below [N_WORDS]. *)
Definition word_of (idx : Z) : nat := Z.to_nat (idx mod N_BITS / WORD_SIZE).
Definition bit_of (idx : Z) : Z := idx mod N_BITS mod WORD_SIZE.
Definition get_word (v : validator) (w : nat) : Z := nth w (bitmap v) 0.

Definition set_bit (v : validator) (idx : Z) : validator :=
  let word := word_of idx in
  with_bitmap v (<[word := Z.lor (get_word v word) (Z.shiftl 1 (bit_of idx))]> (bitmap v)).

(** [!(1u64 << bit)] *)
Definition clear_bit (v : validator) (idx : Z) : validator :=
  let word := word_of idx in
  with_bitmap v (<[word := Z.land (get_word v word)
    (Z.lxor u64_max (Z.shiftl 1 (bit_of idx)))]> (bitmap v)).

Definition clear_word (v : validator) (idx : Z) : validator :=
  with_bitmap v (<[word_of idx := 0]> (bitmap v)).

Definition check_bit (v : validator) (idx : Z) : bool :=
  Z.land (Z.shiftr (get_word v (word_of idx)) (bit_of idx)) 1 =? 1.

Definition will_accept (v : validator) (counter : Z) : result unit wireguard_error :=
  if nxt v <=? counter then Ok tt
  else if counter + N_BITS <? nxt v then Err InvalidCounter
  else if negb (check_bit v counter) then Ok tt
  else Err DuplicateCounter.

(** The three loops that clear the skipped counters; [None] is no more fuel. *)
Fixpoint clear_to_word (fuel : nat) (v : validator) (i counter : Z) : option (validator * Z) :=
  if negb (i mod WORD_SIZE =? 0) && (i <? counter) then
    match fuel with
    | O => None
    | S fuel => clear_to_word fuel (clear_bit v i) (i + 1) counter
    end
  else Some (v, i).

Fixpoint clear_words (fuel : nat) (v : validator) (i counter : Z) : option (validator * Z) :=
  if i + WORD_SIZE <? counter then
    match fuel with
    | O => None
    | S fuel =>
        clear_words fuel (clear_word v i)
          (Z.land (wrap 64 (i + WORD_SIZE)) (wrap 64 (- WORD_SIZE))) counter
    end
  else Some (v, i).

Fixpoint clear_rest (fuel : nat) (v : validator) (i counter : Z) : option validator :=
  if i <? counter then
    match fuel with
    | O => None
    | S fuel => clear_rest fuel (clear_bit v i) (i + 1) counter
    end
  else Some v.

Definition clear_gap (v : validator) (counter : Z) : option validator :=
  let fuel := Z.to_nat N_BITS in
  let! '(v, i) := clear_to_word fuel v (nxt v) counter in
  let! '(v, i) := clear_words fuel v i counter in
  clear_rest fuel v i counter.

Definition mark_did_receive (v : validator) (counter : Z)
    : option (result unit wireguard_error * validator) :=
  if counter + N_BITS <? nxt v then Some (Err InvalidCounter, v)
  else if counter =? nxt v then
    let v := set_bit v counter in
    Some (Ok tt, Validator (nxt v + 1) (receive_cnt v) (bitmap v))
  else if counter <? nxt v then
    if check_bit v counter then Some (Err InvalidCounter, v)
    else Some (Ok tt, set_bit v counter)
  else
    let! v :=
      if N_BITS <=? counter - nxt v
      then Some (with_bitmap v (map (λ _, 0) (bitmap v)))
      else clear_gap v counter in
    let v := set_bit v counter in
    Some (Ok tt, Validator (counter + 1) (receive_cnt v) (bitmap v)).

(** ** Bits *)

(** The bit at position [k] of the bitmap. *)
Definition bit (v : validator) (k : Z) : bool :=
  Z.testbit (get_word v (Z.to_nat (k / WORD_SIZE))) (k mod WORD_SIZE).

Definition wf_bitmap (v : validator) : Prop := length (bitmap v) = Z.to_nat N_WORDS.

Lemma get_word_insert v w w' x :
  wf_bitmap v → (w < Z.to_nat N_WORDS)%nat →
  get_word (with_bitmap v (<[w := x]> (bitmap v))) w' = if decide (w = w') then x else get_word v w'.
Proof.
  intros Hwf Hw. unfold get_word. cbn [bitmap with_bitmap]. rewrite !nth_lookup.
  case_decide as Heq.
  - subst w'. by rewrite list_lookup_insert_eq by (rewrite Hwf; done).
  - by rewrite list_lookup_insert_ne.
Qed.

Lemma wf_with_bitmap v w x : wf_bitmap v → wf_bitmap (with_bitmap v (<[w := x]> (bitmap v))).
Proof. unfold wf_bitmap. cbn. by rewrite length_insert. Qed.

(** Positions of counters: word and bit of [idx] are those of [idx mod N_BITS]. *)
Lemma word_of_lt idx : (word_of idx < Z.to_nat N_WORDS)%nat.
Proof.
  unfold word_of, N_BITS, WORD_SIZE, N_WORDS.
  pose proof (Z.mod_pos_bound idx (64 * 4)). pose proof (Z.div_lt_upper_bound (idx mod (64 * 4)) 64 4).
  pose proof (Z.div_pos (idx mod (64 * 4)) 64). lia.
Qed.

(** Two positions have the same word and bit exactly when they are equal. *)
Lemma position_eq idx k :
  0 ≤ k < N_BITS →
  (k = idx mod N_BITS ↔ word_of idx = Z.to_nat (k / WORD_SIZE) ∧ bit_of idx = k mod WORD_SIZE).
Proof.
  unfold word_of, bit_of. intros Hk.
  pose proof (Z.mod_pos_bound idx N_BITS ltac:(done)) as Hi. set (j := idx mod N_BITS) in *.
  clearbody j. unfold N_BITS, WORD_SIZE, N_WORDS in *. split; [by intros ->|].
  intros [H1 H2]. apply Z2Nat.inj in H1; [|apply Z.div_pos; lia..].
  rewrite (Z.div_mod k 64), (Z.div_mod j 64) by lia. congruence.
Qed.

Lemma bit_of_bounds idx : 0 ≤ bit_of idx < 64.
Proof. apply Z.mod_pos_bound. done. Qed.

Lemma position_eqb idx k :
  0 ≤ k < N_BITS →
  (k =? idx mod N_BITS) =
    bool_decide (word_of idx = Z.to_nat (k / WORD_SIZE)) && (k mod WORD_SIZE =? bit_of idx).
Proof.
  intros Hk. apply eq_true_iff_eq. rewrite andb_true_iff, bool_decide_eq_true, !Z.eqb_eq.
  rewrite position_eq by done. naive_solver.
Qed.

Lemma check_bit_bit v idx : check_bit v idx = bit v (idx mod N_BITS).
Proof.
  unfold check_bit, bit. change (word_of idx) with (Z.to_nat (idx mod N_BITS / WORD_SIZE)).
  unfold bit_of. set (x := get_word _ _). set (b := _ mod WORD_SIZE).
  pose proof (Z.mod_pos_bound (idx mod N_BITS) WORD_SIZE ltac:(done)) as Hb. fold b in Hb.
  change 1 with (Z.ones 1) at 1. rewrite Z.land_ones by lia. change (2 ^ 1) with 2.
  rewrite <- Z.bit0_mod, Z.shiftr_spec, Z.add_0_l by lia. by destruct (Z.testbit x b).
Qed.

Lemma bit_set_bit v idx k :
  wf_bitmap v → 0 ≤ k < N_BITS → bit (set_bit v idx) k = (k =? idx mod N_BITS) || bit v k.
Proof.
  intros Hwf Hk. rewrite position_eqb by done. unfold bit, set_bit.
  rewrite get_word_insert by (done || apply word_of_lt). case_decide as Heq.
  - rewrite bool_decide_eq_true_2 by done. rewrite Z.lor_spec, Z.shiftl_1_l.
    rewrite Z.pow2_bits_eqb by apply bit_of_bounds. rewrite Heq. cbn [andb].
    rewrite (Z.eqb_sym (bit_of idx)). apply orb_comm.
  - by rewrite bool_decide_eq_false_2.
Qed.

Lemma bit_clear_bit v idx k :
  wf_bitmap v → 0 ≤ k < N_BITS → bit (clear_bit v idx) k = negb (k =? idx mod N_BITS) && bit v k.
Proof.
  intros Hwf Hk. rewrite position_eqb by done. unfold bit, clear_bit.
  rewrite get_word_insert by (done || apply word_of_lt). case_decide as Heq.
  - rewrite bool_decide_eq_true_2 by done. rewrite Z.land_spec, Z.lxor_spec, Z.shiftl_1_l.
    rewrite Z.pow2_bits_eqb by apply bit_of_bounds. rewrite Heq. cbn [andb].
    change u64_max with (Z.ones 64).
    pose proof (Z.mod_pos_bound k WORD_SIZE ltac:(done)) as Hb. unfold WORD_SIZE in *.
    rewrite Z.ones_spec_low by lia. rewrite (Z.eqb_sym (bit_of idx)). apply andb_comm.
  - by rewrite bool_decide_eq_false_2.
Qed.

Lemma bit_clear_word v idx k :
  wf_bitmap v → 0 ≤ k < N_BITS →
  bit (clear_word v idx) k = negb (k / WORD_SIZE =? idx mod N_BITS / WORD_SIZE) && bit v k.
Proof.
  intros Hwf Hk. unfold bit, clear_word. rewrite get_word_insert by (done || apply word_of_lt).
  assert (0 ≤ k / WORD_SIZE) by (apply Z.div_pos; [lia|done]).
  assert (0 ≤ idx mod N_BITS / WORD_SIZE).
  { apply Z.div_pos; [|done]. by apply Z.mod_pos_bound. }
  unfold word_of. case_decide as Heq.
  - apply Z2Nat.inj in Heq; [|done..]. rewrite Heq, Z.eqb_refl. apply Z.bits_0.
  - rewrite (proj2 (Z.eqb_neq _ _)) by (intros E; by rewrite E in Heq). done.
Qed.

(** ** Clearing the gap *)

(** Position [k] belongs to a counter of [a, b). *)
Definition in_gap (a b k : Z) : Prop := ∃ j, a ≤ j < b ∧ j mod N_BITS = k.

(** [v'] is [v] with the positions of [a, b) cleared. *)
Record cleared (v v' : validator) (a b : Z) : Prop := {
  cleared_wf : wf_bitmap v';
  cleared_nxt : nxt v' = nxt v;
  cleared_cnt : receive_cnt v' = receive_cnt v;
  cleared_bit k : 0 ≤ k < N_BITS → bit v' k = true ↔ bit v k = true ∧ ¬ in_gap a b k
}.

Lemma cleared_refl v a : wf_bitmap v → cleared v v a a.
Proof. intros. split; [done..|]. intros k Hk. split; [|tauto]. intros Hb. split; [done|]. intros (j & ? & _). lia. Qed.

Lemma cleared_trans v1 v2 v3 a b c :
  a ≤ b ≤ c → cleared v1 v2 a b → cleared v2 v3 b c → cleared v1 v3 a c.
Proof.
  intros Hab [_ H1n H1c H1b] [H2w H2n H2c H2b]. split; [done|congruence|congruence|].
  intros k Hk. rewrite H2b, H1b by done. split.
  - intros [[Hb Hn1] Hn2]. split; [done|]. intros (j & Hj & Hm).
    destruct (decide (j < b)); [apply Hn1|apply Hn2]; exists j; (split; [lia|done]).
  - intros [Hb Hn]. split; [split; [done|]|]; intros (j & Hj & Hm); apply Hn; exists j; (split; [lia|done]).
Qed.

Lemma cleared_clear_bit v i : wf_bitmap v → cleared v (clear_bit v i) i (i + 1).
Proof.
  intros Hwf. split; [by apply wf_with_bitmap|done|done|]. intros k Hk.
  rewrite bit_clear_bit, andb_true_iff, negb_true_iff, Z.eqb_neq by done. split.
  - intros [Hne Hb]. split; [done|]. intros (j & Hj & Hm). apply Hne. replace i with j by lia. done.
  - intros [Hb Hn]. split; [|done]. intros ->. apply Hn. exists i. split; [lia|done].
Qed.

Lemma cleared_clear_word v i :
  wf_bitmap v → i mod WORD_SIZE = 0 → cleared v (clear_word v i) i (i + WORD_SIZE).
Proof.
  intros Hwf Hi. split; [by apply wf_with_bitmap|done|done|]. intros k Hk.
  rewrite bit_clear_word, andb_true_iff, negb_true_iff, Z.eqb_neq by done.
  assert (k / WORD_SIZE = i mod N_BITS / WORD_SIZE ↔ in_gap i (i + WORD_SIZE) k) as ->.
  { unfold in_gap, N_BITS, N_WORDS, WORD_SIZE in *. change (64 * 4) with 256 in *. split.
    - intros E. exists (i + k mod 64). pose proof (Z.mod_pos_bound k 64). split; [lia|].
      Z.to_euclidean_division_equations. lia.
    - intros (j & Hj & <-). Z.to_euclidean_division_equations. lia. }
  tauto.
Qed.

(** [x & 0u64.wrapping_sub(WORD_SIZE)] keeps an aligned counter. *)
Lemma align_aligned x :
  in_width 64 x → x mod WORD_SIZE = 0 → Z.land (wrap 64 x) (wrap 64 (- WORD_SIZE)) = x.
Proof.
  intros Hx Hm. rewrite wrap_small by done. unfold WORD_SIZE in *.
  assert (wrap 64 (- (64)) = Z.shiftl (Z.ones 58) 6) as -> by done.
  assert (∃ q, x = Z.shiftl q 6 ∧ 0 ≤ q < 2 ^ 58) as (q & -> & Hq).
  { exists (x / 64). rewrite Z.shiftl_mul_pow2 by lia. change (2 ^ 6) with 64.
    pose proof (Z.div_mod x 64). destruct Hx as [H0 H1]. split; [lia|].
    split; [apply Z.div_pos; lia|]. apply Z.div_lt_upper_bound; [lia|].
    change (64 * 2 ^ 58) with (2 ^ 64). lia. }
  rewrite <- Z.shiftl_land, Z.land_ones by lia. f_equal. by apply Z.mod_small.
Qed.

Lemma clear_to_word_spec fuel v i counter :
  wf_bitmap v → i ≤ counter → counter - i < Z.of_nat fuel →
  ∃ v' i', clear_to_word fuel v i counter = Some (v', i') ∧ i ≤ i' ≤ counter ∧
    (i' = counter ∨ i' mod WORD_SIZE = 0) ∧ cleared v v' i i'.
Proof.
  revert v i; induction fuel as [|fuel IH]; intros v i Hwf Hi Hf; [lia|]. cbn [clear_to_word].
  destruct (negb _ && _) eqn:E.
  - apply andb_prop in E as [_ Hlt%Z.ltb_lt].
    pose proof (cleared_clear_bit v i Hwf) as Hc.
    destruct (IH (clear_bit v i) (i + 1)) as (v' & i' & -> & Hi' & Hal & Hc');
      [apply Hc|lia|lia|]. exists v', i'. split_and!; [done|lia|lia|done|].
    eapply cleared_trans; [|exact Hc|exact Hc']. lia.
  - exists v, i. split_and!; [done|lia|lia| |by apply cleared_refl].
    apply andb_false_iff in E as [E|E%Z.ltb_ge]; [right|left; lia].
    apply negb_false_iff, Z.eqb_eq in E. done.
Qed.

Lemma clear_words_spec fuel v i counter :
  wf_bitmap v → 0 ≤ i ≤ counter → in_width 64 counter → (i = counter ∨ i mod WORD_SIZE = 0) →
  counter - i < WORD_SIZE * (Z.of_nat fuel + 1) →
  ∃ v' i', clear_words fuel v i counter = Some (v', i') ∧ i ≤ i' ≤ counter ∧
    counter - i' ≤ WORD_SIZE ∧ cleared v v' i i'.
Proof.
  revert v i; induction fuel as [|fuel IH]; intros v i Hwf Hi Hcw Hal Hf; cbn [clear_words];
    (destruct (Z.ltb_spec (i + WORD_SIZE) counter) as [Hlt|Hge];
      [|exists v, i; split_and!; [done|lia|lia|lia|by apply cleared_refl]]); [lia|].
  destruct Hal as [->|Hal]; [unfold WORD_SIZE in *; lia|].
  pose proof (cleared_clear_word v i Hwf Hal) as Hc.
  rewrite align_aligned; [|unfold in_width, WORD_SIZE in *; lia|].
  - destruct (IH (clear_word v i) (i + WORD_SIZE)) as (v' & i' & -> & Hi' & Hle & Hc').
    + apply Hc.
    + unfold WORD_SIZE in *; lia.
    + done.
    + right. unfold WORD_SIZE in *. Z.to_euclidean_division_equations. lia.
    + unfold WORD_SIZE in *; lia.
    + exists v', i'. split_and!; [done|unfold WORD_SIZE in *; lia|lia|done|].
      eapply cleared_trans; [|exact Hc|exact Hc']. unfold WORD_SIZE in *; lia.
  - unfold WORD_SIZE in *. Z.to_euclidean_division_equations. lia.
Qed.

Lemma clear_rest_spec fuel v i counter :
  wf_bitmap v → i ≤ counter → counter - i < Z.of_nat fuel →
  ∃ v', clear_rest fuel v i counter = Some v' ∧ cleared v v' i counter.
Proof.
  revert v i; induction fuel as [|fuel IH]; intros v i Hwf Hi Hf; [lia|]. cbn [clear_rest].
  destruct (Z.ltb_spec i counter) as [Hlt|Hge].
  - pose proof (cleared_clear_bit v i Hwf) as Hc.
    destruct (IH (clear_bit v i) (i + 1)) as (v' & -> & Hc'); [apply Hc|lia|lia|].
    exists v'. split; [done|]. eapply cleared_trans; [|exact Hc|exact Hc']. lia.
  - exists v. split; [done|]. replace counter with i by lia. by apply cleared_refl.
Qed.

Lemma clear_gap_spec v counter :
  wf_bitmap v → 0 ≤ nxt v ≤ counter → in_width 64 counter → counter - nxt v < N_BITS →
  ∃ v', clear_gap v counter = Some v' ∧ cleared v v' (nxt v) counter.
Proof.
  intros Hwf Hn Hw Hlt. unfold clear_gap.
  destruct (clear_to_word_spec (Z.to_nat N_BITS) v (nxt v) counter)
    as (v1 & i1 & -> & Hi1 & Hal & Hc1); [done|lia|unfold N_BITS, WORD_SIZE, N_WORDS in *; lia|].
  cbn [mbind option_bind].
  destruct (clear_words_spec (Z.to_nat N_BITS) v1 i1 counter)
    as (v2 & i2 & -> & Hi2 & Hle & Hc2);
    [apply Hc1|lia|done|done|unfold N_BITS, WORD_SIZE, N_WORDS in *; lia|].
  cbn [mbind option_bind].
  destruct (clear_rest_spec (Z.to_nat N_BITS) v2 i2 counter) as (v3 & -> & Hc3);
    [apply Hc2|lia|unfold N_BITS, WORD_SIZE, N_WORDS in *; lia|].
  exists v3. split; [done|]. eapply cleared_trans; [|exact Hc1|]; [lia|].
  eapply cleared_trans; [|exact Hc2|exact Hc3]. lia.
Qed.

(** ** The window stands for the set of received counters *)

Record window (v : validator) (received : Z → Prop) : Prop := {
  window_wf : wf_bitmap v;
  window_nxt : 0 ≤ nxt v;
  window_below c : received c → 0 ≤ c < nxt v;
  window_top : 0 < nxt v → received (nxt v - 1);
  window_bit c : 0 ≤ c → nxt v - N_BITS ≤ c < nxt v → bit v (c mod N_BITS) = true ↔ received c
}.

Lemma window_new : window new (λ _, False).
Proof.
  split; [done|done|done|cbn; lia|]. intros c Hc [_ Hlt]. cbn in Hlt. lia.
Qed.

Lemma mod_N_BITS c : 0 ≤ c mod N_BITS < N_BITS.
Proof. by apply Z.mod_pos_bound. Qed.

(** Counters of one window have different positions. *)
Lemma mod_N_BITS_inj a b : a < b < a + N_BITS → a mod N_BITS ≠ b mod N_BITS.
Proof.
  unfold N_BITS, WORD_SIZE, N_WORDS. intros H E. Z.to_euclidean_division_equations. lia.
Qed.

(** The specification of acceptance. *)
Lemma will_accept_spec v received c :
  window v received → 0 ≤ c →
  (will_accept v c = Ok tt ↔ nxt v ≤ c + N_BITS ∧ ¬ received c) ∧
  (will_accept v c = Err DuplicateCounter ↔ nxt v ≤ c + N_BITS ∧ received c) ∧
  (will_accept v c = Err InvalidCounter ↔ c + N_BITS < nxt v).
Proof.
  intros [Hwf Hn Hb Ht Hbit] Hc. unfold will_accept.
  assert (0 < N_BITS) by done.
  destruct (Z.leb_spec (nxt v) c) as [Hge|Hlt].
  { assert (¬ received c) by (intros Hr%Hb; lia). split_and!; split; try done; intros; try lia.
    - split; [lia|done].
    - naive_solver. }
  destruct (Z.ltb_spec (c + N_BITS) (nxt v)) as [Hfar|Hnear].
  { split_and!; split; try done; intros; lia. }
  rewrite check_bit_bit. specialize (Hbit c Hc ltac:(lia)).
  destruct (bit v (c mod N_BITS)); cbn [negb]; split_and!; split; try done; try (intros; lia).
  - intros [_ Hr]. by destruct Hr; apply Hbit.
  - intros _. split; [done|]. by apply Hbit.
  - intros _. split; [done|]. intros Hr%Hbit. done.
  - intros [_ Hr%Hbit]. done.
Qed.

Definition add_received (received : Z → Prop) (c x : Z) : Prop := received x ∨ x = c.

(** Marking the top of the window after the skipped positions were cleared. *)
Lemma window_advance v v1 received c :
  window v received → nxt v ≤ c → wf_bitmap v1 →
  (∀ x, 0 ≤ x → c - N_BITS < x < c → bit v1 (x mod N_BITS) = true ↔ received x) →
  window (Validator (c + 1) (receive_cnt v1) (bitmap (set_bit v1 c))) (add_received received c).
Proof.
  intros [Hwf Hn Hb Ht Hbit] Hge Hwf1 Hbits. split; cbn [nxt].
  - apply (wf_with_bitmap v1). done.
  - lia.
  - intros x [Hx%Hb| ->]; lia.
  - intros _. right. lia.
  - intros x Hx0 Hx.
    change (bit (Validator (c + 1) (receive_cnt v1) (bitmap (set_bit v1 c))) (x mod N_BITS))
      with (bit (set_bit v1 c) (x mod N_BITS)).
    rewrite bit_set_bit by (done || apply mod_N_BITS). unfold add_received.
    rewrite orb_true_iff, Z.eqb_eq. destruct (decide (x = c)) as [->|Hne]; [naive_solver|].
    rewrite Hbits by lia. split; [|naive_solver]. intros [E|]; [|by left].
    exfalso. apply (mod_N_BITS_inj x c); [lia|done].
Qed.

Lemma bit_zero v k : bit (with_bitmap v (map (λ _, 0) (bitmap v))) k = false.
Proof.
  unfold bit, get_word. cbn. rewrite nth_lookup, list_lookup_fmap.
  destruct (bitmap v !! _); apply Z.bits_0.
Qed.

Lemma mark_did_receive_spec v received c :
  window v received → 0 ≤ c → c + 1 < 2 ^ 64 →
  ∃ r v', mark_did_receive v c = Some (r, v') ∧ receive_cnt v' = receive_cnt v ∧
  match r with
  | Ok _ => nxt v ≤ c + N_BITS ∧ ¬ received c ∧ window v' (add_received received c)
  | Err e => e = InvalidCounter ∧ v' = v ∧ (c + N_BITS < nxt v ∨ received c)
  end.
Proof.
  intros Hwin Hc Hw. pose proof Hwin as [Hwf Hn Hb Ht Hbit]. unfold mark_did_receive.
  assert (0 < N_BITS) by done.
  destruct (Z.ltb_spec (c + N_BITS) (nxt v)) as [Hfar|Hnear].
  { eexists _, _. split; [done|]. split; [done|]. split_and!; [done|done|by left]. }
  destruct (Z.eqb_spec c (nxt v)) as [Heq|Hne].
  { eexists _, _. split; [done|]. split; [done|]. split_and!; [done|intros Hr%Hb; lia|].
    change (nxt (set_bit v c)) with (nxt v). rewrite <- Heq. apply (window_advance v v); [done|lia|done|].
    intros x Hx0 Hx. apply Hbit; lia. }
  destruct (Z.ltb_spec c (nxt v)) as [Hlt|Hgt].
  { rewrite check_bit_bit. pose proof (Hbit c Hc ltac:(lia)) as Hbc.
    destruct (bit v (c mod N_BITS)) eqn:E.
    { eexists _, _. split; [done|]. split; [done|]. split_and!; [done|done|right; by apply Hbc]. }
    eexists _, _. split; [done|]. split; [done|]. split_and!; [done|by intros Hr%Hbc|].
    split; cbn [nxt set_bit with_bitmap].
    - by apply wf_with_bitmap.
    - done.
    - intros x [Hx%Hb| ->]; lia.
    - intros Hp. left. by apply Ht.
    - intros x Hx0 Hx. rewrite bit_set_bit by (done || apply mod_N_BITS).
      unfold add_received. rewrite orb_true_iff, Z.eqb_eq, Hbit by lia.
      split; [|intros [?| ->]; auto]. intros [E'|?]; [right|by left].
      destruct (decide (x = c)) as [|Hx']; [done|exfalso].
      destruct (decide (x < c)).
      + apply (mod_N_BITS_inj x c); [lia|done].
      + apply (mod_N_BITS_inj c x); [lia|done]. }
  assert (¬ received c) as Hnr by (intros Hr%Hb; lia).
  destruct (Z.leb_spec N_BITS (c - nxt v)) as [Hjump|Hgap].
  - cbn [mbind option_bind]. eexists _, _. split; [done|]. split; [done|]. split_and!; [done|done|].
    apply (window_advance v (with_bitmap v (map (λ _, 0) (bitmap v)))); [done|lia| |].
    + unfold wf_bitmap. cbn. by rewrite length_map.
    + intros x Hx0 Hx. rewrite bit_zero. split; [done|]. intros Hr%Hb. lia.
  - destruct (clear_gap_spec v c) as (v1 & -> & [Hwf1 Hn1 Hc1 Hb1]); [done|lia| |lia|].
    { unfold in_width. lia. }
    cbn [mbind option_bind]. eexists _, _. split; [done|]. split; [done|]. split_and!; [done|done|].
    apply (window_advance v v1); [done|lia|done|].
    intros x Hx0 Hx. rewrite Hb1 by apply mod_N_BITS. destruct (decide (x < nxt v)) as [Hlt|Hge].
    + rewrite Hbit by lia. split; [by intros [? _]|]. intros Hr. split; [done|].
      intros (j & Hj & Hm). apply (mod_N_BITS_inj x j); [lia|done].
    + split; [|intros Hr%Hb; lia]. intros [_ Hng]. destruct Hng. exists x. split; [lia|done].
Qed.
End Validator.
(** ** Sessions *)

Record session := Session {
  receiving_index : Z;
  sending_index : Z;
  receiver : bytes;
  sender : bytes;
  sending_key_counter : Z;
  receiving_key_counter : Validator.validator
}.

Section session.
Context `{A : aead}.
Implicit Types (s : session).

Definition session_new (local_index peer_index : Z) (receiving_key sending_key : bytes) : session :=
  Session local_index peer_index receiving_key sending_key 0 Validator.new.

Definition local_index (s : session) : Z := receiving_index s.

Definition receiving_counter_quick_check (s : session) (counter : Z) : result unit wireguard_error :=
  Validator.will_accept (receiving_key_counter s) counter.

Definition receiving_counter_mark (s : session) (counter : Z)
    : option (result unit wireguard_error * session) :=
  let! '(ret, v) := Validator.mark_did_receive (receiving_key_counter s) counter in
  let v := if is_ok ret
    then Validator.Validator (Validator.nxt v) (Validator.receive_cnt v + 1) (Validator.bitmap v)
    else v in
  Some (ret, Session (receiving_index s) (sending_index s) (receiver s) (sender s)
    (sending_key_counter s) v).

(** [(len + 15) & !15] *)
Definition align16 (len : nat) : nat := Z.to_nat (Z.land (Z.of_nat len + 15) (Z.lnot 15)).

Definition padded_len (src : bytes) : nat :=
  match src with
  | [] => 0
  | _ =>
      let candidate := align16 (length src) in
      if (candidate <=? MTU)%nat then candidate else length src
  end.

(** [nonce[4..12].copy_from_slice(&counter.to_le_bytes())] on twelve zeros. *)
Definition nonce_of (counter : Z) : bytes := repeat 0 4 ++ to_le_bytes 8 counter.

Definition format_packet_data_with_type (s : session) (packet_type : Z) (src : bytes)
    (dst_len : nat) : option (option bytes * session) :=
  let padded_len := padded_len src in
  if (dst_len <? DATA_OFFSET + padded_len + AEAD_SIZE)%nat then None
  else
    let current := sending_key_counter s in
    if REJECT_AFTER_MESSAGES <=? current then Some (None, s)
    else
      let s' := Session (receiving_index s) (sending_index s) (receiver s) (sender s)
        (current + 1) (receiving_key_counter s) in
      let data := src ++ repeat 0 (padded_len - length src) in
      let '(ciphertext, tag) := aead_seal (sender s) (nonce_of current) data in
      Some (Some (to_le_bytes 4 packet_type ++ to_le_bytes 4 (sending_index s) ++
        to_le_bytes 8 current ++ ciphertext ++ tag), s').

Definition format_packet_data (s : session) (src : bytes) (dst_len : nat) :=
  format_packet_data_with_type s DATA src dst_len.

Definition receive_packet_data (s : session) (packet : data) (dst_len : nat)
    : option (result bytes wireguard_error * session) :=
  let ct_len := length (encrypted_encapsulated_packet packet) in
  if (dst_len <? ct_len)%nat then None
  else if negb (data_receiver_idx packet =? receiving_index s) then Some (Err WrongIndex, s)
  else if REJECT_AFTER_MESSAGES <=? counter packet then Some (Err InvalidCounter, s)
  else
    match receiving_counter_quick_check s (counter packet) with
    | Err e => Some (Err e, s)
    | Ok _ =>
        if (ct_len <? AEAD_SIZE)%nat then None
        else
          let pt_len := (ct_len - AEAD_SIZE)%nat in
          let ciphertext := take pt_len (encrypted_encapsulated_packet packet) in
          let tag_bytes := drop pt_len (encrypted_encapsulated_packet packet) in
          match aead_open (receiver s) (nonce_of (counter packet)) ciphertext tag_bytes with
          | None => Some (Err InvalidAeadTag, s)
          | Some ret =>
              let! '(r, s) := receiving_counter_mark s (counter packet) in
              match r with
              | Err e => Some (Err e, s)
              | Ok _ => Some (Ok ret, s)
              end
          end
    end.

Definition current_packet_cnt (s : session) : Z * Z :=
  (Validator.nxt (receiving_key_counter s), Validator.receive_cnt (receiving_key_counter s)).
End session.

(** ** Lemmas on sessions *)

(** What a session has received, and how many. *)
Definition received_by (s : session) (received : list Z) : Prop :=
  Validator.window (receiving_key_counter s) (λ c, c ∈ received) ∧ NoDup received ∧
  Validator.receive_cnt (receiving_key_counter s) = Z.of_nat (length received).

Lemma window_equiv v (P Q : Z → Prop) :
  (∀ c, P c ↔ Q c) → Validator.window v P → Validator.window v Q.
Proof.
  intros HPQ [H1 H2 H3 H4 H5]. split; [done|done| | |].
  - intros c Hc%HPQ. by apply H3.
  - intros Hn. by apply HPQ, H4.
  - intros c Hc Hw. rewrite <- HPQ. by apply H5.
Qed.

Lemma receiving_counter_mark_spec s received c :
  received_by s received → 0 ≤ c → c + 1 < 2 ^ 64 →
  ∃ r s', receiving_counter_mark s c = Some (r, s') ∧
  match r with
  | Ok _ => (c ∉ received) ∧ received_by s' (c :: received)
  | Err e => e = InvalidCounter ∧ s' = s ∧
      (c + N_BITS < Validator.nxt (receiving_key_counter s) ∨ c ∈ received)
  end ∧
  receiving_index s' = receiving_index s ∧ sending_index s' = sending_index s ∧
  receiver s' = receiver s ∧ sender s' = sender s ∧ sending_key_counter s' = sending_key_counter s.
Proof.
  intros (Hwin & Hnd & Hcnt) Hc Hw. unfold receiving_counter_mark.
  destruct (Validator.mark_did_receive_spec _ _ _ Hwin Hc Hw) as (r & v & -> & Hcv & Hr).
  cbn [mbind option_bind]. eexists _, _. split; [done|]. split; [|done]. destruct r as [[]|e]; cbn [is_ok].
  - destruct Hr as (_ & Hnin & Hwin'). split; [done|]. split; [|split].
    + cbn [receiving_key_counter]. eapply window_equiv; [|].
      2: { destruct Hwin' as [H1 H2 H3 H4 H5]. split; [exact H1|exact H2|exact H3|exact H4|exact H5]. }
      intros x. unfold Validator.add_received. rewrite elem_of_cons. tauto.
    + by apply NoDup_cons.
    + cbn. rewrite Hcv, Hcnt. lia.
  - destruct Hr as (-> & -> & Hor). split; [done|]. split; [by destruct s|done].
Qed.

Lemma received_by_new l p rk sk : received_by (session_new l p rk sk) [].
Proof.
  split; [|split; [constructor|done]].
  eapply window_equiv; [|exact Validator.window_new]. intros c. by rewrite elem_of_nil.
Qed.

Lemma align16_spec n : (n ≤ align16 n < n + 16)%nat ∧ (align16 n mod 16 = 0)%nat.
Proof.
  unfold align16. change (Z.lnot 15) with (Z.lnot (Z.ones 4)).
  rewrite <- Z.ldiff_land, Z.ldiff_ones_r by lia.
  rewrite Z.shiftl_mul_pow2, Z.shiftr_div_pow2 by lia. change (2 ^ 4) with 16.
  set (x := Z.of_nat n + 15). pose proof (Z.div_mod x 16 ltac:(done)).
  pose proof (Z.mod_pos_bound x 16 ltac:(done)). pose proof (Z.div_pos x 16 ltac:(lia) ltac:(done)).
  split; [lia|]. apply Nat2Z.inj. rewrite Nat2Z.inj_mod, Z2Nat.id by lia.
  apply Z.mod_mul. done.
Qed.

Lemma padded_len_ge src : (length src ≤ padded_len src)%nat.
Proof.
  unfold padded_len. destruct src as [|b src]; [done|].
  destruct (_ <=? _)%nat; [|done]. apply align16_spec.
Qed.

Lemma nonce_of_inj c1 c2 :
  in_width 64 c1 → in_width 64 c2 → nonce_of c1 = nonce_of c2 → c1 = c2.
Proof.
  intros H1 H2 He. apply app_inj_1 in He as [_ He]; [|done].
  rewrite <- (from_to_le_bytes 8 c1), <- (from_to_le_bytes 8 c2) by done. by rewrite He.
Qed.

Lemma counter_bounds c : 0 ≤ c → c < REJECT_AFTER_MESSAGES → in_width 64 c ∧ c + 1 < 2 ^ 64.
Proof. unfold REJECT_AFTER_MESSAGES, in_width. change (u64_max - Z.shiftl 1 16 - 1) with (2 ^ 64 - 65538). lia. Qed.

(** Everything of a session but what receiving moves. *)
Record same_end (s s' : session) : Prop := {
  same_receiving_index : receiving_index s' = receiving_index s;
  same_sending_index : sending_index s' = sending_index s;
  same_receiver : receiver s' = receiver s;
  same_sender : sender s' = sender s;
  same_sending_counter : sending_key_counter s' = sending_key_counter s
}.

(** The session after sending one packet. *)
Definition bump (s : session) : session :=
  Session (receiving_index s) (sending_index s) (receiver s) (sender s)
    (sending_key_counter s + 1) (receiving_key_counter s).

Lemma mark_exact (s : session) (received : list Z) (c : Z) :
  received_by s received → 0 ≤ c < REJECT_AFTER_MESSAGES →
  ∃ r s', receiving_counter_mark s c = Some (r, s') ∧
  (r = Ok tt ↔ (c ∉ received) ∧ ∀ x, x ∈ received → x < c + N_BITS) ∧
  (r = Ok tt ↔ receiving_counter_quick_check s c = Ok tt) ∧
  received_by s' (if is_ok r then c :: received else received) ∧ same_end s s'.
Proof.
  intros Hr [Hc Hlt]. destruct (counter_bounds c Hc Hlt) as [_ Hw].
  destruct (receiving_counter_mark_spec s received c Hr Hc Hw)
    as (r & s' & Hm & Hpost & E1 & E2 & E3 & E4 & E5).
  exists r, s'. split; [done|]. destruct Hr as (Hwin & Hnd & Hcnt).
  destruct (Validator.will_accept_spec _ _ c Hwin Hc) as (Hacc & _ & _).
  assert (Validator.nxt (receiving_key_counter s) ≤ c + N_BITS ↔ ∀ x, x ∈ received → x < c + N_BITS) as Hnear.
  { pose proof (Validator.window_nxt _ _ Hwin) as Hn. split.
    - intros Hle x Hx. apply (Validator.window_below _ _ Hwin) in Hx. lia.
    - intros Hall. destruct (decide (0 < Validator.nxt (receiving_key_counter s))) as [Hp|];
        [|unfold N_BITS, WORD_SIZE, N_WORDS; lia].
      pose proof (Hall _ (Validator.window_top _ _ Hwin Hp)). lia. }
  unfold receiving_counter_quick_check. rewrite Hacc, <- Hnear.
  destruct r as [[]|e]; cbn [is_ok].
  - destruct Hpost as [Hnin Hr'].
    assert (Validator.nxt (receiving_key_counter s) ≤ c + N_BITS) as Hle.
    { destruct (decide (Validator.nxt (receiving_key_counter s) ≤ c + N_BITS)); [done|exfalso].
      unfold receiving_counter_mark, Validator.mark_did_receive in Hm.
      by rewrite (proj2 (Z.ltb_lt _ _)) in Hm by lia. }
    by split_and!.
  - destruct Hpost as (-> & -> & Hor). split_and!; [| |done|done].
    + split; [done|]. intros [Hnin Hle]. destruct Hor; [lia|done].
    + split; [done|]. intros [Hle Hnin]. destruct Hor; [lia|done].
Qed.

(** ** Properties *)

(** C19: replay protection is exact. A counter is accepted once and only once:
    [receiving_counter_mark] accepts it exactly when it was not received
    before and is less than 256 behind the highest received counter plus one,
    whatever the order, gaps and jumps of the counters received so far, and it
    agrees with the quick check made before decryption. *)
Theorem replay_window_exact (s : session) (received : list Z) (c : Z) :
  received_by s received → 0 ≤ c < REJECT_AFTER_MESSAGES →
  ∃ r s', receiving_counter_mark s c = Some (r, s') ∧
  (r = Ok tt ↔ (c ∉ received) ∧ ∀ x, x ∈ received → x < c + N_BITS) ∧
  (r = Ok tt ↔ receiving_counter_quick_check s c = Ok tt) ∧
  received_by s' (if is_ok r then c :: received else received).
Proof.
  intros Hr Hc. destruct (mark_exact s received c Hr Hc) as (r & s' & H1 & H2 & H3 & H4 & _).
  by exists r, s'.
Qed.

Lemma replay_window_exact_witness :
  let s := session_new 1 2 [] [] in
  received_by s [] ∧ 0 ≤ 300 < REJECT_AFTER_MESSAGES ∧
  ∃ r s', receiving_counter_mark s 300 = Some (r, s') ∧ r = Ok tt ∧ received_by s' [300].
Proof.
  intros s. assert (received_by s []) as Hr by apply received_by_new.
  assert (0 ≤ 300 < REJECT_AFTER_MESSAGES) as Hc by (split; [lia|reflexivity]).
  split; [exact Hr|]. split; [exact Hc|].
  destruct (replay_window_exact s [] 300 Hr Hc) as (r & s' & H1 & H2 & _ & H3).
  assert (r = Ok tt) as Hok.
  { apply H2. split; [apply not_elem_of_nil|]. intros x Hx. by apply not_elem_of_nil in Hx. }
  exists r, s'. split; [exact H1|]. split; [exact Hok|]. rewrite Hok in H3. exact H3.
Defined.

(** A message that could be sent: its counter is below the limit and the
    buffer holds it. *)
Lemma format_spec `{aead} s ty src dst_len :
  (DATA_OFFSET + padded_len src + AEAD_SIZE ≤ dst_len)%nat →
  format_packet_data_with_type s ty src dst_len =
    Some (if REJECT_AFTER_MESSAGES <=? sending_key_counter s then (None, s)
      else let ct := aead_seal (sender s) (nonce_of (sending_key_counter s))
             (src ++ repeat 0 (padded_len src - length src)) in
        (Some (to_le_bytes 4 ty ++ to_le_bytes 4 (sending_index s) ++
           to_le_bytes 8 (sending_key_counter s) ++ ct.1 ++ ct.2),
         Session (receiving_index s) (sending_index s) (receiver s) (sender s)
           (sending_key_counter s + 1) (receiving_key_counter s))).
Proof.
  intros Hd. unfold format_packet_data_with_type. rewrite (proj2 (Nat.ltb_ge _ _)) by done.
  destruct (_ <=? _); [done|]. by destruct (aead_seal _ _ _).
Qed.

(** A packet sent by one end and received by the other. *)
Lemma session_deliver `{aead_laws} (s r : session) (received : list Z) (relay : bool)
    (src : bytes) (dst_len dst_len' : nat) :
  received_by r received →
  sending_index s = receiving_index r → sender s = receiver r →
  in_width 32 (sending_index s) → 0 ≤ sending_key_counter s < REJECT_AFTER_MESSAGES →
  (sending_key_counter s ∉ received) →
  (∀ x, x ∈ received → x < sending_key_counter s + N_BITS) →
  (DATA_OFFSET + padded_len src + AEAD_SIZE ≤ dst_len)%nat →
  (padded_len src + AEAD_SIZE ≤ dst_len')%nat →
  let k := sending_key_counter s in
  let ty := if relay then RELAY_DATA else DATA in
  ∃ b p r',
    format_packet_data_with_type s ty src dst_len = Some (Some b, bump s) ∧
    parse_incoming_packet b = Some (Ok (if relay then PRelayData p else PData p)) ∧
    data_receiver_idx p = receiving_index r ∧ counter p = k ∧
    receive_packet_data r p dst_len' =
      Some (Ok (src ++ repeat 0 (padded_len src - length src)), r') ∧
    received_by r' (k :: received) ∧ same_end r r' ∧
    ∃ e, receive_packet_data r' p dst_len' = Some (Err e, r').
Proof.
  intros Hr Hidx Hkey Hwi Hk Hnin Hnear Hdst Hdst' k ty.
  destruct (counter_bounds k) as [Hwk Hk1]; [apply Hk|apply Hk|].
  rewrite format_spec by done. rewrite (proj2 (Z.leb_gt _ _)) by apply Hk. fold k.
  set (m := src ++ repeat 0 (padded_len src - length src)).
  assert (length m = padded_len src) as Hm.
  { unfold m. rewrite length_app, repeat_length. pose proof (padded_len_ge src). lia. }
  set (ct := aead_seal (sender s) (nonce_of k) m).
  assert (length ct.1 = padded_len src ∧ length ct.2 = 16%nat) as [Hc1 Hc2].
  { unfold ct. by rewrite aead_length, aead_tag_length, Hm. }
  set (p := Data (sending_index s) k (ct.1 ++ ct.2)).
  assert (data_ok p) as Hok.
  { split_and!; [done|done|]. cbn. rewrite length_app. lia. }
  assert (∀ r1 recv, received_by r1 recv → receiver r1 = receiver r → receiving_index r1 = receiving_index r →
    receive_packet_data r1 p dst_len' =
      match receiving_counter_quick_check r1 k with
      | Err e => Some (Err e, r1)
      | Ok _ => let! '(x, s) := receiving_counter_mark r1 k in
          match x with Err e => Some (Err e, s) | Ok _ => Some (Ok m, s) end
      end) as Hrecv.
  { intros r1 recv Hr1 Hkey1 Hidx1. unfold receive_packet_data. cbn [p encrypted_encapsulated_packet
      data_receiver_idx counter].
    rewrite length_app, Hc1, Hc2. rewrite (proj2 (Nat.ltb_ge _ _)) by (unfold AEAD_SIZE in *; lia).
    rewrite Hidx, Hidx1, Z.eqb_refl. cbn [negb]. rewrite (proj2 (Z.leb_gt _ _)) by apply Hk.
    destruct (receiving_counter_quick_check r1 k); [|done].
    rewrite (proj2 (Nat.ltb_ge _ _)) by (unfold AEAD_SIZE in *; lia).
    replace (padded_len src + 16 - AEAD_SIZE)%nat with (length ct.1) by (unfold AEAD_SIZE; lia).
    rewrite take_app_length, drop_app_length, Hkey1, <- Hkey. unfold ct. by rewrite aead_open_seal. }
  destruct (mark_exact r received k Hr Hk) as (x & r' & Hm1 & Hx & Hq & Hr' & Hsame).
  assert (x = Ok tt) as -> by (apply Hx; done). cbn [is_ok] in Hr'.
  eexists _, p, r'. split; [done|]. split_and!; [|by rewrite <- Hidx|done| |done|done|].
  - destruct relay; [pose proof (parse_encode (PRelayData p) []) as Hp|
      pose proof (parse_encode (PData p) []) as Hp]; by apply Hp.
  - rewrite (Hrecv r received) by done. rewrite (proj1 Hq) by done. rewrite Hm1. done.
  - rewrite (Hrecv r' (k :: received)) by (done || apply Hsame).
    destruct (mark_exact r' (k :: received) k Hr' Hk) as (y & r'' & Hm2 & Hy & Hq2 & _).
    assert (y ≠ Ok tt) as Hny.
    { intros ->. destruct (proj1 Hy eq_refl) as [Hn _]. apply Hn. by left. }
    destruct (receiving_counter_quick_check r' k) as [[]|e]; [by destruct Hny; apply Hq2|by exists e].
Qed.

(** What one session sends, the session at the other end receives. The
    formatted packet parses as the data packet of its type addressed to the
    peer's index; the peer decrypts it to the source padded with zeros, and
    marks its counter, which a replay then fails. *)
Theorem session_roundtrip `{aead_laws} (s r : session) (received : list Z) (relay : bool)
    (src : bytes) (dst_len dst_len' : nat) :
  received_by r received →
  sending_index s = receiving_index r → sender s = receiver r →
  in_width 32 (sending_index s) → 0 ≤ sending_key_counter s < REJECT_AFTER_MESSAGES →
  (sending_key_counter s ∉ received) →
  (∀ x, x ∈ received → x < sending_key_counter s + N_BITS) →
  (DATA_OFFSET + padded_len src + AEAD_SIZE ≤ dst_len)%nat →
  (padded_len src + AEAD_SIZE ≤ dst_len')%nat →
  let k := sending_key_counter s in
  let ty := if relay then RELAY_DATA else DATA in
  ∃ b s' p r' ,
    format_packet_data_with_type s ty src dst_len = Some (Some b, s') ∧
    sending_key_counter s' = k + 1 ∧
    parse_incoming_packet b = Some (Ok (if relay then PRelayData p else PData p)) ∧
    data_receiver_idx p = receiving_index r ∧ counter p = k ∧
    receive_packet_data r p dst_len' =
      Some (Ok (src ++ repeat 0 (padded_len src - length src)), r') ∧
    received_by r' (k :: received) ∧
    ∃ e, receive_packet_data r' p dst_len' = Some (Err e, r').
Proof.
  intros Hr Hidx Hkey Hwi Hk Hnin Hnear Hdst Hdst' k ty.
  destruct (session_deliver s r received relay src dst_len dst_len' Hr Hidx Hkey Hwi Hk Hnin Hnear
    Hdst Hdst') as (b & p & r' & Hf & Hp & Hi & Hc & Hrecv & Hr' & _ & Hre).
  exists b, (bump s), p, r'. by split_and!.
Qed.

(** A toy cipher for the concrete instances: it satisfies the laws. *)
Definition toy_aead : aead := {|
  aead_seal := λ k n m, (m, repeat 7 16);
  aead_open := λ k n c t, if decide (t = repeat 7 16) then Some c else None
|}.

Lemma toy_aead_laws : @aead_laws toy_aead.
Proof. split; intros; cbn; [by rewrite decide_True|done|done]. Qed.

Lemma session_roundtrip_witness :
  let s := session_new 1 2 [5] [6] in let r := session_new 2 1 [6] [5] in
  let src := [1; 2; 3] in
  received_by r [] ∧ sending_index s = receiving_index r ∧ sender s = receiver r ∧
  ∃ b s', format_packet_data_with_type (A := toy_aead) s DATA src 64 = Some (Some b, s').
Proof.
  intros s r src.
  assert (received_by r []) as Hr by apply received_by_new.
  split; [exact Hr|]. split; [reflexivity|]. split; [reflexivity|].
  destruct (session_roundtrip (H := toy_aead) (H0 := toy_aead_laws) s r [] false src 64 64 Hr eq_refl
    eq_refl) as (b & s' & _ & _ & H1 & _).
  - split; [vm_compute; congruence|reflexivity].
  - split; [vm_compute; congruence|reflexivity].
  - apply not_elem_of_nil.
  - intros x Hx. by apply not_elem_of_nil in Hx.
  - vm_compute. lia.
  - vm_compute. lia.
  - exists b, s'. exact H1.
Defined.

(** Sending messages one after the other. *)
Fixpoint send_all `{aead} (s : session) (msgs : list (Z * bytes * nat))
    : option (list (option bytes) * session) :=
  match msgs with
  | [] => Some ([], s)
  | (ty, src, dst_len) :: msgs =>
      let! '(out, s) := format_packet_data_with_type s ty src dst_len in
      let! '(outs, s) := send_all s msgs in
      Some (out :: outs, s)
  end.

(** The bytes of a data packet that carry its counter. *)
Definition counter_field (b : bytes) : bytes := slice 8 16 b.

Lemma send_all_spec `{aead} s msgs :
  0 ≤ sending_key_counter s →
  Forall (λ '(_, src, dst_len), (DATA_OFFSET + padded_len src + AEAD_SIZE ≤ dst_len)%nat) msgs →
  ∃ outs s', send_all s msgs = Some (outs, s') ∧ length outs = length msgs ∧
  ∀ i o, outs !! i = Some o →
    let k := sending_key_counter s + Z.of_nat i in
    match o with
    | Some b => k < REJECT_AFTER_MESSAGES ∧ counter_field b = to_le_bytes 8 k
    | None => REJECT_AFTER_MESSAGES ≤ k
    end.
Proof.
  revert s; induction msgs as [|[[ty src] dst_len] msgs IH]; intros s Hs Hm.
  { eexists _, _. split_and!; [done|done|]. by intros i o. }
  inversion_clear Hm as [|?? Hd Hm']. cbn [send_all]. rewrite format_spec by done.
  cbn [mbind option_bind]. destruct (Z.leb_spec REJECT_AFTER_MESSAGES (sending_key_counter s)) as [Hge|Hlt].
  - destruct (IH s Hs Hm') as (outs & s' & -> & Hlen & Hout). cbn [mbind option_bind].
    eexists _, _. split_and!; [done|by simpl; rewrite Hlen|]. intros [|i] o Ho.
    + injection Ho as <-. cbn zeta. lia.
    + specialize (Hout i o Ho). cbn in Hout. destruct o as [b|]; cbn zeta; [|lia].
      destruct Hout as [Hb _]. lia.
  - cbn [mbind option_bind]. set (s1 := Session _ _ _ _ _ _).
    destruct (IH s1) as (outs & s' & -> & Hlen & Hout); [unfold s1; cbn; lia|done|].
    cbn [mbind option_bind]. eexists _, _. split_and!; [done|by simpl; rewrite Hlen|].
    intros [|i] o Ho; cbn zeta.
    + apply Some_inj in Ho. subst o. rewrite Z.add_0_r. split; [done|].
      unfold counter_field. rewrite app_assoc. apply slice_app_mid';
        by rewrite !length_app, !length_to_le_bytes.
    + specialize (Hout i o Ho). cbn in Hout.
      replace (sending_key_counter s + Z.of_nat (S i)) with (sending_key_counter s + 1 + Z.of_nat i)
        by lia. done.
Qed.

(** C38: a nonce is never used twice under one key. Whatever is sent on a
    session, the packets carry the consecutive counters from where the session
    stood, so two different packets never share a nonce, no counter reaches
    REJECT_AFTER_MESSAGES, and from then on every send is refused without
    touching the counter. *)
Theorem nonces_never_repeat `{aead} (s : session) (msgs : list (Z * bytes * nat)) :
  0 ≤ sending_key_counter s →
  Forall (λ '(_, src, dst_len), (DATA_OFFSET + padded_len src + AEAD_SIZE ≤ dst_len)%nat) msgs →
  ∃ outs s', send_all s msgs = Some (outs, s') ∧ length outs = length msgs ∧
  (∀ i, outs !! i = Some None → REJECT_AFTER_MESSAGES ≤ sending_key_counter s + Z.of_nat i) ∧
  (∀ i b, outs !! i = Some (Some b) →
    sending_key_counter s + Z.of_nat i < REJECT_AFTER_MESSAGES ∧
    counter_field b = to_le_bytes 8 (sending_key_counter s + Z.of_nat i)) ∧
  (∀ i j b1 b2, outs !! i = Some (Some b1) → outs !! j = Some (Some b2) → i ≠ j →
    counter_field b1 ≠ counter_field b2).
Proof.
  intros Hs Hm. destruct (send_all_spec s msgs Hs Hm) as (outs & s' & Ho & Hl & Hout).
  exists outs, s'. split_and!; [done|done| | |].
  - intros i Hi. by specialize (Hout i _ Hi).
  - intros i b Hi. by specialize (Hout i _ Hi).
  - intros i j b1 b2 Hi Hj Hne He.
    destruct (Hout i _ Hi) as [Hi1 Hi2]. destruct (Hout j _ Hj) as [Hj1 Hj2].
    destruct (counter_bounds (sending_key_counter s + Z.of_nat i)) as [Hwi _]; [lia|done|].
    destruct (counter_bounds (sending_key_counter s + Z.of_nat j)) as [Hwj _]; [lia|done|].
    rewrite Hi2, Hj2 in He. apply (f_equal from_le_bytes) in He.
    rewrite !from_to_le_bytes in He by done. lia.
Qed.

Lemma nonces_never_repeat_witness :
  let s := Session 1 2 [] [] (REJECT_AFTER_MESSAGES - 1) Validator.new in
  let msgs := [(DATA, [1; 2; 3], 64%nat); (DATA, [], 64%nat)] in
  0 ≤ sending_key_counter s ∧
  Forall (λ '(_, src, dst_len), (DATA_OFFSET + padded_len src + AEAD_SIZE ≤ dst_len)%nat) msgs ∧
  ∃ outs s', send_all (H := toy_aead) s msgs = Some (outs, s') ∧ length outs = length msgs.
Proof.
  intros s msgs. assert (0 ≤ sending_key_counter s) as Hs by (vm_compute; congruence).
  assert (Forall (λ '(_, src, dst_len), (DATA_OFFSET + padded_len src + AEAD_SIZE ≤ dst_len)%nat) msgs)
    as Hm by (repeat constructor; vm_compute; lia).
  split; [exact Hs|]. split; [exact Hm|].
  destruct (nonces_never_repeat (H := toy_aead) s msgs Hs Hm) as (outs & s' & H1 & H2 & _).
  exists outs, s'. split; [exact H1|exact H2].
Defined.

(** The padding of a plaintext: never shorter than the source, a multiple
    of sixteen or the source itself, and never past the MTU unless the source
    already is. *)
Theorem padded_len_spec (src : bytes) :
  (length src ≤ padded_len src < length src + 16)%nat ∧
  (padded_len src mod 16 = 0 ∨ padded_len src = length src)%nat ∧
  (padded_len src ≤ length src `max` MTU)%nat.
Proof.
  unfold padded_len. destruct src as [|b src]; [by vm_compute; repeat split; auto; lia|].
  set (n := length (b :: src)). destruct (align16_spec n) as [Hb Hm].
  destruct (Nat.leb_spec (align16 n) MTU); (split_and!; [lia|lia| |lia]); auto.
Qed.

