(* ===== verification/Bounded.v ===== *)
(** * Bounded collections: [tendrilix/src/bounded.rs]

    The growable-or-fixed-capacity collections. A capacity is [None] with the
    [alloc] feature and [Some n] without it, where [n] is the const parameter
    of the [heapless] type. *)

From S2P Require Import Prelude.

Abbreviation capacity := (option nat).

(** [CapacityError]; its context string is for the log. *)
Inductive capacity_error : Type := CapacityError.

Definition has_room (cap : capacity) (len : nat) : bool :=
  match cap with
  | None => true
  | Some n => (len <? n)%nat
  end.

(** [TryPush::try_push] of [Vec] and of [heapless::Vec]. *)
Definition try_push {A} (cap : capacity) (l : list A) (x : A) : result (list A) capacity_error :=
  if has_room cap (length l) then Ok (l ++ [x]) else Err CapacityError.

Section keyed.
Context {K V : Type} `{Countable K}.

(** [TryInsert::try_insert_entry]: replacing the value of a present key needs
    no room. *)
Definition try_insert_entry (cap : capacity) (m : gmap K V) (k : K) (v : V)
    : result (gmap K V) capacity_error :=
  if bool_decide (is_Some (m !! k)) || has_room cap (size m) then Ok (<[k := v]> m)
  else Err CapacityError.

(** [TryInsertKey::try_insert_key] *)
Definition try_insert_key (cap : capacity) (s : gset K) (k : K) : result (gset K) capacity_error :=
  if bool_decide (k ∈ s) || has_room cap (size s) then Ok ({[k]} ∪ s) else Err CapacityError.

(** A map that never exceeds its capacity. *)
Definition within_capacity (cap : capacity) (len : nat) : Prop :=
  match cap with
  | None => True
  | Some n => (len ≤ n)%nat
  end.

Lemma has_room_spec cap len : has_room cap len = true ↔ within_capacity cap (S len).
Proof. destruct cap as [n|]; simpl; [rewrite Nat.ltb_lt; lia|done]. Qed.

Lemma try_insert_entry_Ok cap m k v m' :
  try_insert_entry cap m k v = Ok m' → m' = <[k := v]> m.
Proof. unfold try_insert_entry. by case_match; intros [= ->]. Qed.

Lemma try_insert_entry_Err cap m k v e :
  try_insert_entry cap m k v = Err e → m !! k = None ∧ has_room cap (size m) = false.
Proof.
  unfold try_insert_entry. case_bool_decide as Hk; simpl; [done|]. apply eq_None_not_Some in Hk.
  by destruct (has_room cap (size m)).
Qed.

Lemma try_insert_entry_within cap m k v m' :
  within_capacity cap (size m) → try_insert_entry cap m k v = Ok m' → within_capacity cap (size m').
Proof.
  unfold try_insert_entry. intros Hm. case_bool_decide as Hk; simpl.
  - intros [= <-]. by rewrite map_size_insert_Some by done.
  - destruct (has_room cap (size m)) eqn:Hr; [|done]. intros [= <-].
    rewrite map_size_insert_None by (by apply eq_None_not_Some). by apply has_room_spec.
Qed.

Lemma try_insert_entry_present cap m k v :
  is_Some (m !! k) → try_insert_entry cap m k v = Ok (<[k := v]> m).
Proof. intros. unfold try_insert_entry. by rewrite bool_decide_eq_true_2. Qed.

Lemma try_insert_entry_alloc m k v : try_insert_entry None m k v = Ok (<[k := v]> m).
Proof. unfold try_insert_entry. by rewrite orb_true_r. Qed.
End keyed.

Lemma try_push_Ok {A} cap (l l' : list A) x : try_push cap l x = Ok l' → l' = l ++ [x].
Proof. unfold try_push. by case_match; intros [= ->]. Qed.

Lemma try_push_room {A} cap (l : list A) x :
  within_capacity cap (S (length l)) → try_push cap l x = Ok (l ++ [x]).
Proof. intros Hl. unfold try_push. by apply has_room_spec in Hl as ->. Qed.
