(* ===== verification/PeerHealth.v ===== *)
(** * Route health: [tendrilix/src/control/peer_health.rs]

    The per-peer state machine that folds traffic samples into route health
    and decides when the reconciler changes the route policy of a peer. The
    file holds the health of one route ([Module Policy]), the state machine of
    a peer, its invariant, the theorems on single observations and those on
    whole histories. Instants and durations are nanoseconds; an [Instant] that
    overflows is not modelled. *)

From S2P Require Import Prelude IpNet Bounded.

(** ** Constants *)

Definition POLICY_FAILURE_SCORE : Z := 4.
Definition UNHEALTHY_SCORE_DELTA : Z := 2.
Definition HEALTHY_SCORE_DELTA : Z := 1.
Definition MIN_POLICY_SWITCH_INTERVAL : Z := from_secs 120.
Definition INITIAL_FAILOVER_GRACE : Z := from_secs 15.
Definition MAX_SWITCH_BACKOFF_SHIFT : Z := 3.
Definition SWITCH_BACKOFF_RESET_INTERVAL : Z := from_secs 600.
Definition RECOVERY_PROBE_INTERVAL : Z := from_secs 120.
Definition POLICY_FAILURE_DECAY_INTERVAL : Z := from_secs 600.
Definition MAX_HEALTH_JITTER : Z := from_secs 15.
Definition INBOUND_SILENCE_TIMEOUT : Z := from_secs 25.

(** Saturating arithmetic of the small counters. *)
Definition i8_saturate (x : Z) : Z := Z.max (- (128)) (Z.min 127 x).
Definition u8_saturate (x : Z) : Z := Z.min u8_max x.
Definition u32_saturate (x : Z) : Z := Z.min u32_max x.

(** ** Data *)

(** [RouteKey]; a public key is its 32 bytes. *)
Inductive route_key : Type :=
  | Direct (endpoint : option socket_addr)
  | Relay (key : bytes).

#[global] Instance route_key_eq_dec : EqDecision route_key.
Proof. solve_decision. Defined.

Inductive switch_reason : Type := Failover | RecoveryProbe | RecoveryFailed.

#[global] Instance switch_reason_eq_dec : EqDecision switch_reason.
Proof. solve_decision. Defined.

Inductive health_decision : Type :=
  | Stay
  | Switch (next_policy : nat) (reason : switch_reason)
  | PeerInactive
  | NoViablePolicy.

#[global] Instance health_decision_eq_dec : EqDecision health_decision.
Proof. solve_decision. Defined.

Inductive peer_liveness : Type := PeerUnknown | Reachable | LikelyInactive.

Inductive policy_state : Type := Unknown | Healthy | Suspect | Failed.

#[global] Instance policy_state_eq_dec : EqDecision policy_state.
Proof. solve_decision. Defined.

(** [Sample]; [SampleHealthy] keeps clear of the state of the same name. *)
Inductive sample : Type := SampleHealthy | SampleUnhealthy | SampleIdle.

(** The packet counters of [PeerStats], the only fields the machine reads. *)
Record peer_stats := PeerStats { tx_packets : Z; rx_packets : Z }.

(** ** The health of one route *)

Module Policy.

Record policy_health := PolicyHealth {
  suspicion : Z;
  consecutive_failures : Z;
  last_success : option Z;
  last_failure : option Z;
  state : policy_state
}.

Definition new : policy_health := PolicyHealth 0 0 None None Unknown.

Definition record_success (h : policy_health) (now : Z) : policy_health :=
  PolicyHealth (Z.max (i8_saturate (suspicion h - HEALTHY_SCORE_DELTA)) 0) 0
    (Some now) (last_failure h) Healthy.

Definition record_failure (h : policy_health) (now : Z) : policy_health :=
  let suspicion' := Z.min (i8_saturate (suspicion h + UNHEALTHY_SCORE_DELTA)) POLICY_FAILURE_SCORE in
  PolicyHealth suspicion' (u8_saturate (consecutive_failures h + 1))
    (last_success h) (Some now)
    (if POLICY_FAILURE_SCORE <=? suspicion' then Failed else Suspect).

Definition is_failed (h : policy_health) : bool :=
  (POLICY_FAILURE_SCORE <=? suspicion h) || bool_decide (state h = Failed).

(** The condition of the loop of [decay]. *)
Definition decay_due (suspicion anchor now : Z) : bool :=
  (0 <? suspicion) && (POLICY_FAILURE_DECAY_INTERVAL <=? duration_since now anchor).

(** The loop sheds one suspicion step per turn: [suspicion] turns are enough
    ([decay_loop_exit]). *)
Fixpoint decay_loop (fuel : nat) (suspicion anchor now : Z) : Z * Z :=
  match fuel with
  | O => (suspicion, anchor)
  | S fuel =>
      if decay_due suspicion anchor now then
        decay_loop fuel (Z.max (i8_saturate (suspicion - HEALTHY_SCORE_DELTA)) 0)
          (anchor + POLICY_FAILURE_DECAY_INTERVAL) now
      else (suspicion, anchor)
  end.

Definition decay (h : policy_health) (now : Z) : policy_health :=
  match last_failure h with
  | None => h
  | Some anchor =>
      if suspicion h =? 0 then h
      else
        let '(s, anchor) := decay_loop (Z.to_nat (suspicion h)) (suspicion h) anchor now in
        if s =? 0 then
          PolicyHealth s (consecutive_failures h) (last_success h) None Unknown
        else
          PolicyHealth s (consecutive_failures h) (last_success h) (Some anchor)
            (if POLICY_FAILURE_SCORE <=? s then Failed else Suspect)
  end.

End Policy.

Import Policy.

Record policy_health_entry := PolicyHealthEntry { route : route_key; health : policy_health }.

Definition entry_new (r : route_key) : policy_health_entry := PolicyHealthEntry r Policy.new.

(** ** The state machine of a peer *)

Record peer_health := PeerHealth {
  active_policy : nat;
  liveness : peer_liveness;
  consecutive_peer_failures : Z;
  last_switch : Z;
  switch_count : Z;
  next_recovery_attempt_at : Z;
  last_tx_packets : Z;
  last_rx_packets : Z;
  last_inbound_at : option Z;
  has_observed_stats : bool;
  policies : list policy_health_entry;
  recovery_fallback : option nat;
  jitter : Z
}.

(** Assignments to one field. *)
Definition set_policies (ps : list policy_health_entry) (h : peer_health) : peer_health :=
  PeerHealth (active_policy h) (liveness h) (consecutive_peer_failures h) (last_switch h)
    (switch_count h) (next_recovery_attempt_at h) (last_tx_packets h) (last_rx_packets h)
    (last_inbound_at h) (has_observed_stats h) ps (recovery_fallback h) (jitter h).
Definition set_active_policy (a : nat) (h : peer_health) : peer_health :=
  PeerHealth a (liveness h) (consecutive_peer_failures h) (last_switch h)
    (switch_count h) (next_recovery_attempt_at h) (last_tx_packets h) (last_rx_packets h)
    (last_inbound_at h) (has_observed_stats h) (policies h) (recovery_fallback h) (jitter h).
Definition set_liveness (l : peer_liveness) (h : peer_health) : peer_health :=
  PeerHealth (active_policy h) l (consecutive_peer_failures h) (last_switch h)
    (switch_count h) (next_recovery_attempt_at h) (last_tx_packets h) (last_rx_packets h)
    (last_inbound_at h) (has_observed_stats h) (policies h) (recovery_fallback h) (jitter h).
Definition set_consecutive_peer_failures (n : Z) (h : peer_health) : peer_health :=
  PeerHealth (active_policy h) (liveness h) n (last_switch h)
    (switch_count h) (next_recovery_attempt_at h) (last_tx_packets h) (last_rx_packets h)
    (last_inbound_at h) (has_observed_stats h) (policies h) (recovery_fallback h) (jitter h).
Definition set_next_recovery_attempt_at (t : Z) (h : peer_health) : peer_health :=
  PeerHealth (active_policy h) (liveness h) (consecutive_peer_failures h) (last_switch h)
    (switch_count h) t (last_tx_packets h) (last_rx_packets h)
    (last_inbound_at h) (has_observed_stats h) (policies h) (recovery_fallback h) (jitter h).
Definition set_packets (tx rx : Z) (h : peer_health) : peer_health :=
  PeerHealth (active_policy h) (liveness h) (consecutive_peer_failures h) (last_switch h)
    (switch_count h) (next_recovery_attempt_at h) tx rx
    (last_inbound_at h) (has_observed_stats h) (policies h) (recovery_fallback h) (jitter h).
Definition set_last_inbound_at (t : option Z) (h : peer_health) : peer_health :=
  PeerHealth (active_policy h) (liveness h) (consecutive_peer_failures h) (last_switch h)
    (switch_count h) (next_recovery_attempt_at h) (last_tx_packets h) (last_rx_packets h)
    t (has_observed_stats h) (policies h) (recovery_fallback h) (jitter h).
Definition set_has_observed_stats (b : bool) (h : peer_health) : peer_health :=
  PeerHealth (active_policy h) (liveness h) (consecutive_peer_failures h) (last_switch h)
    (switch_count h) (next_recovery_attempt_at h) (last_tx_packets h) (last_rx_packets h)
    (last_inbound_at h) b (policies h) (recovery_fallback h) (jitter h).
Definition set_recovery_fallback (f : option nat) (h : peer_health) : peer_health :=
  PeerHealth (active_policy h) (liveness h) (consecutive_peer_failures h) (last_switch h)
    (switch_count h) (next_recovery_attempt_at h) (last_tx_packets h) (last_rx_packets h)
    (last_inbound_at h) (has_observed_stats h) (policies h) f (jitter h).

(** [jitter_from_rng]: [draw] is the [u64] that [next_u64] returns. *)
Definition jitter_from_rng (draw : Z) : Z :=
  let max_secs := MAX_HEALTH_JITTER / NANOS_PER_SEC in
  if max_secs =? 0 then from_secs 0 else from_secs (draw mod (max_secs + 1)).

Definition new_with_jitter (active_policy : nat) (now jitter : Z) : peer_health :=
  PeerHealth active_policy PeerUnknown 0 now 0 (now + RECOVERY_PROBE_INTERVAL + jitter) 0 0
    None false [] None jitter.

Definition new_with_rng (active_policy : nat) (now draw : Z) : peer_health :=
  new_with_jitter active_policy now (jitter_from_rng draw).

Definition active_route (h : peer_health) : option route_key :=
  route <$> policies h !! active_policy h.

(** The first entry of a route, or a fresh one. *)
Definition entry_for (ps : list policy_health_entry) (r : route_key) : policy_health_entry :=
  match list_find (λ e, route e = r) ps with
  | Some (_, e) => e
  | None => entry_new r
  end.

(** The loop of [sync_policies]; an entry that finds no room is dropped. *)
Definition sync_entries (cap : capacity) (ps : list policy_health_entry) (routes : list route_key)
    : list policy_health_entry :=
  fold_left (λ next r,
    match try_push cap next (entry_for ps r) with
    | Ok next => next
    | Err _ => next
    end) routes [].

Definition sync_policies (cap : capacity) (active : nat) (routes : list route_key)
    (h : peer_health) : peer_health :=
  let h := set_policies (sync_entries cap (policies h) routes) h in
  let h := set_active_policy (Nat.min active (length routes - 1)) h in
  match recovery_fallback h with
  | Some fallback =>
      if (length routes <=? fallback)%nat then set_recovery_fallback None h else h
  | None => h
  end.

Definition sync_active_policy (active : nat) (h : peer_health) : peer_health :=
  set_active_policy active h.

Definition reset_policy_state (h : peer_health) : peer_health :=
  set_recovery_fallback None (set_policies [] h).

Definition inbound_silence (h : peer_health) (now : Z) : Z :=
  let anchor := default (last_switch h) (last_inbound_at h) in
  duration_since now anchor.

Definition classify (h : peer_health) (stats : peer_stats) (now : Z) : sample :=
  let received_more := last_rx_packets h <? rx_packets stats in
  let sent_more := last_tx_packets h <? tx_packets stats in
  if received_more then SampleHealthy
  else if sent_more && (INBOUND_SILENCE_TIMEOUT <=? inbound_silence h now) then SampleUnhealthy
  else SampleIdle.

Definition schedule_next_recovery_attempt (h : peer_health) (now : Z) : peer_health :=
  set_next_recovery_attempt_at (now + RECOVERY_PROBE_INTERVAL + jitter h) h.

Definition record_activity (h : peer_health) (now : Z) : peer_health :=
  schedule_next_recovery_attempt h now.

(** [if let Some(entry) = self.policy_health.get_mut(policy) { ... }] *)
Definition update_policy (h : peer_health) (policy : nat) (f : policy_health → policy_health)
    : peer_health :=
  set_policies (alter (λ e, PolicyHealthEntry (route e) (f (health e))) policy (policies h)) h.

Definition record_sample (h : peer_health) (policy : nat) (s : sample) (now : Z) : peer_health :=
  match s with
  | SampleHealthy =>
      let h := update_policy h policy (λ p, record_success p now) in
      let h := set_consecutive_peer_failures 0 (set_liveness Reachable h) in
      record_activity h now
  | SampleUnhealthy =>
      let h := set_consecutive_peer_failures (u8_saturate (consecutive_peer_failures h + 1)) h in
      update_policy h policy (λ p, record_failure p now)
  | SampleIdle => h
  end.

Definition recovery_attempt_due (h : peer_health) (now : Z) : bool :=
  next_recovery_attempt_at h <=? now.

Definition has_activity (stats : peer_stats) : bool :=
  (0 <? tx_packets stats) || (0 <? rx_packets stats).

Definition current_switch_cooldown (h : peer_health) : Z :=
  if switch_count h =? 0 then INITIAL_FAILOVER_GRACE + jitter h
  else
    let shift := Z.min (switch_count h - 1) MAX_SWITCH_BACKOFF_SHIFT in
    MIN_POLICY_SWITCH_INTERVAL * Z.shiftl 1 shift + jitter h.

Definition cooldown_elapsed (h : peer_health) (now : Z) : bool :=
  current_switch_cooldown h <=? duration_since now (last_switch h).

Definition switch_to (h : peer_health) (policy : nat) (now : Z) (recovery_probe : bool)
    : peer_health :=
  let previous := active_policy h in
  let count :=
    if SWITCH_BACKOFF_RESET_INTERVAL <=? duration_since now (last_switch h) then 0
    else switch_count h in
  let h := PeerHealth policy (liveness h) (consecutive_peer_failures h) now
    (u32_saturate (count + 1)) (next_recovery_attempt_at h) (last_tx_packets h) (last_rx_packets h)
    None (has_observed_stats h) (policies h)
    (if recovery_probe then Some previous else None) (jitter h) in
  schedule_next_recovery_attempt h now.

Definition policy_failed (h : peer_health) (policy : nat) : bool :=
  match policies h !! policy with
  | Some e => is_failed (health e)
  | None => false
  end.

Definition has_any_route_success (h : peer_health) : bool :=
  existsb (λ e, bool_decide (is_Some (last_success (health e)))) (policies h).

(** The suspicion of a policy; 0 when it has no entry. *)
Definition policy_suspicion (h : peer_health) (idx : nat) : Z :=
  match policies h !! idx with
  | Some e => suspicion (health e)
  | None => 0
  end.

(** The key [(suspicion, idx)] of the searches, ordered lexicographically. *)
Definition policy_le (h : peer_health) (i j : nat) : bool :=
  (policy_suspicion h i <? policy_suspicion h j) ||
  ((policy_suspicion h i =? policy_suspicion h j) && (i <=? j)%nat).

(** [Iterator::min_by_key]: the first of the least elements. *)
Fixpoint min_by {A} (le : A → A → bool) (l : list A) : option A :=
  match l with
  | [] => None
  | x :: l =>
      match min_by le l with
      | None => Some x
      | Some y => if le x y then Some x else Some y
      end
  end.

Definition active_fallback_validated (h : peer_health) (active : nat) : bool :=
  match policies h !! active with
  | Some e =>
      match last_success (health e) with
      | Some t => last_switch h <=? t
      | None => false
      end
  | None => false
  end.

Definition best_recovery_policy (h : peer_health) (active : nat) : option nat :=
  if (active =? 0)%nat then None
  else
    min_by (policy_le h)
      (filter (λ idx, negb (policy_failed h idx) || active_fallback_validated h active = true)
        (seq 0 active)).

Definition best_failover_policy (h : peer_health) (active count : nat) : option nat :=
  min_by (policy_le h)
    (filter (λ idx, negb (policy_failed h idx) = true)
      (filter (λ idx, negb (idx =? active)%nat = true) (seq 0 count))).

Definition decide_recovery_probe (h : peer_health) (active : nat) (sent_more recovery_due : bool)
    (now : Z) : health_decision * peer_health :=
  if negb sent_more || negb recovery_due then (Stay, h)
  else
    match best_recovery_policy h active with
    | Some next => (Switch next RecoveryProbe, switch_to h next now true)
    | None => (Stay, h)
    end.

(** The part of [decide_after_unhealthy] that follows the recovery decision. *)
Definition decide_failover (h : peer_health) (active count : nat) (now : Z)
    : health_decision * peer_health :=
  if policy_failed h active then
    match best_failover_policy h active count with
    | Some next => (Switch next Failover, switch_to h next now false)
    | None =>
        if negb (has_any_route_success h) && (2 <? consecutive_peer_failures h) then
          (PeerInactive, set_liveness LikelyInactive h)
        else (NoViablePolicy, h)
    end
  else (Stay, h).

(** [if let Some(fallback) = ... && fallback < policy_count && ...] *)
Definition fallback_target (h : peer_health) (active count : nat) : option nat :=
  match recovery_fallback h with
  | Some fallback =>
      if (fallback <? count)%nat && negb (fallback =? active)%nat then Some fallback else None
  | None => None
  end.

Definition decide_after_unhealthy (h : peer_health) (active count : nat)
    (sent_more recovery_due : bool) (now : Z) : health_decision * peer_health :=
  let target := fallback_target h active count in
  let h := set_recovery_fallback None h in
  match target with
  | Some fallback => (Switch fallback RecoveryFailed, switch_to h fallback now false)
  | None =>
      if negb (cooldown_elapsed h now) then (Stay, h)
      else
        match decide_recovery_probe h active sent_more recovery_due now with
        | (Stay, h) => decide_failover h active count now
        | (decision, h) => (decision, h)
        end
  end.

Definition decay_all (h : peer_health) (now : Z) : peer_health :=
  set_policies (map (λ e, PolicyHealthEntry (route e) (decay (health e) now)) (policies h)) h.

(** The first sample: it seeds the counters. *)
Definition observe_first (h : peer_health) (stats : peer_stats) (now : Z) : peer_health :=
  let h := set_packets (tx_packets stats) (rx_packets stats) (set_has_observed_stats true h) in
  let h := if 0 <? rx_packets stats then set_last_inbound_at (Some now) h else h in
  if has_activity stats then record_activity h now else h.

(** The state a later sample leaves before the decision. *)
Definition observe_record (h : peer_health) (stats : peer_stats) (now : Z) : peer_health :=
  let s := classify h stats now in
  let received_more := last_rx_packets h <? rx_packets stats in
  let h := if received_more then set_last_inbound_at (Some now) h else h in
  let h := set_packets (tx_packets stats) (rx_packets stats) h in
  record_sample (decay_all h now) (active_policy h) s now.

Definition observe (cap : capacity) (h : peer_health) (stats : peer_stats)
    (routes : list route_key) (now : Z) : health_decision * peer_health :=
  let h := sync_policies cap (active_policy h) routes h in
  if (length routes <=? 1)%nat then (Stay, h)
  else if negb (has_observed_stats h) then (Stay, observe_first h stats now)
  else
    let sent_more := last_tx_packets h <? tx_packets stats in
    let recovery_was_due := recovery_attempt_due h now in
    let s := classify h stats now in
    let active := active_policy h in
    let h := observe_record h stats now in
    match s with
    | SampleHealthy =>
        decide_recovery_probe (set_recovery_fallback None h) active sent_more recovery_was_due now
    | SampleIdle => (Stay, h)
    | SampleUnhealthy =>
        decide_after_unhealthy h active (length routes) sent_more recovery_was_due now
    end.

(** ** The health of one route stays well formed *)

Record wf_policy (p : policy_health) : Prop := {
  wf_suspicion : 0 ≤ suspicion p ≤ POLICY_FAILURE_SCORE;
  wf_failed : state p = Failed ↔ suspicion p = POLICY_FAILURE_SCORE;
  wf_unknown : state p = Unknown → suspicion p = 0;
  wf_suspect : state p = Suspect → 0 < suspicion p;
  wf_anchor : 0 < suspicion p → is_Some (last_failure p)
}.

Lemma wf_policy_new : wf_policy Policy.new.
Proof. split; simpl; try done; unfold POLICY_FAILURE_SCORE; lia. Qed.

Lemma is_failed_score p : wf_policy p → is_failed p = (suspicion p =? POLICY_FAILURE_SCORE).
Proof.
  intros [Hs Hf _ _ _]. unfold is_failed. case_bool_decide as Hst.
  - apply Hf in Hst. rewrite Hst, Z.eqb_refl. apply orb_true_r.
  - rewrite orb_false_r. destruct (Z.eqb_spec (suspicion p) POLICY_FAILURE_SCORE) as [He|He].
    + tauto.
    + apply Z.leb_gt. lia.
Qed.

(** The label a score gets once it is positive. *)
Lemma wf_scored s n ls a :
  0 < s ≤ POLICY_FAILURE_SCORE →
  wf_policy (PolicyHealth s n ls (Some a) (if POLICY_FAILURE_SCORE <=? s then Failed else Suspect)).
Proof.
  unfold POLICY_FAILURE_SCORE. intros Hs. destruct (Z.leb_spec 4 s).
  all: split; simpl; unfold POLICY_FAILURE_SCORE; try done; try lia.
  all: split; intros; first [done | lia | exfalso; lia].
Qed.

Lemma wf_record_success p now : wf_policy p → wf_policy (record_success p now).
Proof.
  intros [Hs Hf _ _ Ha]. unfold POLICY_FAILURE_SCORE in *.
  split; simpl; unfold i8_saturate, HEALTHY_SCORE_DELTA, POLICY_FAILURE_SCORE; try done; try lia.
  - split; [done|lia].
  - intros. apply Ha. lia.
Qed.

Lemma record_failure_suspicion p now :
  wf_policy p → suspicion (record_failure p now) = Z.min (suspicion p + 2) 4.
Proof.
  intros [Hs _ _ _ _]. unfold POLICY_FAILURE_SCORE in *. simpl.
  unfold i8_saturate, UNHEALTHY_SCORE_DELTA, POLICY_FAILURE_SCORE. lia.
Qed.

Lemma wf_record_failure p now : wf_policy p → wf_policy (record_failure p now).
Proof.
  intros Hp. pose proof (record_failure_suspicion p now Hp) as Hs. simpl in Hs.
  unfold record_failure. cbv zeta. rewrite Hs. apply wf_scored.
  destruct Hp as [Hr _ _ _ _]. unfold POLICY_FAILURE_SCORE in *. lia.
Qed.

(** One step of the loop lowers a positive suspicion by exactly one. *)
Lemma decay_step s : 0 < s ≤ POLICY_FAILURE_SCORE →
  Z.max (i8_saturate (s - HEALTHY_SCORE_DELTA)) 0 = s - 1.
Proof. unfold POLICY_FAILURE_SCORE, i8_saturate, HEALTHY_SCORE_DELTA. lia. Qed.

(** The number of whole decay intervals since [anchor]. *)
Definition decay_steps (now anchor : Z) : Z := duration_since now anchor / POLICY_FAILURE_DECAY_INTERVAL.

Lemma decay_due_spec s anchor now :
  decay_due s anchor now = true ↔ 0 < s ∧ 1 ≤ decay_steps now anchor.
Proof.
  unfold decay_due, decay_steps. rewrite andb_true_iff, Z.ltb_lt, Z.leb_le.
  set (d := duration_since now anchor). change POLICY_FAILURE_DECAY_INTERVAL with 600000000000.
  split; intros [H1 H2]; (split; [done|]).
  - apply Z.div_le_lower_bound; lia.
  - pose proof (Z.mul_div_le d 600000000000). lia.
Qed.

Lemma decay_steps_nonneg now anchor : 0 ≤ decay_steps now anchor.
Proof. unfold decay_steps, duration_since. apply Z.div_pos; [lia|done]. Qed.

Lemma decay_steps_advance now anchor :
  1 ≤ decay_steps now anchor →
  decay_steps now (anchor + POLICY_FAILURE_DECAY_INTERVAL) = decay_steps now anchor - 1.
Proof.
  unfold decay_steps, duration_since. change POLICY_FAILURE_DECAY_INTERVAL with 600000000000.
  intros Hd. pose proof (Z.mul_div_le (Z.max 0 (now - anchor)) 600000000000).
  replace (Z.max 0 (now - anchor)) with (Z.max 0 (now - (anchor + 600000000000)) + 1 * 600000000000) by lia.
  rewrite Z.div_add by lia. lia.
Qed.

(** The loop in closed form: it sheds as many steps as intervals have passed. *)
Lemma decay_loop_closed fuel s anchor now :
  s ≤ POLICY_FAILURE_SCORE → 0 ≤ s ≤ Z.of_nat fuel →
  let k := Z.min s (decay_steps now anchor) in
  decay_loop fuel s anchor now = (s - k, anchor + k * POLICY_FAILURE_DECAY_INTERVAL).
Proof.
  revert s anchor; induction fuel as [|fuel IH]; intros s anchor Hs Hf; cbv zeta.
  - pose proof (decay_steps_nonneg now anchor). simpl.
    assert (s `min` decay_steps now anchor = 0) as -> by lia. f_equal; lia.
  - pose proof (decay_steps_nonneg now anchor) as Hn. cbn [decay_loop].
    destruct (decay_due s anchor now) eqn:Hd.
    + apply decay_due_spec in Hd as [H1 H2]. rewrite decay_step by lia.
      rewrite IH by lia. rewrite decay_steps_advance by done.
      assert ((s - 1) `min` (decay_steps now anchor - 1) = s `min` decay_steps now anchor - 1)
        as -> by lia. f_equal; lia.
    + assert (¬ (0 < s ∧ 1 ≤ decay_steps now anchor)) by (rewrite <- decay_due_spec, Hd; done).
      assert (s `min` decay_steps now anchor = 0) as -> by lia. f_equal; lia.
Qed.

(** With that fuel the loop stops because its condition is false. *)
Lemma decay_loop_exit s anchor now :
  0 ≤ s ≤ POLICY_FAILURE_SCORE →
  let '(s', anchor') := decay_loop (Z.to_nat s) s anchor now in decay_due s' anchor' now = false.
Proof.
  intros Hs. rewrite decay_loop_closed by lia. apply not_true_iff_false. rewrite decay_due_spec.
  intros [H1 H2]. assert (Z.min s (decay_steps now anchor) = decay_steps now anchor) as Hk by lia.
  rewrite Hk in H2. revert H2.
  unfold decay_steps, duration_since. change POLICY_FAILURE_DECAY_INTERVAL with 600000000000.
  set (d := Z.max 0 (now - anchor)). pose proof (Z.div_mod d 600000000000 ltac:(lia)) as Hdm.
  pose proof (Z.mod_pos_bound d 600000000000 ltac:(lia)).
  intros H2. assert (Z.max 0 (now - (anchor + d / 600000000000 * 600000000000)) < 600000000000) by lia.
  rewrite Z.div_small in H2 by lia. lia.
Qed.

Lemma wf_decay p now : wf_policy p → wf_policy (decay p now).
Proof.
  intros Hp. pose proof Hp as [Hs Hf Hu Hsu Ha]. unfold decay.
  destruct (last_failure p) as [anchor|] eqn:Hl; [|done].
  destruct (Z.eqb_spec (suspicion p) 0) as [H0|H0]; [done|].
  rewrite decay_loop_closed by lia.
  pose proof (decay_steps_nonneg now anchor).
  destruct (Z.eqb_spec (suspicion p - Z.min (suspicion p) (decay_steps now anchor)) 0) as [Hz|Hz].
  - rewrite Hz. split; simpl; unfold POLICY_FAILURE_SCORE; try done; lia.
  - apply wf_scored. lia.
Qed.

(** How [decay] moves the score. *)
Lemma decay_suspicion p now :
  wf_policy p →
  suspicion (decay p now) =
    match last_failure p with
    | Some anchor => Z.max 0 (suspicion p - decay_steps now anchor)
    | None => suspicion p
    end.
Proof.
  intros [Hs Hf Hu Hsu Ha]. unfold decay.
  destruct (last_failure p) as [anchor|] eqn:Hl; [|done].
  pose proof (decay_steps_nonneg now anchor).
  destruct (Z.eqb_spec (suspicion p) 0) as [H0|H0]; [lia|].
  rewrite decay_loop_closed by lia.
  destruct (Z.eqb_spec (suspicion p - Z.min (suspicion p) (decay_steps now anchor)) 0); simpl; lia.
Qed.

Lemma decay_suspicion_le p now : wf_policy p → suspicion (decay p now) ≤ suspicion p.
Proof.
  intros Hp. rewrite decay_suspicion by done. destruct Hp as [Hs _ _ _ _].
  case_match; [|lia]. pose proof (decay_steps_nonneg now z). lia.
Qed.

Lemma decay_not_failed p now : wf_policy p → is_failed p = false → is_failed (decay p now) = false.
Proof.
  intros Hp. rewrite !is_failed_score by auto using wf_decay.
  pose proof (decay_suspicion_le p now Hp). destruct Hp as [Hs _ _ _ _].
  rewrite !Z.eqb_neq. lia.
Qed.

Lemma decay_last_success p now : last_success (decay p now) = last_success p.
Proof. unfold decay. repeat (case_match; simpl; try done). Qed.

(** ** Searches *)

Lemma min_by_spec {A} (le : A → A → bool) l :
  (∀ x, le x x = true) → (∀ x y z, le x y = true → le y z = true → le x z = true) →
  (∀ x y, le x y = false → le y x = true) →
  match min_by le l with
  | Some x => x ∈ l ∧ ∀ y, y ∈ l → le x y = true
  | None => l = []
  end.
Proof.
  intros Hr Ht Hl. induction l as [|a l IH]; [done|]. simpl.
  destruct (min_by le l) as [m|] eqn:Hm.
  - destruct IH as [Hin Hmin]. destruct (le a m) eqn:Ha.
    + split; [left|]. intros y [->|Hy]%elem_of_cons; [apply Hr|]. eauto.
    + split; [by right|]. intros y [->|Hy]%elem_of_cons; eauto.
  - subst l. split; [left|]. intros y ->%list_elem_of_singleton. apply Hr.
Qed.

Lemma policy_le_spec h i j :
  policy_le h i j = true ↔
  policy_suspicion h i < policy_suspicion h j ∨
  policy_suspicion h i = policy_suspicion h j ∧ (i ≤ j)%nat.
Proof.
  unfold policy_le.
  rewrite orb_true_iff, andb_true_iff, Z.ltb_lt, Z.eqb_eq, Nat.leb_le. done.
Qed.

Lemma min_policy_spec h l :
  match min_by (policy_le h) l with
  | Some x => x ∈ l ∧ ∀ y, y ∈ l → policy_le h x y = true
  | None => l = []
  end.
Proof.
  apply min_by_spec.
  - intros x. rewrite policy_le_spec. lia.
  - intros x y z. rewrite !policy_le_spec. lia.
  - intros x y Hf. apply not_true_iff_false in Hf. rewrite policy_le_spec in *. lia.
Qed.

(** ** Aligning with the routes *)

Lemma sync_entries_spec cap ps routes :
  within_capacity cap (length routes) → sync_entries cap ps routes = map (entry_for ps) routes.
Proof.
  unfold sync_entries. rewrite <- (app_nil_l (map _ _)). rewrite <- (Nat.add_0_l (length routes)).
  change 0%nat with (length (@nil policy_health_entry)) at 1.
  generalize (@nil policy_health_entry) as acc.
  induction routes as [|r routes IH]; intros acc Hc; simpl in *; [by rewrite app_nil_r|].
  rewrite try_push_room by (destruct cap; simpl in *; [lia|done]).
  rewrite IH by (destruct cap; simpl in *; rewrite ?length_app; simpl; [lia|done]).
  by rewrite <- app_assoc.
Qed.

Lemma sync_entries_forall (P : policy_health_entry → Prop) cap ps routes :
  Forall P ps → (∀ r, P (entry_new r)) → Forall P (sync_entries cap ps routes).
Proof.
  intros Hps Hnew. unfold sync_entries. apply fold_left_invariant; [constructor|].
  intros next r _ Hn. unfold try_push. case_match; [case_match|done]; simplify_eq.
  apply Forall_app. split; [done|]. constructor; [|constructor].
  unfold entry_for. destruct (list_find _ ps) as [[i e]|] eqn:Hf; [|apply Hnew].
  apply list_find_Some in Hf as (Hi & _). exact (Forall_lookup_1 _ _ _ _ Hps Hi).
Qed.

Lemma entry_for_route ps r : route (entry_for ps r) = r.
Proof.
  unfold entry_for. destruct (list_find _ ps) as [[i e]|] eqn:Hf; [|done].
  by apply list_find_Some in Hf as (_ & -> & _).
Qed.

(** The fields [sync_policies] leaves alone, and those it sets. *)
Lemma sync_policies_fields cap a routes h :
  let h0 := sync_policies cap a routes h in
  liveness h0 = liveness h ∧ consecutive_peer_failures h0 = consecutive_peer_failures h ∧
  last_switch h0 = last_switch h ∧ switch_count h0 = switch_count h ∧
  next_recovery_attempt_at h0 = next_recovery_attempt_at h ∧
  last_tx_packets h0 = last_tx_packets h ∧ last_rx_packets h0 = last_rx_packets h ∧
  last_inbound_at h0 = last_inbound_at h ∧ has_observed_stats h0 = has_observed_stats h ∧
  policies h0 = sync_entries cap (policies h) routes ∧ jitter h0 = jitter h ∧
  active_policy h0 = Nat.min a (length routes - 1) ∧
  recovery_fallback h0 =
    (let! f := recovery_fallback h in if (f <? length routes)%nat then Some f else None).
Proof.
  cbv zeta. unfold sync_policies. simpl. destruct (recovery_fallback h) as [f|] eqn:Hf.
  - cbn [mbind option_bind]. destruct (Nat.leb_spec (length routes) f), (Nat.ltb_spec f (length routes));
      by lia || split_and!.
  - by split_and!.
Qed.

Lemma sync_active_lt cap a routes h :
  routes ≠ [] → (active_policy (sync_policies cap a routes h) < length routes)%nat.
Proof.
  intros Hr. destruct (sync_policies_fields cap a routes h) as (_&_&_&_&_&_&_&_&_&_&_&->&_).
  destruct routes; simpl in *; [done|lia].
Qed.

(** ** The invariant of a peer *)

Record wf_health (h : peer_health) : Prop := {
  wf_policies : Forall (λ e, wf_policy (health e)) (policies h);
  wf_peer_failures : 0 ≤ consecutive_peer_failures h ≤ u8_max;
  wf_switch_count : 0 ≤ switch_count h ≤ u32_max;
  wf_jitter : 0 ≤ jitter h ≤ MAX_HEALTH_JITTER
}.

Lemma wf_new_with_jitter a now j : 0 ≤ j ≤ MAX_HEALTH_JITTER → wf_health (new_with_jitter a now j).
Proof. split; simpl; done. Qed.

Lemma jitter_from_rng_bound draw : 0 ≤ jitter_from_rng draw ≤ MAX_HEALTH_JITTER.
Proof.
  unfold jitter_from_rng. change (MAX_HEALTH_JITTER / NANOS_PER_SEC) with 15.
  change (15 =? 0) with false. change (15 + 1) with 16. cbv iota.
  pose proof (Z.mod_pos_bound draw 16 ltac:(lia)).
  change MAX_HEALTH_JITTER with (15 * 1000000000). unfold from_secs, NANOS_PER_SEC. lia.
Qed.

Lemma wf_sync cap a routes h : wf_health h → wf_health (sync_policies cap a routes h).
Proof.
  intros [Hp Hf Hc Hj].
  destruct (sync_policies_fields cap a routes h) as (_&E1&_&E2&_&_&_&_&_&E3&E4&_).
  split; rewrite ?E1, ?E2, ?E3, ?E4; try done.
  apply sync_entries_forall; [done|]. intros r. apply wf_policy_new.
Qed.

Lemma wf_update_policy h i f :
  (∀ p, wf_policy p → wf_policy (f p)) → wf_health h → wf_health (update_policy h i f).
Proof.
  intros Hf [Hp ? ? ?]. split; simpl; try done.
  apply Forall_alter; [done|]. intros e _. apply Hf.
Qed.

Lemma wf_observe_first h stats now : wf_health h → wf_health (observe_first h stats now).
Proof. intros [? ? ? ?]. unfold observe_first. split; repeat case_match; done. Qed.

Lemma wf_record_sample h i s now : wf_health h → wf_health (record_sample h i s now).
Proof.
  intros Hh. destruct s; [| |done].
  - pose proof (wf_update_policy h i (λ p, record_success p now)
      (λ p, wf_record_success p now) Hh) as [? ? ? ?]. split; simpl; try done.
  - assert (wf_health (set_consecutive_peer_failures
      (u8_saturate (consecutive_peer_failures h + 1)) h)) as Hh'.
    { destruct Hh as [? ? ? ?]. split; simpl; try done. unfold u8_saturate, u8_max in *. lia. }
    simpl. apply wf_update_policy; [|done]. intros p. apply wf_record_failure.
Qed.

Lemma wf_observe_record h stats now : wf_health h → wf_health (observe_record h stats now).
Proof.
  intros [Hp ? ? ?]. unfold observe_record. apply wf_record_sample.
  case_match; split; simpl; try done; rewrite Forall_map; simpl;
    (eapply Forall_impl; [exact Hp|]); intros e; apply wf_decay.
Qed.

Lemma wf_switch_to h n now probe : wf_health h → wf_health (switch_to h n now probe).
Proof.
  intros [? ? ? ?]. split; simpl; try done. unfold u32_saturate.
  assert (0 ≤ u32_max) by done. case_match; lia.
Qed.

Lemma wf_set_recovery_fallback f h : wf_health h → wf_health (set_recovery_fallback f h).
Proof. by intros [? ? ? ?]. Qed.

Create HintDb health discriminated.
#[export] Hint Resolve wf_sync wf_observe_first wf_observe_record wf_switch_to
  wf_set_recovery_fallback : health.

Lemma wf_decide_recovery_probe h a sent due now :
  wf_health h → wf_health (decide_recovery_probe h a sent due now).2.
Proof. intros. unfold decide_recovery_probe. repeat case_match; simpl; auto with health. Qed.

Lemma wf_decide_failover h a n now : wf_health h → wf_health (decide_failover h a n now).2.
Proof.
  intros Hh. unfold decide_failover. repeat case_match; simpl; auto with health.
  by destruct Hh as [? ? ? ?].
Qed.

Lemma wf_decide_after_unhealthy h a n sent due now :
  wf_health h → wf_health (decide_after_unhealthy h a n sent due now).2.
Proof.
  intros Hh. unfold decide_after_unhealthy.
  apply (wf_set_recovery_fallback None) in Hh.
  destruct (fallback_target h a n); [by apply wf_switch_to|].
  case_match; [done|].
  pose proof (wf_decide_recovery_probe (set_recovery_fallback None h) a sent due now Hh) as Hp.
  destruct (decide_recovery_probe _ _ _ _ _) as [[] h1]; try done. by apply wf_decide_failover.
Qed.

Lemma wf_observe cap h stats routes now :
  wf_health h → wf_health (observe cap h stats routes now).2.
Proof.
  intros Hh. unfold observe. repeat case_match; simpl; auto with health.
  - apply wf_decide_recovery_probe. auto with health.
  - apply wf_decide_after_unhealthy. auto with health.
Qed.

(** ** What the searches return *)

Lemma best_failover_spec h a n :
  match best_failover_policy h a n with
  | Some i => ((i < n)%nat ∧ i ≠ a ∧ policy_failed h i = false) ∧
      ∀ j, (j < n)%nat → j ≠ a → policy_failed h j = false → policy_le h i j = true
  | None => ∀ j, (j < n)%nat → j ≠ a → policy_failed h j = true
  end.
Proof.
  unfold best_failover_policy.
  set (l := filter _ (filter _ _)).
  assert (∀ j, j ∈ l ↔ (j < n)%nat ∧ j ≠ a ∧ policy_failed h j = false) as Hl.
  { intros j. unfold l. rewrite !list_elem_of_filter, !negb_true_iff, Nat.eqb_neq, elem_of_seq.
    intuition lia. }
  pose proof (min_policy_spec h l) as Hm. destruct (min_by (policy_le h) l) as [i|].
  - destruct Hm as [Hi Hm]. apply Hl in Hi. split; [done|].
    intros j H1 H2 H3. apply Hm, Hl. done.
  - intros j H1 H2. destruct (policy_failed h j) eqn:Hf; [done|].
    assert (j ∈ l) as Hj by (by apply Hl). rewrite Hm in Hj. by apply not_elem_of_nil in Hj.
Qed.

(** A higher-priority route may be probed. *)
Definition probe_eligible (h : peer_health) (a j : nat) : Prop :=
  (j < a)%nat ∧ (policy_failed h j = false ∨ active_fallback_validated h a = true).

Lemma best_recovery_spec h a :
  match best_recovery_policy h a with
  | Some i => probe_eligible h a i ∧ ∀ j, probe_eligible h a j → policy_le h i j = true
  | None => ∀ j, ¬ probe_eligible h a j
  end.
Proof.
  unfold best_recovery_policy, probe_eligible.
  destruct (Nat.eqb_spec a 0) as [->|Ha]; [intros j [? _]; lia|].
  set (l := filter _ _).
  assert (∀ j, j ∈ l ↔ probe_eligible h a j) as Hl.
  { intros j. unfold l, probe_eligible.
    rewrite list_elem_of_filter, orb_true_iff, negb_true_iff, elem_of_seq. intuition lia. }
  pose proof (min_policy_spec h l) as Hm. destruct (min_by (policy_le h) l) as [i|].
  - destruct Hm as [Hi Hm]. split; [by apply Hl|]. intros j Hj. by apply Hm, Hl.
  - intros j Hj. apply Hl in Hj. rewrite Hm in Hj. by apply not_elem_of_nil in Hj.
Qed.

(** ** Why an observation switches *)

(** The evidence behind each reason, in the state [h] the sample is judged in
    ([h0] synchronised, [hr] with the sample folded in). *)
Definition unanswered (h0 : peer_health) (stats : peer_stats) (now : Z) : Prop :=
  last_tx_packets h0 < tx_packets stats ∧ rx_packets stats ≤ last_rx_packets h0 ∧
  INBOUND_SILENCE_TIMEOUT ≤ inbound_silence h0 now.

Definition switch_evidence (h0 hr : peer_health) (stats : peer_stats) (count : nat) (now : Z)
    (n : nat) (r : switch_reason) : Prop :=
  let a := active_policy h0 in
  match r with
  | Failover =>
      unanswered h0 stats now ∧ cooldown_elapsed h0 now = true ∧ policy_failed hr a = true ∧
      policy_failed hr n = false ∧
      (∀ j, (j < count)%nat → j ≠ a → policy_failed hr j = false → policy_le hr n j = true)
  | RecoveryProbe =>
      last_tx_packets h0 < tx_packets stats ∧ next_recovery_attempt_at h0 ≤ now ∧
      probe_eligible hr a n ∧ (∀ j, probe_eligible hr a j → policy_le hr n j = true)
  | RecoveryFailed => unanswered h0 stats now ∧ recovery_fallback h0 = Some n
  end.

(** The state a switch leaves. *)
Record switched (h0 h' : peer_health) (n : nat) (r : switch_reason) (now : Z) : Prop := {
  switched_active : active_policy h' = n;
  switched_last : last_switch h' = now;
  switched_inbound : last_inbound_at h' = None;
  switched_fallback : recovery_fallback h' =
    if decide (r = RecoveryProbe) then Some (active_policy h0) else None;
  switched_next : next_recovery_attempt_at h' = now + RECOVERY_PROBE_INTERVAL + jitter h0;
  switched_jitter : jitter h' = jitter h0;
  switched_count : switch_count h' =
    u32_saturate ((if SWITCH_BACKOFF_RESET_INTERVAL <=? duration_since now (last_switch h0)
      then 0 else switch_count h0) + 1)
}.

(** Fields that recording a sample leaves alone. *)
Lemma observe_record_fields h stats now :
  let hr := observe_record h stats now in
  active_policy hr = active_policy h ∧ last_switch hr = last_switch h ∧
  switch_count hr = switch_count h ∧ jitter hr = jitter h ∧
  recovery_fallback hr = recovery_fallback h ∧
  last_tx_packets hr = tx_packets stats ∧ last_rx_packets hr = rx_packets stats ∧
  has_observed_stats hr = has_observed_stats h ∧
  last_inbound_at hr =
    (if last_rx_packets h <? rx_packets stats then Some now else last_inbound_at h) ∧
  next_recovery_attempt_at hr =
    (if last_rx_packets h <? rx_packets stats then now + RECOVERY_PROBE_INTERVAL + jitter h
     else next_recovery_attempt_at h).
Proof.
  cbv zeta. unfold observe_record, classify.
  destruct (last_rx_packets h <? rx_packets stats); [by split_and!|].
  destruct (_ && _); by split_and!.
Qed.

Lemma classify_spec h stats now :
  match classify h stats now with
  | SampleHealthy => last_rx_packets h < rx_packets stats
  | SampleUnhealthy => unanswered h stats now
  | SampleIdle => ¬ last_rx_packets h < rx_packets stats ∧ ¬ unanswered h stats now
  end.
Proof.
  unfold classify, unanswered. destruct (Z.ltb_spec (last_rx_packets h) (rx_packets stats)); [done|].
  destruct (Z.ltb_spec (last_tx_packets h) (tx_packets stats)); simpl; [|lia].
  destruct (Z.leb_spec INBOUND_SILENCE_TIMEOUT (inbound_silence h now)); lia.
Qed.

Lemma switched_by h0 hr n r now :
  active_policy hr = active_policy h0 → last_switch hr = last_switch h0 →
  switch_count hr = switch_count h0 → jitter hr = jitter h0 →
  switched h0 (switch_to hr n now (bool_decide (r = RecoveryProbe))) n r now.
Proof.
  intros E1 E2 E3 E4. unfold switch_to. rewrite E1, E2, E3.
  split; simpl; rewrite ?E4; try done. by rewrite bool_decide_decide; case_decide.
Qed.

Lemma decide_recovery_probe_spec h a sent due now d h' :
  decide_recovery_probe h a sent due now = (d, h') →
  match d with
  | Switch n r => r = RecoveryProbe ∧ sent = true ∧ due = true ∧
      probe_eligible h a n ∧ (∀ j, probe_eligible h a j → policy_le h n j = true) ∧
      h' = switch_to h n now true
  | _ => d = Stay ∧ h' = h
  end.
Proof.
  unfold decide_recovery_probe. pose proof (best_recovery_spec h a) as Hb.
  destruct sent, due; simpl; try (by intros [= <- <-]).
  destruct (best_recovery_policy h a) as [n|]; intros [= <- <-]; [|done].
  destruct Hb as [? ?]. by split_and!.
Qed.

Lemma decide_after_unhealthy_spec h a count sent due now d h' :
  decide_after_unhealthy h a count sent due now = (d, h') →
  match d with
  | Switch n RecoveryFailed => recovery_fallback h = Some n ∧ (n < count)%nat ∧ n ≠ a ∧
      h' = switch_to (set_recovery_fallback None h) n now false
  | Switch n RecoveryProbe => sent = true ∧ due = true ∧
      probe_eligible h a n ∧ (∀ j, probe_eligible h a j → policy_le h n j = true) ∧
      h' = switch_to (set_recovery_fallback None h) n now true
  | Switch n Failover => cooldown_elapsed h now = true ∧ policy_failed h a = true ∧
      ((n < count)%nat ∧ n ≠ a ∧ policy_failed h n = false) ∧
      (∀ j, (j < count)%nat → j ≠ a → policy_failed h j = false → policy_le h n j = true) ∧
      h' = switch_to (set_recovery_fallback None h) n now false
  | Stay => h' = set_recovery_fallback None h ∧
      (cooldown_elapsed h now = false ∨ policy_failed h a = false)
  | PeerInactive => h' = set_liveness LikelyInactive (set_recovery_fallback None h) ∧
      (∀ j, (j < count)%nat → j ≠ a → policy_failed h j = true) ∧
      has_any_route_success h = false ∧ 2 < consecutive_peer_failures h
  | NoViablePolicy => h' = set_recovery_fallback None h ∧
      (∀ j, (j < count)%nat → j ≠ a → policy_failed h j = true)
  end.
Proof.
  unfold decide_after_unhealthy. destruct (fallback_target h a count) as [f|] eqn:Hf.
  { intros [= <- <-]. unfold fallback_target in Hf. destruct (recovery_fallback h) as [f'|]; [|done].
    destruct (Nat.ltb_spec f' count), (Nat.eqb_spec f' a); simplify_eq/=. by split_and!. }
  set (h1 := set_recovery_fallback None h).
  change (cooldown_elapsed h1 now) with (cooldown_elapsed h now).
  destruct (cooldown_elapsed h now); simpl negb; cbv iota; [|intros [= <- <-]; auto].
  destruct (decide_recovery_probe h1 a sent due now) as [d1 h2] eqn:Hd.
  apply decide_recovery_probe_spec in Hd. destruct d1 as [|n r| |]; try (by destruct Hd).
  - destruct Hd as [_ ->]. unfold decide_failover.
    change (policy_failed h1 a) with (policy_failed h a).
    destruct (policy_failed h a); [|intros [= <- <-]; auto].
    change (best_failover_policy h1 a count) with (best_failover_policy h a count).
    pose proof (best_failover_spec h a count) as Hb.
    destruct (best_failover_policy h a count) as [n|].
    { destruct Hb as [(?&?&?) Hm]. intros [= <- <-]. by split_and!. }
    destruct (negb (has_any_route_success h1) && (2 <? consecutive_peer_failures h1)) eqn:Hi;
      intros [= <- <-]; [|done].
    apply andb_true_iff in Hi as [Hi1 Hi2]. split_and!; [done|done|by apply negb_true_iff|].
    by apply Z.ltb_lt in Hi2.
  - intros [= <- <-]. destruct Hd as (-> & ? & ? & ? & ? & ->). by split_and!.
Qed.

(** A step of [observe]: the sample is folded in, then judged. *)
Lemma observe_eq cap h stats routes now :
  (1 < length routes)%nat → has_observed_stats h = true →
  let h0 := sync_policies cap (active_policy h) routes h in
  let hr := observe_record h0 stats now in
  observe cap h stats routes now =
    let sent := last_tx_packets h0 <? tx_packets stats in
    let due := recovery_attempt_due h0 now in
    match classify h0 stats now with
    | SampleHealthy =>
        decide_recovery_probe (set_recovery_fallback None hr) (active_policy h0) sent due now
    | SampleIdle => (Stay, hr)
    | SampleUnhealthy =>
        decide_after_unhealthy hr (active_policy h0) (length routes) sent due now
    end.
Proof.
  intros Hlen Hobs. cbv zeta. unfold observe. set (h0 := sync_policies _ _ _ _).
  assert (has_observed_stats h0 = has_observed_stats h) as Eobs by apply sync_policies_fields.
  destruct (Nat.leb_spec (length routes) 1); [lia|]. by rewrite Eobs, Hobs.
Qed.

(** Few routes or a first sample: the machine stays. *)
Lemma observe_stay cap h stats routes now :
  ¬ ((1 < length routes)%nat ∧ has_observed_stats h = true) →
  let h0 := sync_policies cap (active_policy h) routes h in
  observe cap h stats routes now =
    (Stay, if (length routes <=? 1)%nat then h0 else observe_first h0 stats now).
Proof.
  intros Hn. cbv zeta. unfold observe. set (h0 := sync_policies _ _ _ _).
  assert (has_observed_stats h0 = has_observed_stats h) as Eobs by apply sync_policies_fields.
  destruct (Nat.leb_spec (length routes) 1); [done|].
  rewrite Eobs. destruct (has_observed_stats h); [|done]. destruct Hn. split; [lia|done].
Qed.

(** The decision of a sample, with the switches explained. *)
Lemma observe_switch cap h stats routes now n r h' :
  let h0 := sync_policies cap (active_policy h) routes h in
  let hr := observe_record h0 stats now in
  observe cap h stats routes now = (Switch n r, h') →
  ((1 < length routes)%nat ∧ (n < length routes)%nat ∧ n ≠ active_policy h0) ∧
  has_observed_stats h = true ∧
  switch_evidence h0 hr stats (length routes) now n r ∧ switched h0 h' n r now.
Proof.
  cbv zeta. set (h0 := sync_policies _ _ _ _). set (hr := observe_record h0 stats now).
  destruct (decide ((1 < length routes)%nat ∧ has_observed_stats h = true)) as [[Hlen Hobs]|Hn];
    [|by rewrite observe_stay].
  assert (active_policy h0 < length routes)%nat as Hact.
  { apply sync_active_lt. destruct routes; simpl in Hlen; [lia|done]. }
  rewrite observe_eq by done. fold h0 hr. cbv zeta.
  destruct (observe_record_fields h0 stats now) as (E1&E2&E3&E4&E5&_). fold hr in E1, E2, E3, E4, E5.
  pose proof (classify_spec h0 stats now) as Hs. destruct (classify h0 stats now); [| |done].
  - intros (-> & Hsent & Hdue & Hel & Hmin & ->)%decide_recovery_probe_spec.
    pose proof Hel as [Hlt _]. apply Z.ltb_lt in Hsent. apply Z.leb_le in Hdue.
    split; [split_and!; lia|]. split; [done|]. split; [done|].
    by apply (switched_by h0 (set_recovery_fallback None hr) n RecoveryProbe).
  - intros Hd%decide_after_unhealthy_spec. destruct r.
    + destruct Hd as (Hc & Hfa & (Hn1 & Hn2 & Hn3) & Hm & ->).
      unfold cooldown_elapsed, current_switch_cooldown in Hc. rewrite E2, E3, E4 in Hc.
      split; [done|]. split; [done|]. split; [done|].
      by apply (switched_by h0 (set_recovery_fallback None hr) n Failover).
    + destruct Hd as (Hsent & Hdue & Hel & Hm & ->).
      pose proof Hel as [Hlt _]. apply Z.ltb_lt in Hsent. apply Z.leb_le in Hdue.
      split; [split_and!; lia|]. split; [done|]. split; [done|].
      by apply (switched_by h0 (set_recovery_fallback None hr) n RecoveryProbe).
    + destruct Hd as (Hf & Hn1 & Hn2 & ->). rewrite E5 in Hf.
      split; [done|]. split; [done|]. split; [done|].
      by apply (switched_by h0 (set_recovery_fallback None hr) n RecoveryFailed).
Qed.

(** ** What an observation that stays changes *)

Record stayed (h0 h' : peer_health) (now : Z) : Prop := {
  stayed_active : active_policy h' = active_policy h0;
  stayed_last : last_switch h' = last_switch h0;
  stayed_count : switch_count h' = switch_count h0;
  stayed_jitter : jitter h' = jitter h0;
  stayed_fallback : recovery_fallback h' = None ∨ recovery_fallback h' = recovery_fallback h0;
  stayed_inbound : last_inbound_at h' = last_inbound_at h0 ∨ last_inbound_at h' = Some now;
  stayed_next : next_recovery_attempt_at h' = next_recovery_attempt_at h0 ∨
    next_recovery_attempt_at h' = now + RECOVERY_PROBE_INTERVAL + jitter h0
}.

Lemma stayed_refl h now : stayed h h now.
Proof. split; auto. Qed.

Lemma stayed_observe_first h stats now : stayed h (observe_first h stats now) now.
Proof. unfold observe_first. split; repeat case_match; auto. Qed.

Lemma stayed_observe_record h stats now : stayed h (observe_record h stats now) now.
Proof.
  destruct (observe_record_fields h stats now) as (E1&E2&E3&E4&E5&_&_&_&E9&E10).
  split; rewrite ?E1, ?E2, ?E3, ?E4, ?E5, ?E9, ?E10; auto; case_match; auto.
Qed.

Lemma stayed_clear h h' now :
  stayed h h' now → stayed h (set_recovery_fallback None h') now.
Proof. intros [? ? ? ? ? ? ?]. split; auto. Qed.

Lemma stayed_inactive h h' now : stayed h h' now → stayed h (set_liveness LikelyInactive h') now.
Proof. intros [? ? ? ? ? ? ?]. split; auto. Qed.

#[export] Hint Resolve stayed_refl stayed_observe_first stayed_observe_record stayed_clear
  stayed_inactive : health.

Lemma observe_stayed cap h stats routes now d h' :
  let h0 := sync_policies cap (active_policy h) routes h in
  observe cap h stats routes now = (d, h') → (∀ n r, d ≠ Switch n r) → stayed h0 h' now.
Proof.
  cbv zeta. set (h0 := sync_policies _ _ _ _).
  destruct (decide ((1 < length routes)%nat ∧ has_observed_stats h = true)) as [[Hlen Hobs]|Hn].
  - rewrite observe_eq by done. fold h0. cbv zeta. intros Hd Hns. destruct (classify h0 stats now).
    + apply decide_recovery_probe_spec in Hd. destruct d; try (destruct Hd; subst; auto with health; done).
      by destruct (Hns next_policy reason).
    + apply decide_after_unhealthy_spec in Hd. destruct d as [|n r| |].
      * destruct Hd as [-> _]. auto with health.
      * by destruct (Hns n r).
      * destruct Hd as [-> _]. auto with health.
      * destruct Hd as [-> _]. auto with health.
    + injection Hd as <- <-. auto with health.
  - rewrite observe_stay by done. fold h0. intros [= <- <-] _. case_match; auto with health.
Qed.

Lemma decision_cases d : (∃ n r, d = Switch n r) ∨ ∀ n r, d ≠ Switch n r.
Proof. destruct d; eauto. Qed.

(** The counters and the policies after any observation. *)
Lemma observe_counters cap h stats routes now :
  (1 < length routes)%nat → has_observed_stats h = true →
  let h' := (observe cap h stats routes now).2 in
  last_rx_packets h' = rx_packets stats ∧ last_tx_packets h' = tx_packets stats ∧
  has_observed_stats h' = true.
Proof.
  intros Hlen Hobs. cbv zeta. rewrite observe_eq by done. cbv zeta.
  set (h0 := sync_policies _ _ _ _). set (hr := observe_record h0 stats now).
  destruct (observe_record_fields h0 stats now) as (_&_&_&_&_&E6&E7&E8&_). fold hr in E6, E7, E8.
  assert (has_observed_stats h0 = has_observed_stats h) as Eobs by apply sync_policies_fields.
  rewrite Eobs, Hobs in E8.
  destruct (classify h0 stats now); [..|by split_and!].
  - unfold decide_recovery_probe. repeat case_match; by split_and!.
  - unfold decide_after_unhealthy, decide_recovery_probe, decide_failover.
    repeat (case_match; simplify_eq/=); by split_and!.
Qed.

Lemma update_policy_routes h i f :
  map route (policies (update_policy h i f)) = map route (policies h).
Proof.
  simpl. generalize (policies h) as ps. intros ps. revert i.
  induction ps as [|e ps IH]; intros [|i]; simpl; [done..|]. exact (f_equal (cons _) (IH i)).
Qed.

Lemma observe_record_routes h stats now :
  map route (policies (observe_record h stats now)) = map route (policies h).
Proof.
  unfold observe_record.
  set (h1 := if last_rx_packets h <? rx_packets stats then set_last_inbound_at (Some now) h else h).
  assert (map route (policies (decay_all (set_packets (tx_packets stats) (rx_packets stats) h1) now))
    = map route (policies h)) as <-.
  { unfold h1. simpl. rewrite map_map. by case_match. }
  destruct (classify h stats now); [..|done];
    (etransitivity; [apply update_policy_routes|done]).
Qed.

Lemma observe_policies cap h stats routes now :
  map route (policies (observe cap h stats routes now).2) =
  map route (sync_entries cap (policies h) routes).
Proof.
  destruct (sync_policies_fields cap (active_policy h) routes h) as (_&_&_&_&_&_&_&_&_&<-&_).
  destruct (decide ((1 < length routes)%nat ∧ has_observed_stats h = true)) as [[Hlen Hobs]|Hn].
  - rewrite observe_eq by done. cbv zeta. set (h0 := sync_policies _ _ _ _).
    rewrite <- (observe_record_routes h0 stats now).
    destruct (classify h0 stats now); [..|done].
    + unfold decide_recovery_probe. by repeat case_match.
    + unfold decide_after_unhealthy, decide_recovery_probe, decide_failover.
      by repeat (case_match; simplify_eq/=).
  - rewrite observe_stay by done. simpl. unfold observe_first. by repeat case_match.
Qed.

(** ** Invariant and justification of decisions *)

(** The policy an observation leaves active. *)
Definition decided_policy (d : health_decision) (current : nat) : nat :=
  match d with
  | Switch n _ => n
  | _ => current
  end.

(** The selection an observation leaves, and the routes its entries follow. *)
Lemma observe_selection cap h stats routes now :
  within_capacity cap (length routes) → routes ≠ [] →
  let '(d, h') := observe cap h stats routes now in
  map route (policies h') = routes ∧
  active_policy h' = decided_policy d (Nat.min (active_policy h) (length routes - 1)) ∧
  (active_policy h' < length routes)%nat ∧
  (∀ f, recovery_fallback h' = Some f → (f < length routes)%nat).
Proof.
  intros Hcap Hne. destruct (observe cap h stats routes now) as [d h'] eqn:Ho.
  pose proof (observe_policies cap h stats routes now) as Hps. rewrite Ho in Hps. cbn [snd] in Hps.
  destruct (sync_policies_fields cap (active_policy h) routes h) as (_&_&_&_&_&_&_&_&_&_&_&Ea&Ef).
  pose proof (sync_active_lt cap (active_policy h) routes h Hne) as Hlt.
  set (h0 := sync_policies cap (active_policy h) routes h) in *.
  split.
  { rewrite Hps, sync_entries_spec, map_map by done.
    rewrite (map_ext _ id) by (intros; apply entry_for_route). apply map_id. }
  destruct (decision_cases d) as [(n & r & ->)|Hd'].
  - apply observe_switch in Ho as ((_ & Hn & _) & _ & _ & [E _ _ Ef' _ _ _]).
    fold h0 in Ef'. split_and!; [done|by rewrite E|]. rewrite Ef'. case_decide; [|done].
    by intros f [= <-].
  - destruct (observe_stayed _ _ _ _ _ _ _ Ho Hd') as [E _ _ _ Ef' _ _]. fold h0 in E, Ef'.
    rewrite E, Ea. split_and!; [by destruct d; try by destruct (Hd' next_policy reason)|lia|].
    intros f Hf. destruct Ef' as [E'|E']; rewrite E' in Hf; [done|]. rewrite Ef in Hf.
    destruct (recovery_fallback h) as [f'|]; [|done]. simpl in Hf.
    destruct (Nat.ltb_spec f' (length routes)); by simplify_eq.
Qed.

(** [observe] keeps the health of a peer well formed: every score stays
    in [0..=4] with its label in step, the entries follow the routes given, in
    their order, the active policy is the one of the decision, and both it and
    the fallback of a probe are indexes of the routes. *)
Theorem observe_invariant cap h stats routes now :
  wf_health h → within_capacity cap (length routes) → routes ≠ [] →
  let '(d, h') := observe cap h stats routes now in
  wf_health h' ∧ map route (policies h') = routes ∧
  active_policy h' = decided_policy d (Nat.min (active_policy h) (length routes - 1)) ∧
  (active_policy h' < length routes)%nat ∧
  (∀ f, recovery_fallback h' = Some f → (f < length routes)%nat).
Proof.
  intros Hh Hcap Hne. pose proof (observe_selection cap h stats routes now Hcap Hne) as Hs.
  pose proof (wf_observe cap h stats routes now Hh) as Hwf.
  by destruct (observe cap h stats routes now) as [d h'].
Qed.

(** A peer with a direct route and a relay, for the examples. *)
Definition two_routes : list route_key := [Direct None; Relay (repeat 7 32)].
Definition sample_health : peer_health :=
  (observe None (observe None (new_with_jitter 0 0 0) (PeerStats 1 0) two_routes (from_secs 5)).2
    (PeerStats 2 0) two_routes (from_secs 30)).2.

Lemma wf_sample_health : wf_health sample_health.
Proof. apply wf_observe, wf_observe, wf_new_with_jitter. done. Qed.

Lemma observe_invariant_witness :
  wf_health sample_health ∧ within_capacity None (length two_routes) ∧ two_routes ≠ [] ∧
  let '(d, h') := observe None sample_health (PeerStats 3 0) two_routes (from_secs 35) in
  wf_health h' ∧ map route (policies h') = two_routes ∧
  active_policy h' =
    decided_policy d (Nat.min (active_policy sample_health) (length two_routes - 1)) ∧
  (active_policy h' < length two_routes)%nat ∧
  (∀ f, recovery_fallback h' = Some f → (f < length two_routes)%nat).
Proof.
  assert (H1 : wf_health sample_health) by exact wf_sample_health.
  assert (H2 : within_capacity None (length two_routes)) by exact I.
  assert (H3 : two_routes ≠ []) by done.
  split; [exact H1|]. split; [exact H2|]. split; [exact H3|].
  exact (observe_invariant None sample_health (PeerStats 3 0) two_routes (from_secs 35) H1 H2 H3).
Defined.

(** C30: every switch that [observe] asks for is justified. A failover needs
    outbound traffic unanswered for the whole silence window, an elapsed
    cooldown and a failed active route, and goes to the non-failed route of
    least suspicion (the first in preference order of those); a probe needs
    outbound traffic and an elapsed probe interval, and goes up to an eligible
    higher-priority route of least suspicion; a failed probe returns to its
    fallback. The switch restarts the silence clock, the probe timer and the
    cooldown. *)
Theorem switch_justified cap h stats routes now n r h' :
  let h0 := sync_policies cap (active_policy h) routes h in
  let hr := observe_record h0 stats now in
  observe cap h stats routes now = (Switch n r, h') →
  ((1 < length routes)%nat ∧ (n < length routes)%nat ∧ n ≠ active_policy h0) ∧
  has_observed_stats h = true ∧
  switch_evidence h0 hr stats (length routes) now n r ∧ switched h0 h' n r now.
Proof. apply observe_switch. Qed.

Lemma switch_justified_witness :
  let h' := (observe None sample_health (PeerStats 3 0) two_routes (from_secs 35)).2 in
  let h0 := sync_policies None (active_policy sample_health) two_routes sample_health in
  let hr := observe_record h0 (PeerStats 3 0) (from_secs 35) in
  observe None sample_health (PeerStats 3 0) two_routes (from_secs 35) = (Switch 1 Failover, h') ∧
  ((1 < length two_routes)%nat ∧ (1 < length two_routes)%nat ∧ 1%nat ≠ active_policy h0) ∧
  has_observed_stats sample_health = true ∧
  switch_evidence h0 hr (PeerStats 3 0) (length two_routes) (from_secs 35) 1 Failover ∧
  switched h0 h' 1 Failover (from_secs 35).
Proof.
  cbv zeta.
  assert (H : observe None sample_health (PeerStats 3 0) two_routes (from_secs 35) =
    (Switch 1 Failover, (observe None sample_health (PeerStats 3 0) two_routes (from_secs 35)).2))
    by (vm_compute; reflexivity).
  split; [exact H|].
  exact (switch_justified None sample_health (PeerStats 3 0) two_routes (from_secs 35) 1 Failover _ H).
Defined.

(** ** Histories of observations *)

(** A sample, the routes the peer has when it is taken, and its time. *)
Record observation := Observation { obs_stats : peer_stats; obs_routes : list route_key; obs_at : Z }.

Fixpoint chronological (prev : Z) (l : list observation) : Prop :=
  match l with
  | [] => True
  | o :: l => prev ≤ obs_at o ∧ chronological (obs_at o) l
  end.

(** The decisions of a run, and its final state. *)
Fixpoint run (cap : capacity) (h : peer_health) (l : list observation)
    : list (Z * health_decision) * peer_health :=
  match l with
  | [] => ([], h)
  | o :: l =>
      let '(d, h) := observe cap h (obs_stats o) (obs_routes o) (obs_at o) in
      let '(ds, h) := run cap h l in
      ((obs_at o, d) :: ds, h)
  end.

(** The switches among the decisions. *)
Definition switches (ds : list (Z * health_decision)) : list (Z * switch_reason) :=
  omap (λ td, match td.2 with Switch _ r => Some (td.1, r) | _ => None end) ds.

(** Switches that follow a switch of kind [prev_r] (none: the start) at
    [prev], each as far from its predecessor as its reason requires. *)
Fixpoint spaced (jit prev : Z) (prev_r : option switch_reason) (l : list (Z * switch_reason)) : Prop :=
  match l with
  | [] => True
  | (t, r) :: l =>
      match r with
      | Failover =>
          prev + match prev_r with Some _ => MIN_POLICY_SWITCH_INTERVAL | None => INITIAL_FAILOVER_GRACE end
            + jit ≤ t
      | RecoveryProbe => prev + RECOVERY_PROBE_INTERVAL + jit ≤ t
      | RecoveryFailed => prev_r = Some RecoveryProbe ∧ prev + INBOUND_SILENCE_TIMEOUT ≤ t
      end ∧ spaced jit t (Some r) l
  end.

(** The state after a switch of kind [prev_r] at [prev], with the last sample
    at or before [now]. *)
Record paced (h : peer_health) (jit prev : Z) (prev_r : option switch_reason) (now : Z) : Prop := {
  paced_last : last_switch h = prev;
  paced_now : prev ≤ now;
  paced_jitter : jitter h = jit;
  paced_next : prev + RECOVERY_PROBE_INTERVAL + jit ≤ next_recovery_attempt_at h;
  paced_count : 0 ≤ switch_count h;
  paced_again : is_Some prev_r → 1 ≤ switch_count h;
  paced_fallback : is_Some (recovery_fallback h) → prev_r = Some RecoveryProbe;
  paced_inbound : ∀ t, last_inbound_at h = Some t → prev ≤ t
}.

Lemma paced_sync cap a routes h jit prev prev_r now :
  paced h jit prev prev_r now → paced (sync_policies cap a routes h) jit prev prev_r now.
Proof.
  intros [? ? ? ? ? ? Hf ?].
  destruct (sync_policies_fields cap a routes h) as (_&_&E1&E2&E3&_&_&E4&_&_&E5&_&E6).
  split; rewrite ?E1, ?E2, ?E3, ?E4, ?E5, ?E6; try done.
  destruct (recovery_fallback h); simpl; [|done]. intros _. by apply Hf.
Qed.

Lemma paced_stayed h h' jit prev prev_r now now' :
  paced h jit prev prev_r now → now ≤ now' → stayed h h' now' → paced h' jit prev prev_r now'.
Proof.
  intros [? ? ? ? ? ? Hf Hi] Hnow [? ? ? ? Ef Ei En]. split; try congruence; try lia.
  - intros Hr. rewrite stayed_count0. auto.
  - intros Hr. destruct Ef as [E|E]; rewrite E in Hr; [by destruct Hr|by apply Hf].
  - intros t Ht. destruct Ei as [E|E]; rewrite E in Ht; [by apply Hi|]. simplify_eq. lia.
Qed.

Lemma paced_switched h h' jit prev prev_r now now' n r :
  0 ≤ jit → paced h jit prev prev_r now → now ≤ now' → switched h h' n r now' →
  paced h' jit now' (Some r) now'.
Proof.
  intros Hj [? ? ? ? Hc ? Hf Hi] Hnow [? ? Ei Ef En ? Ec]. split; try congruence; try lia.
  - rewrite Ec. unfold u32_saturate, u32_max. case_match; lia.
  - intros _. rewrite Ec. unfold u32_saturate, u32_max. case_match; lia.
  - rewrite Ef. case_decide; subst; [done|]. by intros [? ?].
Qed.

Lemma cooldown_bounds h :
  0 ≤ switch_count h →
  (if decide (switch_count h = 0) then INITIAL_FAILOVER_GRACE else MIN_POLICY_SWITCH_INTERVAL) + jitter h
    ≤ current_switch_cooldown h ≤ 8 * MIN_POLICY_SWITCH_INTERVAL + jitter h.
Proof.
  intros Hc. unfold current_switch_cooldown.
  assert (0 < MIN_POLICY_SWITCH_INTERVAL ∧
    INITIAL_FAILOVER_GRACE ≤ 8 * MIN_POLICY_SWITCH_INTERVAL) as [Hm ?] by done.
  destruct (Z.eqb_spec (switch_count h) 0) as [H0|H0].
  - rewrite decide_True by done. lia.
  - rewrite decide_False by done. rewrite Z.shiftl_1_l.
    set (s := (switch_count h - 1) `min` MAX_SWITCH_BACKOFF_SHIFT).
    assert (0 ≤ s ≤ 3) by (unfold s, MAX_SWITCH_BACKOFF_SHIFT; lia).
    assert (2 ^ s ≤ 2 ^ 3) by (apply Z.pow_le_mono_r; lia).
    assert (0 < 2 ^ s) by (apply Z.pow_pos_nonneg; lia). change (2 ^ 3) with 8 in *. nia.
Qed.

(** One switch is as far from the previous one as its reason requires. *)
Lemma paced_evidence h hr jit prev prev_r now now' stats count n r :
  paced h jit prev prev_r now → now ≤ now' →
  switch_evidence h hr stats count now' n r → spaced jit prev prev_r [(now', r)].
Proof.
  intros [E1 ? E2 ? Hc Hagain Hf Hi] Hnow He. simpl. split; [|done]. destruct r.
  - destruct He as (_ & Hcool & _). unfold cooldown_elapsed in Hcool. apply Z.leb_le in Hcool.
    rewrite E1 in Hcool. pose proof (cooldown_bounds h Hc) as [Hb _]. rewrite E2 in Hb.
    unfold duration_since in Hcool.
    assert (INITIAL_FAILOVER_GRACE ≤ MIN_POLICY_SWITCH_INTERVAL) by done.
    destruct prev_r as [r|].
    + rewrite decide_False in Hb by (pose proof (Hagain (mk_is_Some _ _ eq_refl)); lia).
      destruct (decide (0 ≤ now' - prev)); lia.
    + case_decide; destruct (decide (0 ≤ now' - prev)); lia.
  - destruct He as (_ & Hdue & _). lia.
  - destruct He as ((_ & _ & Hs) & Hfb). split; [apply Hf; by rewrite Hfb|].
    unfold inbound_silence, duration_since in Hs.
    assert (prev ≤ default (last_switch h) (last_inbound_at h)).
    { destruct (last_inbound_at h); simpl; [by apply Hi|lia]. }
    assert (0 < INBOUND_SILENCE_TIMEOUT) by done. lia.
Qed.

Lemma run_spaced cap l h jit prev prev_r now :
  0 ≤ jit → paced h jit prev prev_r now → chronological now l →
  spaced jit prev prev_r (switches (run cap h l).1).
Proof.
  intros Hj. revert h prev prev_r now; induction l as [|o l IH]; intros h prev prev_r now Hp Hl; [done|].
  destruct Hl as [Hnow Hl]. simpl.
  destruct (observe cap h (obs_stats o) (obs_routes o) (obs_at o)) as [d h'] eqn:Ho.
  pose proof (paced_sync cap (active_policy h) (obs_routes o) h _ _ _ _ Hp) as Hp0.
  destruct (decision_cases d) as [(n & r & ->)|Hd].
  - apply observe_switch in Ho as (_ & _ & He & Hsw).
    pose proof (paced_evidence _ _ _ _ _ _ _ _ _ _ _ Hp0 Hnow He) as [Hone _].
    pose proof (paced_switched _ _ _ _ _ _ _ _ _ Hj Hp0 Hnow Hsw) as Hp'.
    specialize (IH _ _ _ _ Hp' Hl). destruct (run cap h' l) as [ds h'']. by split.
  - pose proof (observe_stayed _ _ _ _ _ _ _ Ho Hd) as Hst.
    specialize (IH _ _ _ _ (paced_stayed _ _ _ _ _ _ _ Hp0 Hnow Hst) Hl).
    destruct (run cap h' l) as [ds h'']. by destruct d; try by destruct (Hd next_policy reason).
Qed.

Lemma paced_new a t0 j : 0 ≤ j → paced (new_with_jitter a t0 j) j t0 None t0.
Proof. intros. split; simpl; try done; try lia; by intros [? ?]. Qed.

(** C31: a peer does not flap. In any run of observations in time order, on any
    routes, the first switch comes no earlier than the grace period, a later
    failover no earlier than two minutes (plus the peer's jitter) after the
    previous switch, a probe no earlier than the probe interval, and the only
    quicker switch is the return from a probe, which follows that probe
    directly and only after the silence window. *)
Theorem switches_spaced cap a t0 j l :
  0 ≤ j → chronological t0 l →
  spaced j t0 None (switches (run cap (new_with_jitter a t0 j) l).1).
Proof. intros Hj Hl. by apply (run_spaced cap l _ j t0 None t0); [|apply paced_new|]. Qed.

(** A dead primary, a working relay, and a probe of the primary that fails. *)
Definition sample_run : list observation := [
  Observation (PeerStats 1 0) two_routes (from_secs 5);
  Observation (PeerStats 2 0) two_routes (from_secs 30);
  Observation (PeerStats 3 0) two_routes (from_secs 35);
  Observation (PeerStats 4 1) two_routes (from_secs 40);
  Observation (PeerStats 4 1) two_routes (from_secs 170);
  Observation (PeerStats 5 2) two_routes (from_secs 175);
  Observation (PeerStats 6 2) two_routes (from_secs 190);
  Observation (PeerStats 7 2) two_routes (from_secs 205) ].

Lemma switches_spaced_witness :
  0 ≤ 0 ∧ chronological 0 sample_run ∧
  spaced 0 0 None (switches (run None (new_with_jitter 0 0 0) sample_run).1) ∧
  switches (run None (new_with_jitter 0 0 0) sample_run).1 =
    [(from_secs 35, Failover); (from_secs 175, RecoveryProbe); (from_secs 205, RecoveryFailed)].
Proof.
  assert (H1 : 0 ≤ 0) by lia.
  assert (H2 : chronological 0 sample_run) by (simpl; unfold from_secs, NANOS_PER_SEC; lia).
  split; [exact H1|]. split; [exact H2|]. split; [|vm_compute; reflexivity].
  exact (switches_spaced None 0 0 0 sample_run H1 H2).
Defined.

(** ** A route that hears keepalives is never blamed *)

(** Samples of a peer on several routes, none of them taken [25 s] or more
    after the receive counter last grew ([g], or the start). *)
Fixpoint heard (rx g : Z) (l : list observation) : Prop :=
  match l with
  | [] => True
  | o :: l =>
      let g' := if rx <? rx_packets (obs_stats o) then obs_at o else g in
      (1 < length (obs_routes o))%nat ∧ obs_at o < g' + INBOUND_SILENCE_TIMEOUT ∧
      heard (rx_packets (obs_stats o)) g' l
  end.

(** The route is kept, or left for a better one. *)
Definition blameless (d : health_decision) : Prop := d = Stay ∨ ∃ n, d = Switch n RecoveryProbe.

Definition silence_anchor (h : peer_health) : Z := default (last_switch h) (last_inbound_at h).

Lemma heard_step cap h stats routes now g :
  has_observed_stats h = true → (1 < length routes)%nat → g ≤ silence_anchor h → g ≤ now →
  let g' := if last_rx_packets h <? rx_packets stats then now else g in
  now < g' + INBOUND_SILENCE_TIMEOUT →
  let '(d, h') := observe cap h stats routes now in blameless d ∧ g' ≤ silence_anchor h'.
Proof.
  intros Hobs Hlen Hg Hnow g' Hg'. rewrite observe_eq by done. cbv zeta.
  destruct (sync_policies_fields cap (active_policy h) routes h) as (_&_&E1&_&_&_&E2&E3&_).
  set (h0 := sync_policies cap (active_policy h) routes h) in *.
  destruct (observe_record_fields h0 stats now) as (_&F1&_&_&_&_&_&_&F2&_).
  set (hr := observe_record h0 stats now) in *.
  assert (g' ≤ silence_anchor hr) as Hr.
  { unfold silence_anchor in *. rewrite F1, F2, E1, E2, E3. unfold g'. by destruct (last_rx_packets h <? rx_packets stats). }
  assert (g' ≤ now) by (unfold g'; destruct (last_rx_packets h <? rx_packets stats); lia).
  pose proof (classify_spec h0 stats now) as Hs. destruct (classify h0 stats now).
  - destruct (decide_recovery_probe _ _ _ _ _) as [d h'] eqn:Hd.
    apply decide_recovery_probe_spec in Hd. destruct d as [|n r| |].
    + destruct Hd as [_ ->]. split; [by left|done].
    + destruct Hd as (-> & _ & _ & _ & _ & ->). split; [right; by exists n|done].
    + by destruct Hd.
    + by destruct Hd.
  - destruct Hs as (_ & Hrx & Hsil). unfold inbound_silence, duration_since in Hsil.
    unfold silence_anchor in Hg. rewrite E1, E3 in Hsil. rewrite E2 in Hrx.
    unfold g' in Hg'. destruct (Z.ltb_spec (last_rx_packets h) (rx_packets stats)); [lia|].
    assert (0 < INBOUND_SILENCE_TIMEOUT) by done. lia.
  - split; [by left|done].
Qed.

Lemma run_blameless cap l h g :
  has_observed_stats h = true → g ≤ silence_anchor h → chronological g l →
  heard (last_rx_packets h) g l → Forall (λ td, blameless td.2) (run cap h l).1.
Proof.
  revert h g; induction l as [|o l IH]; intros h g Hobs Hg Hl Hh; [constructor|].
  destruct Hl as [Hnow Hl], Hh as (Hlen & Hlt & Hh).
  pose proof (heard_step cap h (obs_stats o) _ _ g Hobs Hlen Hg Hnow Hlt) as Hst.
  destruct (observe_counters cap h (obs_stats o) (obs_routes o) (obs_at o) Hlen Hobs) as (Er & _ & Eo).
  simpl run. destruct (observe cap h (obs_stats o) (obs_routes o) (obs_at o)) as [d h'].
  cbn [snd] in Er, Eo. destruct Hst as [Hd Hg'].
  assert (∀ t, obs_at o ≤ t → (if last_rx_packets h <? rx_packets (obs_stats o) then obs_at o else g) ≤ t)
    as Hle by (intros t; case_match; lia).
  assert (chronological (if last_rx_packets h <? rx_packets (obs_stats o) then obs_at o else g) l) as Hl'.
  { destruct l; [done|]. destruct Hl as [H1 H2]. split; [by apply Hle|done]. }
  pose proof (IH h' (if last_rx_packets h <? rx_packets (obs_stats o) then obs_at o else g)) as IH'.
  rewrite Er in IH'. specialize (IH' Eo Hg' Hl' Hh). destruct (run cap h' l). by constructor.
Qed.

(** A route on which something arrives more often than the silence window
    is never blamed, however the samples fall: every decision of the run is to
    stay, or to probe a preferred route. *)
Theorem keepalives_prevent_failover cap h l g :
  has_observed_stats h = true → g ≤ silence_anchor h → chronological g l →
  heard (last_rx_packets h) g l → Forall (λ td, blameless td.2) (run cap h l).1.
Proof. apply run_blameless. Qed.

(** Outbound flow every 5 s, with one keepalive every 20 s. *)
Definition keepalive_run : list observation :=
  map (λ k, Observation (PeerStats (10 + k) (1 + k / 4)) two_routes (from_secs (5 + 5 * k)))
    (seqZ 1 40).

Lemma keepalives_prevent_failover_witness :
  let h := (observe None (new_with_jitter 0 0 0) (PeerStats 10 1) two_routes (from_secs 5)).2 in
  has_observed_stats h = true ∧ from_secs 5 ≤ silence_anchor h ∧
  chronological (from_secs 5) keepalive_run ∧ heard (last_rx_packets h) (from_secs 5) keepalive_run ∧
  Forall (λ td, blameless td.2) (run None h keepalive_run).1.
Proof.
  set (h := (observe None (new_with_jitter 0 0 0) (PeerStats 10 1) two_routes (from_secs 5)).2).
  assert (H1 : has_observed_stats h = true) by (vm_compute; reflexivity).
  assert (H2 : from_secs 5 ≤ silence_anchor h) by (vm_compute; discriminate).
  assert (H3 : chronological (from_secs 5) keepalive_run)
    by (vm_compute; repeat split; discriminate).
  assert (H4 : heard (last_rx_packets h) (from_secs 5) keepalive_run)
    by (vm_compute; repeat split; lia).
  split; [exact H1|]. split; [exact H2|]. split; [exact H3|]. split; [exact H4|].
  exact (keepalives_prevent_failover None h keepalive_run (from_secs 5) H1 H2 H3 H4).
Defined.

(** ** A dead route is left *)

Lemma entry_for_same ps i e :
  NoDup (map route ps) → ps !! i = Some e → entry_for ps (route e) = e.
Proof.
  intros Hnd Hi. unfold entry_for.
  destruct (list_find (λ e', route e' = route e) ps) as [[j e']|] eqn:Hf.
  - apply list_find_Some in Hf as (Hj & Hr & _).
    assert (map route ps !! i = Some (route e)) as H1 by (by rewrite list_lookup_fmap, Hi).
    assert (map route ps !! j = Some (route e)) as H2 by (by rewrite list_lookup_fmap, Hj; simpl; rewrite Hr).
    assert (i = j) as <- by (by eapply NoDup_lookup). by simplify_eq.
  - apply list_find_None in Hf. rewrite Forall_forall in Hf.
    destruct (Hf e); [by eapply list_elem_of_lookup_2|done].
Qed.

(** Aligning with the routes the entries already follow changes nothing. *)
Lemma sync_entries_same cap ps routes :
  NoDup routes → within_capacity cap (length routes) → map route ps = routes →
  sync_entries cap ps routes = ps.
Proof.
  intros Hnd Hc Hps. rewrite sync_entries_spec by done. subst routes. rewrite map_map.
  apply list_eq. intros i. rewrite list_lookup_fmap.
  destruct (ps !! i) as [e|] eqn:Hi; simpl; [|done]. by rewrite (entry_for_same ps i e).
Qed.

Lemma observe_record_unanswered h stats now i :
  classify h stats now = SampleUnhealthy →
  policies (observe_record h stats now) !! i =
    (λ e, PolicyHealthEntry (route e)
      (let p := decay (health e) now in
       if decide (i = active_policy h) then record_failure p now else p)) <$> policies h !! i.
Proof.
  intros Hc. unfold observe_record. rewrite Hc. simpl.
  assert (∀ h1, policies h1 = policies h → active_policy h1 = active_policy h →
    alter (λ e, PolicyHealthEntry (route e) (record_failure (health e) now)) (active_policy h1)
      (map (λ e, PolicyHealthEntry (route e) (decay (health e) now)) (policies h1)) !! i =
    (λ e, PolicyHealthEntry (route e)
      (let p := decay (health e) now in
       if decide (i = active_policy h) then record_failure p now else p)) <$> policies h !! i) as Hgen.
  { intros h1 -> ->. destruct (decide (i = active_policy h)) as [->|Hi].
    - rewrite list_lookup_alter_eq, list_lookup_fmap. by destruct (policies h !! _).
    - rewrite list_lookup_alter_ne, list_lookup_fmap by done. by destruct (policies h !! i). }
  destruct (last_rx_packets h <? rx_packets stats); exact (Hgen _ eq_refl eq_refl).
Qed.

Lemma classify_unanswered h stats now :
  unanswered h stats now → classify h stats now = SampleUnhealthy.
Proof.
  intros (H1 & H2 & H3). unfold classify.
  destruct (Z.ltb_spec (last_rx_packets h) (rx_packets stats)); [lia|].
  destruct (Z.ltb_spec (last_tx_packets h) (tx_packets stats)); [|lia].
  by destruct (Z.leb_spec INBOUND_SILENCE_TIMEOUT (inbound_silence h now)); [|lia].
Qed.

(** A peer aligned with its routes. *)
Record aligned (cap : capacity) (h : peer_health) (routes : list route_key) : Prop := {
  aligned_nodup : NoDup routes;
  aligned_cap : within_capacity cap (length routes);
  aligned_routes : map route (policies h) = routes;
  aligned_active : (active_policy h < length routes)%nat
}.

Lemma aligned_sync cap h routes :
  aligned cap h routes →
  let h0 := sync_policies cap (active_policy h) routes h in
  policies h0 = policies h ∧ active_policy h0 = active_policy h.
Proof.
  intros [Hnd Hc Hr Ha]. cbv zeta.
  destruct (sync_policies_fields cap (active_policy h) routes h) as (_&_&_&_&_&_&_&_&_&->&_&->&_).
  split; [by apply sync_entries_same|lia].
Qed.

(** A step on an unanswered sample that does not switch: the failure is on
    record, nothing else that matters has moved. *)
Lemma unanswered_step cap h stats routes now d h' :
  aligned cap h routes → wf_health h → (1 < length routes)%nat → has_observed_stats h = true →
  unanswered h stats now → cooldown_elapsed h now = true →
  observe cap h stats routes now = (d, h') → (∀ n r, d ≠ Switch n r) →
  aligned cap h' routes ∧ has_observed_stats h' = true ∧ active_policy h' = active_policy h ∧
  (d = Stay ∧ policy_failed h' (active_policy h) = false ∨
   ∀ j, (j < length routes)%nat → j ≠ active_policy h → policy_failed h' j = true) ∧
  current_switch_cooldown h' = current_switch_cooldown h ∧ last_switch h' = last_switch h ∧
  last_inbound_at h' = last_inbound_at h ∧ last_tx_packets h' = tx_packets stats ∧
  last_rx_packets h' = rx_packets stats ∧
  ∀ i, policies h' !! i = (λ e, PolicyHealthEntry (route e)
      (let p := decay (health e) now in
       if decide (i = active_policy h) then record_failure p now else p)) <$> policies h !! i.
Proof.
  intros Hal Hwf Hlen Hobs Hun Hcool Ho Hd.
  destruct (aligned_sync _ _ _ Hal) as [P1 P2]. cbv zeta in P1, P2.
  destruct (sync_policies_fields cap (active_policy h) routes h) as (_&_&S1&S2&_&S3&S4&S5&_&_&S6&_).
  pose proof (observe_counters cap h stats routes now Hlen Hobs) as Hcnt.
  pose proof (observe_policies cap h stats routes now) as Hps.
  rewrite Ho in Hcnt, Hps. cbn [snd] in Hcnt, Hps. destruct Hcnt as (Crx & Ctx & Cobs).
  destruct Hal as [Hnd Hc Hr Ha]. rewrite (sync_entries_same cap _ routes) in Hps by done.
  rewrite observe_eq in Ho by done. cbv zeta in Ho.
  set (h0 := sync_policies cap (active_policy h) routes h) in *.
  assert (classify h0 stats now = SampleUnhealthy) as Hcl.
  { apply classify_unanswered. unfold unanswered, inbound_silence in *. by rewrite S1, S3, S4, S5. }
  pose proof (λ i, observe_record_unanswered h0 stats now i Hcl) as Hlook.
  rewrite Hcl in Ho. rewrite P1, P2 in Hlook.
  destruct (observe_record_fields h0 stats now) as (F1&F2&F3&F4&_&_&_&_&F5&_).
  set (hr := observe_record h0 stats now) in *.
  assert (last_inbound_at hr = last_inbound_at h) as F6.
  { rewrite F5, S5, S4. destruct Hun as (_ & Hun & _).
    by destruct (Z.ltb_spec (last_rx_packets h) (rx_packets stats)); [lia|]. }
  assert (current_switch_cooldown hr = current_switch_cooldown h) as F7.
  { unfold current_switch_cooldown. by rewrite F3, F4, S2, S6. }
  assert (cooldown_elapsed hr now = true) as F8.
  { unfold cooldown_elapsed in *. by rewrite F7, F2, S1. }
  apply decide_after_unhealthy_spec in Ho. rewrite P2 in Ho.
  assert (∃ hx, (hx = set_recovery_fallback None hr ∨
      hx = set_liveness LikelyInactive (set_recovery_fallback None hr)) ∧ h' = hx ∧
      (d = Stay ∧ policy_failed hr (active_policy h) = false ∨
       ∀ j, (j < length routes)%nat → j ≠ active_policy h → policy_failed hr j = true))
    as (hx & Hhx & -> & Hdec).
  { destruct d as [|n r| |].
    - destruct Ho as (-> & [Hf|Hf]); [congruence|]. eauto 10.
    - by destruct (Hd n r).
    - destruct Ho as (-> & Ho & _). eauto 10.
    - destruct Ho as (-> & Ho). eauto 10. }
  assert (active_policy hr = active_policy h) as F9 by congruence.
  assert (last_switch hr = last_switch h) as F10 by congruence.
  destruct Hhx as [-> | ->];
    (split; [split; [done|done|simpl in *; congruence|simpl; by rewrite F9]|]);
    by split_and!.
Qed.

(** C32: a dead route is left. Two unanswered samples on the same routes, the
    first with the cooldown over and less than a decay interval apart, make
    the machine switch, as long as some other route is not failed. *)
Theorem dead_route_is_left cap h routes s1 t1 s2 t2 :
  wf_health h → aligned cap h routes → (1 < length routes)%nat → has_observed_stats h = true →
  unanswered h s1 t1 → cooldown_elapsed h t1 = true →
  t1 ≤ t2 < t1 + POLICY_FAILURE_DECAY_INTERVAL →
  tx_packets s1 < tx_packets s2 → rx_packets s2 ≤ rx_packets s1 →
  (∃ j, (j < length routes)%nat ∧ j ≠ active_policy h ∧ policy_failed h j = false) →
  switches (run cap h [Observation s1 routes t1; Observation s2 routes t2]).1 ≠ [].
Proof.
  intros Hwf Hal Hlen Hobs Hun Hcool Ht Htx Hrx (j & Hj & Hja & Hjf). simpl.
  destruct (observe cap h s1 routes t1) as [d1 h1] eqn:Ho1.
  pose proof (wf_observe cap h s1 routes t1 Hwf) as Hwf1. rewrite Ho1 in Hwf1. cbn [snd] in Hwf1.
  destruct (observe cap h1 s2 routes t2) as [d2 h2] eqn:Ho2.
  destruct (decision_cases d1) as [(n & r & ->)|Hd1]; [done|].
  destruct (decision_cases d2) as [(n & r & ->)|Hd2]; [by destruct d1; try by destruct (Hd1 next_policy reason)|].
  destruct (unanswered_step _ _ _ _ _ _ _ Hal Hwf Hlen Hobs Hun Hcool Ho1 Hd1)
    as (Hal1 & Hobs1 & Ea & _ & Ec & El & Ei & Etx & Erx & Hp1).
  assert (unanswered h1 s2 t2) as Hun2.
  { destruct Hun as (_ & _ & Hs). unfold unanswered, inbound_silence, duration_since in *.
    rewrite Ei, El, Etx, Erx. lia. }
  assert (cooldown_elapsed h1 t2 = true) as Hcool2.
  { unfold cooldown_elapsed, duration_since in *. rewrite Ec, El.
    apply Z.leb_le in Hcool. apply Z.leb_le. lia. }
  destruct (unanswered_step _ _ _ _ _ _ _ Hal1 Hwf1 Hlen Hobs1 Hun2 Hcool2 Ho2 Hd2)
    as (_ & _ & _ & Hdec & _ & _ & _ & _ & _ & Hp2).
  exfalso. rewrite Ea in Hdec, Hp2.
  destruct Hwf as [Hps _ _ _]. rewrite Forall_lookup in Hps.
  destruct Hdec as [[_ Hnf]|Hall].
  - destruct Hal as [_ _ Hr Ha]. rewrite <- Hr, length_map in Ha.
    destruct (lookup_lt_is_Some_2 _ _ Ha) as [e He]. specialize (Hps _ _ He).
    unfold policy_failed in Hnf. rewrite Hp2, Hp1, He in Hnf. simpl in Hnf.
    rewrite !decide_True in Hnf by done.
    set (p := record_failure (decay (health e) t1) t1) in *.
    assert (wf_policy p) as Hp by (by apply wf_record_failure, wf_decay).
    pose proof (wf_decay p t2 Hp) as Hp'.
    rewrite is_failed_score in Hnf by by apply wf_record_failure.
    rewrite record_failure_suspicion in Hnf by done.
    assert (2 ≤ suspicion p) as H2.
    { unfold p. rewrite record_failure_suspicion by by apply wf_decay.
      pose proof (wf_suspicion _ (wf_decay (health e) t1 Hps)). lia. }
    assert (suspicion (decay p t2) = suspicion p) as H3.
    { assert (last_failure p = Some t1) as Hlf by done.
      rewrite decay_suspicion, Hlf by done. unfold decay_steps, duration_since.
      rewrite Z.div_small by (change POLICY_FAILURE_DECAY_INTERVAL with 600000000000 in *; lia). lia. }
    unfold POLICY_FAILURE_SCORE in Hnf. apply Z.eqb_neq in Hnf. lia.
  - specialize (Hall j Hj Hja). unfold policy_failed in Hall, Hjf.
    rewrite Hp2, Hp1 in Hall. destruct (policies h !! j) as [e|] eqn:He; [|done]. simpl in Hall.
    rewrite !decide_False in Hall by done. specialize (Hps _ _ He).
    rewrite (decay_not_failed (decay (health e) t1)) in Hall; [done|by apply wf_decay|].
    by apply decay_not_failed.
Qed.

Definition first_health : peer_health :=
  (observe None (new_with_jitter 0 0 0) (PeerStats 1 0) two_routes (from_secs 5)).2.

Lemma dead_route_is_left_witness :
  wf_health first_health ∧ aligned None first_health two_routes ∧
  has_observed_stats first_health = true ∧ unanswered first_health (PeerStats 2 0) (from_secs 30) ∧
  switches (run None first_health [Observation (PeerStats 2 0) two_routes (from_secs 30);
    Observation (PeerStats 3 0) two_routes (from_secs 35)]).1 ≠ [].
Proof.
  assert (H1 : wf_health first_health) by (apply wf_observe, wf_new_with_jitter; done).
  assert (H2 : aligned None first_health two_routes).
  { split; [|exact I|reflexivity|simpl; lia]. apply (bool_decide_unpack _). vm_compute. exact I. }
  assert (H3 : (1 < length two_routes)%nat) by (simpl; lia).
  assert (H4 : has_observed_stats first_health = true) by (vm_compute; reflexivity).
  assert (H5 : unanswered first_health (PeerStats 2 0) (from_secs 30))
    by (split; [|split]; vm_compute; first [reflexivity | discriminate]).
  assert (H6 : cooldown_elapsed first_health (from_secs 30) = true) by (vm_compute; reflexivity).
  assert (H7 : from_secs 30 ≤ from_secs 35 < from_secs 30 + POLICY_FAILURE_DECAY_INTERVAL)
    by (vm_compute; split; first [reflexivity | discriminate]).
  assert (H8 : tx_packets (PeerStats 2 0) < tx_packets (PeerStats 3 0)) by (simpl; lia).
  assert (H9 : rx_packets (PeerStats 3 0) ≤ rx_packets (PeerStats 2 0)) by (simpl; lia).
  assert (H10 : ∃ j, (j < length two_routes)%nat ∧ j ≠ active_policy first_health ∧
    policy_failed first_health j = false)
    by (exists 1%nat; split; [simpl; lia|split; [vm_compute; discriminate|vm_compute; reflexivity]]).
  split; [exact H1|]. split; [exact H2|]. split; [exact H4|]. split; [exact H5|].
  exact (dead_route_is_left None first_health two_routes _ _ _ _ H1 H2 H3 H4 H5 H6 H7 H8 H9 H10).
Defined.

(** ** Idle routes age back to eligibility *)

(** C39: the decay loop stops, because its condition is false, within as many
    turns as the score; the score has then lost one step per whole decay
    interval since the last failure, and a failed route is a candidate again
    exactly when one interval has passed. *)
Theorem decay_closed_form p anchor now :
  wf_policy p → last_failure p = Some anchor →
  (let '(s', anchor') := decay_loop (Z.to_nat (suspicion p)) (suspicion p) anchor now in
   decay_due s' anchor' now = false) ∧
  suspicion (decay p now) =
    Z.max 0 (suspicion p - duration_since now anchor / POLICY_FAILURE_DECAY_INTERVAL) ∧
  wf_policy (decay p now) ∧
  (is_failed p = true →
   is_failed (decay p now) = false ↔ anchor + POLICY_FAILURE_DECAY_INTERVAL ≤ now).
Proof.
  intros Hp Ha. pose proof (wf_suspicion p Hp) as Hs.
  assert (suspicion (decay p now) = Z.max 0 (suspicion p - decay_steps now anchor)) as Hd
    by (rewrite decay_suspicion by done; by rewrite Ha).
  split; [by apply decay_loop_exit|]. split; [done|]. split; [by apply wf_decay|].
  rewrite !is_failed_score by auto using wf_decay. rewrite Z.eqb_eq, Z.eqb_neq, Hd. intros Hf.
  pose proof (decay_steps_nonneg now anchor).
  pose proof (decay_due_spec 1 anchor now) as Hdue. unfold decay_due in Hdue. simpl in Hdue.
  rewrite Z.leb_le in Hdue. unfold duration_since, POLICY_FAILURE_SCORE in *.
  change POLICY_FAILURE_DECAY_INTERVAL with 600000000000 in *. lia.
Qed.

Lemma decay_closed_form_witness :
  let p := record_failure (record_failure Policy.new 0) 0 in
  wf_policy p ∧ last_failure p = Some 0 ∧
  (let '(s', anchor') := decay_loop (Z.to_nat (suspicion p)) (suspicion p) 0 (from_secs 1300) in
   decay_due s' anchor' (from_secs 1300) = false) ∧
  suspicion (decay p (from_secs 1300)) =
    Z.max 0 (suspicion p - duration_since (from_secs 1300) 0 / POLICY_FAILURE_DECAY_INTERVAL) ∧
  wf_policy (decay p (from_secs 1300)) ∧
  (is_failed p = true →
   is_failed (decay p (from_secs 1300)) = false ↔ 0 + POLICY_FAILURE_DECAY_INTERVAL ≤ from_secs 1300).
Proof.
  set (p := record_failure (record_failure Policy.new 0) 0).
  assert (H1 : wf_policy p) by (apply wf_record_failure, wf_record_failure, wf_policy_new).
  assert (H2 : last_failure p = Some 0) by reflexivity.
  split; [exact H1|]. split; [exact H2|].
  exact (decay_closed_form p 0 (from_secs 1300) H1 H2).
Defined.

(** ** The fallback of a probe is an index *)

(** Health follows the identity of a route, but the fallback of a probe is
    kept as an index: when the routes are reordered during a probe it denotes
    another route, here the probed one itself. *)
Lemma fallback_kept_by_index :
  let h := (run None (new_with_jitter 0 0 0) (take 6 sample_run)).2 in
  let h' := sync_policies None 1 (reverse two_routes) h in
  (let! f := recovery_fallback h in route <$> policies h !! f) = Some (Relay (repeat 7 32)) ∧
  active_route h = Some (Direct None) ∧ active_route h' = active_route h ∧
  (let! f := recovery_fallback h' in route <$> policies h' !! f) = Some (Direct None).
Proof. vm_compute. done. Qed.
