(* ===== verification/Handshake.v ===== *)
(** * The Noise handshake: [tendrilix/src/noise/handshake.rs]

    The state machine that exchanges handshake messages and derives session
    keys. The primitives (Blake2s, HMAC, X25519, the two AEADs) come from
    libraries: they are the class [noise_crypto], and what the code relies on
    is [noise_laws]. Random secrets and the clock are arguments.

    The outer option of an operation is a panic (a failed slice copy, an
    exhausted clock); its result comes with the handshake it leaves. *)

From S2P Require Import Prelude Timestamper Wire Session.

(** ** Primitives *)

(** Keys, then nonce, text and associated data; a tag is separate. *)
Class noise_crypto := {
  blake2s : bytes → bytes;
  hmac_blake2s : bytes → bytes → bytes;
  blake2s_mac16 : bytes → bytes → bytes;
  blake2s_mac24 : bytes → bytes → bytes;
  public_from : bytes → bytes;
  diffie_hellman : bytes → bytes → bytes;
  chacha_seal : bytes → bytes → bytes → bytes → bytes * bytes;
  chacha_open : bytes → bytes → bytes → bytes → bytes → option bytes;
  xchacha_seal : bytes → bytes → bytes → bytes → bytes * bytes;
  xchacha_open : bytes → bytes → bytes → bytes → bytes → option bytes
}.

Class noise_laws `{noise_crypto} := {
  blake2s_length d : length (blake2s d) = 32%nat;
  mac16_length k d : length (blake2s_mac16 k d) = 16%nat;
  mac24_length k d : length (blake2s_mac24 k d) = 24%nat;
  public_length s : length (public_from s) = 32%nat;
  dh_comm a b : diffie_hellman a (public_from b) = diffie_hellman b (public_from a);
  chacha_open_seal k n m ad : chacha_open k n (chacha_seal k n m ad).1 (chacha_seal k n m ad).2 ad = Some m;
  chacha_length k n m ad : length (chacha_seal k n m ad).1 = length m;
  chacha_tag_length k n m ad : length (chacha_seal k n m ad).2 = 16%nat;
  xchacha_open_seal k n m ad :
    xchacha_open k n (xchacha_seal k n m ad).1 (xchacha_seal k n m ad).2 ad = Some m;
  xchacha_length k n m ad : length (xchacha_seal k n m ad).1 = length m;
  xchacha_tag_length k n m ad : length (xchacha_seal k n m ad).2 = 16%nat
}.

(** The cipher of the sessions is ChaCha20Poly1305 without associated data. *)
#[export] Instance session_aead `{noise_crypto} : aead := {|
  aead_seal k n m := chacha_seal k n m [];
  aead_open k n c t := chacha_open k n c t []
|}.

#[export] Instance session_aead_laws `{noise_laws} : aead_laws.
Proof.
  split; intros; simpl; [apply chacha_open_seal|apply chacha_length|apply chacha_tag_length].
Qed.

(** ** Constants *)

(** ["mac1----"] and ["cookie--"] *)
Definition LABEL_MAC1 : bytes := [109; 97; 99; 49; 45; 45; 45; 45].
Definition LABEL_COOKIE : bytes := [99; 111; 111; 107; 105; 101; 45; 45].
Definition KEY_LEN : nat := 32.
Definition TIMESTAMP_LEN : nat := 12.

Definition INITIAL_CHAIN_KEY : bytes := [
  96; 226; 109; 174; 243; 39; 239; 192; 46; 195; 53; 226; 160; 37; 210; 208; 22; 235; 66; 6; 248;
  114; 119; 245; 45; 56; 209; 152; 139; 120; 205; 54 ].

Definition INITIAL_CHAIN_HASH : bytes := [
  34; 17; 179; 97; 8; 26; 197; 102; 105; 18; 67; 219; 69; 138; 213; 50; 45; 156; 108; 102; 34;
  147; 232; 183; 14; 225; 156; 101; 186; 7; 158; 243 ].

(** ** Data *)

Record noise_params := NoiseParams {
  static_public : bytes;
  static_private : bytes;
  peer_static_public : bytes;
  static_shared : bytes;
  sending_mac1_key : bytes
}.

Record init_sent_state := InitSentState {
  sent_local_index : Z;
  sent_hash : bytes;
  sent_chaining_key : bytes;
  ephemeral_private : bytes;
  time_sent : Z
}.

Inductive handshake_state : Type :=
  | NoHandshake
  | InitSent (s : init_sent_state)
  | InitReceived (hash chaining_key peer_ephemeral_public : bytes) (peer_index : Z)
  | Expired.

Record cookies := Cookies {
  last_mac1 : option bytes;
  cookie_index : Z;
  write_cookie : option bytes
}.

Record handshake := Handshake {
  params : noise_params;
  next_local_index : Z;
  previous : handshake_state;
  hs_state : handshake_state;
  hs_cookies : cookies;
  last_handshake_timestamp : tai64n;
  last_rtt : option Z
}.

(** Assignments to one field. *)
Definition set_states (prev cur : handshake_state) (h : handshake) : handshake :=
  Handshake (params h) (next_local_index h) prev cur (hs_cookies h)
    (last_handshake_timestamp h) (last_rtt h).
Definition set_cookies (c : cookies) (h : handshake) : handshake :=
  Handshake (params h) (next_local_index h) (previous h) (hs_state h) c
    (last_handshake_timestamp h) (last_rtt h).
Definition set_timestamp (t : tai64n) (h : handshake) : handshake :=
  Handshake (params h) (next_local_index h) (previous h) (hs_state h) (hs_cookies h) t (last_rtt h).
Definition set_rtt (r : option Z) (h : handshake) : handshake :=
  Handshake (params h) (next_local_index h) (previous h) (hs_state h) (hs_cookies h)
    (last_handshake_timestamp h) r.

Section handshake.
Context `{N : noise_crypto}.
Implicit Types (h : handshake).

(** ** Hashes, macs and ciphers *)

Definition b2s_hash (data1 data2 : bytes) : bytes := blake2s (data1 ++ data2).
Definition b2s_hmac (key data1 : bytes) : bytes := hmac_blake2s key data1.
Definition b2s_hmac2 (key data1 data2 : bytes) : bytes := hmac_blake2s key (data1 ++ data2).
Definition b2s_keyed_mac_16 (key data1 : bytes) : bytes := blake2s_mac16 key data1.
Definition b2s_keyed_mac_16_2 (key data1 data2 : bytes) : bytes := blake2s_mac16 key (data1 ++ data2).
Definition b2s_mac_24 (key data1 : bytes) : bytes := blake2s_mac24 key data1.

(** The destination has [dst_len] bytes; a wrong size panics. *)
Definition aead_chacha20_seal (dst_len : nat) (key : bytes) (counter : Z) (data aad : bytes)
    : option bytes :=
  let nonce := nonce_of counter in
  if decide (dst_len = length data + 16)%nat then
    let '(ciphertext, tag) := chacha_seal key nonce data aad in Some (ciphertext ++ tag)
  else None.

(** The buffer has [buf_len] bytes; copying a ciphertext of another size panics. *)
Definition aead_chacha20_open (buf_len : nat) (key : bytes) (counter : Z) (data aad : bytes)
    : option (result bytes wireguard_error) :=
  let nonce := nonce_of counter in
  if (length data <? 16)%nat then Some (Err InvalidAeadTag)
  else
    let ciphertext := take (length data - 16) data in
    let tag := drop (length data - 16) data in
    if decide (length ciphertext = buf_len) then
      match chacha_open key nonce ciphertext tag aad with
      | Some buffer => Some (Ok buffer)
      | None => Some (Err InvalidAeadTag)
      end
    else None.

(** The two halves of the key schedule that every message repeats:
    [temp = HMAC(ck, x); ck = HMAC(temp, 0x1); key = HMAC(temp, ck || 0x2)]. *)
Definition mix (chaining_key x : bytes) : bytes := b2s_hmac (b2s_hmac chaining_key x) [1].
Definition mix_key (chaining_key x : bytes) : bytes :=
  b2s_hmac2 (b2s_hmac chaining_key x) (mix chaining_key x) [2].

(** [key = HMAC(temp, temp2 || 0x3)] with the all-zero preshared key. *)
Definition zero_psk : bytes := repeat 0 32.
Definition psk_key (chaining_key : bytes) : bytes :=
  b2s_hmac2 (b2s_hmac chaining_key zero_psk) (mix_key chaining_key zero_psk) [3].

(** ** Operations *)

Definition noise_params_new (static_private static_public peer_static_public : bytes) : noise_params :=
  NoiseParams static_public static_private peer_static_public
    (diffie_hellman static_private peer_static_public)
    (b2s_hash LABEL_MAC1 peer_static_public).

(** [peer_index << 8] on [u32]. *)
Definition handshake_new (static_private static_public peer_static_public : bytes) (peer_index : Z)
    : handshake :=
  Handshake (noise_params_new static_private static_public peer_static_public)
    (wrap 32 (Z.shiftl peer_index 8)) NoHandshake NoHandshake (Cookies None 0 None) tai64n_zero None.

Definition is_in_progress h : bool :=
  match hs_state h with
  | NoHandshake | Expired => false
  | _ => true
  end.

Definition timer h : option Z :=
  match hs_state h with
  | InitSent s => Some (time_sent s)
  | _ => None
  end.

Definition set_expired h : handshake := set_states Expired Expired h.

Definition is_expired h : bool :=
  match hs_state h with
  | Expired => true
  | _ => false
  end.

Definition has_cookie h : bool :=
  match write_cookie (hs_cookies h) with
  | Some _ => true
  | None => false
  end.

Definition clear_cookie h : handshake :=
  set_cookies (Cookies (last_mac1 (hs_cookies h)) (cookie_index (hs_cookies h)) None) h.

(** [(index & !0xff) | u32::from((index as u8).wrapping_add(1))] *)
Definition allocate_local_index h : Z * handshake :=
  let index := next_local_index h in
  let idx8 := Z.land index 0xff in
  (index, Handshake (params h)
    (Z.lor (Z.land index (Z.lxor u32_max 0xff)) (wrap 8 (idx8 + 1)))
    (previous h) (hs_state h) (hs_cookies h) (last_handshake_timestamp h) (last_rtt h)).

(** The static key of an initiation, before its peer is known. *)
Definition parse_handshake_anon (static_private static_public : bytes) (packet : handshake_init)
    : option (result bytes wireguard_error) :=
  let hash := b2s_hash INITIAL_CHAIN_HASH static_public in
  let peer_ephemeral_public := init_unencrypted_ephemeral packet in
  let hash := b2s_hash hash peer_ephemeral_public in
  let chaining_key := mix INITIAL_CHAIN_KEY peer_ephemeral_public in
  let ephemeral_shared := diffie_hellman static_private peer_ephemeral_public in
  let key := mix_key chaining_key ephemeral_shared in
  aead_chacha20_open KEY_LEN key 0 (encrypted_static packet) hash.

(** Macs of the last 32 bytes of [dst], which are overwritten. *)
Definition append_mac1_and_mac2 h (local_index : Z) (dst : bytes) : bytes * handshake :=
  let mac1_off := (length dst - 32)%nat in
  let msg_mac1 := b2s_keyed_mac_16 (sending_mac1_key (params h)) (take mac1_off dst) in
  let with_mac1 := take mac1_off dst ++ msg_mac1 in
  let msg_mac2 :=
    match write_cookie (hs_cookies h) with
    | Some cookie => b2s_keyed_mac_16 cookie with_mac1
    | None => repeat 0 16
    end in
  (with_mac1 ++ msg_mac2,
   set_cookies (Cookies (Some msg_mac1) local_index (write_cookie (hs_cookies h))) h).

Definition format_handshake_initiation h (dst : bytes) (stamper : time_stamper) (now : Z)
    (ephemeral : bytes) : option (result bytes wireguard_error * handshake) :=
  if (length dst <? HANDSHAKE_INIT_SZ)%nat then Some (Err DestinationBufferTooSmall, h)
  else
    let '(local_index, h) := allocate_local_index h in
    let hash := b2s_hash INITIAL_CHAIN_HASH (peer_static_public (params h)) in
    let unencrypted_ephemeral := public_from ephemeral in
    let hash := b2s_hash hash unencrypted_ephemeral in
    let chaining_key := mix INITIAL_CHAIN_KEY unencrypted_ephemeral in
    let ephemeral_shared := diffie_hellman ephemeral (peer_static_public (params h)) in
    let key := mix_key chaining_key ephemeral_shared in
    let chaining_key := mix chaining_key ephemeral_shared in
    let! encrypted_static :=
      aead_chacha20_seal (32 + 16) key 0 (static_public (params h)) hash in
    let hash := b2s_hash hash encrypted_static in
    let key := mix_key chaining_key (static_shared (params h)) in
    let chaining_key := mix chaining_key (static_shared (params h)) in
    let! timestamp := stamp stamper now in
    let! encrypted_timestamp := aead_chacha20_seal (12 + 16) key 0 timestamp hash in
    let hash := b2s_hash hash encrypted_timestamp in
    let h := set_states (hs_state h)
      (InitSent (InitSentState local_index hash chaining_key ephemeral now)) h in
    let msg := to_le_bytes 4 HANDSHAKE_INIT ++ to_le_bytes 4 local_index ++
      unencrypted_ephemeral ++ encrypted_static ++ encrypted_timestamp in
    let '(packet, h) :=
      append_mac1_and_mac2 h local_index (take HANDSHAKE_INIT_SZ (write_at 0 msg dst)) in
    Some (Ok packet, h).

Definition format_handshake_response h (dst : bytes) (ephemeral : bytes)
    : option (result (bytes * session) wireguard_error * handshake) :=
  if (length dst <? HANDSHAKE_RESP_SZ)%nat then Some (Err DestinationBufferTooSmall, h)
  else
    match hs_state h with
    | InitReceived hash chaining_key peer_ephemeral_public peer_index =>
        let h := set_states (previous h) NoHandshake h in
        let '(local_index, h) := allocate_local_index h in
        let unencrypted_ephemeral := public_from ephemeral in
        let hash := b2s_hash hash unencrypted_ephemeral in
        let chaining_key := mix chaining_key unencrypted_ephemeral in
        let chaining_key := mix chaining_key (diffie_hellman ephemeral peer_ephemeral_public) in
        let chaining_key :=
          mix chaining_key (diffie_hellman ephemeral (peer_static_public (params h))) in
        let temp2 := mix_key chaining_key zero_psk in
        let key := psk_key chaining_key in
        let chaining_key := mix chaining_key zero_psk in
        let hash := b2s_hash hash temp2 in
        let! encrypted_nothing := aead_chacha20_seal 16 key 0 [] hash in
        let temp2 := mix chaining_key [] in
        let temp3 := mix_key chaining_key [] in
        let msg := to_le_bytes 4 HANDSHAKE_RESP ++ to_le_bytes 4 local_index ++
          to_le_bytes 4 peer_index ++ unencrypted_ephemeral ++ encrypted_nothing in
        let '(packet, h) :=
          append_mac1_and_mac2 h local_index (take HANDSHAKE_RESP_SZ (write_at 0 msg dst)) in
        Some (Ok (packet, session_new local_index peer_index temp2 temp3), h)
    | _ => None
    end.

Definition receive_handshake_initialization h (packet : handshake_init) (dst : bytes)
    (ephemeral : bytes) : option (result (bytes * session) wireguard_error * handshake) :=
  let hash := b2s_hash INITIAL_CHAIN_HASH (static_public (params h)) in
  let peer_index := init_sender_idx packet in
  let peer_ephemeral_public := init_unencrypted_ephemeral packet in
  let hash := b2s_hash hash peer_ephemeral_public in
  let chaining_key := mix INITIAL_CHAIN_KEY peer_ephemeral_public in
  let ephemeral_shared := diffie_hellman (static_private (params h)) peer_ephemeral_public in
  let key := mix_key chaining_key ephemeral_shared in
  let chaining_key := mix chaining_key ephemeral_shared in
  let! peer_static_public_decrypted :=
    aead_chacha20_open KEY_LEN key 0 (encrypted_static packet) hash in
  match peer_static_public_decrypted with
  | Err e => Some (Err e, h)
  | Ok decrypted =>
      if negb (bool_decide (peer_static_public (params h) = decrypted)) then Some (Err WrongKey, h)
      else
        let hash := b2s_hash hash (encrypted_static packet) in
        let key := mix_key chaining_key (static_shared (params h)) in
        let chaining_key := mix chaining_key (static_shared (params h)) in
        let! timestamp := aead_chacha20_open TIMESTAMP_LEN key 0 (encrypted_timestamp packet) hash in
        match timestamp with
        | Err e => Some (Err e, h)
        | Ok timestamp =>
            let timestamp := parse timestamp in
            if negb (after timestamp (last_handshake_timestamp h)) then Some (Err WrongTimestamp, h)
            else
              let h := set_timestamp timestamp h in
              let hash := b2s_hash hash (encrypted_timestamp packet) in
              let h := set_states (hs_state h)
                (InitReceived hash chaining_key peer_ephemeral_public peer_index) h in
              format_handshake_response h dst ephemeral
        end
  end.

(** The initiation a response answers, and whether it is the current one. *)
Definition expected (s : init_sent_state) (packet : handshake_response) : bool :=
  sent_local_index s =? resp_receiver_idx packet.

Definition awaiting h (packet : handshake_response) : option (init_sent_state * bool) :=
  let from_previous :=
    match previous h with
    | InitSent s => if expected s packet then Some (s, false) else None
    | _ => None
    end in
  match hs_state h with
  | InitSent s => if expected s packet then Some (s, true) else from_previous
  | _ => from_previous
  end.

Definition receive_handshake_response h (packet : handshake_response) (now : Z)
    : option (result session wireguard_error * handshake) :=
  match awaiting h packet with
  | None => Some (Err UnexpectedPacket, h)
  | Some (state, is_current) =>
      let peer_index := resp_sender_idx packet in
      let unencrypted_ephemeral := resp_unencrypted_ephemeral packet in
      let hash := b2s_hash (sent_hash state) unencrypted_ephemeral in
      let chaining_key := mix (sent_chaining_key state) unencrypted_ephemeral in
      let chaining_key :=
        mix chaining_key (diffie_hellman (ephemeral_private state) unencrypted_ephemeral) in
      let chaining_key :=
        mix chaining_key (diffie_hellman (static_private (params h)) unencrypted_ephemeral) in
      let temp2 := mix_key chaining_key zero_psk in
      let key := psk_key chaining_key in
      let chaining_key := mix chaining_key zero_psk in
      let hash := b2s_hash hash temp2 in
      let! opened := aead_chacha20_open 0 key 0 (encrypted_nothing packet) hash in
      match opened with
      | Err e => Some (Err e, h)
      | Ok _ =>
          let temp2 := mix chaining_key [] in
          let temp3 := mix_key chaining_key [] in
          let h := set_rtt (Some (wrap 32 (duration_since now (time_sent state) / 1000000))) h in
          let h :=
            if is_current then set_states (previous h) NoHandshake h
            else set_states NoHandshake (hs_state h) h in
          Some (Ok (session_new (sent_local_index state) peer_index temp3 temp2), h)
      end
  end.

Definition receive_cookie_reply h (packet : cookie_reply)
    : option (result unit wireguard_error * handshake) :=
  match last_mac1 (hs_cookies h) with
  | None => Some (Err UnexpectedPacket, h)
  | Some mac1 =>
      if negb (cookie_receiver_idx packet =? cookie_index (hs_cookies h)) then Some (Err WrongIndex, h)
      else
        let key := b2s_hash LABEL_COOKIE (peer_static_public (params h)) in
        if (length (encrypted_cookie packet) <? 16)%nat then Some (Err InvalidPacket, h)
        else
          let ct_len := (length (encrypted_cookie packet) - 16)%nat in
          let ciphertext := take ct_len (encrypted_cookie packet) in
          let tag := drop ct_len (encrypted_cookie packet) in
          if decide (ct_len = 16%nat) then
            match xchacha_open key (cookie_nonce packet) ciphertext tag mac1 with
            | None => Some (Err InvalidAeadTag, h)
            | Some cookie =>
                Some (Ok tt, set_cookies (Cookies (last_mac1 (hs_cookies h))
                  (cookie_index (hs_cookies h)) (Some cookie)) h)
            end
          else None
  end.
End handshake.

(** ** Lemmas on local indexes *)

Lemma land_ff x : Z.land x 0xff = x mod 256.
Proof. change 0xff with (Z.ones 8). by rewrite Z.land_ones. Qed.

(** The peer's 24 bits stay, the session's 8 bits count modulo 256. *)
Lemma allocate_next h :
  in_width 32 (next_local_index h) →
  next_local_index (allocate_local_index h).2 =
    256 * (next_local_index h / 256) + (next_local_index h + 1) mod 256.
Proof.
  intros Hw. simpl. set (i := next_local_index h) in *. rewrite land_ff.
  unfold wrap. change (2 ^ 8) with 256. rewrite Zplus_mod_idemp_l.
  assert (Z.land i (Z.lxor u32_max 0xff) = Z.shiftl (i / 256) 8) as ->.
  { change 256 with (2 ^ 8). rewrite <- Z.shiftr_div_pow2 by lia.
    change u32_max with (Z.ones 32). change 0xff with (Z.ones 8).
    apply Z.bits_inj'. intros k Hk. rewrite Z.land_spec, Z.lxor_spec, Z.shiftl_spec by lia.
    destruct (decide (k < 8)).
    - rewrite !Z.ones_spec_low, (Z.testbit_neg_r _ (k - 8)) by lia. apply andb_false_r.
    - rewrite Z.shiftr_spec by lia. replace (k - 8 + 8) with k by lia.
      rewrite (Z.ones_spec_high 8) by lia. destruct (decide (k < 32)).
      + rewrite Z.ones_spec_low by lia. apply andb_true_r.
      + rewrite (in_width_testbit 32 i) by (done || lia). done. }
  pose proof (Z.mod_pos_bound (i + 1) 256 ltac:(lia)) as Hb.
  rewrite <- Z.lxor_lor, <- Z.add_nocarry_lxor.
  1: rewrite Z.shiftl_mul_pow2 by lia; change (2 ^ 8) with 256; lia.
  all: apply Z.bits_inj'; intros k Hk; rewrite Z.land_spec, Z.bits_0, Z.shiftl_spec by lia.
  all: destruct (decide (k < 8)); [by rewrite Z.testbit_neg_r by lia|].
  all: rewrite (in_width_testbit 8 ((i + 1) mod 256)) by (done || lia); apply andb_false_r.
Qed.

Lemma allocate_width h :
  in_width 32 (next_local_index h) → in_width 32 (next_local_index (allocate_local_index h).2).
Proof.
  intros Hw. rewrite allocate_next by done. unfold in_width in *.
  pose proof (Z.mod_pos_bound (next_local_index h + 1) 256 ltac:(lia)).
  pose proof (Z.div_mod (next_local_index h) 256 ltac:(lia)).
  pose proof (Z.mod_pos_bound (next_local_index h) 256 ltac:(lia)).
  assert (next_local_index h / 256 < 2 ^ 24) by (apply Z.div_lt_upper_bound; lia). lia.
Qed.

(** ** Lemmas on the messages *)

Section laws.
Context `{L : noise_laws}.
Implicit Types (h : handshake).

(** What sealing produces. *)
Definition sealed (key : bytes) (c : Z) (d aad : bytes) : bytes :=
  (chacha_seal key (nonce_of c) d aad).1 ++ (chacha_seal key (nonce_of c) d aad).2.

Lemma length_sealed key c d aad : length (sealed key c d aad) = (length d + 16)%nat.
Proof. unfold sealed. by rewrite length_app, chacha_length, chacha_tag_length. Qed.

Lemma seal_eq n key c d aad :
  n = (length d + 16)%nat → aead_chacha20_seal n key c d aad = Some (sealed key c d aad).
Proof.
  intros ->. unfold aead_chacha20_seal, sealed. rewrite decide_True by done.
  by destruct (chacha_seal key (nonce_of c) d aad).
Qed.

Lemma open_sealed n key c d aad :
  n = length d → aead_chacha20_open n key c (sealed key c d aad) aad = Some (Ok d).
Proof.
  intros ->. unfold aead_chacha20_open. rewrite length_sealed.
  rewrite (proj2 (Nat.ltb_ge _ _)) by lia.
  replace (length d + 16 - 16)%nat with (length (chacha_seal key (nonce_of c) d aad).1)
    by (rewrite chacha_length; lia).
  unfold sealed. rewrite take_app_length, drop_app_length, decide_True by by rewrite chacha_length.
  by rewrite chacha_open_seal.
Qed.

(** The two macs that end a message. *)
Definition macs h (msg : bytes) : bytes :=
  let mac1 := b2s_keyed_mac_16 (sending_mac1_key (params h)) msg in
  mac1 ++ match write_cookie (hs_cookies h) with
          | Some cookie => b2s_keyed_mac_16 cookie (msg ++ mac1)
          | None => repeat 0 16
          end.

Lemma length_macs h msg : length (macs h msg) = 32%nat.
Proof.
  unfold macs. rewrite length_app. unfold b2s_keyed_mac_16. rewrite mac16_length.
  case_match; [by rewrite mac16_length|by rewrite repeat_length].
Qed.

Definition with_macs h (idx : Z) (msg : bytes) : handshake :=
  set_cookies (Cookies (Some (b2s_keyed_mac_16 (sending_mac1_key (params h)) msg)) idx
    (write_cookie (hs_cookies h))) h.

Lemma append_macs h idx msg dst n :
  n = (length msg + 32)%nat → (n ≤ length dst)%nat →
  append_mac1_and_mac2 h idx (take n (write_at 0 msg dst)) = (msg ++ macs h msg, with_macs h idx msg).
Proof.
  intros -> Hn. unfold append_mac1_and_mac2, write_at. rewrite take_0, app_nil_l, Nat.add_0_l.
  assert (length (take (length msg + 32) (msg ++ drop (length msg) dst)) = length msg + 32)%nat as ->.
  { rewrite length_take, length_app, length_drop. lia. }
  replace (length msg + 32 - 32)%nat with (length msg) by lia.
  rewrite take_take, Nat.min_l, take_app_length by lia.
  unfold macs, with_macs. by rewrite <- app_assoc.
Qed.

(** The sealed fields of an initiation and the state both ends keep:
    [(static, timestamp, hash, chaining key)]. *)
Definition init_transcript (pkr E dh1 dh2 pki ts : bytes) : bytes * bytes * bytes * bytes :=
  let hash := b2s_hash (b2s_hash INITIAL_CHAIN_HASH pkr) E in
  let ck1 := mix INITIAL_CHAIN_KEY E in
  let es := sealed (mix_key ck1 dh1) 0 pki hash in
  let hash := b2s_hash hash es in
  let ck2 := mix ck1 dh1 in
  let et := sealed (mix_key ck2 dh2) 0 ts hash in
  (es, et, b2s_hash hash et, mix ck2 dh2).

(** The sealed field of a response, and the two session keys. *)
Definition resp_transcript (hash ck E dh1 dh2 : bytes) : bytes * bytes * bytes :=
  let ck := mix (mix (mix ck E) dh1) dh2 in
  (sealed (psk_key ck) 0 [] (b2s_hash (b2s_hash hash E) (mix_key ck zero_psk)),
   mix (mix ck zero_psk) [], mix_key (mix ck zero_psk) []).

Lemma format_initiation_spec h dst ts now e b :
  (HANDSHAKE_INIT_SZ ≤ length dst)%nat → length (static_public (params h)) = 32%nat →
  stamp ts now = Some b → length b = 12%nat →
  let i := next_local_index h in
  let pkr := peer_static_public (params h) in
  let '(es, et, hash, ck) := init_transcript pkr (public_from e) (diffie_hellman e pkr)
    (static_shared (params h)) (static_public (params h)) b in
  let h1 := set_states (hs_state h) (InitSent (InitSentState i hash ck e now))
    (allocate_local_index h).2 in
  let p := PHandshakeInit (HandshakeInit i (public_from e) es et) in
  ∃ msg, encode_packet p (macs h1 msg) = msg ++ macs h1 msg ∧ length msg = 116%nat ∧
    format_handshake_initiation h dst ts now e =
      Some (Ok (encode_packet p (macs h1 msg)), with_macs h1 i msg).
Proof.
  intros Hdst Hpk Hts Hb i pkr. destruct (init_transcript _ _ _ _ _ _) as [[[es et] hash] ck] eqn:Htr.
  injection Htr as Hes Het Hhash Hck. subst pkr.
  intros h1 p.
  assert (length es = 48 ∧ length et = 28)%nat as [Les Let].
  { rewrite <- Hes, <- Het, !length_sealed, Hpk, Hb. done. }
  set (msg := to_le_bytes 4 HANDSHAKE_INIT ++ to_le_bytes 4 i ++ public_from e ++ es ++ et).
  assert (length msg = 116%nat) as Lmsg.
  { unfold msg. rewrite !length_app, !length_to_le_bytes, public_length, Les, Let. done. }
  exists msg. split; [unfold msg, p; simpl; by rewrite <- !app_assoc|]. split; [done|].
  unfold format_handshake_initiation. rewrite (proj2 (Nat.ltb_ge _ _)) by done.
  cbn [allocate_local_index params static_public peer_static_public static_shared].
  rewrite seal_eq by (by rewrite Hpk). cbn [mbind option_bind].
  rewrite Hts. cbn [mbind option_bind]. rewrite seal_eq by (by rewrite Hb). cbn [mbind option_bind].
  fold i. rewrite Hhash, Hck, Het, Hes. fold msg.
  rewrite append_macs by (rewrite ?Lmsg; done).
  do 2 f_equal. f_equal. unfold p, msg. simpl. by rewrite <- !app_assoc.
Qed.

Lemma format_response_spec h dst e hash ck E i :
  (HANDSHAKE_RESP_SZ ≤ length dst)%nat → hs_state h = InitReceived hash ck E i →
  let j := next_local_index h in
  let '(en, k2, k3) := resp_transcript hash ck (public_from e) (diffie_hellman e E)
    (diffie_hellman e (peer_static_public (params h))) in
  let h1 := (allocate_local_index (set_states (previous h) NoHandshake h)).2 in
  let p := PHandshakeResponse (HandshakeResponse j i (public_from e) en) in
  ∃ msg, encode_packet p (macs h1 msg) = msg ++ macs h1 msg ∧ length msg = 60%nat ∧
    format_handshake_response h dst e =
      Some (Ok (encode_packet p (macs h1 msg), session_new j i k2 k3), with_macs h1 j msg).
Proof.
  intros Hdst Hst j. destruct (resp_transcript _ _ _ _ _) as [[en k2] k3] eqn:Htr.
  injection Htr as Hen Hk2 Hk3. intros h1 p.
  assert (length en = 16%nat) as Len by (by rewrite <- Hen, length_sealed).
  set (msg := to_le_bytes 4 HANDSHAKE_RESP ++ to_le_bytes 4 j ++ to_le_bytes 4 i ++ public_from e ++ en).
  assert (length msg = 60%nat) as Lmsg.
  { unfold msg. rewrite !length_app, !length_to_le_bytes, public_length, Len. done. }
  exists msg. split; [unfold msg, p; simpl; by rewrite <- !app_assoc|]. split; [done|].
  unfold format_handshake_response. rewrite (proj2 (Nat.ltb_ge _ _)) by done. rewrite Hst.
  cbn [allocate_local_index set_states params].
  rewrite seal_eq by done. cbn [mbind option_bind]. rewrite Hen.
  change (next_local_index (set_states (previous h) NoHandshake h)) with j. cbn [next_local_index]. fold j. fold msg.
  rewrite append_macs by (rewrite ?Lmsg; done). rewrite Hk2, Hk3.
  do 2 f_equal. f_equal. f_equal. unfold p, msg. simpl. by rewrite <- !app_assoc.
Qed.

Lemma receive_initiation_spec h i E dh1 pki b dst e :
  diffie_hellman (static_private (params h)) E = dh1 → peer_static_public (params h) = pki →
  length pki = 32%nat → length b = 12%nat →
  let '(es, et, hash, ck) :=
    init_transcript (static_public (params h)) E dh1 (static_shared (params h)) pki b in
  receive_handshake_initialization h (HandshakeInit i E es et) dst e =
    if negb (after (parse b) (last_handshake_timestamp h)) then Some (Err WrongTimestamp, h)
    else format_handshake_response
      (set_states (hs_state h) (InitReceived hash ck E i) (set_timestamp (parse b) h)) dst e.
Proof.
  intros Hdh Hpk Lpk Lb. cbn [init_transcript]. unfold receive_handshake_initialization.
  cbn [init_sender_idx init_unencrypted_ephemeral encrypted_static encrypted_timestamp].
  rewrite Hdh, !open_sealed by done. cbn [mbind option_bind].
  by rewrite bool_decide_eq_true_2 by done.
Qed.

Lemma receive_response_spec h s cur j E dh1 dh2 now :
  awaiting h (HandshakeResponse j (sent_local_index s) E
    (resp_transcript (sent_hash s) (sent_chaining_key s) E dh1 dh2).1.1) = Some (s, cur) →
  diffie_hellman (ephemeral_private s) E = dh1 →
  diffie_hellman (static_private (params h)) E = dh2 →
  let '(en, k2, k3) := resp_transcript (sent_hash s) (sent_chaining_key s) E dh1 dh2 in
  let h1 := set_rtt (Some (wrap 32 (duration_since now (time_sent s) / 1000000))) h in
  receive_handshake_response h (HandshakeResponse j (sent_local_index s) E en) now =
    Some (Ok (session_new (sent_local_index s) j k3 k2),
      if cur then set_states (previous h) NoHandshake h1 else set_states NoHandshake (hs_state h) h1).
Proof.
  intros Haw H1 H2. cbn [resp_transcript fst] in *. unfold receive_handshake_response. rewrite Haw.
  cbn [resp_sender_idx resp_unencrypted_ephemeral encrypted_nothing].
  rewrite H1, H2, open_sealed by done. cbn [mbind option_bind]. done.
Qed.
End laws.

(** ** Agreement *)

(** The two ends of one session. *)
Record mirrored (s r : session) : Prop := {
  mirrored_there : sending_index s = receiving_index r;
  mirrored_back : sending_index r = receiving_index s;
  mirrored_out : sender s = receiver r;
  mirrored_in : sender r = receiver s
}.

(** A session that has carried nothing yet. *)
Definition fresh (s : session) : Prop := received_by s [] ∧ sending_key_counter s = 0.

Lemma fresh_new l p rk sk : fresh (session_new l p rk sk).
Proof. split; [apply received_by_new|done]. Qed.

(** A handshake between the owners of two static secrets. *)
Definition keyed `{noise_crypto} (h : handshake) (sk peer_sk : bytes) : Prop :=
  params h = noise_params_new sk (public_from sk) (public_from peer_sk) ∧
  in_width 32 (next_local_index h).

Lemma awaiting_current (h : handshake) s packet :
  hs_state h = InitSent s → sent_local_index s = resp_receiver_idx packet →
  awaiting h packet = Some (s, true).
Proof.
  intros Hs Hi. unfold awaiting, expected. rewrite Hs, Hi, Z.eqb_refl. done.
Qed.

(** The initiation of one end as the other receives it, in any state. *)
Lemma initiation_exchange `{noise_laws} (I : handshake) ski skr ei dst b ts now :
  keyed I ski skr → stamp ts now = Some b → length b = 12%nat →
  (HANDSHAKE_INIT_SZ ≤ length dst)%nat →
  let i := next_local_index I in
  ∃ m I1 p hash ck,
    format_handshake_initiation I dst ts now ei = Some (Ok m, I1) ∧
    parse_incoming_packet m = Some (Ok (PHandshakeInit p)) ∧
    hs_state I1 = InitSent (InitSentState i hash ck ei now) ∧ params I1 = params I ∧
    in_width 32 (next_local_index I1) ∧
    ∀ R dst' e, params R = noise_params_new skr (public_from skr) (public_from ski) →
      receive_handshake_initialization R p dst' e =
        if negb (after (parse b) (last_handshake_timestamp R)) then Some (Err WrongTimestamp, R)
        else format_handshake_response
          (set_states (hs_state R) (InitReceived hash ck (public_from ei) i)
            (set_timestamp (parse b) R)) dst' e.
Proof.
  intros [HI HwI] Hts Hb Hdst i.
  pose proof (format_initiation_spec I dst ts now ei b Hdst) as Hinit.
  pose proof (λ R dst' e H1 H2, receive_initiation_spec R i (public_from ei)
    (diffie_hellman ei (public_from skr)) (public_from ski) b dst' e H1 H2
    (public_length ski) Hb) as Hrecv.
  rewrite HI in Hinit. cbn [noise_params_new static_public peer_static_public static_shared] in Hinit.
  specialize (Hinit (public_length ski) Hts Hb).
  destruct (init_transcript _ _ _ _ _ _) as [[[es et] hash] ck] eqn:Htr.
  destruct Hinit as (msg & _ & _ & Hinit).
  eexists _, _, (HandshakeInit i (public_from ei) es et), hash, ck.
  split; [exact Hinit|]. split.
  { apply parse_encode. cbn. injection Htr as <- <- _ _.
    rewrite !length_sealed, public_length, public_length, Hb, length_macs. by split_and!. }
  split; [done|]. split; [done|]. split; [by apply (allocate_width I)|]. intros R dst' e HR.
  specialize (Hrecv R dst' e). rewrite HR in Hrecv.
  cbn [noise_params_new static_public static_private peer_static_public static_shared] in Hrecv.
  rewrite (dh_comm skr ski), Htr in Hrecv. by apply Hrecv; [apply dh_comm|].
Qed.

(** The answer of one end as the other receives it. *)
Lemma response_exchange `{noise_laws} (R I : handshake) ski skr ei er hash ck i sent dst later :
  params R = noise_params_new skr (public_from skr) (public_from ski) →
  params I = noise_params_new ski (public_from ski) (public_from skr) →
  in_width 32 (next_local_index R) → in_width 32 i →
  (HANDSHAKE_RESP_SZ ≤ length dst)%nat →
  hs_state R = InitReceived hash ck (public_from ei) i →
  hs_state I = InitSent (InitSentState i hash ck ei sent) →
  ∃ m sr R1 p si I1,
    format_handshake_response R dst er = Some (Ok (m, sr), R1) ∧
    parse_incoming_packet m = Some (Ok (PHandshakeResponse p)) ∧
    receive_handshake_response I p later = Some (Ok si, I1) ∧
    mirrored si sr ∧ receiving_index si = i ∧ receiving_index sr = next_local_index R ∧
    hs_state I1 = NoHandshake ∧ hs_state R1 = NoHandshake ∧ params R1 = params R ∧
    last_handshake_timestamp R1 = last_handshake_timestamp R ∧
    fresh si ∧ fresh sr ∧ in_width 32 (next_local_index R1) ∧
    params I1 = params I ∧ next_local_index I1 = next_local_index I.
Proof.
  intros HR HI HwR Hwi Hdst HsR HsI. set (s := InitSentState i hash ck ei sent) in *.
  pose proof (format_response_spec R dst er hash ck (public_from ei) i Hdst HsR) as Hresp.
  rewrite HR in Hresp. cbn [noise_params_new peer_static_public] in Hresp.
  pose proof (receive_response_spec I s true (next_local_index R) (public_from er)
    (diffie_hellman er (public_from ei)) (diffie_hellman er (public_from ski)) later) as Hfin.
  cbn [s sent_local_index sent_hash sent_chaining_key ephemeral_private time_sent] in Hfin.
  destruct (resp_transcript hash ck (public_from er) (diffie_hellman er (public_from ei))
    (diffie_hellman er (public_from ski))) as [[en k2] k3] eqn:Hrt.
  destruct Hresp as (msg & _ & _ & Hresp). rewrite HI in Hfin.
  pose proof (awaiting_current I s (HandshakeResponse (next_local_index R) i (public_from er) en)
    HsI eq_refl) as Haw.
  specialize (Hfin Haw (dh_comm ei er) (dh_comm ski er)).
  eexists _, _, _, (HandshakeResponse (next_local_index R) i (public_from er) en), _, _.
  split; [exact Hresp|]. split.
  { apply parse_encode. cbn. injection Hrt as <- _ _.
    rewrite !length_sealed, public_length, length_macs. by split_and!. }
  split; [exact Hfin|]. split; [by split|].
  pose proof (allocate_width R HwR). split_and!; try done; apply fresh_new.
Qed.

(** C20: two peers that know each other's static keys agree. The initiation of
    one parses and is accepted by the other when its timestamp is newer than
    the last one accepted, the answer parses and is accepted by the initiator,
    and the two sessions have the same pair of keys and each other's indexes;
    the same initiation, replayed, is refused and changes nothing. *)
Theorem handshake_agreement `{noise_laws} (I R : handshake) (ski skr ei er er' dst_i dst_r dst_r' b : bytes)
    (ts : time_stamper) (now later : Z) :
  keyed I ski skr → keyed R skr ski →
  stamp ts now = Some b → length b = 12%nat →
  after (parse b) (last_handshake_timestamp R) = true →
  (HANDSHAKE_INIT_SZ ≤ length dst_i)%nat → (HANDSHAKE_RESP_SZ ≤ length dst_r)%nat →
  ∃ m1 I1 p1 m2 sr R1 p2 si I2,
    format_handshake_initiation I dst_i ts now ei = Some (Ok m1, I1) ∧
    parse_incoming_packet m1 = Some (Ok (PHandshakeInit p1)) ∧
    receive_handshake_initialization R p1 dst_r er = Some (Ok (m2, sr), R1) ∧
    parse_incoming_packet m2 = Some (Ok (PHandshakeResponse p2)) ∧
    receive_handshake_response I1 p2 later = Some (Ok si, I2) ∧
    mirrored si sr ∧
    receiving_index si = next_local_index I ∧ receiving_index sr = next_local_index R ∧
    is_in_progress I2 = false ∧ is_in_progress R1 = false ∧
    receive_handshake_initialization R1 p1 dst_r' er' = Some (Err WrongTimestamp, R1).
Proof.
  intros HI HR Hts Hb Hafter Hdi Hdr. pose proof HI as [HI' HwI]. pose proof HR as [HR' HwR].
  destruct (initiation_exchange I ski skr ei dst_i b ts now HI Hts Hb Hdi)
    as (m1 & I1 & p1 & hash & ck & Hinit & Hp1 & Hs1 & HI1 & _ & Hrecv).
  set (R0 := set_states (hs_state R) (InitReceived hash ck (public_from ei) (next_local_index I))
    (set_timestamp (parse b) R)).
  rewrite HI' in HI1.
  destruct (response_exchange R0 I1 ski skr ei er hash ck (next_local_index I) now dst_r later
    HR' HI1 HwR HwI Hdr eq_refl Hs1)
    as (m2 & sr & R1 & p2 & si & I2 & Hresp & Hp2 & Hfin & Hmir & Hi & Hj & Hs2 & HsR & HR1 & Ht & _).
  exists m1, I1, p1, m2, sr, R1, p2, si, I2.
  pose proof (Hrecv R dst_r er HR') as Hacc. rewrite Hafter in Hacc. cbn [negb] in Hacc. fold R0 in Hacc.
  split_and!; try done; [by rewrite Hacc|unfold is_in_progress; by rewrite Hs2|
    unfold is_in_progress; by rewrite HsR|].
  rewrite Hrecv by (by rewrite HR1). rewrite Ht. change (last_handshake_timestamp R0) with (parse b).
  assert (after (parse b) (parse b) = false) as ->; [|done].
  apply not_true_iff_false. rewrite after_spec. lia.
Qed.

(** A toy instance of the primitives for the concrete examples. *)
Definition pad (n : nat) (l : bytes) : bytes := take n (l ++ repeat 0 n).

Definition toy_noise : noise_crypto := {|
  blake2s d := pad 32 d;
  hmac_blake2s k d := pad 32 (k ++ d);
  blake2s_mac16 k d := pad 16 d;
  blake2s_mac24 k d := pad 24 d;
  public_from s := pad 32 s;
  diffie_hellman a P := zip_with Z.add (pad 32 a) P;
  chacha_seal k n m ad := (m, repeat 7 16);
  chacha_open k n c t ad := if decide (t = repeat 7 16) then Some c else None;
  xchacha_seal k n m ad := (m, repeat 7 16);
  xchacha_open k n c t ad := if decide (t = repeat 7 16) then Some c else None
|}.

Lemma length_pad n l : length (pad n l) = n.
Proof. unfold pad. rewrite length_take, length_app, repeat_length. lia. Qed.

Lemma zip_with_comm_add l k : zip_with Z.add l k = zip_with Z.add k l.
Proof. revert k; induction l as [|x l IH]; intros [|y k]; simpl; [done..|]. by rewrite IH, Z.add_comm. Qed.

Lemma toy_noise_laws : @noise_laws toy_noise.
Proof.
  split; intros; simpl; try apply length_pad; try done; try (by rewrite decide_True).
  apply zip_with_comm_add.
Qed.

Definition toy_initiator : handshake :=
  @handshake_new toy_noise [1] (@public_from toy_noise [1]) (@public_from toy_noise [2]) 5.
Definition toy_responder : handshake :=
  @handshake_new toy_noise [2] (@public_from toy_noise [2]) (@public_from toy_noise [1]) 9.
Definition toy_stamper : time_stamper := time_stamper_new 0 1700000000.

Definition toy_stamp : bytes := default [] (stamp toy_stamper (from_secs 1)).

Lemma handshake_agreement_witness :
  let I := toy_initiator in let R := toy_responder in let dst := repeat 0 148 in
  @keyed toy_noise I [1] [2] ∧ @keyed toy_noise R [2] [1] ∧
  stamp toy_stamper (from_secs 1) = Some toy_stamp ∧ length toy_stamp = 12%nat ∧
  after (parse toy_stamp) (last_handshake_timestamp R) = true ∧
  ∃ m1 I1 p1 m2 sr R1 p2 si I2,
    @format_handshake_initiation toy_noise I dst toy_stamper (from_secs 1) [3] = Some (Ok m1, I1) ∧
    parse_incoming_packet m1 = Some (Ok (PHandshakeInit p1)) ∧
    @receive_handshake_initialization toy_noise R p1 dst [4] = Some (Ok (m2, sr), R1) ∧
    parse_incoming_packet m2 = Some (Ok (PHandshakeResponse p2)) ∧
    @receive_handshake_response toy_noise I1 p2 (from_secs 2) = Some (Ok si, I2) ∧
    mirrored si sr ∧
    receiving_index si = next_local_index I ∧ receiving_index sr = next_local_index R ∧
    is_in_progress I2 = false ∧ is_in_progress R1 = false ∧
    @receive_handshake_initialization toy_noise R1 p1 dst [4] = Some (Err WrongTimestamp, R1).
Proof.
  intros I R dst.
  assert (H1 : @keyed toy_noise I [1] [2]) by (split; [reflexivity|vm_compute; split; congruence]).
  assert (H2 : @keyed toy_noise R [2] [1]) by (split; [reflexivity|vm_compute; split; congruence]).
  assert (H3 : stamp toy_stamper (from_secs 1) = Some toy_stamp) by (vm_compute; reflexivity).
  assert (H4 : length toy_stamp = 12%nat) by (vm_compute; reflexivity).
  assert (H5 : after (parse toy_stamp) (last_handshake_timestamp R) = true)
    by (vm_compute; reflexivity).
  assert (H6 : (HANDSHAKE_INIT_SZ ≤ length dst)%nat) by (vm_compute; lia).
  assert (H7 : (HANDSHAKE_RESP_SZ ≤ length dst)%nat) by (vm_compute; lia).
  split; [exact H1|]. split; [exact H2|]. split; [exact H3|]. split; [exact H4|]. split; [exact H5|].
  exact (@handshake_agreement toy_noise toy_noise_laws I R [1] [2] [3] [4] [4] dst dst dst toy_stamp
    toy_stamper (from_secs 1) (from_secs 2) H1 H2 H3 H4 H5 H6 H7).
Defined.

(** ** Outcomes *)

Section outcomes.
Context `{N : noise_crypto}.
Implicit Types (h : handshake).

(** The only outcomes of a response that is formatted. *)
Lemma format_response_outcome h dst e hash ck E i r h' :
  hs_state h = InitReceived hash ck E i →
  format_handshake_response h dst e = Some (r, h') →
  match r with
  | Ok (m, s) =>
      hs_state h' = NoHandshake ∧ previous h' = previous h ∧ params h' = params h ∧
      last_handshake_timestamp h' = last_handshake_timestamp h ∧
      next_local_index h' = next_local_index (allocate_local_index h).2 ∧
      receiving_index s = next_local_index h ∧ sending_index s = i ∧ sending_key_counter s = 0
  | Err er => er = DestinationBufferTooSmall ∧ h' = h ∧ (length dst < HANDSHAKE_RESP_SZ)%nat
  end.
Proof.
  intros Hst. unfold format_handshake_response.
  destruct (Nat.ltb_spec (length dst) HANDSHAKE_RESP_SZ); [by intros [= <- <-]|].
  rewrite Hst. cbn [allocate_local_index]. destruct (aead_chacha20_seal _ _ _ _ _); [|done].
  cbn [mbind option_bind append_mac1_and_mac2]. intros [= <- <-]. by split_and!.
Qed.

(** C35: what receiving an initiation does, whatever the packet. An accepted one
    carries a timestamp after every one accepted before (so it is no replay),
    takes the next local index for a session towards the sender's, and leaves
    no handshake in progress; the one it displaces can still be answered. A
    refused one changes nothing, but for one case: when the answer does not
    fit the buffer, the handshake keeps waiting to send it. *)
Theorem initiation_outcomes h p dst e r h' :
  receive_handshake_initialization h p dst e = Some (r, h') →
  match r with
  | Ok (m, s) =>
      after (last_handshake_timestamp h') (last_handshake_timestamp h) = true ∧
      previous h' = hs_state h ∧ is_in_progress h' = false ∧ is_expired h' = false ∧
      params h' = params h ∧
      next_local_index h' = next_local_index (allocate_local_index h).2 ∧
      receiving_index s = next_local_index h ∧ sending_index s = init_sender_idx p ∧
      sending_key_counter s = 0
  | Err DestinationBufferTooSmall =>
      (length dst < HANDSHAKE_RESP_SZ)%nat ∧ is_in_progress h' = true ∧ timer h' = None ∧
      after (last_handshake_timestamp h') (last_handshake_timestamp h) = true
  | Err _ => h' = h
  end.
Proof.
  unfold receive_handshake_initialization.
  assert (∀ n k c d ad x, aead_chacha20_open n k c d ad = Some (Err x) → x = InvalidAeadTag) as Herr.
  { intros n k c d ad x. unfold aead_chacha20_open. repeat case_match; congruence. }
  destruct (aead_chacha20_open KEY_LEN _ _ _ _) as [[d|er]|] eqn:Hd; cbn [mbind option_bind]; [| |done].
  2: { apply Herr in Hd as ->. by intros [= <- <-]. }
  destruct (negb _); [by intros [= <- <-]|].
  destruct (aead_chacha20_open TIMESTAMP_LEN _ _ _ _) as [[t|er]|] eqn:Ht; cbn [mbind option_bind]; [| |done].
  2: { apply Herr in Ht as ->. by intros [= <- <-]. }
  destruct (after (parse t) (last_handshake_timestamp h)) eqn:Hafter; cbn [negb];
    [|by intros [= <- <-]].
  intros Hf. eapply format_response_outcome in Hf; [|done]. destruct r as [[m s]|er].
  - destruct Hf as (Hs & Hp & Hpar & Hts & Hn & Hri & Hsi & Hc). rewrite Hts.
    split_and!; try done; unfold is_in_progress, is_expired; by rewrite Hs.
  - destruct Hf as (-> & -> & Hlen). by split_and!.
Qed.

(** What receiving a response does, whatever the packet. It is accepted
    only in answer to an initiation in flight, the current or the previous one,
    whose local index the session then has, and that initiation is no longer in
    flight; a refused response changes nothing. *)
Theorem response_outcomes h p now r h' :
  receive_handshake_response h p now = Some (r, h') →
  match r with
  | Ok s =>
      ∃ st cur, awaiting h p = Some (st, cur) ∧
        receiving_index s = resp_receiver_idx p ∧ sending_index s = resp_sender_idx p ∧
        sending_key_counter s = 0 ∧
        (if cur then hs_state h = InitSent st ∧ hs_state h' = NoHandshake ∧ previous h' = previous h
         else previous h = InitSent st ∧ previous h' = NoHandshake ∧ hs_state h' = hs_state h) ∧
        ((∀ s1 s2, hs_state h = InitSent s1 → previous h = InitSent s2 →
          sent_local_index s1 ≠ sent_local_index s2) → awaiting h' p = None)
  | Err _ => h' = h
  end.
Proof.
  unfold receive_handshake_response. destruct (awaiting h p) as [[st cur]|] eqn:Haw; [|by intros [= <- <-]].
  destruct (aead_chacha20_open _ _ _ _ _) as [[d|er]|]; cbn [mbind option_bind]; [| |done].
  2: { by intros [= <- <-]. }
  intros [= <- <-]. exists st, cur.
  assert (expected st p = true ∧ (if cur then hs_state h = InitSent st else previous h = InitSent st))
    as [He Hst].
  { revert Haw. unfold awaiting. repeat case_match; intros ?; simplify_eq; done. }
  unfold expected in He. apply Z.eqb_eq in He.
  split; [done|]. split; [done|]. split; [done|]. split; [done|]. split; [by destruct cur|].
  intros Hne. unfold awaiting, expected. destruct cur; cbn [set_states set_rtt previous hs_state].
  - destruct (previous h) as [|s2| |] eqn:Hp; try done.
    destruct (Z.eqb_spec (sent_local_index s2) (resp_receiver_idx p)) as [E|]; [|done].
    by destruct (Hne st s2 Hst eq_refl); rewrite He, E.
  - destruct (hs_state h) as [|s1| |] eqn:Hs; try done.
    destruct (Z.eqb_spec (sent_local_index s1) (resp_receiver_idx p)) as [E|]; [|done].
    by destruct (Hne s1 st eq_refl Hst); rewrite He, E.
Qed.
End outcomes.

(** The example exchange, step by step. *)
Definition toy_dst : bytes := repeat 0 148.
Definition toy_sent : result bytes wireguard_error * handshake :=
  default (Err UnexpectedPacket, toy_initiator)
    (@format_handshake_initiation toy_noise toy_initiator toy_dst toy_stamper (from_secs 1) [3]).
Definition toy_initiation : handshake_init :=
  match toy_sent.1 with
  | Ok m =>
      match parse_incoming_packet m with
      | Some (Ok (PHandshakeInit p)) => p
      | _ => HandshakeInit 0 [] [] []
      end
  | Err _ => HandshakeInit 0 [] [] []
  end.
Definition toy_answered : result (bytes * session) wireguard_error * handshake :=
  default (Err UnexpectedPacket, toy_responder)
    (@receive_handshake_initialization toy_noise toy_responder toy_initiation toy_dst [4]).
Definition toy_response : handshake_response :=
  match toy_answered.1 with
  | Ok (m, _) =>
      match parse_incoming_packet m with
      | Some (Ok (PHandshakeResponse p)) => p
      | _ => HandshakeResponse 0 0 [] []
      end
  | Err _ => HandshakeResponse 0 0 [] []
  end.
Definition toy_finished : result session wireguard_error * handshake :=
  default (Err UnexpectedPacket, toy_initiator)
    (@receive_handshake_response toy_noise toy_sent.2 toy_response (from_secs 2)).

Lemma initiation_outcomes_witness :
  @receive_handshake_initialization toy_noise toy_responder toy_initiation toy_dst [4] =
    Some (toy_answered.1, toy_answered.2) ∧ is_ok toy_answered.1 = true ∧
  match toy_answered.1 with
  | Ok (m, s) =>
      after (last_handshake_timestamp toy_answered.2) (last_handshake_timestamp toy_responder) = true ∧
      previous toy_answered.2 = hs_state toy_responder ∧ is_in_progress toy_answered.2 = false ∧
      is_expired toy_answered.2 = false ∧ params toy_answered.2 = params toy_responder ∧
      next_local_index toy_answered.2 = next_local_index (allocate_local_index toy_responder).2 ∧
      receiving_index s = next_local_index toy_responder ∧
      sending_index s = init_sender_idx toy_initiation ∧ sending_key_counter s = 0
  | Err DestinationBufferTooSmall =>
      (length toy_dst < HANDSHAKE_RESP_SZ)%nat ∧ is_in_progress toy_answered.2 = true ∧
      timer toy_answered.2 = None ∧
      after (last_handshake_timestamp toy_answered.2) (last_handshake_timestamp toy_responder) = true
  | Err _ => toy_answered.2 = toy_responder
  end.
Proof.
  assert (H : @receive_handshake_initialization toy_noise toy_responder toy_initiation toy_dst [4] =
    Some (toy_answered.1, toy_answered.2)) by (vm_compute; reflexivity).
  split; [exact H|]. split; [vm_compute; reflexivity|].
  exact (@initiation_outcomes toy_noise toy_responder toy_initiation toy_dst [4] _ _ H).
Defined.

Lemma response_outcomes_witness :
  @receive_handshake_response toy_noise toy_sent.2 toy_response (from_secs 2) =
    Some (toy_finished.1, toy_finished.2) ∧ is_ok toy_finished.1 = true ∧
  awaiting toy_sent.2 toy_response ≠ None ∧
  match toy_finished.1 with
  | Ok s =>
      ∃ st cur, awaiting toy_sent.2 toy_response = Some (st, cur) ∧
        receiving_index s = resp_receiver_idx toy_response ∧
        sending_index s = resp_sender_idx toy_response ∧ sending_key_counter s = 0 ∧
        (if cur then hs_state toy_sent.2 = InitSent st ∧ hs_state toy_finished.2 = NoHandshake ∧
           previous toy_finished.2 = previous toy_sent.2
         else previous toy_sent.2 = InitSent st ∧ previous toy_finished.2 = NoHandshake ∧
           hs_state toy_finished.2 = hs_state toy_sent.2) ∧
        ((∀ s1 s2, hs_state toy_sent.2 = InitSent s1 → previous toy_sent.2 = InitSent s2 →
          sent_local_index s1 ≠ sent_local_index s2) → awaiting toy_finished.2 toy_response = None)
  | Err _ => toy_finished.2 = toy_sent.2
  end.
Proof.
  assert (H : @receive_handshake_response toy_noise toy_sent.2 toy_response (from_secs 2) =
    Some (toy_finished.1, toy_finished.2)) by (vm_compute; reflexivity).
  split; [exact H|]. split; [vm_compute; reflexivity|]. split; [vm_compute; discriminate|].
  exact (@response_outcomes toy_noise toy_sent.2 toy_response (from_secs 2) _ _ H).
Defined.

(** ** Local indexes *)

(** The state after [n] allocations. *)
Definition allocated (h : handshake) (n : nat) : handshake :=
  Nat.iter n (λ h, (allocate_local_index h).2) h.

Lemma allocated_index h n :
  in_width 32 (next_local_index h) →
  in_width 32 (next_local_index (allocated h n)) ∧
  next_local_index (allocated h n) =
    256 * (next_local_index h / 256) + (next_local_index h + Z.of_nat n) mod 256.
Proof.
  intros Hw. induction n as [|n [IHw IH]].
  - split; [done|]. simpl. rewrite Z.add_0_r. pose proof (Z.div_mod (next_local_index h) 256). lia.
  - split; [by apply allocate_width|].
    change (allocated h (S n)) with (allocate_local_index (allocated h n)).2.
    rewrite allocate_next, IH by done. set (i := next_local_index h).
    replace (Z.of_nat (S n)) with (Z.of_nat n + 1) by lia. Z.div_mod_to_equations. lia.
Qed.

(** C36: the local indexes of a peer all carry its 24-bit index, any 256
    consecutive ones differ, and they repeat after 256. In the ring of three
    sessions the next session lands in another slot than the last one, except
    when the 8-bit counter wraps: then it takes the very same slot. *)
Theorem local_indexes_cycle h n m :
  in_width 32 (next_local_index h) →
  next_local_index (allocated h n) / 256 = next_local_index h / 256 ∧
  (next_local_index (allocated h n) = next_local_index (allocated h m) ↔
    (Z.of_nat n - Z.of_nat m) mod 256 = 0) ∧
  (next_local_index (allocated h (S n)) mod 3 = next_local_index (allocated h n) mod 3 ↔
    next_local_index (allocated h n) mod 256 = 255).
Proof.
  intros Hw. set (i := next_local_index h).
  destruct (allocated_index h n Hw) as [_ Hn]. destruct (allocated_index h m Hw) as [_ Hm].
  destruct (allocated_index h (S n) Hw) as [_ HSn]. fold i in Hn, Hm, HSn. rewrite Hn, Hm, HSn.
  pose proof (Z.mod_pos_bound (i + Z.of_nat n) 256 ltac:(lia)) as Hbn.
  assert ((i + Z.of_nat (S n)) mod 256 =
    if decide ((i + Z.of_nat n) mod 256 = 255) then 0 else (i + Z.of_nat n) mod 256 + 1) as HS.
  { replace (i + Z.of_nat (S n)) with (i + Z.of_nat n + 1) by lia.
    rewrite <- Zplus_mod_idemp_l. case_decide as E; [by rewrite E|]. by rewrite Z.mod_small by lia. }
  rewrite HS. clear HS. split; [|split].
  - Z.div_mod_to_equations. lia.
  - split.
    + intros E. assert ((i + Z.of_nat n) mod 256 = (i + Z.of_nat m) mod 256) as E' by lia.
      replace (Z.of_nat n - Z.of_nat m) with ((i + Z.of_nat n) - (i + Z.of_nat m)) by lia.
      rewrite Zminus_mod, E', Z.sub_diag. done.
    + intros E. do 1 f_equal. apply Z.mod_divide in E as [k E]; [|lia].
      replace (i + Z.of_nat n) with (i + Z.of_nat m + k * 256) by lia. by rewrite Z.mod_add by lia.
  - set (x := (i + Z.of_nat n) mod 256) in *. set (q := i / 256) in *.
    assert ((256 * q + x) mod 256 = x) as -> by (rewrite Z.add_comm, Z.mul_comm, Z.mod_add, Z.mod_small; lia).
    case_decide as E; [rewrite E|].
    + replace (256 * q + 255) with (256 * q + 0 + 85 * 3) by lia. by rewrite Z.mod_add by lia.
    + split; [|done]. intros Heq. exfalso. set (y := 256 * q + x) in *.
      replace (256 * q + (x + 1)) with (y + 1) in Heq by lia. Z.div_mod_to_equations. lia.
Qed.

Lemma local_indexes_cycle_witness :
  in_width 32 (next_local_index toy_initiator) ∧
  next_local_index (allocated toy_initiator 255) / 256 = next_local_index toy_initiator / 256 ∧
  (next_local_index (allocated toy_initiator 255) = next_local_index (allocated toy_initiator 3) ↔
    (Z.of_nat 255 - Z.of_nat 3) mod 256 = 0) ∧
  (next_local_index (allocated toy_initiator 256) mod 3 =
    next_local_index (allocated toy_initiator 255) mod 3 ↔
    next_local_index (allocated toy_initiator 255) mod 256 = 255).
Proof.
  assert (H : in_width 32 (next_local_index toy_initiator)) by (vm_compute; split; congruence).
  split; [exact H|]. exact (local_indexes_cycle toy_initiator 255 3 H).
Defined.
