(* ===== verification/RateLimiter.v ===== *)
(** * Rate limiting of handshakes: [tendrilix/src/noise/rate_limiter.rs]

    The macs every handshake message carries and the cookies that a loaded
    receiver asks for. The atomics of the source make each counter operation
    one step; the clock is an argument. The outer option is a panic. *)

From S2P Require Import Prelude IpNet Timestamper Wire Session Handshake.

Definition COOKIE_REFRESH : Z := 120.
Definition COOKIE_SIZE : nat := 16.
Definition COOKIE_NONCE_SIZE : nat := 24.
Definition RESET_PERIOD : Z := 1.

Record rate_limiter := RateLimiter {
  nonce_key : bytes;
  secret_key : bytes;
  start_time : Z;
  nonce_ctr : Z;
  mac1_key : bytes;
  cookie_key : bytes;
  limit : Z;
  count : Z;
  last_reset : Z
}.

Section rate_limiter.
Context `{N : noise_crypto}.
Implicit Types (r : rate_limiter).

(** The two keys are drawn from the generator. *)
Definition rate_limiter_new (public_key : bytes) (limit : Z) (secret_key nonce_key : bytes) (now : Z)
    : rate_limiter :=
  RateLimiter nonce_key secret_key now 0 (b2s_hash LABEL_MAC1 public_key)
    (b2s_hash LABEL_COOKIE public_key) limit 0 now.

Definition as_secs (d : Z) : Z := d / NANOS_PER_SEC.

Definition reset_count r (current_time : Z) : rate_limiter :=
  if RESET_PERIOD <=? as_secs (duration_since current_time (last_reset r)) then
    RateLimiter (nonce_key r) (secret_key r) (start_time r) (nonce_ctr r) (mac1_key r)
      (cookie_key r) (limit r) 0 current_time
  else r.

Definition octets (addr : ip_addr) : bytes :=
  match addr with
  | IpV4 a => to_be_bytes 4 a
  | IpV6 a => to_be_bytes 16 a
  end.

Definition current_cookie r (addr : ip_addr) (now : Z) : bytes :=
  let addr_bytes := write_at 0 (octets addr) (repeat 0 16) in
  let cur_counter := as_secs (duration_since now (start_time r)) / COOKIE_REFRESH in
  b2s_keyed_mac_16_2 (secret_key r) (to_le_bytes 8 cur_counter) addr_bytes.

Definition nonce r : bytes * rate_limiter :=
  let ctr := nonce_ctr r in
  (b2s_mac_24 (nonce_key r) (to_le_bytes 8 ctr),
   RateLimiter (nonce_key r) (secret_key r) (start_time r) (wrap 64 (ctr + 1)) (mac1_key r)
     (cookie_key r) (limit r) (count r) (last_reset r)).

Definition is_under_load r : bool * rate_limiter :=
  (limit r <=? count r,
   RateLimiter (nonce_key r) (secret_key r) (start_time r) (nonce_ctr r) (mac1_key r)
     (cookie_key r) (limit r) (wrap 64 (count r + 1)) (last_reset r)).

Definition format_cookie_reply r (idx : Z) (cookie mac1 : bytes) (dst_len : nat)
    : result bytes wireguard_error * rate_limiter :=
  if (dst_len <? COOKIE_REPLY_SZ)%nat then (Err DestinationBufferTooSmall, r)
  else
    let '(nonce, r) := nonce r in
    let '(ct, tag) := xchacha_seal (cookie_key r) nonce cookie mac1 in
    (Ok (to_le_bytes 4 COOKIE_REPLY ++ to_le_bytes 4 idx ++ nonce ++ ct ++ tag), r).

(** The sender of a handshake message. *)
Definition handshake_sender (p : packet) : option Z :=
  match p with
  | PHandshakeInit p => Some (init_sender_idx p)
  | PHandshakeResponse p => Some (resp_sender_idx p)
  | _ => None
  end.

(** The part of [verify_packet] that a handshake message goes through. *)
Definition verify_handshake r (src_addr : option ip_addr) (sender_idx : Z) (src : bytes)
    (dst_len : nat) (now : Z) : result unit tunn_result * rate_limiter :=
  let msg := take (length src - 32) src in
  let macs := drop (length src - 32) src in
  let mac1 := take 16 macs in
  let mac2 := drop 16 macs in
  let computed_mac1 := b2s_keyed_mac_16 (mac1_key r) msg in
  if negb (bool_decide (take 16 computed_mac1 = mac1)) then (Err (TunnErr InvalidMac), r)
  else
    let '(under_load, r) := is_under_load r in
    if under_load then
      match src_addr with
      | None => (Err (TunnErr UnderLoad), r)
      | Some addr =>
          let cookie := current_cookie r addr now in
          let computed_mac2 := b2s_keyed_mac_16_2 cookie msg mac1 in
          if negb (bool_decide (take 16 computed_mac2 = mac2)) then
            match format_cookie_reply r sender_idx cookie mac1 dst_len with
            | (Err e, r) => (Err (TunnErr e), r)
            | (Ok cookie_packet, r) => (Err (WriteToNetwork cookie_packet), r)
            end
          else (Ok tt, r)
      end
    else (Ok tt, r).

Definition verify_packet r (src_addr : option ip_addr) (src : bytes) (dst_len : nat) (now : Z)
    : option (result packet tunn_result * rate_limiter) :=
  let! parsed := parse_incoming_packet src in
  match parsed with
  | Err e => Some (Err (TunnErr e), r)
  | Ok packet =>
      match handshake_sender packet with
      | Some sender_idx =>
          match verify_handshake r src_addr sender_idx src dst_len now with
          | (Err e, r) => Some (Err e, r)
          | (Ok _, r) => Some (Ok packet, r)
          end
      | None => Some (Ok packet, r)
      end
  end.
End rate_limiter.

(** ** The macs of a message *)

Section macs.
Context `{N : noise_crypto}.
Implicit Types (r : rate_limiter).

(** The first mac proves knowledge of the receiver's key, the second ownership
    of the address the cookie was made for. *)
Definition mac1_ok r (src : bytes) : bool :=
  bool_decide (b2s_keyed_mac_16 (mac1_key r) (take (length src - 32) src) =
    take 16 (drop (length src - 32) src)).

Definition mac2_ok r (addr : option ip_addr) (now : Z) (src : bytes) : bool :=
  match addr with
  | None => false
  | Some addr =>
      bool_decide (b2s_keyed_mac_16 (current_cookie r addr now) (take (length src - 16) src) =
        drop (length src - 16) src)
  end.

(** Counting one more handshake message. *)
Definition counted r : rate_limiter := (is_under_load r).2.

Context `{L : !noise_laws}.

Lemma take_mac16 k d : take 16 (b2s_keyed_mac_16 k d) = b2s_keyed_mac_16 k d.
Proof. apply take_ge. unfold b2s_keyed_mac_16. by rewrite mac16_length. Qed.

(** [verify_handshake] by its two tests. *)
Lemma verify_handshake_eq r src_addr idx src dst_len now :
  (32 ≤ length src)%nat →
  verify_handshake r src_addr idx src dst_len now =
    if negb (mac1_ok r src) then (Err (TunnErr InvalidMac), r)
    else if count r <? limit r then (Ok tt, counted r)
    else if mac2_ok r src_addr now src then (Ok tt, counted r)
    else
      match src_addr with
      | None => (Err (TunnErr UnderLoad), counted r)
      | Some addr =>
          match format_cookie_reply (counted r) idx (current_cookie r addr now)
              (take 16 (drop (length src - 32) src)) dst_len with
          | (Err e, r) => (Err (TunnErr e), r)
          | (Ok c, r) => (Err (WriteToNetwork c), r)
          end
      end.
Proof.
  intros Hlen. unfold verify_handshake. rewrite take_mac16. fold (mac1_ok r src).
  destruct (mac1_ok r src); simpl negb; cbv iota; [|done].
  rewrite Z.ltb_antisym. destruct (is_under_load r) as [load r1] eqn:Hl.
  assert (load = (limit r <=? count r) ∧ r1 = counted r) as [-> ->]
    by (unfold counted; rewrite Hl; split; [by injection Hl|done]).
  destruct (limit r <=? count r); simpl negb; cbv iota; [|done].
  destruct src_addr as [addr|]; [|done]. simpl mac2_ok.
  change (current_cookie (counted r) addr now) with (current_cookie r addr now).
  assert (take 16 (b2s_keyed_mac_16_2 (current_cookie r addr now) (take (length src - 32) src)
    (take 16 (drop (length src - 32) src))) =
    b2s_keyed_mac_16 (current_cookie r addr now) (take (length src - 16) src)) as ->.
  { unfold b2s_keyed_mac_16_2. rewrite take_take_drop.
    replace (length src - 32 + 16)%nat with (length src - 16)%nat by lia. apply take_mac16. }
  rewrite drop_drop. replace (length src - 32 + 16)%nat with (length src - 16)%nat by lia.
  by destruct (bool_decide _).
Qed.

Lemma parsed_handshake_length src p :
  parse_incoming_packet src = Some (Ok p) → is_Some (handshake_sender p) → (32 ≤ length src)%nat.
Proof.
  unfold parse_incoming_packet. destruct (Nat.ltb_spec (length src) 4); [done|].
  destruct (read_u32 0 src) as [t|]; [|done]. cbn [mbind option_bind].
  destruct (_ && (length src =? HANDSHAKE_INIT_SZ)%nat) eqn:E1.
  { apply andb_true_iff in E1 as [_ E1%Nat.eqb_eq]. rewrite E1. unfold HANDSHAKE_INIT_SZ. lia. }
  destruct (_ && (length src =? HANDSHAKE_RESP_SZ)%nat) eqn:E2.
  { apply andb_true_iff in E2 as [_ E2%Nat.eqb_eq]. rewrite E2. unfold HANDSHAKE_RESP_SZ. lia. }
  destruct (_ && (length src =? COOKIE_REPLY_SZ)%nat).
  { destruct (read_u32 4 src), (get_range 8 32 src), (get_range 32 64 src); try done.
    cbn [mbind option_bind]. intros Hp [? ?]. by simplify_eq/=. }
  clear E1 E2. destruct (_ && _); [destruct (parse_data src); [intros Hp [? ?]; by simplify_eq/=|done]|].
  destruct (_ && _); [destruct (parse_data src); [intros Hp [? ?]; by simplify_eq/=|done]|done].
Qed.

(** The fields that tests read never change. *)
Record same_secrets r r' : Prop := {
  same_secret_key : secret_key r' = secret_key r;
  same_start : start_time r' = start_time r;
  same_mac1_key : mac1_key r' = mac1_key r;
  same_cookie_key : cookie_key r' = cookie_key r;
  same_limit : limit r' = limit r
}.

Lemma cookie_reply_secrets r idx c m n :
  same_secrets r (format_cookie_reply r idx c m n).2 ∧
  count (format_cookie_reply r idx c m n).2 = count r.
Proof.
  unfold format_cookie_reply. case_match; [done|]. cbn [nonce].
  by destruct (xchacha_seal _ _ _ _).
Qed.

(** What a verification does to the limiter, and what it takes to pass. *)
Lemma verify_packet_step r src_addr src dst_len now res r' :
  verify_packet r src_addr src dst_len now = Some (res, r') →
  same_secrets r r' ∧ (count r' = count r ∨ count r' = wrap 64 (count r + 1)) ∧
  ∀ p, res = Ok p → is_Some (handshake_sender p) →
    mac1_ok r src = true ∧ count r' = wrap 64 (count r + 1) ∧
    (mac2_ok r src_addr now src = true ∨ count r < limit r).
Proof.
  unfold verify_packet.
  destruct (parse_incoming_packet src) as [[p|e]|] eqn:Hp; cbn [mbind option_bind]; [| |done].
  2: { intros [= <- <-]. by split_and!; [|left|]. }
  destruct (handshake_sender p) as [i|] eqn:Hi.
  2: { intros [= <- <-]. split_and!; [done|by left|]. intros ? [= <-] [? Hs]. congruence. }
  rewrite verify_handshake_eq by (eapply parsed_handshake_length; [done|by rewrite Hi]).
  destruct (mac1_ok r src); simpl negb; cbv iota.
  2: { intros [= <- <-]. by split_and!; [|left|]. }
  assert (same_secrets r (counted r)) as Hsame by done.
  destruct (Z.ltb_spec (count r) (limit r)).
  { intros [= <- <-]. by split_and!; [|right|auto]. }
  destruct (mac2_ok r src_addr now src).
  { intros [= <- <-]. by split_and!; [|right|auto]. }
  destruct src_addr as [addr|].
  2: { intros [= <- <-]. by split_and!; [|right|]. }
  match goal with |- context [format_cookie_reply ?a ?b ?c ?d ?e] =>
    destruct (cookie_reply_secrets a b c d e) as [[] Hc];
    destruct (format_cookie_reply a b c d e) as [[c'|er] r1] end;
    intros [= <- <-]; by split_and!; [|right|].
Qed.
End macs.

(** ** The limit *)

(** A datagram, where it came from, the buffer for an answer, and when. *)
Record arrival := Arrival {
  arr_addr : option ip_addr;
  arr_src : bytes;
  arr_dst_len : nat;
  arr_at : Z
}.

Section limit.
Context `{N : noise_crypto}.

(** Handshake messages of a sequence of datagrams, verified one after the
    other, that pass without a valid cookie. *)
Fixpoint passed_blind (r : rate_limiter) (l : list arrival) : nat :=
  match l with
  | [] => 0
  | a :: l =>
      match verify_packet r (arr_addr a) (arr_src a) (arr_dst_len a) (arr_at a) with
      | Some (Ok p, r') =>
          (if bool_decide (is_Some (handshake_sender p)) &&
              negb (mac2_ok r (arr_addr a) (arr_at a) (arr_src a)) then 1 else 0)
          + passed_blind r' l
      | Some (Err _, r') => passed_blind r' l
      | None => 0
      end
  end%nat.

(** C27: verification never panics, lets no handshake message through without
    the mac that proves knowledge of this device's public key, and between two
    resets of the counter lets at most [limit] of them through without a cookie
    for their source address, whatever arrives. *)
Theorem handshakes_rate_limited `{!noise_laws} (r : rate_limiter) (l : list arrival) :
  0 ≤ count r → count r + Z.of_nat (length l) < 2 ^ 64 →
  Forall (λ a, is_bytes (arr_src a)) l →
  Forall (λ a, ∃ res r', verify_packet r (arr_addr a) (arr_src a) (arr_dst_len a) (arr_at a) =
      Some (res, r') ∧
    ∀ p, res = Ok p → is_Some (handshake_sender p) → mac1_ok r (arr_src a) = true) l ∧
  Z.of_nat (passed_blind r l) ≤ Z.max 0 (limit r - count r).
Proof.
  intros Hc Hn Hb. split.
  - eapply Forall_impl; [exact Hb|]. intros a Ha. simpl.
    destruct (verify_packet r (arr_addr a) (arr_src a) (arr_dst_len a) (arr_at a)) as [[res r']|] eqn:Hv.
    + exists res, r'. split; [done|]. intros p Hp Hs.
      apply verify_packet_step in Hv as (_ & _ & Hv). by apply (Hv p).
    + exfalso. unfold verify_packet in Hv. destruct (parse_total (arr_src a) Ha) as (x & Hx & _).
      rewrite Hx in Hv. cbn [mbind option_bind] in Hv. repeat (case_match; try done).
  - clear Hb. revert r Hc Hn. induction l as [|a l IH]; intros r Hc Hn; simpl; [lia|].
    destruct (verify_packet _ _ _ _ _) as [[res r']|] eqn:Hv; [|lia].
    apply verify_packet_step in Hv as ([_ _ _ _ El] & Ec & Hp). rewrite <- El.
    cbn [length] in Hn.
    assert (wrap 64 (count r + 1) = count r + 1) as Hw by (apply wrap_small; unfold in_width; lia).
    rewrite Hw in Ec, Hp.
    specialize (IH r' ltac:(lia) ltac:(lia)). destruct res as [p|e]; [|lia].
    case_bool_decide as Hs; simpl; [|lia].
    destruct (Hp p eq_refl Hs) as (_ & Ec' & Hm). rewrite El in *.
    destruct (mac2_ok r (arr_addr a) (arr_at a) (arr_src a)); simpl; [lia|].
    destruct Hm as [|Hm]; [done|]. lia.
Qed.
End limit.

(** ** The cookie exchange *)

Section cookie.
Context `{L : noise_laws}.

(** The macs of a formatted message, seen by the receiver whose key they are for. *)
Lemma formatted_macs r h msg addr now :
  mac1_key r = sending_mac1_key (params h) →
  let m := msg ++ macs h msg in
  mac1_ok r m = true ∧ take 16 (drop (length m - 32) m) = b2s_keyed_mac_16 (sending_mac1_key (params h)) msg ∧
  (write_cookie (hs_cookies h) = Some (current_cookie r addr now) → mac2_ok r (Some addr) now m = true).
Proof.
  intros Hk m. pose proof (length_macs h msg) as Hm.
  assert (length m = length msg + 32)%nat as Hlen by (unfold m; rewrite length_app, Hm; done).
  set (mac1 := b2s_keyed_mac_16 (sending_mac1_key (params h)) msg).
  assert (length mac1 = 16%nat) as H1 by (unfold mac1, b2s_keyed_mac_16; by rewrite mac16_length).
  assert (drop (length m - 32) m = macs h msg) as Hd.
  { rewrite Hlen, Nat.add_sub. apply drop_app_length. }
  assert (take 16 (macs h msg) = mac1) as Ht.
  { unfold macs. fold mac1. rewrite <- H1. apply take_app_length. }
  split.
  { unfold mac1_ok. rewrite Hd, Ht, Hlen, Nat.add_sub. unfold m. rewrite take_app_length.
    rewrite Hk. by apply bool_decide_eq_true_2. }
  split; [by rewrite Hd|]. intros Hc. simpl. apply bool_decide_eq_true_2.
  replace (length m - 16)%nat with (length (msg ++ mac1)) by (rewrite length_app; lia).
  unfold m, macs. fold mac1. rewrite Hc, (app_assoc msg), take_app_length, drop_app_length. done.
Qed.

(** A cookie reply opens for the peer whose message it answers. *)
Lemma cookie_reply_received r h idx msg cookie dst_len :
  cookie_key r = b2s_hash LABEL_COOKIE (peer_static_public (params h)) →
  in_width 32 idx → length cookie = 16%nat → (COOKIE_REPLY_SZ ≤ dst_len)%nat →
  let mac1 := b2s_keyed_mac_16 (sending_mac1_key (params h)) msg in
  ∃ c r' q,
    format_cookie_reply r idx cookie mac1 dst_len = (Ok c, r') ∧
    parse_incoming_packet c = Some (Ok (PCookieReply q)) ∧
    receive_cookie_reply (with_macs h idx msg) q =
      Some (Ok tt, set_cookies (Cookies (Some mac1) idx (Some cookie)) (with_macs h idx msg)).
Proof.
  intros Hk Hi Hc Hd mac1. unfold format_cookie_reply. rewrite (proj2 (Nat.ltb_ge _ _)) by done.
  cbn [nonce]. set (n := b2s_mac_24 _ _). cbn [cookie_key].
  destruct (xchacha_seal (cookie_key r) n cookie mac1) as [ct tag] eqn:Hs.
  pose proof (xchacha_length (cookie_key r) n cookie mac1) as H1.
  pose proof (xchacha_tag_length (cookie_key r) n cookie mac1) as H2.
  pose proof (xchacha_open_seal (cookie_key r) n cookie mac1) as H3. rewrite Hs in H1, H2, H3.
  cbn [fst snd] in H1, H2, H3. rewrite Hc in H1.
  eexists _, _, (CookieReply idx n (ct ++ tag)). split; [done|]. split.
  { apply (parse_encode (PCookieReply (CookieReply idx n (ct ++ tag))) []). cbn.
    rewrite length_app, H1, H2. split_and!; [by apply Hi..|apply mac24_length|done|done]. }
  unfold receive_cookie_reply. cbn [with_macs set_cookies hs_cookies last_mac1 cookie_receiver_idx
    cookie_index encrypted_cookie cookie_nonce params].
  rewrite Z.eqb_refl. cbn [negb]. rewrite length_app, H1, H2. cbn [Nat.add Nat.ltb Nat.leb Nat.sub].
  rewrite decide_True by done. rewrite <- H1 at 1. rewrite take_app_length.
  replace 16%nat with (length ct) by done. rewrite drop_app_length, <- Hk. fold mac1. by rewrite H3.
Qed.

(** An initiation as the pair of its body and macs. *)
Lemma formatted_initiation I ski skr e dst b ts now :
  keyed I ski skr → stamp ts now = Some b → length b = 12%nat →
  (HANDSHAKE_INIT_SZ ≤ length dst)%nat →
  ∃ msg I0 p,
    format_handshake_initiation I dst ts now e =
      Some (Ok (msg ++ macs I0 msg), with_macs I0 (next_local_index I) msg) ∧
    parse_incoming_packet (msg ++ macs I0 msg) = Some (Ok (PHandshakeInit p)) ∧
    init_sender_idx p = next_local_index I ∧ length msg = 116%nat ∧
    keyed I0 ski skr ∧ hs_cookies I0 = hs_cookies I.
Proof.
  intros [HIp HIw] Hts Hb Hdst.
  pose proof (format_initiation_spec I dst ts now e b Hdst) as Hf.
  rewrite HIp in Hf. cbn [noise_params_new static_public peer_static_public static_shared] in Hf.
  specialize (Hf (public_length ski) Hts Hb). cbv zeta in Hf.
  destruct (init_transcript _ _ _ _ _ _) as [[[es et] hash] ck] eqn:Htr.
  destruct Hf as (msg & Henc & Hlen & Hf). rewrite Henc in Hf.
  eexists msg, _, (HandshakeInit (next_local_index I) (public_from e) es et).
  split; [exact Hf|]. split.
  { rewrite <- Henc. apply parse_encode. cbn. injection Htr as <- <- _ _.
    rewrite !length_sealed, public_length, public_length, Hb, length_macs. by split_and!. }
  split; [done|]. split; [done|]. split; [|done]. split; [done|]. by apply allocate_width.
Qed.

(** A message with valid macs passes under any load. *)
Lemma verify_valid r addr m p dst_len t :
  parse_incoming_packet m = Some (Ok p) → is_Some (handshake_sender p) →
  mac1_ok r m = true → mac2_ok r (Some addr) t m = true →
  verify_packet r (Some addr) m dst_len t = Some (Ok p, counted r).
Proof.
  intros Hp [i Hi] H1 H2. unfold verify_packet. rewrite Hp. cbn [mbind option_bind]. rewrite Hi.
  rewrite verify_handshake_eq by (eapply parsed_handshake_length; [done|by rewrite Hi]).
  rewrite H1, H2. cbn [negb]. by destruct (count r <? limit r).
Qed.

(** One without a cookie is answered with a reply under load. *)
Lemma verify_loaded r addr m p i dst_len t :
  parse_incoming_packet m = Some (Ok p) → handshake_sender p = Some i →
  mac1_ok r m = true → mac2_ok r (Some addr) t m = false → limit r ≤ count r →
  verify_packet r (Some addr) m dst_len t =
    match format_cookie_reply (counted r) i (current_cookie r addr t)
        (take 16 (drop (length m - 32) m)) dst_len with
    | (Err e, r) => Some (Err (TunnErr e), r)
    | (Ok c, r) => Some (Err (WriteToNetwork c), r)
    end.
Proof.
  intros Hp Hi H1 H2 Hl. unfold verify_packet. rewrite Hp. cbn [mbind option_bind]. rewrite Hi.
  rewrite verify_handshake_eq by (eapply parsed_handshake_length; [done|by rewrite Hi]).
  rewrite H1, H2, (proj2 (Z.ltb_ge _ _)) by done. cbn [negb].
  by destruct (format_cookie_reply _ _ _ _ _) as [[c|e] r1].
Qed.

Lemma current_cookie_period r r' addr t t' :
  same_secrets r r' →
  as_secs (duration_since t (start_time r)) / COOKIE_REFRESH =
    as_secs (duration_since t' (start_time r)) / COOKIE_REFRESH →
  current_cookie r' addr t' = current_cookie r addr t.
Proof. intros [S1 S2 _ _ _] Hp. unfold current_cookie. by rewrite S1, S2, Hp. Qed.
End cookie.

(** C29: a loaded receiver does not lock out honest peers. An initiation that
    arrives under load without a valid cookie is answered with a cookie reply
    that the initiator accepts, and its next initiation, if it arrives in the
    same cookie period from the same address, is let through under any load. *)
Theorem cookie_exchange `{noise_laws} (I : handshake) (r r' : rate_limiter)
    (ski skr e e' dst b b' : bytes) (addr : ip_addr) (dst_len : nat) (ts : time_stamper)
    (now now' t t' : Z) :
  keyed I ski skr →
  mac1_key r = b2s_hash LABEL_MAC1 (public_from skr) →
  cookie_key r = b2s_hash LABEL_COOKIE (public_from skr) →
  stamp ts now = Some b → length b = 12%nat → stamp ts now' = Some b' → length b' = 12%nat →
  (HANDSHAKE_INIT_SZ ≤ length dst)%nat → (COOKIE_REPLY_SZ ≤ dst_len)%nat →
  limit r ≤ count r → same_secrets r r' →
  as_secs (duration_since t (start_time r)) / COOKIE_REFRESH =
    as_secs (duration_since t' (start_time r)) / COOKIE_REFRESH →
  ∃ m I1,
    format_handshake_initiation I dst ts now e = Some (Ok m, I1) ∧
    (mac2_ok r (Some addr) t m = false →
     ∃ c r1 q I2 m' I3 p',
       verify_packet r (Some addr) m dst_len t = Some (Err (WriteToNetwork c), r1) ∧
       parse_incoming_packet c = Some (Ok (PCookieReply q)) ∧
       receive_cookie_reply I1 q = Some (Ok tt, I2) ∧ has_cookie I2 = true ∧
       format_handshake_initiation I2 dst ts now' e' = Some (Ok m', I3) ∧
       verify_packet r' (Some addr) m' dst_len t' = Some (Ok (PHandshakeInit p'), counted r')).
Proof.
  intros HI Hk1 Hk2 Hts Hb Hts' Hb' Hdst Hdl Hload Hsame Hper. pose proof Hsame as [_ _ S3 _ _].
  destruct (formatted_initiation I ski skr e dst b ts now HI Hts Hb Hdst)
    as (msg & I0 & p & Hf & Hp & Hi & _ & [HI0 Hw0] & Hc0).
  eexists _, _. split; [exact Hf|]. intros Hm2.
  destruct (formatted_macs r I0 msg addr t) as (Hm1 & Hmac1 & _); [by rewrite HI0|].
  set (m := msg ++ macs I0 msg) in *.
  pose proof (verify_loaded r addr m (PHandshakeInit p) (next_local_index I) dst_len t Hp
    (f_equal Some Hi) Hm1 Hm2 Hload) as Hv. rewrite Hmac1 in Hv.
  destruct (cookie_reply_received (counted r) I0 (next_local_index I) msg (current_cookie r addr t)
    dst_len) as (c & r1 & q & Hfc & Hpc & Hrc); [by rewrite HI0|by apply HI|by apply mac16_length|done|].
  rewrite Hfc in Hv.
  match type of Hrc with _ = Some (_, ?h) => set (I2 := h) in * end.
  destruct (formatted_initiation I2 ski skr e' dst b' ts now' (conj HI0 Hw0) Hts' Hb' Hdst)
    as (msg' & I0' & p' & Hf' & Hp' & _ & _ & [HI0' _] & Hc0').
  eexists c, r1, q, I2, _, _, p'. split; [exact Hv|]. split; [exact Hpc|]. split; [exact Hrc|].
  split; [done|]. split; [exact Hf'|].
  destruct (formatted_macs r' I0' msg' addr t') as (Hm1' & _ & Hm2'); [by rewrite HI0', S3|].
  apply verify_valid; [done|by eexists|done|]. apply Hm2'.
  rewrite (current_cookie_period r r' addr t t' Hsame Hper). by rewrite Hc0'.
Qed.

(** ** Concrete instances *)

Definition toy_limiter (limit : Z) : rate_limiter :=
  @rate_limiter_new toy_noise (@public_from toy_noise [2]) limit (repeat 5 16) (repeat 6 32) 0.

Definition toy_packet : bytes :=
  match toy_sent.1 with
  | Ok m => m
  | Err _ => []
  end.

Lemma handshakes_rate_limited_witness :
  let r := toy_limiter 1 in
  let l := repeat (Arrival (Some (IpV4 1)) toy_packet 64 0) 3 in
  0 ≤ count r ∧ count r + Z.of_nat (length l) < 2 ^ 64 ∧ Forall (λ a, is_bytes (arr_src a)) l ∧
  Forall (λ a, ∃ res r', @verify_packet toy_noise r (arr_addr a) (arr_src a) (arr_dst_len a)
      (arr_at a) = Some (res, r') ∧
    ∀ p, res = Ok p → is_Some (handshake_sender p) → @mac1_ok toy_noise r (arr_src a) = true) l ∧
  Z.of_nat (@passed_blind toy_noise r l) ≤ Z.max 0 (limit r - count r) ∧
  @passed_blind toy_noise r l = 1%nat.
Proof.
  intros r l.
  assert (H1 : 0 ≤ count r) by (vm_compute; discriminate).
  assert (H2 : count r + Z.of_nat (length l) < 2 ^ 64) by (vm_compute; reflexivity).
  assert (H3 : Forall (λ a, is_bytes (arr_src a)) l).
  { apply (bool_decide_unpack _). vm_compute. exact I. }
  split; [exact H1|]. split; [exact H2|]. split; [exact H3|].
  destruct (@handshakes_rate_limited toy_noise toy_noise_laws r l H1 H2 H3) as [C1 C2].
  split; [exact C1|]. split; [exact C2|]. vm_compute. reflexivity.
Defined.

Lemma cookie_exchange_witness :
  let r := toy_limiter 0 in
  @keyed toy_noise toy_initiator [1] [2] ∧ limit r ≤ count r ∧ same_secrets r r ∧
  ∃ m I1,
    @format_handshake_initiation toy_noise toy_initiator toy_dst toy_stamper (from_secs 1) [3] =
      Some (Ok m, I1) ∧
    @mac2_ok toy_noise r (Some (IpV4 1)) 0 m = false ∧
    ∃ c r1 q I2 m' I3 p',
      @verify_packet toy_noise r (Some (IpV4 1)) m 64 0 = Some (Err (WriteToNetwork c), r1) ∧
      parse_incoming_packet c = Some (Ok (PCookieReply q)) ∧
      @receive_cookie_reply toy_noise I1 q = Some (Ok tt, I2) ∧ has_cookie I2 = true ∧
      @format_handshake_initiation toy_noise I2 toy_dst toy_stamper (from_secs 6) [4] =
        Some (Ok m', I3) ∧
      @verify_packet toy_noise r (Some (IpV4 1)) m' 64 (from_secs 6) =
        Some (Ok (PHandshakeInit p'), counted r).
Proof.
  intros r.
  assert (H1 : @keyed toy_noise toy_initiator [1] [2])
    by (split; [reflexivity|vm_compute; split; congruence]).
  assert (H2 : limit r ≤ count r) by (vm_compute; discriminate).
  assert (H3 : same_secrets r r) by done.
  split; [exact H1|]. split; [exact H2|]. split; [exact H3|].
  destruct (@cookie_exchange toy_noise toy_noise_laws toy_initiator r r [1] [2] [3] [4] toy_dst
    toy_stamp (default [] (stamp toy_stamper (from_secs 6))) (IpV4 1) 64 toy_stamper
    (from_secs 1) (from_secs 6) 0 (from_secs 6) H1) as (m & I1 & Hf & Hc);
    [reflexivity|reflexivity|vm_compute; reflexivity|vm_compute; reflexivity|vm_compute; reflexivity|
     vm_compute; reflexivity|vm_compute; lia|vm_compute; lia|exact H2|exact H3|vm_compute; reflexivity|].
  exists m, I1. split; [exact Hf|].
  assert (H4 : @mac2_ok toy_noise r (Some (IpV4 1)) 0 m = false).
  { assert (Some (Ok m, I1) = Some (toy_sent.1, toy_sent.2)) as E
      by (rewrite <- Hf; vm_compute; reflexivity).
    injection E as Em _. revert Em. vm_compute. by intros [= ->]. }
  split; [exact H4|]. exact (Hc H4).
Defined.
