(* ===== verification/Timers.v ===== *)
(** * The timers of a tunnel: the [Timers] of [tendrilix/src/noise/timers.rs]

    The clock readings a tunnel remembers, relative to its start, and the flags
    that go with them. What the tunnel does with them is in [Tunn]. *)

From S2P Require Import Prelude.

Definition N_SESSIONS : Z := 3.

Definition REKEY_AFTER_TIME : Z := from_secs 120.
Definition REJECT_AFTER_TIME : Z := from_secs 180.
Definition REKEY_ATTEMPT_TIME : Z := from_secs 90.
Definition REKEY_TIMEOUT : Z := from_secs 5.
Definition KEEPALIVE_TIMEOUT : Z := from_secs 10.
Definition COOKIE_EXPIRATION_TIME : Z := from_secs 120.

(** [Top] is the length of the array and is never an index. *)
Inductive timer_name : Type :=
  | TimeCurrent
  | TimeSessionEstablished
  | TimeLastHandshakeStarted
  | TimeLastPacketReceived
  | TimeLastPacketSent
  | TimeLastDataPacketReceived
  | TimeLastDataPacketSent
  | TimeCookieReceived
  | TimePersistentKeepalive
  | Top.

#[global] Instance timer_name_eq_dec : EqDecision timer_name.
Proof. solve_decision. Defined.

(** [timer_name as usize] *)
Definition timer_index (n : timer_name) : nat :=
  match n with
  | TimeCurrent => 0
  | TimeSessionEstablished => 1
  | TimeLastHandshakeStarted => 2
  | TimeLastPacketReceived => 3
  | TimeLastPacketSent => 4
  | TimeLastDataPacketReceived => 5
  | TimeLastDataPacketSent => 6
  | TimeCookieReceived => 7
  | TimePersistentKeepalive => 8
  | Top => 9
  end.

Record timers := Timers {
  is_initiator : bool;
  time_started : Z;
  times : list Z;
  session_timers : list Z;
  want_keepalive : bool;
  want_handshake : bool;
  send_initial_keepalive : bool;
  persistent_keepalive : Z
}.

(** [self.timers[name]], for the names that index the array. *)
Definition time_of (t : timers) (n : timer_name) : Z := nth (timer_index n) (times t) 0.
Definition session_time (t : timers) (i : Z) : Z := nth (Z.to_nat i) (session_timers t) 0.

Definition set_time (n : timer_name) (v : Z) (t : timers) : timers :=
  Timers (is_initiator t) (time_started t) (<[timer_index n := v]> (times t)) (session_timers t)
    (want_keepalive t) (want_handshake t) (send_initial_keepalive t) (persistent_keepalive t).
Definition set_session_time (i : Z) (v : Z) (t : timers) : timers :=
  Timers (is_initiator t) (time_started t) (times t) (<[Z.to_nat i := v]> (session_timers t))
    (want_keepalive t) (want_handshake t) (send_initial_keepalive t) (persistent_keepalive t).
Definition set_is_initiator (b : bool) (t : timers) : timers :=
  Timers b (time_started t) (times t) (session_timers t)
    (want_keepalive t) (want_handshake t) (send_initial_keepalive t) (persistent_keepalive t).
Definition set_wants (keepalive handshake initial : bool) (t : timers) : timers :=
  Timers (is_initiator t) (time_started t) (times t) (session_timers t)
    keepalive handshake initial (persistent_keepalive t).

(** [usize::from(persistent_keepalive.unwrap_or(0))] *)
Definition keepalive_secs (persistent_keepalive : option Z) : Z := default 0 persistent_keepalive.

Definition timers_new (keepalive : option Z) (now : Z) : timers :=
  let persistent_keepalive := keepalive_secs keepalive in
  Timers false now (replicate (timer_index Top) 0) (replicate (Z.to_nat N_SESSIONS) 0)
    false false (0 <? persistent_keepalive) persistent_keepalive.

Definition clear (t : timers) (now : Z) : timers :=
  let now := duration_since now (time_started t) in
  Timers (is_initiator t) (time_started t) (map (λ _, now) (times t)) (session_timers t)
    false false (0 <? persistent_keepalive t) (persistent_keepalive t).

(** [timer_tick], on the timers of the tunnel. *)
Definition timer_tick (name : timer_name) (t : timers) : timers :=
  let t :=
    match name with
    | TimeLastPacketReceived => set_wants true false (send_initial_keepalive t) t
    | TimeLastPacketSent => set_wants false true (send_initial_keepalive t) t
    | _ => t
    end in
  set_time name (time_of t TimeCurrent) t.

Definition timer_tick_session_established (is_initiator : bool) (session_idx : Z) (t : timers) : timers :=
  let t := timer_tick TimeSessionEstablished t in
  let t := set_session_time (session_idx mod N_SESSIONS) (time_of t TimeCurrent) t in
  set_is_initiator is_initiator t.

Definition persistent_keepalive_setting (t : timers) : option Z :=
  if 0 <? persistent_keepalive t then Some (persistent_keepalive t) else None.

Definition set_persistent_keepalive (keepalive : option Z) (t : timers) : timers :=
  let keepalive := keepalive_secs keepalive in
  Timers (is_initiator t) (time_started t) (times t) (session_timers t)
    (want_keepalive t) (want_handshake t) (0 <? keepalive) keepalive.

(** ** The invariant: no timer is ahead of the clock *)

Record wf_timers (t : timers) : Prop := {
  wf_times : length (times t) = timer_index Top;
  wf_session_timers : length (session_timers t) = Z.to_nat N_SESSIONS;
  wf_behind : Forall (λ x, 0 ≤ x ≤ time_of t TimeCurrent) (times t);
  wf_sessions_behind : Forall (λ x, 0 ≤ x ≤ time_of t TimeCurrent) (session_timers t);
  wf_keepalive : 0 ≤ persistent_keepalive t
}.

Lemma time_of_set_time t n n' v :
  length (times t) = timer_index Top → n ≠ Top →
  time_of (set_time n v t) n' = if decide (n = n') then v else time_of t n'.
Proof.
  intros Hl Hn. unfold time_of. simpl. rewrite !nth_lookup. case_decide as E.
  - subst n'. rewrite list_lookup_insert_eq; [done|]. rewrite Hl. destruct n; simpl; (done || lia).
  - rewrite list_lookup_insert_ne; [done|]. destruct n, n'; simpl; congruence.
Qed.

Lemma wf_times_le t n : wf_timers t → 0 ≤ time_of t n ≤ time_of t TimeCurrent.
Proof.
  intros [Hl _ Hb _ _]. unfold time_of at 1 2. rewrite nth_lookup.
  destruct (times t !! timer_index n) as [x|] eqn:Hx; simpl; [by eapply (Forall_lookup_1 _ _ _ _ Hb)|].
  destruct (times t) as [|y l] eqn:Ht; [done|]. apply Forall_cons in Hb as [Hy _]. lia.
Qed.

Lemma wf_session_le t i : wf_timers t → 0 ≤ session_time t i ≤ time_of t TimeCurrent.
Proof.
  intros Hwf. pose proof (wf_times_le t TimeCurrent Hwf). destruct Hwf as [_ _ _ Hb _].
  unfold session_time. rewrite nth_lookup.
  destruct (session_timers t !! Z.to_nat i) as [x|] eqn:Hx; simpl; [|lia].
  by eapply (Forall_lookup_1 _ _ _ _ Hb).
Qed.

Lemma wf_timers_new k now : 0 ≤ keepalive_secs k → wf_timers (timers_new k now).
Proof. intros. split; simpl; try done; repeat constructor; done. Qed.

Lemma wf_set_wants a b c t : wf_timers t → wf_timers (set_wants a b c t).
Proof. by intros [? ? ? ? ?]. Qed.

Lemma wf_set_is_initiator b t : wf_timers t → wf_timers (set_is_initiator b t).
Proof. by intros [? ? ? ? ?]. Qed.

Lemma wf_set_time n v t :
  n ≠ Top → n ≠ TimeCurrent → 0 ≤ v ≤ time_of t TimeCurrent → wf_timers t → wf_timers (set_time n v t).
Proof.
  intros Hn Hc Hv [Hl Hs Hb Hsb Hk].
  assert (time_of (set_time n v t) TimeCurrent = time_of t TimeCurrent) as E.
  { rewrite time_of_set_time by done. by rewrite decide_False. }
  split; rewrite ?E; simpl; try done; [by rewrite length_insert|by apply Forall_insert].
Qed.

(** Advancing the clock. *)
Lemma wf_set_current v t :
  time_of t TimeCurrent ≤ v → wf_timers t → wf_timers (set_time TimeCurrent v t).
Proof.
  intros Hv Hwf. pose proof (wf_times_le t TimeCurrent Hwf). destruct Hwf as [Hl Hs Hb Hsb Hk].
  assert (time_of (set_time TimeCurrent v t) TimeCurrent = v) as E
    by (rewrite time_of_set_time by done; by rewrite decide_True).
  split; rewrite ?E; simpl; try done.
  - by rewrite length_insert.
  - apply Forall_insert; [|lia]. eapply Forall_impl; [exact Hb|]. simpl. lia.
  - eapply Forall_impl; [exact Hsb|]. simpl. lia.
Qed.

Lemma wf_set_session_time i v t :
  0 ≤ v ≤ time_of t TimeCurrent → wf_timers t → wf_timers (set_session_time i v t).
Proof.
  intros Hv [Hl Hs Hb Hsb Hk]. split; simpl; try done; [by rewrite length_insert|].
  by apply Forall_insert.
Qed.

Lemma timer_tick_current n t :
  length (times t) = timer_index Top → n ≠ Top →
  time_of (timer_tick n t) TimeCurrent = time_of t TimeCurrent.
Proof.
  intros Hl Hn. unfold timer_tick.
  rewrite time_of_set_time by (by destruct n). by destruct n.
Qed.

Lemma wf_timer_tick n t : n ≠ Top → wf_timers t → wf_timers (timer_tick n t).
Proof.
  intros Hn Hwf. pose proof (wf_times_le t TimeCurrent Hwf) as Hc. unfold timer_tick.
  set (t' := match n with TimeLastPacketReceived => _ | TimeLastPacketSent => _ | _ => t end).
  assert (wf_timers t' ∧ time_of t' TimeCurrent = time_of t TimeCurrent) as [Hwf' Et].
  { unfold t'. destruct n; try done; by split; [apply wf_set_wants|]. }
  destruct (decide (n = TimeCurrent)) as [->|]; [by apply wf_set_current|].
  by apply wf_set_time; rewrite ?Et.
Qed.

Lemma wf_established b i t : wf_timers t → wf_timers (timer_tick_session_established b i t).
Proof.
  intros Hwf. apply wf_set_is_initiator, wf_set_session_time; [|by apply wf_timer_tick].
  apply wf_times_le. by apply wf_timer_tick.
Qed.

Lemma wf_clear t now :
  time_of t TimeCurrent ≤ duration_since now (time_started t) → wf_timers t → wf_timers (clear t now).
Proof.
  intros Hn [Hl Hs Hb Hsb Hk].
  assert (time_of (clear t now) TimeCurrent = duration_since now (time_started t)) as E.
  { unfold time_of. simpl. by destruct (times t). }
  assert (0 ≤ duration_since now (time_started t)) by (unfold duration_since; lia).
  split; rewrite ?E; simpl; try done.
  - by rewrite length_map.
  - apply Forall_map. apply Forall_true. intros. simpl. lia.
  - eapply Forall_impl; [exact Hsb|]. simpl. lia.
Qed.

Lemma wf_set_persistent_keepalive k t :
  0 ≤ keepalive_secs k → wf_timers t → wf_timers (set_persistent_keepalive k t).
Proof. by intros ? [? ? ? ? ?]. Qed.

Create HintDb timers discriminated.
#[export] Hint Resolve wf_timer_tick wf_established wf_set_wants wf_set_persistent_keepalive : timers.
#[export] Hint Extern 1 (_ ≠ Top) => discriminate : timers.
