(* ===== verification/Tunn.v ===== *)
(** * Tunnels: [tendrilix/src/noise/mod.rs] and [tendrilix/src/noise/timers.rs]

    A tunnel joins the handshake, a ring of three sessions, the queue of packets
    that wait for a session and the timers. One call reads the clock once: its
    readings are the argument [now]. Every outer option is a panic; the
    destination buffer is its bytes, and a result that borrows from it holds the
    bytes it returns. The estimate of packet loss is floating-point and is not
    modelled. *)

From S2P Require Import Prelude IpNet IpPacket Timestamper Wire Session PacketPool PacketQueue.
From S2P Require Import Handshake Timers.

Definition IPV4_MIN_HEADER_SIZE : nat := 20.
Definition IPV4_LEN_OFF : nat := 2.
Definition IPV4_IHL_MASK : Z := 0x0f.
Definition IPV6_MIN_HEADER_SIZE : nat := 40.
Definition IPV6_LEN_OFF : nat := 4.
Definition IP_LEN_SZ : nat := 2.

Record tunn := Tunn {
  stamper : time_stamper;
  hs : handshake;
  sessions : list (option session);
  current : Z;
  packets : queue;
  timers : Timers.timers;
  tx_bytes : Z;
  rx_bytes : Z;
  tx_packets : Z;
  rx_packets : Z
}.

(** Assignments to one field. *)
Definition set_hs (x : handshake) (t : tunn) : tunn :=
  Tunn (stamper t) x (sessions t) (current t) (packets t) (timers t)
    (tx_bytes t) (rx_bytes t) (tx_packets t) (rx_packets t).
Definition set_sessions (x : list (option session)) (t : tunn) : tunn :=
  Tunn (stamper t) (hs t) x (current t) (packets t) (timers t)
    (tx_bytes t) (rx_bytes t) (tx_packets t) (rx_packets t).
Definition set_current (x : Z) (t : tunn) : tunn :=
  Tunn (stamper t) (hs t) (sessions t) x (packets t) (timers t)
    (tx_bytes t) (rx_bytes t) (tx_packets t) (rx_packets t).
Definition set_packets (x : queue) (t : tunn) : tunn :=
  Tunn (stamper t) (hs t) (sessions t) (current t) x (timers t)
    (tx_bytes t) (rx_bytes t) (tx_packets t) (rx_packets t).
Definition on_timers (f : Timers.timers → Timers.timers) (t : tunn) : tunn :=
  Tunn (stamper t) (hs t) (sessions t) (current t) (packets t) (f (timers t))
    (tx_bytes t) (rx_bytes t) (tx_packets t) (rx_packets t).
(** The counters are [usize]; they are taken as 64 bits wide and wrap around, as
    in a build without overflow checks. *)
Definition USIZE_BITS : Z := 64.

Definition add_counts (txb rxb txp rxp : Z) (t : tunn) : tunn :=
  Tunn (stamper t) (hs t) (sessions t) (current t) (packets t) (timers t)
    (wrap USIZE_BITS (tx_bytes t + txb)) (wrap USIZE_BITS (rx_bytes t + rxb))
    (wrap USIZE_BITS (tx_packets t + txp)) (wrap USIZE_BITS (rx_packets t + rxp)).

Definition timer_tick (n : timer_name) (t : tunn) : tunn := on_timers (Timers.timer_tick n) t.

(** [self.sessions[index % N_SESSIONS]] *)
Definition slot (index : Z) : nat := Z.to_nat (index mod N_SESSIONS).
Definition session_at (t : tunn) (index : Z) : option session := mjoin (sessions t !! slot index).
Definition store_session (index : Z) (s : option session) (t : tunn) : tunn :=
  set_sessions (<[slot index := s]> (sessions t)) t.

Section tunn.
Context `{N : noise_crypto}.
Implicit Types (t : tunn).

Definition tunn_new (static_private peer_static_public : bytes) (keepalive : option Z) (index : Z)
    (stamper : time_stamper) (now : Z) : tunn :=
  let static_public := public_from static_private in
  Tunn stamper (handshake_new static_private static_public peer_static_public index)
    (replicate (Z.to_nat N_SESSIONS) None) 0 empty_queue (timers_new keepalive now) 0 0 0 0.

Definition timer_tick_session_established (is_initiator : bool) (session_idx : Z) t : tunn :=
  on_timers (Timers.timer_tick_session_established is_initiator session_idx) t.

Definition set_current_session (new_idx : Z) t : tunn :=
  let cur_idx := current t in
  if cur_idx =? new_idx then t
  else if negb (bool_decide (is_Some (session_at t cur_idx))) ||
      (session_time (timers t) (cur_idx mod N_SESSIONS) <=?
        session_time (timers t) (new_idx mod N_SESSIONS)) then set_current new_idx t
  else t.

Definition format_handshake_initiation t (dst : bytes) (force_resend : bool) (now : Z)
    (ephemeral : bytes) : option (tunn_result * tunn) :=
  if is_in_progress (hs t) && negb force_resend then Some (Done, t)
  else
    let t := if is_expired (hs t) then on_timers (λ x, clear x now) t else t in
    let starting_new_handshake := negb (is_in_progress (hs t)) in
    let! '(r, h) := Handshake.format_handshake_initiation (hs t) dst (stamper t) now ephemeral in
    let t := set_hs h t in
    match r with
    | Ok packet =>
        let t := if starting_new_handshake then timer_tick TimeLastHandshakeStarted t else t in
        let t := timer_tick TimeLastPacketSent t in
        Some (WriteToNetwork packet, add_counts 0 0 1 0 t)
    | Err e => Some (TunnErr e, t)
    end.

(** Encrypting with a session of the ring, in place. *)
Definition encrypt_current t (packet_type : Z) (src : bytes) (dst_len : nat)
    : option (option bytes * tunn) :=
  match session_at t (current t) with
  | None => Some (None, t)
  | Some s =>
      let! '(written, s) := format_packet_data_with_type s packet_type src dst_len in
      Some (written, store_session (current t) (Some s) t)
  end.

Definition encapsulate_with_type {P} `{packet_pool P} t (pool : P) (packet_type : Z)
    (src dst : bytes) (now : Z) (ephemeral : bytes) : option (tunn_result * tunn * P) :=
  let! '(written, t) := encrypt_current t packet_type src (length dst) in
  match written with
  | Some written =>
      let t := timer_tick TimeLastPacketSent t in
      let t := match src with [] => t | _ => timer_tick TimeLastDataPacketSent t end in
      Some (WriteToNetwork written, add_counts (Z.of_nat (length src)) 0 1 0 t, pool)
  | None =>
      let! '(q, pool) := queue_packet (packets t) packet_type src now pool in
      let! '(r, t) := format_handshake_initiation (set_packets q t) dst false now ephemeral in
      Some (r, t, pool)
  end.

Definition encapsulate {P} `{packet_pool P} t (pool : P) (src dst : bytes) (now : Z) (ephemeral : bytes) :=
  encapsulate_with_type t pool DATA src dst now ephemeral.

Definition encapsulate_relay {P} `{packet_pool P} t (pool : P) (src dst : bytes) (now : Z)
    (ephemeral : bytes) :=
  encapsulate_with_type t pool RELAY_DATA src dst now ephemeral.

Definition handle_handshake_init t (p : handshake_init) (dst : bytes) (ephemeral : bytes)
    : option (result tunn_result wireguard_error * tunn) :=
  let! '(r, h) := receive_handshake_initialization (hs t) p dst ephemeral in
  let t := set_hs h t in
  match r with
  | Err e => Some (Err e, t)
  | Ok (packet, session) =>
      let index := local_index session in
      let t := store_session index (Some session) t in
      let t := timer_tick TimeLastPacketReceived t in
      let t := timer_tick TimeLastPacketSent t in
      let t := add_counts 0 0 1 1 t in
      let t := timer_tick_session_established false index t in
      let t := set_current_session index t in
      Some (Ok (WriteToNetwork packet), t)
  end.

Definition handle_handshake_response t (p : handshake_response) (dst : bytes) (now : Z)
    : option (result tunn_result wireguard_error * tunn) :=
  let! '(r, h) := receive_handshake_response (hs t) p now in
  let t := set_hs h t in
  match r with
  | Err e => Some (Err e, t)
  | Ok session =>
      let! '(keepalive, session) := format_packet_data session [] (length dst) in
      let! keepalive := keepalive in
      let l_idx := local_index session in
      let index := l_idx mod N_SESSIONS in
      let t := store_session index (Some session) t in
      let t := timer_tick TimeLastPacketReceived t in
      let t := add_counts 0 0 1 1 t in
      let t := timer_tick_session_established true index t in
      let t := set_current_session l_idx t in
      Some (Ok (WriteToNetwork keepalive), t)
  end.

Definition handle_cookie_reply t (p : cookie_reply)
    : option (result tunn_result wireguard_error * tunn) :=
  let! '(r, h) := receive_cookie_reply (hs t) p in
  let t := set_hs h t in
  match r with
  | Err e => Some (Err e, t)
  | Ok _ =>
      let t := timer_tick TimeLastPacketReceived t in
      let t := add_counts 0 0 0 1 t in
      Some (Ok Done, timer_tick TimeCookieReceived t)
  end.

Definition decrypt_raw_data t (p : data) (dst : bytes)
    : option (result bytes wireguard_error * tunn) :=
  let r_idx := data_receiver_idx p in
  match session_at t r_idx with
  | None => Some (Err NoCurrentSession, t)
  | Some s =>
      let! '(r, s) := receive_packet_data s p (length dst) in
      let t := store_session r_idx (Some s) t in
      match r with
      | Err e => Some (Err e, t)
      | Ok plaintext =>
          let t := set_current_session r_idx t in
          let t := timer_tick TimeLastPacketReceived t in
          Some (Ok plaintext, add_counts 0 0 0 1 t)
      end
  end.

(** The length a decrypted IP packet declares; [None] is an invalid packet. *)
Definition computed_len (packet : bytes) : option (option nat) :=
  let! first := packet !! 0%nat in
  let version := Z.shiftr first 4 in
  if version =? 4 then
    if (length packet <? IPV4_MIN_HEADER_SIZE)%nat then Some None
    else
      let header_len := (Z.to_nat (Z.land first IPV4_IHL_MASK) * 4)%nat in
      if (header_len <? IPV4_MIN_HEADER_SIZE)%nat || (length packet <? header_len)%nat then Some None
      else
        let! len_bytes := get_range IPV4_LEN_OFF (IPV4_LEN_OFF + IP_LEN_SZ) packet in
        let total_len := Z.to_nat (from_be_bytes len_bytes) in
        if (total_len <? header_len)%nat then Some None else Some (Some total_len)
  else if version =? 6 then
    if (length packet <? IPV6_MIN_HEADER_SIZE)%nat then Some None
    else
      let! len_bytes := get_range IPV6_LEN_OFF (IPV6_LEN_OFF + IP_LEN_SZ) packet in
      Some (Some (Z.to_nat (from_be_bytes len_bytes) + IPV6_MIN_HEADER_SIZE)%nat)
  else Some None.

Definition validate_decapsulated_packet t (packet : bytes) : option (tunn_result * tunn) :=
  match packet with
  | [] => Some (Done, t)
  | _ =>
      let! src := src_address packet in
      match src with
      | None => Some (TunnErr InvalidPacket, t)
      | Some src_ip_address =>
          let! len := computed_len packet in
          match len with
          | None => Some (TunnErr InvalidPacket, t)
          | Some len =>
              if (length packet <? len)%nat then Some (TunnErr InvalidPacket, t)
              else
                let t := timer_tick TimeLastDataPacketReceived t in
                let t := add_counts 0 (Z.of_nat len) 0 0 t in
                match src_ip_address with
                | IpV4 addr => Some (WriteToInterfaceV4 (take len packet) addr, t)
                | IpV6 addr => Some (WriteToInterfaceV6 (take len packet) addr, t)
                end
          end
      end
  end.

Definition handle_data t (p : data) (dst : bytes) : option (result tunn_result wireguard_error * tunn) :=
  let! '(r, t) := decrypt_raw_data t p dst in
  match r with
  | Err e => Some (Err e, t)
  | Ok decapsulated_packet =>
      let! '(r, t) := validate_decapsulated_packet t decapsulated_packet in
      Some (Ok r, t)
  end.

Definition handle_verified_packet t (p : packet) (dst : bytes) (now : Z) (ephemeral : bytes)
    : option (tunn_result * tunn) :=
  let! '(r, t) :=
    match p with
    | PHandshakeInit p => handle_handshake_init t p dst ephemeral
    | PHandshakeResponse p => handle_handshake_response t p dst now
    | PCookieReply p => handle_cookie_reply t p
    | PData p => handle_data t p dst
    | PRelayData _ => Some (Err InvalidPacket, t)
    end in
  match r with
  | Ok r => Some (r, t)
  | Err e => Some (TunnErr e, t)
  end.

Definition handle_verified_relay_packet t (p : packet) (dst : bytes)
    : option (result bytes wireguard_error * tunn) :=
  match p with
  | PRelayData p => decrypt_raw_data t p dst
  | _ => Some (Err InvalidPacket, t)
  end.

Definition flush_queued_packet {P} `{packet_pool P} t (pool : P) (dst : bytes)
    : option (tunn_result * tunn * P) :=
  let! '(h, q, pool) := dequeue_packet (packets t) pool in
  let t := set_packets q t in
  match h with
  | None => Some (Done, t, pool)
  | Some h =>
      let! '(packet_type, data) := get pool h in
      let! '(written, t) := encrypt_current t packet_type data (length dst) in
      match written with
      | Some written =>
          let t := timer_tick TimeLastPacketSent t in
          let t := match data with [] => t | _ => timer_tick TimeLastDataPacketSent t end in
          let t := add_counts (Z.of_nat (length data)) 0 1 0 t in
          let! pool := free h pool in
          Some (WriteToNetwork written, t, pool)
      | None =>
          let! '(q, pool) := requeue_packet (packets t) h pool in
          Some (Done, set_packets q t, pool)
      end
  end.

Definition clear_all {P} `{packet_pool P} t (pool : P) (now : Z) : option (tunn * P) :=
  let! '(q, pool) := clear_packet_queue (packets t) pool in
  Some (on_timers (λ x, clear x now) (set_packets q t), pool).

(** One turn of the loop of [update_session_timers]. *)
Definition expire_session (time_now : Z) (t : tunn) (i : Z) : option tunn :=
  let! age := duration_sub time_now (session_time (timers t) i) in
  if REJECT_AFTER_TIME <? age then
    Some (on_timers (set_session_time i time_now) (store_session i None t))
  else Some t.

Definition update_session_timers t (time_now : Z) : option tunn :=
  foldl (λ (t : option tunn) i, let! t := t in expire_session time_now t i) (Some t)
    (seqZ 0 N_SESSIONS).

(** [b && now - t >= d]: the difference, which may panic, is only taken when
    [b] holds. *)
Definition and_elapsed (b : bool) (now t d : Z) : option bool :=
  if b then let! elapsed := duration_sub now t in Some (d <=? elapsed) else Some false.

(** The decisions of [update_timers] when no handshake is awaited: whether to
    start one, and whether to send a keepalive. *)
Definition idle_decision t (now : Z) : option (bool * bool * tunn) :=
  let tm := timers t in
  let session_established := time_of tm TimeSessionEstablished in
  let aut_packet_received := time_of tm TimeLastPacketReceived in
  let aut_packet_sent := time_of tm TimeLastPacketSent in
  let data_packet_received := time_of tm TimeLastDataPacketReceived in
  let data_packet_sent := time_of tm TimeLastDataPacketSent in
  let! rekey_on_send :=
    and_elapsed (is_initiator tm && (session_established <? data_packet_sent))
      now session_established REKEY_AFTER_TIME in
  let! rekey_on_receive :=
    and_elapsed (is_initiator tm && (session_established <? data_packet_received))
      now session_established (REJECT_AFTER_TIME - KEEPALIVE_TIMEOUT - REKEY_TIMEOUT) in
  let! unanswered :=
    and_elapsed (aut_packet_received <? data_packet_sent)
      now aut_packet_received (KEEPALIVE_TIMEOUT + REKEY_TIMEOUT) in
  let handshake_initiation_required :=
    rekey_on_send || rekey_on_receive || (unanswered && want_handshake tm) in
  let tm := if (unanswered : bool)
    then set_wants (want_keepalive tm) false (send_initial_keepalive tm) tm else tm in
  if handshake_initiation_required then Some (true, false, on_timers (λ _, tm) t)
  else
    let! idle :=
      and_elapsed (aut_packet_sent <? data_packet_received) now aut_packet_sent KEEPALIVE_TIMEOUT in
    let keepalive_required := idle && want_keepalive tm in
    let tm := if (idle : bool)
      then set_wants false (want_handshake tm) (send_initial_keepalive tm) tm else tm in
    if 0 <? persistent_keepalive tm then
      let initial := send_initial_keepalive tm in
      let tm := set_wants (want_keepalive tm) (want_handshake tm) false tm in
      let! elapsed :=
        and_elapsed (negb initial) now (time_of tm TimePersistentKeepalive)
          (from_secs (persistent_keepalive tm)) in
      let t := on_timers (λ _, tm) t in
      if initial || elapsed then Some (false, true, timer_tick TimePersistentKeepalive t)
      else Some (false, keepalive_required, t)
    else Some (false, keepalive_required, on_timers (λ _, tm) t).

Definition update_timers {P} `{packet_pool P} t (pool : P) (dst : bytes) (time : Z)
    (ephemeral : bytes) : option (tunn_result * tunn * P) :=
  let now := duration_since time (time_started (timers t)) in
  let t := on_timers (set_time TimeCurrent now) t in
  let! t := update_session_timers t now in
  if is_expired (hs t) then Some (TunnErr ConnectionExpired, t, pool)
  else
    let! cookie_expired :=
      and_elapsed (has_cookie (hs t)) now (time_of (timers t) TimeCookieReceived)
        COOKIE_EXPIRATION_TIME in
    let t := if (cookie_expired : bool) then set_hs (clear_cookie (hs t)) t else t in
    let! since_established := duration_sub now (time_of (timers t) TimeSessionEstablished) in
    if REJECT_AFTER_TIME * 3 <=? since_established then
      let! '(t, pool) := clear_all (set_hs (set_expired (hs t)) t) pool time in
      Some (TunnErr ConnectionExpired, t, pool)
    else
      match timer (hs t) with
      | Some time_init_sent =>
          let! since_started := duration_sub now (time_of (timers t) TimeLastHandshakeStarted) in
          if REKEY_ATTEMPT_TIME <=? since_started then
            let! '(t, pool) := clear_all (set_hs (set_expired (hs t)) t) pool time in
            Some (TunnErr ConnectionExpired, t, pool)
          else if REKEY_TIMEOUT <=? duration_since time time_init_sent then
            let! '(r, t) := format_handshake_initiation t dst true time ephemeral in
            Some (r, t, pool)
          else Some (Done, t, pool)
      | None =>
          let! '(handshake_initiation_required, keepalive_required, t) := idle_decision t now in
          if (handshake_initiation_required : bool) then
            let! '(r, t) := format_handshake_initiation t dst true time ephemeral in
            Some (r, t, pool)
          else if (keepalive_required : bool) then encapsulate t pool [] dst time ephemeral
          else Some (Done, t, pool)
      end.

Definition time_since_last_handshake t (now : Z) : option (option Z) :=
  if bool_decide (is_Some (session_at t (current t))) then
    let! d := duration_sub (duration_since now (time_started (timers t)))
      (time_of (timers t) TimeSessionEstablished) in
    Some (Some d)
  else Some None.
End tunn.

(** ** The decrypted packet *)

(** What the tunnel hands to the interface. *)
Definition to_interface (packet : bytes) (src : ip_addr) : tunn_result :=
  match src with
  | IpV4 addr => WriteToInterfaceV4 packet addr
  | IpV6 addr => WriteToInterfaceV6 packet addr
  end.

(** An IP packet as long as its header declares. *)
Definition ip_packet (packet : bytes) (src : ip_addr) : Prop :=
  computed_len packet = Some (Some (length packet)) ∧ src_address packet = Some (Some src).

(** The same from the header formats of RFC 791 and RFC 8200, without reading
    anything: the header is followed by what its length field says, which for
    IPv4 counts the header, and for IPv6 the payload. *)
Inductive ip_datagram : bytes → ip_addr → Prop :=
  | DatagramV4 ihl tos len fields src dst rest :
      5 ≤ ihl < 16 → length tos = 1%nat → length fields = 8%nat →
      in_width 16 len → in_width 32 src →
      let p := ipv4_packet ihl (tos ++ to_be_bytes 2 len ++ fields) src dst rest in
      4 * ihl ≤ len → len = Z.of_nat (length p) → ip_datagram p (IpV4 src)
  | DatagramV6 low class len fields src dst payload :
      0 ≤ low < 16 → length class = 3%nat → length fields = 2%nat →
      in_width 16 len → in_width 128 src → len = Z.of_nat (length payload) →
      ip_datagram (ipv6_packet low (class ++ to_be_bytes 2 len ++ fields) src dst payload) (IpV6 src).

Lemma get_range_prefix a b l l' :
  (b ≤ length l)%nat → get_range a b (l ++ l') = get_range a b l.
Proof.
  intros Hb. unfold get_range, slice. rewrite length_app.
  destruct (decide (a ≤ b ≤ length l)%nat) as [[H1 H2]|].
  - rewrite decide_True by lia. f_equal.
    rewrite drop_app_le by lia. rewrite take_app_le; [done|]. rewrite length_drop. lia.
  - by rewrite decide_False by lia.
Qed.

(** The declared length only reads the header. *)
Lemma computed_len_prefix l l' n :
  computed_len l = Some (Some n) → computed_len (l ++ l') = Some (Some n).
Proof.
  unfold computed_len. destruct l as [|x l]; [done|]. cbn [app lookup list_lookup mbind option_bind].
  set (m := x :: l). change (x :: l ++ l') with (m ++ l').
  unfold IPV4_MIN_HEADER_SIZE, IPV6_MIN_HEADER_SIZE, IPV4_LEN_OFF, IPV6_LEN_OFF, IP_LEN_SZ.
  rewrite !length_app. destruct (Z.shiftr x 4 =? 4).
  - destruct (Nat.ltb_spec (length m) 20); [done|].
    rewrite (proj2 (Nat.ltb_ge (length m + _) 20)) by lia.
    set (hl := (Z.to_nat _ * 4)%nat). destruct (Nat.ltb_spec hl 20); [done|]. cbn [orb].
    destruct (Nat.ltb_spec (length m) hl); [done|].
    rewrite (proj2 (Nat.ltb_ge (length m + _) hl)) by lia.
    by rewrite get_range_prefix by lia.
  - destruct (Z.shiftr x 4 =? 6); [|done].
    destruct (Nat.ltb_spec (length m) 40); [done|].
    rewrite (proj2 (Nat.ltb_ge (length m + _) 40)) by lia.
    by rewrite get_range_prefix by lia.
Qed.

(** [computed_len] never panics on a packet that is not empty, and the length
    covers the header. *)
Lemma computed_len_total packet :
  packet ≠ [] → ∃ r, computed_len packet = Some r ∧
    match r with
    | Some n => (20 ≤ n)%nat ∧ (20 ≤ length packet)%nat
    | None => True
    end.
Proof.
  destruct packet as [|x l]; [done|]. intros _. unfold computed_len. cbn [lookup list_lookup mbind option_bind].
  set (m := x :: l).
  unfold IPV4_MIN_HEADER_SIZE, IPV6_MIN_HEADER_SIZE, IPV4_LEN_OFF, IPV6_LEN_OFF, IP_LEN_SZ.
  destruct (Z.shiftr x 4 =? 4).
  - destruct (Nat.ltb_spec (length m) 20); [by eexists|].
    set (hl := (Z.to_nat _ * 4)%nat). destruct (Nat.ltb_spec hl 20); [by eexists|]. cbn [orb].
    destruct (Nat.ltb_spec (length m) hl); [by eexists|].
    rewrite get_range_Some by lia. cbn [mbind option_bind].
    destruct (Nat.ltb_spec (Z.to_nat (from_be_bytes (slice 2 (2 + 2) m))) hl); [by eexists|].
    eexists. split; [done|]. split; lia.
  - destruct (Z.shiftr x 4 =? 6); [|by eexists].
    destruct (Nat.ltb_spec (length m) 40); [by eexists|].
    rewrite get_range_Some by lia. cbn [mbind option_bind]. eexists. split; [done|]. split; lia.
Qed.

Lemma src_address_prefix l l' a :
  src_address l = Some (Some a) → src_address (l ++ l') = Some (Some a).
Proof.
  unfold src_address, address_at. destruct l as [|x l]; [done|].
  rewrite decide_False by done. rewrite decide_False by done. cbn [app lookup list_lookup mbind option_bind].
  set (m := x :: l). change (x :: l ++ l') with (m ++ l').
  unfold valid_ipv4_header_len, IpPacket.IPV4_MIN_HEADER_SIZE, IpPacket.IPV6_MIN_HEADER_SIZE,
    IPV4_SRC_IP_OFF, IPV6_SRC_IP_OFF, IPV4_IP_SZ, IPV6_IP_SZ.
  change ((m ++ l') !! 0%nat) with (m !! 0%nat). change (m !! 0%nat) with (Some x).
  cbn [mbind option_bind]. rewrite !length_app. set (hl := (Z.to_nat _ * 4)%nat).
  destruct (Nat.ltb_spec (length m) 20) as [|H20].
  - cbn [mbind option_bind]. rewrite bool_decide_eq_false_2 by (by intros [? ?]).
    rewrite andb_false_r. destruct (_ && (40 <=? length m)%nat) eqn:E; [|done].
    apply andb_true_iff in E as [_ E%Nat.leb_le]. lia.
  - rewrite (proj2 (Nat.ltb_ge (length m + _) 20)) by lia.
    destruct (Nat.ltb_spec hl 20); cbn [orb mbind option_bind].
    + rewrite (bool_decide_eq_false_2 (is_Some None)) by (by intros [? ?]).
      rewrite andb_false_r. destruct (Z.shiftr x 4 =? 6); [|done]. cbn [andb].
      destruct (Nat.leb_spec 40 (length m)); [|done].
      rewrite (proj2 (Nat.leb_le 40 (length m + _))) by lia. by rewrite get_range_prefix by lia.
    + destruct (Z.eqb_spec (Z.shiftr x 4) 4) as [E4|E4].
      * rewrite E4. cbn [andb].
        destruct (Nat.ltb_spec (length m) hl); cbn [mbind option_bind].
        { by rewrite (bool_decide_eq_false_2 (is_Some None)) by (by intros [? ?]). }
        rewrite (proj2 (Nat.ltb_ge (length m + _) hl)) by lia. cbn [mbind option_bind].
        rewrite !bool_decide_eq_true_2 by (by eexists). by rewrite get_range_prefix by lia.
      * destruct (length m <? hl)%nat, (length m + length l' <? hl)%nat; cbn [mbind option_bind andb];
          (destruct (Z.shiftr x 4 =? 6); [|done]); cbn [andb];
          (destruct (Nat.leb_spec 40 (length m)); [|done]);
          rewrite (proj2 (Nat.leb_le 40 (length m + _))) by lia; by rewrite get_range_prefix by lia.
Qed.

(** A packet that is as long as it declares, with what follows it cut off. *)
Lemma computed_len_cut l l' :
  computed_len (l ++ l') = Some (Some (length l)) → computed_len l = Some (Some (length l)).
Proof.
  intros Hc. assert (l ++ l' ≠ []) as Hne by (by destruct (l ++ l')).
  destruct (computed_len_total _ Hne) as (r & Hr & Hn). rewrite Hc in Hr. injection Hr as <-.
  destruct l as [|x l]; [simpl in Hn; lia|]. revert Hc. unfold computed_len.
  cbn [app lookup list_lookup mbind option_bind]. set (m := x :: l) in *. change (x :: l ++ l') with (m ++ l').
  unfold IPV4_MIN_HEADER_SIZE, IPV6_MIN_HEADER_SIZE, IPV4_LEN_OFF, IPV6_LEN_OFF, IP_LEN_SZ.
  rewrite (get_range_prefix 2) by lia. rewrite (proj2 (Nat.ltb_ge (length (m ++ l')) 20)) by (rewrite length_app; lia).
  destruct (Z.shiftr x 4 =? 4).
  - rewrite (proj2 (Nat.ltb_ge (length m) 20)) by lia. set (hl := (Z.to_nat _ * 4)%nat).
    destruct (Nat.ltb_spec hl 20); [done|]. cbn [orb]. destruct (_ <? hl)%nat; [done|].
    rewrite get_range_Some by lia. cbn [mbind option_bind].
    destruct (Nat.ltb_spec (Z.to_nat (from_be_bytes (slice 2 (2 + 2) m))) hl); [done|].
    intros E%(inj Some)%(inj Some). rewrite E in *. by rewrite (proj2 (Nat.ltb_ge (length m) hl)) by lia.
  - destruct (Z.shiftr x 4 =? 6); [|done]. destruct (length (m ++ l') <? 40)%nat; [done|].
    destruct (Nat.ltb_spec (length m) 40) as [Hlt|].
    { destruct (get_range 4 _ (m ++ l')); cbn [mbind option_bind]; [|done].
      intros E%(inj Some)%(inj Some). lia. }
    by rewrite get_range_prefix by lia.
Qed.

(** A declared length implies a readable source. *)
Lemma computed_len_src packet n :
  computed_len packet = Some (Some n) → ∃ a, src_address packet = Some (Some a).
Proof.
  unfold computed_len, src_address, address_at. destruct packet as [|x l]; [done|].
  rewrite decide_False by done. cbn [lookup list_lookup mbind option_bind]. set (m := x :: l).
  unfold valid_ipv4_header_len, IpPacket.IPV4_MIN_HEADER_SIZE, IpPacket.IPV6_MIN_HEADER_SIZE,
    IPV4_MIN_HEADER_SIZE, IPV6_MIN_HEADER_SIZE, IPV4_SRC_IP_OFF, IPV6_SRC_IP_OFF, IPV4_IP_SZ, IPV6_IP_SZ,
    IPV4_IHL_MASK, IpPacket.IPV4_IHL_MASK.
  change (m !! 0%nat) with (Some x). cbn [mbind option_bind]. destruct (Z.eqb_spec (Z.shiftr x 4) 4) as [->|_].
  - destruct (Nat.ltb_spec (length m) 20); [done|]. set (b := (_ || _)%bool). destruct b; [done|]. intros _.
    cbn [mbind option_bind andb]. rewrite bool_decide_eq_true_2 by by eexists.
    rewrite get_range_Some by lia. by eexists.
  - destruct (Z.shiftr x 4 =? 6); [|done]. destruct (Nat.ltb_spec (length m) 40); [done|]. intros _.
    assert (∃ r, (if (length m <? 20)%nat then Some None else
      if ((Z.to_nat (Z.land x 15) * 4 <? 20)%nat || (length m <? Z.to_nat (Z.land x 15) * 4)%nat)%bool then Some None
      else Some (Some (Z.to_nat (Z.land x 15) * 4)%nat)) = Some r) as [r ->] by (repeat case_match; by eexists).
    cbn [mbind option_bind andb]. rewrite (proj2 (Nat.leb_le 40 _)) by lia. rewrite get_range_Some by lia. by eexists.
Qed.

(** The first byte of a header: version and low nibble. *)
Lemma first_byte x v : 0 ≤ x < 256 → Z.shiftr x 4 = v → x = Z.lor (Z.shiftl v 4) (Z.land x 15) ∧ 0 ≤ Z.land x 15 < 16.
Proof.
  intros Hx <-. change 15 with (Z.ones 4). split.
  - bit_ext i Hi. destruct (decide (i < 4)).
    + rewrite Z.ones_spec_low, (Z.testbit_neg_r _ (i - 4)) by lia. by rewrite andb_true_r.
    + rewrite Z.ones_spec_high, Z.shiftr_spec by lia. rewrite andb_false_r, orb_false_r. f_equal. lia.
  - rewrite Z.land_ones by lia. by apply Z.mod_pos_bound.
Qed.

Lemma validate_spec (t : tunn) (packet : bytes) :
  is_bytes packet →
  ∃ r t', validate_decapsulated_packet t packet = Some (r, t') ∧
  (r = Done ∧ packet = [] ∧ t' = t ∨
   r = TunnErr InvalidPacket ∧ packet ≠ [] ∧ t' = t ∧
     (∀ a n, src_address packet = Some (Some a) → computed_len packet = Some (Some n) →
       (length packet < n)%nat) ∨
   ∃ a n, r = to_interface (take n packet) a ∧ (20 ≤ n ≤ length packet)%nat ∧
     src_address packet = Some (Some a) ∧ computed_len packet = Some (Some n) ∧
     t' = add_counts 0 (Z.of_nat n) 0 0 (timer_tick TimeLastDataPacketReceived t)) ∧
  (∀ p a pad, packet = p ++ pad → ip_packet p a → r = to_interface p a).
Proof.
  intros Hb. unfold validate_decapsulated_packet.
  destruct (decide (packet = [])) as [->|Hne].
  { exists Done, t. split; [done|]. split; [by left|].
    intros p a pad Heq [Hp _]. symmetry in Heq. apply app_eq_nil in Heq as [-> _]. discriminate Hp. }
  assert (∀ A (x y : A), match packet with [] => x | _ :: _ => y end = y) as Hm by by destruct packet.
  rewrite Hm. destruct (address_at_total IPV4_SRC_IP_OFF IPV6_SRC_IP_OFF packet) as (src & Hsrc & _);
    [unfold IPV4_SRC_IP_OFF, IpPacket.IPV4_MIN_HEADER_SIZE, IPV4_IP_SZ; lia|
     unfold IPV6_SRC_IP_OFF, IpPacket.IPV6_MIN_HEADER_SIZE, IPV6_IP_SZ; lia|done|].
  destruct (computed_len_total packet Hne) as (len & Hlen & Hn).
  assert (∀ p a pad, packet = p ++ pad → ip_packet p a →
    src = Some a ∧ len = Some (length p) ∧ take (length p) packet = p) as Hpad.
  { intros p a pad -> [H1 H2]. apply (computed_len_prefix _ pad) in H1. apply (src_address_prefix _ pad) in H2.
    unfold src_address in H2. rewrite Hsrc in H2. rewrite Hlen in H1. simplify_eq.
    by rewrite take_app_length. }
  unfold src_address in *. rewrite Hsrc. cbn [mbind option_bind]. destruct src as [a|].
  2: { eexists _, t. split; [done|]. split; [right; left; by split_and!|].
       intros p a pad Heq Hp. by destruct (Hpad p a pad Heq Hp). }
  rewrite Hlen. cbn [mbind option_bind]. destruct len as [n|].
  2: { eexists _, t. split; [done|]. split; [right; left; by split_and!|].
       intros p a' pad Heq Hp. by destruct (Hpad p a' pad Heq Hp) as (_ & ? & _). }
  destruct (Nat.ltb_spec (length packet) n) as [Hlt|Hge].
  { eexists _, t. split; [done|]. split; [right; left; split_and!; try done; intros; by simplify_eq|].
    intros p a' pad Heq Hp. destruct (Hpad p a' pad Heq Hp) as (_ & [= ->] & _).
    rewrite Heq, length_app in Hlt. lia. }
  assert (∃ t', t' = add_counts 0 (Z.of_nat n) 0 0 (timer_tick TimeLastDataPacketReceived t)) as [t' Ht]
    by by eexists.
  exists (to_interface (take n packet) a), t'. split; [subst t'; by destruct a|]. split.
  - right; right. exists a, n. split_and!; (done || lia).
  - intros p a' pad Heq Hp. destruct (Hpad p a' pad Heq Hp) as ([= ->] & [= ->] & ->). done.
Qed.

(** ** Datagrams *)

Lemma ip_datagram_packet p a : ip_datagram p a → ip_packet p a.
Proof.
  intros [ihl tos len fields src dst rest Hihl Ht Hf Hl Hs q Hmin Hlen|
    low class len fields src dst payload Hlow Hc Hf Hl Hs Hlen].
  - assert (length (tos ++ to_be_bytes 2 len ++ fields) = 11%nat) as Hfs
      by (rewrite !length_app, length_to_be_bytes; lia).
    assert (length q = 20 + length rest)%nat as Hq by (unfold q; rewrite length_ipv4_packet; lia).
    split; [|unfold src_address; eapply address_at_ipv4; [done|done|lia|done|]].
    2: { eexists (_ :: tos ++ to_be_bytes 2 len ++ fields). split; [done|]. cbn [length]. by rewrite Hfs. }
    unfold computed_len. change (q !! 0%nat) with (Some (Z.lor (4 * 16) ihl)). cbn [mbind option_bind].
    destruct (version_nibble 4 ihl) as [-> E]; [lia..|]. change (4 =? 4) with true.
    unfold IPV4_IHL_MASK, IPV4_MIN_HEADER_SIZE, IPV4_LEN_OFF, IP_LEN_SZ. rewrite E.
    rewrite !(proj2 (Nat.ltb_ge _ _)) by lia. cbn [orb].
    replace (get_range 2 (2 + 2) q) with (Some (to_be_bytes 2 len)).
    + cbn [mbind option_bind]. rewrite from_to_be_bytes by done. rewrite (proj2 (Nat.ltb_ge _ _)) by lia.
      do 2 f_equal. lia.
    + symmetry. unfold q, ipv4_packet. rewrite <- !app_assoc, app_assoc.
      apply get_range_field; rewrite length_app, ?length_to_be_bytes; simpl; lia.
  - assert (length (class ++ to_be_bytes 2 len ++ fields) = 7%nat) as Hfs
      by (rewrite !length_app, length_to_be_bytes; lia).
    split; [|unfold src_address; eapply address_at_ipv6; [done|done|done|]].
    2: { eexists (_ :: class ++ to_be_bytes 2 len ++ fields). split; [done|]. cbn [length]. by rewrite Hfs. }
    set (q := ipv6_packet _ _ _ _ _).
    assert (length q = 40 + length payload)%nat as Hq
      by (unfold q, ipv6_packet; rewrite !length_app, !length_to_be_bytes; simpl; lia).
    unfold computed_len. change (q !! 0%nat) with (Some (Z.lor (6 * 16) low)). cbn [mbind option_bind].
    destruct (version_nibble 6 low) as [-> _]; [lia..|]. change (6 =? 4) with false. change (6 =? 6) with true.
    unfold IPV6_MIN_HEADER_SIZE, IPV6_LEN_OFF, IP_LEN_SZ. rewrite (proj2 (Nat.ltb_ge _ _)) by lia.
    replace (get_range 4 (4 + 2) q) with (Some (to_be_bytes 2 len)).
    + cbn [mbind option_bind]. rewrite from_to_be_bytes by done. do 2 f_equal. lia.
    + symmetry. unfold q, ipv6_packet. rewrite <- !app_assoc, app_assoc.
      apply get_range_field; rewrite length_app, ?length_to_be_bytes; simpl; lia.
Qed.

(** Bytes that declare their own length have the layout of a datagram. *)
Lemma ip_packet_datagram p a : is_bytes p → ip_packet p a → ip_datagram p a.
Proof.
  intros Hb [Hc Hs]. destruct p as [|x l] eqn:Hp; [done|]. rewrite <- Hp in *.
  assert (p !! 0%nat = Some x) as Hx by by rewrite Hp.
  assert (0 ≤ x < 256) as Hx256 by (eapply (Forall_lookup_1 _ p 0%nat x Hb Hx)).
  assert (p = [x] ++ drop 1 p) as Hcut by by rewrite Hp.
  unfold computed_len, src_address, address_at, valid_ipv4_header_len in *. rewrite decide_False in Hs by congruence.
  rewrite Hx in *. cbn [mbind option_bind] in *.
  unfold IPV4_IHL_MASK, IPV4_MIN_HEADER_SIZE, IPV6_MIN_HEADER_SIZE, IPV4_LEN_OFF, IPV6_LEN_OFF, IP_LEN_SZ,
    IpPacket.IPV4_IHL_MASK, IpPacket.IPV4_MIN_HEADER_SIZE, IpPacket.IPV6_MIN_HEADER_SIZE, IPV4_SRC_IP_OFF,
    IPV6_SRC_IP_OFF, IPV4_IP_SZ, IPV6_IP_SZ in *.
  change (2 + 2)%nat with 4%nat in *. change (4 + 2)%nat with 6%nat in *. change (8 + 16)%nat with 24%nat in *.
  change (12 + 4)%nat with 16%nat in *. pose proof (λ i j, slice_is_bytes i j p Hb) as Hsl.
  assert (∀ k i j, j = (i + k)%nat → (j ≤ length p)%nat →
    to_be_bytes k (from_be_bytes (slice i j p)) = slice i j p ∧
    in_width (8 * Z.of_nat k) (from_be_bytes (slice i j p))) as Hfield.
  { intros k i j -> Hij. replace k with (length (slice i (i + k) p)) at 1 4 by (rewrite length_slice; lia).
    split; [by apply to_from_be_bytes|by apply from_be_bytes_bound]. }
  destruct (Z.eqb_spec (Z.shiftr x 4) 4) as [E4|E4].
  - destruct (Nat.ltb_spec (length p) 20); [done|]. set (b := (_ || _)%bool) in Hc.
    destruct b eqn:Hb'; [done|]. unfold b in Hb'.
    apply orb_false_iff in Hb' as [H20%Nat.ltb_ge Hhl%Nat.ltb_ge].
    rewrite !(proj2 (Nat.ltb_ge _ _)) in Hs by lia. cbn [orb mbind option_bind andb] in Hs.
    rewrite bool_decide_eq_true_2 in Hs by by eexists.
    rewrite get_range_Some in Hs, Hc by lia. cbn [mbind option_bind] in Hs, Hc.
    destruct (Nat.ltb_spec (Z.to_nat (from_be_bytes (slice 2 4 p))) (Z.to_nat (Z.land x 15) * 4)); [done|].
    apply (inj Some), (inj Some) in Hs, Hc. subst a.
    destruct (first_byte x 4 Hx256 E4) as [Hfx Hlow].
    destruct (Hfield 2%nat 2%nat 4%nat) as [F1 Hw]; [lia..|].
    destruct (Hfield 4%nat 12%nat 16%nat) as [F2 Hs]; [lia..|]. destruct (Hfield 4%nat 16%nat 20%nat) as [F3 _]; [lia..|].
    assert (p = ipv4_packet (Z.land x 15) (slice 1 2 p ++ to_be_bytes 2 (from_be_bytes (slice 2 4 p)) ++ slice 4 12 p)
      (from_be_bytes (slice 12 16 p)) (from_be_bytes (slice 16 20 p)) (drop 20 p)) as Hlay.
    { unfold ipv4_packet. rewrite F1, F2, F3.
      rewrite Hcut at 1. f_equal; [by rewrite Hfx at 1|].
      by rewrite (drop_slice 1 2), (drop_slice 2 4), (drop_slice 4 12), (drop_slice 12 16), (drop_slice 16 20),
        <- !app_assoc by lia. }
    rewrite Hlay at 1. apply DatagramV4.
    + lia.
    + by rewrite length_slice by lia.
    + by rewrite length_slice by lia.
    + exact Hw.
    + exact Hs.
    + destruct Hw. lia.
    + rewrite <- Hlay. destruct Hw. lia.
  - destruct (Z.eqb_spec (Z.shiftr x 4) 6) as [E6|]; [|done].
    destruct (Nat.ltb_spec (length p) 40); [done|].
    destruct (if (length p <? 20)%nat then Some None else _) as [r|]; [|done]. cbn [mbind option_bind andb] in Hs.
    rewrite (proj2 (Nat.leb_le 40 _)) in Hs by lia.
    rewrite get_range_Some in Hs, Hc by lia. cbn [mbind option_bind] in Hs, Hc.
    apply (inj Some), (inj Some) in Hs, Hc. subst a.
    destruct (first_byte x 6 Hx256 E6) as [Hfx Hlow].
    destruct (Hfield 2%nat 4%nat 6%nat) as [F1 Hw]; [lia..|].
    destruct (Hfield 16%nat 8%nat 24%nat) as [F2 Hs]; [lia..|]. destruct (Hfield 16%nat 24%nat 40%nat) as [F3 _]; [lia..|].
    assert (p = ipv6_packet (Z.land x 15) (slice 1 4 p ++ to_be_bytes 2 (from_be_bytes (slice 4 6 p)) ++ slice 6 8 p)
      (from_be_bytes (slice 8 24 p)) (from_be_bytes (slice 24 40 p)) (drop 40 p)) as Hlay.
    { unfold ipv6_packet. rewrite F1, F2, F3.
      rewrite Hcut at 1. f_equal; [by rewrite Hfx at 1|].
      by rewrite (drop_slice 1 4), (drop_slice 4 6), (drop_slice 6 8), (drop_slice 8 24), (drop_slice 24 40),
        <- !app_assoc by lia. }
    rewrite Hlay at 1. apply DatagramV6.
    + lia.
    + by rewrite length_slice by lia.
    + by rewrite length_slice by lia.
    + exact Hw.
    + exact Hs.
    + rewrite length_drop. destruct Hw. cbn [Nat.add] in Hc. lia.
Qed.

Lemma to_interface_inj p a p' a' : to_interface p a = to_interface p' a' → p = p' ∧ a = a'.
Proof. destruct a, a'; simpl; by intros [= -> ->]. Qed.

(** C28: what a tunnel hands to the interface is an IP packet, whatever was
    decrypted. The check never panics; it accepts exactly what begins with an
    IPv4 or IPv6 datagram (a header of its format whose length field counts the
    datagram to the byte), hands on that datagram with its source, without the
    padding, and counts it; anything else that is not a keepalive is refused,
    and changes nothing. *)
Theorem validate_decapsulated_exact (t : tunn) (packet : bytes) :
  is_bytes packet →
  ∃ r t', validate_decapsulated_packet t packet = Some (r, t') ∧
  (∀ p a, r = to_interface p a ↔ ∃ pad, packet = p ++ pad ∧ ip_datagram p a) ∧
  (∀ p a, r = to_interface p a →
    t' = add_counts 0 (Z.of_nat (length p)) 0 0 (timer_tick TimeLastDataPacketReceived t)) ∧
  (packet = [] → r = Done ∧ t' = t) ∧
  (packet ≠ [] → (∀ p a, r ≠ to_interface p a) → r = TunnErr InvalidPacket ∧ t' = t).
Proof.
  intros Hb. destruct (validate_spec t packet Hb) as (r & t' & E & Hr & Hpad). exists r, t'. split; [done|].
  assert (∀ p a, (∃ pad, packet = p ++ pad ∧ ip_datagram p a) → r = to_interface p a) as Hacc.
  { intros p a (pad & Hp & Hd). eapply Hpad; [exact Hp|]. by apply ip_datagram_packet. }
  destruct Hr as [(-> & -> & ->)|[(-> & Hne & -> & _)|(a & n & -> & Hn & Hsrc & Hlen & ->)]].
  - split; [|by split_and!; [intros ? []|..]]. intros p a. split; [by destruct a|apply Hacc].
  - split; [|by split_and!; [intros ? []|..]]. intros p a. split; [by destruct a|apply Hacc].
  - assert (length (take n packet) = n) as Hl by (rewrite length_take; lia). split_and!.
    + intros p a'. split; [|apply Hacc]. intros [<- <-]%to_interface_inj. exists (drop n packet).
      split; [by rewrite take_drop|]. rewrite <- Hl in Hlen. rewrite <- (take_drop n packet) in Hb, Hsrc.
      rewrite <- (take_drop n packet) in Hlen at 1. apply Forall_app in Hb as [Hb _]. pose proof (computed_len_cut _ _ Hlen) as Hc.
      apply ip_packet_datagram; [done|]. split; [done|].
      destruct (computed_len_src _ _ Hc) as [a' Ha']. rewrite Ha'. apply (src_address_prefix _ (drop n packet)) in Ha'.
      congruence.
    + intros p a' [<- <-]%to_interface_inj. by rewrite Hl.
    + intros ->. simpl in Hn. lia.
    + intros _ Hno. by destruct (Hno (take n packet) a).
Qed.

Lemma validate_decapsulated_exact_witness :
  let t := @tunn_new toy_noise [1] (@public_from toy_noise [2]) None 5 toy_stamper 0 in
  let p := ipv4_packet 6 ([0] ++ to_be_bytes 2 26 ++ [0; 0; 0; 0; 64; 17; 0; 0]) 0x0a000001 0x0a000002 [1; 1; 1; 0; 7; 8] in
  is_bytes (p ++ repeat 0 6) ∧
  ∃ r t', validate_decapsulated_packet t (p ++ repeat 0 6) = Some (r, t') ∧ r = WriteToInterfaceV4 p 0x0a000001.
Proof.
  intros t p.
  assert (H : is_bytes (p ++ repeat 0 6)) by (apply (bool_decide_unpack _); vm_compute; exact I).
  split; [exact H|].
  destruct (validate_decapsulated_exact t (p ++ repeat 0 6) H) as (r & t' & Hv & Hp & _).
  exists r, t'. split; [exact Hv|]. apply (Hp p (IpV4 0x0a000001)). exists (repeat 0 6). split; [reflexivity|].
  apply DatagramV4; try reflexivity; try (split; [discriminate|reflexivity]). vm_compute. discriminate.
Defined.

(** ** The invariant of a tunnel *)

Record wf_tunn (t : tunn) : Prop := {
  wf_sessions : length (sessions t) = Z.to_nat N_SESSIONS;
  wf_tunn_timers : wf_timers (timers t);
  wf_index : in_width 32 (next_local_index (hs t));
  wf_public : length (static_public (params (hs t))) = 32%nat
}.

Lemma slot_lt i : (slot i < Z.to_nat N_SESSIONS)%nat.
Proof. unfold slot. pose proof (Z.mod_pos_bound i N_SESSIONS ltac:(done)). lia. Qed.

Lemma session_at_store i s t j :
  length (sessions t) = Z.to_nat N_SESSIONS →
  session_at (store_session i s t) j = if decide (slot i = slot j) then s else session_at t j.
Proof.
  intros Hl. unfold session_at, store_session. simpl. pose proof (slot_lt i).
  case_decide as E.
  - rewrite <- E, list_lookup_insert_eq by lia. done.
  - by rewrite list_lookup_insert_ne.
Qed.

Lemma wf_store_session i s t : wf_tunn t → wf_tunn (store_session i s t).
Proof. intros [? ? ? ?]. split; simpl; try done. by rewrite length_insert. Qed.

Lemma wf_on_timers f t : (∀ x, wf_timers x → wf_timers (f x)) → wf_tunn t → wf_tunn (on_timers f t).
Proof. intros Hf [? ? ? ?]. split; simpl; try done. by apply Hf. Qed.

Lemma wf_tick n t : n ≠ Top → wf_tunn t → wf_tunn (timer_tick n t).
Proof. intros. apply wf_on_timers; [|done]. intros. by apply Timers.wf_timer_tick. Qed.

Lemma wf_add_counts a b c d t : wf_tunn t → wf_tunn (add_counts a b c d t).
Proof. by intros [? ? ? ?]. Qed.

Lemma wf_set_packets q t : wf_tunn t → wf_tunn (set_packets q t).
Proof. by intros [? ? ? ?]. Qed.

Lemma wf_set_current_index i t : wf_tunn t → wf_tunn (set_current i t).
Proof. by intros [? ? ? ?]. Qed.

Lemma wf_set_current_session i t : wf_tunn t → wf_tunn (set_current_session i t).
Proof. intros. unfold set_current_session. repeat case_match; auto using wf_set_current_index. Qed.

Lemma wf_tick_established b i t : wf_tunn t → wf_tunn (timer_tick_session_established b i t).
Proof. intros. apply wf_on_timers; [|done]. intros. by apply wf_established. Qed.

Create HintDb tunnel discriminated.
#[export] Hint Resolve wf_store_session wf_tick wf_add_counts wf_set_packets wf_set_current_session
  wf_tick_established : tunnel.
#[export] Hint Extern 1 (_ ≠ Top) => discriminate : tunnel.

(** ** The session timers in closed form *)

Definition session_expired (now x : Z) : bool := REJECT_AFTER_TIME <? now - x.

Definition expire_sessions (now : Z) (t : tunn) : tunn :=
  let tm := timers t in
  Tunn (stamper t) (hs t)
    (zip_with (λ s x, if session_expired now x then None else s) (sessions t) (session_timers tm))
    (current t) (packets t)
    (Timers (is_initiator tm) (time_started tm) (times tm)
      (map (λ x, if session_expired now x then now else x) (session_timers tm))
      (want_keepalive tm) (want_handshake tm) (send_initial_keepalive tm) (persistent_keepalive tm))
    (tx_bytes t) (rx_bytes t) (tx_packets t) (rx_packets t).

#[local] Arguments Z.leb : simpl never.
#[local] Arguments Z.ltb : simpl never.
#[local] Arguments Z.sub : simpl never.

Lemma update_session_timers_eq t now :
  wf_tunn t → time_of (timers t) TimeCurrent ≤ now →
  update_session_timers t now = Some (expire_sessions now t).
Proof.
  intros [Hl [Ht Hst _ Hb _] _ _] Hnow. unfold update_session_timers.
  change (seqZ 0 N_SESSIONS) with [0; 1; 2].
  destruct t as [st h ss cur q tm a b c d]. destruct tm as [ini start tms sts wk wh sk pk].
  simpl in *. change (Z.to_nat N_SESSIONS) with 3%nat in *.
  destruct ss as [|s0 [|s1 [|s2 [|]]]]; try done. destruct sts as [|x0 [|x1 [|x2 [|]]]]; try done.
  apply Forall_cons in Hb as [H0 Hb]. apply Forall_cons in Hb as [H1 Hb].
  apply Forall_cons in Hb as [H2 _].
  unfold expire_session, duration_sub, session_expired, session_time, store_session, slot, set_session_time.
  change (0 mod N_SESSIONS) with 0. change (1 mod N_SESSIONS) with 1. change (2 mod N_SESSIONS) with 2.
  change (Z.to_nat 0) with 0%nat. change (Z.to_nat 1) with 1%nat. change (Z.to_nat 2) with 2%nat.
  unfold expire_sessions, session_expired. cbn [sessions session_timers timers zip_with map].
  assert (∀ x, 0 ≤ x ≤ time_of {| is_initiator := ini; time_started := start; times := tms;
      session_timers := [x0; x1; x2]; want_keepalive := wk; want_handshake := wh;
      send_initial_keepalive := sk; persistent_keepalive := pk |} TimeCurrent → (x <=? now) = true) as Hle
    by (intros; apply Z.leb_le; lia).
  cbn. rewrite (Hle x0 H0). cbn.
  destruct (REJECT_AFTER_TIME <? now - x0); cbn; rewrite (Hle x1 H1); cbn;
    destruct (REJECT_AFTER_TIME <? now - x1); cbn; rewrite (Hle x2 H2); cbn;
    destruct (REJECT_AFTER_TIME <? now - x2); done.
Qed.

Lemma wf_expire_sessions now t :
  wf_tunn t → time_of (timers t) TimeCurrent = now → wf_tunn (expire_sessions now t).
Proof.
  intros [Hl Htm ? ?] Hnow. pose proof (wf_times_le (timers t) TimeCurrent Htm).
  destruct Htm as [Ht Hst Hb Hsb Hk]. split; simpl; try done.
  - rewrite length_zip_with, Hl, Hst. done.
  - split; [exact Ht|simpl; by rewrite length_map|exact Hb| |exact Hk].
    change (Forall (λ x, 0 ≤ x ≤ time_of (timers t) TimeCurrent)
      (map (λ x, if session_expired now x then now else x) (session_timers (timers t)))).
    apply Forall_map. eapply Forall_impl; [exact Hsb|]. intros x Hx. simpl. case_match; [lia|done].
Qed.

(** No session outlives [REJECT_AFTER_TIME]. *)
Definition sessions_fresh (now : Z) (t : tunn) : Prop :=
  ∀ i, is_Some (session_at t i) → now - session_time (timers t) (i mod N_SESSIONS) ≤ REJECT_AFTER_TIME.

Lemma expire_sessions_fresh now t :
  wf_tunn t → sessions_fresh now (expire_sessions now t).
Proof.
  intros [Hl [_ Hst _ _ _] _ _] i. unfold session_at, session_time. fold (slot i). simpl.
  rewrite nth_lookup. rewrite lookup_zip_with, list_lookup_fmap.
  destruct (lookup_lt_is_Some_2 (sessions t) (slot i)) as [s Hs]; [rewrite Hl; apply slot_lt|].
  destruct (lookup_lt_is_Some_2 (session_timers (timers t)) (slot i)) as [x Hx]; [rewrite Hst; apply slot_lt|].
  rewrite Hs, Hx. simpl. unfold session_expired.
  destruct (Z.ltb_spec REJECT_AFTER_TIME (now - x)); [by intros [? ?]|done].
Qed.

(** ** Nothing panics *)

(** The clock runs on, and the timestamp of the moment can be encoded. *)
Record moment (t : tunn) (time : Z) : Prop := {
  moment_later : time_of (timers t) TimeCurrent ≤ duration_since time (time_started (timers t));
  moment_stamp : is_Some (stamp (stamper t) time)
}.

(** No session appears, none receives, and the session timers stay. *)
Record same_sessions (t t' : tunn) : Prop := {
  same_present i s' : session_at t' i = Some s' →
    ∃ s, session_at t i = Some s ∧ receiving_key_counter s' = receiving_key_counter s;
  same_session_timers : session_timers (timers t') = session_timers (timers t)
}.

Lemma same_sessions_of t t' :
  sessions t' = sessions t → session_timers (timers t') = session_timers (timers t) → same_sessions t t'.
Proof. intros Hs Ht. split; [|done]. intros i s'. unfold session_at. rewrite Hs. by exists s'. Qed.

Lemma same_sessions_refl t : same_sessions t t.
Proof. by apply same_sessions_of. Qed.

Lemma same_sessions_trans t1 t2 t3 : same_sessions t1 t2 → same_sessions t2 t3 → same_sessions t1 t3.
Proof.
  intros [H1 H2] [H3 H4]. split; [|congruence]. intros i s3 (s2 & Hs2 & E)%H3.
  destruct (H1 i s2 Hs2) as (s1 & Hs1 & E'). exists s1. split; [done|congruence].
Qed.

Lemma sessions_fresh_same now t t' : same_sessions t t' → sessions_fresh now t → sessions_fresh now t'.
Proof.
  intros [Hp Ht] Hf i [s' Hi]. unfold session_time. rewrite Ht. apply Hf.
  destruct (Hp i s' Hi) as (s & -> & _). by eexists.
Qed.

Lemma stamp_length ts now b : stamp ts now = Some b → length b = 12%nat.
Proof.
  unfold stamp, checked_add. do 2 (case_decide; cbn [mbind option_bind]; [|done]).
  intros Hb%(inj Some). by rewrite <- Hb, length_app, !length_to_be_bytes.
Qed.

(** The clock after a call made at [time]. *)
Record same_clock (time : Z) (t t' : tunn) : Prop := {
  same_started : time_started (timers t') = time_started (timers t);
  same_now : time_of (timers t') TimeCurrent = time_of (timers t) TimeCurrent ∨
    time_of (timers t') TimeCurrent = duration_since time (time_started (timers t));
  same_stamper : stamper t' = stamper t;
  same_keepalive : persistent_keepalive (timers t') = persistent_keepalive (timers t)
}.

Lemma same_clock_refl time t : same_clock time t t.
Proof. split; auto. Qed.

Lemma same_clock_trans time t1 t2 t3 :
  same_clock time t1 t2 → same_clock time t2 t3 → same_clock time t1 t3.
Proof.
  intros [Hs1 Hn1 ? ?] [Hs2 Hn2 ? ?]. rewrite Hs1 in *. split; [congruence| |congruence..].
  destruct Hn2 as [->| ->]; auto.
Qed.

Lemma moment_clock time t t' : moment t time → same_clock time t t' → moment t' time.
Proof.
  intros [Hl Hs] [E1 E2 E3 _]. split; rewrite ?E1, ?E3; [|done]. destruct E2 as [->| ->]; lia.
Qed.

(** What the parts of a call leave alone. *)
Record quiet (time : Z) (t t' : tunn) : Prop := {
  quiet_wf : wf_tunn t';
  quiet_sessions : same_sessions t t';
  quiet_clock : same_clock time t t'
}.

Lemma quiet_refl time t : wf_tunn t → quiet time t t.
Proof. split; auto using same_sessions_refl, same_clock_refl. Qed.

Lemma quiet_trans time t1 t2 t3 : quiet time t1 t2 → quiet time t2 t3 → quiet time t1 t3.
Proof. intros [] []. split; eauto using same_sessions_trans, same_clock_trans. Qed.

Lemma quiet_tick time n t : n ≠ Top → wf_tunn t → quiet time t (timer_tick n t).
Proof.
  intros Hn Hwf. split; [by apply wf_tick|..]; destruct Hwf as [_ [Ht _ _ _ _] _ _].
  - apply same_sessions_of; [done|]. simpl. unfold Timers.timer_tick. by destruct n.
  - split; [simpl; unfold Timers.timer_tick; by destruct n| |done|simpl; unfold Timers.timer_tick; by destruct n].
    left. by apply timer_tick_current.
Qed.

Lemma quiet_set_hs time h t :
  in_width 32 (next_local_index h) → params h = params (hs t) → wf_tunn t → quiet time t (set_hs h t).
Proof.
  intros Hw Hp [? ? ? ?]. split; [|by apply same_sessions_of|split; auto].
  split; simpl; try done. by rewrite Hp.
Qed.

Lemma quiet_add_counts time a b c d t : wf_tunn t → quiet time t (add_counts a b c d t).
Proof. intros. split; [by apply wf_add_counts|by apply same_sessions_of|split; auto]. Qed.

Lemma quiet_set_packets time q t : wf_tunn t → quiet time t (set_packets q t).
Proof. intros. split; [by apply wf_set_packets|by apply same_sessions_of|split; auto]. Qed.

(** Replacing the timers by ones with the same clock and session timers. *)
Lemma quiet_timers time (tm : Timers.timers) t :
  wf_timers tm → session_timers tm = session_timers (timers t) →
  time_started tm = time_started (timers t) → time_of tm TimeCurrent = time_of (timers t) TimeCurrent →
  persistent_keepalive tm = persistent_keepalive (timers t) → wf_tunn t → quiet time t (on_timers (λ _, tm) t).
Proof. intros Hwf Hs E1 E2 E3 [? ? ? ?]. split; [by split|by apply same_sessions_of|split; auto]. Qed.

Lemma quiet_clear time t : moment t time → wf_tunn t → quiet time t (on_timers (λ x, clear x time) t).
Proof.
  intros [Hl _] Hwf. pose proof Hwf as [? Htm ? ?]. split; [|by apply same_sessions_of|].
  - split; simpl; try done. by apply wf_clear.
  - split; [done| |done..]. right. destruct Htm as [Ht _ _ _ _]. unfold time_of. simpl.
    by destruct (times (timers t)).
Qed.

Lemma quiet_store_session time i s s' t :
  session_at t i = Some s → receiving_key_counter s' = receiving_key_counter s → wf_tunn t →
  quiet time t (store_session i (Some s') t).
Proof.
  intros Hs Hr Hwf. split; [by apply wf_store_session| |split; auto]. split; [|done].
  intros j x. rewrite session_at_store by apply Hwf. case_decide as E; [|by exists x].
  intros [= <-]. exists s. split; [|done]. unfold session_at in *. by rewrite <- E.
Qed.

Section safe.
Context `{L : noise_laws}.

Lemma format_initiation_safe (h : handshake) dst ts now e :
  in_width 32 (next_local_index h) → length (static_public (params h)) = 32%nat →
  is_Some (stamp ts now) →
  ∃ r h', Handshake.format_handshake_initiation h dst ts now e = Some (r, h') ∧
    in_width 32 (next_local_index h') ∧ params h' = params h ∧
    match r with
    | Ok m => (∃ s, hs_state h' = InitSent s ∧ time_sent s = now) ∧
        (HANDSHAKE_INIT_SZ ≤ length dst)%nat ∧ length m = HANDSHAKE_INIT_SZ
    | Err er => er = DestinationBufferTooSmall ∧ h' = h ∧ (length dst < HANDSHAKE_INIT_SZ)%nat
    end.
Proof.
  intros Hw Hp [b Hb]. destruct (decide (length dst < HANDSHAKE_INIT_SZ)%nat) as [Hlt|Hge].
  { exists (Err DestinationBufferTooSmall), h. unfold Handshake.format_handshake_initiation.
    by rewrite (proj2 (Nat.ltb_lt _ _)) by done. }
  assert (HANDSHAKE_INIT_SZ ≤ length dst)%nat as Hd by lia.
  pose proof (format_initiation_spec h dst ts now e b Hd Hp Hb (stamp_length _ _ _ Hb)) as Hf.
  cbv zeta in Hf. destruct (init_transcript _ _ _ _ _ _) as [[[es et] hash] ck].
  destruct Hf as (msg & Henc & Hlen & ->). eexists _, _. split; [done|].
  split; [by apply (allocate_width h)|]. split; [done|]. split; [by eexists|]. split; [done|].
  by rewrite Henc, length_app, Hlen, length_macs.
Qed.

Lemma tunn_format_initiation_safe (t : tunn) dst force time e :
  wf_tunn t → moment t time → (HANDSHAKE_INIT_SZ ≤ length dst)%nat →
  ∃ r t', format_handshake_initiation t dst force time e = Some (r, t') ∧ quiet time t t' ∧
    packets t' = packets t ∧ is_in_progress (hs t') = true ∧
    (r = Done ∧ t' = t ∧ force = false ∨ ∃ m, r = WriteToNetwork m ∧ length m = HANDSHAKE_INIT_SZ).
Proof.
  intros Hwf Hm Hd. unfold format_handshake_initiation.
  destruct (is_in_progress (hs t) && negb force) eqn:Hp.
  { apply andb_true_iff in Hp as [Hp Hf%negb_true_iff]. exists Done, t.
    split_and!; auto using quiet_refl. }
  set (t1 := if is_expired (hs t) then on_timers (λ x, clear x time) t else t).
  assert (quiet time t t1 ∧ hs t1 = hs t ∧ packets t1 = packets t) as (Hq1 & Hh1 & Hp1).
  { unfold t1. destruct (is_expired (hs t)); [|by auto using quiet_refl].
    split; [by apply quiet_clear|done]. }
  pose proof (quiet_wf _ _ _ Hq1) as Hwf1. pose proof (moment_clock _ _ _ Hm (quiet_clock _ _ _ Hq1)) as [_ Hst].
  destruct (format_initiation_safe (hs t1) dst (stamper t1) time e) as (r & h' & Hf & Hw & Hpar & Hr);
    [apply Hwf1|apply Hwf1|done|].
  rewrite Hf. cbn [mbind option_bind]. pose proof (quiet_set_hs time h' t1 Hw Hpar Hwf1) as Hq2.
  destruct r as [m|er]; [|destruct Hr as (_ & _ & Hr); lia]. destruct Hr as ((s & Hs & _) & _ & Hlen).
  set (t2 := set_hs h' t1) in *.
  set (t3 := if negb (is_in_progress (hs t1)) then timer_tick TimeLastHandshakeStarted t2 else t2).
  assert (quiet time t2 t3 ∧ hs t3 = h' ∧ packets t3 = packets t) as (Hq3 & Hh3 & Hp3).
  { unfold t3. pose proof (quiet_wf _ _ _ Hq2).
    destruct (negb (is_in_progress (hs t1))); (split; [by (apply quiet_tick || apply quiet_refl)|done]). }
  pose proof (quiet_wf _ _ _ Hq3) as Hwf3.
  pose proof (quiet_tick time TimeLastPacketSent t3 ltac:(done) Hwf3) as Hq4.
  pose proof (quiet_add_counts time 0 0 1 0 _ (quiet_wf _ _ _ Hq4)) as Hq5.
  eexists _, _. split; [done|]. split; [eauto using quiet_trans|]. split; [done|].
  split; [|right; by exists m]. unfold is_in_progress. simpl. by rewrite Hh3, Hs.
Qed.

(** Encrypting with the current session. *)
Lemma encrypt_current_safe (t : tunn) time ty src n :
  wf_tunn t → (DATA_OFFSET + padded_len src + AEAD_SIZE ≤ n)%nat →
  ∃ w t', encrypt_current t ty src n = Some (w, t') ∧ quiet time t t' ∧
    packets t' = packets t ∧ hs t' = hs t ∧
    ∀ m, w = Some m → length m = (DATA_OFFSET + padded_len src + AEAD_SIZE)%nat.
Proof.
  intros Hwf Hn. unfold encrypt_current. destruct (session_at t (current t)) as [s|] eqn:Hs.
  - rewrite format_spec by done. cbn [mbind option_bind].
    destruct (_ <=? _); eexists _, _; (split; [done|]);
      (split; [by eapply quiet_store_session|]); (split; [done|]); (split; [done|]); [done|].
    intros m <-%(inj Some).
    rewrite !length_app, !length_to_le_bytes, aead_length, aead_tag_length.
    rewrite length_app, repeat_length. pose proof (padded_len_ge src). unfold DATA_OFFSET, AEAD_SIZE. lia.
  - eexists None, t. split; [done|]. split; [by apply quiet_refl|done].
Qed.
End safe.

(** ** The decisions of the timers *)

Lemma and_elapsed_Some b now t d :
  t ≤ now → and_elapsed b now t d = Some (b && (d <=? now - t)).
Proof.
  intros Ht. unfold and_elapsed, duration_sub. destruct b; [|done].
  by rewrite (proj2 (Z.leb_le _ _)) by done.
Qed.

(** Timers that differ from those of [t] in their wants only. *)
Lemma quiet_wants time a b c t :
  wf_tunn t → quiet time t (on_timers (λ _, set_wants a b c (timers t)) t).
Proof. intros Hwf. apply quiet_timers; try done. by apply wf_set_wants, Hwf. Qed.

Lemma idle_decision_safe t time now :
  wf_tunn t → time_of (timers t) TimeCurrent ≤ now →
  ∃ init keep t', idle_decision t now = Some (init, keep, t') ∧ quiet time t t' ∧
    packets t' = packets t ∧ hs t' = hs t.
Proof.
  intros Hwf Hnow. pose proof (wf_tunn_timers t Hwf) as Htm.
  assert (∀ n, time_of (timers t) n ≤ now) as Hle.
  { intros n. pose proof (wf_times_le _ n Htm). lia. }
  unfold idle_decision. rewrite !and_elapsed_Some by apply Hle. cbn [mbind option_bind].
  set (tm1 := if (_ && _ : bool) then set_wants _ _ _ _ else timers t).
  assert (∃ a b c, tm1 = set_wants a b c (timers t)) as (a1 & b1 & c1 & E1).
  { unfold tm1. case_match; [by eexists _, _, _|].
    exists (want_keepalive (timers t)), (want_handshake (timers t)), (send_initial_keepalive (timers t)).
    by destruct (timers t). }
  rewrite E1. clear tm1 E1.
  match goal with |- context [if ?b then Some (true, _, _) else _] => destruct b end;
    [eexists _, _, _; split; [done|]; split; [by apply quiet_wants|done]|].
  cbn [mbind option_bind]. set (tm2 := if (_ && _ : bool) then set_wants _ _ _ _ else set_wants a1 b1 c1 (timers t)).
  assert (∃ a b c, tm2 = set_wants a b c (timers t)) as (a2 & b2 & c2 & E2).
  { unfold tm2. case_match; by eexists _, _, _. }
  rewrite E2. clear tm2 E2.
  destruct (0 <? persistent_keepalive _); [|eexists _, _, _; split; [done|]; split; [by apply quiet_wants|done]].
  rewrite and_elapsed_Some by (apply (Hle TimePersistentKeepalive)). cbn [mbind option_bind].
  case_match; eexists _, _, _; (split; [done|]); (split; [|done]); [|by apply quiet_wants].
  pose proof (quiet_wants time a2 b2 false t Hwf) as Hq.
  eapply quiet_trans; [exact Hq|]. apply quiet_tick; [done|]. apply Hq.
Qed.

Lemma quiet_set_now time t :
  wf_tunn t → moment t time →
  let now := duration_since time (time_started (timers t)) in
  quiet time t (on_timers (set_time TimeCurrent now) t) ∧
  time_of (timers (on_timers (set_time TimeCurrent now) t)) TimeCurrent = now.
Proof.
  intros Hwf [Hl _] now.
  assert (time_of (timers (on_timers (set_time TimeCurrent now) t)) TimeCurrent = now) as E.
  { simpl. rewrite time_of_set_time by (done || apply Hwf). by rewrite decide_True. }
  split; [|done]. split.
  - pose proof Hwf as [? ? ? ?]. split; simpl; try done. by apply Timers.wf_set_current.
  - by apply same_sessions_of.
  - split; [done|by right|done..].
Qed.

(** Expiring sessions removes some and restarts their timers. *)
Lemma expire_sessions_clock time now t : same_clock time t (expire_sessions now t).
Proof. split; auto. Qed.

Section update.
Context {P : Type} `{packet_pool_laws P} `{L : noise_laws}.

(** The size of a message that carries [src], or of the initiation sent
    instead. *)
Definition message_size (src : bytes) : nat :=
  Nat.max HANDSHAKE_INIT_SZ (DATA_OFFSET + padded_len src + AEAD_SIZE).

(** What a call does to the pool: the queue holds what it held, perhaps with
    [msg] added, and the packets of other tunnels are left alone. *)
Record pool_step (pool : P) (hdls : list handle) (msg : bytes) (q' : queue) (pool' : P)
    (hdls' : list handle) : Prop := {
  step_pool : pool_inv pool';
  step_linked : linked (live pool') q' hdls';
  step_frame : ∀ h x, h ∉ hdls → live pool !! h = Some x → (h ∉ hdls') ∧ live pool' !! h = Some x;
  step_payloads : ∀ x, x ∈ payloads (live pool') hdls' → x ∈ payloads (live pool) hdls ∨ x.2 = msg
}.

Lemma pool_step_refl pool hdls msg q :
  pool_inv pool → linked (live pool) q hdls → pool_step pool hdls msg q pool hdls.
Proof. intros. split; auto. Qed.

Lemma queue_step q pool hdls ty d now :
  pool_inv pool → linked (live pool) q hdls →
  ∃ q' pool' hdls', queue_packet q ty d now pool = Some (q', pool') ∧ pool_step pool hdls d q' pool' hdls'.
Proof.
  intros Hinv Hlk. destruct (queue_packet_spec q pool hdls ty d now Hinv Hlk)
    as (q' & pool' & hdls' & Hq & Hinv' & Hlk' & Hfr & Hpay).
  exists q', pool', hdls'. split; [done|]. split; try done. intros x.
  destruct (MAX_PACKET_SIZE <? length d)%nat.
  - rewrite Hpay. by left.
  - destruct Hpay as (n & q1 & pool1 & _ & [[_ ->]|[_ ->]]); [rewrite elem_of_app, list_elem_of_singleton|];
      rewrite list_elem_of_filter; [|by intros [_ ?]; left].
    intros [[_ ?]| ->]; [by left|by right].
Qed.

Lemma clear_step q pool hdls msg :
  pool_inv pool → linked (live pool) q hdls →
  ∃ pool', clear_packet_queue q pool = Some (empty_queue, pool') ∧
    pool_step pool hdls msg empty_queue pool' [].
Proof.
  intros Hinv Hlk. destruct (clear_spec q pool hdls Hinv Hlk) as (pool' & Hcl & Hinv' & Hfr & _).
  exists pool'. split; [done|]. split; [done|apply linked_empty| |by intros x ?%not_elem_of_nil].
  intros h x Hh Hx. split; [apply not_elem_of_nil|]. by rewrite (Hfr h Hh).
Qed.

(** An outcome of [encapsulate] or [update_timers] that keeps every promise. *)
Record stepped (time : Z) (t : tunn) (pool : P) (hdls : list handle) (msg : bytes)
    (r : tunn_result) (t' : tunn) (pool' : P) (hdls' : list handle) : Prop := {
  stepped_quiet : quiet time t t';
  stepped_pool : pool_step pool hdls msg (packets t') pool' hdls';
  stepped_result :
    r = Done ∨ (∃ m, r = WriteToNetwork m ∧ (length m ≤ message_size msg)%nat) ∨
    r = TunnErr ConnectionExpired ∧ is_expired (hs t') = true
}.

Lemma stepped_from time t t0 pool hdls msg r t' pool' hdls' :
  quiet time t t0 → stepped time t0 pool hdls msg r t' pool' hdls' →
  stepped time t pool hdls msg r t' pool' hdls'.
Proof. intros Hq []. split; try done. by eapply quiet_trans. Qed.

(** The connection expires. *)
Lemma expire_safe time t pool hdls :
  wf_tunn t → moment t time → pool_inv pool → linked (live pool) (packets t) hdls →
  ∃ t' pool', clear_all (set_hs (set_expired (hs t)) t) pool time = Some (t', pool') ∧
    stepped time t pool hdls [] (TunnErr ConnectionExpired) t' pool' [] ∧ packets t' = empty_queue.
Proof.
  intros Hwf Hm Hinv Hlk. unfold clear_all.
  destruct (clear_step (packets t) pool hdls [] Hinv Hlk) as (pool' & Hcl & Hst).
  simpl packets. rewrite Hcl. cbn [mbind option_bind]. eexists _, pool'. split; [done|].
  set (t1 := set_packets empty_queue (set_hs (set_expired (hs t)) t)).
  assert (quiet time t t1) as Hq1.
  { eapply quiet_trans; [apply quiet_set_hs|apply quiet_set_packets]; try done; try apply Hwf.
    by apply (quiet_set_hs time); try apply Hwf. }
  split; [|done]. split; [|exact Hst|by right; right].
  eapply quiet_trans; [exact Hq1|]. apply quiet_clear; [|apply Hq1]. by eapply moment_clock; [|apply Hq1].
Qed.

(** Sending a packet with the current session, or starting a handshake when
    there is none. *)
Lemma encapsulate_safe time t pool hdls ty src dst e :
  wf_tunn t → moment t time → (message_size src ≤ length dst)%nat →
  pool_inv pool → linked (live pool) (packets t) hdls →
  ∃ r t' pool' hdls', encapsulate_with_type t pool ty src dst time e = Some (r, t', pool') ∧
    stepped time t pool hdls src r t' pool' hdls' ∧ (r = Done ∨ ∃ m, r = WriteToNetwork m).
Proof.
  intros Hwf Hm Hd Hinv Hlk. unfold message_size in Hd.
  unfold encapsulate_with_type.
  destruct (encrypt_current_safe t time ty src (length dst) Hwf) as (w & t1 & -> & Hq1 & Hp1 & _ & Hw); [lia|].
  cbn [mbind option_bind]. pose proof (quiet_wf _ _ _ Hq1) as Hwf1. destruct w as [w|].
  - pose proof (quiet_tick time TimeLastPacketSent t1 ltac:(done) Hwf1) as Hq2.
    set (t2 := timer_tick TimeLastPacketSent t1) in *.
    set (t3 := match src with [] => t2 | _ => timer_tick TimeLastDataPacketSent t2 end).
    assert (quiet time t2 t3 ∧ packets t3 = packets t) as [Hq3 Hp3].
    { unfold t3. pose proof (quiet_wf _ _ _ Hq2).
      destruct src; (split; [by (apply quiet_refl || apply quiet_tick)|done]). }
    pose proof (quiet_add_counts time (Z.of_nat (length src)) 0 1 0 _ (quiet_wf _ _ _ Hq3)) as Hq4.
    eexists _, _, pool, hdls. split; [done|]. split; [|right; by eexists]. split.
    + eauto using quiet_trans.
    + apply pool_step_refl; [done|]. simpl. by rewrite Hp3.
    + right; left. exists w. split; [done|]. rewrite (Hw w eq_refl). unfold message_size. lia.
  - rewrite Hp1. destruct (queue_step (packets t) pool hdls ty src time Hinv Hlk)
      as (q & pool' & hdls' & Hqp & Hst).
    rewrite Hqp. cbn [mbind option_bind].
    pose proof (quiet_set_packets time q t1 Hwf1) as Hq2.
    destruct (tunn_format_initiation_safe (set_packets q t1) dst false time e)
      as (r & t2 & Hfi & Hq3 & Hp2 & _ & Hr); [apply Hq2| |lia|].
    { eapply moment_clock; [exact Hm|]. eapply same_clock_trans; [apply Hq1|apply Hq2]. }
    rewrite Hfi. cbn [mbind option_bind]. eexists _, t2, pool', hdls'. split; [done|].
    split; [|destruct Hr as [(-> & _)|(m & -> & _)]; eauto]. split.
    + eauto using quiet_trans.
    + by rewrite Hp2.
    + destruct Hr as [(-> & _)|(m & -> & Hm')]; [by left|right; left].
      exists m. split; [done|]. rewrite Hm'. unfold message_size. lia.
Qed.

(** Starting a handshake. *)
Lemma initiate_safe time t pool hdls dst e :
  wf_tunn t → moment t time → (HANDSHAKE_INIT_SZ ≤ length dst)%nat →
  pool_inv pool → linked (live pool) (packets t) hdls →
  ∃ m t', format_handshake_initiation t dst true time e = Some (WriteToNetwork m, t') ∧
    stepped time t pool hdls [] (WriteToNetwork m) t' pool hdls.
Proof.
  intros Hwf Hm Hd Hinv Hlk.
  destruct (tunn_format_initiation_safe t dst true time e Hwf Hm Hd)
    as (r & t' & Hfi & Hq' & Hp & _ & [(_ & _ & ?)|(m & -> & Hlen)]); [done|].
  exists m, t'. split; [done|]. split; [done|by apply pool_step_refl; rewrite ?Hp|].
  right; left. exists m. split; [done|]. rewrite Hlen. unfold message_size. lia.
Qed.

(** A state that a call may leave as it is. *)
Lemma stepped_refl time t pool hdls msg r :
  wf_tunn t → pool_inv pool → linked (live pool) (packets t) hdls →
  r = Done ∨ r = TunnErr ConnectionExpired ∧ is_expired (hs t) = true →
  stepped time t pool hdls msg r t pool hdls.
Proof.
  intros Hwf Hinv Hlk Hr. split; [by apply quiet_refl|by apply pool_step_refl|].
  destruct Hr as [->|[-> ?]]; [by left|by right; right].
Qed.

(** Why a connection is given up: no session for three rejection times, or a
    handshake without an answer for [REKEY_ATTEMPT_TIME]. *)
Definition given_up (t : tunn) (now : Z) : bool :=
  (REJECT_AFTER_TIME * 3 <=? now - time_of (timers t) TimeSessionEstablished) ||
  match timer (hs t) with
  | Some _ => REKEY_ATTEMPT_TIME <=? now - time_of (timers t) TimeLastHandshakeStarted
  | None => false
  end.

(** A handshake that is due to be sent again. *)
Definition retry_due (t : tunn) (time : Z) : bool :=
  match timer (hs t) with
  | Some sent => REKEY_TIMEOUT <=? duration_since time sent
  | None => false
  end.

(** The part of [update_timers] after the sessions have expired. *)
Definition after_sessions (t : tunn) (pool : P) (dst : bytes) (time now : Z) (e : bytes)
    : option (tunn_result * tunn * P) :=
  if given_up t now then
    let! '(t, pool) := clear_all (set_hs (set_expired (hs t)) t) pool time in
    Some (TunnErr ConnectionExpired, t, pool)
  else
    match timer (hs t) with
    | Some sent =>
        if REKEY_TIMEOUT <=? duration_since time sent then
          let! '(r, t) := format_handshake_initiation t dst true time e in Some (r, t, pool)
        else Some (Done, t, pool)
    | None =>
        let! '(handshake_initiation_required, keepalive_required, t) := idle_decision t now in
        if (handshake_initiation_required : bool) then
          let! '(r, t) := format_handshake_initiation t dst true time e in Some (r, t, pool)
        else if (keepalive_required : bool) then encapsulate t pool [] dst time e
        else Some (Done, t, pool)
    end.

Lemma after_sessions_safe t pool hdls dst time e :
  let now := duration_since time (time_started (timers t)) in
  wf_tunn t → moment t time → (HANDSHAKE_INIT_SZ ≤ length dst)%nat →
  pool_inv pool → linked (live pool) (packets t) hdls →
  ∃ r t' pool' hdls', after_sessions t pool dst time now e = Some (r, t', pool') ∧
    stepped time t pool hdls [] r t' pool' hdls' ∧
    (given_up t now = true → r = TunnErr ConnectionExpired ∧ packets t' = empty_queue) ∧
    (given_up t now = false → r ≠ TunnErr ConnectionExpired ∧
      (retry_due t time = true → ∃ m, r = WriteToNetwork m)).
Proof.
  intros now Hwf Hm Hd Hinv Hlk.
  unfold after_sessions. destruct (given_up t now) eqn:Hg.
  { destruct (expire_safe time t pool hdls Hwf Hm Hinv Hlk) as (t' & pool' & -> & Hu & Hp).
    by eexists _, t', pool', []. }
  assert (∀ r, r = Done ∨ (∃ m, r = WriteToNetwork m) → r ≠ TunnErr ConnectionExpired) as Hr
    by by intros r [->|[? ->]].
  unfold retry_due. destruct (timer (hs t)) as [sent|] eqn:Ht.
  - destruct (REKEY_TIMEOUT <=? duration_since time sent).
    + destruct (initiate_safe time t pool hdls dst e Hwf Hm Hd Hinv Hlk) as (m & t' & -> & Hu).
      eexists _, t', pool, hdls. split; [done|]. split; [done|]. split; [done|]. by eauto.
    + eexists _, t, pool, hdls. split; [done|]. split; [|done]. apply stepped_refl; auto.
  - destruct (idle_decision_safe t time now Hwf) as (init & keep & t1 & -> & Hq1 & Hp1 & _);
      [apply Hm|]. cbn [mbind option_bind].
    pose proof (moment_clock _ _ _ Hm (quiet_clock _ _ _ Hq1)) as Hm1.
    pose proof (quiet_wf _ _ _ Hq1) as Hwf1.
    rewrite <- Hp1 in Hlk. destruct init; [|destruct keep].
    + destruct (initiate_safe time t1 pool hdls dst e Hwf1 Hm1 Hd Hinv Hlk) as (m & t' & -> & Hu).
      eexists _, t', pool, hdls. split; [done|]. split; [by eapply stepped_from|]. done.
    + destruct (encapsulate_safe time t1 pool hdls DATA [] dst e Hwf1 Hm1)
        as (r & t' & pool' & hdls' & Hen & Hu & Hne); [|done|done|].
      { unfold message_size, HANDSHAKE_INIT_SZ, DATA_OFFSET, AEAD_SIZE in *. simpl. lia. }
      unfold encapsulate. rewrite Hen. eexists r, t', pool', hdls'. split; [done|].
      split; [by eapply stepped_from|]. split; [done|]. split; [by apply Hr|done].
    + eexists _, t1, pool, hdls. split; [done|]. split; [|done].
      eapply stepped_from; [done|]. apply stepped_refl; auto.
Qed.

Lemma update_timers_after t pool dst time e :
  let now := duration_since time (time_started (timers t)) in
  let t2 := expire_sessions now (on_timers (set_time TimeCurrent now) t) in
  wf_tunn t → moment t time →
  ∃ h, update_timers t pool dst time e =
    (if is_expired (hs t) then Some (TunnErr ConnectionExpired, t2, pool)
     else after_sessions (set_hs h t2) pool dst time now e) ∧
    (h = hs t ∨ h = clear_cookie (hs t)).
Proof.
  intros now t2 Hwf Hm. unfold update_timers. fold now.
  destruct (quiet_set_now time t Hwf Hm) as [Hq Hnow]. fold now in Hq, Hnow.
  rewrite update_session_timers_eq by (apply Hq || by rewrite Hnow).
  fold t2. cbn [mbind option_bind]. change (hs t2) with (hs t).
  assert (wf_tunn t2) as Hwf2 by (apply wf_expire_sessions; [apply Hq|done]).
  assert (∀ n, time_of (timers t2) n ≤ now) as Hle.
  { intros n. pose proof (wf_times_le _ n (wf_tunn_timers _ Hwf2)) as Hle.
    change (time_of (timers t2) TimeCurrent) with
      (time_of (timers (on_timers (set_time TimeCurrent now) t)) TimeCurrent) in Hle. lia. }
  rewrite and_elapsed_Some by apply Hle. cbn [mbind option_bind].
  set (b := has_cookie (hs t) && _). exists (if b then clear_cookie (hs t) else hs t).
  split; [|destruct b; auto]. destruct (is_expired (hs t)); [done|].
  set (t3 := set_hs (if b then _ else _) t2).
  replace (if b then _ else _) with t3 by (unfold t3; by destruct b).
  assert (∀ n, duration_sub now (time_of (timers t3) n) = Some (now - time_of (timers t3) n)) as Hds.
  { intros n. unfold duration_sub. by rewrite (proj2 (Z.leb_le _ _)) by apply Hle. }
  unfold after_sessions, given_up. rewrite !Hds. cbn [mbind option_bind].
  destruct (REJECT_AFTER_TIME * 3 <=? _); [done|]. cbn [orb].
  destruct (timer (hs t3)); [|done]. by destruct (REKEY_ATTEMPT_TIME <=? _).
Qed.

(** The state of a call to [update_timers] between its two parts. *)
Lemma expired_sessions_quiet time t :
  let now := duration_since time (time_started (timers t)) in
  wf_tunn t → moment t time →
  let t2 := expire_sessions now (on_timers (set_time TimeCurrent now) t) in
  wf_tunn t2 ∧ same_clock time t t2 ∧ sessions_fresh now t2 ∧
  ∀ i s, session_at t2 i = Some s → session_at t i = Some s.
Proof.
  intros now Hwf Hm t2. destruct (quiet_set_now time t Hwf Hm) as [Hq Hnow]. fold now in Hq, Hnow.
  split; [by apply wf_expire_sessions; [apply Hq|]|].
  split; [eapply same_clock_trans; [apply Hq|apply expire_sessions_clock]|].
  split; [apply expire_sessions_fresh; apply Hq|]. intros i s. unfold session_at, t2. simpl.
  rewrite lookup_zip_with. destruct (sessions t !! slot i) as [x|]; [|done]. simpl.
  destruct (session_timers (timers t) !! slot i); [|done]. simpl. by case_match.
Qed.

(** An outcome of [update_timers] that keeps every promise. *)
Record updated (time : Z) (t : tunn) (pool : P) (hdls : list handle)
    (r : tunn_result) (t' : tunn) (pool' : P) (hdls' : list handle) : Prop := {
  updated_wf : wf_tunn t';
  updated_fresh : sessions_fresh (duration_since time (time_started (timers t))) t';
  updated_clock : same_clock time t t';
  updated_sessions i s' : session_at t' i = Some s' →
    ∃ s, session_at t i = Some s ∧ receiving_key_counter s' = receiving_key_counter s;
  updated_pool : pool_step pool hdls [] (packets t') pool' hdls';
  updated_result :
    r = Done ∨ (∃ m, r = WriteToNetwork m ∧ (length m ≤ message_size [])%nat) ∨
    r = TunnErr ConnectionExpired ∧ is_expired (hs t') = true
}.

Lemma updated_of time t t2 pool hdls r t' pool' hdls' :
  let now := duration_since time (time_started (timers t)) in
  same_clock time t t2 → sessions_fresh now t2 →
  (∀ i s, session_at t2 i = Some s → session_at t i = Some s) →
  stepped time t2 pool hdls [] r t' pool' hdls' → updated time t pool hdls r t' pool' hdls'.
Proof.
  intros now Hc Hf Hs [[Hwf Hss Hc'] Hp Hr]. split; try done.
  - by eapply sessions_fresh_same.
  - by eapply same_clock_trans.
  - intros i s' (s & ?%Hs & ?)%(same_present _ _ Hss). by exists s.
Qed.

Lemma update_timers_spec (t : tunn) (pool : P) (hdls : list handle) (dst : bytes) (time : Z) (e : bytes) :
  let now := duration_since time (time_started (timers t)) in
  wf_tunn t → moment t time → (HANDSHAKE_INIT_SZ ≤ length dst)%nat →
  pool_inv pool → linked (live pool) (packets t) hdls →
  ∃ r t' pool' hdls', update_timers t pool dst time e = Some (r, t', pool') ∧
    updated time t pool hdls r t' pool' hdls' ∧
    (r = TunnErr ConnectionExpired ↔ is_expired (hs t) = true ∨ given_up t now = true) ∧
    (is_expired (hs t) = false → given_up t now = true → packets t' = empty_queue) ∧
    (is_expired (hs t) = false → given_up t now = false → retry_due t time = true →
      ∃ m, r = WriteToNetwork m).
Proof.
  intros now Hwf Hm Hd Hinv Hlk.
  destruct (update_timers_after t pool dst time e Hwf Hm) as (h & -> & Hh). fold now.
  destruct (expired_sessions_quiet time t Hwf Hm) as (Hwf2 & Hc & Hf2 & Hsub). fold now in Hwf2, Hc, Hf2, Hsub.
  set (t2 := expire_sessions now (on_timers (set_time TimeCurrent now) t)) in *.
  destruct (is_expired (hs t)) eqn:Hex.
  { eexists _, t2, pool, hdls. split; [done|]. split; [|split; [by split; auto|done]].
    eapply updated_of; [done..|]. apply stepped_refl; auto. }
  assert (quiet time t2 (set_hs h t2)) as Hq3.
  { destruct Hh as [->| ->]; (apply quiet_set_hs; [apply Hwf2|done|done]). }
  assert (given_up (set_hs h t2) now = given_up t now ∧ retry_due (set_hs h t2) time = retry_due t time)
    as [Hg Hrd].
  { destruct Hwf as [_ [Hl _ _ _ _] _ _]. unfold given_up, retry_due.
    assert (∀ n, n ≠ TimeCurrent → time_of (timers (set_hs h t2)) n = time_of (timers t) n) as Ht.
    { intros n Hn. change (time_of (set_time TimeCurrent now (timers t)) n = time_of (timers t) n).
      rewrite time_of_set_time by done. by rewrite decide_False. }
    rewrite !Ht by done. simpl hs. by destruct Hh as [->| ->]. }
  destruct (after_sessions_safe (set_hs h t2) pool hdls dst time e)
    as (r & t' & pool' & hdls' & Ha & Hu & Hyes & Hno); try done; [apply Hq3| |].
  { eapply moment_clock; [exact Hm|]. eapply same_clock_trans; [exact Hc|apply Hq3]. }
  exists r, t', pool', hdls'. split; [exact Ha|].
  change (given_up (set_hs h t2) _) with (given_up (set_hs h t2) now) in Hyes, Hno.
  rewrite Hg in Hyes, Hno. rewrite Hrd in Hno.
  split; [|split].
  - eapply updated_of; [done..|]. by eapply stepped_from.
  - split; [|by intros [?|?]; [|apply Hyes]]. intros Hr. right. apply not_false_iff_true.
    intros Hf. by apply (proj1 (Hno Hf)).
  - split; [intros _ Hgu; by apply Hyes|intros _ Hgu; by apply Hno].
Qed.

(** C21: the timers of a tunnel keep it safe. On a well-formed tunnel and a clock
    that does not run backwards, [update_timers] never panics (each of its
    subtractions of durations is within range), keeps the tunnel well-formed
    and the pool and queue sound, leaves alone the packets of other tunnels, and no
    session older than [REJECT_AFTER_TIME] survives it. A connection is
    reported expired exactly when it was, or has no session for three
    rejection times, or has tried a handshake for [REKEY_ATTEMPT_TIME]; its
    queue is then released. An initiation that is due is sent again. *)
Theorem update_timers_safe (t : tunn) (pool : P) (hdls : list handle) (dst : bytes) (time : Z) (e : bytes) :
  let now := duration_since time (time_started (timers t)) in
  wf_tunn t → moment t time → (HANDSHAKE_INIT_SZ ≤ length dst)%nat →
  pool_inv pool → linked (live pool) (packets t) hdls →
  ∃ r t' pool' hdls', update_timers t pool dst time e = Some (r, t', pool') ∧
    updated time t pool hdls r t' pool' hdls' ∧
    (r = TunnErr ConnectionExpired ↔ is_expired (hs t) = true ∨ given_up t now = true) ∧
    (is_expired (hs t) = false → given_up t now = true → packets t' = empty_queue) ∧
    (is_expired (hs t) = false → given_up t now = false → retry_due t time = true →
      ∃ m, r = WriteToNetwork m).
Proof. apply update_timers_spec. Qed.
End update.

(** A tunnel that waits for an answer to its initiation. *)
Definition toy_tunn : tunn :=
  @tunn_new toy_noise [1] (@public_from toy_noise [2]) None 5 toy_stamper 0.
Definition toy_waiting : tunn :=
  match @format_handshake_initiation toy_noise toy_tunn toy_dst false (from_secs 1) [3] with
  | Some (_, t) => t
  | None => toy_tunn
  end.

Ltac decide_now := apply (bool_decide_unpack _); vm_compute; exact I.

Lemma wf_toy_waiting : wf_tunn toy_waiting.
Proof.
  split; [vm_compute; reflexivity| |vm_compute; split; congruence|vm_compute; reflexivity].
  split; [vm_compute; reflexivity|vm_compute; reflexivity|decide_now|decide_now|vm_compute; congruence].
Defined.

Lemma update_timers_safe_witness :
  let E := Arena.arena_packet_pool_laws 2 8 in let pool := Arena.new 2 8 in
  let time := from_secs 7 in
  wf_tunn toy_waiting ∧ moment toy_waiting time ∧ (HANDSHAKE_INIT_SZ ≤ length toy_dst)%nat ∧
  pool_inv (packet_pool_laws := E) pool ∧
  linked (live (packet_pool_laws := E) pool) (packets toy_waiting) [] ∧
  is_expired (hs toy_waiting) = false ∧
  given_up toy_waiting (duration_since time (time_started (timers toy_waiting))) = false ∧
  retry_due toy_waiting time = true ∧
  ∃ m t' pool', update_timers (N := toy_noise) (H := Arena.arena_packet_pool 2 8) toy_waiting pool toy_dst time [5] =
    Some (WriteToNetwork m, t', pool').
Proof.
  intros E pool time. pose proof wf_toy_waiting as Hwf.
  assert (moment toy_waiting time) as Hm by (split; [vm_compute; congruence|vm_compute; eexists; reflexivity]).
  assert (HANDSHAKE_INIT_SZ ≤ length toy_dst)%nat as Hd by (vm_compute; lia).
  assert (pool_inv (packet_pool_laws := E) pool) as Hinv by exact (Arena.arena_inv_new 2 8).
  assert (linked (live (packet_pool_laws := E) pool) (packets toy_waiting) []) as Hlk by apply linked_empty.
  assert (is_expired (hs toy_waiting) = false) as He by (vm_compute; reflexivity).
  assert (given_up toy_waiting (duration_since time (time_started (timers toy_waiting))) = false) as Hg
    by (vm_compute; reflexivity).
  assert (retry_due toy_waiting time = true) as Hr by (vm_compute; reflexivity).
  split; [exact Hwf|]. split; [exact Hm|]. split; [exact Hd|]. split; [exact Hinv|]. split; [exact Hlk|].
  split; [exact He|]. split; [exact Hg|]. split; [exact Hr|].
  destruct (update_timers_safe (H0 := E) (L := toy_noise_laws) toy_waiting pool [] toy_dst time [5]
    Hwf Hm Hd Hinv Hlk) as (r & t' & pool' & hdls' & Hu & _ & _ & _ & Hret).
  destruct (Hret He Hg Hr) as [m Hmr]. exists m, t', pool'. rewrite Hu, Hmr. reflexivity.
Defined.
