(* ===== verification/TunnPair.v ===== *)
(** * Two tunnels that talk to each other

    The two ends of [tendrilix/src/noise/mod.rs] side by side: [joined] relates a
    tunnel and its peer's once a handshake between them has finished, and the
    packets of either end are delivered by the other for as long as it holds. *)

From S2P Require Import Prelude IpNet IpPacket Timestamper Wire Session PacketPool PacketQueue.
From S2P Require Import Handshake Timers Tunn.

(** One direction: what [s] sends, [r] has not seen yet. *)
Record feeds (s r : session) (got : list Z) : Prop := {
  feeds_index : sending_index s = receiving_index r;
  feeds_key : sender s = receiver r;
  feeds_width : in_width 32 (sending_index s);
  feeds_got : received_by r got;
  feeds_new x : x ∈ got → x < sending_key_counter s;
  feeds_counter : 0 ≤ sending_key_counter s
}.

(** Both ends have one another's session in use. *)
Record joined_by (A B : tunn) (s r : session) (got_s got_r : list Z) : Prop := {
  joined_wf_a : wf_tunn A;
  joined_wf_b : wf_tunn B;
  joined_a : session_at A (receiving_index s) = Some s;
  joined_b : session_at B (receiving_index r) = Some r;
  joined_current_a : slot (current A) = slot (receiving_index s);
  joined_current_b : slot (current B) = slot (receiving_index r);
  joined_out : feeds s r got_r;
  joined_in : feeds r s got_s
}.

(** The same, with the indexes under which the ends receive. *)
Definition joined_at (i j : Z) (A B : tunn) : Prop :=
  ∃ s r got_s got_r, joined_by A B s r got_s got_r ∧ receiving_index s = i ∧ receiving_index r = j.

Definition joined (A B : tunn) : Prop := ∃ i j, joined_at i j A B.

Lemma joined_at_sym i j A B : joined_at i j A B → joined_at j i B A.
Proof. intros (s & r & gs & gr & [] & Hi & Hj). by exists r, s, gr, gs. Qed.

Lemma joined_sym A B : joined A B → joined B A.
Proof. intros (i & j & H). exists j, i. by apply joined_at_sym. Qed.

(** [joined] is about the sessions of a tunnel. *)
Lemma joined_at_same i j A A' B :
  sessions A' = sessions A → slot (current A') = slot (current A) → wf_tunn A' →
  joined_at i j A B → joined_at i j A' B.
Proof.
  intros Hs Hc Hwf (s & r & gs & gr & [H1 H2 H3 H4 H5 H6 H7 H8] & Hi & Hj). exists s, r, gs, gr.
  split; [|done]. split; try done; [|by rewrite Hc]. unfold session_at. by rewrite Hs.
Qed.

Lemma session_at_slot t i j : slot i = slot j → session_at t i = session_at t j.
Proof. unfold session_at. by intros ->. Qed.

Lemma set_current_session_here i t :
  slot (current t) = slot i → slot (current (set_current_session i t)) = slot i.
Proof. unfold set_current_session. intros. by repeat case_match. Qed.

Lemma sessions_set_current_session i t : sessions (set_current_session i t) = sessions t.
Proof. unfold set_current_session. by repeat case_match. Qed.

(** A tunnel has room for another packet under its session's key. *)
Definition may_send (t : tunn) : Prop :=
  ∀ s, session_at t (current t) = Some s → sending_key_counter s < REJECT_AFTER_MESSAGES.

Lemma store_session_same i s t : session_at t i = Some s → store_session i (Some s) t = t.
Proof.
  intros Hs. unfold store_session, set_sessions, session_at in *.
  destruct (sessions t !! slot i) as [[x|]|] eqn:Hx; simplify_eq/=.
  rewrite list_insert_id by done. by destruct t.
Qed.

(** The session a handshake has just established becomes the current one: its
    timer is the latest. *)
Lemma established_current b i l t :
  wf_tunn t → slot i = slot l →
  let t' := set_current_session l (timer_tick_session_established b i t) in
  wf_tunn t' ∧ sessions t' = sessions t ∧ hs t' = hs t ∧ slot (current t') = slot l.
Proof.
  intros Hwf Hil t'. set (t1 := timer_tick_session_established b i t).
  assert (wf_tunn t1) as Hw1 by by apply wf_tick_established.
  split; [by apply wf_set_current_session|].
  split; [unfold t'; by rewrite sessions_set_current_session|].
  split; [unfold t', set_current_session; by repeat case_match|].
  assert (session_time (timers t1) (l mod N_SESSIONS) = time_of (timers t1) TimeCurrent) as Hnew.
  { assert (l mod N_SESSIONS = i mod N_SESSIONS) as ->.
    { unfold slot in Hil. pose proof (Z.mod_pos_bound l N_SESSIONS ltac:(done)).
      pose proof (Z.mod_pos_bound i N_SESSIONS ltac:(done)). lia. }
    unfold session_time. simpl. rewrite nth_lookup, list_lookup_insert_eq; [done|].
    destruct Hwf as [_ [_ Hs _ _ _] _ _]. rewrite Hs. apply slot_lt. }
  pose proof (wf_session_le (timers t1) (current t1 mod N_SESSIONS) (wf_tunn_timers _ Hw1)).
  unfold t', set_current_session. fold t1. destruct (Z.eqb_spec (current t1) l) as [->|]; [done|].
  rewrite (proj2 (Z.leb_le _ _)) by lia. by rewrite orb_true_r.
Qed.

Section pair.
Context `{L : noise_laws}.

Lemma feeds_sent s r r' got :
  feeds s r got → same_end r r' → received_by r' (sending_key_counter s :: got) →
  feeds (bump s) r' (sending_key_counter s :: got).
Proof.
  intros [H1 H2 H3 H4 H5 H6] [E1 E2 E3 E4 E5] Hr. split; simpl; try done; rewrite ?E1, ?E3; try done.
  - intros x [->|Hx]%elem_of_cons; [lia|]. specialize (H5 x Hx). lia.
  - lia.
Qed.

Lemma feeds_back s r r' got :
  feeds r s got → same_end r r' → feeds r' (bump s) got.
Proof.
  intros [H1 H2 H3 H4 H5 H6] [E1 E2 E3 E4 E5].
  split; simpl; rewrite ?E2, ?E4, ?E5; done.
Qed.

(** A tunnel decrypts with the session that a packet names. *)
Lemma decrypt_spec (B : tunn) (p : data) (r r' : session) (m dst : bytes) :
  wf_tunn B → session_at B (data_receiver_idx p) = Some r →
  receive_packet_data r p (length dst) = Some (Ok m, r') →
  slot (current B) = slot (data_receiver_idx p) →
  ∃ B', decrypt_raw_data B p dst = Some (Ok m, B') ∧ wf_tunn B' ∧ hs B' = hs B ∧
    session_at B' (data_receiver_idx p) = Some r' ∧ slot (current B') = slot (data_receiver_idx p).
Proof.
  intros Hwf Hr Hrec Hc. unfold decrypt_raw_data. rewrite Hr, Hrec. cbn [mbind option_bind].
  set (j := data_receiver_idx p) in *. set (B1 := store_session j (Some r') B).
  eexists. split; [done|]. split; [unfold B1; auto with tunnel|].
  split; [simpl; unfold set_current_session; by repeat case_match|].
  split; [|by apply (set_current_session_here j B1)].
  unfold session_at. simpl sessions. rewrite sessions_set_current_session.
  fold (session_at B1 j). unfold B1. rewrite session_at_store by apply Hwf. by rewrite decide_True.
Qed.

Section packet.
Context {P : Type} `{packet_pool P}.

(** A packet of one end is decrypted by the other, and only once. *)
Lemma deliver (relay : bool) (i j : Z) (A B : tunn) (pool : P) (src dst dst' : bytes) (now : Z) (e : bytes) :
  joined_at i j A B → may_send A →
  (DATA_OFFSET + padded_len src + AEAD_SIZE ≤ length dst)%nat →
  (padded_len src + AEAD_SIZE ≤ length dst')%nat →
  ∃ m A' p B',
    encapsulate_with_type A pool (if relay then RELAY_DATA else DATA) src dst now e =
      Some (WriteToNetwork m, A', pool) ∧
    parse_incoming_packet m = Some (Ok (if relay then PRelayData p else PData p)) ∧
    data_receiver_idx p = j ∧
    decrypt_raw_data B p dst' = Some (Ok (src ++ repeat 0 (padded_len src - length src)), B') ∧
    joined_at i j A' B' ∧ hs A' = hs A ∧ hs B' = hs B ∧
    ∃ err, ∀ B'', sessions B'' = sessions B' → decrypt_raw_data B'' p dst' = Some (Err err, B'').
Proof.
  intros (s & r & gs & gr & [HwA HwB HsA HrB HcA HcB Hout Hin] & Hsi & Hrj) Hmay Hd Hd'.
  assert (session_at A (current A) = Some s) as HA by (by rewrite (session_at_slot A _ _ HcA)).
  pose proof (Hmay s HA) as Hlt. pose proof Hout as [Hi Hk Hw Hr Hnew Hc].
  destruct (session_deliver s r gr relay src (length dst) (length dst') Hr Hi Hk Hw)
    as (m & p & r' & Hf & Hp & Hpi & Hpc & Hrec & Hgot & Hse & err & Hagain); try done.
  { intros Hx. specialize (Hnew _ Hx). lia. }
  { intros x Hx. specialize (Hnew x Hx). unfold N_BITS, WORD_SIZE, N_WORDS. lia. }
  unfold encapsulate_with_type, encrypt_current. rewrite HA, Hf. cbn [mbind option_bind].
  set (A1 := store_session (current A) (Some (bump s)) A).
  set (A2 := match src with [] => timer_tick TimeLastPacketSent A1 | _ => _ end).
  assert (wf_tunn A2 ∧ sessions A2 = sessions A1 ∧ current A2 = current A ∧ hs A2 = hs A) as (Hw2 & Hs2 & Hc2 & Hh2).
  { unfold A2, A1. destruct src; (split; [|done]); auto 6 with tunnel. }
  rewrite <- Hpi in HrB, HcB.
  destruct (decrypt_spec B p r r' _ dst' HwB HrB Hrec HcB) as (B' & Hdec & HwB' & HhB & HrB' & HcB').
  rewrite Hpi, <- (same_receiving_index _ _ Hse) in HcB'.
  eexists m, _, p, B'. split; [done|]. split; [done|]. split; [by rewrite Hpi|]. split; [exact Hdec|].
  split; [|split; [done|split; [done|]]].
  - exists (bump s), r', gs, (sending_key_counter s :: gr).
    split; [|split; [done|by rewrite <- Hrj; apply Hse]]. split.
    + by apply wf_add_counts.
    + done.
    + unfold session_at. simpl sessions. rewrite Hs2. change (session_at A1 (receiving_index s) = Some (bump s)).
      unfold A1. rewrite session_at_store by apply HwA. by rewrite decide_True.
    + by rewrite (same_receiving_index _ _ Hse), <- Hpi.
    + simpl. by rewrite Hc2.
    + done.
    + by apply feeds_sent with r.
    + by apply feeds_back with r.
  - exists err. intros B'' Hs. unfold decrypt_raw_data.
    assert (session_at B'' (data_receiver_idx p) = Some r') as HB'' by (unfold session_at; by rewrite Hs).
    rewrite HB'', Hagain. cbn [mbind option_bind]. by rewrite store_session_same.
Qed.

Lemma validate_padded t p pad a :
  ip_packet p a →
  validate_decapsulated_packet t (p ++ pad) = Some (to_interface p a,
    add_counts 0 (Z.of_nat (length p)) 0 0 (timer_tick TimeLastDataPacketReceived t)).
Proof.
  intros [Hl Ha]. apply (computed_len_prefix _ pad) in Hl. apply (src_address_prefix _ pad) in Ha.
  unfold validate_decapsulated_packet. rewrite Ha, Hl. cbn [mbind option_bind].
  rewrite (proj2 (Nat.ltb_ge _ _)) by (rewrite length_app; lia). rewrite take_app_length.
  by destruct (p ++ pad); [|destruct a].
Qed.

(** What [tunnel_carries] says, with the indexes the packets name. *)
Lemma carries_data (i j : Z) (A B : tunn) (pool : P) (src : bytes) (addr : ip_addr) (dst dst' : bytes)
    (now now' : Z) (e e' : bytes) :
  joined_at i j A B → may_send A →
  (DATA_OFFSET + padded_len src + AEAD_SIZE ≤ length dst)%nat →
  (padded_len src + AEAD_SIZE ≤ length dst')%nat →
  ip_packet src addr → ∃ m A' p B',
    encapsulate A pool src dst now e = Some (WriteToNetwork m, A', pool) ∧
    parse_incoming_packet m = Some (Ok (PData p)) ∧ data_receiver_idx p = j ∧
    handle_verified_packet B (PData p) dst' now' e' = Some (to_interface src addr, B') ∧
    joined_at i j A' B' ∧
    ∃ err, ∀ q now'' e'', handle_verified_packet (set_packets q B') (PData p) dst' now'' e'' =
      Some (TunnErr err, set_packets q B').
Proof.
  intros Hj Hmay Hd Hd' Hip. destruct (deliver false i j A B pool src dst dst' now e Hj Hmay Hd Hd')
    as (m & A' & p & B' & He & Hp & Hpj & Hdec & HJ & _ & _ & err & Hagain).
  set (B2 := add_counts 0 (Z.of_nat (length src)) 0 0 (timer_tick TimeLastDataPacketReceived B')).
  assert (joined_at i j A' B2) as HJ2.
  { apply joined_at_sym, (joined_at_same _ _ B'); [done|done| |by apply joined_at_sym].
    destruct HJ as (? & ? & ? & ? & [] & _). unfold B2. auto with tunnel. }
  exists m, A', p, B2. split; [exact He|]. split; [exact Hp|]. split; [done|].
  unfold handle_verified_packet, handle_data.
  split; [by rewrite Hdec; cbn [mbind option_bind]; rewrite validate_padded with (a := addr)|].
  split; [done|]. exists err. intros q now'' e''. by rewrite (Hagain (set_packets q B2) eq_refl).
Qed.

Lemma carries_relay (i j : Z) (A B : tunn) (pool : P) (src dst dst' : bytes) (now : Z) (e : bytes) :
  joined_at i j A B → may_send A →
  (DATA_OFFSET + padded_len src + AEAD_SIZE ≤ length dst)%nat →
  (padded_len src + AEAD_SIZE ≤ length dst')%nat →
  ∃ m A' p B',
    encapsulate_relay A pool src dst now e = Some (WriteToNetwork m, A', pool) ∧
    parse_incoming_packet m = Some (Ok (PRelayData p)) ∧ data_receiver_idx p = j ∧
    handle_verified_relay_packet B (PRelayData p) dst' =
      Some (Ok (src ++ repeat 0 (padded_len src - length src)), B') ∧
    joined_at i j A' B' ∧
    ∃ err, ∀ q, handle_verified_relay_packet (set_packets q B') (PRelayData p) dst' =
      Some (Err err, set_packets q B').
Proof.
  intros Hj Hmay Hd Hd'. destruct (deliver true i j A B pool src dst dst' now e Hj Hmay Hd Hd')
    as (m & A' & p & B' & He & Hp & Hpj & Hdec & HJ & _ & _ & err & Hagain).
  exists m, A', p, B'. split_and!; try done. exists err. intros q. by apply Hagain.
Qed.

(** C5: joined tunnels carry packets. As long as the key may be used, an IP
    packet given to one end leaves as a message that the other end parses,
    accepts, and hands to its interface, with the same bytes and the packet's
    source (the padding is gone); the ends stay joined, and the same message is
    refused when it comes again. Packets on behalf of relays arrive too, with
    their padding. *)
Theorem tunnel_carries (A B : tunn) (pool : P) (src : bytes) (addr : ip_addr) (dst dst' : bytes)
    (now now' : Z) (e e' : bytes) :
  joined A B → may_send A →
  (DATA_OFFSET + padded_len src + AEAD_SIZE ≤ length dst)%nat →
  (padded_len src + AEAD_SIZE ≤ length dst')%nat →
  (ip_packet src addr → ∃ m A' p B',
    encapsulate A pool src dst now e = Some (WriteToNetwork m, A', pool) ∧
    parse_incoming_packet m = Some (Ok (PData p)) ∧
    handle_verified_packet B (PData p) dst' now' e' = Some (to_interface src addr, B') ∧
    joined A' B' ∧ joined B' A' ∧
    ∃ err, handle_verified_packet B' (PData p) dst' now' e' = Some (TunnErr err, B')) ∧
  ∃ m A' p B',
    encapsulate_relay A pool src dst now e = Some (WriteToNetwork m, A', pool) ∧
    parse_incoming_packet m = Some (Ok (PRelayData p)) ∧
    handle_verified_relay_packet B (PRelayData p) dst' =
      Some (Ok (src ++ repeat 0 (padded_len src - length src)), B') ∧
    joined A' B' ∧ joined B' A' ∧
    ∃ err, handle_verified_relay_packet B' (PRelayData p) dst' = Some (Err err, B').
Proof.
  intros (i & j & Hj) Hmay Hd Hd'. split.
  - intros Hip. destruct (carries_data i j A B pool src addr dst dst' now now' e e' Hj Hmay Hd Hd' Hip)
      as (m & A' & p & B' & He & Hp & _ & Hh & HJ & err & Hagain).
    assert (joined A' B') as HJ' by by exists i, j.
    exists m, A', p, B'. split_and!; try done; [by apply joined_sym|].
    exists err. specialize (Hagain (packets B') now' e'). by destruct B'.
  - destruct (carries_relay i j A B pool src dst dst' now e Hj Hmay Hd Hd')
      as (m & A' & p & B' & He & Hp & _ & Hh & HJ & err & Hagain).
    assert (joined A' B') as HJ' by by exists i, j.
    exists m, A', p, B'. split_and!; try done; [by apply joined_sym|].
    exists err. specialize (Hagain (packets B')). by destruct B'.
Qed.
End packet.

(** The tunnel's side of each step of a handshake. *)
Lemma tunn_initiates (A : tunn) dst now e m h :
  wf_tunn A → time_of (timers A) TimeCurrent ≤ duration_since now (time_started (timers A)) →
  is_in_progress (hs A) = false →
  Handshake.format_handshake_initiation (hs A) dst (stamper A) now e = Some (Ok m, h) →
  in_width 32 (next_local_index h) → params h = params (hs A) →
  ∃ A', format_handshake_initiation A dst false now e = Some (WriteToNetwork m, A') ∧
    wf_tunn A' ∧ hs A' = h.
Proof.
  intros Hwf Hnow Hip Hf Hw Hp. unfold format_handshake_initiation. rewrite Hip. cbn [andb].
  set (A1 := if is_expired (hs A) then on_timers (λ x, clear x now) A else A).
  assert (wf_tunn A1 ∧ hs A1 = hs A ∧ stamper A1 = stamper A) as (Hw1 & Hh1 & Hs1).
  { unfold A1. destruct (is_expired (hs A)); [|done]. split; [|done].
    destruct Hwf as [? ? ? ?]. split; simpl; try done. apply wf_clear; [lia|done]. }
  rewrite Hh1, Hs1, Hf, Hip. cbn [mbind option_bind negb].
  eexists. split; [done|]. split; [|done].
  assert (wf_tunn (set_hs h A1)) as Hw2.
  { destruct Hw1 as [? ? ? ?]. split; simpl; try done. rewrite Hp. by rewrite <- Hh1. }
  auto with tunnel.
Qed.

Lemma wf_set_hs h t :
  in_width 32 (next_local_index h) → params h = params (hs t) → wf_tunn t → wf_tunn (set_hs h t).
Proof. intros Hw Hp [? ? ? ?]. split; simpl; try done. by rewrite Hp. Qed.

Lemma tunn_answers (B : tunn) p dst now e m s h :
  wf_tunn B → receive_handshake_initialization (hs B) p dst e = Some (Ok (m, s), h) →
  in_width 32 (next_local_index h) → params h = params (hs B) →
  ∃ B', handle_verified_packet B (PHandshakeInit p) dst now e = Some (WriteToNetwork m, B') ∧
    wf_tunn B' ∧ hs B' = h ∧ session_at B' (receiving_index s) = Some s ∧
    slot (current B') = slot (receiving_index s).
Proof.
  intros Hwf Hr Hw Hp. unfold handle_verified_packet, handle_handshake_init. rewrite Hr.
  cbn [mbind option_bind]. change (local_index s) with (receiving_index s). set (j := receiving_index s).
  set (B1 := store_session j (Some s) (set_hs h B)).
  set (B2 := add_counts 0 0 1 1 (timer_tick TimeLastPacketSent (timer_tick TimeLastPacketReceived B1))).
  assert (wf_tunn B2) as Hw2 by (unfold B2, B1; auto 10 using wf_set_hs with tunnel).
  destruct (established_current false j j B2 Hw2 eq_refl) as (Hw3 & Hs3 & Hh3 & Hc3).
  eexists. split; [done|]. split; [done|]. split; [done|]. split; [|done].
  unfold session_at. rewrite Hs3. change (session_at B1 j = Some s). unfold B1.
  rewrite session_at_store by apply Hwf. by rewrite decide_True.
Qed.

Lemma tunn_finishes (A : tunn) p dst now e m s h :
  wf_tunn A → receive_handshake_response (hs A) p now = Some (Ok s, h) →
  in_width 32 (next_local_index h) → params h = params (hs A) →
  format_packet_data s [] (length dst) = Some (Some m, bump s) →
  ∃ A', handle_verified_packet A (PHandshakeResponse p) dst now e = Some (WriteToNetwork m, A') ∧
    wf_tunn A' ∧ hs A' = h ∧ session_at A' (receiving_index s) = Some (bump s) ∧
    slot (current A') = slot (receiving_index s).
Proof.
  intros Hwf Hr Hw Hp Hf. unfold handle_verified_packet, handle_handshake_response. rewrite Hr.
  cbn [mbind option_bind]. rewrite Hf. cbn [mbind option_bind].
  change (local_index (bump s)) with (receiving_index s).
  set (i := receiving_index s). set (k := i mod N_SESSIONS).
  assert (slot k = slot i) as Hk by (unfold slot, k; by rewrite Z.mod_mod).
  set (A1 := store_session k (Some (bump s)) (set_hs h A)).
  set (A2 := add_counts 0 0 1 1 (timer_tick TimeLastPacketReceived A1)).
  assert (wf_tunn A2) as Hw2 by (unfold A2, A1; auto 10 using wf_set_hs with tunnel).
  destruct (established_current true k i A2 Hw2 Hk) as (Hw3 & Hs3 & Hh3 & Hc3).
  eexists. split; [done|]. split; [done|]. split; [done|]. split; [|done].
  unfold session_at. rewrite Hs3. change (session_at A1 i = Some (bump s)). unfold A1.
  rewrite session_at_store by apply Hwf. by rewrite decide_True.
Qed.

(** C4: a handshake joins two tunnels that know each other's static keys. From
    any well-formed states in which one has no handshake in progress and its
    timestamp is news to the other, the initiation, the answer and the first
    keepalive each parse and are accepted in turn; then no handshake is in
    progress on either end, the keepalive is consumed, and each end has the
    other's new session in use. *)
Theorem tunnel_handshake (A B : tunn) (ska skb ea eb e b dst : bytes) (now later later' now_b : Z) :
  wf_tunn A → wf_tunn B → keyed (hs A) ska skb → keyed (hs B) skb ska →
  is_in_progress (hs A) = false →
  time_of (timers A) TimeCurrent ≤ duration_since now (time_started (timers A)) →
  stamp (stamper A) now = Some b → after (parse b) (last_handshake_timestamp (hs B)) = true →
  (HANDSHAKE_INIT_SZ ≤ length dst)%nat →
  ∃ m1 A1 p1 m2 B1 p2 m3 A2 p3 B2,
    format_handshake_initiation A dst false now ea = Some (WriteToNetwork m1, A1) ∧
    parse_incoming_packet m1 = Some (Ok (PHandshakeInit p1)) ∧
    handle_verified_packet B (PHandshakeInit p1) dst now_b eb = Some (WriteToNetwork m2, B1) ∧
    parse_incoming_packet m2 = Some (Ok (PHandshakeResponse p2)) ∧
    handle_verified_packet A1 (PHandshakeResponse p2) dst later e = Some (WriteToNetwork m3, A2) ∧
    parse_incoming_packet m3 = Some (Ok (PData p3)) ∧
    handle_verified_packet B1 (PData p3) dst later' e = Some (Done, B2) ∧
    joined A2 B2 ∧ joined B2 A2 ∧
    is_in_progress (hs A2) = false ∧ is_in_progress (hs B2) = false.
Proof.
  intros HwA HwB HkA HkB Hip Hnow Hst Hafter Hd.
  pose proof HkA as [HA Hwi]. pose proof HkB as [HB Hwj].
  destruct (initiation_exchange (hs A) ska skb ea dst b (stamper A) now HkA Hst (stamp_length _ _ _ Hst) Hd)
    as (m1 & I1 & p1 & hash & ck & Hinit & Hp1 & Hs1 & HI1 & HwI1 & Hrecv).
  destruct (tunn_initiates A dst now ea m1 I1 HwA Hnow Hip Hinit HwI1 HI1) as (A1 & Hf1 & HwA1 & HhA1).
  set (i := next_local_index (hs A)) in *.
  set (R0 := set_states (hs_state (hs B)) (InitReceived hash ck (public_from ea) i)
    (set_timestamp (parse b) (hs B))).
  assert (HANDSHAKE_RESP_SZ ≤ length dst)%nat as Hd2 by (unfold HANDSHAKE_RESP_SZ, HANDSHAKE_INIT_SZ in *; lia).
  rewrite <- HhA1, HA in HI1.
  destruct (response_exchange R0 (hs A1) ska skb ea eb hash ck i now dst later
    HB HI1 Hwj Hwi Hd2 eq_refl ltac:(by rewrite HhA1))
    as (m2 & sr & R1 & p2 & si & I2 & Hresp & Hp2 & Hfin & Hmir & Hi & Hj & HsI & HsR & HpR & _ &
        [Hgi Hci] & [Hgr Hcr] & HwR & HpI & HnI).
  destruct (tunn_answers B p1 dst now_b eb m2 sr R1) as (B1 & Hf2 & HwB1 & HhB1 & HsB1 & HcB1);
    [done|by rewrite Hrecv, Hafter by done|done|done|].
  destruct Hmir as [Hm1 Hm2 Hm3 Hm4].
  destruct (session_deliver si sr [] false [] (length dst) (length dst) Hgr Hm1 Hm3)
    as (m3 & p3 & sr' & Hf3 & Hp3 & Hpi3 & _ & Hrec3 & Hgr' & Hse & _);
    try (unfold HANDSHAKE_INIT_SZ, DATA_OFFSET, AEAD_SIZE in *; simpl; lia).
  { by rewrite Hm1, Hj. }
  { rewrite Hci. split; [done|]. reflexivity. }
  { by intros ?%elem_of_nil. }
  { by intros x ?%elem_of_nil. }
  destruct (tunn_finishes A1 p2 dst later e m3 si I2) as (A2 & Hf4 & HwA2 & HhA2 & HsA2 & HcA2);
    try done; [by rewrite HnI, HhA1|].
  rewrite <- Hpi3 in HsB1, HcB1.
  destruct (decrypt_spec B1 p3 sr sr' _ dst HwB1 HsB1 Hrec3 HcB1) as (B2 & Hdec & HwB2 & HhB2 & HsB2 & HcB2).
  rewrite Hpi3, <- (same_receiving_index _ _ Hse) in HsB2, HcB2.
  assert (feeds si sr [] ∧ feeds sr si []) as [Hout Hin].
  { split; split; rewrite ?Hci, ?Hcr, ?Hm1, ?Hm2, ?Hj, ?Hi; (done || by intros x ?%elem_of_nil). }
  assert (joined A2 B2) as HJ.
  { eexists _, _, (bump si), sr', [], [sending_key_counter si]. split; [|by split].
    split; try done; [by apply feeds_sent with sr|by apply feeds_back with sr]. }
  exists m1, A1, p1, m2, B1, p2, m3, A2, p3, B2.
  split_and!; try done; [|by apply joined_sym|by unfold is_in_progress; rewrite HhA2, HsI|
    by unfold is_in_progress; rewrite HhB2, HhB1, HsR].
  unfold handle_verified_packet, handle_data. by rewrite Hdec.
Qed.
End pair.

(** ** Examples *)

(** The peer of [toy_tunn]. *)
Definition toy_peer : tunn :=
  @tunn_new toy_noise [2] (@public_from toy_noise [1]) (Some 25) 9 toy_stamper 0.

(** The same two tunnels with a session installed on each. *)
Definition toy_key (n : Z) : bytes := repeat n 32.
Definition toy_a : tunn :=
  store_session 1280 (Some (session_new 1280 2304 (toy_key 1) (toy_key 2))) (set_current 1280 toy_tunn).
Definition toy_b : tunn :=
  store_session 2304 (Some (session_new 2304 1280 (toy_key 2) (toy_key 1))) (set_current 2304 toy_peer).

Ltac decide_wf :=
  split; [vm_compute; reflexivity| |vm_compute; split; congruence|vm_compute; reflexivity];
  split; [vm_compute; reflexivity|vm_compute; reflexivity|decide_now|decide_now|vm_compute; congruence].

Lemma toy_joined_at : joined_at 1280 2304 toy_a toy_b.
Proof.
  exists (session_new 1280 2304 (toy_key 1) (toy_key 2)), (session_new 2304 1280 (toy_key 2) (toy_key 1)), [], [].
  split; [|by split]. split; [decide_wf|decide_wf|reflexivity|reflexivity|reflexivity|reflexivity| |].
  - split; [reflexivity|reflexivity|vm_compute; split; congruence|apply received_by_new| |vm_compute; congruence].
    by intros x ?%elem_of_nil.
  - split; [reflexivity|reflexivity|vm_compute; split; congruence|apply received_by_new| |vm_compute; congruence].
    by intros x ?%elem_of_nil.
Qed.

Lemma toy_joined : joined toy_a toy_b.
Proof. eexists _, _. exact toy_joined_at. Qed.

(** An IPv4 packet of twenty bytes from 10.0.0.1 to 10.0.0.2. *)
Definition toy_packet : bytes := [0x45; 0; 0; 20; 0; 0; 0; 0; 64; 17; 0; 0; 10; 0; 0; 1; 10; 0; 0; 2].

Lemma tunnel_carries_witness :
  let pool := Arena.new 2 8 in
  joined toy_a toy_b ∧ may_send toy_a ∧
  (DATA_OFFSET + padded_len toy_packet + AEAD_SIZE ≤ length toy_dst)%nat ∧
  (padded_len toy_packet + AEAD_SIZE ≤ length toy_dst)%nat ∧
  ip_packet toy_packet (IpV4 0x0a000001) ∧
  ∃ m A' p B',
    encapsulate (N := toy_noise) (H := Arena.arena_packet_pool 2 8) toy_a pool toy_packet toy_dst 0 [] =
      Some (WriteToNetwork m, A', pool) ∧
    parse_incoming_packet m = Some (Ok (PData p)) ∧
    handle_verified_packet (N := toy_noise) toy_b (PData p) toy_dst 0 [] =
      Some (to_interface toy_packet (IpV4 0x0a000001), B').
Proof.
  intros pool. assert (joined toy_a toy_b) as Hj by exact toy_joined.
  assert (may_send toy_a) as Hm.
  { intros s Hs. vm_compute in Hs. injection Hs as <-. reflexivity. }
  assert (DATA_OFFSET + padded_len toy_packet + AEAD_SIZE ≤ length toy_dst)%nat as H1 by (vm_compute; lia).
  assert (padded_len toy_packet + AEAD_SIZE ≤ length toy_dst)%nat as H2 by (vm_compute; lia).
  assert (ip_packet toy_packet (IpV4 0x0a000001)) as H3 by (split; vm_compute; reflexivity).
  split; [exact Hj|]. split; [exact Hm|]. split; [exact H1|]. split; [exact H2|]. split; [exact H3|].
  destruct (proj1 (tunnel_carries (L := toy_noise_laws) (H0 := Arena.arena_packet_pool 2 8) toy_a toy_b pool toy_packet (IpV4 0x0a000001)
    toy_dst toy_dst 0 0 [] [] Hj Hm H1 H2) H3) as (m & A' & p & B' & E1 & E2 & E3 & _).
  exists m, A', p, B'. split; [exact E1|]. split; [exact E2|exact E3].
Defined.

Lemma tunnel_handshake_witness :
  wf_tunn toy_tunn ∧ wf_tunn toy_peer ∧
  keyed (H := toy_noise) (hs toy_tunn) [1] [2] ∧ keyed (H := toy_noise) (hs toy_peer) [2] [1] ∧
  is_in_progress (hs toy_tunn) = false ∧
  time_of (timers toy_tunn) TimeCurrent ≤ duration_since (from_secs 1) (time_started (timers toy_tunn)) ∧
  stamp (stamper toy_tunn) (from_secs 1) = Some toy_stamp ∧
  after (parse toy_stamp) (last_handshake_timestamp (hs toy_peer)) = true ∧
  (HANDSHAKE_INIT_SZ ≤ length toy_dst)%nat ∧
  ∃ A2 B2, joined A2 B2 ∧ is_in_progress (hs A2) = false ∧ is_in_progress (hs B2) = false.
Proof.
  assert (wf_tunn toy_tunn) as H1 by decide_wf.
  assert (wf_tunn toy_peer) as H2 by decide_wf.
  assert (keyed (H := toy_noise) (hs toy_tunn) [1] [2]) as H3
    by (split; [reflexivity|vm_compute; split; congruence]).
  assert (keyed (H := toy_noise) (hs toy_peer) [2] [1]) as H4
    by (split; [reflexivity|vm_compute; split; congruence]).
  assert (is_in_progress (hs toy_tunn) = false) as H5 by reflexivity.
  assert (time_of (timers toy_tunn) TimeCurrent ≤
    duration_since (from_secs 1) (time_started (timers toy_tunn))) as H6 by (vm_compute; congruence).
  assert (stamp (stamper toy_tunn) (from_secs 1) = Some toy_stamp) as H7 by (vm_compute; reflexivity).
  assert (after (parse toy_stamp) (last_handshake_timestamp (hs toy_peer)) = true) as H8
    by (vm_compute; reflexivity).
  assert (HANDSHAKE_INIT_SZ ≤ length toy_dst)%nat as H9 by (vm_compute; lia).
  do 9 (split; [assumption|]).
  destruct (tunnel_handshake (L := toy_noise_laws) toy_tunn toy_peer [1] [2] [3] [4] [] toy_stamp toy_dst
    (from_secs 1) (from_secs 2) (from_secs 3) (from_secs 1) H1 H2 H3 H4 H5 H6 H7 H8 H9)
    as (m1 & A1 & p1 & m2 & B1 & p2 & m3 & A2 & p3 & B2 & _ & _ & _ & _ & _ & _ & _ & HJ & _ & Ha & Hb).
  exists A2, B2. split; [exact HJ|]. split; [exact Ha|exact Hb].
Defined.
