(* ===== verification/TunnTotal.v ===== *)
(** * What a tunnel may be sent

    The handlers of [tendrilix/src/noise/mod.rs] on packets from the network:
    whatever a datagram holds, handling it does not panic and leaves the tunnel
    sound. The replay windows of its sessions are part of the invariant here. *)

From S2P Require Import Prelude IpNet IpPacket Timestamper Wire Session PacketPool PacketQueue.
From S2P Require Import Handshake Timers Tunn.

(** Decryption is in place: the plaintext is as long as the ciphertext. *)
Class noise_open_laws `{noise_crypto} := {
  chacha_open_length k n c t ad m : chacha_open k n c t ad = Some m → length m = length c;
  chacha_open_bytes k n c t ad m : chacha_open k n c t ad = Some m → is_bytes c → is_bytes m
}.

(** ** Sound tunnels *)

(** The window of the session is that of some history. *)
Definition sound_session (s : session) : Prop := ∃ got, received_by s got.

Lemma sound_same s s' :
  receiving_key_counter s' = receiving_key_counter s → sound_session s → sound_session s'.
Proof. intros E [got Hg]. exists got. unfold received_by in *. by rewrite E. Qed.

Lemma sound_fresh s : fresh s → sound_session s.
Proof. intros [Hg _]. by exists []. Qed.

Record sound (t : tunn) : Prop := {
  sound_wf : wf_tunn t;
  sound_sessions i s : session_at t i = Some s → sound_session s
}.

Lemma sound_quiet time t t' : quiet time t t' → sound t → sound t'.
Proof.
  intros [Hwf Hs _] [_ Hso]. split; [done|]. intros i s' Hs'.
  destruct (same_present _ _ Hs i s' Hs') as (s & Hsi & E). eapply sound_same; [exact E|]. by eapply Hso.
Qed.

(** What handling a packet leaves alone. *)
Record handled (time : Z) (t t' : tunn) : Prop := {
  handled_sound : sound t';
  handled_clock : same_clock time t t';
  handled_packets : packets t' = packets t
}.

Lemma handled_refl time t : sound t → handled time t t.
Proof. split; auto using same_clock_refl. Qed.

Lemma handled_trans time t1 t2 t3 : handled time t1 t2 → handled time t2 t3 → handled time t1 t3.
Proof. intros [] []. split; [done|by eapply same_clock_trans|congruence]. Qed.

Lemma handled_quiet time t t' : quiet time t t' → packets t' = packets t → sound t → handled time t t'.
Proof. intros Hq Hp Hs. split; [by eapply sound_quiet|apply Hq|done]. Qed.

(** Steps that may follow. *)
Lemma handled_then time t0 t t' : handled time t0 t → (sound t → handled time t t') → handled time t0 t'.
Proof. intros Ht Hs. eapply handled_trans; [done|]. apply Hs, Ht. Qed.

Lemma handled_tick time n t0 t : n ≠ Top → handled time t0 t → handled time t0 (timer_tick n t).
Proof.
  intros Hn Ht. eapply handled_then; [done|]. intros Hs.
  apply handled_quiet; [apply quiet_tick; [done|apply Hs]|done|done].
Qed.

Lemma handled_add_counts time a b c d t0 t :
  handled time t0 t → handled time t0 (add_counts a b c d t).
Proof.
  intros Ht. eapply handled_then; [done|]. intros Hs.
  apply handled_quiet; [apply quiet_add_counts, Hs|done|done].
Qed.

Lemma handled_set_hs time h t :
  in_width 32 (next_local_index h) → params h = params (hs t) → sound t → handled time t (set_hs h t).
Proof. intros Hw Hp Hs. apply handled_quiet; [apply quiet_set_hs; [done..|apply Hs]|done|done]. Qed.

Lemma handled_store time i s t0 t :
  sound_session s → handled time t0 t → handled time t0 (store_session i (Some s) t).
Proof.
  intros Hs Ht. eapply handled_then; [done|]. intros [Hwf Hso]. split; [|split; auto|done].
  split; [by apply wf_store_session|].
  intros j x. rewrite session_at_store by apply Hwf. case_decide; [by intros [= <-]|apply Hso].
Qed.

Lemma handled_current time i t0 t : handled time t0 t → handled time t0 (set_current_session i t).
Proof.
  intros Ht. eapply handled_then; [done|]. intros [Hwf Hso]. split.
  - split; [by apply wf_set_current_session|]. intros j s. unfold session_at.
    replace (sessions (set_current_session i t)) with (sessions t); [apply Hso|].
    unfold set_current_session. by repeat case_match.
  - unfold set_current_session. repeat case_match; split; auto.
  - unfold set_current_session. by repeat case_match.
Qed.

Lemma handled_established time b i t0 t :
  handled time t0 t → handled time t0 (timer_tick_session_established b i t).
Proof.
  intros Ht. eapply handled_then; [done|]. intros [Hwf Hso].
  split; [split; [by apply wf_tick_established|done]|split; [done| |done..]|done]. left.
  change (time_of (Timers.timer_tick TimeSessionEstablished (timers t)) TimeCurrent =
    time_of (timers t) TimeCurrent).
  apply timer_tick_current; [apply Hwf|done].
Qed.

Create HintDb handled discriminated.
#[export] Hint Resolve handled_tick handled_add_counts handled_store handled_current
  handled_established : handled.
#[export] Hint Extern 1 (_ ≠ Top) => discriminate : handled.

(** ** The handlers *)

Section handlers.
Context `{L : noise_laws, V : !noise_open_laws}.

(** A packet from the network: well formed, and made of bytes. *)
Definition from_network (p : packet) : Prop :=
  (∃ mac, packet_ok p mac) ∧
  match p with
  | PData p | PRelayData p => is_bytes (encrypted_encapsulated_packet p)
  | _ => True
  end.

Lemma receive_total s (p : data) n :
  sound_session s → data_ok p → is_bytes (encrypted_encapsulated_packet p) →
  (length (encrypted_encapsulated_packet p) ≤ n)%nat →
  ∃ r s', receive_packet_data s p n = Some (r, s') ∧ sound_session s' ∧
    ∀ m, r = Ok m → is_bytes m ∧ (length m + AEAD_SIZE = length (encrypted_encapsulated_packet p))%nat.
Proof.
  intros [got Hg] (_ & Hc & Hlen) Hb Hn. unfold receive_packet_data.
  rewrite (proj2 (Nat.ltb_ge _ _)) by done.
  assert (sound_session s) as Hs by by exists got.
  destruct (negb _); [by eexists _, s|].
  destruct (Z.leb_spec REJECT_AFTER_MESSAGES (counter p)) as [|Hlt]; [by eexists _, s|].
  destruct (receiving_counter_quick_check s (counter p)); [|by eexists _, s].
  rewrite (proj2 (Nat.ltb_ge _ _)) by done. set (ct := encrypted_encapsulated_packet p) in *.
  destruct (aead_open _ _ _ _) as [m|] eqn:Ho; [|by eexists _, s].
  destruct (counter_bounds (counter p)) as [_ Hw]; [apply Hc|done|].
  destruct (receiving_counter_mark_spec s got (counter p) Hg) as (r & s' & -> & Hr & _); [apply Hc|done|].
  cbn [mbind option_bind]. destruct r as [[]|e].
  - eexists _, s'. split; [done|]. split; [by eexists; apply Hr|]. intros ? [= <-].
    split; [eapply chacha_open_bytes; [exact Ho|by apply Forall_take]|].
    apply chacha_open_length in Ho. rewrite Ho, length_take. unfold AEAD_SIZE in *. lia.
  - eexists _, s'. split; [done|]. split; [|done]. destruct Hr as (_ & -> & _). done.
Qed.

Lemma decrypt_total time t (p : data) dst :
  sound t → data_ok p → is_bytes (encrypted_encapsulated_packet p) →
  (length (encrypted_encapsulated_packet p) ≤ length dst)%nat →
  ∃ r t', decrypt_raw_data t p dst = Some (r, t') ∧ handled time t t' ∧
    ∀ m, r = Ok m → is_bytes m ∧ (length m + AEAD_SIZE = length (encrypted_encapsulated_packet p))%nat.
Proof.
  intros Ht Hok Hb Hd. unfold decrypt_raw_data. pose proof (handled_refl time t Ht) as Hr.
  destruct (session_at t (data_receiver_idx p)) as [s|] eqn:Hs; [|by eexists _, t].
  destruct (receive_total s p (length dst) (sound_sessions t Ht _ _ Hs) Hok Hb Hd) as (r & s' & -> & Hs' & Hm).
  cbn [mbind option_bind]. destruct r as [m|e]; eexists _, _; (split; [done|]); split; auto 8 with handled.
Qed.

Lemma open_total n key c d aad :
  length d = (n + 16)%nat → ∃ r, aead_chacha20_open n key c d aad = Some r.
Proof.
  intros Hd. unfold aead_chacha20_open. rewrite (proj2 (Nat.ltb_ge _ _)) by lia.
  rewrite decide_True by (rewrite length_take; lia).
  destruct (chacha_open _ _ _ _ _); by eexists.
Qed.

(** A handshake that still allocates indexes of the same peer. *)
Definition same_peer (h h' : handshake) : Prop :=
  in_width 32 (next_local_index h') ∧ params h' = params h.

Lemma receive_initiation_total h p mac dst e :
  in_width 32 (next_local_index h) → packet_ok (PHandshakeInit p) mac →
  (HANDSHAKE_RESP_SZ ≤ length dst)%nat →
  ∃ r h', receive_handshake_initialization h p dst e = Some (r, h') ∧ same_peer h h' ∧
    ∀ m s, r = Ok (m, s) → fresh s ∧ length m = HANDSHAKE_RESP_SZ.
Proof.
  intros Hw (_ & _ & Hst & Hts & _) Hd. unfold receive_handshake_initialization.
  assert (same_peer h h) as Hh by done.
  destruct (open_total KEY_LEN (mix_key (mix INITIAL_CHAIN_KEY (init_unencrypted_ephemeral p))
    (diffie_hellman (static_private (params h)) (init_unencrypted_ephemeral p))) 0 (encrypted_static p)
    (b2s_hash (b2s_hash INITIAL_CHAIN_HASH (static_public (params h))) (init_unencrypted_ephemeral p)))
    as (r1 & ->); [done|]. cbn [mbind option_bind].
  destruct r1 as [key|]; [|by eexists _, h]. destruct (negb _); [by eexists _, h|].
  match goal with |- context [aead_chacha20_open TIMESTAMP_LEN ?k 0 _ ?a] =>
    destruct (open_total TIMESTAMP_LEN k 0 (encrypted_timestamp p) a) as (r2 & ->); [done|] end.
  cbn [mbind option_bind]. destruct r2 as [stamp|]; [|by eexists _, h].
  destruct (negb _); [by eexists _, h|].
  match goal with |- context [format_handshake_response ?x dst e] => set (h1 := x) end.
  pose proof (format_response_spec h1 dst e _ _ _ _ Hd eq_refl) as Hf. cbv zeta in Hf.
  destruct (resp_transcript _ _ _ _ _) as [[en k2] k3]. destruct Hf as (msg & Henc & Hlen & ->).
  eexists _, _. split; [done|]. split; [split; [by apply (allocate_width h)|done]|].
  apply (f_equal length) in Henc. rewrite length_app, Hlen, length_macs in Henc. revert Henc.
  generalize (encode_packet (PHandshakeResponse (HandshakeResponse (next_local_index h1)
    (init_sender_idx p) (public_from e) en)) (macs (allocate_local_index
    (set_states (previous h1) NoHandshake h1)).2 msg)).
  intros pkt Hpkt m s [= <- <-]. split; [apply fresh_new|done].
Qed.

Lemma receive_response_total h p mac now :
  in_width 32 (next_local_index h) → packet_ok (PHandshakeResponse p) mac →
  ∃ r h', receive_handshake_response h p now = Some (r, h') ∧ same_peer h h' ∧
    ∀ s, r = Ok s → fresh s.
Proof.
  intros Hw (_ & _ & _ & Hn & _). unfold receive_handshake_response.
  destruct (awaiting h p) as [[st cur]|]; [|by eexists _, h].
  match goal with |- context [aead_chacha20_open 0 ?k 0 _ ?a] =>
    destruct (open_total 0 k 0 (encrypted_nothing p) a) as (r & ->); [done|] end.
  cbn [mbind option_bind]. destruct r as [x|]; [|by eexists _, h].
  eexists _, _. split; [done|]. split; [by destruct cur|]. intros s [= <-]. apply fresh_new.
Qed.

Lemma receive_cookie_total h p mac :
  in_width 32 (next_local_index h) → packet_ok (PCookieReply p) mac →
  ∃ r h', receive_cookie_reply h p = Some (r, h') ∧ same_peer h h'.
Proof.
  intros Hw (_ & _ & Hc & _). unfold receive_cookie_reply.
  destruct (last_mac1 (hs_cookies h)); [|by eexists _, h]. destruct (negb _); [by eexists _, h|].
  rewrite Hc. cbn [Nat.ltb Nat.leb Nat.sub]. rewrite decide_True by done.
  destruct (xchacha_open _ _ _ _ _); by eexists _, _.
Qed.

(** What may come of a packet: an answer that fits in an initiation's size, or
    an IP packet that a session decrypted. *)
Definition answered (t : tunn) (p : packet) (dst : bytes) (r : tunn_result) : Prop :=
  r = Done ∨ (∃ e, r = TunnErr e) ∨
  (∃ m, r = WriteToNetwork m ∧ (length m ≤ HANDSHAKE_INIT_SZ)%nat) ∨
  ∃ pd plain t1 m a, p = PData pd ∧ decrypt_raw_data t pd dst = Some (Ok plain, t1) ∧
    r = to_interface m a ∧ m `prefix_of` plain ∧ src_address plain = Some (Some a) ∧ ip_addr_valid a.

Lemma handle_init_total time t p mac dst e :
  sound t → packet_ok (PHandshakeInit p) mac → (HANDSHAKE_INIT_SZ ≤ length dst)%nat →
  ∃ r t', handle_handshake_init t p dst e = Some (r, t') ∧ handled time t t' ∧
    ∀ x, r = Ok x → ∃ m, x = WriteToNetwork m ∧ (length m ≤ HANDSHAKE_INIT_SZ)%nat.
Proof.
  intros Ht Hok Hd. unfold handle_handshake_init. pose proof (sound_wf t Ht) as Hwf.
  destruct (receive_initiation_total (hs t) p mac dst e) as (r & h & -> & [Hw Hp] & Hr);
    [apply Hwf|done|unfold HANDSHAKE_INIT_SZ, HANDSHAKE_RESP_SZ in *; lia|].
  cbn [mbind option_bind]. pose proof (handled_set_hs time h t Hw Hp Ht) as Hh.
  destruct r as [[m s]|er]; [|by eexists _, _]. destruct (Hr m s eq_refl) as [Hs Hm].
  apply sound_fresh in Hs. eexists _, _. split; [done|]. split; [auto 10 with handled|].
  intros x [= <-]. exists m. split; [done|]. rewrite Hm. unfold HANDSHAKE_INIT_SZ, HANDSHAKE_RESP_SZ. lia.
Qed.

Lemma handle_response_total time t p mac dst :
  sound t → packet_ok (PHandshakeResponse p) mac → (HANDSHAKE_INIT_SZ ≤ length dst)%nat →
  ∃ r t', handle_handshake_response t p dst time = Some (r, t') ∧ handled time t t' ∧
    ∀ x, r = Ok x → ∃ m, x = WriteToNetwork m ∧ (length m ≤ HANDSHAKE_INIT_SZ)%nat.
Proof.
  intros Ht Hok Hd. unfold handle_handshake_response. pose proof (sound_wf t Ht) as Hwf.
  destruct (receive_response_total (hs t) p mac time) as (r & h & -> & [Hw Hp] & Hr); [apply Hwf|done|].
  cbn [mbind option_bind]. pose proof (handled_set_hs time h t Hw Hp Ht) as Hh.
  destruct r as [s|er]; [|by eexists _, _]. pose proof (Hr s eq_refl) as [Hg Hc].
  unfold format_packet_data. rewrite format_spec
    by (unfold HANDSHAKE_INIT_SZ, DATA_OFFSET, AEAD_SIZE in *; simpl; lia).
  rewrite Hc. change (REJECT_AFTER_MESSAGES <=? 0) with false. cbn [mbind option_bind].
  set (s' := Session _ _ _ _ _ _). set (keep := to_le_bytes 4 DATA ++ _).
  assert (sound_session s') as Hs' by (by exists []).
  eexists _, _. split; [done|]. split; [auto 10 with handled|].
  intros x Hx%(f_equal (λ r, match r with Ok x => x | Err _ => Done end)). exists keep.
  split; [done|]. unfold keep. rewrite !length_app, !length_to_le_bytes.
  rewrite aead_length, aead_tag_length. unfold HANDSHAKE_INIT_SZ. simpl. lia.
Qed.

Lemma handle_cookie_total time t p mac :
  sound t → packet_ok (PCookieReply p) mac →
  ∃ r t', handle_cookie_reply t p = Some (r, t') ∧ handled time t t' ∧ ∀ x, r = Ok x → x = Done.
Proof.
  intros Ht Hok. unfold handle_cookie_reply. pose proof (sound_wf t Ht) as Hwf.
  destruct (receive_cookie_total (hs t) p mac) as (r & h & -> & [Hw Hp]); [apply Hwf|done|].
  cbn [mbind option_bind]. pose proof (handled_set_hs time h t Hw Hp Ht) as Hh.
  destruct r as [s|er]; [|by eexists _, _]. eexists _, _. split; [done|].
  split; [auto 10 with handled|by intros x [= <-]].
Qed.

Lemma handle_data_total time t p dst :
  sound t → data_ok p → is_bytes (encrypted_encapsulated_packet p) →
  (length (encrypted_encapsulated_packet p) ≤ length dst)%nat →
  ∃ r t', handle_data t p dst = Some (r, t') ∧ handled time t t' ∧
    ∀ x, r = Ok x → answered t (PData p) dst x.
Proof.
  intros Ht Hok Hb Hd. unfold handle_data.
  destruct (decrypt_total time t p dst Ht Hok Hb Hd) as (r & t1 & Hdec & Hh & Hm). rewrite Hdec.
  cbn [mbind option_bind]. destruct r as [plain|e]; [|by eexists _, t1].
  destruct (Hm plain eq_refl) as [Hpb _].
  destruct (validate_spec t1 plain Hpb) as (r & t2 & -> & Hr & _). cbn [mbind option_bind].
  eexists _, t2. split; [done|].
  destruct Hr as [(-> & _ & ->)|[(-> & _ & -> & _)|(a & n & -> & _ & Hsrc & _ & ->)]].
  - split; [done|]. intros x [= <-]. by left.
  - split; [done|]. intros x [= <-]. right; left. by eexists.
  - split; [auto 10 with handled|]. intros x [= <-]. right; right; right.
    exists p, plain, t1, (take n plain), a. split_and!; try done.
    + apply prefix_take.
    + destruct (address_at_total IPV4_SRC_IP_OFF IPV6_SRC_IP_OFF plain) as (s & Hs & Hv);
        [by vm_compute; lia|by vm_compute; lia|done|].
      unfold src_address in Hsrc. rewrite Hsrc in Hs. injection Hs as <-. by apply Hv.
Qed.

(** No packet panics a sound tunnel. *)
Lemma handle_verified_total time t p dst e :
  sound t → from_network p → (HANDSHAKE_INIT_SZ ≤ length dst)%nat →
  (∀ pd, p = PData pd → (length (encrypted_encapsulated_packet pd) ≤ length dst)%nat) →
  ∃ r t', handle_verified_packet t p dst time e = Some (r, t') ∧ handled time t t' ∧ answered t p dst r.
Proof.
  intros Ht [[mac Hok] Hb] Hd Hlen. unfold handle_verified_packet. unfold answered.
  destruct p as [p|p|p|p|p].
  - destruct (handle_init_total time t p mac dst e Ht Hok Hd) as ([x|er] & t' & -> & Hh & Hx);
      cbn [mbind option_bind]; eexists _, t'; (split; [done|]); (split; [done|]); eauto.
  - destruct (handle_response_total time t p mac dst Ht Hok Hd) as ([x|er] & t' & -> & Hh & Hx);
      cbn [mbind option_bind]; eexists _, t'; (split; [done|]); (split; [done|]); eauto.
  - destruct (handle_cookie_total time t p mac Ht Hok) as ([x|er] & t' & -> & Hh & Hx);
      cbn [mbind option_bind]; eexists _, t'; (split; [done|]); (split; [done|]); eauto.
  - destruct Hok as [Hok _].
    destruct (handle_data_total time t p dst Ht Hok Hb (Hlen p eq_refl)) as ([x|er] & t' & -> & Hh & Hx);
      cbn [mbind option_bind]; eexists _, t'; (split; [done|]); (split; [done|]); eauto.
    by apply Hx.
  - eexists _, t. split; [done|]. split; [by apply handled_refl|]. eauto.
Qed.

(** ** The queue *)

Context {P : Type} `{Q : packet_pool_laws P}.
Implicit Types (pool : P).

Lemma drop_expired_step q pool hdls now msg :
  pool_inv pool → linked (live pool) q hdls →
  ∃ n q' pool' hdls', drop_expired_queued_packets q now pool = Some (n, q', pool') ∧
    pool_step pool hdls msg q' pool' hdls'.
Proof.
  intros Hinv Hlk. destruct (drop_expired_spec q pool hdls now Hinv Hlk)
    as (q' & pool' & -> & Hinv' & Hlk' & Hpay & Hfr & _).
  eexists _, q', pool', _. split; [done|]. split; try done.
  - intros h x Hh Hx. split; [by intros ?%kept_elem|]. by rewrite Hfr.
  - rewrite Hpay. intros x [_ Hx]%list_elem_of_filter. by left.
Qed.

Lemma flush_total time t pool hdls dst msg :
  sound t → pool_inv pool → linked (live pool) (packets t) hdls →
  (∀ x, x ∈ payloads (live pool) hdls → (DATA_OFFSET + padded_len x.2 + AEAD_SIZE ≤ length dst)%nat) →
  ∃ r t' pool' hdls', flush_queued_packet t pool dst = Some (r, t', pool') ∧
    quiet time t t' ∧ pool_step pool hdls msg (packets t') pool' hdls' ∧
    (r = Done ∨ ∃ m x, r = WriteToNetwork m ∧ x ∈ payloads (live pool) hdls ∧
      length m = (DATA_OFFSET + padded_len x.2 + AEAD_SIZE)%nat).
Proof.
  intros Ht Hinv Hlk Hfit. pose proof (sound_wf t Ht) as Hwf. unfold flush_queued_packet.
  destruct (dequeue_spec (packets t) pool hdls Hinv Hlk) as (q1 & pool1 & Hinv1 & Hfr1 & Hd).
  destruct hdls as [|h hdls].
  { destruct Hd as (-> & -> & ->). cbn [mbind option_bind]. eexists _, _, pool, []. split; [done|].
    split; [by apply quiet_set_packets|]. split; [by apply pool_step_refl|by left]. }
  destruct Hd as (-> & Hlk1 & Hpay1 & Hh). cbn [mbind option_bind].
  pose proof (linked_NoDup _ _ _ Hlk) as [Hnin _]%NoDup_cons.
  destruct (linked_live _ _ _ h Hlk ltac:(by left)) as [x0 Hx0].
  rewrite Hx0 in Hh. destruct (live pool1 !! h) as [x|] eqn:Hx; [|done].
  apply (inj Some) in Hh. rewrite (get_law pool1 h x) by done. cbn [mbind option_bind].
  assert (payload x ∈ payloads (live pool) (h :: hdls)) as Hin.
  { apply elem_of_payloads. exists h. split; [by left|]. rewrite Hx0, Hh. done. }
  pose proof (Hfit _ Hin) as Hd. cbn [payload snd] in Hd.
  pose proof (quiet_set_packets time q1 t Hwf) as Hq1. set (t1 := set_packets q1 t) in *.
  assert (∀ y, y ∈ payloads (live pool1) hdls → y ∈ payloads (live pool) (h :: hdls)) as Hsub.
  { intros y. rewrite Hpay1, payloads_cons. destruct (payload <$> _); [by right|done]. }
  destruct (encrypt_current_safe t1 time (q_type x) (q_data x) (length dst) (quiet_wf _ _ _ Hq1) Hd)
    as (w & t2 & -> & Hq2 & Hp2 & _ & Hw). cbn [mbind option_bind].
  pose proof (quiet_trans _ _ _ _ Hq1 Hq2) as Hq. pose proof (quiet_wf _ _ _ Hq) as Hwf2. destruct w as [w|].
  - destruct (free_law pool1 h x Hinv1 Hx) as (pool2 & Hfree & Hinv2 & Hlive2).
    pose proof (quiet_tick time TimeLastPacketSent t2 ltac:(done) Hwf2) as Hq3.
    set (t3 := timer_tick TimeLastPacketSent t2) in *.
    set (t4 := match q_data x with [] => t3 | _ => timer_tick TimeLastDataPacketSent t3 end).
    assert (quiet time t3 t4 ∧ packets t4 = packets t2) as [Hq4 Hp4].
    { unfold t4. pose proof (quiet_wf _ _ _ Hq3).
      destruct (q_data x); (split; [by (apply quiet_refl || apply quiet_tick)|done]). }
    pose proof (quiet_add_counts time (Z.of_nat (length (q_data x))) 0 1 0 _ (quiet_wf _ _ _ Hq4)) as Hq5.
    rewrite Hfree. cbn [mbind option_bind]. eexists _, _, pool2, hdls. split; [done|].
    assert (∀ h', h' ≠ h → live pool2 !! h' = live pool1 !! h') as Hfr2
      by (intros h' Hne; by rewrite Hlive2, lookup_delete_ne).
    split; [eauto using quiet_trans|]. split.
    + split; [done| | |].
      * simpl. rewrite Hp4, Hp2. eapply linked_frame; [|exact Hlk1]. intros h' Hh'. apply Hfr2. by intros ->.
      * intros h' y Hh' Hy. apply not_elem_of_cons in Hh' as [Hne Hh']. split; [done|].
        rewrite Hfr2 by done. rewrite Hfr1; [done|]. by apply not_elem_of_cons.
      * intros y Hy. left. apply Hsub. revert Hy.
        rewrite (payloads_frame (live pool1)); [done|]. intros h' Hh'. rewrite Hfr2; [done|]. by intros ->.
    + right. exists w, (payload x). split_and!; [done|done|]. by apply Hw.
  - rewrite Hp2. change (packets t1) with q1.
    destruct (requeue_spec q1 pool1 hdls h x Hinv1 Hlk1 Hx Hnin) as (q3 & pool3 & -> & Hinv3 & Hfr3 & Hr).
    cbn [mbind option_bind].
    assert (∃ hdls', linked (live pool3) q3 hdls' ∧ (∀ k, k ∈ hdls' → k ∈ h :: hdls) ∧
      ∀ y, y ∈ payloads (live pool3) hdls' → y ∈ payloads (live pool) (h :: hdls)) as (hdls' & Hlk3 & Hk & Hp3).
    { destruct (_ <=? _)%nat.
      - destruct Hr as (? & Hpay3 & _). exists hdls. split_and!; [done|by right|]. rewrite Hpay3. apply Hsub.
      - destruct Hr as (? & Hpay3). exists (h :: hdls). split_and!; [done|done|]. rewrite Hpay3.
        intros y [->|Hy]%elem_of_cons; [done|by apply Hsub]. }
    eexists _, _, pool3, hdls'. split; [done|].
    split; [eapply quiet_trans; [exact Hq|by apply quiet_set_packets]|]. split; [|by left].
    split; [done|done| |by left; apply Hp3].
    intros h' y Hh' Hy. split; [by intros ?%Hk|]. rewrite Hfr3 by done. by rewrite Hfr1.
Qed.
End handlers.

Lemma toy_open_laws : @noise_open_laws toy_noise.
Proof. split; intros k n c t ad m; simpl; case_decide; by intros [= ->]. Qed.
