(* ===== verification/PeerTable.v ===== *)
(** * The peers of a device: [PeerState] and [Peer] in [tendrilix/src/device.rs]

    The three tables a device keeps about its peers (by public key, by allowed
    IP, by index), the operations that add, update and remove a peer, and their
    invariant: the table of routes is exactly the union of the allowed IPs of
    the peers, which never overlap, and the index table is their inverse. A
    capacity is [None] with the [alloc] feature. *)

From S2P Require Import Prelude IpNet AllowedIps IpPacket Index Timestamper Bounded PacketPool PacketQueue.
From S2P Require Import Handshake Timers Tunn.

(** The order in which a hash map yields its keys is not specified: it is a
    parameter. *)
Class map_order := { keys_in_order {A : Type} : gmap bytes A → list bytes }.
Class map_order_laws `{map_order} := {
  keys_in_order_perm {A : Type} (m : gmap bytes A) : keys_in_order m ≡ₚ (map_to_list m).*1
}.

(** [MAX_PEERS] and [MAX_ALLOWED_IPS_PER_PEER] of [lib.rs]. *)
Record limits := Limits { max_peers : capacity; max_allowed_ips_per_peer : capacity }.

(** [MAX_PEERS * MAX_ALLOWED_IPS_PER_PEER] *)
Definition max_routes (lim : limits) : capacity :=
  match max_peers lim, max_allowed_ips_per_peer lim with
  | Some n, Some m => Some (n * m)%nat
  | _, _ => None
  end.

Inductive error : Type := Io | PeerAlreadyExists | PeerNotFound | AllowedIPOverlap | Capacity.

Record peer_config := PeerConfig {
  config_public_key : bytes;
  config_endpoint : option socket_addr;
  config_allowed_ips : list ip_net;
  config_keepalive : option Z;
  config_relay : option bytes
}.

Record peer := Peer {
  tunnel : tunn;
  index : Z;
  endpoint : option socket_addr;
  relay : option bytes;
  peer_allowed_ips : allowed_ips unit
}.

Record peer_state := PeerState {
  peers : gmap bytes peer;
  peers_by_ip : allowed_ips bytes;
  peers_by_idx : gmap Z bytes
}.

(** Assignments to one field. *)
Definition set_tunnel (t : tunn) (p : peer) : peer :=
  Peer t (index p) (endpoint p) (relay p) (peer_allowed_ips p).
Definition set_endpoint (a : socket_addr) (p : peer) : peer :=
  Peer (tunnel p) (index p) (Some a) (relay p) (peer_allowed_ips p).
Definition set_peers (m : gmap bytes peer) (s : peer_state) : peer_state :=
  PeerState m (peers_by_ip s) (peers_by_idx s).
Definition set_routes (r : allowed_ips bytes) (s : peer_state) : peer_state :=
  PeerState (peers s) r (peers_by_idx s).

Section peer_state.
Context `{N : noise_crypto} `{order : map_order} (lim : limits).
Implicit Types (s : peer_state).

Definition peer_state_new : peer_state := PeerState ∅ Table.new ∅.

Definition peer_by_key s (public_key : bytes) : option peer := peers s !! public_key.

Definition peer_key_by_index s (index : Z) : option bytes := peers_by_idx s !! Z.shiftr index 8.

(** Any failure of the table is a lack of room. *)
Definition allowed_ips_from_slice (l : list ip_net) : option (result (allowed_ips unit) error) :=
  let! r := Table.try_from_iter (max_allowed_ips_per_peer lim) (map (λ ip, (ip, tt)) l) in
  match r with
  | Ok t => Some (Ok t)
  | Err _ => Some (Err Capacity)
  end.

Definition is_allowed_ip (p : peer) (addr : ip_addr) : option bool :=
  let! r := Table.find (peer_allowed_ips p) addr in
  Some (bool_decide (is_Some r)).

Definition peer_new (t : tunn) (index : Z) (endpoint : option socket_addr) (ips : list ip_net)
    (relay : option bytes) : option (result peer error) :=
  let! r := allowed_ips_from_slice ips in
  match r with
  | Ok ips => Some (Ok (Peer t index endpoint relay ips))
  | Err e => Some (Err e)
  end.

Definition insert_peer_storage s (public_key : bytes) (index : Z) (p : peer)
    : result unit error * peer_state :=
  match try_insert_entry (max_peers lim) (peers s) public_key p with
  | Err _ => (Err Capacity, s)
  | Ok m =>
      match try_insert_entry (max_peers lim) (peers_by_idx s) index public_key with
      | Err _ => (Err Capacity, set_peers (delete public_key m) s)
      | Ok by_idx => (Ok tt, PeerState m (peers_by_ip s) by_idx)
      end
  end.

Definition remove_peer_storage s (public_key : bytes) : bool * peer_state :=
  match peers s !! public_key with
  | None => (false, s)
  | Some p =>
      (true, PeerState (delete public_key (peers s)) (peers_by_ip s)
        (delete (index p) (peers_by_idx s)))
  end.

(** The loop of [rebuilt_peers_by_ip_with] over the blocks of one peer. *)
Fixpoint add_routes (public_key : bytes) (l : list (unit * ip_net)) (routes : allowed_ips bytes)
    : option (result (allowed_ips bytes) error) :=
  match l with
  | [] => Some (Ok routes)
  | (_, allowed_ip) :: l =>
      match Table.overlaps routes allowed_ip with
      | Err _ => Some (Err Capacity)
      | Ok true => Some (Err AllowedIPOverlap)
      | Ok false =>
          let! '(r, routes) := Table.insert (max_routes lim) routes allowed_ip public_key in
          match r with
          | Ok _ => add_routes public_key l routes
          | Err _ => Some (Err Capacity)
          end
      end
  end.

(** The loop over the peers. *)
Fixpoint add_all_routes (l : list (bytes * allowed_ips unit)) (routes : allowed_ips bytes)
    : option (result (allowed_ips bytes) error) :=
  match l with
  | [] => Some (Ok routes)
  | (public_key, ips) :: l =>
      let! ips := Table.iter ips in
      let! r := add_routes public_key ips routes in
      match r with
      | Ok routes => add_all_routes l routes
      | Err e => Some (Err e)
      end
  end.

(** The peers in iteration order, with the updated blocks for one of them; when
    it is not among them it comes last. *)
Definition updated_ips s (updated_public_key : bytes) (ips : allowed_ips unit)
    : list (bytes * allowed_ips unit) :=
  omap (λ k, p ← peers s !! k;
    Some (k, if decide (k = updated_public_key) then ips else peer_allowed_ips p))
    (keys_in_order (peers s)) ++
  (if decide (is_Some (peers s !! updated_public_key)) then [] else [(updated_public_key, ips)]).

Definition rebuilt_peers_by_ip_with s (updated_public_key : bytes) (ips : allowed_ips unit)
    : option (result (allowed_ips bytes) error) :=
  add_all_routes (updated_ips s updated_public_key ips) Table.new.

(** The keys, as many as fit. *)
Fixpoint collect_keys (l : list bytes) (keys : gset bytes) : gset bytes :=
  match l with
  | [] => keys
  | k :: l =>
      match try_insert_key (max_peers lim) keys k with
      | Ok keys => collect_keys l keys
      | Err _ => keys
      end
  end.

Definition peer_keys s : gset bytes := collect_keys (keys_in_order (peers s)) ∅.

(** One turn of the loop of [drop_expired_packet_queues]. *)
Definition drop_expired_queue {P} `{packet_pool P} (now : Z) (st : option (nat * peer_state * P))
    (key : bytes) : option (nat * peer_state * P) :=
  let! '(dropped, s, pool) := st in
  match peers s !! key with
  | None => Some (dropped, s, pool)
  | Some p =>
      let! '(n, q, pool) := drop_expired_queued_packets (packets (tunnel p)) now pool in
      Some ((dropped + n)%nat,
        set_peers (<[key := set_tunnel (set_packets q (tunnel p)) p]> (peers s)) s, pool)
  end.

Definition drop_expired_packet_queues {P} `{packet_pool P} s (pool : P) (now : Z)
    : option (nat * peer_state * P) :=
  foldl (drop_expired_queue now) (Some (0%nat, s, pool)) (keys_in_order (peers s)).

Definition add_peer_to_state s (config : peer_config) (private_key : bytes) (g : index_generator)
    (stamper : time_stamper) (now : Z) : option (result unit error * peer_state * index_generator) :=
  if bool_decide (is_Some (peer_by_key s (config_public_key config))) then
    Some (Err PeerAlreadyExists, s, g)
  else
    let! '(index, g) := new_index g in
    let t := tunn_new private_key (config_public_key config) (config_keepalive config) index stamper now in
    let! p := peer_new t index (config_endpoint config) (config_allowed_ips config) (config_relay config) in
    match p with
    | Err e => Some (Err e, s, g)
    | Ok p =>
        let public_key := config_public_key config in
        let! r := rebuilt_peers_by_ip_with s public_key (peer_allowed_ips p) in
        match r with
        | Err e => Some (Err e, s, g)
        | Ok routes =>
            match insert_peer_storage s public_key index p with
            | (Err e, s) => Some (Err e, s, g)
            | (Ok _, s) => Some (Ok tt, set_routes routes s, g)
            end
        end
    end.

Definition update_peer_in_state s (config : peer_config) : option (result unit error * peer_state) :=
  match peer_by_key s (config_public_key config) with
  | None => Some (Err PeerNotFound, s)
  | Some p =>
      let! r := allowed_ips_from_slice (config_allowed_ips config) in
      match r with
      | Err e => Some (Err e, s)
      | Ok ips =>
          let! r := rebuilt_peers_by_ip_with s (config_public_key config) ips in
          match r with
          | Err e => Some (Err e, s)
          | Ok routes =>
              let t := on_timers (set_persistent_keepalive (config_keepalive config)) (tunnel p) in
              let p := Peer t (index p) (config_endpoint config) (config_relay config) ips in
              Some (Ok tt, set_routes routes
                (set_peers (<[config_public_key config := p]> (peers s)) s))
          end
      end
  end.

Definition remove_peer_from_state s (pub_key : bytes) : peer_state :=
  let '(removed, s) := remove_peer_storage s pub_key in
  if (removed : bool) then set_routes (Table.remove (λ k, bool_decide (k = pub_key)) (peers_by_ip s)) s
  else s.
End peer_state.

(** ** Routes as a list of blocks *)

(** The effect of the two nested loops on the blocks they visit, in order. *)
Fixpoint add_blocks (lim : limits) (bs : list (bytes * ip_net)) (routes : allowed_ips bytes)
    : option (result (allowed_ips bytes) error) :=
  match bs with
  | [] => Some (Ok routes)
  | (k, n) :: bs =>
      match Table.overlaps routes n with
      | Err _ => Some (Err Capacity)
      | Ok true => Some (Err AllowedIPOverlap)
      | Ok false =>
          let! '(r, routes) := Table.insert (max_routes lim) routes n k in
          match r with
          | Ok _ => add_blocks lim bs routes
          | Err _ => Some (Err Capacity)
          end
      end
  end.

Lemma add_blocks_app lim bs bs' t :
  add_blocks lim (bs ++ bs') t =
    (let! r := add_blocks lim bs t in
     match r with Ok t => add_blocks lim bs' t | Err e => Some (Err e) end).
Proof.
  revert t; induction bs as [|[k n] bs IH]; intros t; [done|]. cbn [app add_blocks].
  destruct (Table.overlaps t n) as [[]|]; [done| |done].
  destruct (Table.insert _ t n k) as [[[] t']|]; cbn [mbind option_bind]; auto.
Qed.

Lemma add_routes_blocks lim key l t :
  add_routes lim key l t = add_blocks lim (map (λ dn, (key, dn.2)) l) t.
Proof.
  revert t; induction l as [|[[] n] l IH]; intros t; [done|]. cbn [add_routes map add_blocks snd].
  destruct (Table.overlaps t n) as [[]|]; [done| |done].
  destruct (Table.insert _ t n key) as [[[] t']|]; cbn [mbind option_bind]; auto.
Qed.

(** The blocks of a list of tables. *)
Definition blocks_of (l : list (bytes * allowed_ips unit)) : list (bytes * ip_net) :=
  k_t ← l; (λ dn, (k_t.1, dn.2)) <$> default [] (Table.iter k_t.2).

Lemma add_all_routes_blocks lim l t :
  Forall (λ kt, Table.wf kt.2) l → add_all_routes lim l t = add_blocks lim (blocks_of l) t.
Proof.
  intros Hl. revert t; induction Hl as [|[k ips] l Hwf Hl IH]; intros t; [done|].
  cbn [add_all_routes]. destruct (iter_total ips Hwf) as (bs & Hbs & _).
  unfold blocks_of. cbn [mbind list_bind fst snd]. cbn in Hbs. rewrite Hbs. cbn [mbind option_bind default].
  rewrite add_blocks_app, add_routes_blocks.
  change (map (λ dn, (k, dn.2)) bs) with ((λ dn : unit * ip_net, (k, dn.2)) <$> bs).
  destruct (add_blocks lim _ t) as [[t'|e]|]; [|done..]. apply IH.
Qed.

(** A common address of two blocks. *)
Definition share (n n' : ip_net) : Prop :=
  ∃ a, ip_addr_valid a ∧ Table.contains n a = true ∧ Table.contains n' a = true.

(** No address belongs to two blocks. *)
Definition routes_disjoint {D} (m : gmap ip_net D) : Prop :=
  ∀ n n' d d', m !! n = Some d → m !! n' = Some d' → share n n' → n = n'.

Lemma share_sym n n' : share n n' → share n' n.
Proof. intros (a & ? & ? & ?). by exists a. Qed.

(** A block contains its own network address. *)
Lemma share_refl n : ip_net_valid n → Table.normalize n = n → share n n.
Proof.
  intros Hv Hn. exists (ip_net_network n). split; [by apply ip_net_network_valid|].
  assert (Table.contains n (ip_net_network n) = true); [|done].
  destruct n as [m|m]; simpl; apply Z.eqb_eq.
  - unfold ipv4_network. by rewrite <- Z.land_assoc, Z.land_diag.
  - unfold ipv6_network. by rewrite <- Z.land_assoc, Z.land_diag.
Qed.

Definition block_ok (n : ip_net) : Prop := ip_net_valid n ∧ Table.normalize n = n.

Lemma add_blocks_spec lim bs t :
  Table.wf t → routes_disjoint (Table.contents t) → Forall (λ b, block_ok b.2) bs →
  ∃ r, add_blocks lim bs t = Some r ∧
  match r with
  | Ok t' =>
      Table.wf t' ∧ routes_disjoint (Table.contents t') ∧
      ∀ n k, Table.contents t' !! n = Some k ↔ Table.contents t !! n = Some k ∨ (k, n) ∈ bs
  | Err AllowedIPOverlap =>
      ∃ i k n k' n', bs !! i = Some (k, n) ∧ share n n' ∧
        (Table.contents t !! n' = Some k' ∨ ∃ j, (j < i)%nat ∧ bs !! j = Some (k', n'))
  | Err Capacity =>
      ∃ n, (Trie.node_limit (max_routes lim) < length (family_nodes t n) + 2 * length bs)%nat
  | Err _ => False
  end.
Proof.
  revert t; induction bs as [|[k n] bs IH]; intros t Hwf Hd Hbs.
  { exists (Ok t). split; [done|]. split_and!; [done|done|]. intros n k. set_solver. }
  apply Forall_cons in Hbs as [[Hv Hn] Hbs]. cbn [snd] in Hv, Hn. cbn [add_blocks].
  destruct (overlaps_total t n Hwf Hv) as (b & -> & Hb). destruct b.
  { eexists. split; [done|]. destruct (proj1 Hb eq_refl) as (n' & k' & a & Hn' & Ha & H1 & H2).
    exists 0%nat, k, n, k', n'. split; [done|]. split; [by exists a|]. by left. }
  assert (∀ n' k', Table.contents t !! n' = Some k' → ¬ share n n') as Hfree.
  { intros n' k' Hn' (a & Ha & H1 & H2). assert (false = true) as [=].
    apply Hb. by exists n', k', a. }
  destruct (insert_total (max_routes lim) t n k Hwf Hv) as (r & t' & -> & Hr). cbn [mbind option_bind].
  destruct r as [old|e].
  2: { eexists. split; [done|]. exists n. destruct Hr as (_ & _ & Hlim). simpl. lia. }
  destruct Hr as (Hwf' & Hold & Hc & Hlen). rewrite Hn in Hc.
  assert (Table.contents t !! n = None) as Hnone.
  { destruct (Table.contents t !! n) as [k'|] eqn:E; [|done]. exfalso.
    by apply (Hfree n k' E), share_refl. }
  assert (∀ n' k', Table.contents t' !! n' = Some k' ↔ Table.contents t !! n' = Some k' ∨ (n' = n ∧ k' = k)) as Hc'.
  { intros n' k'. rewrite Hc, lookup_insert_Some. destruct (decide (n = n')) as [<-|]; naive_solver. }
  destruct (IH t' Hwf') as (r & -> & Hr); [|done|].
  { intros n1 n2 k1 k2 [H1|[-> ->]]%Hc' [H2|[-> ->]]%Hc' Hs; [by eapply Hd| | |done].
    - by destruct (Hfree n1 k1 H1 (share_sym _ _ Hs)).
    - by destruct (Hfree n2 k2 H2 Hs). }
  exists r. split; [done|]. destruct r as [t''|[]]; try done.
  - destruct Hr as (? & ? & Hr). split_and!; [done|done|]. intros n' k'.
    rewrite Hr, Hc', elem_of_cons. naive_solver.
  - destruct Hr as (i & k1 & n1 & k2 & n2 & Hi & Hs & Hr). exists (S i), k1, n1, k2, n2.
    split; [done|]. split; [done|]. destruct Hr as [[Hr|[-> ->]]%Hc'|(j & Hj & Hr)].
    + by left.
    + right. exists 0%nat. split; [lia|done].
    + right. exists (S j). split; [lia|done].
  - destruct Hr as (n' & Hlim). exists n'. specialize (Hlen n'). simpl. lia.
Qed.

(** ** The rebuilt table of routes *)

Section rebuilt.
Context `{N : noise_crypto} `{order : map_order_laws} (lim : limits).
Implicit Types (s : peer_state) (k : bytes) (n : ip_net).

(** The block [n] is allowed to the peer [k]. *)
Definition assigned s n k : Prop :=
  ∃ p, peers s !! k = Some p ∧ Table.contents (peer_allowed_ips p) !! n = Some tt.

(** The same once the peer [key] has the blocks [ips]. *)
Definition assigned_with s key (ips : allowed_ips unit) n k : Prop :=
  if decide (k = key) then Table.contents ips !! n = Some tt else assigned s n k.

Definition wf_allowed s : Prop := ∀ k p, peers s !! k = Some p → Table.wf (peer_allowed_ips p).

Lemma keys_in_order_elem {A} (m : gmap bytes A) k : k ∈ keys_in_order m ↔ is_Some (m !! k).
Proof.
  rewrite keys_in_order_perm, list_elem_of_fmap. split.
  - intros ([k' x] & -> & Hx%elem_of_map_to_list). by exists x.
  - intros [x Hx]. exists (k, x). split; [done|]. by apply elem_of_map_to_list.
Qed.

Lemma keys_in_order_NoDup {A} (m : gmap bytes A) : NoDup (keys_in_order m).
Proof. rewrite keys_in_order_perm. apply NoDup_fst_map_to_list. Qed.

Lemma updated_ips_elem s key ips k t :
  (k, t) ∈ updated_ips s key ips ↔
    if decide (k = key) then t = ips
    else ∃ p, peers s !! k = Some p ∧ t = peer_allowed_ips p.
Proof.
  unfold updated_ips. rewrite elem_of_app, list_elem_of_omap. split.
  - intros [(k' & Hk' & E)|Hk].
    + destruct (peers s !! k') as [p|] eqn:Hp; [|done]. cbn in E.
      destruct (decide (k' = key)) as [->|]; injection E as <- <-.
      * by rewrite decide_True.
      * rewrite decide_False by done. by exists p.
    + destruct (decide (is_Some (peers s !! key))); [by apply not_elem_of_nil in Hk|].
      apply list_elem_of_singleton in Hk as [= -> ->]. by rewrite decide_True.
  - case_decide as E.
    + intros ->. subst k. destruct (decide (is_Some (peers s !! key))) as [Hs|].
      * left. exists key. split; [by apply keys_in_order_elem|]. destruct Hs as [p ->]. cbn.
        by rewrite decide_True.
      * right. by apply list_elem_of_singleton.
    + intros (p & Hp & ->). left. exists k. split; [apply keys_in_order_elem; by exists p|].
      rewrite Hp. cbn. by rewrite decide_False.
Qed.

Lemma NoDup_omap_fst {A B} (f : A → option (A * B)) l :
  (∀ x y, f x = Some y → y.1 = x) → NoDup l → NoDup (omap f l).*1.
Proof.
  intros Hf. induction 1 as [|x l Hx Hl IH]; cbn; [constructor|].
  destruct (f x) as [[x' y]|] eqn:E; [|done]. cbn. apply Hf in E as E'. cbn in E'. subst x'.
  constructor; [|done]. intros ([z w] & -> & (z' & Hz' & E'')%list_elem_of_omap)%list_elem_of_fmap.
  apply Hf in E''. cbn in *. by subst z'.
Qed.

Lemma updated_ips_NoDup s key ips : NoDup (updated_ips s key ips).*1.
Proof.
  unfold updated_ips. rewrite fmap_app, NoDup_app.
  assert (∀ x y, (p ← peers s !! x; Some (x, if decide (x = key) then ips else peer_allowed_ips p)) = Some y
    → y.1 = x ∧ is_Some (peers s !! x)) as Hf.
  { intros x y. destruct (peers s !! x) as [p|]; [|done]. intros [= <-]. split; [done|by exists p]. }
  split; [|split].
  - apply NoDup_omap_fst; [by intros x y [Hxy _]%Hf|apply keys_in_order_NoDup].
  - intros k ([k' t] & -> & (z & _ & Hz)%list_elem_of_omap)%list_elem_of_fmap.
    apply Hf in Hz as [E Hs]. cbn in *. subst z. case_decide; [by intros ?%not_elem_of_nil|].
    intros ->%list_elem_of_singleton. done.
  - case_decide; cbn; [constructor|apply NoDup_singleton].
Qed.

Lemma elem_of_blocks_of l k n :
  Forall (λ kt, Table.wf kt.2) l →
  (k, n) ∈ blocks_of l ↔ ∃ t, (k, t) ∈ l ∧ Table.contents t !! n = Some tt.
Proof.
  intros Hl. unfold blocks_of. rewrite list_elem_of_bind.
  assert (∀ k' t, (k', t) ∈ l → ∃ bs, Table.iter t = Some bs ∧
    ∀ n', n' ∈ bs.*2 ↔ Table.contents t !! n' = Some tt) as Ht.
  { intros k' t Hin. rewrite Forall_forall in Hl. destruct (iter_total t (Hl _ Hin)) as (bs & Hbs & Hperm).
    exists bs. split; [done|]. intros n'. rewrite <- elem_of_map_to_list, <- Hperm, !list_elem_of_fmap. split.
    - intros ([[] x] & -> & Hx). by exists (tt, x).
    - intros ([[] x] & [= ->] & Hx). by exists (tt, x). }
  split.
  - intros ([k' t] & Hb & Hin). destruct (Ht k' t Hin) as (bs & Hbs & Hn). cbn in Hb. rewrite Hbs in Hb.
    apply list_elem_of_fmap in Hb as (dn & [= -> ->] & Hdn). exists t. split; [done|].
    apply Hn, list_elem_of_fmap. by exists dn.
  - intros (t & Hin & Hc). destruct (Ht k t Hin) as (bs & Hbs & Hn). exists (k, t). split; [|done].
    cbn. rewrite Hbs. apply Hn in Hc. apply list_elem_of_fmap in Hc as (dn & E & Hdn).
    apply list_elem_of_fmap. exists dn. split; [by rewrite E|done].
Qed.

Lemma NoDup_blocks_of l :
  Forall (λ kt, Table.wf kt.2) l → NoDup l.*1 → NoDup (blocks_of l).
Proof.
  induction 1 as [|[k t] l Hwf Hl IH]; cbn [fmap list_fmap fst]; intros Hnd; [constructor|].
  apply NoDup_cons in Hnd as [Hk Hnd].
  change (blocks_of ((k, t) :: l)) with
    (((λ dn : unit * ip_net, (k, dn.2)) <$> default [] (Table.iter t)) ++ blocks_of l).
  apply NoDup_app. split; [|split; [|by apply IH]].
  - destruct (iter_total t Hwf) as (bs & -> & Hperm). cbn.
    assert (NoDup ((λ '(d, n), (n, d)) <$> bs)) as Hbs by (rewrite Hperm; apply NoDup_map_to_list).
    apply NoDup_fmap_1 in Hbs. apply NoDup_fmap_2_strong; [|done].
    by intros [[] n] [[] n'] _ _ [= ->].
  - intros [k' n] (dn & [= -> ->] & _)%list_elem_of_fmap. rewrite elem_of_blocks_of by done.
    intros (t' & Hin & _). apply Hk, list_elem_of_fmap. by exists (k, t').
Qed.

Lemma updated_ips_wf s key ips :
  wf_allowed s → Table.wf ips → Forall (λ kt, Table.wf kt.2) (updated_ips s key ips).
Proof.
  intros Hs Hips. apply Forall_forall. intros [k t] Hkt%updated_ips_elem.
  case_decide; [by subst|]. destruct Hkt as (p & Hp & ->). by apply (Hs k).
Qed.

(** What rebuilding the routes does: it succeeds exactly when no address is
    allowed to two of the blocks, unless the table has no room for them. *)
Lemma rebuilt_spec s key ips :
  wf_allowed s → Table.wf ips →
  ∃ r, rebuilt_peers_by_ip_with lim s key ips = Some r ∧
  match r with
  | Ok t =>
      Table.wf t ∧ routes_disjoint (Table.contents t) ∧
      ∀ n k, Table.contents t !! n = Some k ↔ assigned_with s key ips n k
  | Err AllowedIPOverlap =>
      ∃ n k n' k', assigned_with s key ips n k ∧ assigned_with s key ips n' k' ∧
        (n, k) ≠ (n', k') ∧ share n n'
  | Err Capacity =>
      ∃ bs, NoDup bs ∧ (∀ k n, (k, n) ∈ bs ↔ assigned_with s key ips n k) ∧
        (Trie.node_limit (max_routes lim) < 1 + 2 * length bs)%nat
  | Err _ => False
  end.
Proof.
  intros Hs Hips. pose proof (updated_ips_wf s key ips Hs Hips) as Hall.
  set (bs := blocks_of (updated_ips s key ips)).
  assert (∀ k n, (k, n) ∈ bs ↔ assigned_with s key ips n k) as Hbs.
  { intros k n. unfold bs. rewrite elem_of_blocks_of by done. unfold assigned_with, assigned.
    setoid_rewrite updated_ips_elem. case_decide; naive_solver. }
  assert (NoDup bs) as Hnd by (apply NoDup_blocks_of; [done|apply updated_ips_NoDup]).
  assert (Forall (λ b, block_ok b.2) bs) as Hok.
  { apply Forall_forall. intros [k n]. unfold bs. rewrite elem_of_blocks_of by done.
    intros (t & Hin & Hc). rewrite Forall_forall in Hall. by apply (Table.contents_ok _ _ _ (Hall _ Hin) Hc). }
  unfold rebuilt_peers_by_ip_with. rewrite add_all_routes_blocks by done. fold bs.
  destruct (@new_wf bytes) as [Hwn Hcn].
  destruct (add_blocks_spec lim bs Table.new Hwn) as (r & -> & Hr); [|done|].
  { rewrite Hcn. intros n n' d d'. by rewrite lookup_empty. }
  exists r. split; [done|]. rewrite Hcn in Hr. destruct r as [t|[]]; try done.
  - destruct Hr as (? & ? & Hr). split_and!; [done|done|]. intros n k. rewrite Hr, lookup_empty, <- Hbs. naive_solver.
  - destruct Hr as (i & k & n & k' & n' & Hi & Hsh & [Hn'|(j & Hj & Hn')]); [by rewrite lookup_empty in Hn'|].
    exists n, k, n', k'. rewrite <- !Hbs. split_and!; [by eapply list_elem_of_lookup_2..| |done].
    intros [= <- <-]. pose proof (NoDup_lookup _ _ _ _ Hnd Hi Hn'). lia.
  - destruct Hr as (n & Hlim). exists bs. split_and!; [done|done|]. destruct n; simpl in Hlim; lia.
Qed.

(** ** The invariant of the tables *)

Record wf_table (g : index_generator) s : Prop := {
  table_allowed : wf_allowed s;
  table_routes_wf : Table.wf (peers_by_ip s);
  table_routes n k : Table.contents (peers_by_ip s) !! n = Some k ↔ assigned s n k;
  table_disjoint : routes_disjoint (Table.contents (peers_by_ip s));
  table_index k p : peers s !! k = Some p → peers_by_idx s !! index p = Some k;
  table_index_back i k : peers_by_idx s !! i = Some k → ∃ p, peers s !! k = Some p ∧ index p = i;
  table_generator : Index.wf g;
  table_minted i k : peers_by_idx s !! i = Some k → 0 < i ≤ LFSR_MAX ∧ ¬ still_to_come g i
}.

Lemma wf_table_new g : Index.wf g → wf_table g peer_state_new.
Proof.
  intros Hg. destruct (@new_wf bytes) as [Hwn Hcn].
  split; unfold wf_allowed, assigned, peer_state_new; cbn [peers peers_by_ip peers_by_idx]; try done.
  intros n k. rewrite Hcn, lookup_empty. split; [done|by intros (? & [=] & _)].
Qed.

(** A later generator hands out fewer indexes. *)
Lemma wf_table_generator g g' s :
  Index.wf g' → (∀ i, still_to_come g' i → still_to_come g i) → wf_table g s → wf_table g' s.
Proof. intros Hg Hless []. split; try done. intros i k Hi. naive_solver. Qed.

(** Replacing the routes along with the blocks of one peer. *)
Lemma wf_table_update g s key p ips routes by_idx :
  wf_table g s → peer_allowed_ips p = ips → Table.wf ips →
  Table.wf routes → routes_disjoint (Table.contents routes) →
  (∀ n k, Table.contents routes !! n = Some k ↔ assigned_with s key ips n k) →
  by_idx = <[index p := key]> (peers_by_idx s) → 0 < index p ≤ LFSR_MAX → ¬ still_to_come g (index p) →
  (∀ k, peers_by_idx s !! index p = Some k → k = key) →
  (∀ p0, peers s !! key = Some p0 → index p0 = index p) →
  wf_table g (PeerState (<[key := p]> (peers s)) routes by_idx).
Proof.
  intros [] Hp Hips Hr Hd Hc -> Hi Hm Huniq Hsame.
  split; unfold wf_allowed, assigned; cbn [peers peers_by_ip peers_by_idx]; try done.
  - intros k q [[<- <-]|[_ Hq]]%lookup_insert_Some; [by subst|by eapply table_allowed0].
  - intros n k. rewrite Hc. unfold assigned_with, assigned. case_decide as E.
    + subst k. split; [intros; exists p; by rewrite lookup_insert_eq, Hp|].
      intros (q & Hq & Hn). rewrite lookup_insert_eq in Hq. injection Hq as <-. by rewrite <- Hp.
    + by setoid_rewrite lookup_insert_ne.
  - intros k q [[<- <-]|[Hne Hq]]%lookup_insert_Some; [by rewrite lookup_insert_eq|].
    apply table_index0 in Hq. destruct (decide (index p = index q)) as [E|E].
    + exfalso. apply Hne. symmetry. apply Huniq. by rewrite E.
    + by rewrite lookup_insert_ne.
  - intros i k [[<- <-]|[Hne Hik]]%lookup_insert_Some; [exists p; by rewrite lookup_insert_eq|].
    apply table_index_back0 in Hik as (q & Hq & <-). exists q. split; [|done].
    rewrite lookup_insert_ne; [done|]. intros <-. by apply Hsame in Hq.
  - intros i k [[<- <-]|[Hne Hik]]%lookup_insert_Some; [done|]. by eapply table_minted0.
Qed.

(** Changes to a peer that its routes and its index do not see. *)
Lemma wf_table_set_peer g s key p p' :
  wf_table g s → peers s !! key = Some p → index p' = index p →
  peer_allowed_ips p' = peer_allowed_ips p → wf_table g (set_peers (<[key := p']> (peers s)) s).
Proof.
  intros Hwf Hp Hi Ha. pose proof Hwf as [].
  assert (∀ n k, assigned (set_peers (<[key := p']> (peers s)) s) n k ↔ assigned s n k) as Has.
  { intros n k. unfold assigned. cbn [set_peers peers]. destruct (decide (key = k)) as [<-|].
    - rewrite lookup_insert_eq, Hp. naive_solver congruence.
    - by rewrite lookup_insert_ne. }
  split; cbn [set_peers peers_by_ip peers_by_idx]; try done.
  - intros k q. cbn [set_peers peers].
    intros [[<- <-]|[_ Hq]]%lookup_insert_Some; [rewrite Ha|]; by eapply table_allowed0.
  - intros n k. by rewrite Has.
  - intros k q. cbn [set_peers peers].
    intros [[<- <-]|[_ Hq]]%lookup_insert_Some; [rewrite Hi|]; by apply table_index0.
  - intros i k Hik. apply table_index_back0 in Hik as (q & Hq & <-). cbn [set_peers peers].
    destruct (decide (key = k)) as [<-|].
    + exists p'. rewrite lookup_insert_eq. split; [done|]. by simplify_eq.
    + exists q. by rewrite lookup_insert_ne.
Qed.

Lemma insert_blocks_unit (l : list ip_net) (m : gmap ip_net unit) n :
  insert_blocks m (map (λ ip, (ip, tt)) l) !! n = Some tt ↔
    n ∈ map Table.normalize l ∨ m !! n = Some tt.
Proof.
  revert m; induction l as [|ip l IH]; intros m; cbn; [set_solver|].
  unfold insert_blocks in *. cbn. rewrite IH, lookup_insert_Some, elem_of_cons. destruct (decide (n = Table.normalize ip)); naive_solver.
Qed.

Lemma allowed_from_slice_spec (l : list ip_net) :
  Forall ip_net_valid l →
  ∃ r, allowed_ips_from_slice lim l = Some r ∧
  match r with
  | Ok t => Table.wf t ∧ ∀ n, Table.contents t !! n = Some tt ↔ n ∈ map Table.normalize l
  | Err e => e = Capacity ∧ (Trie.node_limit (max_allowed_ips_per_peer lim) < 1 + 2 * length l)%nat
  end.
Proof.
  intros Hl. unfold allowed_ips_from_slice, Table.try_from_iter. destruct (@new_wf unit) as [Hw Hc].
  destruct (insert_all_total (max_allowed_ips_per_peer lim) Table.new (map (λ ip, (ip, tt)) l) Hw)
    as (r & -> & Hr).
  { apply Forall_map. eapply Forall_impl; [exact Hl|]. done. }
  cbn [mbind option_bind]. rewrite Hc in Hr. destruct r as [t|e]; eexists; (split; [done|]).
  - destruct Hr as [? Hr]. split; [done|]. intros n. rewrite Hr, insert_blocks_unit, lookup_empty. naive_solver.
  - split; [done|]. destruct Hr as (_ & n & Hn). rewrite length_map in Hn. destruct n; simpl in Hn; lia.
Qed.

(** A block of [ips] shares an address with another of them, or with a block
    of another peer. *)
Definition clashes s key (ips : list ip_net) : Prop :=
  ∃ n n' k, n ∈ map Table.normalize ips ∧ share n n' ∧
    (k = key ∧ n' ∈ map Table.normalize ips ∧ n' ≠ n ∨ k ≠ key ∧ assigned s n' k).

Lemma clash_of s key ips t :
  routes_disjoint (Table.contents (peers_by_ip s)) →
  (∀ n k, Table.contents (peers_by_ip s) !! n = Some k ↔ assigned s n k) →
  (∀ n, Table.contents t !! n = Some tt ↔ n ∈ map Table.normalize ips) →
  (∃ n k n' k', assigned_with s key t n k ∧ assigned_with s key t n' k' ∧
    (n, k) ≠ (n', k') ∧ share n n') → clashes s key ips.
Proof.
  intros Hd Hr Ht (n & k & n' & k' & H1 & H2 & Hne & Hs). unfold assigned_with in *.
  destruct (decide (k = key)) as [->|], (decide (k' = key)) as [->|].
  - exists n, n', key. rewrite <- !Ht. split_and!; [done..|]. left. split_and!; [done..|]. by intros ->.
  - exists n, n', k'. rewrite <- Ht. split_and!; [done..|]. by right.
  - exists n', n, k. rewrite <- Ht. split_and!; [done|by apply share_sym|]. by right.
  - exfalso. apply Hr in H1, H2. assert (n = n') as -> by (by eapply Hd). by simplify_eq.
Qed.

Lemma clashes_routes s key ips t routes :
  routes_disjoint (Table.contents routes) →
  (∀ n k, Table.contents routes !! n = Some k ↔ assigned_with s key t n k) →
  (∀ n, Table.contents t !! n = Some tt ↔ n ∈ map Table.normalize ips) → ¬ clashes s key ips.
Proof.
  intros Hrd Hrc Hc (n & n' & k & Hn & Hs & Hk').
  assert (Table.contents routes !! n = Some key) as H1.
  { apply Hrc. unfold assigned_with. rewrite decide_True by done. by apply Hc. }
  assert (Table.contents routes !! n' = Some k) as H2.
  { apply Hrc. unfold assigned_with. destruct Hk' as [(-> & Hn' & _)|[Hne Ha]].
    - rewrite decide_True by done. by apply Hc.
    - by rewrite decide_False. }
  assert (n = n') as -> by (by eapply Hrd). destruct Hk' as [(_ & _ & ?)|[? _]]; [done|]. by simplify_eq.
Qed.

(** The blocks of the peers, with [ips] for the peer [key], are too many for the
    tries: each takes up to two nodes beside the root. *)
Definition too_many_blocks s key (ips : list ip_net) : Prop :=
  (Trie.node_limit (max_allowed_ips_per_peer lim) < 1 + 2 * length ips)%nat ∨
  ∃ bs, NoDup bs ∧
    (∀ k n, (k, n) ∈ bs ↔ if decide (k = key) then n ∈ map Table.normalize ips else assigned s n k) ∧
    (Trie.node_limit (max_routes lim) < 1 + 2 * length bs)%nat.

Lemma too_many_of s key ips t :
  (∀ n, Table.contents t !! n = Some tt ↔ n ∈ map Table.normalize ips) →
  (∃ bs, NoDup bs ∧ (∀ k n, (k, n) ∈ bs ↔ assigned_with s key t n k) ∧
    (Trie.node_limit (max_routes lim) < 1 + 2 * length bs)%nat) → too_many_blocks s key ips.
Proof.
  intros Ht (bs & Hnd & Hbs & Hl). right. exists bs. split_and!; [done| |done]. intros k n.
  rewrite Hbs. unfold assigned_with. case_decide; [apply Ht|done].
Qed.

(** The outcomes of adding a peer. *)
Definition add_outcome g s config private_key stamper now (r : result unit error) s'
    (g' : index_generator) : Prop :=
  let key := config_public_key config in
  match r with
  | Ok _ =>
      peers s !! key = None ∧ ¬ clashes s key (config_allowed_ips config) ∧
      ∃ p, peers s' = <[key := p]> (peers s) ∧ peers_by_idx s !! index p = None ∧
        tunnel p = tunn_new private_key key (config_keepalive config) (index p) stamper now ∧
        0 < index p ≤ LFSR_MAX ∧
        endpoint p = config_endpoint config ∧ relay p = config_relay config ∧
        ∀ n, Table.contents (peer_allowed_ips p) !! n = Some tt ↔
          n ∈ map Table.normalize (config_allowed_ips config)
  | Err PeerAlreadyExists => s' = s ∧ g' = g ∧ is_Some (peers s !! key)
  | Err AllowedIPOverlap => s' = s ∧ clashes s key (config_allowed_ips config)
  | Err Capacity => s' = s ∧
      (too_many_blocks s key (config_allowed_ips config) ∨
       has_room (max_peers lim) (size (peers s)) = false ∨ has_room (max_peers lim) (size (peers_by_idx s)) = false)
  | Err _ => False
  end.

Lemma add_peer_spec g s config private_key stamper now :
  wf_table g s → 0 < Index.remaining g → Forall ip_net_valid (config_allowed_ips config) →
  ∃ r s' g', add_peer_to_state lim s config private_key g stamper now = Some (r, s', g') ∧
    (wf_table g' s' ∧ add_outcome g s config private_key stamper now r s' g') ∧
    Index.remaining g - 1 ≤ Index.remaining g'.
Proof.
  intros Hwf Hrem Hips. unfold add_outcome, add_peer_to_state, peer_by_key.
  set (key := config_public_key config).
  case_bool_decide as Hk; [eexists _, s, g; split; [done|]; split; [done|lia]|].
  apply eq_None_not_Some in Hk. pose proof (new_index_spec g (table_generator _ _ Hwf)) as Hgen.
  destruct (new_index g) as [[i g']|]; [|lia]. destruct Hgen as (Hg' & Hi & Hcome & Hgone & Hless & Hleft).
  assert (Index.remaining g - 1 ≤ Index.remaining g') as Hle by lia. clear Hleft.
  cbn [mbind option_bind]. set (t := tunn_new _ _ _ _ _ _).
  pose proof (wf_table_generator g g' s Hg' Hless Hwf) as Hwf'.
  assert (peers_by_idx s !! i = None) as Hnone.
  { destruct (peers_by_idx s !! i) as [k|] eqn:E; [|done]. by destruct (table_minted _ _ Hwf _ _ E). }
  unfold peer_new. destruct (allowed_from_slice_spec _ Hips) as (r & -> & Hr). cbn [mbind option_bind].
  destruct r as [ips|e].
  2: { destruct Hr as [-> Hl]. cbn [mbind option_bind]. eexists _, s, g'. split; [done|]. split; [|done]. split; [done|]. split; [done|]. left; by left. }
  destruct Hr as [Hw Hc]. cbn [mbind option_bind peer_allowed_ips].
  destruct (rebuilt_spec s key ips (table_allowed _ _ Hwf) Hw) as (r & -> & Hr). cbn [mbind option_bind].
  destruct r as [routes|e].
  2: { eexists _, s, g'. split; [done|]. split; [|done]. split; [done|]. destruct e; try done.
       - split; [done|]. eapply clash_of; [apply Hwf|apply Hwf|exact Hc|exact Hr].
       - split; [done|]. left. by eapply too_many_of. }
  destruct Hr as (Hrw & Hrd & Hrc). unfold insert_peer_storage.
  set (p := Peer t i (config_endpoint config) (config_relay config) ips).
  destruct (try_insert_entry (max_peers lim) (peers s) key p) as [m|[]] eqn:E1.
  2: { eexists _, s, g'. split; [done|]. split; [|done]. split; [done|]. split; [done|]. right; left. by apply try_insert_entry_Err in E1 as [_ ?]. }
  apply try_insert_entry_Ok in E1 as ->.
  destruct (try_insert_entry (max_peers lim) (peers_by_idx s) i key) as [by_idx|[]] eqn:E2.
  2: { rewrite delete_insert_id by done. exists (Err Capacity), s, g'. split; [by destruct s|]. split; [|done].
       split; [done|]. split; [done|]. right; right. by apply try_insert_entry_Err in E2 as [_ ?]. }
  apply try_insert_entry_Ok in E2. eexists _, _, g'. split; [done|]. cbn [set_routes peers peers_by_idx].
  split; [|done]. split; [|split; [done|split]].
  - apply (wf_table_update g' s key p ips routes by_idx); try done.
    + cbn [p index]. by rewrite Hnone.
    + by rewrite Hk.
  - by eapply clashes_routes.
  - by exists p.
Qed.

(** C15: adding a peer. The tables stay consistent and nothing panics while
    indexes remain. It is refused, with no change to the peers, when the key
    is already there, when one of its blocks shares an address with another of
    its blocks or of another peer's, or for lack of room; otherwise exactly
    the new peer is added, with its own blocks and an index that no other peer
    has. *)
Theorem add_peer_outcomes g s config private_key stamper now :
  wf_table g s → 0 < Index.remaining g → Forall ip_net_valid (config_allowed_ips config) →
  ∃ r s' g', add_peer_to_state lim s config private_key g stamper now = Some (r, s', g') ∧
    wf_table g' s' ∧ add_outcome g s config private_key stamper now r s' g'.
Proof.
  intros Hwf Hr Hips. destruct (add_peer_spec g s config private_key stamper now Hwf Hr Hips)
    as (r & s' & g' & ? & ? & _). by exists r, s', g'.
Qed.

Lemma wf_table_remove g s key p :
  wf_table g s → peers s !! key = Some p →
  wf_table g (PeerState (delete key (peers s))
    (Table.remove (λ k, bool_decide (k = key)) (peers_by_ip s)) (delete (index p) (peers_by_idx s))).
Proof.
  intros [] Hp.
  destruct (remove_total (λ k, bool_decide (k = key)) (peers_by_ip s) table_routes_wf0) as [Hw Hc].
  assert (∀ n k, Table.contents (Table.remove (λ k, bool_decide (k = key)) (peers_by_ip s)) !! n = Some k ↔
    Table.contents (peers_by_ip s) !! n = Some k ∧ k ≠ key) as Hc'.
  { intros n k. rewrite Hc, map_lookup_filter_Some. cbn. by rewrite bool_decide_eq_false. }
  split; unfold wf_allowed; cbn [peers peers_by_ip peers_by_idx]; try done.
  - intros k q [_ Hq]%lookup_delete_Some. by eapply table_allowed0.
  - intros n k. rewrite Hc', table_routes0. unfold assigned. cbn [peers].
    setoid_rewrite lookup_delete_Some. naive_solver.
  - intros n n' k k' [H1 _]%Hc' [H2 _]%Hc'. by eapply table_disjoint0.
  - intros k q [Hne Hq]%lookup_delete_Some. apply lookup_delete_Some. pose proof (table_index0 _ _ Hq) as Hi.
    split; [|done]. intros E. rewrite <- E, (table_index0 _ _ Hp) in Hi. by simplify_eq.
  - intros i k [Hne Hik]%lookup_delete_Some. apply table_index_back0 in Hik as (q & Hq & <-).
    exists q. split; [|done]. apply lookup_delete_Some. split; [|done]. intros <-. by simplify_eq.
  - intros i k [_ Hik]%lookup_delete_Some. by eapply table_minted0.
Qed.

Lemma update_remove_spec g s config :
  wf_table g s → Forall ip_net_valid (config_allowed_ips config) →
  let key := config_public_key config in
  (∃ r s', update_peer_in_state lim s config = Some (r, s') ∧ wf_table g s' ∧
    match r with
    | Ok _ =>
        ¬ clashes s key (config_allowed_ips config) ∧
        ∃ p p', peers s !! key = Some p ∧ peers s' = <[key := p']> (peers s) ∧ index p' = index p ∧
          tunnel p' = on_timers (set_persistent_keepalive (config_keepalive config)) (tunnel p) ∧
          endpoint p' = config_endpoint config ∧ relay p' = config_relay config ∧
          ∀ n, Table.contents (peer_allowed_ips p') !! n = Some tt ↔
            n ∈ map Table.normalize (config_allowed_ips config)
    | Err PeerNotFound => s' = s ∧ peers s !! key = None
    | Err AllowedIPOverlap => s' = s ∧ clashes s key (config_allowed_ips config)
    | Err Capacity => s' = s ∧ too_many_blocks s key (config_allowed_ips config)
    | Err _ => False
    end) ∧
  wf_table g (remove_peer_from_state s key) ∧
  peers (remove_peer_from_state s key) = delete key (peers s) ∧
  (peers s !! key = None → remove_peer_from_state s key = s).
Proof.
  intros Hwf Hips key. split.
  - unfold update_peer_in_state, peer_by_key. fold key.
    destruct (peers s !! key) as [p|] eqn:Hp; [|by eexists _, s].
    destruct (allowed_from_slice_spec _ Hips) as (r & -> & Hr). cbn [mbind option_bind].
    destruct r as [ips|e]; [|destruct Hr as [-> Hl]; eexists _, s; split; [done|split; [done|split; [done|by left]]]]. destruct Hr as [Hw Hc].
    destruct (rebuilt_spec s key ips (table_allowed _ _ Hwf) Hw) as (r & -> & Hr). cbn [mbind option_bind].
    destruct r as [routes|e].
    2: { eexists _, s. split; [done|]. split; [done|]. destruct e; try done.
         - split; [done|]. eapply clash_of; [apply Hwf|apply Hwf|exact Hc|exact Hr].
         - split; [done|]. by eapply too_many_of. }
    destruct Hr as (Hrw & Hrd & Hrc). eexists _, _. split; [done|].
    set (p' := Peer _ _ _ _ _). pose proof (table_index _ _ Hwf _ _ Hp) as Hi.
    destruct (table_minted _ _ Hwf _ _ Hi) as [Hrange Hgone].
    split; [|split; [by eapply clashes_routes|by exists p, p']].
    apply (wf_table_update g s key p' ips routes (peers_by_idx s)); try done.
    + symmetry. by apply insert_id.
    + intros k Hk. cbn in Hk. by simplify_eq.
    + intros p0 Hp0. by simplify_eq.
  - unfold remove_peer_from_state, remove_peer_storage. destruct (peers s !! key) as [p|] eqn:Hp.
    + cbn [set_routes peers peers_by_ip peers_by_idx]. split; [by apply wf_table_remove|done].
    + split; [done|]. split; [by rewrite delete_id|done].
Qed.

(** C16: updating a peer replaces its configuration and its blocks, keeps its
    index and its tunnel but for the keepalive interval, and is refused without
    any change when the peer is unknown or a block shares an address with
    another block or the tries have no room; removing a peer removes exactly it, its routes and its index. *)
Theorem update_remove_outcomes g s config :
  wf_table g s → Forall ip_net_valid (config_allowed_ips config) →
  let key := config_public_key config in
  (∃ r s', update_peer_in_state lim s config = Some (r, s') ∧ wf_table g s' ∧
    match r with
    | Ok _ =>
        ¬ clashes s key (config_allowed_ips config) ∧
        ∃ p p', peers s !! key = Some p ∧ peers s' = <[key := p']> (peers s) ∧ index p' = index p ∧
          tunnel p' = on_timers (set_persistent_keepalive (config_keepalive config)) (tunnel p) ∧
          endpoint p' = config_endpoint config ∧ relay p' = config_relay config ∧
          ∀ n, Table.contents (peer_allowed_ips p') !! n = Some tt ↔
            n ∈ map Table.normalize (config_allowed_ips config)
    | Err PeerNotFound => s' = s ∧ peers s !! key = None
    | Err AllowedIPOverlap => s' = s ∧ clashes s key (config_allowed_ips config)
    | Err Capacity => s' = s ∧ too_many_blocks s key (config_allowed_ips config)
    | Err _ => False
    end) ∧
  wf_table g (remove_peer_from_state s key) ∧
  peers (remove_peer_from_state s key) = delete key (peers s) ∧
  (peers s !! key = None → remove_peer_from_state s key = s).
Proof. apply update_remove_spec. Qed.

(** The blocks allowed to a peer, by address. *)
Lemma is_allowed_spec g s k p addr :
  wf_table g s → ip_addr_valid addr → peers s !! k = Some p →
  ∃ b, is_allowed_ip p addr = Some b ∧
    (b = true ↔ ∃ n, Table.contents (peer_allowed_ips p) !! n = Some tt ∧ Table.contains n addr = true).
Proof.
  intros Hwf Ha Hp. unfold is_allowed_ip.
  destruct (find_total (peer_allowed_ips p) addr (table_allowed _ _ Hwf _ _ Hp) Ha) as (r & -> & Hr).
  eexists. split; [done|]. rewrite bool_decide_eq_true. split.
  - intros [[] Hs]. apply Hr in Hs as (n & Hn & Hc & _). by exists n.
  - intros (n & Hn & Hc). exists tt. apply Hr. exists n. split_and!; [done|done|].
    intros n' [] Hn' Hc'. assert (n' = n) as ->; [|done].
    apply (table_disjoint _ _ Hwf _ _ k k); [by apply (table_routes _ _ Hwf); exists p..|by exists addr].
Qed.

Lemma routing_spec g s addr :
  wf_table g s → ip_addr_valid addr →
  ∃ r, Table.find (peers_by_ip s) addr = Some r ∧
    (∀ k, r = Some k ↔ ∃ p, peers s !! k = Some p ∧ is_allowed_ip p addr = Some true) ∧
    (∀ k p, peers s !! k = Some p → is_Some (is_allowed_ip p addr)) ∧
    (∀ k k' p p', peers s !! k = Some p → peers s !! k' = Some p' →
      is_allowed_ip p addr = Some true → is_allowed_ip p' addr = Some true → k = k').
Proof.
  intros Hwf Ha. destruct (find_total (peers_by_ip s) addr (table_routes_wf _ _ Hwf) Ha) as (r & -> & Hr).
  assert (∀ k, r = Some k ↔ ∃ p, peers s !! k = Some p ∧ is_allowed_ip p addr = Some true) as Hrk.
  { intros k. rewrite Hr. split.
    - intros (n & Hn & Hc & _). apply (table_routes _ _ Hwf) in Hn as (p & Hp & Hn). exists p.
      split; [done|]. destruct (is_allowed_spec g s k p addr Hwf Ha Hp) as (b & -> & Hb).
      f_equal. apply Hb. by exists n.
    - intros (p & Hp & Hal). destruct (is_allowed_spec g s k p addr Hwf Ha Hp) as (b & Hb & Hbn).
      rewrite Hb in Hal. injection Hal as ->. destruct (proj1 Hbn eq_refl) as (n & Hn & Hc).
      assert (Table.contents (peers_by_ip s) !! n = Some k) as Hnk by (apply (table_routes _ _ Hwf); by exists p).
      exists n. split_and!; [done|done|]. intros n' k' Hn' Hc'.
      assert (n' = n) as ->; [|done]. by apply (table_disjoint _ _ Hwf _ _ k' k); [done..|exists addr]. }
  exists r. split_and!; [done|done| |].
  - intros k p Hp. destruct (is_allowed_spec g s k p addr Hwf Ha Hp) as (b & -> & _). by eexists.
  - intros k k' p p' Hp Hp' H1 H2. assert (r = Some k) as E by (apply Hrk; by exists p).
    assert (r = Some k') as E' by (apply Hrk; by exists p'). congruence.
Qed.

(** C14: cryptokey routing. Whatever its peers were put through, a device sends
    a packet for an address to a peer exactly when it would accept a packet
    from that address from that peer, and no address belongs to two peers. The
    lookups never fail. *)
Theorem cryptokey_routing g s addr :
  wf_table g s → ip_addr_valid addr →
  ∃ r, Table.find (peers_by_ip s) addr = Some r ∧
    (∀ k, r = Some k ↔ ∃ p, peers s !! k = Some p ∧ is_allowed_ip p addr = Some true) ∧
    (∀ k p, peers s !! k = Some p → is_Some (is_allowed_ip p addr)) ∧
    (∀ k k' p p', peers s !! k = Some p → peers s !! k' = Some p' →
      is_allowed_ip p addr = Some true → is_allowed_ip p' addr = Some true → k = k').
Proof. apply routing_spec. Qed.
End rebuilt.

(** ** Examples *)

(** A map that is iterated in the order of its trie. *)
Definition toy_order : map_order := {| keys_in_order A m := (map_to_list m).*1 |}.
Lemma toy_order_laws : @map_order_laws toy_order.
Proof. split. intros A m. reflexivity. Qed.

Definition no_limits : limits := Limits None None.
Definition toy_gen : index_generator := IndexGenerator 1 1000 7.

Lemma toy_gen_wf : Index.wf toy_gen.
Proof. unfold Index.wf, toy_gen, LFSR_MAX. cbn. lia. Qed.

(** The peer of key [k] owns 10.0.[k].0/24. *)
Definition toy_config (k : Z) : peer_config :=
  PeerConfig (@public_from toy_noise [k]) (Some (SockV4 0x01020304 (1000 + k)))
    [NetV4 (Ipv4Net (0x0a000000 + 256 * k) 24)] None None.

Definition toy_add (st : peer_state * index_generator) (c : peer_config) : peer_state * index_generator :=
  match @add_peer_to_state toy_noise toy_order no_limits st.1 c [1] st.2 toy_stamper 0 with
  | Some (_, s, g) => (s, g)
  | None => st
  end.

(** A device with the peers 2 and 3. *)
Definition toy_table : peer_state * index_generator :=
  toy_add (toy_add (peer_state_new, toy_gen) (toy_config 2)) (toy_config 3).

Lemma toy_config_valid k : 0 ≤ k ≤ 255 → Forall ip_net_valid (config_allowed_ips (toy_config k)).
Proof. intros Hk. repeat constructor; cbn; lia. Qed.

Lemma wf_toy_add st c :
  wf_table st.2 st.1 → 0 < Index.remaining st.2 → Forall ip_net_valid (config_allowed_ips c) →
  wf_table (toy_add st c).2 (toy_add st c).1.
Proof.
  intros Hwf Hr Hc. unfold toy_add.
  by destruct (@add_peer_spec toy_noise toy_order toy_order_laws no_limits st.2 st.1 c [1] toy_stamper 0 Hwf Hr Hc)
    as (r & s & g & -> & [Hwf' _] & _).
Qed.

Lemma wf_toy_table : wf_table toy_table.2 toy_table.1.
Proof.
  apply wf_toy_add; [apply wf_toy_add; [by apply wf_table_new, toy_gen_wf|done|]|vm_compute; done|];
    apply toy_config_valid; lia.
Qed.

(** The bound of the embedded profile counts the nodes of the trie, its root
    included: one address fits, two do not. *)
Lemma two_allowed_ips_do_not_fit :
  let block k := NetV4 (Ipv4Net (0x0a000000 + k) 32) in
  let lim := Limits (Some 4%nat) (Some 2%nat) in
  is_ok <$> allowed_ips_from_slice lim [block 1] = Some true ∧
  is_ok <$> allowed_ips_from_slice lim [block 1; block 2] = Some false.
Proof. split; vm_compute; reflexivity. Qed.

Lemma add_peer_outcomes_witness :
  wf_table toy_table.2 toy_table.1 ∧ 0 < Index.remaining toy_table.2 ∧
  Forall ip_net_valid (config_allowed_ips (toy_config 4)) ∧
  ∃ r s' g', @add_peer_to_state toy_noise toy_order no_limits toy_table.1 (toy_config 4) [1] toy_table.2
      toy_stamper 0 = Some (r, s', g') ∧ wf_table g' s' ∧ r = Ok tt.
Proof.
  assert (wf_table toy_table.2 toy_table.1) as H1 by exact wf_toy_table.
  assert (0 < Index.remaining toy_table.2) as H2 by (vm_compute; reflexivity).
  assert (Forall ip_net_valid (config_allowed_ips (toy_config 4))) as H3 by (apply toy_config_valid; lia).
  split; [exact H1|]. split; [exact H2|]. split; [exact H3|].
  destruct (@add_peer_outcomes toy_noise toy_order toy_order_laws no_limits toy_table.2 toy_table.1
    (toy_config 4) [1] toy_stamper 0 H1 H2 H3) as (r & s' & g' & E & Hwf & _).
  exists r, s', g'. split; [exact E|]. split; [exact Hwf|].
  assert (fst <$> (fst <$> @add_peer_to_state toy_noise toy_order no_limits toy_table.1 (toy_config 4) [1]
    toy_table.2 toy_stamper 0) = Some (Ok tt)) as Hok by (vm_compute; reflexivity).
  rewrite E in Hok. injection Hok as ->. reflexivity.
Defined.

Lemma update_remove_outcomes_witness :
  wf_table toy_table.2 toy_table.1 ∧ Forall ip_net_valid (config_allowed_ips (toy_config 2)) ∧
  ∃ r s', @update_peer_in_state toy_order no_limits toy_table.1 (toy_config 2) = Some (r, s') ∧
    wf_table toy_table.2 s' ∧
    peers (remove_peer_from_state toy_table.1 (@public_from toy_noise [2])) =
      delete (@public_from toy_noise [2]) (peers toy_table.1).
Proof.
  assert (wf_table toy_table.2 toy_table.1) as H1 by exact wf_toy_table.
  assert (Forall ip_net_valid (config_allowed_ips (toy_config 2))) as H2 by (apply toy_config_valid; lia).
  split; [exact H1|]. split; [exact H2|].
  destruct (@update_remove_outcomes toy_order toy_order_laws no_limits toy_table.2 toy_table.1 (toy_config 2) H1 H2)
    as ((r & s' & E & Hwf & _) & _ & Hrem & _).
  exists r, s'. split; [exact E|]. split; [exact Hwf|exact Hrem].
Defined.

Lemma cryptokey_routing_witness :
  wf_table toy_table.2 toy_table.1 ∧ ip_addr_valid (IpV4 0x0a000305) ∧
  ∃ r, Table.find (peers_by_ip toy_table.1) (IpV4 0x0a000305) = Some r ∧
    ∀ k, r = Some k ↔ ∃ p, peers toy_table.1 !! k = Some p ∧
      is_allowed_ip p (IpV4 0x0a000305) = Some true.
Proof.
  assert (wf_table toy_table.2 toy_table.1) as H1 by exact wf_toy_table.
  assert (ip_addr_valid (IpV4 0x0a000305)) as H2 by (vm_compute; split; congruence).
  split; [exact H1|]. split; [exact H2|].
  destruct (cryptokey_routing toy_table.2 toy_table.1 (IpV4 0x0a000305) H1 H2) as (r & E & Hr & _).
  exists r. split; [exact E|exact Hr].
Defined.
