(* ===== verification/Routes.v ===== *)
(** * Network maps and route policies: [tendrilix/src/types/v1alpha1/net_map.rs]
    and the pure part of [tendrilix/src/control/reconciler.rs]

    A network map lists the peers and the routes to each. The reconciler turns
    every peer of the map into a [DesiredPeer]: its routes become policies,
    relays resolved to keys, duplicates collapsed to their best priority, the
    most preferred first, one of the best chosen at random. The theorems say
    what the policies of a peer are and which of them is chosen, and that
    rendering a peer as a device configuration never panics. *)

From S2P Require Import Prelude IpNet AllowedIps Bounded PeerHealth PeerTable.
From Stdlib Require Import Sorting.Sorted.
From stdpp Require Import sorting.
#[local] Open Scope Z_scope.

(** ** The network map *)

(** [PeerId] is an [i64]; a timestamp is its nanoseconds. *)
Inductive route_kind : Type :=
  | RouteDirect (endpoint : option socket_addr)
  | RouteRelay (id : Z).

Record map_route := MapRoute { route_priority : Z; route_kind_of : route_kind }.

Record map_peer := MapPeer {
  peer_id : Z;
  map_public_key : bytes;
  tunnel_ip : option ip_addr;
  is_directory : bool;
  map_routes : list map_route
}.

Record network_map := NetworkMap { updated_at : Z; map_peers : list map_peer }.

(** ** Policies and desired peers *)

Inductive reconcile_error : Type :=
  | DeviceError (e : error)
  | CapacityExceeded
  | FetchNetworkMap.

(** [RoutePolicy] *)
Inductive route_policy : Type :=
  | PolicyDirect (endpoint : option socket_addr) (priority : Z)
  | PolicyRelay (relay : bytes) (priority : Z).

#[global] Instance route_policy_eq_dec : EqDecision route_policy.
Proof. solve_decision. Defined.

Definition priority (p : route_policy) : Z :=
  match p with
  | PolicyDirect _ q | PolicyRelay _ q => q
  end.

Definition set_priority (q : Z) (p : route_policy) : route_policy :=
  match p with
  | PolicyDirect e _ => PolicyDirect e q
  | PolicyRelay r _ => PolicyRelay r q
  end.

Definition same_route (p p' : route_policy) : bool :=
  match p, p' with
  | PolicyDirect a _, PolicyDirect b _ => bool_decide (a = b)
  | PolicyRelay a _, PolicyRelay b _ => bool_decide (a = b)
  | _, _ => false
  end.

(** [RoutePolicy::route_key] *)
Definition route_key_of (p : route_policy) : route_key :=
  match p with
  | PolicyDirect e _ => Direct e
  | PolicyRelay r _ => Relay r
  end.

Record desired_peer := DesiredPeer {
  desired_key : bytes;
  desired_allowed_ips : list ip_addr;
  desired_keepalive : option Z;
  desired_policies : list route_policy;
  desired_active_route : option route_key;
  desired_active_policy : nat
}.

Definition active_policy_index (p : desired_peer) : nat :=
  Nat.min (desired_active_policy p) (length (desired_policies p) - 1)%nat.

(** [DesiredPeer::set_active_policy] *)
Definition select_policy (policy_index : nat) (p : desired_peer) : desired_peer :=
  let active := Nat.min policy_index (length (desired_policies p) - 1)%nat in
  DesiredPeer (desired_key p) (desired_allowed_ips p) (desired_keepalive p) (desired_policies p)
    (route_key_of <$> desired_policies p !! active) active.

Fixpoint first_direct_endpoint (l : list route_policy) : option socket_addr :=
  match l with
  | [] => None
  | PolicyDirect (Some e) _ :: _ => Some e
  | _ :: l => first_direct_endpoint l
  end.

Definition preferred_direct_endpoint (p : desired_peer) : option socket_addr :=
  first_direct_endpoint (desired_policies p).

(** The host block of a tunnel IP; [None] is the panic of [expect]. *)
Definition host_block (ip : ip_addr) : option ip_net :=
  let host_prefix := match ip with IpV4 _ => 32 | IpV6 _ => 128 end in
  match ip_net_new ip host_prefix with
  | Ok n => Some n
  | Err _ => None
  end.

Definition config_for_policy (p : desired_peer) (policy_index : nat) (keepalive : option Z)
    : option peer_config :=
  let '(endpoint, relay) :=
    match desired_policies p !! policy_index with
    | Some (PolicyDirect endpoint _) => (endpoint, None)
    | Some (PolicyRelay relay _) => (preferred_direct_endpoint p, Some relay)
    | None => (None, None)
    end in
  let! allowed_ips := mapM host_block (desired_allowed_ips p) in
  Some (PeerConfig (desired_key p) endpoint allowed_ips keepalive relay).

(** [DesiredPeer::config] *)
Definition config (p : desired_peer) : option peer_config :=
  config_for_policy p (active_policy_index p) (desired_keepalive p).

(** ** From a network map to desired peers *)

(** [sort_unstable_by_key(RoutePolicy::priority)]: the order of policies of
    equal priority is not specified. *)
Class policy_sort := { sort_policies : list route_policy → list route_policy }.
Class policy_sort_laws `{policy_sort} := {
  sort_policies_perm l : sort_policies l ≡ₚ l;
  sort_policies_sorted l : Sorted (λ p p', priority p ≤ priority p') (sort_policies l)
}.

(** The caller's random number generator: [next_u64]. *)
Class random (R : Type) := { next_u64 : R → Z * R }.

Section from_map.
Context `{policy_sort} {R : Type} `{random R}.
(** [MAX_PEERS] and [MAX_ALLOWED_IPS_PER_PEER], [MAX_ROUTES], and the bits of
    a [usize]. *)
Context (lim : limits) (routes_cap : capacity) (usize_bits : Z).

Definition push {A} (cap : capacity) (l : list A) (x : A) : result (list A) reconcile_error :=
  map_err (λ _, CapacityExceeded) (try_push cap l x).

Fixpoint push_all {A} (cap : capacity) (xs l : list A) : result (list A) reconcile_error :=
  match xs with
  | [] => Ok l
  | x :: xs => let? l := push cap l x in push_all cap xs l
  end.

Definition route_keys_for_policies (policies : list route_policy) : result (list route_key) reconcile_error :=
  push_all routes_cap (map route_key_of policies) [].

(** The loop of [dedupe_and_sort_policies], [deduped] so far. *)
Fixpoint dedupe (policies deduped : list route_policy) : result (list route_policy) reconcile_error :=
  match policies with
  | [] => Ok deduped
  | policy :: policies =>
      match list_find (λ existing, same_route existing policy = true) deduped with
      | Some (i, existing) =>
          if priority policy <? priority existing
          then dedupe policies (<[i := set_priority (priority policy) existing]> deduped)
          else dedupe policies deduped
      | None => let? deduped := push routes_cap deduped policy in dedupe policies deduped
      end
  end.

Definition dedupe_and_sort_policies (policies : list route_policy)
    : result (list route_policy) reconcile_error :=
  let? deduped := dedupe policies [] in Ok (sort_policies deduped).

(** The policy of one route of [destination], [None] when it is dropped. *)
Definition policy_of_route (m : network_map) (destination : map_peer) (r : map_route)
    : option route_policy :=
  match route_kind_of r with
  | RouteDirect endpoint => Some (PolicyDirect endpoint (route_priority r))
  | RouteRelay id =>
      match list_find (λ p, peer_id p = id) (map_peers m) with
      | None => None
      | Some (_, relay) =>
          if decide (map_public_key relay = map_public_key destination) then None
          else Some (PolicyRelay (map_public_key relay) (route_priority r))
      end
  end.

Fixpoint expand_routes (m : network_map) (destination : map_peer) (routes : list map_route)
    (policies : list route_policy) : result (list route_policy) reconcile_error :=
  match routes with
  | [] => Ok policies
  | r :: routes =>
      match policy_of_route m destination r with
      | None => expand_routes m destination routes policies
      | Some p => let? policies := push routes_cap policies p in expand_routes m destination routes policies
      end
  end.

Definition route_policies_for_peer (m : network_map) (destination : map_peer)
    : result (list route_policy) reconcile_error :=
  let? policies := expand_routes m destination (map_routes destination) [] in
  let? policies :=
    match policies with
    | [] => push routes_cap policies (PolicyDirect None 0)
    | _ => Ok policies
    end in
  dedupe_and_sort_policies policies.

Definition random_below (rng : R) (modulo : nat) : nat * R :=
  match modulo with
  | O => (O, rng)
  | _ => let '(x, rng) := next_u64 rng in (Z.to_nat (wrap usize_bits x mod Z.of_nat modulo), rng)
  end.

(** [iter().map(priority).min()] *)
Definition best_priority (policies : list route_policy) : option Z :=
  match policies with
  | [] => None
  | p :: policies => Some (foldl (λ best q, Z.min best (priority q)) (priority p) policies)
  end.

Definition initial_policy_index (policies : list route_policy) (rng : R) : nat * R :=
  match best_priority policies with
  | None => (O, rng)
  | Some best =>
      let candidates :=
        filter (λ ip : nat * route_policy, priority ip.2 = best) (imap (λ i p, (i, p)) policies) in
      let '(chosen, rng) := random_below rng (length candidates) in
      (default O (fst <$> candidates !! chosen), rng)
  end.

Definition allowed_ips_of (p : map_peer) : result (list ip_addr) reconcile_error :=
  match tunnel_ip p with
  | Some ip => push (max_allowed_ips_per_peer lim) [] ip
  | None => Ok []
  end.

(** One turn of the loop of [desired_peers_from_map]. *)
Definition desired_peer_of (m : network_map) (p : map_peer) (desired : gmap bytes desired_peer) (rng : R)
    : result (gmap bytes desired_peer) reconcile_error * R :=
  match allowed_ips_of p with
  | Err e => (Err e, rng)
  | Ok allowed_ips =>
      match route_policies_for_peer m p with
      | Err e => (Err e, rng)
      | Ok [] => (Ok desired, rng)
      | Ok policies =>
          let '(active, rng) := initial_policy_index policies rng in
          let peer := DesiredPeer (map_public_key p) allowed_ips
            (if is_directory p then Some 25 else None) policies
            (route_key_of <$> policies !! active) active in
          (map_err (λ _, CapacityExceeded)
             (try_insert_entry (max_peers lim) desired (map_public_key p) peer), rng)
      end
  end.

Fixpoint desired_peers_loop (m : network_map) (ps : list map_peer) (desired : gmap bytes desired_peer)
    (rng : R) : result (gmap bytes desired_peer) reconcile_error * R :=
  match ps with
  | [] => (Ok desired, rng)
  | p :: ps =>
      match desired_peer_of m p desired rng with
      | (Ok desired, rng) => desired_peers_loop m ps desired rng
      | (Err e, rng) => (Err e, rng)
      end
  end.

Definition desired_peers_from_map (m : network_map) (rng : R)
    : result (gmap bytes desired_peer) reconcile_error * R :=
  desired_peers_loop m (map_peers m) ∅ rng.

Definition directory_servers_from_map (m : network_map) : result (list map_peer) reconcile_error :=
  push_all (max_peers lim) (filter (λ p, is_directory p = true) (map_peers m)) [].
End from_map.

(** ** Policies of a peer *)

Lemma same_route_key p p' : same_route p p' = true ↔ route_key_of p = route_key_of p'.
Proof.
  destruct p, p'; simpl; rewrite ?bool_decide_eq_true; (split; [by intros ->|by intros [=]]) || done.
Qed.

(** A policy is its route and its priority. *)
Lemma policy_eq p p' : route_key_of p = route_key_of p' → priority p = priority p' → p = p'.
Proof. destruct p, p'; simpl; intros [=] ?; by subst. Qed.

Lemma set_priority_same p p' : route_key_of p = route_key_of p' → set_priority (priority p') p = p'.
Proof. destruct p, p'; simpl; intros [=]; by subst. Qed.

(** [p] is among [l], and no policy of [l] offers its route at a better
    priority. *)
Definition best_of_route (l : list route_policy) (p : route_policy) : Prop :=
  p ∈ l ∧ ∀ p', p' ∈ l → route_key_of p' = route_key_of p → priority p ≤ priority p'.

Definition keys (l : list route_policy) : list route_key := map route_key_of l.

Lemma keys_inj l p p' :
  NoDup (keys l) → p ∈ l → p' ∈ l → route_key_of p = route_key_of p' → p = p'.
Proof.
  intros Hl Hp Hp' He. induction l as [|q l IH]; [set_solver|]. cbn in Hl. apply NoDup_cons in Hl as [Hq Hl].
  apply elem_of_cons in Hp as [->|Hp], Hp' as [->|Hp']; [done| | |by apply IH];
    destruct Hq; apply list_elem_of_fmap; eauto.
Qed.

Lemma best_of_distinct l p : NoDup (keys l) → best_of_route l p ↔ p ∈ l.
Proof.
  intros Hl. split; [by intros []|]. intros Hp. split; [done|]. intros p' Hp' He.
  by rewrite (keys_inj l p' p).
Qed.

Lemma best_of_exists l : l ≠ [] → ∃ p, best_of_route l p.
Proof.
  induction l as [|p l IH]; [done|]. intros _. destruct l as [|p' l].
  { exists p. split; [set_solver|]. intros q ->%list_elem_of_singleton _. lia. }
  destruct IH as (q & Hq & Hb); [done|].
  destruct (decide (route_key_of p = route_key_of q ∧ priority p < priority q)) as [[Hk Hlt]|Hno].
  - exists p. split; [by left|]. intros r [->|Hr]%elem_of_cons Hrk; [lia|].
    specialize (Hb r Hr ltac:(congruence)). lia.
  - exists q. split; [by right|]. intros r [->|Hr]%elem_of_cons Hrk; [|by apply Hb].
    destruct (decide (priority p < priority q)); [by destruct Hno|lia].
Qed.

Lemma best_of_perm l l' p : (∀ q, q ∈ l ↔ q ∈ l') → best_of_route l p ↔ best_of_route l' p.
Proof. intros He. unfold best_of_route. by setoid_rewrite He. Qed.

(** Replacing a policy by a better one of the same route, or keeping the better. *)
Lemma best_of_drop l q q' p :
  q' ∈ l → route_key_of q = route_key_of q' → priority q' ≤ priority q →
  best_of_route (q :: l) p ↔ best_of_route l p.
Proof.
  intros Hq' Hk Hle. unfold best_of_route. split.
  - intros [[->|Hp]%elem_of_cons Hb]; [|split; [done|]; intros; apply Hb; [by right|done]].
    assert (q = q') as ->.
    { apply policy_eq; [done|]. specialize (Hb q' ltac:(by right) (eq_sym Hk)). lia. }
    split; [done|]. intros; apply Hb; [by right|done].
  - intros [Hp Hb]. split; [by right|]. intros p' [->|Hp']%elem_of_cons He; [|by apply Hb].
    specialize (Hb q' Hq'). rewrite Hk in He. specialize (Hb He). lia.
Qed.

Lemma elem_of_insert {A} (l : list A) i x y z :
  l !! i = Some y → z ∈ y :: <[i := x]> l ↔ z ∈ x :: l.
Proof.
  intros Hi. pose proof (lookup_lt_Some _ _ _ Hi) as Hlt.
  rewrite !elem_of_cons, !list_elem_of_lookup. split.
  - intros [->|[j Hj]]; [right; eauto|]. apply list_lookup_insert_Some in Hj as [(<- & <- & _)|[_ Hj]]; eauto.
  - intros [->|[j Hj]]; [right; exists i; by apply list_lookup_insert_eq|].
    destruct (decide (j = i)) as [->|Hne]; [left; by simplify_eq|right; exists j].
    by rewrite list_lookup_insert_ne.
Qed.

Lemma sorted_lookup {A} (R : A → A → Prop) l i j x y :
  StronglySorted R l → (i < j)%nat → l !! i = Some x → l !! j = Some y → R x y.
Proof.
  intros Hs Hij Hi Hj. rewrite <- (take_drop j l) in Hs.
  eapply StronglySorted_app_1_elem_of; [exact Hs|apply list_elem_of_lookup_2 with i|apply list_elem_of_lookup_2 with O].
  - by rewrite lookup_take_lt.
  - by rewrite lookup_drop, Nat.add_0_r.
Qed.

Section policies.
Context `{policy_sort_laws} (routes_cap : capacity).

Lemma bounded_push_room {A} (cap : capacity) (l : list A) (x : A) :
  within_capacity cap (S (length l)) → push cap l x = Ok (l ++ [x]).
Proof. intros Hl. unfold push. by rewrite try_push_room. Qed.

Lemma within_capacity_le cap n m : (n ≤ m)%nat → within_capacity cap m → within_capacity cap n.
Proof. destruct cap; simpl; [lia|done]. Qed.

Lemma push_all_room {A} (cap : capacity) (xs l : list A) :
  within_capacity cap (length xs + length l) → push_all cap xs l = Ok (l ++ xs).
Proof.
  revert l; induction xs as [|x xs IH]; intros l Hc; simpl; [by rewrite app_nil_r|].
  rewrite bounded_push_room by (eapply within_capacity_le; [|done]; simpl; lia). simpl.
  rewrite IH by (rewrite length_app; eapply within_capacity_le; [|done]; simpl; lia).
  by rewrite <- app_assoc.
Qed.

Lemma route_keys_room policies :
  within_capacity routes_cap (length policies) → route_keys_for_policies routes_cap policies = Ok (keys policies).
Proof.
  intros Hc. unfold route_keys_for_policies. by rewrite push_all_room; [|rewrite length_map, Nat.add_0_r].
Qed.

Lemma dedupe_spec policies deduped :
  NoDup (keys deduped) → within_capacity routes_cap (length policies + length deduped) →
  ∃ ps, dedupe routes_cap policies deduped = Ok ps ∧ NoDup (keys ps) ∧
    (length ps ≤ length policies + length deduped)%nat ∧
    ∀ p, p ∈ ps ↔ best_of_route (deduped ++ policies) p.
Proof.
  revert deduped; induction policies as [|q policies IH]; intros deduped Hnd Hc; cbn [dedupe].
  { exists deduped. rewrite app_nil_r. split_and!; [done|done|simpl; lia|]. intros p. by rewrite best_of_distinct. }
  destruct (list_find _ deduped) as [[i e]|] eqn:Hf.
  - apply list_find_Some in Hf as (Hi & He & _). apply same_route_key in He.
    pose proof (list_elem_of_lookup_2 _ _ _ Hi) as Hin.
    destruct (priority q <? priority e) eqn:Hlt.
    + rewrite set_priority_same by done.
      destruct (IH (<[i := q]> deduped)) as (ps & -> & Hps & Hl & Hb).
      { unfold keys. rewrite list_fmap_insert, list_insert_id; [done|]. by rewrite list_lookup_fmap, Hi, <- He. }
      { rewrite length_insert. eapply within_capacity_le; [|done]. simpl; lia. }
      rewrite length_insert in Hl. exists ps. split_and!; [done|done|simpl; lia|]. intros p. rewrite Hb.
      rewrite <- (best_of_drop _ e q); [| |done|lia].
      2: { apply elem_of_app. left. apply list_elem_of_lookup_2 with i. apply list_lookup_insert_eq.
           by eapply lookup_lt_Some. }
      apply best_of_perm. intros r. pose proof (elem_of_insert deduped i q e r Hi) as Hr.
      rewrite !elem_of_cons in Hr. rewrite elem_of_cons, !elem_of_app, elem_of_cons. tauto.
    + destruct (IH deduped) as (ps & -> & Hps & Hl & Hb); [done| |].
      { eapply within_capacity_le; [|done]. simpl; lia. }
      exists ps. split_and!; [done|done|simpl; lia|]. intros p. rewrite Hb.
      rewrite <- (best_of_drop _ q e); [|set_solver|by rewrite He|lia].
      apply best_of_perm. intros r. set_solver.
  - rewrite bounded_push_room by (eapply within_capacity_le; [|done]; simpl; lia). simpl.
    destruct (IH (deduped ++ [q])) as (ps & -> & Hps & Hl & Hb).
    { unfold keys. rewrite map_app. apply NoDup_app. split_and!; [done| |apply NoDup_singleton].
      intros k (e & -> & He)%list_elem_of_fmap Hk%list_elem_of_singleton.
      apply list_find_None in Hf. rewrite Forall_forall in Hf. apply (Hf e He). by apply same_route_key. }
    { rewrite length_app. eapply within_capacity_le; [|done]. simpl; lia. }
    rewrite length_app in Hl. exists ps. split_and!; [done|done|simpl in *; lia|]. intros p. by rewrite Hb, <- app_assoc.
Qed.

(** Sorted, no route twice, each at its best priority. *)
Record normal_form (l ps : list route_policy) : Prop := {
  normal_sorted i j p p' : (i ≤ j)%nat → ps !! i = Some p → ps !! j = Some p' → priority p ≤ priority p';
  normal_distinct : NoDup (keys ps);
  normal_best p : p ∈ ps ↔ best_of_route l p;
  normal_length : (length ps ≤ length l)%nat
}.

Lemma dedupe_and_sort_spec l :
  within_capacity routes_cap (length l) →
  ∃ ps, dedupe_and_sort_policies routes_cap l = Ok ps ∧ normal_form l ps.
Proof.
  intros Hc. unfold dedupe_and_sort_policies.
  destruct (dedupe_spec l []) as (ps & -> & Hnd & Hlen & Hb); [constructor|by rewrite Nat.add_0_r|].
  cbn [result_bind]. eexists. split; [done|]. pose proof (sort_policies_perm ps) as Hp. split.
  - intros i j p p' Hij Hi Hj. pose proof (sort_policies_sorted ps) as Hs.
    apply Sorted_StronglySorted in Hs; [|intros ???; lia].
    destruct (decide (i = j)) as [->|Hne]; [simplify_eq; lia|].
    apply (sorted_lookup _ _ i j p p' Hs); [lia|done..].
  - unfold keys. by rewrite Hp.
  - intros p. by rewrite Hp, Hb.
  - rewrite Hp. simpl in Hlen. lia.
Qed.
End policies.

(** ** The policies of a peer of the map *)

(** What the map says about the routes to [destination]: the routes whose
    relay is another peer of the map, or a direct route without an endpoint
    when there is none. *)
Definition advertised (m : network_map) (destination : map_peer) : list route_policy :=
  match omap (policy_of_route m destination) (map_routes destination) with
  | [] => [PolicyDirect None 0]
  | l => l
  end.

(** [MAX_ROUTES] bounds the routes of a peer of the map. *)
Definition routes_fit (cap : capacity) (p : map_peer) : Prop :=
  within_capacity cap (Nat.max 1 (length (map_routes p))).

Section map_policies.
Context `{policy_sort_laws} (routes_cap : capacity).

Lemma expand_routes_spec m destination routes policies :
  within_capacity routes_cap (length routes + length policies) →
  expand_routes routes_cap m destination routes policies =
    Ok (policies ++ omap (policy_of_route m destination) routes).
Proof.
  revert policies; induction routes as [|r routes IH]; intros policies Hc; cbn; [by rewrite app_nil_r|].
  destruct (policy_of_route m destination r) as [p|].
  - rewrite bounded_push_room by (eapply within_capacity_le; [|done]; simpl; lia). cbn [result_bind].
    rewrite IH by (rewrite length_app; eapply within_capacity_le; [|done]; simpl; lia).
    by rewrite <- app_assoc.
  - apply IH. eapply within_capacity_le; [|done]. simpl; lia.
Qed.

Lemma relay_of_advertised m destination r q :
  PolicyRelay r q ∈ advertised m destination →
  r ≠ map_public_key destination ∧ ∃ relay, relay ∈ map_peers m ∧ map_public_key relay = r.
Proof.
  unfold advertised. destruct (omap _ _) as [|p l] eqn:E; [set_solver|]. rewrite <- E.
  intros (x & _ & Hx)%list_elem_of_omap. unfold policy_of_route in Hx.
  destruct (route_kind_of x); [by simplify_eq|]. case_match eqn:Hf; [|done]. destruct p0 as [i relay].
  apply list_find_Some in Hf as (Hi & _ & _). case_decide; [done|]. simplify_eq.
  split; [done|]. exists relay. split; [by eapply list_elem_of_lookup_2|done].
Qed.

Lemma omap_length_le {A B} (f : A → option B) l : (length (omap f l) ≤ length l)%nat.
Proof. induction l as [|a l IH]; cbn; [done|]. destruct (f a); cbn; lia. Qed.

Lemma route_policies_spec m destination :
  routes_fit routes_cap destination →
  ∃ ps, route_policies_for_peer routes_cap m destination = Ok ps ∧ ps ≠ [] ∧
    normal_form (advertised m destination) ps ∧ within_capacity routes_cap (length ps).
Proof.
  unfold routes_fit. intros Hfit. unfold route_policies_for_peer.
  rewrite expand_routes_spec by (eapply within_capacity_le; [|done]; simpl; lia). cbn [result_bind app].
  set (l := omap (policy_of_route m destination) (map_routes destination)).
  pose proof (omap_length_le (policy_of_route m destination) (map_routes destination)) as Hlen. fold l in Hlen.
  assert (match l with [] => push routes_cap l (PolicyDirect None 0) | _ => Ok l end =
    Ok (advertised m destination)) as Hadv.
  { unfold advertised. fold l. destruct l; [|done].
    rewrite bounded_push_room by (eapply within_capacity_le; [|done]; simpl; lia). done. }
  assert (length (advertised m destination) ≤ Nat.max 1 (length (map_routes destination)))%nat as Hlen'.
  { unfold advertised. fold l. destruct l; simpl in *; lia. }
  assert (advertised m destination ≠ []) as Hne. { unfold advertised. by destruct (omap _ _). }
  rewrite Hadv. cbn [result_bind]. clear Hadv.
  destruct (dedupe_and_sort_spec routes_cap (advertised m destination)) as (ps & -> & Hn).
  { by eapply within_capacity_le. }
  exists ps. split_and!; [done| |done|].
  - intros ->. destruct Hn as [_ _ Hb _].
    destruct (best_of_exists (advertised m destination) Hne) as [p Hp]. apply Hb in Hp. set_solver.
  - destruct Hn as [_ _ _ Hl]. eapply within_capacity_le; [|exact Hfit]. lia.
Qed.

(** C26: the policies of a peer. Computing them never fails within the bound on
    the routes of a peer. There is at least one, they are sorted by priority,
    no route occurs twice, and they are exactly the advertised routes, each at
    the best priority it is advertised with; a relay is another peer of the
    map, never the destination itself. *)
Theorem route_policies_normalized m destination :
  routes_fit routes_cap destination →
  ∃ ps, route_policies_for_peer routes_cap m destination = Ok ps ∧ ps ≠ [] ∧
    (∀ i j p p', (i ≤ j)%nat → ps !! i = Some p → ps !! j = Some p' → priority p ≤ priority p') ∧
    NoDup (map route_key_of ps) ∧
    (∀ p, p ∈ ps ↔ p ∈ advertised m destination ∧
      ∀ p', p' ∈ advertised m destination → route_key_of p' = route_key_of p → priority p ≤ priority p') ∧
    ∀ r q, PolicyRelay r q ∈ ps →
      r ≠ map_public_key destination ∧ ∃ relay, relay ∈ map_peers m ∧ map_public_key relay = r.
Proof.
  intros Hfit. destruct (route_policies_spec m destination Hfit) as (ps & ? & ? & [Hs Hd Hb _] & _).
  exists ps. split_and!; [done..|]. intros r q [Hp _]%Hb. by eapply relay_of_advertised.
Qed.
End map_policies.

(** ** The policy a peer starts with *)

Lemma best_priority_spec ps b :
  best_priority ps = Some b → (∃ p, p ∈ ps ∧ priority p = b) ∧ ∀ p, p ∈ ps → b ≤ priority p.
Proof.
  destruct ps as [|p ps]; [done|]. cbn [best_priority]. intros [= <-]. revert p.
  induction ps as [|q ps IH]; intros p; cbn [foldl].
  { split; [exists p; set_solver|]. intros ? ->%list_elem_of_singleton. lia. }
  destruct (Z.min_spec (priority p) (priority q)) as [[? E]|[? E]]; rewrite E.
  - destruct (IH p) as [(r & Hr & Hrb) Hb]. split; [exists r; set_solver|]. intros r' Hr'.
    pose proof (Hb p ltac:(by left)). apply elem_of_cons in Hr' as [->|[->|Hr']%elem_of_cons]; [lia..|].
    apply Hb. by right.
  - destruct (IH q) as [(r & Hr & Hrb) Hb]. split; [exists r; set_solver|]. intros r' Hr'.
    pose proof (Hb q ltac:(by left)). apply elem_of_cons in Hr' as [->|[->|Hr']%elem_of_cons]; [lia..|].
    apply Hb. by right.
Qed.

(** The policies of priority [b] with their indexes. *)
Definition candidates (ps : list route_policy) (b : Z) : list (nat * route_policy) :=
  filter (λ ip : nat * route_policy, priority ip.2 = b) (imap (λ i p, (i, p)) ps).

Lemma elem_of_candidates ps b i p :
  (i, p) ∈ candidates ps b ↔ ps !! i = Some p ∧ priority p = b.
Proof.
  unfold candidates. rewrite list_elem_of_filter, elem_of_lookup_imap. cbn. naive_solver.
Qed.

Section initial_policy.
Context `{policy_sort_laws} {R : Type} `{random R} (usize_bits : Z).

Lemma random_below_lt (rng : R) n : (0 < n)%nat → ((random_below usize_bits rng n).1 < n)%nat.
Proof.
  intros Hn. unfold random_below. destruct n as [|n]; [lia|]. destruct (next_u64 rng) as [x rng']. cbn [fst].
  pose proof (Z.mod_pos_bound (wrap usize_bits x) (Z.of_nat (S n)) ltac:(lia)). lia.
Qed.

Lemma initial_policy_eq ps b (rng : R) :
  best_priority ps = Some b →
  (initial_policy_index usize_bits ps rng).1 =
    default O (fst <$> candidates ps b !! (random_below usize_bits rng (length (candidates ps b))).1).
Proof.
  intros Hb. unfold initial_policy_index. rewrite Hb. fold (candidates ps b).
  by destruct (random_below _ _ _).
Qed.

Lemma initial_policy_spec ps (rng : R) :
  ps ≠ [] → ∃ p, ps !! (initial_policy_index usize_bits ps rng).1 = Some p ∧
    ∀ p', p' ∈ ps → priority p ≤ priority p'.
Proof.
  intros Hne. destruct (best_priority ps) as [b|] eqn:Hb; [|by destruct ps].
  rewrite (initial_policy_eq _ _ _ Hb). destruct (best_priority_spec _ _ Hb) as [(q & Hq & Hqb) Hmin].
  apply list_elem_of_lookup in Hq as [j Hj].
  assert ((j, q) ∈ candidates ps b) as Hc by (by apply elem_of_candidates).
  assert (0 < length (candidates ps b))%nat as Hlen by (destruct (candidates ps b); [set_solver|simpl; lia]).
  pose proof (random_below_lt rng _ Hlen) as Hk.
  destruct (lookup_lt_is_Some_2 (candidates ps b) _ Hk) as [[i p] Hip]. rewrite Hip. cbn.
  apply list_elem_of_lookup_2, elem_of_candidates in Hip as [Hi Hp]. exists p. split; [done|].
  intros p' Hp'. rewrite Hp. by apply Hmin.
Qed.

(** The policy a peer starts with has the best priority, and the draw
    spreads peers over all of those: the candidates are numbered, each has a
    number, and the draw modulo their count is the number of the choice. *)
Theorem initial_policy_balanced ps :
  ps ≠ [] →
  let best p := ∀ p', p' ∈ ps → priority p ≤ priority p' in
  (∀ rng : R, ∃ p, ps !! (initial_policy_index usize_bits ps rng).1 = Some p ∧ best p) ∧
  ∃ n, (0 < n)%nat ∧ ∀ i p, ps !! i = Some p → best p →
    ∃ k, 0 ≤ k < Z.of_nat n ∧ ∀ rng : R,
      wrap usize_bits (next_u64 rng).1 mod Z.of_nat n = k →
      (initial_policy_index usize_bits ps rng).1 = i.
Proof.
  intros Hne best. split; [intros; by apply initial_policy_spec|].
  destruct (best_priority ps) as [b|] eqn:Hb; [|by destruct ps].
  destruct (best_priority_spec _ _ Hb) as [(q & Hq & Hqb) Hmin].
  exists (length (candidates ps b)). split.
  { apply list_elem_of_lookup in Hq as [j Hj].
    assert ((j, q) ∈ candidates ps b) as Hc by (by apply elem_of_candidates).
    destruct (candidates ps b); [set_solver|simpl; lia]. }
  intros i p Hi Hp. assert ((i, p) ∈ candidates ps b) as Hc.
  { apply elem_of_candidates. split; [done|]. pose proof (Hp q Hq).
    pose proof (Hmin p ltac:(by eapply list_elem_of_lookup_2)). lia. }
  apply list_elem_of_lookup in Hc as [k Hk]. pose proof (lookup_lt_Some _ _ _ Hk) as Hlt.
  exists (Z.of_nat k). split; [lia|]. intros rng Hdraw. rewrite (initial_policy_eq _ _ _ Hb).
  unfold random_below. destruct (length (candidates ps b)) as [|n] eqn:En; [lia|].
  destruct (next_u64 rng) as [x rng']. cbn [fst] in *. by rewrite Hdraw, Nat2Z.id, Hk.
Qed.
End initial_policy.

(** ** Rendering a peer *)

(** The block of one address. *)
Definition host (ip : ip_addr) : ip_net :=
  match ip with
  | IpV4 a => NetV4 (Ipv4Net a 32)
  | IpV6 a => NetV6 (Ipv6Net a 128)
  end.

Lemma host_block_eq ip : host_block ip = Some (host ip).
Proof. by destruct ip. Qed.

Lemma host_valid ip : ip_addr_valid ip → ip_net_valid (host ip).
Proof. destruct ip; simpl; intros; split; (done || lia). Qed.

#[global] Instance host_inj : Inj (=) (=) host.
Proof. intros [] []; simpl; congruence. Qed.

Lemma host_contains ip a : ip_addr_valid ip → ip_addr_valid a → Table.contains (host ip) a = true ↔ a = ip.
Proof.
  intros Hip Ha. destruct ip as [x|x], a as [y|y]; simpl in *; try done; unfold ipv4_network, ipv6_network;
    cbn [v4_addr v4_prefix_len v6_addr v6_prefix_len].
  - rewrite !Table.network_mask4, !mask_full, Z.eqb_eq by (done || lia). naive_solver.
  - rewrite !Table.network_mask6, !mask_full, Z.eqb_eq by (done || lia). naive_solver.
Qed.

Lemma host_normal ip : ip_addr_valid ip → Table.normalize (host ip) = host ip.
Proof.
  destruct ip; simpl; intros; unfold ipv4_network, ipv6_network;
    cbn [v4_addr v4_prefix_len v6_addr v6_prefix_len].
  - by rewrite Table.network_mask4, mask_full by (done || lia).
  - by rewrite Table.network_mask6, mask_full by (done || lia).
Qed.

Definition rendered_endpoint (p : desired_peer) (i : nat) : option socket_addr :=
  match desired_policies p !! i with
  | Some (PolicyDirect endpoint _) => endpoint
  | Some (PolicyRelay _ _) => preferred_direct_endpoint p
  | None => None
  end.

Definition rendered_relay (p : desired_peer) (i : nat) : option bytes :=
  match desired_policies p !! i with
  | Some (PolicyRelay relay _) => Some relay
  | _ => None
  end.

(** The configuration of a peer for one of its policies. *)
Definition rendered (p : desired_peer) (i : nat) : peer_config :=
  PeerConfig (desired_key p) (rendered_endpoint p i) (map host (desired_allowed_ips p))
    (desired_keepalive p) (rendered_relay p i).

Lemma config_for_policy_eq p i :
  config_for_policy p i (desired_keepalive p) = Some (rendered p i).
Proof.
  unfold config_for_policy, rendered, rendered_endpoint, rendered_relay.
  assert (mapM host_block (desired_allowed_ips p) = Some (map host (desired_allowed_ips p))) as ->.
  { apply mapM_Some_2. induction (desired_allowed_ips p); constructor; [apply host_block_eq|done]. }
  cbn [mbind option_bind]. destruct (desired_policies p !! i) as [[]|]; done.
Qed.

Lemma config_eq p : config p = Some (rendered p (active_policy_index p)).
Proof. apply config_for_policy_eq. Qed.

(** ** The desired peers of a map *)

(** A desired peer keeps a valid selection. *)
Record wf_desired (p : desired_peer) : Prop := {
  wf_active_lt : (desired_active_policy p < length (desired_policies p))%nat;
  wf_active_route : desired_active_route p = route_key_of <$> desired_policies p !! desired_active_policy p;
  wf_distinct : NoDup (keys (desired_policies p))
}.

Lemma active_policy_index_eq p : wf_desired p → active_policy_index p = desired_active_policy p.
Proof. intros [? _ _]. unfold active_policy_index. lia. Qed.

Lemma wf_select_policy i p : wf_desired p → wf_desired (select_policy i p).
Proof.
  intros [Hlt _ Hd]. unfold select_policy. split; cbn [desired_active_policy desired_policies desired_active_route];
    [lia|done|done].
Qed.

(** What the desired peer of a peer of the map is, whichever best policy is
    active. *)
Record derived (m : network_map) (mp : map_peer) (p : desired_peer) : Prop := {
  derived_key : desired_key p = map_public_key mp;
  derived_ips : desired_allowed_ips p = option_list (tunnel_ip mp);
  derived_keepalive : desired_keepalive p = if is_directory mp then Some 25 else None;
  derived_policies : normal_form (advertised m mp) (desired_policies p);
  derived_wf : wf_desired p
}.

(** The policy of a desired peer has the best priority. *)
Definition starts_best (p : desired_peer) : Prop :=
  ∃ q, desired_policies p !! desired_active_policy p = Some q ∧
    ∀ q', q' ∈ desired_policies p → priority q ≤ priority q'.

(** The capacities suffice for a map. *)
Record map_fits (lim : limits) (routes_cap : capacity) (m : network_map) : Prop := {
  fits_peers : within_capacity (max_peers lim) (length (map_peers m));
  fits_ips : within_capacity (max_allowed_ips_per_peer lim) 1;
  fits_routes p : p ∈ map_peers m → routes_fit routes_cap p
}.

Section desired_peers.
Context `{policy_sort_laws} {R : Type} `{random R} (lim : limits) (routes_cap : capacity) (usize_bits : Z).

Lemma desired_peer_of_spec m mp desired (rng : R) :
  routes_fit routes_cap mp → within_capacity (max_allowed_ips_per_peer lim) 1 →
  within_capacity (max_peers lim) (S (size desired)) →
  ∃ p rng', desired_peer_of lim routes_cap usize_bits m mp desired rng =
      (Ok (<[map_public_key mp := p]> desired), rng') ∧ derived m mp p ∧ starts_best p ∧
      within_capacity routes_cap (length (desired_policies p)).
Proof.
  intros Hr Hi Hc. unfold desired_peer_of.
  assert (allowed_ips_of lim mp = Ok (option_list (tunnel_ip mp))) as ->.
  { unfold allowed_ips_of. destruct (tunnel_ip mp); [by rewrite bounded_push_room|done]. }
  destruct (route_policies_spec routes_cap m mp Hr) as (ps & -> & Hne & Hn & Hfit).
  pose proof (initial_policy_spec usize_bits ps rng Hne) as (p & Hp & Hbest).
  destruct ps as [|q ps]; [done|].
  destruct (initial_policy_index usize_bits (q :: ps) rng) as [active rng'] eqn:Ea. cbn [fst] in Hp.
  pose proof (lookup_lt_Some _ _ _ Hp) as Hlt.
  set (peer := DesiredPeer _ _ _ _ _ _). exists peer, rng'. split; [|split; [|split; [by exists p|done]]].
  - unfold try_insert_entry. apply has_room_spec in Hc. by rewrite Hc, orb_true_r.
  - split; try done. split; [done..|]. apply Hn.
Qed.

(** The last peer of a list with its key. *)
Definition last_with_key (ps : list map_peer) (mp : map_peer) : Prop :=
  ∃ l1 l2, ps = l1 ++ mp :: l2 ∧ map_public_key mp ∉ map map_public_key l2.

Lemma desired_peers_loop_spec m ps desired (rng : R) :
  (∀ p, p ∈ ps → routes_fit routes_cap p) → within_capacity (max_allowed_ips_per_peer lim) 1 →
  within_capacity (max_peers lim) (length ps + size desired) →
  ∃ desired' rng', desired_peers_loop lim routes_cap usize_bits m ps desired rng = (Ok desired', rng') ∧
    ∀ k, (k ∉ map map_public_key ps ∧ desired' !! k = desired !! k) ∨
      ∃ mp p, last_with_key ps mp ∧ map_public_key mp = k ∧ desired' !! k = Some p ∧ derived m mp p ∧
        starts_best p ∧ within_capacity routes_cap (length (desired_policies p)).
Proof.
  revert desired rng; induction ps as [|mp ps IH]; intros desired rng Hr Hi Hc; cbn [desired_peers_loop].
  { exists desired, rng. split; [done|]. intros k. left. split; [set_solver|done]. }
  destruct (desired_peer_of_spec m mp desired rng) as (p & rng' & -> & Hp & Hb & Hf); [|done| |].
  { apply Hr. by left. }
  { eapply within_capacity_le; [|done]. simpl. lia. }
  destruct (IH (<[map_public_key mp := p]> desired) rng') as (desired' & rng'' & -> & Hd); [|done| |].
  { intros q Hq. apply Hr. by right. }
  { eapply within_capacity_le; [|done]. rewrite map_size_insert. case_match; simpl; lia. }
  exists desired', rng''. split; [done|]. intros k. destruct (Hd k) as [[Hk Hl]|(mp' & p' & (l1 & l2 & -> & Hl) & Hrest)].
  - destruct (decide (k = map_public_key mp)) as [->|Hne].
    + right. exists mp, p. rewrite Hl, lookup_insert_eq. split_and!; try done. by exists [], ps.
    + left. rewrite Hl, lookup_insert_ne by done. split; [set_solver|done].
  - right. exists mp', p'. split; [|done]. by exists (mp :: l1), l2.
Qed.

Lemma desired_peers_spec m (rng : R) :
  map_fits lim routes_cap m →
  ∃ desired rng', desired_peers_from_map lim routes_cap usize_bits m rng = (Ok desired, rng') ∧
    ∀ k, (k ∉ map map_public_key (map_peers m) ∧ desired !! k = None) ∨
      ∃ mp p, last_with_key (map_peers m) mp ∧ map_public_key mp = k ∧ desired !! k = Some p ∧ derived m mp p ∧
        starts_best p ∧ within_capacity routes_cap (length (desired_policies p)).
Proof.
  intros [Hp Hi Hr]. destruct (desired_peers_loop_spec m (map_peers m) ∅ rng) as (desired & rng' & E & Hd);
    [done|done|by rewrite map_size_empty, Nat.add_0_r|].
  exists desired, rng'. split; [done|]. intros k. destruct (Hd k) as [[Hk E']|Hk]; [left|by right].
  by rewrite E', lookup_empty.
Qed.
End desired_peers.

(** ** Instances *)

Definition priority_le (p p' : route_policy) : Prop := priority p ≤ priority p'.
#[local] Instance priority_le_dec : RelDecision priority_le.
Proof. intros p p'. unfold priority_le. apply _. Defined.
#[local] Instance priority_le_total : Total priority_le.
Proof. intros p p'. unfold priority_le. lia. Qed.

(** A stable sort is one of the sorts allowed. *)
Definition merge_policies : policy_sort := {| sort_policies := merge_sort priority_le |}.

Lemma merge_policies_laws : @policy_sort_laws merge_policies.
Proof. split; intros l; [apply merge_sort_Permutation|apply (Sorted_merge_sort priority_le)]. Qed.

#[local] Existing Instances merge_policies merge_policies_laws.

(** Draws in sequence. *)
Definition counting : random Z := {| next_u64 x := (x, x + 1) |}.
#[local] Existing Instance counting.

Definition sample_destination : map_peer :=
  MapPeer 1 (repeat 1 32) (Some (IpV4 0x0a000101)) false
    [MapRoute 20 (RouteRelay 2); MapRoute 7 (RouteRelay 9); MapRoute 10 (RouteDirect (Some (SockV4 0x7f000001 10001)));
     MapRoute 5 (RouteRelay 1); MapRoute 10 (RouteRelay 2)].
Definition sample_relay : map_peer :=
  MapPeer 2 (repeat 2 32) (Some (IpV4 0x0a000201)) true [MapRoute 0 (RouteDirect None)].
Definition sample_map : network_map := NetworkMap 1 [sample_destination; sample_relay].

Example sample_policies :
  route_policies_for_peer None sample_map sample_destination =
    Ok [PolicyRelay (repeat 2 32) 10; PolicyDirect (Some (SockV4 0x7f000001 10001)) 10].
Proof. reflexivity. Qed.

Lemma route_policies_normalized_witness :
  within_capacity (Some 5%nat) (Nat.max 1 (length (map_routes sample_destination))) ∧
  ∃ ps, route_policies_for_peer (Some 5%nat) sample_map sample_destination = Ok ps ∧ ps ≠ [] ∧
    NoDup (map route_key_of ps).
Proof.
  split; [simpl; lia|].
  destruct (route_policies_normalized (Some 5%nat) sample_map sample_destination) as (ps & ? & ? & _ & ? & _).
  - unfold routes_fit. simpl. lia.
  - by exists ps.
Defined.

(** Two policies of the best priority, both drawn. *)
Lemma initial_policy_balanced_witness :
  let ps := [PolicyRelay (repeat 2 32) 10; PolicyDirect None 10; PolicyRelay (repeat 3 32) 20] in
  initial_policy_index 64 ps 4 = (0%nat, 5) ∧ initial_policy_index 64 ps 7 = (1%nat, 8) ∧
  ∀ rng : Z, ∃ p, ps !! (initial_policy_index 64 ps rng).1 = Some p ∧
    ∀ p', p' ∈ ps → priority p ≤ priority p'.
Proof.
  intros ps. split; [reflexivity|]. split; [reflexivity|].
  exact (proj1 (initial_policy_balanced (R := Z) 64 ps ltac:(discriminate))).
Defined.
