(* ===== verification/Device.v ===== *)
(** * The device: the event handlers of [tendrilix/src/device.rs]

    A device carries packets between the network and an interface. One event is
    one turn of the loop of [Device::run]: a packet from the interface, a
    datagram, a tick of the timer or a command. A handler returns the packets it
    sends, in order, and the device after it; [None] is a panic. A failing send
    is logged and ignored by the code, so it has no effect here either. One
    event reads the clock once. *)

From S2P Require Import Prelude IpNet AllowedIps IpPacket Index Timestamper Wire Relay Bounded PacketPool PacketQueue.
From S2P Require Import PeerHealth Handshake RateLimiter Timers Tunn PeerTable.

Definition HANDSHAKE_RATE_LIMIT : Z := 100.
Definition MAX_ITR : nat := 100.

(** What a handler does to the outside. *)
Inductive output : Type :=
  | SendUdp (packet : bytes) (addr : socket_addr)
  | SendNic (packet : bytes) (peer_public_key : bytes).

(** [PendingUdpSend] *)
Definition pending : Type := option (bytes * socket_addr).

(** The buffers the loop owns. Their contents are overwritten before they are
    read. *)
Record buffers := Buffers { dst_buf : bytes; relay_plain_buf : bytes; relay_packet_buf : bytes }.

Inductive command : Type :=
  | CommandNone
  | Add (config : peer_config)
  | Update (config : peer_config)
  | Remove (public_key : bytes)
  | Get (public_key : bytes)
  | List.

(** The counters of the statistics; the estimated loss, the round-trip time and
    the byte counts are left out. *)
Record peer_info := PeerInfo { info_endpoint : option socket_addr; info_stats : peer_stats }.

Inductive command_output : Type :=
  | OutputNone
  | OutputPeerInfo (info : peer_info)
  | OutputPeerKeys (keys : gset bytes).

(** The normal form of the address of a datagram: an IPv4-mapped IPv6 address
    is the IPv4 address. *)
Definition to_ipv4_mapped (ip : Z) : option Z :=
  if Z.shiftr ip 32 =? 0xffff then Some (Z.land ip 0xffffffff) else None.

Definition normalize_socket_addr (a : socket_addr) : socket_addr :=
  match a with
  | SockV6 ip port _ _ =>
      match to_ipv4_mapped ip with
      | Some ip => SockV4 ip port
      | None => a
      end
  | SockV4 _ _ => a
  end.

Record device (P A : Type) := Device {
  private_key : bytes;
  public_key : bytes;
  limiter : rate_limiter;
  state : peer_state;
  device_pool : P;
  generator : index_generator;
  device_stamper : time_stamper;
  authorizer : A;
  drawn : nat
}.
Arguments Device {P A}.
Arguments private_key {P A}.
Arguments public_key {P A}.
Arguments limiter {P A}.
Arguments state {P A}.
Arguments device_pool {P A}.
Arguments generator {P A}.
Arguments device_stamper {P A}.
Arguments authorizer {P A}.
Arguments drawn {P A}.

Section device.
Context {P : Type} `{packet_pool P} `{N : noise_crypto} `{order : map_order} {A : Type}
  `{forwarding_authorizer A} (lim : limits) (ephemeral : nat → bytes).
Implicit Types (d : device P A).

Definition set_limiter (r : rate_limiter) d : device P A :=
  Device (private_key d) (public_key d) r (state d) (device_pool d) (generator d)
    (device_stamper d) (authorizer d) (drawn d).
Definition set_state (s : peer_state) d : device P A :=
  Device (private_key d) (public_key d) (limiter d) s (device_pool d) (generator d)
    (device_stamper d) (authorizer d) (drawn d).
Definition set_pool (pool : P) d : device P A :=
  Device (private_key d) (public_key d) (limiter d) (state d) pool (generator d)
    (device_stamper d) (authorizer d) (drawn d).
Definition set_generator (g : index_generator) d : device P A :=
  Device (private_key d) (public_key d) (limiter d) (state d) (device_pool d) g
    (device_stamper d) (authorizer d) (drawn d).
Definition draw d : device P A :=
  Device (private_key d) (public_key d) (limiter d) (state d) (device_pool d) (generator d)
    (device_stamper d) (authorizer d) (S (drawn d)).

(** The secret of the next handshake message, drawn from the caller's RNG. *)
Definition next_ephemeral d : bytes := ephemeral (drawn d).

(** Writing back one peer. *)
Definition set_peer (key : bytes) (p : peer) d : device P A :=
  set_state (set_peers (<[key := p]> (peers (state d))) (state d)) d.

Definition get_peer (key : bytes) d : option peer := peer_by_key (state d) key.

Definition drop_expired d (now : Z) : option (device P A) :=
  let! '(_, s, pool) := drop_expired_packet_queues (state d) (device_pool d) now in
  Some (set_pool pool (set_state s d)).

(** [config.peers] are added in order; the first failure is the result. *)
Fixpoint add_initial (l : list peer_config) (private_key : bytes) (stamper : time_stamper) (now : Z)
    (s : peer_state) (g : index_generator) : option (result peer_state error * index_generator) :=
  match l with
  | [] => Some (Ok s, g)
  | c :: l =>
      let! '(r, s, g) := add_peer_to_state lim s c private_key g stamper now in
      match r with
      | Ok _ => add_initial l private_key stamper now s g
      | Err e => Some (Err e, g)
      end
  end.

(** [draws] seed the index generator, the two keys the rate limiter. *)
Definition device_new (private_key : bytes) (authorizer : A) (configs : list peer_config)
    (g : index_generator) (stamper : time_stamper) (draws : list Z) (secret_key nonce_key : bytes)
    (pool : P) (now : Z) : option (result (device P A) error * index_generator) :=
  let! '(g, _) := initialize draws g in
  let! '(r, g) := add_initial configs private_key stamper now peer_state_new g in
  match r with
  | Err e => Some (Err e, g)
  | Ok s =>
      let public_key := public_from private_key in
      let limiter := rate_limiter_new public_key HANDSHAKE_RATE_LIMIT secret_key nonce_key now in
      Some (Ok (Device private_key public_key limiter s pool g stamper authorizer 0), g)
  end.

Definition stats (t : tunn) : peer_stats := PeerStats (Tunn.tx_packets t) (Tunn.rx_packets t).

Definition handle_peer_update d (c : command) (now : Z)
    : option (result command_output error * device P A) :=
  match c with
  | CommandNone => Some (Ok OutputNone, d)
  | Add config =>
      let! '(r, s, g) := add_peer_to_state lim (state d) config (private_key d) (generator d)
        (device_stamper d) now in
      let d := set_generator g (set_state s d) in
      match r with
      | Ok _ => Some (Ok OutputNone, d)
      | Err e => Some (Err e, d)
      end
  | Update config =>
      let! '(r, s) := update_peer_in_state lim (state d) config in
      match r with
      | Ok _ => Some (Ok OutputNone, set_state s d)
      | Err e => Some (Err e, set_state s d)
      end
  | Remove key => Some (Ok OutputNone, set_state (remove_peer_from_state (state d) key) d)
  | Get key =>
      match get_peer key d with
      | Some p => Some (Ok (OutputPeerInfo (PeerInfo (endpoint p) (stats (tunnel p)))), d)
      | None => Some (Err PeerNotFound, d)
      end
  | List => Some (Ok (OutputPeerKeys (peer_keys lim (state d))), d)
  end.

(** Encapsulating for a relay with the tunnel of a peer, and where to send the
    result. *)
Definition send_relay_data d (relay_key : bytes) (relay_peer : peer) (plaintext packet_buf : bytes)
    (now : Z) : option (pending * device P A) :=
  let! '(r, t, pool) := encapsulate_relay (tunnel relay_peer) (device_pool d) plaintext
    packet_buf now (next_ephemeral d) in
  let d := draw (set_pool pool (set_peer relay_key (set_tunnel t relay_peer) d)) in
  match r with
  | WriteToNetwork relay_packet =>
      Some (match endpoint relay_peer with
            | Some addr => Some (relay_packet, addr)
            | None => None
            end, d)
  | Done | TunnErr _ => Some (None, d)
  | _ => None
  end.

Definition prepare_packet_to_peer_via_relay d (destination_key relay_key packet : bytes)
    (plain_buf packet_buf : bytes) (now : Z) : option (pending * device P A) :=
  let! '(r, plain_buf) := build_envelope plain_buf destination_key packet in
  match r with
  | Err _ => Some (None, d)
  | Ok n =>
      let relay_plaintext := take n plain_buf in
      let! d := drop_expired d now in
      match get_peer relay_key d with
      | None => Some (None, d)
      | Some relay_peer => send_relay_data d relay_key relay_peer relay_plaintext packet_buf now
      end
  end.

Definition prepare_packet_to_peer d (destination_key packet plain_buf packet_buf : bytes) (now : Z)
    : option (pending * device P A) :=
  match get_peer destination_key d with
  | None => Some (None, d)
  | Some p =>
      match relay p with
      | Some relay_key =>
          prepare_packet_to_peer_via_relay d destination_key relay_key packet plain_buf packet_buf now
      | None =>
          match endpoint p with
          | Some addr => Some (Some (packet, addr), d)
          | None => Some (None, d)
          end
      end
  end.

Definition send_pending_packet (p : pending) : list output :=
  match p with
  | Some (packet, addr) => [SendUdp packet addr]
  | None => []
  end.

Definition handle_tun_packet d (src : bytes) (b : buffers) (now : Z)
    : option (list output * device P A) :=
  let! dst_addr := dst_address src in
  match dst_addr with
  | None => Some ([], d)
  | Some dst_addr =>
      let! route := Table.find (peers_by_ip (state d)) dst_addr in
      match route with
      | None => Some ([], d)
      | Some key =>
          let! d := drop_expired d now in
          match get_peer key d with
          | None => Some ([], d)
          | Some p =>
              let! '(r, t, pool) := encapsulate (tunnel p) (device_pool d) src (dst_buf b) now
                (next_ephemeral d) in
              let d := draw (set_pool pool (set_peer key (set_tunnel t p) d)) in
              match r with
              | Done | TunnErr _ => Some ([], d)
              | WriteToNetwork packet =>
                  let! '(pending, d) := prepare_packet_to_peer d key packet (relay_plain_buf b)
                    (relay_packet_buf b) now in
                  Some (send_pending_packet pending, d)
              | _ => None
              end
          end
      end
  end.

(** The peer a verified packet is for. *)
Definition packet_peer d (p : packet) : option (option bytes) :=
  match p with
  | PHandshakeInit p =>
      let! r := parse_handshake_anon (private_key d) (public_key d) p in
      Some (match r with
            | Ok key => if bool_decide (is_Some (get_peer key d)) then Some key else None
            | Err _ => None
            end)
  | PHandshakeResponse p => Some (peer_key_by_index (state d) (resp_receiver_idx p))
  | PCookieReply p => Some (peer_key_by_index (state d) (cookie_receiver_idx p))
  | PData p | PRelayData p => Some (peer_key_by_index (state d) (data_receiver_idx p))
  end.

(** A relayed packet whose envelope [e] passed its checks: onwards through the
    next relay, or bare to its destination. *)
Definition forward_relay_packet d (destination_key : bytes) (e : Envelope.envelope) (packet_buf : bytes)
    (now : Z) : option (pending * device P A) :=
  let '(destination_relay, destination_endpoint) :=
    match get_peer destination_key d with
    | Some destination_peer => (relay destination_peer, endpoint destination_peer)
    | None => (None, None)
    end in
  match destination_relay with
  | Some next_relay_key =>
      let! d := drop_expired d now in
      match get_peer next_relay_key d with
      | None => Some (None, d)
      | Some relay_peer =>
          let! '(r, e) := Envelope.decrement_hop_limit e in
          match r with
          | Err HopLimitExhausted => Some (None, d)
          | _ => send_relay_data d next_relay_key relay_peer (Envelope.buf e) packet_buf now
          end
      end
  | None =>
      match destination_endpoint with
      | Some addr => let! inner := Envelope.inner_packet e in Some (Some (inner, addr), d)
      | None => Some (None, d)
      end
  end.

(** The branch of [handle_udp_packet] for a packet relayed by the peer [p]. *)
Definition handle_relay_data d (peer_key : bytes) (p : peer) (packet : packet) (b : buffers) (now : Z)
    : option (list output * device P A) :=
  let! '(r, t) := handle_verified_relay_packet (tunnel p) packet (dst_buf b) in
  let d := set_peer peer_key (set_tunnel t p) d in
  match r with
  | Err _ => Some ([], d)
  | Ok relay_plaintext =>
      let! envelope := Envelope.parse relay_plaintext in
      match envelope with
      | Err _ => Some ([], d)
      | Ok e =>
          let! inner := Envelope.inner_packet e in
          let! valid := validate_inner_packet inner in
          match valid with
          | Err _ => Some ([], d)
          | Ok _ =>
              let! destination_key := Envelope.destination e in
              if negb (authorize (authorizer d) peer_key destination_key) then Some ([], d)
              else
                let! '(pending, d) := forward_relay_packet d destination_key e (relay_packet_buf b) now in
                Some (send_pending_packet pending, d)
          end
      end
  end.

(** Handing a decrypted packet to the interface, when its source is allowed. *)
Definition deliver_to_interface d (peer_key : bytes) (p : peer) (packet : bytes) (src : ip_addr)
    : option (list output * device P A) :=
  let! allowed := is_allowed_ip p src in
  Some (if (allowed : bool) then [SendNic packet peer_key] else [], d).

(** The loop of [flush_queued_packets]. *)
Fixpoint flush_queued_packets (n : nat) d (peer_key : bytes) (b : buffers) (now : Z)
    : option (list output * device P A) :=
  match n with
  | O => Some ([], d)
  | S n =>
      match get_peer peer_key d with
      | None => Some ([], d)
      | Some p =>
          let! '(r, t, pool) := flush_queued_packet (tunnel p) (device_pool d) (dst_buf b) in
          let d := set_pool pool (set_peer peer_key (set_tunnel t p) d) in
          match r with
          | WriteToNetwork packet =>
              let! '(pending, d) := prepare_packet_to_peer d peer_key packet (relay_plain_buf b)
                (relay_packet_buf b) now in
              let! '(out, d) := flush_queued_packets n d peer_key b now in
              Some (send_pending_packet pending ++ out, d)
          | _ => Some ([], d)
          end
      end
  end.

(** The other branch: every other packet goes through the tunnel of [p]. *)
Definition handle_tunnel_packet d (peer_key : bytes) (p : peer) (packet : packet) (src_addr : socket_addr)
    (b : buffers) (now : Z) : option (list output * device P A) :=
  let! '(r, t) := handle_verified_packet (tunnel p) packet (dst_buf b) now (next_ephemeral d) in
  let p := set_tunnel t p in
  let p :=
    match r with
    | TunnErr _ => p
    | _ => if bool_decide (endpoint p = Some src_addr) then p else set_endpoint src_addr p
    end in
  let d := draw (set_peer peer_key p d) in
  match r with
  | Done => Some ([], d)
  | TunnErr _ => Some ([], d)
  | WriteToNetwork packet =>
      let! '(pending, d) := prepare_packet_to_peer d peer_key packet (relay_plain_buf b)
        (relay_packet_buf b) now in
      let! '(out, d) := flush_queued_packets MAX_ITR d peer_key b now in
      Some (send_pending_packet pending ++ out, d)
  | WriteToInterfaceV4 packet addr => deliver_to_interface d peer_key p packet (IpV4 addr)
  | WriteToInterfaceV6 packet addr => deliver_to_interface d peer_key p packet (IpV6 addr)
  end.

(** [packet] is the datagram, [src_addr] its normalized source. *)
Definition handle_udp_packet d (packet : bytes) (src_addr : socket_addr) (b : buffers) (now : Z)
    : option (list output * device P A) :=
  let! '(r, l) := verify_packet (limiter d) (Some (socket_addr_ip src_addr)) packet
    (length (dst_buf b)) now in
  let d := set_limiter l d in
  match r with
  | Err (WriteToNetwork cookie) => Some ([SendUdp cookie src_addr], d)
  | Err _ => Some ([], d)
  | Ok parsed_packet =>
      let! peer_key := packet_peer d parsed_packet in
      match peer_key with
      | None => Some ([], d)
      | Some peer_key =>
          let! d := drop_expired d now in
          match get_peer peer_key d with
          | None => Some ([], d)
          | Some p =>
              match parsed_packet with
              | PRelayData _ => handle_relay_data d peer_key p parsed_packet b now
              | _ => handle_tunnel_packet d peer_key p parsed_packet src_addr b now
              end
          end
      end
  end.

(** One turn of the loop of [handle_timer_tick]. *)
Definition tick_peer d (key : bytes) (b : buffers) (now : Z) : option (list output * device P A) :=
  let! d := drop_expired d now in
  match get_peer key d with
  | None => Some ([], d)
  | Some p =>
      let! '(r, t, pool) := update_timers (tunnel p) (device_pool d) (dst_buf b) now (next_ephemeral d) in
      let d := draw (set_pool pool (set_peer key (set_tunnel t p) d)) in
      match r with
      | Done | TunnErr _ => Some ([], d)
      | WriteToNetwork packet =>
          let! '(pending, d) := prepare_packet_to_peer d key packet (relay_plain_buf b)
            (relay_packet_buf b) now in
          Some (send_pending_packet pending, d)
      | _ => None
      end
  end.

Fixpoint tick_peers (keys : list bytes) d (b : buffers) (now : Z) : option (list output * device P A) :=
  match keys with
  | [] => Some ([], d)
  | key :: keys =>
      let! '(out, d) := tick_peer d key b now in
      let! '(out', d) := tick_peers keys d b now in
      Some (out ++ out', d)
  end.

(** A hash set is iterated like a map to [()]. *)
Definition handle_timer_tick d (b : buffers) (now : Z) : option (list output * device P A) :=
  tick_peers (keys_in_order (gset_to_gmap tt (peer_keys lim (state d)))) d b now.

(** ** The event loop *)

Inductive event : Type :=
  | FromInterface (packet : bytes)
  | FromNetwork (packet : bytes) (src_endpoint : socket_addr)
  | TimerTick
  | FromClient (c : command).

(** [tick_count] is a [u8] local to the loop: every fourth tick resets the rate
    limiter. *)
Definition device_step (tick_count : Z) d (ev : event) (b : buffers) (now : Z)
    : option (list output * option (result command_output error) * Z * device P A) :=
  match ev with
  | FromInterface packet =>
      let! '(out, d) := handle_tun_packet d packet b now in Some (out, None, tick_count, d)
  | FromNetwork packet src_endpoint =>
      let! '(out, d) := handle_udp_packet d packet (normalize_socket_addr src_endpoint) b now in
      Some (out, None, tick_count, d)
  | TimerTick =>
      let! '(out, d) := handle_timer_tick d b now in
      let tick_count := wrap 8 (tick_count + 1) in
      if 4 <=? tick_count then
        Some (out, None, 0, set_limiter (reset_count (limiter d) now) d)
      else Some (out, None, tick_count, d)
  | FromClient c =>
      let! '(r, d) := handle_peer_update d c now in Some ([], Some r, tick_count, d)
  end.
End device.
