(* ===== verification/DeviceSafe.v ===== *)
(** * The invariant of a device

    Every handler of [tendrilix/src/device.rs] is total and keeps the invariant:
    sound tunnels, one pool in which the queues of the peers do not overlap,
    consistent tables, and packets that leave room for what is still wrapped
    around them. The last point needs roles: the peers that relay for others
    are not relayed themselves. *)

From S2P Require Import Prelude IpNet AllowedIps IpPacket Index Timestamper Wire Session Relay Bounded PacketPool PacketQueue.
From S2P Require Import PeerHealth Handshake RateLimiter Timers Tunn TunnTotal PeerTable Device.

(** ** Sizes *)

Lemma padded_len_le src : (padded_len src ≤ Nat.max (length src) MTU)%nat.
Proof.
  unfold padded_len. destruct src as [|b src]; [simpl; lia|].
  destruct (Nat.leb_spec (align16 (length (b :: src))) MTU); lia.
Qed.

(** What may wait for a session with the peer [k]: the envelope of a full packet,
    if that peer is among those that relay for others; otherwise the message
    may still be wrapped into an envelope itself. *)
Definition room (relays : gset bytes) (k : bytes) : nat :=
  if decide (k ∈ relays) then (MTU + PACKET_OVERHEAD + ENVELOPE_HEADER_SIZE)%nat else MTU.

(** What an envelope may carry. *)
Definition max_inner : nat := MTU + PACKET_OVERHEAD.

Lemma message_size_le src n :
  (length src ≤ n)%nat → (MTU ≤ n)%nat → (message_size src ≤ n + PACKET_OVERHEAD)%nat.
Proof.
  intros. pose proof (padded_len_le src). unfold message_size, HANDSHAKE_INIT_SZ, DATA_OFFSET,
    AEAD_SIZE, PACKET_OVERHEAD, MTU in *. lia.
Qed.

Lemma room_le relays k : (room relays k ≤ MTU + PACKET_OVERHEAD + ENVELOPE_HEADER_SIZE)%nat.
Proof. unfold room. case_decide; lia. Qed.

Lemma room_ge relays k : (MTU ≤ room relays k)%nat.
Proof. unfold room. case_decide; lia. Qed.

(** A message made of what may wait. *)
Lemma room_message relays k src :
  (length src ≤ room relays k)%nat →
  (message_size src ≤ MAX_PACKET_SIZE)%nat ∧ (k ∉ relays → message_size src ≤ max_inner)%nat.
Proof.
  intros Hs. pose proof (room_le relays k). split.
  - pose proof (message_size_le src (MTU + PACKET_OVERHEAD + ENVELOPE_HEADER_SIZE) ltac:(lia) ltac:(lia)).
    unfold MAX_PACKET_SIZE. lia.
  - intros Hk. unfold room in Hs. rewrite decide_False in Hs by done. unfold max_inner.
    apply message_size_le; lia.
Qed.

Record buffers_ok (b : buffers) : Prop := {
  dst_ok : length (dst_buf b) = MAX_PACKET_SIZE;
  plain_ok : length (relay_plain_buf b) = MAX_PACKET_SIZE;
  relay_ok : length (relay_packet_buf b) = MAX_PACKET_SIZE
}.

(** ** The invariant *)

Section invariant.
Context {P : Type} `{Q : packet_pool_laws P} `{L : noise_laws, V : !noise_open_laws}
  `{MO : map_order_laws} {A : Type} `{Au : forwarding_authorizer A}.
(** The peers that may relay for others. *)
Context (relays : gset bytes) (lim : limits) (ephemeral : nat → bytes).
Implicit Types (d : device P A).

Record wf_peer (now : Z) (st : time_stamper) (pool : P) (hdls : list handle) (n : nat) (p : peer) : Prop := {
  peer_sound : sound (tunnel p);
  peer_clock : time_of (timers (tunnel p)) TimeCurrent ≤
    duration_since now (time_started (timers (tunnel p)));
  peer_stamper : stamper (tunnel p) = st;
  peer_queue : linked (live pool) (packets (tunnel p)) hdls;
  peer_room x : x ∈ payloads (live pool) hdls → (length x.2 ≤ n)%nat
}.

(** [hq] gives the queue of each peer. *)
Record wf_device_with (now : Z) d (hq : bytes → list handle) : Prop := {
  device_table : wf_table (generator d) (state d);
  device_pool_ok : pool_inv (device_pool d);
  device_keys k : is_Some (peers (state d) !! k) → length k = KEY_LEN;
  device_peers k p : peers (state d) !! k = Some p → wf_peer now (device_stamper d) (device_pool d) (hq k) (room relays k) p;
  device_apart k1 k2 h : k1 ≠ k2 → is_Some (peers (state d) !! k1) → is_Some (peers (state d) !! k2) →
    h ∈ hq k1 → h ∉ hq k2;
  device_roles k p r : peers (state d) !! k = Some p → relay p = Some r → r ∈ relays ∧ k ∉ relays;
  device_moment : is_Some (stamp (device_stamper d) now)
}.

Definition wf_roles (now : Z) d : Prop := ∃ hq, wf_device_with now d hq.

(** What the handlers leave of a peer and of a device. *)
Definition config_of (p : peer) :=
  (index p, endpoint p, relay p, peer_allowed_ips p, persistent_keepalive (timers (tunnel p))).

Record same_net d d' : Prop := {
  net_peers k : config_of <$> peers (state d') !! k = config_of <$> peers (state d) !! k;
  net_routes : peers_by_ip (state d') = peers_by_ip (state d);
  net_idx : peers_by_idx (state d') = peers_by_idx (state d);
  net_generator : generator d' = generator d;
  net_stamper : device_stamper d' = device_stamper d;
  net_authorizer : authorizer d' = authorizer d
}.

Lemma same_net_refl d : same_net d d.
Proof. by split. Qed.

Lemma same_net_trans d1 d2 d3 : same_net d1 d2 → same_net d2 d3 → same_net d1 d3.
Proof. intros [] []. split; intros; etrans; eauto. Qed.

Lemma net_peer d d' k p :
  same_net d d' → peers (state d) !! k = Some p →
  ∃ p', peers (state d') !! k = Some p' ∧ config_of p' = config_of p.
Proof.
  intros Hs Hp. pose proof (net_peers _ _ Hs k) as E. rewrite Hp in E.
  destruct (peers (state d') !! k) as [p'|]; [|done]. exists p'. split; [done|].
  by apply (inj Some) in E.
Qed.

Lemma same_net_sym d d' : same_net d d' → same_net d' d.
Proof. by intros []. Qed.

(** A handler's step. *)
Definition steps (now : Z) d d' : Prop := wf_roles now d' ∧ same_net d d'.

Lemma steps_refl now d : wf_roles now d → steps now d d.
Proof. split; [done|apply same_net_refl]. Qed.

Lemma steps_trans now d1 d2 d3 : steps now d1 d2 → steps now d2 d3 → steps now d1 d3.
Proof. intros [] []. split; [done|by eapply same_net_trans]. Qed.

Lemma steps_draw now d d' : steps now d d' → steps now d (draw d').
Proof. intros [[hq []] []]. split; [by exists hq|done]. Qed.

Lemma steps_limiter now d d' r : steps now d d' → steps now d (set_limiter r d').
Proof. intros [[hq []] []]. split; [by exists hq|done]. Qed.

(** The packets of the other peers survive a step of one queue. *)
Lemma wf_peer_frame now st pool pool' hdls hdls' msg q n p hdls0 :
  pool_step pool hdls0 msg q pool' hdls' → (∀ h, h ∈ hdls → h ∉ hdls0) →
  wf_peer now st pool hdls n p → wf_peer now st pool' hdls n p ∧ ∀ h, h ∈ hdls → h ∉ hdls'.
Proof.
  intros [_ _ Hfr _] Hap [Hs Hc Hst Hq Hr].
  assert (∀ h, h ∈ hdls → (h ∉ hdls') ∧ live pool' !! h = live pool !! h) as Hsame.
  { intros h Hh. destruct (linked_live _ _ _ h Hq Hh) as [x Hx].
    destruct (Hfr h x (Hap h Hh) Hx) as [? ->]. by rewrite Hx. }
  split; [|by apply Hsame]. split; try done.
  - eapply linked_frame; [|done]. by apply Hsame.
  - rewrite (payloads_frame (live pool)); [done|]. intros h Hh. by rewrite (proj2 (Hsame h Hh)).
Qed.

(** Replacing the tunnel of one peer, and the pool along with it. *)
Lemma wf_device_step now d hq k p p' pool' hdls' msg :
  wf_device_with now d hq → peers (state d) !! k = Some p →
  index p' = index p → relay p' = relay p → peer_allowed_ips p' = peer_allowed_ips p →
  sound (tunnel p') → same_clock now (tunnel p) (tunnel p') →
  pool_step (device_pool d) (hq k) msg (packets (tunnel p')) pool' hdls' → (length msg ≤ room relays k)%nat →
  wf_device_with now (set_pool pool' (set_peer k p' d)) (λ k', if decide (k' = k) then hdls' else hq k').
Proof.
  intros [Ht Hpl Hk Hps Hap Hun Hm] Hp Hi Hr Ha Hso Hcl Hst Hmsg.
  assert (∀ j q, peers (state (set_pool pool' (set_peer k p' d))) !! j = Some q →
    (j = k ∧ q = p' ∨ j ≠ k ∧ peers (state d) !! j = Some q)) as Hcase.
  { intros j q. cbn. rewrite lookup_insert_Some. naive_solver. }
  assert (∀ j, is_Some (peers (state (set_pool pool' (set_peer k p' d))) !! j) →
    is_Some (peers (state d) !! j)) as Hdom.
  { intros j [q [[-> ->]|[_ Hq]]%Hcase]; by eexists. }
  split.
  - by apply (wf_table_set_peer _ _ _ p).
  - apply Hst.
  - intros j Hj%Hdom. by apply Hk.
  - intros j q [[-> ->]|[Hne Hq]]%Hcase.
    + rewrite decide_True by done. pose proof (Hps k p Hp) as [Hs Hc Hsm Hq Hrm].
      destruct Hcl as [E1 E2 E3 _]. split.
      * done.
      * rewrite E1. destruct E2 as [->| ->]; lia.
      * by rewrite E3.
      * apply Hst.
      * intros x Hx.
        destruct (step_payloads _ _ _ _ _ _ Hst x Hx) as [?| ->]; [by apply Hrm|done].
    + rewrite decide_False by done. eapply wf_peer_frame; [exact Hst| |by apply Hps].
      intros h Hh Hh'. eapply (Hap j k h); try done; by eexists.
  - intros k1 k2 h Hne Hk1%Hdom Hk2%Hdom.
    assert (∀ j, j ≠ k → is_Some (peers (state d) !! j) → ∀ h, h ∈ hq j → h ∉ hdls') as Hoth.
    { intros j Hj [q Hq]. eapply wf_peer_frame; [exact Hst| |by apply Hps].
      intros h' Hh Hh'. eapply (Hap j k h'); try done; by eexists. }
    destruct (decide (k1 = k)) as [->|]; destruct (decide (k2 = k)) as [->|]; try done.
    + intros Hh Hh'. by apply (Hoth k2 n Hk2 h).
    + by apply Hoth.
    + by apply Hap.
  - intros j q r [[-> ->]|[_ Hq]]%Hcase Hrq; [|by eapply Hun]. eapply Hun; [exact Hp|congruence].
  - done.
Qed.

(** A new tunnel with the same keepalive leaves the configuration of a peer. *)
Lemma config_set_tunnel t p :
  persistent_keepalive (timers t) = persistent_keepalive (timers (tunnel p)) → config_of (set_tunnel t p) = config_of p.
Proof. unfold config_of. by cbn; intros ->. Qed.

Lemma same_net_step d k p p' pool' :
  peers (state d) !! k = Some p → config_of p' = config_of p → same_net d (set_pool pool' (set_peer k p' d)).
Proof.
  intros Hp Hc. split; try done. intros j. cbn. destruct (decide (j = k)) as [->|].
  - rewrite lookup_insert_eq, Hp. cbn. by rewrite Hc.
  - by rewrite lookup_insert_ne.
Qed.

(** The step of a handler that gives a peer a new tunnel. *)
Lemma tunnel_steps now d hq k p t pool' hdls' msg :
  wf_device_with now d hq → peers (state d) !! k = Some p → sound t → same_clock now (tunnel p) t →
  pool_step (device_pool d) (hq k) msg (packets t) pool' hdls' → (length msg ≤ room relays k)%nat →
  steps now d (set_pool pool' (set_peer k (set_tunnel t p) d)).
Proof.
  intros Hwf Hp Ht Hc Hst Hmsg.
  split; [|eapply same_net_step; [done|apply config_set_tunnel, Hc]].
  eexists. by eapply wf_device_step with (p := p).
Qed.

Lemma peer_moment now d hq k p :
  wf_device_with now d hq → peers (state d) !! k = Some p → moment (tunnel p) now.
Proof.
  intros Hwf Hp. destruct (device_peers _ _ _ Hwf k p Hp) as [_ Hc Hs _ _]. split; [done|].
  rewrite Hs. apply Hwf.
Qed.

(** ** Sending *)

(** Peers that differ in what waits for a session only. *)
Definition same_tunnels d d' : Prop :=
  ∀ k p', peers (state d') !! k = Some p' →
    ∃ p q, peers (state d) !! k = Some p ∧ p' = set_tunnel (set_packets q (tunnel p)) p.

Lemma same_tunnels_refl d : same_tunnels d d.
Proof. intros k p Hp. exists p, (packets (tunnel p)). split; [done|]. by destruct p as [[] ? ? ? ?]. Qed.

Lemma same_tunnels_trans d1 d2 d3 : same_tunnels d1 d2 → same_tunnels d2 d3 → same_tunnels d1 d3.
Proof.
  intros H12 H23 k p3 (p2 & q & Hp2 & ->)%H23. apply H12 in Hp2 as (p1 & q1 & Hp1 & ->).
  by exists p1, q.
Qed.

Lemma drop_queues_steps now d ks n :
  wf_roles now d →
  ∃ n' s pool, foldl (drop_expired_queue now) (Some (n, state d, device_pool d)) ks = Some (n', s, pool) ∧
    steps now d (set_pool pool (set_state s d)) ∧ same_tunnels d (set_pool pool (set_state s d)).
Proof.
  revert d n; induction ks as [|k ks IH]; intros d n Hwf; cbn [foldl].
  { exists n, (state d), (device_pool d). split; [done|]. destruct d.
    split; [by apply steps_refl|apply same_tunnels_refl]. }
  unfold drop_expired_queue at 2. cbn [mbind option_bind].
  destruct (peers (state d) !! k) as [p|] eqn:Hp; [|by apply IH].
  destruct Hwf as [hq Hwf]. pose proof (device_peers _ _ _ Hwf k p Hp) as [Hso Hcl _ Hlk _].
  destruct (drop_expired_step (packets (tunnel p)) (device_pool d) (hq k) now [] (device_pool_ok _ _ _ Hwf) Hlk)
    as (n1 & q & pool & hdls & -> & Hst). cbn [mbind option_bind].
  pose proof (quiet_set_packets now q (tunnel p) (sound_wf _ Hso)) as Hq.
  set (d1 := set_pool pool (set_peer k (set_tunnel (set_packets q (tunnel p)) p) d)).
  assert (steps now d d1) as Hs.
  { eapply tunnel_steps; [done|done|by eapply sound_quiet|apply Hq|exact Hst|simpl; lia]. }
  destruct (IH d1 (n + n1)%nat (proj1 Hs)) as (n' & s & pool' & Hf & Hs' & Ht').
  exists n', s, pool'. split; [exact Hf|]. split; [eapply steps_trans; [exact Hs|exact Hs']|].
  eapply same_tunnels_trans; [|exact Ht']. intros j p'. cbn. intros [[<- <-]|[_ Hj]]%lookup_insert_Some.
  - by exists p, q.
  - by apply same_tunnels_refl.
Qed.

Lemma drop_expired_packets_spec now d :
  wf_roles now d → ∃ d', drop_expired d now = Some d' ∧ steps now d d' ∧ same_tunnels d d'.
Proof.
  intros Hwf. unfold drop_expired, drop_expired_packet_queues.
  destruct (drop_queues_steps now d (keys_in_order (peers (state d))) 0 Hwf) as (n & s & pool & -> & Hs).
  by eexists.
Qed.

Lemma drop_expired_steps now d :
  wf_roles now d → ∃ d', drop_expired d now = Some d' ∧ steps now d d'.
Proof. intros (d' & ? & ? & _)%drop_expired_packets_spec. by exists d'. Qed.

(** Where a packet for the peer [k] goes. *)
Definition next_hop d (k : bytes) : option socket_addr :=
  match peers (state d) !! k with
  | None => None
  | Some p =>
      match relay p with
      | Some r => q ← peers (state d) !! r; endpoint q
      | None => endpoint p
      end
  end.

Lemma next_hop_same d d' k : same_net d d' → next_hop d' k = next_hop d k.
Proof.
  intros Hs. unfold next_hop. pose proof (net_peers _ _ Hs k) as E.
  destruct (peers (state d') !! k) as [p'|], (peers (state d) !! k) as [p|]; try done.
  apply (inj Some) in E. injection E as _ E2 E3 _ _. rewrite E2, E3. destruct (relay p) as [r|]; [|done].
  pose proof (net_peers _ _ Hs r) as E.
  destruct (peers (state d') !! r) as [q'|], (peers (state d) !! r) as [q|]; try done.
  apply (inj Some) in E. by injection E.
Qed.

(** A pending packet, if any, goes to [target]. *)
Definition pending_to (p : pending) (target : option socket_addr) : Prop :=
  ∀ m a, p = Some (m, a) → target = Some a.

Lemma send_relay_data_steps now d k p plain buf :
  wf_roles now d → peers (state d) !! k = Some p → (length plain ≤ room relays k)%nat →
  length buf = MAX_PACKET_SIZE →
  ∃ pend d', send_relay_data ephemeral d k p plain buf now = Some (pend, d') ∧ steps now d d' ∧
    pending_to pend (endpoint p).
Proof.
  intros [hq Hwf] Hp Hlen Hbuf. unfold send_relay_data, encapsulate_relay.
  pose proof (device_peers _ _ _ Hwf k p Hp) as [Hso _ _ Hlk _].
  destruct (room_message relays k plain Hlen) as [Hmsg _].
  destruct (encapsulate_safe now (tunnel p) (device_pool d) (hq k) RELAY_DATA plain buf (next_ephemeral ephemeral d)
    (sound_wf _ Hso) (peer_moment _ _ _ _ _ Hwf Hp)) as (r & t & pool & hdls & -> & [Hq Hst _] & Hr);
    [by rewrite Hbuf|apply Hwf|done|]. cbn [mbind option_bind].
  assert (steps now d (draw (set_pool pool (set_peer k (set_tunnel t p) d)))) as Hs.
  { apply steps_draw. eapply tunnel_steps; [done|done|by eapply sound_quiet|apply Hq|exact Hst|done]. }
  destruct Hr as [->|[m ->]]; eexists _, _; (split; [done|]); (split; [exact Hs|]); [done|].
  intros m' a. destruct (endpoint p); [|done]. by intros [= _ ->].
Qed.

Lemma send_via_relay_steps now d k r p packet buf1 buf2 :
  wf_roles now d → peers (state d) !! k = Some p → relay p = Some r →
  (length packet ≤ max_inner)%nat → length buf1 = MAX_PACKET_SIZE → length buf2 = MAX_PACKET_SIZE →
  ∃ pend d', prepare_packet_to_peer_via_relay ephemeral d k r packet buf1 buf2 now = Some (pend, d') ∧
    steps now d d' ∧ pending_to pend (next_hop d k).
Proof.
  intros Hwf Hp Hr Hlen Hb1 Hb2. unfold prepare_packet_to_peer_via_relay.
  assert (length k = KEY_LEN) as Hk by (destruct Hwf as [hq Hwf]; apply Hwf; by eexists).
  assert (ENVELOPE_HEADER_SIZE + length packet ≤ MTU + PACKET_OVERHEAD + ENVELOPE_HEADER_SIZE)%nat as Hsz
    by (unfold max_inner in Hlen; lia).
  rewrite build_envelope_ok.
  2: done. 2: { unfold max_inner, MTU, PACKET_OVERHEAD, u16_max in *. lia. }
  2: { rewrite Hb1. unfold Relay.ENVELOPE_HEADER_SIZE, MAX_PACKET_SIZE, ENVELOPE_HEADER_SIZE in *. lia. }
  cbn [mbind option_bind]. set (plain := take _ _).
  assert (length plain ≤ MTU + PACKET_OVERHEAD + ENVELOPE_HEADER_SIZE)%nat as Hpl.
  { unfold plain. rewrite length_take. unfold Relay.ENVELOPE_HEADER_SIZE, ENVELOPE_HEADER_SIZE in *. lia. }
  destruct (drop_expired_steps now d Hwf) as (d1 & -> & Hs1). cbn [mbind option_bind].
  unfold get_peer, peer_by_key. destruct (peers (state d1) !! r) as [q1|] eqn:Hq1; [|by eexists None, d1].
  destruct (net_peer _ _ _ _ (same_net_sym _ _ (proj2 Hs1)) Hq1) as (q & Hq & Hcq).
  assert (r ∈ relays) as Hrr.
  { destruct Hwf as [hq Hwf]. by eapply (device_roles _ _ _ Hwf k p r). }
  destruct (send_relay_data_steps now d1 r q1 plain buf2 (proj1 Hs1) Hq1) as (pend & d' & -> & Hs & Hpend);
    [unfold room; by rewrite decide_True|done|].
  exists pend, d'. split; [done|]. split; [by eapply steps_trans|]. unfold next_hop. rewrite Hp, Hr, Hq. cbn.
  injection Hcq as _ E _ _ _. by rewrite E.
Qed.

Lemma prepare_steps now d k p packet b :
  wf_roles now d → peers (state d) !! k = Some p → buffers_ok b →
  (relay p = None ∨ length packet ≤ max_inner)%nat →
  ∃ pend d', prepare_packet_to_peer ephemeral d k packet (relay_plain_buf b) (relay_packet_buf b) now =
    Some (pend, d') ∧ steps now d d' ∧ pending_to pend (next_hop d k).
Proof.
  intros Hwf Hp [_ Hb1 Hb2] Hlen. unfold prepare_packet_to_peer, get_peer, peer_by_key. rewrite Hp.
  destruct (relay p) as [r|] eqn:Hr.
  - destruct Hlen as [|Hlen]; [done|]. by eapply send_via_relay_steps.
  - assert (next_hop d k = endpoint p) as -> by (unfold next_hop; by rewrite Hp, Hr).
    pose proof (steps_refl now d Hwf).
    destruct (endpoint p) as [a|]; eexists _, d; (split; [done|]); (split; [done|]); [|done].
    by intros m a' [= _ ->].
Qed.

(** Everything sent goes over the network to [target]. *)
Definition all_to (target : option socket_addr) (out : list output) : Prop :=
  Forall (λ o, ∃ m a, o = SendUdp m a ∧ target = Some a) out.

Lemma all_to_pending target pend : pending_to pend target → all_to target (send_pending_packet pend).
Proof.
  intros Hp. unfold all_to. destruct pend as [[m a]|]; [|constructor]. apply Forall_singleton.
  exists m, a. split; [done|]. by eapply Hp.
Qed.

(** ** The handlers *)

(** Encapsulating a packet from the interface for the peer [k]. *)
Lemma encapsulate_steps now d k p packet b :
  wf_roles now d → peers (state d) !! k = Some p → buffers_ok b → (length packet ≤ MTU)%nat →
  ∃ r t pool, encapsulate (tunnel p) (device_pool d) packet (dst_buf b) now (next_ephemeral ephemeral d) =
      Some (r, t, pool) ∧
    steps now d (draw (set_pool pool (set_peer k (set_tunnel t p) d))) ∧
    (r = Done ∨ ∃ m, r = WriteToNetwork m ∧ (length m ≤ max_inner)%nat).
Proof.
  intros [hq Hwf] Hp Hb Hlen. pose proof (device_peers _ _ _ Hwf k p Hp) as [Hso _ _ Hlk _].
  unfold encapsulate. pose proof (room_ge relays k) as Hge.
  assert (length packet ≤ room relays k)%nat as Hroom by lia.
  destruct (room_message relays k packet Hroom) as [Hmsg _].
  destruct (encapsulate_safe now (tunnel p) (device_pool d) (hq k) DATA packet (dst_buf b)
    (next_ephemeral ephemeral d) (sound_wf _ Hso) (peer_moment _ _ _ _ _ Hwf Hp))
    as (r & t & pool & hdls & -> & [Hq Hst Hres] & Hr); [by rewrite (dst_ok b Hb)|apply Hwf|done|].
  exists r, t, pool. split; [done|]. split.
  - apply steps_draw. eapply tunnel_steps; [done|done|by eapply sound_quiet|apply Hq|exact Hst|done].
  - destruct Hr as [->|[m ->]]; [by left|right]. exists m. split; [done|].
    destruct Hres as [|[(m' & [= <-] & Hm)|[? _]]]; [done| |done]. etrans; [exact Hm|].
    apply message_size_le; lia.
Qed.

Lemma tun_packet_steps now d packet b :
  wf_roles now d → buffers_ok b → is_bytes packet → (length packet ≤ MTU)%nat →
  ∃ out d', handle_tun_packet ephemeral d packet b now = Some (out, d') ∧ steps now d d' ∧
    (out = [] ∨ ∃ addr k, dst_address packet = Some (Some addr) ∧
      Table.find (peers_by_ip (state d)) addr = Some (Some k) ∧ all_to (next_hop d k) out).
Proof.
  intros Hwf Hb Hpk Hlen. unfold handle_tun_packet.
  destruct (packet_addresses_total packet Hpk) as (sa & da & _ & Hda & _ & Hval & _).
  rewrite Hda. cbn [mbind option_bind]. pose proof (steps_refl now d Hwf) as Hs0.
  destruct da as [addr|]; [|eexists [], d; by auto].
  assert (Table.wf (peers_by_ip (state d))) as Hrt by (destruct Hwf as [hq Hwf]; apply Hwf).
  destruct (find_total (peers_by_ip (state d)) addr Hrt (Hval _ eq_refl)) as (r & Hf & _).
  rewrite Hf. cbn [mbind option_bind]. destruct r as [k|]; [|eexists [], d; by auto].
  destruct (drop_expired_steps now d Hwf) as (d1 & -> & Hs1). cbn [mbind option_bind].
  unfold get_peer, peer_by_key. destruct (peers (state d1) !! k) as [p|] eqn:Hp; [|eexists [], d1; by auto].
  destruct (encapsulate_steps now d1 k p packet b (proj1 Hs1) Hp Hb Hlen) as (r & t & pool & -> & Hs2 & Hr).
  cbn [mbind option_bind]. set (d2 := draw _) in *.
  assert (steps now d d2) as Hs by by eapply steps_trans.
  destruct Hr as [->|(m & -> & Hm)]; [eexists [], d2; by auto|].
  destruct (prepare_steps now d2 k (set_tunnel t p) m b (proj1 Hs2)) as (pend & d' & -> & Hs3 & Hpend);
    [by apply lookup_insert_eq|done|by right|]. cbn [mbind option_bind].
  eexists _, d'. split; [done|]. split; [by eapply steps_trans|]. right. exists addr, k.
  split; [done|]. split; [done|]. apply all_to_pending. rewrite <- (next_hop_same d d2); [done|apply Hs].
Qed.

Lemma flush_steps n now d k b :
  wf_roles now d → buffers_ok b →
  ∃ out d', flush_queued_packets ephemeral n d k b now = Some (out, d') ∧ steps now d d' ∧
    all_to (next_hop d k) out.
Proof.
  intros Hwf Hb. revert d Hwf; induction n as [|n IH]; intros d Hwf; cbn [flush_queued_packets].
  { eexists [], d. split; [done|]. split; [by apply steps_refl|constructor]. }
  unfold get_peer, peer_by_key.
  destruct (peers (state d) !! k) as [p|] eqn:Hp.
  2: { eexists [], d. split; [done|]. split; [by apply steps_refl|constructor]. }
  destruct Hwf as [hq Hwf]. pose proof (device_peers _ _ _ Hwf k p Hp) as [Hso _ _ Hlk Hroom].
  destruct (flush_total now (tunnel p) (device_pool d) (hq k) (dst_buf b) [] Hso (device_pool_ok _ _ _ Hwf) Hlk)
    as (r & t & pool & hdls & -> & Hq & Hst & Hr).
  { intros x Hx. destruct (room_message relays k x.2 (Hroom x Hx)) as [Hm _]. rewrite (dst_ok b Hb).
    unfold message_size in Hm. lia. }
  cbn [mbind option_bind]. set (d1 := set_pool _ _).
  assert (steps now d d1) as Hs1.
  { eapply tunnel_steps; [done|done|by eapply sound_quiet|apply Hq|exact Hst|simpl; lia]. }
  destruct Hr as [->|(m & x & -> & Hx & Hm)].
  { eexists [], d1. split; [done|]. split; [done|constructor]. }
  destruct (prepare_steps now d1 k (set_tunnel t p) m b (proj1 Hs1)) as (pend & d2 & -> & Hs2 & Hpend);
    [by apply lookup_insert_eq|done| |].
  { destruct (relay p) as [r0|] eqn:Hr0; [right|by left].
    destruct (room_message relays k x.2 (Hroom x Hx)) as [_ Hmr].
    specialize (Hmr (proj2 (device_roles _ _ _ Hwf k p r0 Hp Hr0))). unfold message_size in Hmr. lia. }
  cbn [mbind option_bind]. destruct (IH d2 (proj1 Hs2)) as (out & d3 & -> & Hs3 & Hout).
  cbn [mbind option_bind]. eexists _, d3. split; [done|].
  assert (steps now d d2) as Hs by by eapply steps_trans. split; [by eapply steps_trans|].
  apply Forall_app. split.
  - apply all_to_pending. rewrite <- (next_hop_same d d1); [done|apply Hs1].
  - rewrite <- (next_hop_same d d2); [done|apply Hs].
Qed.

(** Handling a packet does not depend on what waits for a session. *)
Lemma set_current_session_packets i q t :
  set_current_session i (set_packets q t) = set_packets q (set_current_session i t).
Proof.
  unfold set_current_session. cbn [set_packets current]. destruct (current t =? i); [done|].
  lazymatch goal with |- (if ?b then _ else _) = set_packets _ (if ?c then _ else _) =>
    change c with b; by destruct b end.
Qed.

Lemma decrypt_set_packets q t p dst :
  decrypt_raw_data (set_packets q t) p dst =
    (let! '(r, t) := decrypt_raw_data t p dst in Some (r, set_packets q t)).
Proof.
  unfold decrypt_raw_data. change (session_at (set_packets q t)) with (session_at t).
  destruct (session_at t (data_receiver_idx p)) as [s|]; [|done].
  destruct (receive_packet_data s p (length dst)) as [[[m|e] s']|]; cbn [mbind option_bind]; [|done..].
  change (store_session ?i ?x (set_packets q t)) with (set_packets q (store_session i x t)).
  by rewrite set_current_session_packets.
Qed.

Lemma handle_verified_set_packets q t p dst now e :
  handle_verified_packet (set_packets q t) p dst now e =
    (let! '(r, t) := handle_verified_packet t p dst now e in Some (r, set_packets q t)).
Proof.
  unfold handle_verified_packet. destruct p as [p|p|p|p|p].
  - unfold handle_handshake_init. cbn [set_packets hs].
    destruct (receive_handshake_initialization (hs t) p dst e) as [[[[m s]|x] h]|]; cbn [mbind option_bind]; [|done..].
    do 2 f_equal. change (set_hs h (set_packets q t)) with (set_packets q (set_hs h t)).
    by rewrite <- set_current_session_packets.
  - unfold handle_handshake_response. cbn [set_packets hs].
    destruct (receive_handshake_response (hs t) p now) as [[[s|x] h]|]; cbn [mbind option_bind]; [|done..].
    destruct (format_packet_data s [] (length dst)) as [[[k|] s']|]; cbn [mbind option_bind]; [|done..].
    do 2 f_equal. change (set_hs h (set_packets q t)) with (set_packets q (set_hs h t)).
    by rewrite <- set_current_session_packets.
  - unfold handle_cookie_reply. cbn [set_packets hs].
    by destruct (receive_cookie_reply (hs t) p) as [[[[]|x] h]|].
  - unfold handle_data. rewrite decrypt_set_packets.
    destruct (decrypt_raw_data t p dst) as [[[m|x] t']|]; cbn [mbind option_bind]; [|done..].
    unfold validate_decapsulated_packet. destruct m as [|b m]; [done|].
    destruct (src_address (b :: m)) as [[[]|]|]; cbn [mbind option_bind]; [..|done|done];
      (destruct (computed_len (b :: m)) as [[len|]|]; cbn [mbind option_bind]; [|done..]);
      by destruct (length (b :: m) <? len)%nat.
  - done.
Qed.

(** What a device learns from a packet of a peer: where it is. *)
Definition moved d d' (k : bytes) (a : socket_addr) : Prop :=
  ∃ p, peers (state d) !! k = Some p ∧ same_net (set_peer k (set_endpoint a p) d) d'.

(** The tunnel of the peer [k] takes the packet: a handshake message, a cookie or
    data that its keys authenticate, new and well formed. *)
Definition accepted d (k : bytes) (packet : packet) (dst : bytes) : Prop :=
  ∃ p now e r t, peers (state d) !! k = Some p ∧ handle_verified_packet (tunnel p) packet dst now e = Some (r, t) ∧
    ∀ err, r ≠ TunnErr err.

(** Learning where a peer is takes a packet of that peer. *)
Definition learned d d' (k : bytes) (packet : packet) (dst : bytes) (a : socket_addr) : Prop :=
  same_net d d' ∨ moved d d' k a ∧ accepted d k packet dst.

(** The packet was decrypted with a session of the peer [k], and its source
    address belongs to that peer. *)
Definition authentic d (k : bytes) (pd : data) (dst : bytes) (m : bytes) : Prop :=
  ∃ p plain t a, peers (state d) !! k = Some p ∧ decrypt_raw_data (tunnel p) pd dst = Some (Ok plain, t) ∧
    m `prefix_of` plain ∧ src_address plain = Some (Some a) ∧
    Table.find (peers_by_ip (state d)) a = Some (Some k).

Lemma allowed_find now d k p a :
  wf_roles now d → peers (state d) !! k = Some p → ip_addr_valid a →
  ∃ b, is_allowed_ip p a = Some b ∧ (b = true → Table.find (peers_by_ip (state d)) a = Some (Some k)).
Proof.
  intros [hq Hwf] Hp Ha. pose proof (device_table _ _ _ Hwf) as Ht.
  destruct (is_allowed_spec (generator d) (state d) k p a Ht Ha Hp) as (b & Hb & Hbn).
  exists b. split; [done|]. intros ->.
  destruct (routing_spec (generator d) (state d) a Ht Ha) as (r & -> & Hr & _). f_equal.
  apply Hr. by exists p.
Qed.

Lemma tunnel_packet_steps now d k p packet src b :
  wf_roles now d → peers (state d) !! k = Some p → buffers_ok b → from_network packet →
  (∀ pd, packet = PData pd → (length (encrypted_encapsulated_packet pd) ≤ MAX_PACKET_SIZE)%nat) →
  ∃ out d', handle_tunnel_packet ephemeral d k p packet src b now = Some (out, d') ∧ wf_roles now d' ∧
    learned d d' k packet (dst_buf b) src ∧
    (all_to (next_hop d' k) out ∨ ∃ pd m, packet = PData pd ∧ out = [SendNic m k] ∧
      authentic d k pd (dst_buf b) m).
Proof.
  intros [hq Hwf] Hp Hb Hnet Hsz. unfold handle_tunnel_packet.
  pose proof (device_peers _ _ _ Hwf k p Hp) as [Hso _ _ Hlk _].
  destruct (handle_verified_total now (tunnel p) packet (dst_buf b) (next_ephemeral ephemeral d) Hso Hnet)
    as (r & t & Hv & [Hst Hcl Hpk] & Hr); [rewrite (dst_ok b Hb); vm_compute; lia|by rewrite (dst_ok b Hb)|].
  rewrite Hv. cbn [mbind option_bind].
  set (p1 := match r with TunnErr _ => set_tunnel t p | _ => _ end).
  assert (tunnel p1 = t ∧ index p1 = index p ∧ relay p1 = relay p ∧ peer_allowed_ips p1 = peer_allowed_ips p ∧
    (config_of p1 = config_of p ∨
     config_of p1 = config_of (set_endpoint src p) ∧ ∀ err, r ≠ TunnErr err)) as (Ht & Hi & Hre & Ha & Hc).
  { pose proof (same_keepalive _ _ _ Hcl) as Hka. unfold p1, config_of.
    destruct r; try (case_bool_decide); split_and!; try done; cbn; rewrite Hka; auto;
      right; split; done. }
  set (d1 := draw (set_peer k p1 d)).
  assert (wf_roles now d1) as Hwf1.
  { destruct (steps_draw now _ _ (steps_refl now (set_pool (device_pool d) (set_peer k p1 d)) (ex_intro _ _
      (wf_device_step now d hq k p p1 (device_pool d) (hq k) [] Hwf Hp Hi Hre Ha
        ltac:(by rewrite Ht) ltac:(by rewrite Ht)
        ltac:(apply pool_step_refl; [apply Hwf|by rewrite Ht, Hpk]) ltac:(simpl; lia))))) as [Hw _].
    exact Hw. }
  assert (learned d d1 k packet (dst_buf b) src) as Hnet1.
  { destruct Hc as [Hc|[Hc Hok]]; [left|right; split; [exists p; split; [done|]|by eexists p, _, _, r, t]].
    - destruct (same_net_step d k p p1 (device_pool d) Hp Hc). by split.
    - split; try done. intros j. cbn. destruct (decide (j = k)) as [->|].
      + rewrite !lookup_insert_eq. cbn. by rewrite Hc.
      + by rewrite !lookup_insert_ne. }
  assert (peers (state d1) !! k = Some p1) as Hp1 by by apply lookup_insert_eq.
  assert (∀ d', same_net d1 d' → learned d d' k packet (dst_buf b) src) as Hnets.
  { intros d' Hd'. destruct Hnet1 as [Hn|[(p0 & Hp0 & Hn) Hok]]; [left|right; split; [exists p0; split; [done|]|done]];
      by eapply same_net_trans. }
  clearbody d1. destruct Hr as [->|[[e ->]|[(m & -> & Hm)|(pd & plain & t1 & m & a & -> & Hdec & -> & Hpre & Hsrc & Hav)]]].
  - eexists [], d1. split; [done|]. split; [done|]. split; [done|]. left. constructor.
  - eexists [], d1. split; [done|]. split; [done|]. split; [done|]. left. constructor.
  - destruct (prepare_steps now d1 k p1 m b Hwf1 Hp1 Hb) as (pend & d2 & -> & Hs2 & Hpend).
    { right. etrans; [exact Hm|]. vm_compute. lia. }
    cbn [mbind option_bind].
    destruct (flush_steps MAX_ITR now d2 k b (proj1 Hs2) Hb) as (out & d3 & -> & Hs3 & Hout).
    cbn [mbind option_bind]. assert (steps now d1 d3) as Hs by by eapply steps_trans.
    eexists _, d3. split; [done|]. split; [apply Hs|]. split; [apply Hnets, Hs|]. left.
    apply Forall_app. split.
    + apply all_to_pending. rewrite (next_hop_same d1 d3); [done|apply Hs].
    + rewrite (next_hop_same d2 d3); [done|apply Hs3].
  - destruct (allowed_find now d k p a ltac:(by exists hq) Hp Hav) as (al & Hal & Hfind).
    assert (is_allowed_ip p1 a = Some al) as Hal1 by (unfold is_allowed_ip; by rewrite Ha).
    assert (∀ x, x = to_interface m a → match x with
      | WriteToInterfaceV4 packet addr => deliver_to_interface d1 k p1 packet (IpV4 addr)
      | WriteToInterfaceV6 packet addr => deliver_to_interface d1 k p1 packet (IpV6 addr)
      | _ => None
      end = Some (if al then [SendNic m k] else [], d1)) as Hdel.
    { intros x ->. unfold deliver_to_interface. destruct a; cbn [to_interface]; by rewrite Hal1. }
    exists (if al then [SendNic m k] else []), d1. split; [|split; [done|split; [done|]]].
    + specialize (Hdel _ eq_refl). destruct a; exact Hdel.
    + destruct al; [right; exists pd, m; split; [done|]|left; constructor]. split; [done|].
      exists p, plain, t1, a. split_and!; try done. by apply Hfind.
Qed.

Lemma forward_steps now d dest src e buf :
  wf_roles now d → Envelope.parse src = Some (Ok e) →
  (length src ≤ MTU + PACKET_OVERHEAD + ENVELOPE_HEADER_SIZE)%nat → length buf = MAX_PACKET_SIZE →
  ∃ pend d', forward_relay_packet ephemeral d dest e buf now = Some (pend, d') ∧ steps now d d' ∧
    pending_to pend (next_hop d dest).
Proof.
  intros Hwf He Hlen Hbuf. unfold forward_relay_packet, next_hop, get_peer, peer_by_key.
  destruct (parsed_total src e He) as ((inner & Hin) & _ & r & e' & Hdec & Hl).
  pose proof (steps_refl now d Hwf) as Hs0.
  destruct (peers (state d) !! dest) as [p|] eqn:Hp; [|by eexists None, d].
  destruct (relay p) as [k|] eqn:Hk.
  - destruct (drop_expired_steps now d Hwf) as (d1 & -> & Hs1). cbn [mbind option_bind].
    destruct (peers (state d1) !! k) as [q1|] eqn:Hq1; [|by eexists None, d1].
    destruct (net_peer _ _ _ _ (same_net_sym _ _ (proj2 Hs1)) Hq1) as (q & Hq & Hcq).
    assert (k ∈ relays) as Hrk.
    { destruct Hwf as [hq Hwf]. by eapply (device_roles _ _ _ Hwf dest p k). }
    rewrite Hdec. cbn [mbind option_bind]. rewrite Hq.
    destruct (send_relay_data_steps now d1 k q1 (Envelope.buf e') buf (proj1 Hs1) Hq1)
      as (pend & d' & Hsend & Hs & Hpend); [unfold room; by rewrite decide_True, Hl|done|].
    injection Hcq as _ E _ _ _. cbn [mbind option_bind]. rewrite E.
    destruct r as [[]|[]]; try by (rewrite Hsend; exists pend, d'; split; [done|]; split; [by eapply steps_trans|]).
    by exists None, d1.
  - destruct (endpoint p) as [a|]; [|by eexists None, d]. rewrite Hin. cbn [mbind option_bind].
    eexists _, d. split; [done|]. split; [done|]. by intros m a' [= _ ->].
Qed.

Lemma relay_data_steps now d k p pd b :
  wf_roles now d → peers (state d) !! k = Some p → buffers_ok b → from_network (PRelayData pd) →
  (length (encrypted_encapsulated_packet pd) ≤ MAX_PACKET_SIZE - 16)%nat →
  ∃ out d', handle_relay_data ephemeral d k p (PRelayData pd) b now = Some (out, d') ∧ steps now d d' ∧
    (out = [] ∨ ∃ dest, authorize (authorizer d) k dest = true ∧ all_to (next_hop d dest) out).
Proof.
  intros [hq Hwf] Hp Hb [[mac [Hok _]] Hbytes] Hsz. unfold handle_relay_data, handle_verified_relay_packet.
  pose proof (device_peers _ _ _ Hwf k p Hp) as [Hso _ _ Hlk _].
  destruct (decrypt_total now (tunnel p) pd (dst_buf b) Hso Hok Hbytes) as (r & t & -> & [Hst Hcl Hpk] & Hr);
    [rewrite (dst_ok b Hb); lia|]. cbn [mbind option_bind].
  set (d1 := set_peer k (set_tunnel t p) d).
  assert (steps now d d1) as Hs1.
  { change d1 with (set_pool (device_pool d) d1). eapply tunnel_steps with (msg := []); try done; [|simpl; lia].
    apply pool_step_refl; [apply Hwf|by rewrite Hpk]. }
  destruct r as [plain|e]; [|by eexists [], d1; auto]. destruct (Hr plain eq_refl) as [_ Hlen].
  destruct (parse_no_panic plain) as [[e|e] He]; rewrite He; cbn [mbind option_bind]; [|by eexists [], d1; auto].
  destruct (parsed_total plain e He) as ((inner & ->) & (dest & ->) & _). cbn [mbind option_bind].
  destruct (validate_no_panic inner) as [v ->]. cbn [mbind option_bind].
  destruct v; [|by eexists [], d1; auto].
  change (authorizer d1) with (authorizer d).
  destruct (authorize (authorizer d) k dest) eqn:Hau; cbn [negb]; [|by eexists [], d1; auto].
  destruct (forward_steps now d1 dest plain e (relay_packet_buf b) (proj1 Hs1) He)
    as (pend & d' & -> & Hs & Hpend).
  { unfold MAX_PACKET_SIZE, AEAD_SIZE, MTU, PACKET_OVERHEAD, ENVELOPE_HEADER_SIZE in *. lia. }
  { apply Hb. }
  cbn [mbind option_bind]. eexists _, d'. split; [done|]. split; [by eapply steps_trans|].
  right. exists dest. split; [done|]. apply all_to_pending. rewrite <- (next_hop_same d d1); [done|apply Hs1].
Qed.

(** A parsed datagram. *)
Lemma parsed_from_network src p :
  is_bytes src → parse_incoming_packet src = Some (Ok p) →
  from_network p ∧ ∀ pd, p = PData pd ∨ p = PRelayData pd →
    (length (encrypted_encapsulated_packet pd) + 16 = length src)%nat.
Proof.
  intros Hb Hp. destruct (parse_total src Hb) as (r & Hr & Hok). rewrite Hp in Hr.
  injection Hr as <-. destruct Hok as (mac & Hok & ->). unfold from_network.
  split; [split; [by exists mac|]|].
  - destruct p; try done; cbn [encode_packet] in Hb; unfold is_bytes in Hb; rewrite !Forall_app in Hb; apply Hb.
  - intros pd [->| ->]; cbn [encode_packet]; rewrite !length_app, !length_to_le_bytes; lia.
Qed.

Lemma verify_total r addr src n now :
  is_bytes src →
  ∃ v r', verify_packet r addr src n now = Some (v, r') ∧
    ∀ p, v = Ok p → parse_incoming_packet src = Some (Ok p).
Proof.
  intros Hb. unfold verify_packet. destruct (parse_total src Hb) as (x & -> & _). cbn [mbind option_bind].
  destruct x as [p|e]; [|by eexists _, _].
  destruct (handshake_sender p) as [i|].
  - destruct (verify_handshake r addr i src n now) as [[[]|e] r']; eexists _, _; (split; [done|]); congruence.
  - eexists _, _. split; [done|]. congruence.
Qed.

(** The peer a packet is for, when it is well formed. *)
Lemma packet_peer_total d p :
  from_network p → ∃ k, packet_peer d p = Some k ∧
    ∀ pd, p = PData pd ∨ p = PRelayData pd → k = peer_key_by_index (state d) (data_receiver_idx pd).
Proof.
  intros [[mac Hok] _]. unfold packet_peer.
  destruct p as [p|p|p|p|p];
    [|eexists; split; [done|]; intros pd [Hx|Hx]; simplify_eq; done..].
  destruct Hok as (_ & _ & Hst & _). unfold parse_handshake_anon.
  match goal with |- context [aead_chacha20_open KEY_LEN ?k 0 _ ?a] =>
    destruct (open_total KEY_LEN k 0 (encrypted_static p) a) as (r & ->); [done|] end.
  cbn [mbind option_bind]. eexists. split; [done|]. intros pd [Hx|Hx]; done.
Qed.

Lemma authentic_drop d d' k pd dst m :
  same_net d d' → same_tunnels d d' → authentic d' k pd dst m → authentic d k pd dst m.
Proof.
  intros Hn Hst (p' & plain & t & a & Hp' & Hdec & Hpre & Hsrc & Hf).
  destruct (Hst k p' Hp') as (p & q & Hp & ->). cbn [set_tunnel tunnel] in Hdec.
  rewrite decrypt_set_packets in Hdec.
  destruct (decrypt_raw_data (tunnel p) pd dst) as [[r t0]|] eqn:Hd; [|done].
  cbn [mbind option_bind] in Hdec. injection Hdec as -> <-.
  exists p, plain, t0, a. split_and!; try done. by rewrite <- (net_routes _ _ Hn).
Qed.

Lemma moved_from d d1 d' k a : same_net d d1 → moved d1 d' k a → moved d d' k a.
Proof.
  intros Hn (p1 & Hp1 & Hm). destruct (net_peer _ _ _ _ (same_net_sym _ _ Hn) Hp1) as (p & Hp & Hc).
  exists p. split; [done|]. eapply same_net_trans; [|exact Hm]. injection Hc as Ei _ Er Ea Ek.
  pose proof Hn as []. split; try done. intros j. cbn. destruct (decide (j = k)) as [->|].
  - rewrite !lookup_insert_eq. cbn. unfold config_of. cbn. by rewrite Ei, Er, Ea, Ek.
  - by rewrite !lookup_insert_ne.
Qed.

Lemma learned_drop d d1 d' k packet dst a :
  same_net d d1 → same_tunnels d d1 → learned d1 d' k packet dst a → learned d d' k packet dst a.
Proof.
  intros Hn Ht [Hs|[Hm (p1 & now & e & r & t & Hp1 & Hv & Hr)]]; [left; by eapply same_net_trans|right].
  split; [by eapply moved_from|]. destruct (Ht k p1 Hp1) as (p & q & Hp & ->). cbn [set_tunnel tunnel] in Hv.
  rewrite handle_verified_set_packets in Hv.
  destruct (handle_verified_packet (tunnel p) packet dst now e) as [[r0 t0]|] eqn:E; [|done].
  cbn [mbind option_bind] in Hv. injection Hv as -> <-. by exists p, now, e, r, t0.
Qed.

(** What a datagram from [src] makes a device send. *)
Inductive udp_outcome d (packet : bytes) (src : socket_addr) (dst : bytes) : list output → device P A → Prop :=
  | OutDropped d' : same_net d d' → udp_outcome d packet src dst [] d'
  | OutCookie cookie d' :
      same_net d d' → udp_outcome d packet src dst [SendUdp cookie src] d'
  | OutForwarded pd k dest out d' :
      parse_incoming_packet packet = Some (Ok (PRelayData pd)) →
      peer_key_by_index (state d) (data_receiver_idx pd) = Some k →
      authorize (authorizer d) k dest = true → all_to (next_hop d dest) out → same_net d d' →
      udp_outcome d packet src dst out d'
  | OutAnswered p k out d' :
      parse_incoming_packet packet = Some (Ok p) → packet_peer d p = Some (Some k) →
      learned d d' k p dst src → all_to (next_hop d' k) out →
      udp_outcome d packet src dst out d'
  | OutDelivered pd k m d' :
      parse_incoming_packet packet = Some (Ok (PData pd)) →
      peer_key_by_index (state d) (data_receiver_idx pd) = Some k →
      authentic d k pd dst m → learned d d' k (PData pd) dst src →
      udp_outcome d packet src dst [SendNic m k] d'.

Lemma udp_packet_steps now d packet src b :
  wf_roles now d → buffers_ok b → is_bytes packet → (length packet ≤ MAX_PACKET_SIZE)%nat →
  ∃ out d', handle_udp_packet ephemeral d packet src b now = Some (out, d') ∧ wf_roles now d' ∧
    udp_outcome d packet src (dst_buf b) out d'.
Proof.
  intros Hwf Hb Hpk Hlen. unfold handle_udp_packet.
  destruct (verify_total (limiter d) (Some (socket_addr_ip src)) packet (length (dst_buf b)) now Hpk)
    as (v & l & -> & Hv). cbn [mbind option_bind].
  pose proof (steps_limiter now d d l (steps_refl now d Hwf)) as [Hwf0 Hn0]. set (d0 := set_limiter l d) in *.
  destruct v as [p|e].
  2: { destruct e; eexists _, d0; (split; [done|]); (split; [done|]);
         try (by apply OutDropped); by apply OutCookie. }
  specialize (Hv p eq_refl). destruct (parsed_from_network packet p Hpk Hv) as [Hnet Hsz].
  destruct (packet_peer_total d p Hnet) as (k & Hpp & Hk).
  change (packet_peer d0 p) with (packet_peer d p). rewrite Hpp. cbn [mbind option_bind].
  destruct k as [k|]; [|eexists [], d0; split; [done|]; split; [done|]; by apply OutDropped].
  destruct (drop_expired_packets_spec now d0 Hwf0) as (d1 & -> & [Hwf1 Hn1] & Ht1). cbn [mbind option_bind].
  assert (same_net d d1) as Hn by by eapply same_net_trans.
  unfold get_peer, peer_by_key.
  destruct (peers (state d1) !! k) as [q|] eqn:Hq;
    [|eexists [], d1; split; [done|]; split; [done|]; by apply OutDropped].
  assert ((∃ pd, p = PRelayData pd) ∨ ∀ pd, p ≠ PRelayData pd) as [[pd ->]|Hnr]
    by (destruct p; (by left; eexists) || by right).
  - destruct (relay_data_steps now d1 k q pd b Hwf1 Hq Hb Hnet) as (out & d2 & -> & [Hwf2 Hn2] & Hout).
    { specialize (Hsz pd (or_intror eq_refl)). lia. }
    exists out, d2. split; [done|]. split; [done|].
    assert (same_net d d2) as Hn' by by eapply same_net_trans.
    destruct Hout as [->|(dest & Hau & Hto)]; [by apply OutDropped|].
    eapply OutForwarded; [done|symmetry; apply Hk; by right| | |done].
    + by rewrite (net_authorizer _ _ Hn) in Hau.
    + by rewrite (next_hop_same d d1) in Hto.
  - destruct (tunnel_packet_steps now d1 k q p src b Hwf1 Hq Hb Hnet) as (out & d2 & Hh & Hwf2 & Hmv & Hout).
    { intros pd ->. specialize (Hsz pd (or_introl eq_refl)). lia. }
    exists out, d2. split; [destruct p; try exact Hh; by destruct (Hnr p)|]. split; [done|].
    assert (learned d d2 k p (dst_buf b) src) as Hmv' by by eapply learned_drop.
    destruct Hout as [Hto|(pd & m & -> & -> & Hau)].
    + by eapply OutAnswered.
    + eapply OutDelivered; [done|symmetry; apply Hk; by left| |done].
      eapply authentic_drop; [exact Hn|exact Ht1|exact Hau].
Qed.

(** What no packet and no tick changes of a device: the settings of its peers. *)
Definition settings_of (p : peer) :=
  (index p, relay p, peer_allowed_ips p, persistent_keepalive (timers (tunnel p))).

Record same_settings d d' : Prop := {
  settings_peers k : settings_of <$> peers (state d') !! k = settings_of <$> peers (state d) !! k;
  settings_generator : generator d' = generator d;
  settings_stamper : device_stamper d' = device_stamper d
}.

Lemma same_net_settings d d' : same_net d d' → same_settings d d'.
Proof.
  intros [Hp _ _ Hg Hs _]. split; [|done..]. intros k. specialize (Hp k).
  destruct (peers (state d') !! k) as [p'|], (peers (state d) !! k) as [p|]; try done.
  apply (inj Some) in Hp. unfold config_of, settings_of in *. cbn. congruence.
Qed.

Lemma moved_settings d d' k a : moved d d' k a → same_settings d d'.
Proof.
  intros (p & Hp & [Hk Hg Hs]%same_net_settings). split; [|done..]. intros j. rewrite Hk. cbn.
  destruct (decide (j = k)) as [->|]; [|by rewrite lookup_insert_ne]. rewrite lookup_insert_eq, Hp. done.
Qed.

Lemma udp_outcome_settings d packet src dst out d' : udp_outcome d packet src dst out d' → same_settings d d'.
Proof.
  assert (∀ k p, learned d d' k p dst src → same_settings d d') as Hor
    by (intros k p [?|[? _]]; [by apply same_net_settings|by eapply moved_settings]).
  destruct 1; eauto using same_net_settings.
Qed.

(** Messages that the timers make a device send. *)
Definition tick_outputs d (out : list output) : Prop :=
  Forall (λ o, ∃ m a k, o = SendUdp m a ∧ is_Some (peers (state d) !! k) ∧ next_hop d k = Some a) out.

Lemma tick_outputs_same d d' out : same_net d d' → tick_outputs d' out → tick_outputs d out.
Proof.
  intros Hn Hf. eapply Forall_impl; [exact Hf|]. intros o (m & a & k & -> & [p Hp] & Hh). exists m, a, k.
  rewrite (next_hop_same d d') in Hh by done.
  destruct (net_peer _ _ _ _ (same_net_sym _ _ Hn) Hp) as (p' & Hp' & _). by split_and!; [|eexists|].
Qed.

Lemma tick_peer_steps now d k b :
  wf_roles now d → buffers_ok b →
  ∃ out d', tick_peer ephemeral d k b now = Some (out, d') ∧ steps now d d' ∧ tick_outputs d out.
Proof.
  intros Hwf Hb. unfold tick_peer.
  destruct (drop_expired_steps now d Hwf) as (d1 & -> & Hs1). cbn [mbind option_bind].
  unfold get_peer, peer_by_key.
  destruct (peers (state d1) !! k) as [p|] eqn:Hp.
  2: { eexists [], d1. split; [done|]. split; [done|constructor]. }
  destruct (proj1 Hs1) as [hq Hwf1]. pose proof (device_peers _ _ _ Hwf1 k p Hp) as [Hso _ _ Hlk _].
  destruct (update_timers_spec (tunnel p) (device_pool d1) (hq k) (dst_buf b) now (next_ephemeral ephemeral d1)
    (sound_wf _ Hso) (peer_moment _ _ _ _ _ Hwf1 Hp)) as (r & t & pool & hdls & -> & [Hw _ Hc Hse Hst Hr] & _);
    [rewrite (dst_ok b Hb); vm_compute; lia|apply Hwf1|done|]. cbn [mbind option_bind].
  set (d2 := draw _). assert (steps now d1 d2) as Hs2.
  { apply steps_draw. eapply tunnel_steps; [done|done| |exact Hc|exact Hst|simpl; lia].
    split; [done|]. intros i s' (s & Hs & E)%Hse. eapply sound_same; [exact E|]. by eapply sound_sessions. }
  assert (steps now d d2) as Hs by by eapply steps_trans.
  destruct Hr as [->|[(m & -> & Hm)|[-> _]]]; [|
    |by eexists [], d2; split; [done|]; split; [done|constructor]].
  { eexists [], d2. split; [done|]. split; [done|constructor]. }
  destruct (prepare_steps now d2 k (set_tunnel t p) m b (proj1 Hs2)) as (pend & d3 & -> & Hs3 & Hpend);
    [by apply lookup_insert_eq|done|right; etrans; [exact Hm|vm_compute; lia]|].
  cbn [mbind option_bind]. eexists _, d3. split; [done|]. split; [by eapply steps_trans|].
  eapply tick_outputs_same; [apply Hs|]. pose proof (all_to_pending _ _ Hpend) as Hall.
  eapply Forall_impl; [exact Hall|]. intros o (m' & a & -> & Hh). exists m', a, k.
  split_and!; [done| |done]. eexists. by apply lookup_insert_eq.
Qed.

Lemma tick_peers_steps now ks d b :
  wf_roles now d → buffers_ok b →
  ∃ out d', tick_peers ephemeral ks d b now = Some (out, d') ∧ steps now d d' ∧ tick_outputs d out.
Proof.
  intros Hwf Hb. revert d Hwf; induction ks as [|k ks IH]; intros d Hwf; cbn [tick_peers].
  { eexists [], d. split; [done|]. split; [by apply steps_refl|constructor]. }
  destruct (tick_peer_steps now d k b Hwf Hb) as (out & d1 & -> & Hs1 & Ho1). cbn [mbind option_bind].
  destruct (IH d1 (proj1 Hs1)) as (out' & d2 & -> & Hs2 & Ho2). cbn [mbind option_bind].
  eexists _, d2. split; [done|]. split; [by eapply steps_trans|]. apply Forall_app. split; [done|].
  eapply tick_outputs_same; [apply Hs1|done].
Qed.

(** ** Commands *)

(** A configuration the types of the source allow. *)
Record config_ok (c : peer_config) : Prop := {
  config_ips_ok : Forall ip_net_valid (config_allowed_ips c);
  config_key_ok : length (config_public_key c) = KEY_LEN;
  config_keepalive_ok : 0 ≤ keepalive_secs (config_keepalive c)
}.

(** Relays are among those that may relay, and have no relay themselves. *)
Definition in_role (c : peer_config) : Prop :=
  ∀ r, config_relay c = Some r → r ∈ relays ∧ config_public_key c ∉ relays.

(** A command that keeps the roles, whatever the device does. *)
Definition keeps_roles (c : command) : Prop :=
  match c with
  | Add c | Update c => config_ok c ∧ in_role c
  | _ => True
  end.

(** An index must be left for a new peer. *)
Definition index_left d (c : command) : Prop :=
  match c with
  | Add _ => 0 < Index.remaining (generator d)
  | _ => True
  end.

Lemma wf_tunn_new priv pub ka i st now :
  0 ≤ keepalive_secs ka → sound (tunn_new priv pub ka i st now).
Proof.
  intros Hk. split.
  - split; simpl; [done|by apply wf_timers_new|by apply wrap_in_width|apply public_length].
  - intros j s. unfold session_at. simpl. pose proof (slot_lt j) as Hj. unfold slot in *.
    destruct (Z.to_nat (j mod N_SESSIONS)) as [|[|[|]]]; done.
Qed.

Lemma wf_peer_new now st pool priv pub ka i n p :
  0 ≤ keepalive_secs ka → tunnel p = tunn_new priv pub ka i st now → wf_peer now st pool [] n p.
Proof.
  intros Hk Ht. split; rewrite ?Ht.
  - by apply wf_tunn_new.
  - change (0 ≤ duration_since now (time_started (timers_new ka now))). unfold duration_since. lia.
  - done.
  - apply linked_empty.
  - by intros x ?%not_elem_of_nil.
Qed.

(** The peer [key] is given a configuration. *)
Lemma wf_device_config now d hq key p' s' g' hdls :
  wf_device_with now d hq → wf_table g' s' → peers s' = <[key := p']> (peers (state d)) →
  length key = KEY_LEN → wf_peer now (device_stamper d) (device_pool d) hdls (room relays key) p' →
  (∀ k h, k ≠ key → is_Some (peers (state d) !! k) → h ∈ hdls → h ∉ hq k) →
  (∀ r, relay p' = Some r → r ∈ relays ∧ key ∉ relays) →
  wf_roles now (set_generator g' (set_state s' d)).
Proof.
  intros [Ht Hpl Hk Hps Hap Hun Hm] Hwt Hs' Hkey Hp' Hapart Hrel.
  exists (λ k, if decide (k = key) then hdls else hq k).
  split; cbn [set_generator set_state state generator device_pool device_stamper]; rewrite ?Hs'; try done.
  - intros k [q [[<- _]|[_ Hq]]%lookup_insert_Some]; [done|]. apply Hk. by eexists.
  - intros k q [[<- <-]|[Hne Hq]]%lookup_insert_Some; [by rewrite decide_True|].
    rewrite decide_False by done. by apply Hps.
  - intros k1 k2 h Hne [q1 Hq1] [q2 Hq2] Hh1 Hh2.
    apply lookup_insert_Some in Hq1 as [[<- _]|[Hne1 Hq1]], Hq2 as [[<- _]|[Hne2 Hq2]]; try done;
      repeat case_decide; try done.
    + by apply (Hapart k2 h); [|eexists| |].
    + by apply (Hapart k1 h); [|eexists| |].
    + by apply (Hap k1 k2 h); [|eexists..| |].
  - intros k p r [[<- <-]|[_ Hq]]%lookup_insert_Some Hr; [by apply Hrel|by eapply Hun].
Qed.

Lemma wf_device_state now d s' g' :
  wf_roles now d → wf_table g' s' → peers s' = peers (state d) → wf_roles now (set_generator g' (set_state s' d)).
Proof. intros [hq []] Hwt Hp. exists hq. split; cbn; rewrite ?Hp; done. Qed.

Lemma command_steps now d c :
  wf_roles now d → keeps_roles c → index_left d c →
  ∃ r d', handle_peer_update lim d c now = Some (r, d') ∧ wf_roles now d'.
Proof.
  intros [hq Hwf] Hc Hrem. destruct c as [|c|c|key|key|]; cbn [handle_peer_update].
  - by eexists _, d; split; [|exists hq].
  - destruct Hc as ([Hips Hkey Hka] & Hrel). cbn [index_left] in Hrem.
    destruct (add_peer_spec lim (generator d) (state d) c (private_key d) (device_stamper d) now
      (device_table _ _ _ Hwf) Hrem Hips) as (r & s' & g' & -> & [Hwt Hout] & _). cbn [mbind option_bind].
    assert (wf_roles now (set_generator g' (set_state s' d))) as Hwf'.
    { destruct r as [[]|e].
      - destruct Hout as (Hnone & _ & p & Hs' & _ & Htun & _ & _ & Hre & _).
        eapply wf_device_config; try done.
        + by eapply wf_peer_new.
        + by intros k h _ _ ?%not_elem_of_nil.
        + intros r Hr. apply Hrel. congruence.
      - apply wf_device_state; [by exists hq|done|]. destruct e; naive_solver. }
    destruct r as [[]|e]; by eexists _, _.
  - destruct Hc as ([Hips Hkey Hka] & Hrel).
    destruct (update_remove_spec lim (generator d) (state d) c (device_table _ _ _ Hwf) Hips)
      as ((r & s' & -> & Hwt & Hout) & _). cbn [mbind option_bind].
    assert (wf_roles now (set_state s' d)) as Hwf'.
    { change (set_state s' d) with (set_generator (generator d) (set_state s' d)).
      destruct r as [[]|e].
      - destruct Hout as (_ & p & p' & Hp & Hs' & _ & Htun & _ & Hre & _).
        pose proof (device_peers _ _ _ Hwf _ _ Hp) as [[Hso1 Hso2] Hcl Hst Hq Hroom].
        eapply wf_device_config with (hdls := hq (config_public_key c)); try done.
        + split; rewrite ?Htun; try done.
          split; [|done]. apply wf_on_timers; [|done]. intros. by apply wf_set_persistent_keepalive.
        + intros k h Hne Hk Hh Hh'. eapply (device_apart _ _ _ Hwf k (config_public_key c) h); try done.
        + intros r Hr. apply Hrel. congruence.
      - apply wf_device_state; [by exists hq|done|]. destruct e; naive_solver. }
    destruct r as [[]|e]; by eexists _, _.
  - eexists _, _. split; [done|].
    destruct (update_remove_spec lim (generator d) (state d) (PeerConfig key None [] None None)
      (device_table _ _ _ Hwf) ltac:(constructor)) as (_ & Hwt & Hp & _). cbn [config_public_key] in Hwt, Hp.
    exists hq. destruct Hwf as [Ht Hpl Hk Hps Hap Hun Hm].
    assert (∀ k p, peers (remove_peer_from_state (state d) key) !! k = Some p → peers (state d) !! k = Some p)
      as Hsub by (intros k p; rewrite Hp; by intros [_ ?]%lookup_delete_Some).
    split; cbn [set_state state generator device_pool device_stamper]; try done.
    + intros k [p Hkp%Hsub]. apply Hk. by eexists.
    + intros k p Hkp%Hsub. by apply Hps.
    + intros k1 k2 h Hne [p1 ?%Hsub] [p2 ?%Hsub]. apply Hap; [done|by eexists..].
    + intros k p r ?%Hsub ?. by apply (Hun k p r).
  - destruct (get_peer key d); eexists _, d; (split; [done|]); by exists hq.
  - eexists _, d. split; [done|]. by exists hq.
Qed.
End invariant.

(** ** Choosing the roles *)

Section roles.
Context {P : Type} `{Q : packet_pool_laws P} `{L : noise_laws, V : !noise_open_laws}
  `{MO : map_order_laws} {A : Type} `{Au : forwarding_authorizer A}.
Implicit Types (d : device P A).

(** The invariant, for some roles that fit the peers of the moment. *)
Definition wf_device (now : Z) d : Prop := ∃ relays, wf_roles relays now d.

(** A relay has no relay, and what waits for a relayed peer can be wrapped. *)
Definition relay_allowed d (c : peer_config) : Prop :=
  ∀ r, config_relay c = Some r →
    r ≠ config_public_key c ∧
    (∀ q, peers (state d) !! r = Some q → relay q = None) ∧
    (∀ k p, peers (state d) !! k = Some p → relay p ≠ Some (config_public_key c)) ∧
    ∀ p hdls x, peers (state d) !! config_public_key c = Some p →
      linked (live (device_pool d)) (packets (tunnel p)) hdls →
      x ∈ payloads (live (device_pool d)) hdls → (length x.2 ≤ MTU)%nat.

Definition command_ok d (c : command) : Prop :=
  match c with
  | Add c => 0 < Index.remaining (generator d) ∧ config_ok c ∧ relay_allowed d c
  | Update c => config_ok c ∧ relay_allowed d c
  | _ => True
  end.

(** The roles can change as a peer that relays for none gets a relay. *)
Lemma choose_roles now d c :
  wf_device now d → relay_allowed d c → ∃ relays, wf_roles relays now d ∧ in_role relays c.
Proof.
  intros [relays [hq Hwf]] Hc. unfold relay_allowed, in_role in *.
  destruct (config_relay c) as [r|]; [|by exists relays; split; [exists hq|]].
  destruct (Hc r eq_refl) as (Hne & Hrelay & Hfree & Hshort). set (key := config_public_key c) in *.
  exists ({[r]} ∪ relays ∖ {[key]}). split; [|intros ? [= <-]; set_solver]. exists hq.
  destruct Hwf as [Ht Hpl Hk Hps Hap Hun Hm]. split; try done.
  - intros k p Hp. destruct (Hps k p Hp) as [Hs Hcl Hst Hq Hr]. split; try done. intros x Hx.
    destruct (decide (k = key)) as [->|Hkk].
    + pose proof (Hshort p (hq key) x Hp Hq Hx). pose proof (room_ge ({[r]} ∪ relays ∖ {[key]}) key). lia.
    + etrans; [by apply Hr|]. unfold room. repeat case_decide; try lia. set_solver.
  - intros k p r' Hp Hr'. destruct (Hun k p r' Hp Hr') as [Hin Hout].
    assert (r' ≠ key) by (intros ->; by destruct (Hfree k p Hp)).
    assert (k ≠ r) by (intros ->; rewrite (Hrelay p Hp) in Hr'; done). set_solver.
Qed.

Lemma command_roles now d c :
  wf_device now d → command_ok d c → ∃ relays, wf_roles relays now d ∧ keeps_roles relays c ∧ index_left d c.
Proof.
  intros Hwf Hc. pose proof Hwf as [relays Hr].
  destruct c as [|c|c|key|key|]; try by exists relays.
  - destruct Hc as (? & ? & Hrel). destruct (choose_roles now d c Hwf Hrel) as (relays' & ? & ?). by exists relays'.
  - destruct Hc as (? & Hrel). destruct (choose_roles now d c Hwf Hrel) as (relays' & ? & ?). by exists relays'.
Qed.
End roles.
