(* ===== verification/DeviceSend.v ===== *)
(** * What a device sends

    [DeviceSafe] says where the messages of a device go; here is what they hold.
    A packet that [tendrilix/src/device.rs] takes from the interface leaves under
    the session of the peer it is for, or an initiation leaves in its place; for
    a peer behind a relay, the message is in an envelope with the key of that
    peer, and the envelope goes under the session of the relay. *)

From S2P Require Import Prelude IpNet AllowedIps IpPacket Index Timestamper Wire Session Relay Bounded PacketPool PacketQueue.
From S2P Require Import PeerHealth Handshake RateLimiter Timers Tunn TunnTotal PeerTable Device DeviceSafe.

(** ** Messages of a tunnel *)

Section message.
Context `{N : noise_crypto} {P : Type} `{packet_pool P}.
Implicit Types (t : tunn) (pool : P).

(** The transport message of the type [ty] that carries [src] under [s]: type,
    receiver, counter, and the padded packet sealed under the counter. *)
Definition sealed (s : session) (ty : Z) (src : bytes) : bytes :=
  let ct := aead_seal (sender s) (nonce_of (sending_key_counter s)) (src ++ repeat 0 (padded_len src - length src)) in
  to_le_bytes 4 ty ++ to_le_bytes 4 (sending_index s) ++ to_le_bytes 8 (sending_key_counter s) ++ ct.1 ++ ct.2.

(** The tunnel has a session with packets left. *)
Definition usable t : Prop :=
  ∃ s, session_at t (current t) = Some s ∧ sending_key_counter s < REJECT_AFTER_MESSAGES.

Definition initiation_of (h : handshake) (m : bytes) : Prop :=
  ∃ dst st now e h', Handshake.format_handshake_initiation h dst st now e = Some (Ok m, h').

(** What the tunnel [t] may send to its peer for [src]. *)
Inductive message_for t (ty : Z) (src m : bytes) : Prop :=
  | ByData s : session_at t (current t) = Some s → sending_key_counter s < REJECT_AFTER_MESSAGES →
      m = sealed s ty src → message_for t ty src m
  | ByInitiation : ¬ usable t → initiation_of (hs t) m → message_for t ty src m.

(** What waits in the queue of a tunnel does not matter. *)
Lemma message_for_packets q t ty src m : message_for (set_packets q t) ty src m → message_for t ty src m.
Proof. intros [s Hs Hc ->|Hno Hi]; [by eapply ByData|by apply ByInitiation]. Qed.

Lemma initiation_message t dst force now e r t' m :
  Tunn.format_handshake_initiation t dst force now e = Some (r, t') → r = WriteToNetwork m → initiation_of (hs t) m.
Proof.
  unfold Tunn.format_handshake_initiation. destruct (_ && _); [by intros [= <- _]|].
  set (t1 := if is_expired (hs t) then _ else t). assert (hs t1 = hs t) as Hh by (unfold t1; by case_match).
  rewrite Hh. destruct (Handshake.format_handshake_initiation _ _ _ _ _) as [[[p|x] h]|] eqn:E;
    cbn [mbind option_bind]; [|by intros [= <- _]|done].
  intros [= <- _] [= ->]. by eexists _, _, _, _, _.
Qed.

(** A buffer is large enough for the message that carries [src]. *)
Definition holds (src dst : bytes) : Prop := (DATA_OFFSET + padded_len src + AEAD_SIZE ≤ length dst)%nat.

Lemma encapsulate_message t pool ty src dst now e r t' pool' :
  holds src dst → encapsulate_with_type t pool ty src dst now e = Some (r, t', pool') →
  (∀ m, r = WriteToNetwork m → message_for t ty src m) ∧ (usable t → ∃ m, r = WriteToNetwork m).
Proof.
  intros Hd. unfold encapsulate_with_type, encrypt_current.
  destruct (session_at t (current t)) as [s|] eqn:Hs.
  - rewrite format_spec by done. destruct (Z.leb_spec REJECT_AFTER_MESSAGES (sending_key_counter s)) as [Hx|Hx].
    + cbn [mbind option_bind]. destruct (queue_packet _ _ _ _ _) as [[q pool1]|]; [|done]. cbn [mbind option_bind].
      destruct (Tunn.format_handshake_initiation _ _ _ _ _) as [[r1 t1]|] eqn:E; [|done]. intros [= <- _ _].
      assert (¬ usable t) as Hno by (intros (s' & ? & ?); simplify_eq; lia).
      split; [|done]. intros m ->. apply ByInitiation; [done|]. by apply (initiation_message _ _ _ _ _ _ _ _ E).
    + cbn [mbind option_bind]. intros E. apply (inj Some) in E. injection E as <- _ _.
      split; [|by eexists]. intros m [= <-]. by eapply ByData.
  - cbn [mbind option_bind]. destruct (queue_packet _ _ _ _ _) as [[q pool1]|]; [|done]. cbn [mbind option_bind].
    destruct (Tunn.format_handshake_initiation _ _ _ _ _) as [[r1 t1]|] eqn:E; [|done]. intros [= <- _ _].
    assert (¬ usable t) as Hno by (intros (s' & ? & ?); congruence).
    split; [|done]. intros m ->. apply ByInitiation; [done|]. by apply (initiation_message _ _ _ _ _ _ _ _ E).
Qed.
End message.

(** ** Messages of a device *)

Section device.
Context {P : Type} `{Q : packet_pool_laws P} `{L : noise_laws, V : !noise_open_laws}
  `{MO : map_order_laws} {A : Type} `{Au : forwarding_authorizer A}.
Context (relays : gset bytes) (ephemeral : nat → bytes).
Implicit Types (d : device P A).

(** The envelope in which a message for the peer [k] travels to a relay. *)
Definition envelope_for (k m : bytes) : bytes := header DEFAULT_HOP_LIMIT (length m) k ++ m.

(** How the message [m] for the peer [k], whose entry is [p], leaves. *)
Definition leaves d (k : bytes) (p : peer) (m : bytes) (out : list output) : Prop :=
  match relay p with
  | None => ∃ a, endpoint p = Some a ∧ out = [SendUdp m a]
  | Some r => ∃ q a m', peers (state d) !! r = Some q ∧ endpoint q = Some a ∧
      message_for (tunnel q) RELAY_DATA (envelope_for k m) m' ∧ out = [SendUdp m' a]
  end.

(** The way to a peer is known and needs no handshake. *)
Definition way_open d (p : peer) : Prop :=
  match relay p with
  | None => is_Some (endpoint p)
  | Some r => ∃ q, peers (state d) !! r = Some q ∧ is_Some (endpoint q) ∧ usable (tunnel q)
  end.

Lemma leaves_to_next_hop d k p m out :
  peers (state d) !! k = Some p → leaves d k p m out → all_to (next_hop d k) out.
Proof.
  intros Hp. unfold leaves, next_hop. rewrite Hp. destruct (relay p) as [r|].
  - intros (q & a & m' & -> & Ha & _ & ->). apply Forall_singleton. by exists m', a.
  - intros (a & Ha & ->). apply Forall_singleton. by exists m, a.
Qed.

Lemma send_relay_data_message d r q plain buf now pend d' :
  holds plain buf → send_relay_data ephemeral d r q plain buf now = Some (pend, d') →
  (∀ m a, pend = Some (m, a) → endpoint q = Some a ∧ message_for (tunnel q) RELAY_DATA plain m) ∧
  (usable (tunnel q) → is_Some (endpoint q) → is_Some pend).
Proof.
  intros Hb. unfold send_relay_data, encapsulate_relay.
  destruct (encapsulate_with_type _ _ _ _ _ _ _) as [[[x t] pool]|] eqn:E; [|done]. cbn [mbind option_bind].
  destruct (encapsulate_message _ _ _ _ _ _ _ _ _ _ Hb E) as [Hm Hu].
  destruct x; try done; intros [= <- _]; (split; [|intros Hus [a Ha]; destruct (Hu Hus) as [? ?]]); try done.
  - intros m a. destruct (endpoint q) as [b|]; [|done]. intros [= <- <-]. split; [done|by apply Hm].
  - rewrite Ha. by eexists.
Qed.

(** [d0] is the device before the event, [d] an intermediate state of it, in
    which the peer [k] has a new tunnel already. *)
Lemma prepare_leaves d0 d k p0 p m b now pend d' :
  wf_roles relays now d → buffers_ok b → peers (state d0) !! k = Some p0 → peers (state d) !! k = Some p →
  relay p = relay p0 → endpoint p = endpoint p0 → (length m ≤ max_inner)%nat →
  (∀ r q, r ≠ k → peers (state d) !! r = Some q → ∃ q0 x, peers (state d0) !! r = Some q0 ∧
    q = set_tunnel (set_packets x (tunnel q0)) q0) →
  prepare_packet_to_peer ephemeral d k m (relay_plain_buf b) (relay_packet_buf b) now = Some (pend, d') →
  (send_pending_packet pend = [] ∨ leaves d0 k p0 m (send_pending_packet pend)) ∧
  (same_net d0 d → way_open d0 p0 → send_pending_packet pend ≠ []).
Proof.
  intros Hwf [_ Hb1 Hb2] Hp0 Hp Hr He Hm Hoth. unfold prepare_packet_to_peer, get_peer, peer_by_key, leaves, way_open.
  rewrite Hp, Hr, He. destruct (relay p0) as [r|] eqn:Hr0.
  - assert (length k = KEY_LEN) as Hk by (destruct Hwf as [hq Hwf]; apply Hwf; by eexists).
    assert (r ≠ k) as Hne.
    { intros ->. destruct Hwf as [hq Hwf]. by destruct (device_roles _ _ _ _ Hwf k p k Hp Hr). }
    unfold prepare_packet_to_peer_via_relay. rewrite build_envelope_ok.
    2: done. 2: { unfold max_inner, MTU, PACKET_OVERHEAD, u16_max in *. lia. }
    2: { rewrite Hb1. unfold max_inner, Relay.ENVELOPE_HEADER_SIZE, MAX_PACKET_SIZE, PacketPool.ENVELOPE_HEADER_SIZE in *. lia. }
    cbn [mbind option_bind]. rewrite app_assoc, take_app_length' by (by rewrite length_app, length_header).
    fold (envelope_for k m). assert (holds (envelope_for k m) (relay_packet_buf b)) as Hh.
    { unfold holds. rewrite Hb2. pose proof (padded_len_le (envelope_for k m)) as Hpl. revert Hpl.
      unfold envelope_for. rewrite length_app, length_header by done.
      unfold max_inner, DATA_OFFSET, AEAD_SIZE, MAX_PACKET_SIZE, PACKET_OVERHEAD, Relay.ENVELOPE_HEADER_SIZE,
        PacketPool.ENVELOPE_HEADER_SIZE in *. lia. }
    destruct (drop_expired_packets_spec relays now d Hwf) as (d1 & -> & [_ Hn1] & Hst). cbn [mbind option_bind].
    unfold get_peer, peer_by_key. destruct (peers (state d1) !! r) as [q1|] eqn:Hq1.
    + destruct (Hst r q1 Hq1) as (q & x1 & Hq & ->). destruct (Hoth r q Hne Hq) as (q0 & x0 & Hq0 & ->).
      intros Hsend. destruct (send_relay_data_message _ _ _ _ _ _ _ _ Hh Hsend) as [Hmsg Hus]. split.
      * destruct pend as [[m' a]|]; [right|by left]. destruct (Hmsg m' a eq_refl) as [Ha Hfor].
        exists q0, a, m'. split; [exact Hq0|]. split; [exact Ha|].
        split; [|done]. exact (message_for_packets x0 _ _ _ _ (message_for_packets x1 _ _ _ _ Hfor)).
      * intros _ (q' & Hq' & Hend & Hu). rewrite Hq0 in Hq'. injection Hq' as <-.
        destruct (Hus Hu Hend) as [[m' a] ->]. done.
    + intros [= <- _]. split; [by left|]. intros Hn (q' & Hq' & _).
      destruct (net_peer _ _ _ _ (same_net_trans _ _ _ Hn Hn1) Hq') as (? & ? & _). congruence.
  - destruct (endpoint p0) as [a|]; intros [= <- _]; (split; [|intros _ [? ?]; done]).
    + right. by exists a.
    + by left.
Qed.

(** What a packet from the interface becomes, and when it does. *)
Lemma tun_packet_leaves now d packet b out d' :
  wf_roles relays now d → buffers_ok b → is_bytes packet → (length packet ≤ MTU)%nat →
  handle_tun_packet ephemeral d packet b now = Some (out, d') →
  (out = [] ∨ ∃ addr k p m, dst_address packet = Some (Some addr) ∧
    Table.find (peers_by_ip (state d)) addr = Some (Some k) ∧ peers (state d) !! k = Some p ∧
    message_for (tunnel p) DATA packet m ∧ leaves d k p m out) ∧
  ∀ addr k p, dst_address packet = Some (Some addr) → Table.find (peers_by_ip (state d)) addr = Some (Some k) →
    peers (state d) !! k = Some p → usable (tunnel p) → way_open d p → out ≠ [].
Proof.
  intros Hwf Hb Hpk Hlen. unfold handle_tun_packet.
  destruct (dst_address packet) as [[addr|]|]; cbn [mbind option_bind]; [|by intros [= <- _]; split; [left|]|done].
  destruct (Table.find (peers_by_ip (state d)) addr) as [[k|]|] eqn:Hf; cbn [mbind option_bind];
    [|intros [= <- _]; split; [by left|intros ? ? ? [= <-]; congruence]|done].
  destruct (drop_expired_packets_spec relays now d Hwf) as (d1 & -> & [Hwf1 Hn1] & Hst). cbn [mbind option_bind].
  unfold get_peer, peer_by_key. destruct (peers (state d1) !! k) as [p1|] eqn:Hp1.
  2: { intros [= <- _]. split; [by left|]. intros ? ? p [= <-] Hf' Hp. rewrite Hf in Hf'. injection Hf' as <-.
       destruct (net_peer _ _ _ _ Hn1 Hp) as (? & ? & _). congruence. }
  destruct (Hst k p1 Hp1) as (p & x & Hp & ->).
  destruct (encapsulate_steps relays ephemeral now d1 k _ packet b Hwf1 Hp1 Hb Hlen)
    as (r & t & pool & E & [Hwf2 Hn2] & Hr). rewrite E. cbn [mbind option_bind].
  assert (holds packet (dst_buf b)) as Hh.
  { unfold holds. rewrite (dst_ok _ Hb). pose proof (padded_len_le packet).
    unfold DATA_OFFSET, AEAD_SIZE, MAX_PACKET_SIZE, PACKET_OVERHEAD in *. lia. }
  destruct (encapsulate_message _ _ _ _ _ _ _ _ _ _ Hh E) as [Hmsg Hus].
  destruct Hr as [->|(m & -> & Hm)].
  { intros [= <- _]. split; [by left|]. intros ? ? p' [= <-] Hf' Hp' Hu. rewrite Hf in Hf'. injection Hf' as <-.
    rewrite Hp in Hp'. injection Hp' as <-. by destruct (Hus Hu). }
  set (d2 := draw _) in *.
  destruct (prepare_packet_to_peer _ _ _ _ _ _ _) as [[pend d3]|] eqn:Hprep; [|done]. cbn [mbind option_bind].
  intros [= <- _].
  destruct (prepare_leaves d d2 k p _ m b now pend d3 Hwf2 Hb Hp (lookup_insert_eq _ _ _) eq_refl eq_refl Hm)
    as [Hl Ho]; [|exact Hprep|].
  { intros j q Hj. cbn. rewrite lookup_insert_ne by done. apply Hst. }
  split.
  - destruct Hl as [?|Hl]; [by left|]. right. exists addr, k, p, m. split_and!; try done. exact (message_for_packets x _ _ _ _ (Hmsg m eq_refl)).
  - intros ? ? p' [= <-] Hf' Hp' _ Hway. rewrite Hf in Hf'. injection Hf' as <-. rewrite Hp in Hp'. injection Hp' as <-.
    apply Ho; [|done]. by eapply same_net_trans.
Qed.
End device.

(** ** Envelopes around envelopes *)

Section chained.
Context {P : Type} `{packet_pool P} `{L : noise_laws} `{map_order} {A : Type} (ephemeral : nat → bytes).
Implicit Types (d : device P A).

Lemma length_sealed_message s ty src : length (sealed s ty src) = (DATA_OFFSET + padded_len src + AEAD_SIZE)%nat.
Proof.
  unfold sealed. rewrite !length_app, !length_to_le_bytes, aead_length, aead_tag_length, length_app, repeat_length.
  pose proof (padded_len_ge src). unfold DATA_OFFSET, AEAD_SIZE. lia.
Qed.

Lemma length_envelope_for k m : length k = KEY_LEN → length (envelope_for k m) = (36 + length m)%nat.
Proof. intros Hk. unfold envelope_for. by rewrite length_app, length_header. Qed.

(** Sizes above the MTU are not padded. *)
Lemma padded_len_large src : (MTU < length src)%nat → padded_len src = length src.
Proof.
  intros Hl. unfold padded_len. destruct src as [|x src]; [done|].
  destruct (Nat.leb_spec (align16 (length (x :: src))) MTU); [|done].
  pose proof (align16_spec (length (x :: src))). lia.
Qed.

(** Cleaning the queues leaves the rest of a tunnel, whatever the pool is. *)
Lemma drop_queues_keep now ks k p : ∀ acc n s' pool',
  foldl (drop_expired_queue now) acc ks = Some (n, s', pool') →
  ∃ n0 s (pool : P), acc = Some (n0, s, pool) ∧
    (peers s !! k = Some p → ∃ x, peers s' !! k = Some (set_tunnel (set_packets x (tunnel p)) p)).
Proof.
  revert p. induction ks as [|j ks IH]; intros p acc n s' pool'; cbn [foldl].
  { intros ->. exists n, s', pool'. split; [done|]. intros Hp. exists (packets (tunnel p)).
    rewrite Hp. by destruct p as [[] ? ? ? ?]. }
  intros Hf. pose proof (λ p, IH p _ _ _ _ Hf) as IHf. clear Hf.
  destruct acc as [[[n0 s] pool]|]; [|destruct (IHf p) as (? & ? & ? & ? & _); done].
  exists n0, s, pool. split; [done|]. intros Hp. unfold drop_expired_queue in IHf. cbn [mbind option_bind] in IHf.
  destruct (decide (j = k)) as [->|Hne].
  - rewrite Hp in IHf. destruct (drop_expired_queued_packets _ _ _) as [[[m x] pool2]|];
      [|destruct (IHf p) as (? & ? & ? & ? & _); done]. cbn [mbind option_bind] in IHf.
    destruct (IHf (set_tunnel (set_packets x (tunnel p)) p)) as (? & ? & ? & [= <- <- <-] & Hk).
    destruct Hk as [y Hy]; [by apply lookup_insert_eq|]. exists y. exact Hy.
  - destruct (IHf p) as (n1 & s1 & pool1 & E & Hk). clear IHf. revert E.
    destruct (peers s !! j) as [pj|]; [|intros [= <- <- <-]; by apply Hk].
    destruct (drop_expired_queued_packets _ _ _) as [[[m x] pool2]|]; [|done]. cbn [mbind option_bind].
    intros [= <- <- <-]. apply Hk. cbn. by rewrite lookup_insert_ne.
Qed.

Lemma drop_expired_keeps d now d' k p :
  drop_expired d now = Some d' → peers (state d) !! k = Some p →
  ∃ x, peers (state d') !! k = Some (set_tunnel (set_packets x (tunnel p)) p).
Proof.
  unfold drop_expired, drop_expired_packet_queues.
  destruct (foldl _ _ _) as [[[n s'] pool']|] eqn:E; [|done]. intros [= <-] Hp.
  destruct (drop_queues_keep now _ k p _ _ _ _ E) as (? & ? & ? & [= <- <- <-] & Hk). by apply Hk.
Qed.

(** A message does not fit its buffer. *)
Lemma encapsulate_overflow t (pool : P) ty src dst now e :
  usable t → (length dst < DATA_OFFSET + padded_len src + AEAD_SIZE)%nat →
  encapsulate_with_type t pool ty src dst now e = None.
Proof.
  intros (s & Hs & _) Hd. unfold encapsulate_with_type, encrypt_current. rewrite Hs.
  unfold format_packet_data_with_type. by rewrite (proj2 (Nat.ltb_lt _ _)).
Qed.

(** A relay that is relayed itself is about to send an envelope that waited. *)
Definition flushes_envelope d (r q : bytes) (n : nat) : Prop :=
  ∃ pr pq h x pool ty env,
    peers (state d) !! r = Some pr ∧ relay pr = Some q ∧ peers (state d) !! q = Some pq ∧ q ≠ r ∧
    usable (tunnel pr) ∧ usable (tunnel pq) ∧
    dequeue_packet (packets (tunnel pr)) (device_pool d) = Some (Some h, x, pool) ∧
    get pool h = Some (ty, env) ∧ length env = n.

Lemma flush_chained d r q n b now i :
  length r = KEY_LEN → buffers_ok b → flushes_envelope d r q n → (MTU < n ≤ MTU + PACKET_OVERHEAD)%nat →
  flush_queued_packets ephemeral (S i) d r b now = None.
Proof.
  intros Hr [Hb0 Hb1 Hb2] (pr & pq & h & x & pool & ty & env & Hpr & Hrel & Hpq & Hne & (s & Hs & Hc) & Hu & Hdq & Hget & <-) Hn.
  unfold PACKET_OVERHEAD, MTU in Hn. assert (padded_len env = length env) as Hpad by (apply padded_len_large; unfold MTU; lia).
  cbn [flush_queued_packets]. unfold get_peer, peer_by_key. rewrite Hpr.
  unfold flush_queued_packet, encrypt_current. rewrite Hdq. cbn [mbind option_bind]. rewrite Hget. cbn [mbind option_bind].
  change (session_at (set_packets x (tunnel pr)) (current (set_packets x (tunnel pr))))
    with (session_at (tunnel pr) (current (tunnel pr))).
  rewrite Hs, format_spec by (rewrite Hb0, Hpad; unfold DATA_OFFSET, AEAD_SIZE, MAX_PACKET_SIZE, PACKET_OVERHEAD, MTU; lia).
  rewrite (proj2 (Z.leb_gt _ _)) by done. cbn [mbind option_bind]. fold (sealed s ty env).
  set (m := sealed s ty env). set (t := add_counts _ _ _ _ _). destruct (free h pool) as [pool2|]; [|done].
  cbn [mbind option_bind]. set (d1 := set_pool _ _).
  assert (length m = 32 + length env)%nat as Hm by (unfold m; rewrite length_sealed_message, Hpad; unfold DATA_OFFSET, AEAD_SIZE; lia).
  unfold prepare_packet_to_peer, get_peer, peer_by_key. replace (peers (state d1) !! r) with (Some (set_tunnel t pr))
    by (symmetry; apply lookup_insert_eq). cbn [set_tunnel relay]. rewrite Hrel.
  unfold prepare_packet_to_peer_via_relay. rewrite build_envelope_ok.
  2: done. 2: { unfold u16_max. lia. }
  2: { rewrite Hb1, Hm. unfold Relay.ENVELOPE_HEADER_SIZE, MAX_PACKET_SIZE, PacketPool.ENVELOPE_HEADER_SIZE, PACKET_OVERHEAD, MTU. lia. }
  cbn [mbind option_bind]. rewrite app_assoc, take_app_length' by (by rewrite length_app, length_header).
  fold (envelope_for r m). destruct (drop_expired d1 now) as [d2|] eqn:Hd2; [|done]. cbn [mbind option_bind].
  destruct (drop_expired_keeps d1 now d2 q pq Hd2) as [y Hy]; [cbn; by rewrite lookup_insert_ne|].
  unfold get_peer, peer_by_key. rewrite Hy. unfold send_relay_data, encapsulate_relay.
  rewrite encapsulate_overflow; [done|exact Hu|]. rewrite padded_len_large; rewrite length_envelope_for, Hm by done.
  - rewrite Hb2. unfold DATA_OFFSET, AEAD_SIZE, MAX_PACKET_SIZE, PACKET_OVERHEAD, MTU, PacketPool.ENVELOPE_HEADER_SIZE. lia.
  - unfold MTU. lia.
Qed.

(** The same as a computation. *)
Definition usable_bool (t : tunn) : bool :=
  match session_at t (current t) with
  | Some s => sending_key_counter s <? REJECT_AFTER_MESSAGES
  | None => false
  end.

Definition waiting_envelope d (r : bytes) : option (bytes * nat) :=
  let! pr := peers (state d) !! r in
  let! q := relay pr in
  let! pq := peers (state d) !! q in
  let! '(h, _, pool) := dequeue_packet (packets (tunnel pr)) (device_pool d) in
  let! h := h in
  let! '(_, env) := get pool h in
  if negb (bool_decide (q = r)) && usable_bool (tunnel pr) && usable_bool (tunnel pq)
  then Some (q, length env) else None.

Lemma usable_bool_spec (t : tunn) : usable_bool t = true → usable t.
Proof. unfold usable_bool, usable. destruct (session_at _ _) as [s|]; [|done]. intros ?%Z.ltb_lt. by exists s. Qed.

Lemma waiting_envelope_spec d r q n : waiting_envelope d r = Some (q, n) → flushes_envelope d r q n.
Proof.
  unfold waiting_envelope. destruct (peers (state d) !! r) as [pr|] eqn:Hr; [|done]. cbn [mbind option_bind].
  destruct (relay pr) as [q'|] eqn:Hrel; [|done]. cbn [mbind option_bind].
  destruct (peers (state d) !! q') as [pq|] eqn:Hq; [|done]. cbn [mbind option_bind].
  destruct (dequeue_packet _ _) as [[[[h|] x] pool]|] eqn:Hd; [|done..]. cbn [mbind option_bind].
  destruct (get pool h) as [[ty env]|] eqn:Hg; [|done]. cbn [mbind option_bind].
  destruct (negb _ && _ && _) eqn:E; [|done]. intros [= <- <-].
  apply andb_true_iff in E as [[Hne%negb_true_iff%bool_decide_eq_false Hu1]%andb_true_iff Hu2].
  exists pr, pq, h, x, pool, ty, env. split_and!; auto using usable_bool_spec.
Qed.

(** The packets from the interface whose envelopes are of that size. *)
Lemma chained_sizes s k packet :
  length k = KEY_LEN → (length packet ≤ MTU)%nat →
  (MTU < length (envelope_for k (sealed s DATA packet)) ≤ MTU + PACKET_OVERHEAD ↔ 1200 < length packet ≤ 1232)%nat.
Proof.
  intros Hk Hl. rewrite length_envelope_for, length_sealed_message by done. unfold DATA_OFFSET, AEAD_SIZE, PACKET_OVERHEAD, MTU in *.
  unfold padded_len. destruct packet as [|x packet]; [simpl; lia|]. set (n := length (x :: packet)) in *.
  destruct (align16_spec n) as [Hn Hm]. apply Nat.Div0.mod_divides in Hm as [c Hc].
  unfold MTU. destruct (Nat.leb_spec (align16 n) 1280); lia.
Qed.
End chained.
