(* ===== verification/DeviceRun.v ===== *)
(** * Runs of a device

    [Device::new] and the loop of [Device::run] in [tendrilix/src/device.rs]:
    whatever packets and ticks follow one another, no event panics the device,
    what comes in on one side leaves on the other only as the keys and routes
    allow, and relayed packets go where the authorizer lets them. *)

From S2P Require Import Prelude IpNet AllowedIps IpPacket Index Timestamper Wire Session Relay Bounded PacketPool PacketQueue.
From S2P Require Import PeerHealth Handshake RateLimiter Timers Tunn TunnTotal PeerTable Device DeviceSafe DeviceSend.

Section run.
Context {P : Type} `{Q : packet_pool_laws P} `{L : noise_laws, V : !noise_open_laws}
  `{MO : map_order_laws} {A : Type} `{Au : forwarding_authorizer A} (lim : limits) (ephemeral : nat → bytes).
Implicit Types (d : device P A).

(** What the source's types and buffers allow to arrive. *)
Definition packet_ok (ev : event) : Prop :=
  match ev with
  | FromInterface packet => is_bytes packet ∧ (length packet ≤ MTU)%nat
  | FromNetwork packet _ => is_bytes packet ∧ (length packet ≤ MAX_PACKET_SIZE)%nat
  | TimerTick | FromClient _ => True
  end.

Definition event_ok d (ev : event) : Prop :=
  match ev with
  | FromClient c => command_ok d c
  | _ => packet_ok ev
  end.

(** An event that keeps the roles of the peers. *)
Definition event_in_role (relays : gset bytes) d (ev : event) : Prop :=
  match ev with
  | FromClient c => keeps_roles relays c ∧ index_left d c
  | _ => packet_ok ev
  end.

Lemma wf_roles_later relays now now' d :
  wf_roles relays now d → now ≤ now' → is_Some (stamp (device_stamper d) now') → wf_roles relays now' d.
Proof.
  intros [hq []] Hle Hst. exists hq. split; try done. intros k p Hp.
  destruct (device_peers k p Hp) as [Hs Hc Hsm Hq Hr]. split; try done.
  unfold duration_since in *. lia.
Qed.

Lemma wf_device_later now now' d :
  wf_device now d → now ≤ now' → is_Some (stamp (device_stamper d) now') → wf_device now' d.
Proof. intros [relays Hr]. exists relays. by eapply wf_roles_later. Qed.

(** Packets and ticks leave the settings of the peers alone. *)
Definition unattended (ev : event) : Prop :=
  match ev with
  | FromClient _ => False
  | _ => packet_ok ev
  end.

Lemma step_unattended relays tick now d ev b :
  wf_roles relays now d → buffers_ok b → unattended ev →
  ∃ out tick' d', device_step lim ephemeral tick d ev b now = Some (out, None, tick', d') ∧
    wf_roles relays now d' ∧ same_settings d d'.
Proof.
  intros Hwf Hb Hev. destruct ev as [packet|packet src| |c]; [..|done]; cbn [device_step].
  - destruct Hev as [Hp Hl].
    destruct (tun_packet_steps relays ephemeral now d packet b Hwf Hb Hp Hl) as (out & d' & -> & [Hwf' Hn] & _).
    eexists _, _, d'. split_and!; [done..|by apply same_net_settings].
  - destruct Hev as [Hp Hl].
    destruct (udp_packet_steps relays ephemeral now d packet (normalize_socket_addr src) b Hwf Hb Hp Hl)
      as (out & d' & -> & Hwf' & Hout). eexists _, _, d'. split_and!; [done..|by eapply udp_outcome_settings].
  - unfold handle_timer_tick.
    destruct (tick_peers_steps relays ephemeral now (keys_in_order (gset_to_gmap tt (peer_keys lim (state d)))) d b Hwf Hb)
      as (out & d' & -> & Hs & _). cbn [mbind option_bind].
    case_match; eexists _, _, _; (split; [done|]); [|split; [apply Hs|apply same_net_settings, Hs]].
    destruct (steps_limiter relays now d d' (reset_count (limiter d') now) Hs). split; [done|by apply same_net_settings].
Qed.

Lemma step_roles relays tick now d ev b :
  wf_roles relays now d → buffers_ok b → event_in_role relays d ev →
  ∃ out r tick' d', device_step lim ephemeral tick d ev b now = Some (out, r, tick', d') ∧ wf_roles relays now d'.
Proof.
  intros Hwf Hb Hev.
  assert (unattended ev ∨ ∃ c, ev = FromClient c ∧ keeps_roles relays c ∧ index_left d c) as [Hu|(c & -> & Hc & Hi)].
  { destruct ev; [by left..|by right; eauto]. }
  - destruct (step_unattended relays tick now d ev b Hwf Hb Hu) as (out & tick' & d' & E & Hwf' & _).
    by exists out, None, tick', d'.
  - cbn [device_step]. destruct (command_steps relays lim now d c Hwf Hc Hi) as (r & d' & -> & Hwf').
    by eexists _, _, _, d'.
Qed.

(** Roles are stricter than what a device needs of a command. *)
Lemma roles_command_ok relays now d c :
  wf_roles relays now d → keeps_roles relays c → index_left d c → command_ok d c.
Proof.
  intros [hq Hwf] Hc Hi.
  assert (∀ c, in_role relays c → relay_allowed d c) as Hrel.
  { intros c' Hc' r Hr. destruct (Hc' r Hr) as [Hin Hout]. split_and!.
    - by intros ->.
    - intros q Hq. destruct (relay q) as [r'|] eqn:E; [|done]. by destruct (device_roles _ _ _ _ Hwf r q r' Hq E).
    - intros k p Hp E. by destruct (device_roles _ _ _ _ Hwf k p _ Hp E).
    - intros p hdls x Hp Hlk Hx. destruct (device_peers _ _ _ _ Hwf _ p Hp) as [_ _ _ Hq Hroom].
      rewrite (segment_unique _ _ _ _ (linked_chain _ _ _ Hlk) (linked_chain _ _ _ Hq)) in Hx.
      specialize (Hroom x Hx). unfold room in Hroom. by rewrite decide_False in Hroom. }
  destruct c as [|c|c|key|key|]; try done; destruct Hc; split_and!; auto.
Qed.

Lemma roles_event_ok relays now d ev : wf_roles relays now d → event_in_role relays d ev → event_ok d ev.
Proof. intros Hwf Hev. destruct ev as [packet|packet src| |c]; try done. by eapply roles_command_ok; [|apply Hev..]. Qed.

Lemma event_roles now d ev :
  wf_device now d → event_ok d ev → ∃ relays, wf_roles relays now d ∧ event_in_role relays d ev.
Proof.
  intros Hwf Hev. pose proof Hwf as [relays Hr]. destruct ev as [packet|packet src| |c]; try by exists relays.
  by apply command_roles.
Qed.

Lemma step_total tick now d ev b :
  wf_device now d → buffers_ok b → event_ok d ev →
  ∃ out r tick' d', device_step lim ephemeral tick d ev b now = Some (out, r, tick', d') ∧ wf_device now d'.
Proof.
  intros Hwf Hb Hev. destruct (event_roles now d ev Hwf Hev) as (relays & Hr & He).
  destruct (step_roles relays tick now d ev b Hr Hb He) as (out & r & tick' & d' & E & Hwf').
  exists out, r, tick', d'. split; [done|by exists relays].
Qed.

(** ** Starting *)

(** Initial peers: fewer than indexes, and relays have no relay. *)
Record initial_ok (l : list peer_config) : Prop := {
  initial_configs : Forall config_ok l;
  initial_count : Z.of_nat (length l) ≤ LFSR_MAX;
  initial_unchained c c' : c ∈ l → c' ∈ l → config_relay c = Some (config_public_key c') →
    config_relay c' = None
}.

(** A peer that was just added from one of [l]. *)
Definition added (l : list peer_config) (private_key : bytes) (st : time_stamper) (now : Z)
    (k : bytes) (p : peer) : Prop :=
  ∃ c, c ∈ l ∧ config_public_key c = k ∧ config_relay c = relay p ∧
    tunnel p = tunn_new private_key k (config_keepalive c) (index p) st now.

(** The roles that the first peers have. *)
Lemma initial_roles l : initial_ok l → ∃ relays, Forall (in_role relays) l.
Proof.
  intros [_ _ Hun]. exists (list_to_set (omap config_relay l)). apply Forall_forall. intros c Hc r Hr. split.
  - apply elem_of_list_to_set, list_elem_of_omap. by exists c.
  - rewrite elem_of_list_to_set, list_elem_of_omap. intros (c' & Hc' & Hk). specialize (Hun c' c Hc' Hc Hk). congruence.
Qed.

Lemma add_initial_spec all l priv st now s g :
  Forall config_ok l → (∀ c, c ∈ l → c ∈ all) → Z.of_nat (length l) ≤ Index.remaining g → wf_table g s →
  (∀ k p, peers s !! k = Some p → added all priv st now k p) →
  ∃ r g', add_initial lim l priv st now s g = Some (r, g') ∧
    Index.remaining g - Z.of_nat (length l) ≤ Index.remaining g' ∧
    ∀ s', r = Ok s' → wf_table g' s' ∧ ∀ k p, peers s' !! k = Some p → added all priv st now k p.
Proof.
  intros Hl Hall Hrem Hwt Hs. revert s g Hrem Hwt Hs; induction l as [|c l IH]; intros s g Hrem Hwt Hs; cbn [add_initial].
  { eexists _, _. split; [done|]. split; [simpl; lia|]. by intros s' [= <-]. }
  apply Forall_cons in Hl as [[Hips Hkey Hka] Hl]. cbn [length] in Hrem.
  destruct (add_peer_spec lim g s c priv st now Hwt ltac:(lia) Hips) as (r & s1 & g1 & -> & [Hwt1 Hout] & Hr1).
  cbn [mbind option_bind]. destruct r as [[]|e]; [|eexists _, _; split; [done|]; split; [simpl length; lia|done]].
  destruct (IH ltac:(done) ltac:(intros; apply Hall; by right) s1 g1 ltac:(lia) Hwt1) as (r & g' & E & Hle & Hr);
    [|exists r, g'; split; [done|]; split; [simpl length; lia|done]].
  destruct Hout as (_ & _ & p & -> & _ & Ht & _ & _ & Hre & _).
  intros k q [[<- <-]|[_ Hq]]%lookup_insert_Some; [|by apply Hs].
  exists c. split; [apply Hall; by left|]. by split_and!.
Qed.

Lemma device_new_spec relays priv (au : A) configs st draws sk nk pool now g :
  initialize draws Index.new = Some g → initial_ok configs → Forall (in_role relays) configs → pool_inv pool →
  is_Some (stamp st now) →
  ∃ r g', device_new lim priv au configs Index.new st draws sk nk pool now = Some (r, g') ∧
    ∀ d, r = Ok d → wf_roles relays now d ∧ LFSR_MAX - Z.of_nat (length configs) ≤ Index.remaining (generator d).
Proof.
  intros Hg [Hc Hn _] Hro Hpool Hst. unfold device_new. destruct g as [g rest]. rewrite Hg. cbn [mbind option_bind].
  destruct (initialize_wf draws [] rest g Hg) as (Hwg & Hrem & _).
  destruct (add_initial_spec configs configs priv st now peer_state_new g) as (r & g' & -> & Hle & Hr); try done;
    [by rewrite Hrem|by apply wf_table_new|].
  cbn [mbind option_bind]. destruct r as [s|e]; eexists _, _; (split; [done|]); [|done].
  intros d [= <-]. split; [|cbn; lia]. destruct (Hr s eq_refl) as [Hwt Hs].
  rewrite Forall_forall in Hc, Hro. exists (λ _, []). split; cbn; try done.
  - intros k [p Hp]. destruct (Hs k p Hp) as (c & Hin & <- & _). by apply Hc.
  - intros k p Hp. destruct (Hs k p Hp) as (c & Hin & _ & _ & Ht). eapply wf_peer_new; [|done]. by apply Hc.
  - by intros k1 k2 h _ _ _ ?%not_elem_of_nil.
  - intros k p r Hp Hr'. destruct (Hs k p Hp) as (c & Hin & <- & Hcr & _). apply (Hro c Hin). congruence.
Qed.

(** ** Reachable states *)

(** The states of a device, with the time of its last event and the count of
    the loop, after any sequence of events in the order of time. *)
Inductive reachable : Z → Z → device P A → Prop :=
  | ReachNew priv au configs st draws sk nk pool now g d g' :
      initialize draws Index.new = Some g → initial_ok configs → pool_inv pool → is_Some (stamp st now) →
      device_new lim priv au configs Index.new st draws sk nk pool now = Some (Ok d, g') →
      reachable now 0 d
  | ReachStep now tick d now' ev b out r tick' d' :
      reachable now tick d → now ≤ now' → is_Some (stamp (device_stamper d) now') →
      buffers_ok b → event_ok d ev →
      device_step lim ephemeral tick d ev b now' = Some (out, r, tick', d') →
      reachable now' tick' d'.

Lemma reachable_wf now tick d : reachable now tick d → wf_device now d.
Proof.
  induction 1 as [priv au configs st draws sk nk pool now g d g' Hg Hc Hp Hst Hnew|
    now tick d now' ev b out r tick' d' Hr IH Hle Hst Hb Hev Hstep].
  - destruct (initial_roles configs Hc) as [relays Hro].
    destruct (device_new_spec relays priv au configs st draws sk nk pool now g Hg Hc Hro Hp Hst) as (r & g'' & E & Hd).
    rewrite E in Hnew. injection Hnew as -> _. exists relays. by apply Hd.
  - pose proof (wf_device_later now now' d IH Hle Hst) as Hwf.
    destruct (step_total tick now' d ev b Hwf Hb Hev) as (o & x & t & d1 & E & Hwf').
    rewrite E in Hstep. by injection Hstep as _ _ _ <-.
Qed.


(** C10: a packet from the interface goes to the owner of its destination
    address, and nowhere else, and it goes sealed. If the packet has a destination
    and some peer owns it, at most one message leaves: the packet sealed under the
    session of that peer, or an initiation to that peer when there is no session,
    is sent to the endpoint of the peer; for a peer behind a relay it is put in an
    envelope that names the peer, and what is sent, to the endpoint of the relay,
    is that envelope sealed under the session of the relay (or an initiation to
    the relay). Otherwise nothing is sent. A message does leave when the sessions
    and the endpoint on the way are there. *)
Theorem interface_packet_confined now tick d now' packet b :
  reachable now tick d → now ≤ now' → is_Some (stamp (device_stamper d) now') →
  buffers_ok b → is_bytes packet → (length packet ≤ MTU)%nat →
  ∃ out d', device_step lim ephemeral tick d (FromInterface packet) b now' = Some (out, None, tick, d') ∧
    same_net d d' ∧
    (out = [] ∨ ∃ addr k p m, dst_address packet = Some (Some addr) ∧ peers (state d) !! k = Some p ∧
      is_allowed_ip p addr = Some true ∧ all_to (next_hop d k) out ∧
      message_for (tunnel p) DATA packet m ∧ leaves d k p m out) ∧
    ∀ addr k p, dst_address packet = Some (Some addr) → peers (state d) !! k = Some p →
      is_allowed_ip p addr = Some true → usable (tunnel p) → way_open d p → out ≠ [].
Proof.
  intros Hr Hle Hst Hb Hp Hl. destruct (wf_device_later now now' d (reachable_wf _ _ _ Hr) Hle Hst) as [relays Hwf].
  destruct (tun_packet_steps relays ephemeral now' d packet b Hwf Hb Hp Hl) as (out & d' & E & [_ Hn] & _).
  destruct (tun_packet_leaves relays ephemeral now' d packet b out d' Hwf Hb Hp Hl E) as [Hout Hopen].
  exists out, d'. cbn [device_step]. rewrite E. split; [done|]. split; [done|].
  destruct Hwf as [hq Hwf]. pose proof (device_table _ _ _ _ Hwf) as Ht.
  destruct (packet_addresses_total packet Hp) as (sa & da & _ & Hda & _ & Hval & _).
  assert (∀ addr, dst_address packet = Some (Some addr) → ip_addr_valid addr) as Hv.
  { intros addr Hd. apply Hval. congruence. }
  split.
  - destruct Hout as [->|(addr & k & p & m & Hd & Hf & Hpk & Hm & Hleave)]; [by left|]. right.
    destruct (routing_spec (generator d) (state d) addr Ht (Hv _ Hd)) as (r & Hf' & Hrk & _).
    rewrite Hf in Hf'. injection Hf' as <-. destruct (proj1 (Hrk k) eq_refl) as (p' & Hpk' & Hal).
    rewrite Hpk in Hpk'. injection Hpk' as <-. exists addr, k, p, m. split_and!; try done. by eapply leaves_to_next_hop.
  - intros addr k p Hd Hpk Hal Hu Hway.
    destruct (routing_spec (generator d) (state d) addr Ht (Hv _ Hd)) as (r & Hf' & Hrk & _).
    apply (Hopen addr k p); try done. rewrite Hf'. f_equal. apply Hrk. by exists p.
Qed.

(** C9: what a datagram can do. It is dropped, or answered with a cookie to
    where it came from; or it is relay data of a peer with a session, and its
    content is forwarded to a destination that the authorizer allows that
    peer; or it leads to messages to the one peer it is for; or it reaches the
    interface, and then it decrypts under a session of the peer it names and
    its source address is one that peer owns. Only the endpoint of that
    peer may change, to the address of the datagram, and only when the tunnel
    of that peer accepts the packet. *)
Theorem network_packet_outcomes now tick d now' packet src b :
  reachable now tick d → now ≤ now' → is_Some (stamp (device_stamper d) now') →
  buffers_ok b → is_bytes packet → (length packet ≤ MAX_PACKET_SIZE)%nat →
  ∃ out d', device_step lim ephemeral tick d (FromNetwork packet src) b now' = Some (out, None, tick, d') ∧
    udp_outcome d packet (normalize_socket_addr src) (dst_buf b) out d'.
Proof.
  intros Hr Hle Hst Hb Hp Hl. destruct (wf_device_later now now' d (reachable_wf _ _ _ Hr) Hle Hst) as [relays Hwf].
  destruct (udp_packet_steps relays ephemeral now' d packet (normalize_socket_addr src) b Hwf Hb Hp Hl)
    as (out & d' & E & _ & Hout).
  exists out, d'. cbn [device_step]. by rewrite E.
Qed.

(** A tick sends each message to the next hop of a configured peer, tells
    the interface nothing and changes no endpoint, route or table; the loop
    counts four ticks and starts again. *)
Theorem tick_outcomes now tick d now' b :
  reachable now tick d → now ≤ now' → is_Some (stamp (device_stamper d) now') → buffers_ok b →
  ∃ out tick' d', device_step lim ephemeral tick d TimerTick b now' = Some (out, None, tick', d') ∧
    same_net d d' ∧ tick_outputs d out ∧ tick' = (if 4 <=? wrap 8 (tick + 1) then 0 else wrap 8 (tick + 1)).
Proof.
  intros Hr Hle Hst Hb. destruct (wf_device_later now now' d (reachable_wf _ _ _ Hr) Hle Hst) as [relays Hwf].
  cbn [device_step]. unfold handle_timer_tick.
  destruct (tick_peers_steps relays ephemeral now' (keys_in_order (gset_to_gmap tt (peer_keys lim (state d)))) d b Hwf Hb)
    as (out & d' & -> & [_ Hn] & Hout). cbn [mbind option_bind].
  destruct (4 <=? wrap 8 (tick + 1)); eexists out, _, _; (split; [done|]); (split; [|done]); [|done].
  eapply same_net_trans; [exact Hn|]. by split.
Qed.
End run.

(** ** Flushing a queue *)

Section flush.
Context {P : Type} `{packet_pool P} `{noise_crypto} `{map_order} {A : Type} `{forwarding_authorizer A} (ephemeral : nat → bytes).
Implicit Types (d : device P A).

(** What [handle_udp_packet] does up to its loop, when a handshake message is
    accepted: it answers, and arrives at the queue of the sender. *)
Definition flush_state d (packet : bytes) (src : socket_addr) (b : buffers) (now : Z)
    : option (bytes * device P A) :=
  let! '(r, l) := verify_packet (limiter d) (Some (socket_addr_ip src)) packet (length (dst_buf b)) now in
  match r with
  | Err _ => None
  | Ok pk =>
      let! k := packet_peer (set_limiter l d) pk in
      let! k := k in
      let! d := drop_expired (set_limiter l d) now in
      let! p := get_peer k d in
      let! '(r, t) := handle_verified_packet (tunnel p) pk (dst_buf b) now (next_ephemeral ephemeral d) in
      match r with
      | WriteToNetwork m =>
          let p := set_tunnel t p in
          let p := if bool_decide (endpoint p = Some src) then p else set_endpoint src p in
          let! '(_, d) := prepare_packet_to_peer ephemeral (draw (set_peer k p d)) k m (relay_plain_buf b)
            (relay_packet_buf b) now in
          Some (k, d)
      | _ => None
      end
  end.

Lemma flush_state_panics d packet src b now k d' :
  flush_state d packet src b now = Some (k, d') →
  flush_queued_packets ephemeral MAX_ITR d' k b now = None →
  handle_udp_packet ephemeral d packet src b now = None.
Proof.
  unfold flush_state, handle_udp_packet.
  destruct (verify_packet _ _ _ _ _) as [[[pk|e] l]|]; [|done..]. cbn [mbind option_bind].
  destruct (packet_peer _ _) as [[key|]|]; [|done..]. cbn [mbind option_bind].
  destruct (drop_expired _ _) as [d1|]; [|done]. cbn [mbind option_bind].
  destruct (get_peer key d1) as [p|]; [|done]. cbn [mbind option_bind].
  destruct (handle_verified_packet (tunnel p) pk _ _ _) as [[r t]|] eqn:Hv; [|done]. cbn [mbind option_bind].
  destruct r as [|e|m|m a|m a]; try done.
  destruct (prepare_packet_to_peer _ _ _ _ _ _ _) as [[pend d2]|] eqn:Hp; [|done]. cbn [mbind option_bind].
  intros [= <- <-] Hf. assert (handle_tunnel_packet ephemeral d1 key p pk src b now = None) as Ht.
  { unfold handle_tunnel_packet. rewrite Hv. cbn [mbind option_bind]. rewrite Hp. cbn [mbind option_bind]. by rewrite Hf. }
  destruct pk; try done.
Qed.

End flush.

(** ** Examples *)

#[local] Instance toy_pool : packet_pool Heap.pool := Heap.heap_packet_pool 8 4096.
#[local] Instance toy_pool_laws : @packet_pool_laws _ toy_pool := Heap.heap_packet_pool_laws 8 4096.
#[local] Existing Instances toy_noise toy_order.
Definition toy_buffers : buffers :=
  Buffers (repeat 0 MAX_PACKET_SIZE) (repeat 0 MAX_PACKET_SIZE) (repeat 0 MAX_PACKET_SIZE).
Definition toy_secrets (n : nat) : bytes := [3 + Z.of_nat n].

(** A device of the key [1] with the given peers. *)
Definition toy_start (l : list peer_config)
    : option (result (device Heap.pool generic_authorizer) error * index_generator) :=
  @device_new Heap.pool toy_noise toy_order generic_authorizer no_limits [1] AllowAll l Index.new toy_stamper
    [5; 9] [6] [7] Heap.new (from_secs 1).

Definition toy_nothing : device Heap.pool generic_authorizer :=
  Device [] [] (@rate_limiter_new toy_noise [] 0 [] [] 0) peer_state_new Heap.new Index.new toy_stamper AllowAll 0.

Definition toy_device (l : list peer_config) : device Heap.pool generic_authorizer :=
  match toy_start l with
  | Some (Ok d, _) => d
  | _ => toy_nothing
  end.

Definition toy_step (d : device Heap.pool generic_authorizer) (ev : event) (now : Z) :=
  @device_step Heap.pool toy_pool toy_noise toy_order generic_authorizer _ no_limits toy_secrets 0 d ev
    toy_buffers now.

(** An IPv4 packet of [n] bytes for the host 5 of the peer [k]. *)
Definition toy_ip (k : Z) (n : nat) : bytes :=
  [0x45; 0] ++ to_be_bytes 2 (Z.of_nat n) ++ repeat 0 8 ++ [10; 0; 1; 1; 10; 0; k; 5] ++ repeat 0 (n - 20).

Definition toy_two : list peer_config := [toy_config 2; toy_config 3].
Definition toy_addr (k : Z) : socket_addr := SockV4 0x01020304 (1000 + k).

Lemma toy_initial_ok : initial_ok toy_two.
Proof.
  split.
  - repeat constructor; try (apply toy_config_valid; lia); vm_compute; congruence.
  - vm_compute. congruence.
  - intros c c' Hc Hc'. unfold toy_two in Hc. rewrite !elem_of_cons, elem_of_nil in Hc.
    by destruct Hc as [->|[->|[]]].
Defined.

Lemma toy_buffers_ok : buffers_ok toy_buffers.
Proof. split; reflexivity. Defined.

Lemma toy_reachable :
  @reachable Heap.pool toy_pool toy_pool_laws toy_noise toy_order generic_authorizer _ no_limits toy_secrets
    (from_secs 1) 0 (toy_device toy_two).
Proof.
  assert (∃ g', toy_start toy_two = Some (Ok (toy_device toy_two), g')) as [g' Hg'].
  { destruct (toy_start toy_two) as [[[d|e] g']|] eqn:E; [|vm_compute in E; discriminate..].
    exists g'. unfold toy_device. by rewrite E. }
  eapply (ReachNew _ _ [1] AllowAll toy_two toy_stamper [5; 9] [6] [7] Heap.new (from_secs 1)
    (IndexGenerator 5 LFSR_MAX 9, [])); [|exact toy_initial_ok| | |exact Hg'].
  - vm_compute. reflexivity.
  - exact (Heap.heap_inv_new 8 4096).
  - vm_compute. by eexists.
Defined.

(** What a step sends. *)
Definition sent_by {X} (r : option (list output * X * Z * device Heap.pool generic_authorizer)) : option (list output) :=
  match r with
  | Some (out, _, _, _) => Some out
  | None => None
  end.

Lemma toy_moment : is_Some (stamp (device_stamper (toy_device toy_two)) (from_secs 2)).
Proof. vm_compute. by eexists. Defined.


Lemma interface_packet_confined_witness :
  @reachable Heap.pool toy_pool toy_pool_laws toy_noise toy_order generic_authorizer _ no_limits toy_secrets
    (from_secs 1) 0 (toy_device toy_two) ∧ is_bytes (toy_ip 2 40) ∧ (length (toy_ip 2 40) ≤ MTU)%nat ∧
  ∃ m d', toy_step (toy_device toy_two) (FromInterface (toy_ip 2 40)) (from_secs 2) =
    Some ([SendUdp m (toy_addr 2)], None, 0, d') ∧ same_net (toy_device toy_two) d'.
Proof.
  pose proof toy_reachable as Hr. pose proof toy_moment as Hm. pose proof toy_buffers_ok as Hb.
  assert (is_bytes (toy_ip 2 40)) as Hp by decide_now.
  assert (length (toy_ip 2 40) ≤ MTU)%nat as Hl by (vm_compute; lia).
  assert (from_secs 1 ≤ from_secs 2) as Hle by (vm_compute; congruence).
  split; [exact Hr|]. split; [exact Hp|]. split; [exact Hl|].
  destruct (interface_packet_confined (V := toy_open_laws) (L := toy_noise_laws) (MO := toy_order_laws) no_limits
    toy_secrets (from_secs 1) 0 (toy_device toy_two) (from_secs 2) _ toy_buffers Hr Hle Hm Hb Hp Hl)
    as (out & d' & E & Hn & _).
  assert (∃ m, sent_by (toy_step (toy_device toy_two) (FromInterface (toy_ip 2 40)) (from_secs 2)) =
    Some [SendUdp m (toy_addr 2)]) as [m Hs] by (vm_compute; eexists; reflexivity).
  exists m, d'. split; [|exact Hn]. unfold toy_step in *. rewrite E in Hs. cbn [sent_by] in Hs.
  injection Hs as ->. exact E.
Defined.

(** The tunnel of the peer [k] to the device, and its initiation. *)
Definition toy_remote (k : Z) : tunn :=
  @tunn_new toy_noise [k] (@public_from toy_noise [1]) None 77 toy_stamper 0.
Definition toy_hello (k : Z) : bytes :=
  match @format_handshake_initiation toy_noise (toy_remote k) (repeat 0 148) false (from_secs 1) [9] with
  | Some (WriteToNetwork m, _) => m
  | _ => []
  end.

(** The response goes to where the initiation came from. *)
Lemma network_packet_outcomes_witness :
  @reachable Heap.pool toy_pool toy_pool_laws toy_noise toy_order generic_authorizer _ no_limits toy_secrets
    (from_secs 1) 0 (toy_device toy_two) ∧ is_bytes (toy_hello 2) ∧ (length (toy_hello 2) ≤ MAX_PACKET_SIZE)%nat ∧
  ∃ m d', toy_step (toy_device toy_two) (FromNetwork (toy_hello 2) (SockV4 0x05060708 9)) (from_secs 2) =
    Some ([SendUdp m (SockV4 0x05060708 9)], None, 0, d') ∧
    udp_outcome (toy_device toy_two) (toy_hello 2) (SockV4 0x05060708 9) (dst_buf toy_buffers)
      [SendUdp m (SockV4 0x05060708 9)] d'.
Proof.
  pose proof toy_reachable as Hr. pose proof toy_moment as Hm. pose proof toy_buffers_ok as Hb.
  assert (is_bytes (toy_hello 2)) as Hp by decide_now.
  assert (length (toy_hello 2) ≤ MAX_PACKET_SIZE)%nat as Hl by (vm_compute; lia).
  assert (from_secs 1 ≤ from_secs 2) as Hle by (vm_compute; congruence).
  split; [exact Hr|]. split; [exact Hp|]. split; [exact Hl|].
  destruct (network_packet_outcomes (V := toy_open_laws) (L := toy_noise_laws) (MO := toy_order_laws) no_limits
    toy_secrets (from_secs 1) 0 (toy_device toy_two) (from_secs 2) _ (SockV4 0x05060708 9) toy_buffers
    Hr Hle Hm Hb Hp Hl) as (out & d' & E & Ho).
  assert (∃ m, sent_by (toy_step (toy_device toy_two) (FromNetwork (toy_hello 2) (SockV4 0x05060708 9))
    (from_secs 2)) = Some [SendUdp m (SockV4 0x05060708 9)]) as [m Hs] by (vm_compute; eexists; reflexivity).
  unfold toy_step in *. rewrite E in Hs. cbn [sent_by] in Hs. injection Hs as ->.
  exists m, d'. split; [exact E|exact Ho].
Defined.

Lemma tick_outcomes_witness :
  @reachable Heap.pool toy_pool toy_pool_laws toy_noise toy_order generic_authorizer _ no_limits toy_secrets
    (from_secs 1) 0 (toy_device toy_two) ∧
  ∃ out tick' d', toy_step (toy_device toy_two) TimerTick (from_secs 2) = Some (out, None, tick', d') ∧
    same_net (toy_device toy_two) d' ∧ tick_outputs (toy_device toy_two) out ∧ tick' = 1.
Proof.
  pose proof toy_reachable as Hr. pose proof toy_moment as Hm. pose proof toy_buffers_ok as Hb.
  assert (from_secs 1 ≤ from_secs 2) as Hle by (vm_compute; congruence).
  split; [exact Hr|].
  exact (tick_outcomes (V := toy_open_laws) (L := toy_noise_laws) (MO := toy_order_laws) no_limits
    toy_secrets (from_secs 1) 0 (toy_device toy_two) (from_secs 2) toy_buffers Hr Hle Hm Hb).
Defined.

(** ** Chained relays

    The peers 2, 3 and 4 are configured directly; the device has sessions with 2
    and 4; then updates put 2 behind the relay 3 and 3 behind the relay 4. *)

(** The answer of the peer [k] to an initiation. *)
Definition toy_reply (k : Z) (initiation : bytes) : bytes :=
  match parse_incoming_packet initiation with
  | Some (Ok p) =>
      match @handle_verified_packet toy_noise (toy_remote k) p (repeat 0 148) (from_secs 2) [8] with
      | Some (WriteToNetwork m, _) => m
      | _ => []
      end
  | _ => []
  end.

(** A packet of [n] bytes for the peer [k]: the device after it, and the message
    it sends. *)
Definition toy_outgoing (k : Z) (n : nat) (now : Z) (d : device Heap.pool generic_authorizer)
    : option (device Heap.pool generic_authorizer * bytes) :=
  match toy_step d (FromInterface (toy_ip k n)) (from_secs now) with
  | Some ([SendUdp m _], _, _, d) => Some (d, m)
  | _ => None
  end.

Definition toy_event (ev : event) (now : Z) (d : device Heap.pool generic_authorizer) :=
  match toy_step d ev (from_secs now) with
  | Some (_, _, _, d) => Some d
  | None => None
  end.

(** A session with the peer [k]. *)
Definition toy_handshake (k : Z) (d : device Heap.pool generic_authorizer) :=
  let! '(d, m) := toy_outgoing k 40 2 d in
  toy_event (FromNetwork (toy_reply k m) (toy_addr k)) 3 d.

Definition toy_behind (k r : Z) : command :=
  Update (PeerConfig (@public_from toy_noise [k]) (Some (toy_addr k)) [NetV4 (Ipv4Net (0x0a000000 + 256 * k) 24)] None
    (Some (@public_from toy_noise [r]))).

(** After a packet of [n] bytes for the peer 2, which waits in its envelope for a
    session with the relay 3: the device, and the answer of 3. *)
Definition toy_chained (n : nat) : option (device Heap.pool generic_authorizer * bytes) :=
  let! d := toy_handshake 2 (toy_device [toy_config 2; toy_config 3; toy_config 4]) in
  let! d := toy_handshake 4 d in
  let! d := toy_event (FromClient (toy_behind 2 3)) 4 d in
  let! d := toy_event (FromClient (toy_behind 3 4)) 4 d in
  let! '(d, m) := toy_outgoing 2 n 5 d in
  Some (d, toy_reply 3 m).

Definition toy_flushing (n : nat) : option (bytes * device Heap.pool generic_authorizer) :=
  let! '(d, m) := toy_chained n in
  @flush_state Heap.pool toy_pool toy_noise toy_order generic_authorizer toy_secrets d m (toy_addr 3) toy_buffers
    (from_secs 6).

(** Where the messages of a step go. *)
Definition addressees (out : list output) : list socket_addr :=
  omap (λ o, match o with SendUdp _ a => Some a | _ => None end) out.

(** C11: chained relays make the device panic. Let a peer that is itself behind a
    relay be the relay of others, so that envelopes wait in its queue; when a
    handshake message from it is accepted, the queue is flushed. If the first
    envelope is longer than the MTU by at most the overhead of a message, the
    message around it fits the next envelope, but the message around that does not
    fit its buffer, and the bounds check of the encapsulation panics. Among the
    packets from the interface, those of 1201 to 1232 bytes make such envelopes.
    Any device, key, sessions and buffers of the source's sizes will do. *)
Theorem chained_relay_panics {P} `{packet_pool P} `{noise_laws} `{map_order} {A} `{forwarding_authorizer A}
    (lim : limits) (ephemeral : nat → bytes) tick (d d' : device P A) packet src b now r q n :
  buffers_ok b → length r = KEY_LEN →
  flush_state ephemeral d packet (normalize_socket_addr src) b now = Some (r, d') →
  flushes_envelope d' r q n → (MTU < n ≤ MTU + PACKET_OVERHEAD)%nat →
  device_step lim ephemeral tick d (FromNetwork packet src) b now = None ∧
  ∀ s k p, length k = KEY_LEN → (length p ≤ MTU)%nat →
    (MTU < length (envelope_for k (sealed s DATA p)) ≤ MTU + PACKET_OVERHEAD ↔ 1200 < length p ≤ 1232)%nat.
Proof.
  intros Hb Hr Hf Hq Hn. split; [|by intros; apply chained_sizes].
  cbn [device_step]. rewrite (flush_state_panics _ _ _ _ _ _ _ _ Hf); [done|]. by eapply flush_chained.
Qed.

(** A run of events from [Device::new]: two handshakes, two updates, a packet of
    1216 bytes and the answer of the relay. *)
Lemma chained_relay_panics_witness :
  ∃ d m d', toy_chained 1216 = Some (d, m) ∧
    toy_flushing 1216 = Some (@public_from toy_noise [3], d') ∧
    flushes_envelope d' (@public_from toy_noise [3]) (@public_from toy_noise [4]) 1284 ∧
    toy_step d (FromNetwork m (toy_addr 3)) (from_secs 6) = None.
Proof.
  destruct (toy_chained 1216) as [[d m]|] eqn:Hc; [|vm_compute in Hc; discriminate].
  assert ((λ '(k, d), (k, waiting_envelope d k)) <$> toy_flushing 1216 =
    Some (@public_from toy_noise [3], Some (@public_from toy_noise [4], 1284%nat))) as Hw by (vm_compute; reflexivity).
  destruct (toy_flushing 1216) as [[r d']|] eqn:Hf; [|discriminate Hw]. injection Hw as -> Hw.
  pose proof (waiting_envelope_spec _ _ _ _ Hw) as Hq. exists d, m, d'.
  split; [reflexivity|]. split; [reflexivity|]. split; [exact Hq|].
  unfold toy_flushing in Hf. rewrite Hc in Hf. cbn [mbind option_bind] in Hf.
  apply (chained_relay_panics (H1 := toy_noise_laws) no_limits toy_secrets 0 d d' m (toy_addr 3) toy_buffers (from_secs 6)
    (@public_from toy_noise [3]) (@public_from toy_noise [4]) 1284 toy_buffers_ok eq_refl Hf Hq).
  unfold MTU, PACKET_OVERHEAD. lia.
Defined.

(** Smaller packets are sent on (after the answer to the relay), larger ones
    dropped. *)
Example toy_chained_sizes :
  let answered n := let! '(d, m) := toy_chained n in
    addressees <$> sent_by (toy_step d (FromNetwork m (toy_addr 3)) (from_secs 6)) in
  answered 1200%nat = Some [toy_addr 4; toy_addr 4] ∧ answered 1280%nat = Some [toy_addr 4].
Proof. split; vm_compute; reflexivity. Qed.
