(* ===== verification/DeviceRelay.v ===== *)
(** * Packets between devices

    Several devices of [tendrilix/src/device.rs] together: a packet that one
    device takes from its interface comes out of the interface of the device
    that owns its destination, directly or through a relay that cannot read it. *)

From S2P Require Import Prelude IpNet AllowedIps IpPacket Index Timestamper Wire Relay Bounded PacketPool PacketQueue.
From S2P Require Import Session Handshake RateLimiter Timers Tunn TunnPair TunnTotal PeerTable Device DeviceSafe DeviceRun.

(** A sealed message is made of bytes. *)
Class noise_seal_laws `{noise_crypto} :=
  chacha_seal_bytes k n m ad :
    is_bytes m → is_bytes (chacha_seal k n m ad).1 ∧ is_bytes (chacha_seal k n m ad).2.

(** ** Messages on the wire *)

Section message.
Context `{L : noise_laws, S : !noise_seal_laws} {P : Type} `{packet_pool P}.

Lemma formatted_bytes s ty src n m s' :
  (DATA_OFFSET + padded_len src + AEAD_SIZE ≤ n)%nat →
  format_packet_data_with_type s ty src n = Some (Some m, s') →
  length m = (DATA_OFFSET + padded_len src + AEAD_SIZE)%nat ∧ (is_bytes src → is_bytes m).
Proof.
  intros Hn. rewrite format_spec by done. cbv zeta. case_match; [done|]. intros Hm.
  apply (inj Some), (f_equal fst) in Hm. cbn [fst] in Hm. apply (inj Some) in Hm as <-.
  set (pt := src ++ repeat 0 (padded_len src - length src)).
  assert (length pt = padded_len src) as Hpt.
  { unfold pt. rewrite length_app, repeat_length. pose proof (padded_len_ge src). lia. }
  split.
  - rewrite !length_app, !length_to_le_bytes, aead_length, aead_tag_length, Hpt.
    unfold DATA_OFFSET, AEAD_SIZE. lia.
  - intros Hsrc. assert (is_bytes pt) as Hb.
    { apply Forall_app. split; [done|].
      clear. induction (padded_len src - length src)%nat; simpl; [constructor|].
      by apply Forall_cons. }
    destruct (chacha_seal_bytes (sender s) (nonce_of (sending_key_counter s)) pt [] Hb).
    unfold is_bytes. rewrite !Forall_app. split_and!; [apply to_le_bytes_is_bytes..|done|done].
Qed.

Lemma encapsulated_bytes A (pool : P) ty src dst now e m A' s :
  session_at A (current A) = Some s →
  (DATA_OFFSET + padded_len src + AEAD_SIZE ≤ length dst)%nat → sending_key_counter s < REJECT_AFTER_MESSAGES →
  encapsulate_with_type A pool ty src dst now e = Some (WriteToNetwork m, A', pool) →
  length m = (DATA_OFFSET + padded_len src + AEAD_SIZE)%nat ∧ (is_bytes src → is_bytes m).
Proof.
  intros Hs Hd Hlt. unfold encapsulate_with_type, encrypt_current. rewrite Hs.
  destruct (format_packet_data_with_type s ty src (length dst)) as [[[b|] s']|] eqn:Hf;
    cbn [mbind option_bind]; [|exfalso|done].
  - intros [= <- _]. by eapply formatted_bytes.
  - rewrite format_spec in Hf by done. by rewrite (proj2 (Z.leb_gt _ _)) in Hf by done.
Qed.

Lemma relayed_inner_valid m p :
  is_bytes m → parse_incoming_packet m = Some (Ok (PData p)) → validate_inner_packet m = Some (Ok tt).
Proof.
  intros Hm Hp. destruct (validate_inner_packet_agrees m Hm) as (v & r & -> & Hr & Hv).
  rewrite Hp in Hr. injection Hr as <-. f_equal. apply Hv. by exists (PData p).
Qed.
End message.

(** ** Devices that share a session *)

Section devices.
Context {P : Type} `{Q : packet_pool_laws P} `{L : noise_laws, V : !noise_open_laws, S : !noise_seal_laws}
  `{MO : map_order_laws} {A : Type} `{Au : forwarding_authorizer A}.
Implicit Types (d : device P A).

(** The device [d], whose key is [k], and the device [d'], whose key is [k'],
    have each other as peers and their tunnels are joined; [i] and [j] are the
    indexes under which they receive. *)
Definition paired_at (i j : Z) d (k : bytes) d' (k' : bytes) : Prop :=
  ∃ p p', peers (state d) !! k' = Some p ∧ peers (state d') !! k = Some p' ∧
    peer_key_by_index (state d) i = Some k' ∧ peer_key_by_index (state d') j = Some k ∧
    joined_at i j (tunnel p) (tunnel p').

Definition paired d k d' k' : Prop := ∃ i j, paired_at i j d k d' k'.

(** The session with the peer [k] has packets left. *)
Definition ready d (k : bytes) : Prop := ∀ p, peers (state d) !! k = Some p → may_send (tunnel p).

Lemma paired_at_sym i j d k d' k' : paired_at i j d k d' k' → paired_at j i d' k' d k.
Proof. intros (p & p' & ? & ? & ? & ? & ?). exists p', p. split_and!; try done. by apply joined_at_sym. Qed.

Lemma paired_sym d k d' k' : paired d k d' k' → paired d' k' d k.
Proof. intros (i & j & ?). exists j, i. by apply paired_at_sym. Qed.

(** Giving the peer [k'] of [d] another tunnel of the same session. *)
Lemma paired_at_tunnel i j d k d' k' d1 p1 p' :
  paired_at i j d k d' k' → peers_by_idx (state d1) = peers_by_idx (state d) →
  peers (state d1) !! k' = Some p1 → peers (state d') !! k = Some p' → joined_at i j (tunnel p1) (tunnel p') →
  paired_at i j d1 k d' k'.
Proof.
  intros (_ & _ & _ & _ & Hi & Hj & _) Hidx Hp1 Hp' HJ. exists p1, p'. split_and!; try done.
  unfold peer_key_by_index in *. by rewrite Hidx.
Qed.

Lemma joined_at_packets i j q T B : joined_at i j T B → joined_at i j (set_packets q T) B.
Proof.
  intros HJ. apply (joined_at_same _ _ T); [done|done| |done].
  apply wf_set_packets. by destruct HJ as (? & ? & ? & ? & [] & _).
Qed.

(** Only packets that wait are lost. *)
Lemma drop_spec now d :
  wf_device now d → ∃ d', drop_expired d now = Some d' ∧ wf_device now d' ∧ same_net d d' ∧
    ∀ k p, peers (state d) !! k = Some p →
      ∃ q, peers (state d') !! k = Some (set_tunnel (set_packets q (tunnel p)) p).
Proof.
  intros [relays Hwf]. destruct (drop_expired_packets_spec relays now d Hwf) as (d' & Hd & [Hwf' Hn] & Hst).
  exists d'. split_and!; [done|by exists relays|done|]. intros k p Hp.
  destruct (net_peer _ _ _ _ Hn Hp) as (p' & Hp' & _).
  destruct (Hst k p' Hp') as (p0 & q & Hp0 & ->). exists q. congruence.
Qed.

Lemma udp_handled ephemeral now d packet src b :
  wf_device now d → buffers_ok b → is_bytes packet → (length packet ≤ MAX_PACKET_SIZE)%nat →
  ∃ out d', handle_udp_packet ephemeral d packet src b now = Some (out, d') ∧ wf_device now d'.
Proof.
  intros [relays Hwf] Hb Hp Hl. destruct (udp_packet_steps relays ephemeral now d packet src b Hwf Hb Hp Hl)
    as (out & d' & E & Hwf' & _). exists out, d'. split; [done|by exists relays].
Qed.

Lemma paired_at_drop i j d k d' k' d1 :
  paired_at i j d k d' k' → same_net d d1 →
  (∀ k p, peers (state d) !! k = Some p →
    ∃ q, peers (state d1) !! k = Some (set_tunnel (set_packets q (tunnel p)) p)) →
  paired_at i j d1 k d' k'.
Proof.
  intros Hpair Hn Hdrop. pose proof Hpair as (p & p' & Hp & Hp' & _ & _ & HJ).
  destruct (Hdrop k' p Hp) as [q Hq].
  eapply paired_at_tunnel; [exact Hpair|apply Hn|exact Hq|exact Hp'|]. by apply joined_at_packets.
Qed.

Lemma ready_drop d k d1 :
  ready d k → is_Some (peers (state d) !! k) →
  (∀ k p, peers (state d) !! k = Some p →
    ∃ q, peers (state d1) !! k = Some (set_tunnel (set_packets q (tunnel p)) p)) →
  ready d1 k.
Proof.
  intros Hr [p Hp] Hdrop p1 Hp1. destruct (Hdrop k p Hp) as [q Hq].
  rewrite Hp1 in Hq. injection Hq as ->. exact (Hr p Hp).
Qed.

(** ** Messages between joined tunnels *)

Lemma data_message i j T B (pool : P) packet src dst dst' now e :
  joined_at i j T B → may_send T → ip_packet packet src → is_bytes packet → (length packet ≤ MTU)%nat →
  length dst = MAX_PACKET_SIZE → length dst' = MAX_PACKET_SIZE →
  ∃ m T' pd B', encapsulate T pool packet dst now e = Some (WriteToNetwork m, T', pool) ∧
    parse_incoming_packet m = Some (Ok (PData pd)) ∧ data_receiver_idx pd = j ∧
    is_bytes m ∧ (length m ≤ max_inner)%nat ∧ joined_at i j T' B' ∧
    (∀ now e, handle_verified_packet B (PData pd) dst' now e = Some (to_interface packet src, B')) ∧
    ∃ err, ∀ q now e, handle_verified_packet (set_packets q B') (PData pd) dst' now e =
      Some (TunnErr err, set_packets q B').
Proof.
  intros HJ Hmay Hip Hb Hl Hd Hd'.
  pose proof (padded_len_le packet). assert (padded_len packet ≤ MTU)%nat as Hpl by lia.
  assert (DATA_OFFSET + padded_len packet + AEAD_SIZE ≤ length dst)%nat as Hs
    by (rewrite Hd; unfold DATA_OFFSET, AEAD_SIZE, MAX_PACKET_SIZE, PACKET_OVERHEAD; lia).
  destruct (carries_data i j T B pool packet src dst dst' now 0 e [] HJ Hmay)
    as (m & T' & pd & B' & He & Hp & Hpj & Hv & HJ' & Hag); [done| |done|].
  { rewrite Hd'. unfold AEAD_SIZE, MAX_PACKET_SIZE, PACKET_OVERHEAD. lia. }
  destruct HJ as (s & r & ? & ? & [_ _ Hsa _ Hca _ _ _] & _).
  assert (session_at T (current T) = Some s) as HT by (by rewrite (session_at_slot T _ _ Hca)).
  destruct (encapsulated_bytes T pool _ _ _ _ _ _ _ s HT Hs (Hmay s HT) He) as [Hlen Hbytes].
  exists m, T', pd, B'. split_and!; try done; [by apply Hbytes|].
  rewrite Hlen. unfold max_inner, DATA_OFFSET, AEAD_SIZE, PACKET_OVERHEAD. lia.
Qed.

Lemma relay_message i j T B (pool : P) plain dst dst' now e :
  joined_at i j T B → may_send T → is_bytes plain → (length plain ≤ ENVELOPE_HEADER_SIZE + max_inner)%nat →
  length dst = MAX_PACKET_SIZE → length dst' = MAX_PACKET_SIZE →
  ∃ m T' pd B' pad, encapsulate_relay T pool plain dst now e = Some (WriteToNetwork m, T', pool) ∧
    parse_incoming_packet m = Some (Ok (PRelayData pd)) ∧ data_receiver_idx pd = j ∧
    is_bytes m ∧ (length m ≤ MAX_PACKET_SIZE)%nat ∧ joined_at i j T' B' ∧
    handle_verified_relay_packet B (PRelayData pd) dst' = Some (Ok (plain ++ pad), B') ∧
    ∃ err, ∀ q, handle_verified_relay_packet (set_packets q B') (PRelayData pd) dst' =
      Some (Err err, set_packets q B').
Proof.
  intros HJ Hmay Hb Hl Hd Hd'.
  assert (padded_len plain ≤ ENVELOPE_HEADER_SIZE + max_inner)%nat as Hpl.
  { pose proof (padded_len_le plain). unfold max_inner in *. lia. }
  assert (DATA_OFFSET + padded_len plain + AEAD_SIZE ≤ MAX_PACKET_SIZE)%nat as Hs.
  { unfold max_inner, DATA_OFFSET, AEAD_SIZE, MAX_PACKET_SIZE, PACKET_OVERHEAD, ENVELOPE_HEADER_SIZE,
      PacketPool.ENVELOPE_HEADER_SIZE in *. lia. }
  destruct (carries_relay i j T B pool plain dst dst' now e HJ Hmay)
    as (m & T' & pd & B' & He & Hp & Hpj & Hv & HJ' & Hag); [by rewrite Hd|rewrite Hd'; lia|].
  destruct HJ as (s & r & ? & ? & [_ _ Hsa _ Hca _ _ _] & _).
  assert (session_at T (current T) = Some s) as HT by (by rewrite (session_at_slot T _ _ Hca)).
  destruct (encapsulated_bytes T pool _ _ _ _ _ _ _ s HT ltac:(by rewrite Hd) (Hmay s HT) He) as [Hlen Hbytes].
  eexists m, T', pd, B', _. split_and!; try done; [by apply Hbytes|]. by rewrite Hlen.
Qed.

(** ** One device at a time *)

Section handlers.
Context (ephemeral : nat → bytes).

Lemma tun_packet_sends d packet addr k d1 p m t b now :
  dst_address packet = Some (Some addr) → Table.find (peers_by_ip (state d)) addr = Some (Some k) →
  drop_expired d now = Some d1 → peers (state d1) !! k = Some p →
  encapsulate (tunnel p) (device_pool d1) packet (dst_buf b) now (next_ephemeral ephemeral d1) =
    Some (WriteToNetwork m, t, device_pool d1) →
  handle_tun_packet ephemeral d packet b now =
    (let! '(pending, d') := prepare_packet_to_peer ephemeral (draw (set_peer k (set_tunnel t p) d1)) k m
       (relay_plain_buf b) (relay_packet_buf b) now in
     Some (send_pending_packet pending, d')).
Proof.
  intros Ha Hf Hd Hp He. unfold handle_tun_packet. rewrite Ha. cbn [mbind option_bind].
  rewrite Hf. cbn [mbind option_bind]. rewrite Hd. cbn [mbind option_bind].
  unfold get_peer, peer_by_key. rewrite Hp, He. done.
Qed.

(** Messages that carry data pass the rate limiter. *)
Lemma verify_data r src m n now p :
  parse_incoming_packet m = Some (Ok p) → handshake_sender p = None →
  verify_packet r src m n now = Some (Ok p, r).
Proof. intros Hp Hs. unfold verify_packet. rewrite Hp. cbn [mbind option_bind]. by rewrite Hs. Qed.

Lemma udp_data d m pd k d1 p src b now :
  parse_incoming_packet m = Some (Ok (PData pd)) → peer_key_by_index (state d) (data_receiver_idx pd) = Some k →
  drop_expired d now = Some d1 → peers (state d1) !! k = Some p →
  handle_udp_packet ephemeral d m src b now = handle_tunnel_packet ephemeral d1 k p (PData pd) src b now.
Proof.
  intros Hm Hk Hd Hp. unfold handle_udp_packet. rewrite (verify_data _ _ _ _ _ _ Hm) by done.
  cbn [mbind option_bind]. replace (set_limiter (limiter d) d) with d by by destruct d.
  cbn [packet_peer mbind option_bind]. rewrite Hk, Hd. cbn [mbind option_bind].
  unfold get_peer, peer_by_key. by rewrite Hp.
Qed.

Lemma udp_relay_data d m pd k d1 p src b now :
  parse_incoming_packet m = Some (Ok (PRelayData pd)) →
  peer_key_by_index (state d) (data_receiver_idx pd) = Some k →
  drop_expired d now = Some d1 → peers (state d1) !! k = Some p →
  handle_udp_packet ephemeral d m src b now = handle_relay_data ephemeral d1 k p (PRelayData pd) b now.
Proof.
  intros Hm Hk Hd Hp. unfold handle_udp_packet. rewrite (verify_data _ _ _ _ _ _ Hm) by done.
  cbn [mbind option_bind]. replace (set_limiter (limiter d) d) with d by by destruct d.
  cbn [packet_peer mbind option_bind]. rewrite Hk, Hd. cbn [mbind option_bind].
  unfold get_peer, peer_by_key. by rewrite Hp.
Qed.

Lemma tunnel_delivers d k p pd src addr packet t b now :
  handle_verified_packet (tunnel p) (PData pd) (dst_buf b) now (next_ephemeral ephemeral d) =
    Some (to_interface packet addr, t) →
  is_allowed_ip p addr = Some true →
  ∃ p', handle_tunnel_packet ephemeral d k p (PData pd) src b now =
      Some ([SendNic packet k], draw (set_peer k p' d)) ∧ tunnel p' = t.
Proof.
  intros Hv Ha. unfold handle_tunnel_packet. rewrite Hv. cbn [mbind option_bind].
  set (p1 := match to_interface packet addr with TunnErr _ => set_tunnel t p | _ => _ end).
  assert (tunnel p1 = t ∧ is_allowed_ip p1 addr = Some true) as [Ht Ha1].
  { unfold p1. destruct addr; simpl; case_bool_decide; done. }
  exists p1. split; [|done]. unfold deliver_to_interface. destruct addr; cbn [to_interface]; by rewrite Ha1.
Qed.

Lemma tunnel_refuses d k p pd src err b now :
  handle_verified_packet (tunnel p) (PData pd) (dst_buf b) now (next_ephemeral ephemeral d) =
    Some (TunnErr err, tunnel p) →
  ∃ d', handle_tunnel_packet ephemeral d k p (PData pd) src b now = Some ([], d').
Proof. intros Hv. unfold handle_tunnel_packet. rewrite Hv. cbn [mbind option_bind]. by eexists. Qed.

(** A device hands a packet of a paired peer to its interface, once. *)
Lemma device_accepts now d d1 k p B' m pd packet src from b :
  wf_device now d → buffers_ok b → drop_expired d now = Some d1 → same_net d d1 →
  peers (state d1) !! k = Some p →
  parse_incoming_packet m = Some (Ok (PData pd)) → peer_key_by_index (state d) (data_receiver_idx pd) = Some k →
  is_bytes m → (length m ≤ MAX_PACKET_SIZE)%nat → ip_addr_valid src →
  (∀ now e, handle_verified_packet (tunnel p) (PData pd) (dst_buf b) now e = Some (to_interface packet src, B')) →
  (∃ err, ∀ q now e, handle_verified_packet (set_packets q B') (PData pd) (dst_buf b) now e =
    Some (TunnErr err, set_packets q B')) →
  Table.find (peers_by_ip (state d)) src = Some (Some k) →
  ∃ d', handle_udp_packet ephemeral d m from b now = Some ([SendNic packet k], d') ∧ wf_device now d' ∧
    peers_by_idx (state d') = peers_by_idx (state d) ∧
    (∃ p', peers (state d') !! k = Some p' ∧ tunnel p' = B') ∧
    ∀ later from', wf_device later d' → ∃ d'', handle_udp_packet ephemeral d' m from' b later = Some ([], d'').
Proof.
  intros Hwf Hb Hd Hn Hp Hm Hk Hbm Hlm Hsrc Hv [err Hag] Hf.
  assert (is_allowed_ip p src = Some true) as Hal.
  { destruct Hwf as [relays [hq Hwf]]. destruct (routing_spec (generator d) (state d) src (device_table _ _ _ _ Hwf) Hsrc)
      as (r & Hf' & Hr & _). rewrite Hf in Hf'. injection Hf' as <-.
    destruct (proj1 (Hr k) eq_refl) as (p0 & Hp0 & Ha).
    destruct (net_peer _ _ _ _ Hn Hp0) as (p1 & Hp1 & Hc). rewrite Hp in Hp1. injection Hp1 as <-. injection Hc as _ _ _ Hips _.
    unfold is_allowed_ip in *. by rewrite Hips. }
  destruct (tunnel_delivers d1 k p pd from src packet B' b now (Hv _ _) Hal) as (p' & Ht & Hp').
  destruct (udp_handled ephemeral now d m from b Hwf Hb Hbm Hlm) as (out & d' & Hu & Hwf').
  pose proof Hu as Hu'. rewrite (udp_data d m pd k d1 p from b now Hm Hk Hd Hp), Ht in Hu'.
  injection Hu' as <- <-. eexists. split; [exact Hu|]. split; [done|].
  assert (peers_by_idx (state d1) = peers_by_idx (state d)) as Hidx by apply Hn.
  split; [exact Hidx|]. assert (peers (state (draw (set_peer k p' d1))) !! k = Some p') as Hk' by by apply lookup_insert_eq.
  split; [by exists p'|]. intros later from' Hl.
  destruct (drop_spec later _ Hl) as (d2 & Hd2 & _ & _ & Hdrop). destruct (Hdrop k p' Hk') as [q Hq].
  erewrite udp_data; [|exact Hm| |exact Hd2|exact Hq].
  - eapply tunnel_refuses. cbn [set_tunnel tunnel]. rewrite Hp'. apply Hag.
  - unfold peer_key_by_index in *. by rewrite <- Hk, <- Hidx.
Qed.

(** A relay passes on what the envelope holds, once. *)
Lemma device_forwards now d d1 k p R' m pd inner pad dest pdst addr from b ipd :
  wf_device now d → buffers_ok b → drop_expired d now = Some d1 → same_net d d1 →
  peers (state d1) !! k = Some p →
  parse_incoming_packet m = Some (Ok (PRelayData pd)) →
  peer_key_by_index (state d) (data_receiver_idx pd) = Some k →
  is_bytes m → (length m ≤ MAX_PACKET_SIZE)%nat → length dest = KEY_LEN →
  is_bytes inner → (length inner ≤ max_inner)%nat → parse_incoming_packet inner = Some (Ok (PData ipd)) →
  handle_verified_relay_packet (tunnel p) (PRelayData pd) (dst_buf b) =
    Some (Ok ((header DEFAULT_HOP_LIMIT (length inner) dest ++ inner) ++ pad), R') →
  (∃ err, ∀ q, handle_verified_relay_packet (set_packets q R') (PRelayData pd) (dst_buf b) =
    Some (Err err, set_packets q R')) →
  authorize (authorizer d) k dest = true →
  peers (state d) !! dest = Some pdst → relay pdst = None → endpoint pdst = Some addr →
  ∃ d', handle_udp_packet ephemeral d m from b now = Some ([SendUdp inner addr], d') ∧ wf_device now d' ∧
    peers_by_idx (state d') = peers_by_idx (state d) ∧
    (∃ p', peers (state d') !! k = Some p' ∧ tunnel p' = R') ∧
    ∀ later from', wf_device later d' → ∃ d'', handle_udp_packet ephemeral d' m from' b later = Some ([], d'').
Proof.
  intros Hwf Hb Hd Hn Hp Hm Hk Hbm Hlm Hdl Hbi Hli Hpi Hv [err Hag] Hau Hpd Hrel Hend.
  set (d' := set_peer k (set_tunnel R' p) d1).
  assert (handle_relay_data ephemeral d1 k p (PRelayData pd) b now = Some ([SendUdp inner addr], d')) as Hh.
  { unfold handle_relay_data. rewrite Hv. cbn [mbind option_bind]. rewrite <- app_assoc.
    destruct (parse_header DEFAULT_HOP_LIMIT (length inner) dest inner pad) as (-> & Hdest & Hin);
      [done|unfold max_inner, MTU, PACKET_OVERHEAD, u16_max in *; lia|done|done|].
    cbn [mbind option_bind]. rewrite Hin. cbn [mbind option_bind].
    rewrite (relayed_inner_valid _ _ Hbi Hpi). cbn [mbind option_bind]. rewrite Hdest. cbn [mbind option_bind].
    change (authorizer (set_peer k (set_tunnel R' p) d1)) with (authorizer d1).
    rewrite (net_authorizer _ _ Hn), Hau. cbn [negb]. fold d'.
    assert (∃ q, peers (state d') !! dest = Some q ∧ relay q = None ∧ endpoint q = Some addr) as (q & Hq & Hqr & Hqe).
    { destruct (net_peer _ _ _ _ Hn Hpd) as (p1 & Hp1 & Hc1). injection Hc1 as _ E1 E2 _ _.
      unfold d'. cbn. destruct (decide (dest = k)) as [->|].
      - exists (set_tunnel R' p). rewrite lookup_insert_eq. simplify_eq. by rewrite <- Hrel, <- Hend.
      - exists p1. by rewrite lookup_insert_ne, E1, E2 by done. }
    unfold forward_relay_packet, get_peer, peer_by_key. rewrite Hq, Hqr, Hqe, Hin. done. }
  destruct (udp_handled ephemeral now d m from b Hwf Hb Hbm Hlm) as (out & d2 & Hu & Hwf').
  pose proof Hu as Hu'. rewrite (udp_relay_data d m pd k d1 p from b now Hm Hk Hd Hp), Hh in Hu'.
  injection Hu' as <- <-. exists d'. split; [exact Hu|]. split; [done|].
  assert (peers_by_idx (state d1) = peers_by_idx (state d)) as Hidx by apply Hn.
  split; [exact Hidx|]. assert (peers (state d') !! k = Some (set_tunnel R' p)) as Hk' by by apply lookup_insert_eq.
  split; [by eexists|]. intros later from' Hl.
  destruct (drop_spec later _ Hl) as (d2 & Hd2 & _ & _ & Hdrop). destruct (Hdrop k _ Hk') as [q Hq].
  erewrite udp_relay_data; [|exact Hm| |exact Hd2|exact Hq].
  - unfold handle_relay_data. cbn [set_tunnel tunnel]. rewrite Hag. cbn [mbind option_bind]. by eexists.
  - unfold peer_key_by_index in *. by rewrite <- Hk, <- Hidx.
Qed.

(** Wrapping a message of the peer [k] for its relay [r]. *)
Lemma sends_via_relay d k p r q d1 m b now m' t addr :
  peers (state d) !! k = Some p → relay p = Some r → length k = KEY_LEN → buffers_ok b →
  (length m ≤ max_inner)%nat → drop_expired d now = Some d1 → peers (state d1) !! r = Some q →
  encapsulate_relay (tunnel q) (device_pool d1) (header DEFAULT_HOP_LIMIT (length m) k ++ m)
    (relay_packet_buf b) now (next_ephemeral ephemeral d1) = Some (WriteToNetwork m', t, device_pool d1) →
  endpoint q = Some addr →
  prepare_packet_to_peer ephemeral d k m (relay_plain_buf b) (relay_packet_buf b) now =
    Some (Some (m', addr), draw (set_peer r (set_tunnel t q) d1)).
Proof.
  intros Hp Hr Hk Hb Hm Hd Hq He Hend. unfold prepare_packet_to_peer, get_peer, peer_by_key.
  rewrite Hp, Hr. unfold prepare_packet_to_peer_via_relay. rewrite build_envelope_ok.
  2: done. 2: { unfold max_inner, MTU, PACKET_OVERHEAD, u16_max in *. lia. }
  2: { rewrite (plain_ok _ Hb). unfold max_inner, Relay.ENVELOPE_HEADER_SIZE, MAX_PACKET_SIZE,
         PacketPool.ENVELOPE_HEADER_SIZE in *. lia. }
  cbn [mbind option_bind]. rewrite app_assoc, take_app_length'
    by (by rewrite length_app, length_header).
  rewrite Hd. cbn [mbind option_bind]. unfold get_peer, peer_by_key. rewrite Hq.
  unfold send_relay_data. rewrite He. cbn [mbind option_bind]. by rewrite Hend.
Qed.
End handlers.

(** ** Across the network *)

Section network.
Context (eA eR eB : nat → bytes).

Lemma packet_addr_valid packet src :
  is_bytes packet → ip_packet packet src → ip_addr_valid src.
Proof.
  intros Hb [_ Hs]. destruct (packet_addresses_total packet Hb) as (sa & da & Hsa & _ & Hv & _).
  rewrite Hs in Hsa. injection Hsa as <-. by apply Hv.
Qed.

(** What a packet from the interface becomes: the message [inner] for the peer
    that owns its destination, whose end of the tunnel is [B]. *)
Record for_peer (j : Z) (B B' : tunn) (inner packet : bytes) (src : ip_addr) (ipd : data) (dstB : bytes) : Prop := {
  inner_parses : parse_incoming_packet inner = Some (Ok (PData ipd));
  inner_index : data_receiver_idx ipd = j;
  inner_bytes : is_bytes inner;
  inner_length : (length inner ≤ max_inner)%nat;
  inner_received now e : handle_verified_packet B (PData ipd) dstB now e = Some (to_interface packet src, B');
  inner_once : ∃ err, ∀ q now e, handle_verified_packet (set_packets q B') (PData ipd) dstB now e =
    Some (TunnErr err, set_packets q B')
}.

Lemma sender_encapsulates (dA : device P A) kB pB i j B packet src dst dstB bA now :
  wf_device now dA → buffers_ok bA → is_bytes packet → (length packet ≤ MTU)%nat → ip_packet packet src →
  dst_address packet = Some (Some dst) → Table.find (peers_by_ip (state dA)) dst = Some (Some kB) →
  peers (state dA) !! kB = Some pB → joined_at i j (tunnel pB) B → ready dA kB → length dstB = MAX_PACKET_SIZE →
  ∃ inner d2 p1 ipd B', for_peer j B B' inner packet src ipd dstB ∧
    handle_tun_packet eA dA packet bA now =
      (let! '(pending, d') := prepare_packet_to_peer eA d2 kB inner (relay_plain_buf bA) (relay_packet_buf bA) now in
       Some (send_pending_packet pending, d')) ∧
    wf_device now d2 ∧ same_net dA d2 ∧
    peers (state d2) !! kB = Some p1 ∧ relay p1 = relay pB ∧ endpoint p1 = endpoint pB ∧
    joined_at i j (tunnel p1) B' ∧
    ∀ k p, k ≠ kB → peers (state dA) !! k = Some p →
      ∃ q, peers (state d2) !! k = Some (set_tunnel (set_packets q (tunnel p)) p).
Proof.
  intros Hwf Hb Hbp Hlp Hip Hdst Hf HpB HJB HrB HdB.
  destruct (drop_spec now dA Hwf) as (d1 & Hd1 & Hwf1 & Hn1 & Hdrop1).
  destruct (Hdrop1 kB pB HpB) as [q1 Hq1].
  destruct (data_message i j _ B (device_pool d1) packet src (dst_buf bA) dstB now (next_ephemeral eA d1)
    (joined_at_packets _ _ q1 _ _ HJB) (HrB pB HpB) Hip Hbp Hlp (dst_ok _ Hb) HdB)
    as (inner & T' & ipd & B' & He & Hin & Hinj & Hbin & Hlin & HJB' & HvB & HagB).
  destruct Hwf1 as [relays Hwf1].
  destruct (encapsulate_steps relays eA now d1 kB _ packet bA Hwf1 Hq1 Hb Hlp) as (r & t & pool & He' & [Hwf2 Hn2] & _).
  cbn [set_tunnel tunnel] in He'. rewrite He in He'. injection He' as <- <- <-.
  set (p1 := set_tunnel T' (set_tunnel (set_packets q1 (tunnel pB)) pB)) in *.
  exists inner, (draw (set_peer kB p1 d1)), p1, ipd, B'. split; [done|].
  split; [by eapply tun_packet_sends|]. split; [by exists relays|]. split; [by eapply same_net_trans|].
  split; [by apply lookup_insert_eq|]. split_and!; [done..|].
  intros k p Hne Hp. destruct (Hdrop1 k p Hp) as [q Hq]. exists q. cbn. by rewrite lookup_insert_ne.
Qed.

(** C2: a packet that a device takes from its interface reaches the interface
    of the peer that owns its destination: the device sends one message, to the
    endpoint of that peer, and the peer, when it is given this message from any
    address, writes the packet, unchanged, to its interface as the sender's.
    The devices stay paired, and the message is dropped when it comes again. *)
Theorem direct_delivery (dA dB : device P A) kA kB pB packet src dst addr from bA bB now_a now_b :
  wf_device now_a dA → wf_device now_b dB → buffers_ok bA → buffers_ok bB →
  is_bytes packet → (length packet ≤ MTU)%nat → ip_packet packet src →
  dst_address packet = Some (Some dst) → Table.find (peers_by_ip (state dA)) dst = Some (Some kB) →
  peers (state dA) !! kB = Some pB → relay pB = None → endpoint pB = Some addr →
  Table.find (peers_by_ip (state dB)) src = Some (Some kA) →
  paired dA kA dB kB → ready dA kB →
  ∃ m dA' dB', handle_tun_packet eA dA packet bA now_a = Some ([SendUdp m addr], dA') ∧
    handle_udp_packet eB dB m from bB now_b = Some ([SendNic packet kA], dB') ∧
    wf_device now_a dA' ∧ wf_device now_b dB' ∧ paired dA' kA dB' kB ∧
    ∀ later from', wf_device later dB' → ∃ dB'', handle_udp_packet eB dB' m from' bB later = Some ([], dB'').
Proof.
  intros HwA HwB HbA HbB Hbp Hlp Hip Hdst HfA HpB Hrel Hend HfB (i & j & Hpair) Hready.
  destruct (drop_spec now_b dB HwB) as (dB1 & HdB & _ & HnB & HdropB).
  pose proof Hpair as (p0 & pA & HpB' & HpA & Hi & Hj & HJ). assert (p0 = pB) as -> by congruence.
  destruct (HdropB kA pA HpA) as [qB HqB].
  apply joined_at_sym, (joined_at_packets _ _ qB), joined_at_sym in HJ.
  destruct (sender_encapsulates dA kB pB i j _ packet src dst (dst_buf bB) bA now_a HwA HbA Hbp Hlp Hip Hdst HfA
    HpB HJ Hready (dst_ok _ HbB)) as (m & dA' & p1 & pd & B' & Hmsg & Ht & HwA' & HnA & Hp1 & Hr1 & He1 & HJ' & _).
  pose proof Hmsg as [Hm Hmj Hbm Hlm Hv Hag].
  destruct (device_accepts eB now_b dB dB1 kA _ B' m pd packet src from bB HwB HbB HdB HnB HqB Hm
    ltac:(by rewrite Hmj) Hbm ltac:(unfold max_inner, MAX_PACKET_SIZE in *; lia)
    (packet_addr_valid _ _ Hbp Hip) Hv Hag HfB) as (dB' & Hu & HwB' & Hidx & (pA' & HpA' & <-) & Hrep).
  exists m, dA', dB'. split.
  { rewrite Ht. unfold prepare_packet_to_peer, get_peer, peer_by_key. by rewrite Hp1, Hr1, He1, Hrel, Hend. }
  split; [exact Hu|]. split_and!; [done|done| |done].
  exists i, j, p1, pA'. unfold peer_key_by_index in *. rewrite (net_idx _ _ HnA), Hidx. done.
Qed.

Lemma envelope_bytes k m : is_bytes k → is_bytes m → is_bytes (header DEFAULT_HOP_LIMIT (length m) k ++ m).
Proof.
  intros Hk Hm. unfold is_bytes, header. rewrite !Forall_app. split_and!; [|apply to_le_bytes_is_bytes|done|done].
  by repeat (constructor; [done|]).
Qed.

(** The relay's side of a joined tunnel is at hand after its queues are cleaned,
    as is the sender's. *)
Lemma joined_at_dropped i j q q' T B :
  joined_at i j T B → joined_at i j (set_packets q T) (set_packets q' B).
Proof. intros HJ. by apply joined_at_packets, joined_at_sym, joined_at_packets, joined_at_sym. Qed.

(** What the relay's end [R] of the tunnel makes of the message [m]. *)
Record for_relay (j : Z) (R R' : tunn) (m plain : bytes) (pd : data) (dstR : bytes) : Prop := {
  outer_parses : parse_incoming_packet m = Some (Ok (PRelayData pd));
  outer_index : data_receiver_idx pd = j;
  outer_bytes : is_bytes m;
  outer_length : (length m ≤ MAX_PACKET_SIZE)%nat;
  outer_received : ∃ pad, handle_verified_relay_packet R (PRelayData pd) dstR = Some (Ok (plain ++ pad), R');
  outer_once : ∃ err, ∀ q, handle_verified_relay_packet (set_packets q R') (PRelayData pd) dstR =
    Some (Err err, set_packets q R')
}.

(** The sender's part when the destination [kB] is behind the relay [kR]. *)
Lemma sender_wraps (dA : device P A) kB kR pB pR i j i' j' B R packet src dst addr dstB dstR bA now :
  wf_device now dA → buffers_ok bA → is_bytes packet → (length packet ≤ MTU)%nat → ip_packet packet src →
  is_bytes kB → dst_address packet = Some (Some dst) → Table.find (peers_by_ip (state dA)) dst = Some (Some kB) →
  peers (state dA) !! kB = Some pB → relay pB = Some kR →
  peers (state dA) !! kR = Some pR → endpoint pR = Some addr →
  joined_at i j (tunnel pB) B → joined_at i' j' (tunnel pR) R → ready dA kB → ready dA kR →
  length dstB = MAX_PACKET_SIZE → length dstR = MAX_PACKET_SIZE →
  ∃ m inner dA' pd ipd B' R' pB' pR',
    handle_tun_packet eA dA packet bA now = Some ([SendUdp m addr], dA') ∧ wf_device now dA' ∧ same_net dA dA' ∧
    peers (state dA') !! kB = Some pB' ∧ joined_at i j (tunnel pB') B' ∧
    peers (state dA') !! kR = Some pR' ∧ joined_at i' j' (tunnel pR') R' ∧
    for_peer j B B' inner packet src ipd dstB ∧
    for_relay j' R R' m (header DEFAULT_HOP_LIMIT (length inner) kB ++ inner) pd dstR.
Proof.
  intros Hwf Hb Hbp Hlp Hip HbkB Hdst Hf HpB Hrel HpR Hend HJB HJR HrB HrR HdB HdR.
  assert (length kB = KEY_LEN) as HkB by (destruct Hwf as [relays [hq Hwf]]; eapply (device_keys _ _ _ _ Hwf); by eexists).
  assert (kB ≠ kR) as Hne.
  { intros <-. destruct Hwf as [relays [hq Hwf]]. by destruct (device_roles _ _ _ _ Hwf kB pB kB HpB Hrel). }
  destruct (sender_encapsulates dA kB pB i j B packet src dst dstB bA now Hwf Hb Hbp Hlp Hip Hdst Hf HpB HJB HrB HdB)
    as (inner & d2 & p1 & ipd & B' & Hmsg & Ht & Hwf2 & Hn2 & Hp1 & Hr1 & _ & HJB' & Hoth).
  destruct (Hoth kR pR (not_eq_sym Hne) HpR) as [q2 Hp2].
  destruct (drop_spec now d2 Hwf2) as (d3 & Hd3 & Hwf3 & Hn3 & Hdrop3).
  destruct (Hdrop3 kB p1 Hp1) as [q3 Hq3]. destruct (Hdrop3 kR _ Hp2) as [q4 Hq4].
  cbn [set_tunnel tunnel] in Hq4. set (pR3 := set_tunnel _ (set_tunnel _ pR)) in Hq4.
  pose proof (inner_length _ _ _ _ _ _ _ _ Hmsg) as Hlin.
  destruct (relay_message i' j' (tunnel pR3) R (device_pool d3) (header DEFAULT_HOP_LIMIT (length inner) kB ++ inner)
    (relay_packet_buf bA) dstR now (next_ephemeral eA d3)) as
    (m & T'' & pd & R' & pad & Her & Hm & Hmj & Hbm & Hlm & HJR' & HvR & HagR).
  { by apply joined_at_packets, joined_at_packets. }
  { exact (HrR pR HpR). }
  { apply envelope_bytes; [done|apply Hmsg]. }
  { rewrite length_app, length_header by done. unfold Relay.ENVELOPE_HEADER_SIZE, PacketPool.ENVELOPE_HEADER_SIZE. lia. }
  { apply Hb. }
  { done. }
  rewrite (sends_via_relay eA d2 kB p1 kR pR3 d3 inner bA now m T'' addr Hp1 ltac:(by rewrite Hr1) HkB Hb Hlin Hd3 Hq4
    Her Hend) in Ht. cbn [mbind option_bind send_pending_packet] in Ht.
  destruct Hwf as [relays Hwf].
  destruct (tun_packet_steps relays eA now dA packet bA Hwf Hb Hbp Hlp) as (out & dA' & Ht' & [HwA' HnA'] & _).
  rewrite Ht in Ht'. injection Ht' as <- <-.
  eexists m, inner, _, pd, ipd, B', R', _, _.
  split; [exact Ht|]. split; [by exists relays|]. split; [exact HnA'|].
  split; [cbn; rewrite lookup_insert_ne by done; exact Hq3|]. split; [by apply joined_at_packets|].
  split; [by apply lookup_insert_eq|]. split; [exact HJR'|]. split; [exact Hmsg|]. split; try done. by exists pad.
Qed.

(** C1: a packet for a peer that is behind a relay crosses three devices. The
    sender encrypts it for its destination and wraps the message for the relay,
    to which its one datagram goes; the relay, when it allows the sender to
    reach the destination, sends exactly the inner message to the endpoint of the
    destination, writes nothing to its own interface, and needs no session with
    the destination; the destination writes the packet, unchanged, to its
    interface as the sender's. All tunnels stay joined, and either message is
    dropped when it comes again. *)
Theorem relayed_delivery (dA dR dB : device P A) kA kR kB pB pR pdst packet src dst addrR addrB fromA fromR
    bA bR bB now_a now_r now_b :
  wf_device now_a dA → wf_device now_r dR → wf_device now_b dB → buffers_ok bA → buffers_ok bR → buffers_ok bB →
  is_bytes packet → (length packet ≤ MTU)%nat → ip_packet packet src → is_bytes kB →
  dst_address packet = Some (Some dst) → Table.find (peers_by_ip (state dA)) dst = Some (Some kB) →
  peers (state dA) !! kB = Some pB → relay pB = Some kR →
  peers (state dA) !! kR = Some pR → endpoint pR = Some addrR →
  authorize (authorizer dR) kA kB = true →
  peers (state dR) !! kB = Some pdst → relay pdst = None → endpoint pdst = Some addrB →
  Table.find (peers_by_ip (state dB)) src = Some (Some kA) →
  paired dA kA dB kB → paired dA kA dR kR → ready dA kB → ready dA kR →
  ∃ m inner dA' dR' dB',
    handle_tun_packet eA dA packet bA now_a = Some ([SendUdp m addrR], dA') ∧
    handle_udp_packet eR dR m fromA bR now_r = Some ([SendUdp inner addrB], dR') ∧
    handle_udp_packet eB dB inner fromR bB now_b = Some ([SendNic packet kA], dB') ∧
    wf_device now_a dA' ∧ wf_device now_r dR' ∧ wf_device now_b dB' ∧
    paired dA' kA dB' kB ∧ paired dA' kA dR' kR ∧
    (∀ later from, wf_device later dR' → ∃ d, handle_udp_packet eR dR' m from bR later = Some ([], d)) ∧
    ∀ later from, wf_device later dB' → ∃ d, handle_udp_packet eB dB' inner from bB later = Some ([], d).
Proof.
  intros HwA HwR HwB HbA HbR HbB Hbp Hlp Hip HbkB Hdst HfA HpB HrB HpR HeR Hau Hpd Hrd Hed HfB
    (i & j & p0 & pA & Hp0 & HpA & Hi & Hj & HJ) (i' & j' & p0' & pA' & Hp0' & HpA' & Hi' & Hj' & HJ') HrdB HrdR.
  assert (p0 = pB ∧ p0' = pR) as [-> ->] by (split; congruence).
  assert (length kB = KEY_LEN) as HkB by (destruct HwA as [relays [hq HwA]]; eapply (device_keys _ _ _ _ HwA); by eexists).
  destruct (drop_spec now_b dB HwB) as (dB1 & HdB & _ & HnB & HdropB). destruct (HdropB kA pA HpA) as [qB HqB].
  destruct (drop_spec now_r dR HwR) as (dR1 & HdR & _ & HnR & HdropR). destruct (HdropR kA pA' HpA') as [qR HqR].
  apply joined_at_sym, (joined_at_packets _ _ qB), joined_at_sym in HJ.
  apply joined_at_sym, (joined_at_packets _ _ qR), joined_at_sym in HJ'.
  destruct (sender_wraps dA kB kR pB pR i j i' j' _ _ packet src dst addrR (dst_buf bB) (dst_buf bR) bA now_a
    HwA HbA Hbp Hlp Hip HbkB Hdst HfA HpB HrB HpR HeR HJ HJ' HrdB HrdR (dst_ok _ HbB) (dst_ok _ HbR))
    as (m & inner & dA' & pd & ipd & B' & R' & pB' & pR' & Ht & HwA' & HnA & HpB' & HJB & HpR' & HJR &
        [Hin Hinj Hbin Hlin HvB HoB] & [Hm Hmj Hbm Hlm [pad HvR] HoR]).
  destruct (device_forwards eR now_r dR dR1 kA _ R' m pd inner pad kB pdst addrB fromA bR ipd HwR HbR HdR HnR HqR Hm
    ltac:(by rewrite Hmj) Hbm Hlm HkB Hbin Hlin Hin HvR HoR Hau Hpd Hrd Hed)
    as (dR' & HuR & HwR' & HidxR & (qR' & HqR' & <-) & HrepR).
  destruct (device_accepts eB now_b dB dB1 kA _ B' inner ipd packet src fromR bB HwB HbB HdB HnB HqB Hin
    ltac:(by rewrite Hinj) Hbin ltac:(unfold max_inner, MAX_PACKET_SIZE in *; lia)
    (packet_addr_valid _ _ Hbp Hip) HvB HoB HfB) as (dB' & HuB & HwB' & HidxB & (qB' & HqB' & <-) & HrepB).
  exists m, inner, dA', dR', dB'. split; [exact Ht|]. split; [exact HuR|]. split; [exact HuB|].
  unfold peer_key_by_index in *. pose proof (net_idx _ _ HnA) as HidxA. split_and!; try done.
  - exists i, j, pB', qB'. unfold peer_key_by_index. by rewrite HidxA, HidxB.
  - exists i', j', pR', qR'. unfold peer_key_by_index. by rewrite HidxA, HidxR.
Qed.
End network.
End devices.

(** ** Examples: a sender, a relay and a destination *)

Lemma toy_seal_laws : @noise_seal_laws toy_noise.
Proof. intros k n m ad Hm. split; [done|]. by repeat (constructor; [done|]). Qed.

#[local] Existing Instances toy_noise toy_order toy_pool.

(** A tunnel that has just got a session. *)
Definition with_fresh (i j : Z) (ka kb : bytes) (t : tunn) : tunn :=
  store_session i (Some (session_new i j ka kb)) (set_current i t).

Lemma wf_with_fresh i j ka kb t : wf_tunn t → wf_tunn (with_fresh i j ka kb t).
Proof. intros [? ? ? ?]. unfold with_fresh. apply wf_store_session. by split. Qed.

Lemma session_with_fresh i j ka kb t :
  wf_tunn t → session_at (with_fresh i j ka kb t) i = Some (session_new i j ka kb).
Proof.
  intros Hwf. unfold with_fresh. rewrite session_at_store by apply Hwf. by rewrite decide_True.
Qed.

Lemma joined_with_fresh i j ka kb tA tB :
  wf_tunn tA → wf_tunn tB → in_width 32 i → in_width 32 j →
  joined_at i j (with_fresh i j ka kb tA) (with_fresh j i kb ka tB).
Proof.
  intros HA HB Hi Hj. exists (session_new i j ka kb), (session_new j i kb ka), [], [].
  split; [|done]. split; try by apply wf_with_fresh.
  - by apply session_with_fresh.
  - by apply session_with_fresh.
  - done.
  - done.
  - split; try done; [apply received_by_new|by intros x ?%elem_of_nil].
  - split; try done; [apply received_by_new|by intros x ?%elem_of_nil].
Qed.

Definition toy_net : Type := device Heap.pool generic_authorizer.

(** Installing a session with the peer [k]. *)
Definition install (k : bytes) (i j : Z) (ka kb : bytes) (d : toy_net) : toy_net :=
  match peers (state d) !! k with
  | Some p => set_peer k (set_tunnel (with_fresh i j ka kb (tunnel p)) p) d
  | None => d
  end.

Lemma sound_with_fresh i j ka kb t : sound t → sound (with_fresh i j ka kb t).
Proof.
  intros [Hwf Hs]. split; [by apply wf_with_fresh|]. intros x s. unfold with_fresh.
  rewrite session_at_store by apply Hwf. case_decide.
  - intros [= <-]. eexists. apply received_by_new.
  - apply Hs.
Qed.

Lemma wf_install now k i j ka kb (d : toy_net) :
  wf_device now d → wf_device now (install k i j ka kb d).
Proof.
  intros [relays [hq Hwf]]. exists relays. unfold install.
  destruct (peers (state d) !! k) as [p|] eqn:Hp; [|by exists hq].
  pose proof (device_peers _ _ _ _ Hwf k p Hp) as [Hso _ _ Hlk _].
  eapply (tunnel_steps (P := Heap.pool) relays now d hq k p (with_fresh i j ka kb (tunnel p)) (device_pool d) (hq k) []);
    [done|done|by apply sound_with_fresh|split; auto| |simpl; lia].
  apply pool_step_refl; [apply Hwf|done].
Qed.

(** The device with the private key [priv]; the peer [k] of [toy_behind] is
    reached through the relay [r]. *)
Definition toy_key_of (k : Z) : bytes := @public_from toy_noise [k].
Definition toy_behind (k r : Z) : peer_config :=
  PeerConfig (toy_key_of k) None [NetV4 (Ipv4Net (0x0a000000 + 256 * k) 24)] None (Some (toy_key_of r)).

Definition toy_boot (priv : Z) (l : list peer_config) : option (result toy_net PeerTable.error * index_generator) :=
  @device_new Heap.pool toy_noise toy_order generic_authorizer no_limits [priv] AllowAll l Index.new toy_stamper
    [5; 9] [6] [7] Heap.new (from_secs 1).

Definition toy_node (priv : Z) (l : list peer_config) : toy_net :=
  match toy_boot priv l with
  | Some (Ok d, _) => d
  | _ => toy_nothing
  end.

Lemma toy_node_wf priv l d g :
  toy_boot priv l = Some (Ok d, g) → initial_ok l → wf_device (from_secs 1) (toy_node priv l).
Proof.
  intros Hb Hl. unfold toy_node. rewrite Hb. destruct (initial_roles l Hl) as [relays Hro]. exists relays.
  destruct (device_new_spec (Q := toy_pool_laws) (MO := toy_order_laws) (L := toy_noise_laws) no_limits relays [priv] AllowAll l toy_stamper
    [5; 9] [6] [7] Heap.new (from_secs 1) (IndexGenerator 5 LFSR_MAX 9, [])) as (r & g' & Hn & Hr);
    [vm_compute; reflexivity|done|done|exact (Heap.heap_inv_new 8 4096)|vm_compute; by eexists|].
  apply Hr. unfold toy_boot in Hb. rewrite Hn in Hb. by injection Hb.
Qed.

Lemma install_peer k i j ka kb (d : toy_net) p :
  peers (state d) !! k = Some p →
  peers (state (install k i j ka kb d)) !! k = Some (set_tunnel (with_fresh i j ka kb (tunnel p)) p) ∧
  ∀ k', k' ≠ k → peers (state (install k i j ka kb d)) !! k' = peers (state d) !! k'.
Proof.
  intros Hp. unfold install. rewrite Hp. cbn. split; [by apply lookup_insert_eq|].
  intros k' Hne. by rewrite lookup_insert_ne.
Qed.

Lemma install_idx k i j ka kb (d : toy_net) : peers_by_idx (state (install k i j ka kb d)) = peers_by_idx (state d).
Proof. unfold install. by destruct (peers (state d) !! k). Qed.

Lemma wf_peer_tunnel now (d : toy_net) k p : wf_device now d → peers (state d) !! k = Some p → wf_tunn (tunnel p).
Proof. intros [relays [hq Hwf]] Hp. apply (peer_sound _ _ _ _ _ _ (device_peers _ _ _ _ Hwf k p Hp)). Qed.

Lemma install_paired now now' i j ka kb (d d' : toy_net) k k' :
  wf_device now d → wf_device now' d' → is_Some (peers (state d) !! k') → is_Some (peers (state d') !! k) →
  peer_key_by_index (state d) i = Some k' → peer_key_by_index (state d') j = Some k →
  in_width 32 i → in_width 32 j →
  paired_at i j (install k' i j ka kb d) k (install k j i kb ka d') k'.
Proof.
  intros Hd Hd' [p Hp] [p' Hp'] Hi Hj Hwi Hwj. eexists _, _.
  split; [exact (proj1 (install_peer _ _ _ _ _ _ _ Hp))|].
  split; [exact (proj1 (install_peer _ _ _ _ _ _ _ Hp'))|].
  unfold peer_key_by_index in *. rewrite !install_idx. split; [done|]. split; [done|].
  apply joined_with_fresh; [exact (wf_peer_tunnel _ _ _ _ Hd Hp)|exact (wf_peer_tunnel _ _ _ _ Hd' Hp')|done|done].
Qed.

Lemma paired_install i j (d d' : toy_net) k k' k0 i0 j0 ka kb :
  k0 ≠ k' → paired_at i j d k d' k' → paired_at i j (install k0 i0 j0 ka kb d) k d' k'.
Proof.
  intros Hne (p & p' & Hp & Hp' & Hi & Hj & HJ). exists p, p'. split_and!; try done.
  - unfold install. destruct (peers (state d) !! k0); [|done]. cbn. by rewrite lookup_insert_ne.
  - unfold peer_key_by_index in *. by rewrite install_idx.
Qed.

Lemma ready_install now i j ka kb (d : toy_net) k : wf_device now d → ready (install k i j ka kb d) k.
Proof.
  intros Hwf p. unfold install. destruct (peers (state d) !! k) as [p0|] eqn:Hp; [|congruence].
  cbn. rewrite lookup_insert_eq. intros [= <-] s. cbn [set_tunnel tunnel].
  change (current (with_fresh i j ka kb (tunnel p0))) with i.
  rewrite session_with_fresh by exact (wf_peer_tunnel _ _ _ _ Hwf Hp). by intros [= <-].
Qed.

Lemma ready_install_other i j ka kb (d : toy_net) k k' : k ≠ k' → ready d k' → ready (install k i j ka kb d) k'.
Proof.
  intros Hne Hr p Hp. apply Hr. revert Hp. unfold install.
  destruct (peers (state d) !! k); [|done]. cbn. by rewrite lookup_insert_ne.
Qed.

(** The device 1 sends to the device 2 through the device 3. *)
Definition toy_first_index : Z := 13 * 256.
Definition toy_second_index : Z := 14155784 * 256.
Definition toy_sender_peers : list peer_config := [toy_behind 2 3; toy_config 3].
Definition toy_relay_peers : list peer_config := [toy_config 1; toy_config 2].
Definition toy_destination_peers : list peer_config := [toy_behind 1 3; toy_config 3].

Definition toy_sender : toy_net :=
  install (toy_key_of 3) toy_second_index toy_first_index [11] [12]
    (install (toy_key_of 2) toy_first_index toy_first_index [13] [14] (toy_node 1 toy_sender_peers)).
Definition toy_relay : toy_net :=
  install (toy_key_of 1) toy_first_index toy_second_index [12] [11] (toy_node 3 toy_relay_peers).
Definition toy_destination : toy_net :=
  install (toy_key_of 1) toy_first_index toy_first_index [14] [13] (toy_node 2 toy_destination_peers).

Lemma toy_boot_ok priv l :
  is_Some (toy_boot priv l ≫= λ rg, match rg.1 with Ok d => Some d | Err _ => None end) → initial_ok l →
  wf_device (from_secs 1) (toy_node priv l).
Proof.
  intros [d Hd] Hl. destruct (toy_boot priv l) as [[[d'|e] g]|] eqn:Hb; try done. by eapply toy_node_wf.
Qed.

Lemma toy_initial l :
  Forall (λ c, config_ok c) l → (length l ≤ 2)%nat →
  Forall (λ c, Forall (λ c', config_relay c = Some (config_public_key c') → config_relay c' = None) l) l →
  initial_ok l.
Proof.
  intros Hok Hlen Hun. split; [done|unfold LFSR_MAX; lia|]. intros c c' Hc Hc'.
  rewrite Forall_forall in Hun. specialize (Hun c Hc). rewrite Forall_forall in Hun. by apply Hun.
Qed.

Ltac toy_initial_by :=
  apply toy_initial; [repeat constructor; try (apply toy_config_valid; lia); vm_compute; congruence|simpl; lia|
    repeat constructor; vm_compute; congruence].

Lemma toy_sender_wf0 : wf_device (from_secs 1) (toy_node 1 toy_sender_peers).
Proof. apply toy_boot_ok; [vm_compute; by eexists|toy_initial_by]. Defined.
Lemma toy_relay_wf0 : wf_device (from_secs 1) (toy_node 3 toy_relay_peers).
Proof. apply toy_boot_ok; [vm_compute; by eexists|toy_initial_by]. Defined.
Lemma toy_destination_wf0 : wf_device (from_secs 1) (toy_node 2 toy_destination_peers).
Proof. apply toy_boot_ok; [vm_compute; by eexists|toy_initial_by]. Defined.

Lemma toy_sender_wf : wf_device (from_secs 1) toy_sender.
Proof. apply wf_install, wf_install, toy_sender_wf0. Qed.
Lemma toy_relay_wf : wf_device (from_secs 1) toy_relay.
Proof. apply wf_install, toy_relay_wf0. Qed.
Lemma toy_destination_wf : wf_device (from_secs 1) toy_destination.
Proof. apply wf_install, toy_destination_wf0. Qed.

Ltac toy_index := split; vm_compute; [discriminate|reflexivity].

Lemma toy_paired_destination : paired toy_sender (toy_key_of 1) toy_destination (toy_key_of 2).
Proof.
  exists toy_first_index, toy_first_index. apply paired_install; [vm_compute; congruence|].
  eapply install_paired; [apply toy_sender_wf0|apply toy_destination_wf0|vm_compute; by eexists..| | | |];
    [vm_compute; reflexivity..|toy_index|toy_index].
Qed.

Lemma toy_paired_relay : paired toy_sender (toy_key_of 1) toy_relay (toy_key_of 3).
Proof.
  exists toy_second_index, toy_first_index.
  eapply install_paired; [apply wf_install, toy_sender_wf0|apply toy_relay_wf0|vm_compute; by eexists..| | | |];
    [vm_compute; reflexivity..|toy_index|toy_index].
Qed.

Lemma toy_ready_destination : ready toy_sender (toy_key_of 2).
Proof.
  apply ready_install_other; [vm_compute; congruence|]. eapply ready_install, toy_sender_wf0.
Qed.
Lemma toy_ready_relay : ready toy_sender (toy_key_of 3).
Proof. eapply ready_install, wf_install, toy_sender_wf0. Qed.

(** How the device [d] reaches the peer [k]. *)
Definition toy_reach (d : toy_net) (k : Z) : option (option bytes * option socket_addr) :=
  p ← peers (state d) !! toy_key_of k; Some (relay p, endpoint p).

Lemma toy_reach_peer d k r a :
  toy_reach d k = Some (r, a) → ∃ p, peers (state d) !! toy_key_of k = Some p ∧ relay p = r ∧ endpoint p = a.
Proof.
  unfold toy_reach. destruct (peers (state d) !! toy_key_of k) as [p|]; [|done].
  cbn. intros [= <- <-]. by exists p.
Qed.

Lemma relayed_delivery_witness :
  wf_device (from_secs 1) toy_sender ∧ wf_device (from_secs 1) toy_relay ∧ wf_device (from_secs 1) toy_destination ∧
  ip_packet (toy_ip 2 40) (IpV4 0x0a000101) ∧
  ∃ m inner dA' dR' dB',
    handle_tun_packet toy_secrets toy_sender (toy_ip 2 40) toy_buffers (from_secs 1) =
      Some ([SendUdp m (toy_addr 3)], dA') ∧
    handle_udp_packet toy_secrets toy_relay m (toy_addr 9) toy_buffers (from_secs 1) =
      Some ([SendUdp inner (toy_addr 2)], dR') ∧
    handle_udp_packet toy_secrets toy_destination inner (toy_addr 3) toy_buffers (from_secs 1) =
      Some ([SendNic (toy_ip 2 40) (toy_key_of 1)], dB').
Proof.
  assert (toy_reach toy_sender 2 = Some (Some (toy_key_of 3), None)) as HB by (vm_compute; reflexivity).
  assert (toy_reach toy_sender 3 = Some (None, Some (toy_addr 3))) as HR by (vm_compute; reflexivity).
  assert (toy_reach toy_relay 2 = Some (None, Some (toy_addr 2))) as HD by (vm_compute; reflexivity).
  apply toy_reach_peer in HB as (pB & HpB & HrB & _). apply toy_reach_peer in HR as (pR & HpR & _ & HeR).
  apply toy_reach_peer in HD as (pd & Hpd & Hrd & Hed).
  assert (ip_packet (toy_ip 2 40) (IpV4 0x0a000101)) as Hip by (split; vm_compute; reflexivity).
  assert (is_bytes (toy_ip 2 40)) as Hb by decide_now.
  assert (is_bytes (toy_key_of 2)) as Hk by decide_now.
  split; [exact toy_sender_wf|]. split; [exact toy_relay_wf|]. split; [exact toy_destination_wf|].
  split; [exact Hip|].
  destruct (relayed_delivery (V := toy_open_laws) (L := toy_noise_laws) (S := toy_seal_laws)
    (Q := toy_pool_laws) toy_secrets toy_secrets toy_secrets toy_sender toy_relay toy_destination (toy_key_of 1)
    (toy_key_of 3) (toy_key_of 2) pB pR pd (toy_ip 2 40) (IpV4 0x0a000101) (IpV4 0x0a000205) (toy_addr 3) (toy_addr 2)
    (toy_addr 9) (toy_addr 3) toy_buffers toy_buffers toy_buffers (from_secs 1) (from_secs 1) (from_secs 1)
    toy_sender_wf toy_relay_wf toy_destination_wf toy_buffers_ok toy_buffers_ok toy_buffers_ok Hb
    ltac:(vm_compute; lia) Hip Hk ltac:(vm_compute; reflexivity) ltac:(vm_compute; reflexivity) HpB HrB HpR HeR
    ltac:(vm_compute; reflexivity) Hpd Hrd Hed ltac:(vm_compute; reflexivity)
    toy_paired_destination toy_paired_relay toy_ready_destination toy_ready_relay)
    as (m & inner & dA' & dR' & dB' & H1 & H2 & H3 & _).
  exists m, inner, dA', dR', dB'. split; [exact H1|]. split; [exact H2|exact H3].
Defined.

(** The sender reaches the relay itself directly. *)
Lemma direct_delivery_witness :
  wf_device (from_secs 1) toy_sender ∧ wf_device (from_secs 1) toy_relay ∧
  ip_packet (toy_ip 3 40) (IpV4 0x0a000101) ∧
  ∃ m dA' dB', handle_tun_packet toy_secrets toy_sender (toy_ip 3 40) toy_buffers (from_secs 1) =
      Some ([SendUdp m (toy_addr 3)], dA') ∧
    handle_udp_packet toy_secrets toy_relay m (toy_addr 9) toy_buffers (from_secs 1) =
      Some ([SendNic (toy_ip 3 40) (toy_key_of 1)], dB') ∧ paired dA' (toy_key_of 1) dB' (toy_key_of 3).
Proof.
  assert (toy_reach toy_sender 3 = Some (None, Some (toy_addr 3))) as HR by (vm_compute; reflexivity).
  apply toy_reach_peer in HR as (pR & HpR & HrR & HeR).
  assert (ip_packet (toy_ip 3 40) (IpV4 0x0a000101)) as Hip by (split; vm_compute; reflexivity).
  assert (is_bytes (toy_ip 3 40)) as Hb by decide_now.
  split; [exact toy_sender_wf|]. split; [exact toy_relay_wf|]. split; [exact Hip|].
  destruct (direct_delivery (V := toy_open_laws) (L := toy_noise_laws) (S := toy_seal_laws)
    (Q := toy_pool_laws) toy_secrets toy_secrets toy_sender toy_relay (toy_key_of 1) (toy_key_of 3) pR (toy_ip 3 40)
    (IpV4 0x0a000101) (IpV4 0x0a000305) (toy_addr 3) (toy_addr 9) toy_buffers toy_buffers (from_secs 1) (from_secs 1)
    toy_sender_wf toy_relay_wf toy_buffers_ok toy_buffers_ok Hb ltac:(vm_compute; lia) Hip
    ltac:(vm_compute; reflexivity) ltac:(vm_compute; reflexivity) HpR HrR HeR ltac:(vm_compute; reflexivity)
    toy_paired_relay toy_ready_relay) as (m & dA' & dB' & H1 & H2 & _ & _ & H3 & _).
  exists m, dA', dB'. split; [exact H1|]. split; [exact H2|exact H3].
Defined.
