(* ===== verification/Reconciler.v ===== *)
(** * The reconciler: [PeerReconciler] in [tendrilix/src/control/reconciler.rs]

    The reconciler keeps the peers of a device in line with the network map and
    moves each peer between its route policies. It drives the device through
    [DeviceClient], which is an interface here; every method is a computation
    that may fail, keeping the changes made before the failure, in the monad
    [act]. [None] is a panic. *)

From S2P Require Import Prelude IpNet Bounded PeerHealth PeerTable Routes Device.

(** ** The device as the reconciler sees it: [DeviceClient] *)

Class device_client (C : Type) := {
  add_peer : peer_config → C → option (result unit error * C);
  update_peer : peer_config → C → option (result unit error * C);
  remove_peer : bytes → C → option (result unit error * C);
  get_peer : bytes → C → option (result peer_info error * C);
  list_peers : C → option (result (gset bytes) error * C)
}.

(** [PeerConfigFingerprint::from_config]: the hash is another crate's. *)
Class config_hash := { from_config : peer_config → Z }.

(** [PeerReconciler], its client apart. *)
Record reconciler := Reconciler {
  directories : list map_peer;
  desired : gmap bytes desired_peer;
  healths : gmap bytes peer_health;
  applied_config_fingerprints : gmap bytes Z;
  last_applied_map_updated_at : option Z
}.

Definition reconciler_new (directories : list map_peer) : reconciler :=
  Reconciler directories ∅ ∅ ∅ None.

Definition set_desired (d : gmap bytes desired_peer) (r : reconciler) : reconciler :=
  Reconciler (directories r) d (healths r) (applied_config_fingerprints r) (last_applied_map_updated_at r).
Definition set_healths (h : gmap bytes peer_health) (r : reconciler) : reconciler :=
  Reconciler (directories r) (desired r) h (applied_config_fingerprints r) (last_applied_map_updated_at r).
Definition set_applied (a : gmap bytes Z) (r : reconciler) : reconciler :=
  Reconciler (directories r) (desired r) (healths r) a (last_applied_map_updated_at r).

(** ** Computations *)

(** The reconciler, the device and the random number generator. *)
Record world (C R : Type) := World { this : reconciler; client : C; rng : R }.
Arguments World {C R}.
Arguments this {C R}.
Arguments client {C R}.
Arguments rng {C R}.

Section act.
Context {C R : Type}.

Definition act (A : Type) : Type := world C R → option (result A reconcile_error * world C R).

Definition ret {A} (a : A) : act A := λ w, Some (Ok a, w).
Definition fail {A} (e : reconcile_error) : act A := λ w, Some (Err e, w).
Definition panic {A} : act A := λ _, None.

(** The [?] operator: an error ends the method. *)
Definition act_bind {A B} (c : act A) (k : A → act B) : act B := λ w,
  match c w with
  | Some (Ok a, w) => k a w
  | Some (Err e, w) => Some (Err e, w)
  | None => None
  end.

(** The result of a computation as a value. *)
Definition attempt {A} (c : act A) : act (result A reconcile_error) := λ w,
  match c w with
  | Some (r, w) => Some (Ok r, w)
  | None => None
  end.

Definition lift {A} (r : result A reconcile_error) : act A := λ w, Some (r, w).
Definition self : act reconciler := λ w, Some (Ok (this w), w).
Definition update_self (f : reconciler → reconciler) : act unit := λ w,
  Some (Ok tt, World (f (this w)) (client w) (rng w)).

(** A call of the client; [From<device::Error>]. *)
Definition call {A} (f : C → option (result A error * C)) : act A := λ w,
  match f (client w) with
  | Some (r, c) => Some (map_err DeviceError r, World (this w) c (rng w))
  | None => None
  end.

(** Using the random number generator. *)
Definition drawing {A} (f : R → result A reconcile_error * R) : act A := λ w,
  let '(r, g) := f (rng w) in Some (r, World (this w) (client w) g).

Fixpoint for_each {X} (f : X → act unit) (l : list X) : act unit :=
  match l with
  | [] => ret tt
  | x :: l => act_bind (f x) (λ _, for_each f l)
  end.
End act.

Notation "'let*' x ':=' c 'in' k" := (act_bind c (λ x, k))
  (at level 10, x name, c at level 100, k at level 200) : tendrilix_scope.
Notation "'let*' '_' ':=' c 'in' k" := (act_bind c (λ _, k))
  (at level 10, c at level 100, k at level 200) : tendrilix_scope.

(** ** The methods *)

Section reconciler.
Context `{order : map_order} `{policy_sort} `{config_hash} {C : Type} `{device_client C}
  {R : Type} `{random R} (lim : limits) (routes_cap : capacity) (usize_bits : Z).
Abbreviation act := (@act C R).

(** [try_insert_entry(..)?] *)
Definition inserted {V} (m : gmap bytes V) (k : bytes) (v : V) : result (gmap bytes V) reconcile_error :=
  map_err (λ _, CapacityExceeded) (try_insert_entry (max_peers lim) m k v).

Definition insert_fingerprint (key : bytes) (fingerprint : Z) : act unit :=
  let* r := self in
  let* m := lift (inserted (applied_config_fingerprints r) key fingerprint) in
  update_self (set_applied m).

Definition insert_health (key : bytes) (h : peer_health) : act unit :=
  let* r := self in
  let* m := lift (inserted (healths r) key h) in
  update_self (set_healths m).

(** The route a peer was last on. *)
Definition old_active_route (old : option desired_peer) (h : peer_health) : option route_key :=
  match active_route h with
  | Some r => Some r
  | None =>
      match p ← old; desired_active_route p with
      | Some r => Some r
      | None => p ← old; route_key_of <$> desired_policies p !! active_policy h
      end
  end.

(** What the loop of [carry_forward_active_policies] makes of a peer and its
    health. *)
Definition carry_forward (old : option desired_peer) (peer : desired_peer) (h : peer_health)
    : desired_peer * peer_health :=
  let new_active_policy :=
    default O (r ← old_active_route old h;
      fst <$> list_find (λ p, route_key_of p = r) (desired_policies peer)) in
  let peer := select_policy new_active_policy peer in
  (peer,
   match route_keys_for_policies routes_cap (desired_policies peer) with
   | Ok routes => sync_policies routes_cap new_active_policy routes h
   | Err _ => sync_active_policy new_active_policy (reset_policy_state h)
   end).

Definition carry_forward_turn (olds : gmap bytes desired_peer)
    (st : gmap bytes desired_peer * gmap bytes peer_health) (key : bytes)
    : gmap bytes desired_peer * gmap bytes peer_health :=
  match st.1 !! key, st.2 !! key with
  | Some peer, Some h =>
      let '(peer, h) := carry_forward (olds !! key) peer h in
      (<[key := peer]> st.1, <[key := h]> st.2)
  | _, _ => st
  end.

Definition carry_forward_active_policies (olds : gmap bytes desired_peer)
    (st : gmap bytes desired_peer * gmap bytes peer_health)
    : gmap bytes desired_peer * gmap bytes peer_health :=
  fold_left (carry_forward_turn olds) (keys_in_order st.1) st.

(** The keys of a hash set, in its order. *)
Definition set_order (s : gset bytes) : list bytes := keys_in_order (gset_to_gmap tt s).

Definition remove_vanished_peers (actual : gset bytes) (ds : gmap bytes desired_peer) : act unit :=
  for_each (λ key,
    if decide (is_Some (ds !! key)) then ret tt
    else
      let* _ := call (remove_peer key) in
      update_self (λ r,
        set_applied (delete key (applied_config_fingerprints r))
          (set_healths (delete key (healths r)) r)))
    (set_order actual).

Definition track_active_policy (key : bytes) (active : nat) (routes : list route_key) (now : Z)
    : act unit :=
  let* r := self in
  match healths r !! key with
  | Some h =>
      update_self (set_healths (<[key := sync_policies routes_cap active routes h]> (healths r)))
  | None =>
      let* draw := drawing (λ g, let '(x, g) := next_u64 g in (Ok x, g)) in
      insert_health key (sync_policies routes_cap active routes (new_with_rng active now draw))
  end.

(** One turn of the loop of [apply_desired_peers]. *)
Definition apply_desired_peer (actual : gset bytes) (ds : gmap bytes desired_peer) (now : Z) (key : bytes)
    : act unit :=
  match ds !! key with
  | None => ret tt
  | Some peer =>
      match config peer with
      | None => panic
      | Some c =>
          let fingerprint := from_config c in
          let* r := self in
          let* _ :=
            if decide (key ∈ actual) then
              if decide (applied_config_fingerprints r !! key = Some fingerprint) then ret tt
              else let* _ := call (update_peer c) in insert_fingerprint key fingerprint
            else let* _ := call (add_peer c) in insert_fingerprint key fingerprint in
          let* routes := lift (route_keys_for_policies routes_cap (desired_policies peer)) in
          track_active_policy key (active_policy_index peer) routes now
      end
  end.

Definition apply_desired_peers (actual : gset bytes) (ds : gmap bytes desired_peer) (now : Z) : act unit :=
  for_each (apply_desired_peer actual ds now) (keys_in_order ds).

Definition stale (m : network_map) (r : reconciler) : bool :=
  match last_applied_map_updated_at r with
  | Some last_applied => updated_at m <=? last_applied
  | None => false
  end.

(** [reconcile_network_map]; the result says whether the map was applied. *)
Definition reconcile_network_map (m : network_map) (now : Z) : act bool :=
  let* r := self in
  if stale m r then ret false
  else
    let* ds := drawing (desired_peers_from_map lim routes_cap usize_bits m) in
    let '(ds, hs) := carry_forward_active_policies (desired r) (ds, healths r) in
    let* _ := update_self (set_healths hs) in
    let* actual := call list_peers in
    let* _ := remove_vanished_peers actual ds in
    let* _ := apply_desired_peers actual ds now in
    let* dirs := lift (directory_servers_from_map lim m) in
    let* _ := update_self (λ r, Reconciler dirs ds (healths r) (applied_config_fingerprints r)
      (Some (updated_at m))) in
    ret true.

(** [fetched] is what the fetcher returns. *)
Definition fetch_and_reconcile_network_map (fetched : option network_map) (now : Z) : act unit :=
  let* m := lift (ok_or fetched FetchNetworkMap) in
  let* _ := reconcile_network_map m now in
  ret tt.

Definition apply_active_policy (key : bytes) (policy_index : nat) : act unit :=
  let* r := self in
  match desired r !! key with
  | None => ret tt
  | Some peer =>
      let peer := select_policy policy_index peer in
      let* _ := update_self (set_desired (<[key := peer]> (desired r))) in
      match config peer with
      | None => panic
      | Some c =>
          let* _ := call (update_peer c) in
          insert_fingerprint key (from_config c)
      end
  end.

(** The reaction to a decision; [previous] is the health before it and
    [active] the policy. *)
Definition act_on (key : bytes) (decision : health_decision) (previous : peer_health) (active : nat)
    : act unit :=
  match decision with
  | Switch next_policy _ =>
      let* r := attempt (apply_active_policy key next_policy) in
      match r with
      | Ok _ => ret tt
      | Err err =>
          let* _ := insert_health key previous in
          let* _ := update_self (λ r,
            match desired r !! key with
            | Some peer => set_desired (<[key := select_policy active peer]> (desired r)) r
            | None => r
            end) in
          fail err
      end
  | _ => ret tt
  end.

(** One turn of the loop of [reconcile_peer_health_at]. *)
Definition reconcile_key_health (now : Z) (key : bytes) : act unit :=
  let* r := self in
  match desired r !! key with
  | None => ret tt
  | Some peer =>
      let active := active_policy_index peer in
      let* routes := lift (route_keys_for_policies routes_cap (desired_policies peer)) in
      if (length (desired_policies peer) <=? 1)%nat then ret tt
      else
        let* info := call (get_peer key) in
        let* _ := track_active_policy key active routes now in
        let* r := self in
        match healths r !! key with
        | None => panic
        | Some previous =>
            let '(decision, h) := observe routes_cap previous (info_stats info) routes now in
            let* _ := update_self (set_healths (<[key := h]> (healths r))) in
            act_on key decision previous active
        end
  end.

Definition reconcile_peer_health_at (now : Z) : act unit :=
  let* r := self in
  let* keys := lift (push_all (max_peers lim) (keys_in_order (desired r)) []) in
  for_each (reconcile_key_health now) keys.

(** The loop of [run]: the ticks of the two timers in some order, each with
    the time; the errors are logged and swallowed. *)
Inductive tick : Type :=
  | MapTick (fetched : option network_map) (now : Z)
  | HealthTick (now : Z).

Definition run_tick (t : tick) : act unit :=
  match t with
  | MapTick fetched now => fetch_and_reconcile_network_map fetched now
  | HealthTick now => reconcile_peer_health_at now
  end.

Fixpoint run (ticks : list tick) (w : world C R) : option (world C R) :=
  match ticks with
  | [] => Some w
  | t :: ticks => let! '(_, w) := run_tick t w in run ticks w
  end.
End reconciler.
