(* ===== verification/ReconcilerSafe.v ===== *)
(** * The reconciler against any device that keeps its promises

    What a [DeviceClient] promises is an interface: each call leaves the other
    peers alone, a failed call changes nothing, and an update is refused for
    overlapping addresses only when they do overlap. Against it, every method
    of the reconciler returns, on every path, and keeps its three views of the
    peers (the cached fingerprints, the health and the device) consistent. *)

From S2P Require Import Prelude IpNet AllowedIps Bounded PeerHealth PeerTable Routes Device Reconciler.

(** ** What a device shows of a peer *)

Record view := View {
  view_blocks : gset ip_net;
  view_relay : option bytes;
  view_keepalive : Z
}.

Definition config_view (c : peer_config) : view :=
  View (list_to_set (map Table.normalize (config_allowed_ips c))) (config_relay c)
    (default 0 (config_keepalive c)).

(** A block of [c] shares an address with another of its blocks or with a
    block of another peer. *)
Definition clash (shown : gmap bytes view) (c : peer_config) : Prop :=
  ∃ n n', n ∈ map Table.normalize (config_allowed_ips c) ∧ share n n' ∧
    (n' ∈ map Table.normalize (config_allowed_ips c) ∧ n' ≠ n ∨
     ∃ k v, k ≠ config_public_key c ∧ shown !! k = Some v ∧ n' ∈ view_blocks v).

(** The outcome of installing [c]: it happens, or nothing changes; it is
    refused for overlapping addresses exactly when there are any. *)
Definition installs (c : peer_config) (before after : gmap bytes view) (r : result unit error) : Prop :=
  match r with
  | Ok _ => after = <[config_public_key c := config_view c]> before ∧ ¬ clash before c
  | Err e => after = before ∧ (e = AllowedIPOverlap → clash before c)
  end.

(** [client_ok n c]: the device is in a good state, and [n] more peers can be
    added before its indexes run out. The promises hold for the configurations
    that the device [admits]. *)
Class device_client_laws (lim : limits) (admits : peer_config → Prop) (C : Type) `{device_client C} := {
  client_ok : nat → C → Prop;
  installed : C → gmap bytes view;
  client_ok_le n n' c : (n ≤ n')%nat → client_ok n' c → client_ok n c;
  installed_fits n c : client_ok n c → within_capacity (max_peers lim) (size (installed c));
  add_peer_law n p c : client_ok (S n) c → Forall ip_net_valid (config_allowed_ips p) → admits p →
    installed c !! config_public_key p = None →
    ∃ r c', add_peer p c = Some (r, c') ∧ client_ok n c' ∧ installs p (installed c) (installed c') r;
  update_peer_law n p c : client_ok n c → Forall ip_net_valid (config_allowed_ips p) → admits p →
    ∃ r c', update_peer p c = Some (r, c') ∧ client_ok n c' ∧ installs p (installed c) (installed c') r;
  remove_peer_law n k c : client_ok n c →
    ∃ r c', remove_peer k c = Some (r, c') ∧ client_ok n c' ∧
      installed c' = match r with Ok _ => delete k (installed c) | Err _ => installed c end;
  get_peer_law n k c : client_ok n c →
    ∃ r c', get_peer k c = Some (r, c') ∧ client_ok n c' ∧ installed c' = installed c ∧
      (is_ok r = true → is_Some (installed c !! k));
  list_peers_law n c : client_ok n c →
    ∃ r c', list_peers c = Some (r, c') ∧ client_ok n c' ∧ installed c' = installed c ∧
      ∀ ks, r = Ok ks → ks = dom (installed c)
}.

(** A device that admits any configuration. *)
Definition any_config (c : peer_config) : Prop := True.

(** ** Reasoning about computations *)

Section wp.
Context {C R : Type}.

(** [c] returns from [w], with a result and a world as [Q] says. *)
Definition wp {A} (c : act A) (Q : result A reconcile_error → world C R → Prop) (w : world C R) : Prop :=
  ∃ r w', c w = Some (r, w') ∧ Q r w'.

Lemma wp_mono {A} (c : act A) (Q Q' : _ → _ → Prop) w : wp c Q w → (∀ r w', Q r w' → Q' r w') → wp c Q' w.
Proof. intros (r & w' & ? & ?) HQ. exists r, w'. auto. Qed.

Lemma wp_bind {A B} (c : act A) (k : A → act B) Q w :
  wp c (λ r w', match r with Ok a => wp (k a) Q w' | Err e => Q (Err e) w' end) w → wp (act_bind c k) Q w.
Proof. intros ([a|e] & w' & E & Hk); unfold wp, act_bind; rewrite E; [done|eauto]. Qed.

Lemma wp_ret {A} (a : A) (Q : _ → _ → Prop) w : Q (Ok a) w → wp (ret a) Q w.
Proof. intros. by exists (Ok a), w. Qed.

Lemma wp_fail {A} e (Q : result A _ → _ → Prop) w : Q (Err e) w → wp (fail e) Q w.
Proof. intros. by exists (Err e), w. Qed.

Lemma wp_lift {A} (r : result A _) (Q : _ → _ → Prop) w : Q r w → wp (lift r) Q w.
Proof. intros. by exists r, w. Qed.

Lemma wp_self (Q : _ → _ → Prop) w : Q (Ok (this w)) w → wp self Q w.
Proof. intros. by exists (Ok (this w)), w. Qed.

Lemma wp_update f (Q : _ → _ → Prop) w :
  Q (Ok tt) (World (f (this w)) (client w) (rng w)) → wp (update_self f) Q w.
Proof. intros. by exists (Ok tt), (World (f (this w)) (client w) (rng w)). Qed.

Lemma wp_call {A} (f : C → option (result A error * C)) (Q : _ → _ → Prop) w r c :
  f (client w) = Some (r, c) → Q (map_err DeviceError r) (World (this w) c (rng w)) → wp (call f) Q w.
Proof. intros E HQ. unfold wp, call. rewrite E. eauto. Qed.

Lemma wp_drawing {A} (f : R → result A reconcile_error * R) (Q : _ → _ → Prop) w :
  Q (f (rng w)).1 (World (this w) (client w) (f (rng w)).2) → wp (drawing f) Q w.
Proof. intros HQ. unfold wp, drawing. destruct (f (rng w)) as [r g]. eauto. Qed.

Lemma wp_attempt {A} (c : act A) (Q : _ → _ → Prop) w :
  wp c (λ r, Q (Ok r)) w → wp (attempt c) Q w.
Proof. intros (r & w' & E & HQ). exists (Ok r), w'. unfold attempt. by rewrite E. Qed.

(** A loop: [I] holds of what is left. *)
Lemma wp_for_each {X} (f : X → act unit) (I : list X → world C R → Prop) Q l w :
  I l w →
  (∀ x l' w, I (x :: l') w → wp (f x) (λ r w', match r with Ok _ => I l' w' | Err e => Q (Err e) w' end) w) →
  (∀ w, I [] w → Q (Ok tt) w) → wp (for_each f l) Q w.
Proof.
  intros HI Hf HQ. revert w HI; induction l as [|x l IH]; intros w HI; cbn [for_each].
  - apply wp_ret. auto.
  - apply wp_bind. eapply wp_mono; [by apply Hf|]. intros [[]|e] w' Hw; auto.
Qed.
End wp.

Ltac wp_step :=
  match goal with
  | |- wp (act_bind _ _) _ _ => apply wp_bind
  | |- wp (ret _) _ _ => apply wp_ret
  | |- wp (fail _) _ _ => apply wp_fail
  | |- wp (lift _) _ _ => apply wp_lift
  | |- wp self _ _ => apply wp_self
  | |- wp (update_self _) _ _ => apply wp_update
  | |- wp (drawing _) _ _ => apply wp_drawing
  | |- wp (attempt _) _ _ => apply wp_attempt
  end; cbv beta iota.
Ltac wp_steps := repeat wp_step.

(** ** The three views of the peers *)

Section safe.
Context `{order : map_order_laws} `{policy_sort_laws} `{config_hash} {C : Type} `{device_client C}
  {R : Type} `{random R} (lim : limits)
  {admits : peer_config → Prop} `{laws : !device_client_laws lim admits C} (routes_cap : capacity)
  (usize_bits : Z).
Implicit Types (w : world C R) (k : bytes) (p : desired_peer) (ds olds : gmap bytes desired_peer) (n : nat).

(** A cached fingerprint is that of a configuration the device runs; health is
    only kept for peers of the device. *)
Record tracked w : Prop := {
  tracked_applied k fp : applied_config_fingerprints (this w) !! k = Some fp →
    ∃ c, installed (client w) !! k = Some (config_view c) ∧ config_public_key c = k ∧ from_config c = fp;
  tracked_healths k : is_Some (healths (this w) !! k) → is_Some (installed (client w) !! k)
}.

(** The peer as the reconciler wants it: the fingerprint of its active policy
    is the one applied, and its health is about this policy and its routes. *)
Definition synced k p w : Prop :=
  applied_config_fingerprints (this w) !! k = Some (from_config (rendered p (active_policy_index p))) ∧
  ∃ h, healths (this w) !! k = Some h ∧ active_policy h = active_policy_index p ∧
    map route (policies h) = keys (desired_policies p).

(** A desired peer within the types and the bounds of the source. *)
Record sound_peer k p : Prop := {
  sound_wf : wf_desired p;
  sound_key : desired_key p = k;
  sound_ips : Forall ip_addr_valid (desired_allowed_ips p);
  sound_admitted i : admits (rendered p i);
  sound_routes : within_capacity routes_cap (length (desired_policies p))
}.

(** The fields a step on the peers leaves alone, and the other peers. *)
Record others_kept k w w' : Prop := {
  kept_directories : directories (this w') = directories (this w);
  kept_desired : desired (this w') = desired (this w);
  kept_last : last_applied_map_updated_at (this w') = last_applied_map_updated_at (this w);
  kept_installed k' : k' ≠ k → installed (client w') !! k' = installed (client w) !! k';
  kept_applied k' : k' ≠ k →
    applied_config_fingerprints (this w') !! k' = applied_config_fingerprints (this w) !! k';
  kept_healths k' : k' ≠ k → healths (this w') !! k' = healths (this w) !! k'
}.

Lemma inserted_fits {V V' : Type} (m : gmap bytes V) (shown : gmap bytes V') k v :
  (∀ k, is_Some (m !! k) → is_Some (shown !! k)) → is_Some (shown !! k) →
  within_capacity (max_peers lim) (size shown) → inserted lim m k v = Ok (<[k := v]> m).
Proof.
  intros Hsub Hk Hc. unfold inserted.
  assert (size (<[k := v]> m) ≤ size shown)%nat as Hle.
  { rewrite <- !size_dom. apply subseteq_size. intros k'. rewrite !elem_of_dom.
    destruct (decide (k' = k)) as [->|Hne]; [done|]. rewrite lookup_insert_ne by done. apply Hsub. }
  destruct (m !! k) as [v'|] eqn:E; [by rewrite try_insert_entry_present by (by rewrite E)|].
  rewrite map_size_insert_None in Hle by done. unfold try_insert_entry.
  assert (has_room (max_peers lim) (size m) = true) as ->; [|by rewrite orb_true_r].
  apply has_room_spec. by eapply within_capacity_le.
Qed.

Lemma rendered_valid p i : Forall ip_addr_valid (desired_allowed_ips p) →
  Forall ip_net_valid (config_allowed_ips (rendered p i)).
Proof. intros Hp. apply Forall_map. eapply Forall_impl; [exact Hp|]. apply host_valid. Qed.

(** The device runs [c] under the key of [c]: what the cache may then say. *)
Lemma insert_fingerprint_wp n c w (Q : _ → _ → Prop) :
  client_ok n (client w) →
  (∀ k fp, k ≠ config_public_key c → applied_config_fingerprints (this w) !! k = Some fp →
    ∃ c, installed (client w) !! k = Some (config_view c) ∧ config_public_key c = k ∧ from_config c = fp) →
  (∀ k, is_Some (healths (this w) !! k) → is_Some (installed (client w) !! k)) →
  installed (client w) !! config_public_key c = Some (config_view c) →
  (∀ w', tracked w' → client w' = client w → healths (this w') = healths (this w) →
    desired (this w') = desired (this w) → others_kept (config_public_key c) w w' →
    applied_config_fingerprints (this w') !! config_public_key c = Some (from_config c) → Q (Ok tt) w') →
  wp (insert_fingerprint lim (config_public_key c) (from_config c)) Q w.
Proof.
  intros Hok Ha Hh Hi HQ. unfold insert_fingerprint. wp_steps.
  rewrite (inserted_fits _ (installed (client w))); [|..|by eapply installed_fits].
  - wp_steps. apply HQ; cbn [this client set_applied applied_config_fingerprints healths desired]; try done.
    + split; cbn [this client set_applied applied_config_fingerprints healths]; [|done]. intros k fp.
      destruct (decide (k = config_public_key c)) as [->|Hne].
      * rewrite lookup_insert_eq. intros [= <-]. by exists c.
      * rewrite lookup_insert_ne by done. by apply Ha.
    + split; cbn; try done. intros k' Hne. by rewrite lookup_insert_ne.
    + by rewrite lookup_insert_eq.
  - intros k [fp Hk]. destruct (decide (k = config_public_key c)) as [->|Hne]; [by eexists|].
    destruct (Ha k fp Hne Hk) as (c' & Hc' & _). by eexists.
  - by eexists.
Qed.

Lemma track_active_policy_wp n k a routes now w (Q : _ → _ → Prop) :
  client_ok n (client w) → tracked w → is_Some (installed (client w) !! k) →
  within_capacity routes_cap (length routes) →
  (∀ w' h, tracked w' → client w' = client w → desired (this w') = desired (this w) → others_kept k w w' →
    applied_config_fingerprints (this w') = applied_config_fingerprints (this w) →
    healths (this w') !! k = Some h → active_policy h = Nat.min a (length routes - 1) →
    map route (policies h) = routes → Q (Ok tt) w') →
  wp (track_active_policy lim routes_cap k a routes now) Q w.
Proof.
  intros Hok [Ha Hh] Hk Hr HQ. unfold track_active_policy. wp_steps.
  assert (∀ g h, let h' := sync_policies routes_cap a routes h in
    Q (Ok tt) (World (set_healths (<[k := h']> (healths (this w))) (this w)) (client w) g)) as HQ'.
  { intros g h h'. destruct (sync_policies_fields routes_cap a routes h) as (_&_&_&_&_&_&_&_&_&E1&_&E2&_).
    fold h' in E1, E2. apply HQ with h'; cbn [this client set_healths healths desired applied_config_fingerprints]; try done.
    - split; cbn [this client set_healths healths applied_config_fingerprints]; [done|].
      intros k'. destruct (decide (k' = k)) as [->|Hne]; [done|]. rewrite lookup_insert_ne by done. apply Hh.
    - split; cbn; try done. intros k' Hne. by rewrite lookup_insert_ne.
    - by rewrite lookup_insert_eq.
    - rewrite E1, sync_entries_spec, map_map by done. rewrite <- (map_id routes) at 2. apply map_ext.
      intros r. apply entry_for_route. }
  destruct (healths (this w) !! k) as [h|] eqn:E; [wp_steps; apply HQ'|].
  wp_steps. destruct (next_u64 (rng w)) as [x g]. cbn [fst snd this client]. unfold insert_health. wp_steps.
  cbn [this]. rewrite (inserted_fits _ (installed (client w))); [wp_steps; apply HQ'|done|done|by eapply installed_fits].
Qed.

(** ** Bringing the device in line with the desired peers *)

(** The fields of the reconciler that only change when a map is applied. *)
Definition fields_kept w w' : Prop :=
  directories (this w') = directories (this w) ∧ desired (this w') = desired (this w) ∧
  last_applied_map_updated_at (this w') = last_applied_map_updated_at (this w).

Lemma others_fields k w w' : others_kept k w w' → fields_kept w w'.
Proof. by intros []. Qed.

(** The device [s] refused to install [c], which adds or updates a peer. *)
Definition refused (c : peer_config) (s : C) (e : error) : Prop :=
  ∃ n s',
    client_ok (S n) s ∧ installed s !! config_public_key c = None ∧ add_peer c s = Some (Err e, s') ∨
    client_ok n s ∧ is_Some (installed s !! config_public_key c) ∧ update_peer c s = Some (Err e, s').

(** How installing the peer [p] in [w] ends. *)
Definition install_outcome k p w (r : result unit reconcile_error) w' : Prop :=
  match r with
  | Ok _ => synced k p w' ∧ is_Some (installed (client w') !! k) ∧
      (applied_config_fingerprints (this w) !! k = Some (from_config (rendered p (active_policy_index p))) ∧
         installed (client w') !! k = installed (client w) !! k ∨
       ¬ clash (installed (client w)) (rendered p (active_policy_index p)) ∧
         installed (client w') !! k = Some (config_view (rendered p (active_policy_index p))))
  | Err e => installed (client w') = installed (client w) ∧
      applied_config_fingerprints (this w') = applied_config_fingerprints (this w) ∧
      ∃ e', e = DeviceError e' ∧ refused (rendered p (active_policy_index p)) (client w) e' ∧
        (e' = AllowedIPOverlap → clash (installed (client w)) (rendered p (active_policy_index p)))
  end.

Lemma others_trans k w w' w'' : others_kept k w w' → others_kept k w' w'' → others_kept k w w''.
Proof.
  intros [A1 A2 A3 A4 A5 A6] [B1 B2 B3 B4 B5 B6].
  split; [congruence..|intros k' ?|intros k' ?|intros k' ?]; rewrite ?B4, ?B5, ?B6 by done; auto.
Qed.

Lemma others_client k w c : (∀ k', k' ≠ k → installed c !! k' = installed (client w) !! k') →
  others_kept k w (World (this w) c (rng w)).
Proof. by split. Qed.

(** What is left of the turn once the device runs the peer. *)
Lemma track_installed_wp n k p now w0 w :
  client_ok n (client w) → tracked w → sound_peer k p → others_kept k w0 w →
  applied_config_fingerprints (this w) !! k = Some (from_config (rendered p (active_policy_index p))) →
  wp (let* routes := lift (route_keys_for_policies routes_cap (desired_policies p)) in
      track_active_policy lim routes_cap k (active_policy_index p) routes now)
    (λ r w', r = Ok tt ∧ client_ok n (client w') ∧ tracked w' ∧ others_kept k w0 w' ∧ synced k p w' ∧
      is_Some (installed (client w') !! k) ∧ client w' = client w) w.
Proof.
  intros Hok Ht [Hwf _ _ _ Hr] Hkept Ha.
  assert (is_Some (installed (client w) !! k)) as Hi.
  { destruct (tracked_applied _ Ht _ _ Ha) as (c & Hc & _). by eexists. }
  wp_steps. rewrite route_keys_room by done.
  eapply track_active_policy_wp; [done..|by unfold keys; rewrite length_map|].
  intros w' h Ht' Hc' _ Hk' Ha' Hh Hact Hroutes. rewrite Hc'.
  split_and!; [done..|by eapply others_trans| |done|done].
  split; [by rewrite Ha'|]. exists h. split_and!; [done| |done].
  rewrite Hact. unfold keys. rewrite length_map. unfold active_policy_index. lia.
Qed.

(** A call that installs a configuration, and the cache after it. *)
Lemma install_wp n k p w (f : C → option (result unit error * C)) :
  let c := rendered p (active_policy_index p) in
  tracked w → config_public_key c = k →
  (∃ r c', f (client w) = Some (r, c') ∧ client_ok n c' ∧ installs c (installed (client w)) (installed c') r) →
  (∀ e c', f (client w) = Some (Err e, c') → refused c (client w) e) →
  wp (let* _ := call f in insert_fingerprint lim k (from_config c))
    (λ r w', client_ok n (client w') ∧ tracked w' ∧ others_kept k w w' ∧ healths (this w') = healths (this w) ∧
      match r with
      | Ok _ => applied_config_fingerprints (this w') !! k = Some (from_config c) ∧
          ¬ clash (installed (client w)) c ∧ installed (client w') !! k = Some (config_view c)
      | Err _ => install_outcome k p w r w'
      end) w.
Proof.
  intros c [Ha Hh] Hk (r & c' & E & Hok & Hins) Href. apply wp_bind. eapply wp_call; [exact E|].
  destruct r as [[]|e]; cbn [map_err].
  - destruct Hins as [Hins Hno]. rewrite <- Hk. apply (insert_fingerprint_wp n); cbn [client this]; [done|..].
    + intros k' fp Hne Hfp. rewrite Hins, lookup_insert_ne by done. by apply Ha.
    + intros k' Hk'. rewrite Hins. destruct (decide (k' = config_public_key c)) as [->|Hne].
      * by rewrite lookup_insert_eq.
      * rewrite lookup_insert_ne by done. by apply Hh.
    + by rewrite Hins, lookup_insert_eq.
    + intros w' Ht' Hc' Hh' _ Hkept Ha'. rewrite Hc'.
      split_and!; [done..| |done|done|done|by rewrite Hins, lookup_insert_eq].
      eapply others_trans; [apply (others_client _ w c')|exact Hkept].
      intros k' Hne. by rewrite Hins, lookup_insert_ne.
  - destruct Hins as [Hins Hno]. cbn [client]. split_and!; [done| | |done|].
    + split; cbn [this client]; rewrite Hins; done.
    + apply others_client. by rewrite Hins.
    + split; [done|]. split; [done|]. exists e. split_and!; [done|by eapply Href|done].
Qed.

Lemma apply_desired_peer_wp n actual ds now k p w :
  client_ok (S n) (client w) → tracked w → ds !! k = Some p → sound_peer k p →
  (k ∈ actual ↔ is_Some (installed (client w) !! k)) →
  wp (apply_desired_peer lim routes_cap actual ds now k)
    (λ r w', client_ok n (client w') ∧ tracked w' ∧ others_kept k w w' ∧ install_outcome k p w r w') w.
Proof.
  intros Hok Ht Hp Hsound Hact. pose proof Hsound as [_ Hkey Hips Hadm _].
  pose proof (rendered_valid p (active_policy_index p) Hips) as Hv.
  assert (client_ok n (client w)) as Hn by (eapply client_ok_le; [|exact Hok]; lia).
  unfold apply_desired_peer. rewrite Hp, config_eq. set (c := rendered p (active_policy_index p)) in *.
  assert (config_public_key c = k) as Hck by done. wp_steps.
  apply (wp_mono _ (λ r w', client_ok n (client w') ∧ tracked w' ∧ others_kept k w w' ∧
    match r with
    | Ok _ => applied_config_fingerprints (this w') !! k = Some (from_config c) ∧
        (applied_config_fingerprints (this w) !! k = Some (from_config c) ∧
           installed (client w') !! k = installed (client w) !! k ∨
         ¬ clash (installed (client w)) c ∧ installed (client w') !! k = Some (config_view c))
    | Err _ => install_outcome k p w r w'
    end)).
  - case_decide as Hin.
    + apply Hact in Hin. case_decide as Hfp.
      * apply wp_ret. by split_and!; [..|done|by left].
      * destruct (update_peer_law n c (client w) Hn Hv (Hadm _)) as (r & c' & E).
        eapply wp_mono; [apply (install_wp n k p w (update_peer c)); eauto|].
        { intros e c1 E1. exists n, c1. right. split_and!; [done| |done]. cbn. by rewrite Hkey. }
        intros [[]|e] w'; naive_solver.
    + assert (installed (client w) !! k = None) as Hnone by (apply eq_None_not_Some; tauto).
      destruct (add_peer_law n c (client w) Hok Hv (Hadm _) ltac:(by rewrite Hck)) as (r & c' & E).
      eapply wp_mono; [apply (install_wp n k p w (add_peer c)); eauto|].
      { intros e c1 E1. exists n, c1. left. split_and!; [done| |done]. cbn. by rewrite Hkey. }
      intros [[]|e] w'; naive_solver.
  - intros [[]|e] w' (Hok' & Ht' & Hk' & Hout); [|done]. destruct Hout as [Ha Hout].
    eapply wp_mono; [by apply (track_installed_wp n k p now w w')|].
    intros r w'' (-> & ? & ? & ? & ? & ? & E). unfold install_outcome. rewrite E in *. by split_and!.
Qed.

(** ** The loops *)

Lemma fields_refl w : fields_kept w w.
Proof. done. Qed.

Lemma fields_trans w w' w'' : fields_kept w w' → fields_kept w' w'' → fields_kept w w''.
Proof. unfold fields_kept. intros (-> & -> & ->). done. Qed.

Lemma set_order_elem (s : gset bytes) k : k ∈ set_order s ↔ k ∈ s.
Proof. unfold set_order. by rewrite keys_in_order_elem, <- elem_of_dom, dom_gset_to_gmap. Qed.

(** Nothing has changed about a peer. *)
Definition same_at k w w' : Prop :=
  installed (client w') !! k = installed (client w) !! k ∧
  applied_config_fingerprints (this w') !! k = applied_config_fingerprints (this w) !! k ∧
  healths (this w') !! k = healths (this w) !! k.

Lemma others_same k k' w w' : others_kept k w w' → k' ≠ k → same_at k' w w'.
Proof. intros [] Hne. split_and!; auto. Qed.

Lemma same_trans k w w' w'' : same_at k w w' → same_at k w' w'' → same_at k w w''.
Proof. unfold same_at. intros (-> & -> & ->). done. Qed.

(** Listing the peers or removing one failed. *)
Definition query_failed (e : reconcile_error) : Prop :=
  ∃ e' n c c', e = DeviceError e' ∧ client_ok n c ∧
    (list_peers c = Some (Err e', c') ∨ ∃ k, remove_peer k c = Some (Err e', c')).

Lemma remove_vanished_wp n ds w :
  client_ok n (client w) → tracked w →
  wp (remove_vanished_peers (dom (installed (client w))) ds)
    (λ r w', client_ok n (client w') ∧ tracked w' ∧ fields_kept w w' ∧
      (∀ k, is_Some (ds !! k) → same_at k w w') ∧
      match r with
      | Ok _ => ∀ k, ds !! k = None → installed (client w') !! k = None
      | Err e => query_failed e
      end) w.
Proof.
  intros Hok Ht. unfold remove_vanished_peers.
  apply (wp_for_each _ (λ rest w', client_ok n (client w') ∧ tracked w' ∧ fields_kept w w' ∧
    (∀ k, is_Some (ds !! k) → same_at k w w') ∧
    ∀ k, ds !! k = None → k ∉ rest → installed (client w') !! k = None)).
  - split_and!; [done..|]. intros k _ Hk. apply eq_None_not_Some. intros Hs. apply Hk.
    by apply set_order_elem, elem_of_dom.
  - intros k rest w1 (Hok1 & [Ha Hh] & Hf & Hsame & Hgone). case_decide as Hk.
    + apply wp_ret. split_and!; [done..|]. intros k' Hk' Hrest. apply Hgone; [done|].
      apply not_elem_of_cons. split; [|done]. intros ->. destruct Hk. congruence.
    + destruct (remove_peer_law n k (client w1) Hok1) as (r & c' & E & Hok' & Hi).
      apply wp_bind. eapply wp_call; [exact E|]. destruct r as [[]|e]; cbn [map_err].
      * wp_steps. cbn [this client]. split_and!; [done| | | |].
        -- split; cbn [this client set_applied set_healths applied_config_fingerprints healths]; rewrite Hi.
           ++ intros k' fp [Hne Hfp]%lookup_delete_Some. rewrite lookup_delete_ne by done. by apply Ha.
           ++ intros k' [h [Hne Hkh]%lookup_delete_Some]. rewrite lookup_delete_ne by done. apply Hh. by eexists.
        -- eapply fields_trans; [exact Hf|done].
        -- intros k' Hk'. assert (k ≠ k') as Hne by (intros ->; done).
           eapply same_trans; [by apply Hsame|].
           unfold same_at. cbn. rewrite Hi. by rewrite !lookup_delete_ne.
        -- intros k' Hk' Hrest. rewrite Hi. destruct (decide (k' = k)) as [->|Hne]; [apply lookup_delete_eq|].
           rewrite lookup_delete_ne by done. apply Hgone; [done|]. by apply not_elem_of_cons.
      * cbn [this client]. split_and!; [done| |done| |by exists e, n, (client w1), c'; eauto].
        -- split; cbn [this client]; rewrite Hi; done.
        -- intros k' Hk'. eapply same_trans; [by apply Hsame|]. unfold same_at. cbn. by rewrite Hi.
  - intros w1 (? & ? & ? & ? & Hgone). split_and!; try done. intros k Hk. apply Hgone; [done|apply not_elem_of_nil].
Qed.

Definition sound_peers (ds : gmap bytes desired_peer) : Prop := ∀ k p, ds !! k = Some p → sound_peer k p.

(** A peer of the device is as in [w0], or as desired. *)
Definition old_or_desired ds w0 (shown : gmap bytes view) k : Prop :=
  shown !! k = installed (client w0) !! k ∨
  ∃ p, ds !! k = Some p ∧ shown !! k = Some (config_view (rendered p (active_policy_index p))).

(** The loop of [apply_desired_peers] with [rest] to do, started in [w0]. *)
Record applying n ds w0 (actual : gset bytes) (rest : list bytes) w : Prop := {
  applying_ok : client_ok (n + length rest) (client w);
  applying_tracked : tracked w;
  applying_fields : fields_kept w0 w;
  applying_distinct : NoDup rest;
  applying_desired k : k ∈ rest → is_Some (ds !! k);
  applying_actual k : k ∈ rest → k ∈ actual ↔ is_Some (installed (client w) !! k);
  applying_rest k : k ∈ rest → installed (client w) !! k = installed (client w0) !! k ∧
    applied_config_fingerprints (this w) !! k = applied_config_fingerprints (this w0) !! k;
  applying_done k p : ds !! k = Some p → k ∉ rest → synced k p w ∧ is_Some (installed (client w) !! k);
  applying_gone k : ds !! k = None → installed (client w) !! k = installed (client w0) !! k;
  applying_shown k : old_or_desired ds w0 (installed (client w)) k
}.

Lemma synced_same k p w w' : same_at k w w' → synced k p w → synced k p w'.
Proof. unfold same_at, synced. by intros (_ & -> & ->). Qed.

(** How a failed loop ends: the peer that could not be installed. *)
Definition apply_error ds w0 (e : reconcile_error) : Prop :=
  ∃ k p e' s, ds !! k = Some p ∧ e = DeviceError e' ∧
    refused (rendered p (active_policy_index p)) s e' ∧
    (e' = AllowedIPOverlap → ∃ shown, clash shown (rendered p (active_policy_index p)) ∧
      ∀ k', old_or_desired ds w0 shown k').

Lemma applying_step n ds w0 actual k rest now w :
  sound_peers ds → applying n ds w0 actual (k :: rest) w →
  ∃ p, ds !! k = Some p ∧
  wp (apply_desired_peer lim routes_cap actual ds now k)
    (λ r w', install_outcome k p w r w' ∧
      match r with
      | Ok _ => applying n ds w0 actual rest w'
      | Err e => client_ok n (client w') ∧ tracked w' ∧ fields_kept w0 w' ∧ apply_error ds w0 e
      end) w.
Proof.
  intros Hs [Hok Ht Hf [Hk Hnd]%NoDup_cons Hds Hact Hrest Hdone Hgone Hshown].
  destruct (Hds k ltac:(by left)) as [p Hp]. exists p. split; [done|].
  assert (client_ok (S (n + length rest)) (client w)) as Hok' by (eapply client_ok_le; [|exact Hok]; simpl; lia).
  eapply wp_mono; [apply (apply_desired_peer_wp (n + length rest) actual ds now k p w); try done; [by apply Hs|by apply Hact; left]|].
  intros r w' (Hok1 & Ht1 & Hkept & Hout). pose proof (others_fields _ _ _ Hkept) as Hf1. split; [done|].
  assert (∀ k', k' ≠ k → same_at k' w w') as Hsame by (intros; by eapply others_same).
  destruct r as [[]|e].
  - destruct Hout as (Hsync & Hi & Hor). split; try done.
    + by eapply fields_trans.
    + intros k' ?. apply Hds. by right.
    + intros k' Hk'. destruct (Hsame k') as (-> & _); [by intros ->|]. apply Hact. by right.
    + intros k' Hk'. destruct (Hsame k') as (-> & -> & _); [by intros ->|]. apply Hrest. by right.
    + intros k' p' Hp' Hk'. destruct (decide (k' = k)) as [->|Hne]; [by simplify_eq|].
      destruct (Hdone k' p' Hp') as [Hsy Hin]; [by apply not_elem_of_cons|].
      pose proof (Hsame k' Hne) as Hsa. split; [by eapply synced_same|]. by destruct Hsa as (-> & _).
    + intros k' Hk'. rewrite <- (Hgone k' Hk'). apply Hsame. congruence.
    + intros k'. destruct (decide (k' = k)) as [->|Hne].
      * destruct Hor as [[_ E]|[_ E]]; [left|right; by exists p].
        rewrite E. apply Hrest. by left.
      * unfold old_or_desired. destruct (Hsame k' Hne) as (-> & _). apply Hshown.
  - destruct Hout as (E & _ & e' & -> & Href & Hclash). split_and!; [|done|by eapply fields_trans|].
    + eapply client_ok_le; [|exact Hok1]. lia.
    + exists k, p, e', (client w). split_and!; [done..|]. intros He. exists (installed (client w)). auto.
Qed.

Lemma length_keys_in_order {V} (m : gmap bytes V) : length (keys_in_order m) = size m.
Proof. by rewrite keys_in_order_perm, length_map, length_map_to_list. Qed.

Lemma applying_start n ds w actual :
  client_ok (n + size ds) (client w) → tracked w →
  (∀ k, is_Some (ds !! k) → k ∈ actual ↔ is_Some (installed (client w) !! k)) →
  applying n ds w actual (keys_in_order ds) w.
Proof.
  intros Hok Ht Hact. split; try done; try by rewrite length_keys_in_order.
  - apply keys_in_order_NoDup.
  - intros k. apply keys_in_order_elem.
  - intros k ?%keys_in_order_elem. by apply Hact.
  - intros k p Hk []. apply keys_in_order_elem. by eexists.
  - intros k. by left.
Qed.

Lemma apply_desired_wp n ds w actual now :
  client_ok (n + size ds) (client w) → tracked w → sound_peers ds →
  (∀ k, is_Some (ds !! k) → k ∈ actual ↔ is_Some (installed (client w) !! k)) →
  (∀ k, ds !! k = None → installed (client w) !! k = None) →
  wp (apply_desired_peers lim routes_cap actual ds now)
    (λ r w', client_ok n (client w') ∧ tracked w' ∧ fields_kept w w' ∧
      match r with
      | Ok _ => (∀ k p, ds !! k = Some p → synced k p w') ∧
          ∀ k, is_Some (installed (client w') !! k) ↔ is_Some (ds !! k)
      | Err e => apply_error ds w e
      end) w.
Proof.
  intros Hok Ht Hs Hact Hgone. unfold apply_desired_peers.
  apply (wp_for_each _ (applying n ds w actual)).
  - by apply applying_start.
  - intros k rest w1 Ha. destruct (applying_step n ds w actual k rest now w1 Hs Ha) as (p & _ & Hwp).
    eapply wp_mono; [exact Hwp|]. intros [[]|e] w2 [_ Hw2]; done.
  - intros w1 [Hok1 Ht1 Hf1 _ _ _ _ Hdone Hg _]. split_and!; [|done|done| |].
    + eapply client_ok_le; [|exact Hok1]. lia.
    + intros k p Hp. apply Hdone; [done|apply not_elem_of_nil].
    + intros k. split.
      * intros Hi. destruct (ds !! k) eqn:E; [by eexists|]. rewrite Hg, Hgone in Hi by done. by destruct Hi.
      * intros [p Hp]. eapply Hdone; [done|apply not_elem_of_nil].
Qed.

(** ** Keeping the selection across maps *)

Lemma carry_forward_peer old p h : ∃ i, (carry_forward routes_cap old p h).1 = select_policy i p.
Proof. unfold carry_forward. by eexists. Qed.

(** The outcome for one peer. *)
Definition carried olds (st : gmap bytes desired_peer * gmap bytes peer_health) k
    : option desired_peer * option peer_health :=
  match st.1 !! k, st.2 !! k with
  | Some p, Some h =>
      let '(p, h) := carry_forward routes_cap (olds !! k) p h in (Some p, Some h)
  | o, o' => (o, o')
  end.

Lemma carry_turn_spec olds st key k :
  let st' := carry_forward_turn routes_cap olds st key in
  (st'.1 !! k, st'.2 !! k) = if decide (k = key) then carried olds st k else (st.1 !! k, st.2 !! k).
Proof.
  unfold carry_forward_turn, carried. case_decide as Hk; [subst k|];
    destruct (st.1 !! key) as [p|] eqn:E1, (st.2 !! key) as [h|] eqn:E2; rewrite ?E1, ?E2; try done;
    destruct (carry_forward _ _ p h); cbn; [by rewrite !lookup_insert_eq|by rewrite !lookup_insert_ne].
Qed.

Lemma carried_same olds st st' k :
  (st'.1 !! k, st'.2 !! k) = (st.1 !! k, st.2 !! k) → carried olds st' k = carried olds st k.
Proof. unfold carried. intros [= -> ->]. done. Qed.

Lemma carry_loop_spec olds l st k :
  NoDup l → let st' := fold_left (carry_forward_turn routes_cap olds) l st in
  (st'.1 !! k, st'.2 !! k) = if decide (k ∈ l) then carried olds st k else (st.1 !! k, st.2 !! k).
Proof.
  cbv zeta. revert st; induction l as [|key l IH]; intros st Hnd; cbn [fold_left].
  { by rewrite decide_False by apply not_elem_of_nil. }
  apply NoDup_cons in Hnd as [Hkey Hnd]. rewrite IH by done.
  pose proof (carry_turn_spec olds st key k) as Ht. cbv zeta in Ht.
  destruct (decide (k = key)) as [->|Hne].
  - by rewrite decide_False, decide_True by (done || by left).
  - destruct (decide (k ∈ l)).
    + rewrite decide_True by (by right). by apply carried_same.
    + by rewrite decide_False by (by intros [|]%elem_of_cons).
Qed.

Lemma carry_forward_active_spec olds st k :
  let st' := carry_forward_active_policies routes_cap olds st in
  (st'.1 !! k, st'.2 !! k) = carried olds st k.
Proof.
  unfold carry_forward_active_policies. cbv zeta. rewrite carry_loop_spec by apply keys_in_order_NoDup.
  case_decide as Hk; [done|]. rewrite keys_in_order_elem in Hk. unfold carried.
  apply eq_None_not_Some in Hk as ->. done.
Qed.
End safe.

#[global] Arguments sound_peer admits routes_cap k p : clear implicits.
#[global] Arguments sound_peers admits routes_cap ds : clear implicits.
