(* ===== verification/ReconcilerSpec.v ===== *)
(** * What the reconciler promises

    Applying a network map, sampling the health of the peers, and the loop that
    alternates them, over any device that keeps the promises of
    [ReconcilerSafe]: the outcomes of each, totality, what survives a failure,
    and the maps that can never be applied. *)

From S2P Require Import Prelude IpNet AllowedIps Bounded PeerHealth PeerTable Routes Device Reconciler ReconcilerSafe.

Section spec.
Context `{order : map_order_laws} `{policy_sort_laws} `{config_hash} {C : Type} `{device_client C}
  {R : Type} `{random R} (lim : limits)
  {admits : peer_config → Prop} `{laws : !device_client_laws lim admits C} (routes_cap : capacity)
  (usize_bits : Z).
Implicit Types (w : world C R) (k : bytes) (p : desired_peer) (ds olds : gmap bytes desired_peer) (n : nat) (m : network_map).

(** A map within the types and the bounds of the source, whose peers the device
    admits whichever of their routes is chosen. *)
Record map_ok (m : network_map) : Prop := {
  map_ok_fits : map_fits lim routes_cap m;
  map_ok_ips mp ip : mp ∈ map_peers m → tunnel_ip mp = Some ip → ip_addr_valid ip;
  map_ok_admitted mp p i : last_with_key (map_peers m) mp → derived m mp p → admits (rendered p i)
}.

Definition map_keys (m : network_map) : list bytes := map map_public_key (map_peers m).

(** [p] is what the map says about the peer [k], whichever policy is active. *)
Definition follows m k p : Prop :=
  ∃ mp, last_with_key (map_peers m) mp ∧ map_public_key mp = k ∧ derived m mp p.

Lemma last_with_key_elem ps mp : last_with_key ps mp → mp ∈ ps.
Proof. intros (l1 & l2 & -> & _). set_solver. Qed.

Lemma follows_select m k p i : follows m k p → follows m k (select_policy i p).
Proof.
  intros (mp & ? & ? & [E1 E2 E3 E4 E5]). exists mp. split_and!; [done..|].
  split; try done. by apply wf_select_policy.
Qed.

Lemma follows_key m k p : follows m k p → k ∈ map_keys m.
Proof. intros (mp & Hmp%last_with_key_elem & <- & _). by apply list_elem_of_fmap_2. Qed.

Lemma follows_sound m k p :
  map_ok m → follows m k p → within_capacity routes_cap (length (desired_policies p)) → sound_peer admits routes_cap k p.
Proof.
  intros [_ Hips Hadm] (mp & Hmp & <- & Hd) Hr. pose proof (λ i, Hadm mp p i Hmp Hd) as Had.
  apply last_with_key_elem in Hmp. destruct Hd as [E1 E2 _ _ E5]. split; try done.
  rewrite E2. destruct (tunnel_ip mp) as [ip|] eqn:E; constructor; [by eapply Hips|constructor].
Qed.

(** The desired peers before the selections are carried forward. *)
Definition fresh m ds : Prop :=
  (∀ k, k ∉ map_keys m → ds !! k = None) ∧
  ∀ k, k ∈ map_keys m → ∃ p, ds !! k = Some p ∧ follows m k p ∧ sound_peer admits routes_cap k p.

Lemma fresh_peers m (g : R) :
  map_ok m → ∃ ds g', desired_peers_from_map lim routes_cap usize_bits m g = (Ok ds, g') ∧ fresh m ds.
Proof.
  intros Hm. destruct (desired_peers_spec lim routes_cap usize_bits m g (map_ok_fits _ Hm)) as (ds & g' & E & Hds).
  exists ds, g'. split; [done|]. split; intros k Hk; destruct (Hds k) as [[Hno Hn]|(mp & p & Hmp & Hk' & Hp & Hd & _ & Hr)];
    try done.
  - destruct Hk. apply (follows_key m k p). by exists mp.
  - exists p. assert (follows m k p) by (by exists mp). split_and!; [done..|by apply (follows_sound m)].
Qed.

Lemma size_union_le (X Y : gset bytes) : (size (X ∪ Y) ≤ size X + size Y)%nat.
Proof.
  rewrite size_union_alt. assert (size (Y ∖ X) ≤ size Y)%nat by (apply subseteq_size; set_solver). lia.
Qed.

(** After: the same peers, with the selections kept. *)
Lemma carried_fresh m olds ds hs :
  fresh m ds → fresh m (carry_forward_active_policies routes_cap olds (ds, hs)).1.
Proof.
  intros [Hno Hyes].
  assert (∀ k, (carry_forward_active_policies routes_cap olds (ds, hs)).1 !! k = (carried routes_cap olds (ds, hs) k).1)
    as E by (intros k; by rewrite <- carry_forward_active_spec).
  split; intros k Hk; rewrite E; unfold carried; cbn [fst snd].
  - by rewrite Hno.
  - destruct (Hyes k Hk) as (p & -> & Hf & Hs). destruct (hs !! k) as [h|]; [|by exists p].
    destruct (carry_forward_peer routes_cap (olds !! k) p h) as [i Hi].
    destruct (carry_forward _ _ p h) as [p' h']. cbn in *. subst p'. exists (select_policy i p).
    split_and!; [done|by apply follows_select|]. destruct Hs as [S1 S2 S3 S4]. split; try done.
    by apply wf_select_policy.
Qed.

Lemma carried_healths olds ds hs k :
  is_Some ((carry_forward_active_policies routes_cap olds (ds, hs)).2 !! k) → is_Some (hs !! k).
Proof.
  assert ((carry_forward_active_policies routes_cap olds (ds, hs)).2 !! k = (carried routes_cap olds (ds, hs) k).2)
    as -> by (by rewrite <- carry_forward_active_spec).
  unfold carried. cbn [fst snd]. by destruct (ds !! k), (hs !! k).
Qed.

Lemma fresh_size m ds : fresh m ds → (size ds ≤ length (map_peers m))%nat.
Proof.
  intros [Hno _]. rewrite <- size_dom. transitivity (size (list_to_set (map_keys m) : gset bytes)).
  - apply subseteq_size. intros k. rewrite elem_of_dom, elem_of_list_to_set. intros [p Hp].
    destruct (decide (k ∈ map_keys m)); [done|]. by rewrite Hno in Hp.
  - transitivity (length (map_keys m)); [|by unfold map_keys; rewrite length_map].
    clear Hno. induction (map_keys m) as [|k l IH]; [done|]. cbn [list_to_set length].
    pose proof (size_union_le ({[k]} : gset bytes) (list_to_set l)) as Hle. rewrite size_singleton in Hle.
    lia.
Qed.

(** ** Applying a network map *)

(** What holds once a map is applied: the device has exactly its peers, and the
    reconciler has each as the map says, in step with the device; a selection
    whose route is still there is kept. *)
Record map_applied m w w' : Prop := {
  applied_peers k : is_Some (installed (client w') !! k) ↔ k ∈ map_keys m;
  applied_desired k : k ∈ map_keys m →
    ∃ p, desired (this w') !! k = Some p ∧ follows m k p ∧ sound_peer admits routes_cap k p ∧ synced k p w';
  applied_only k : k ∉ map_keys m → desired (this w') !! k = None;
  applied_directories : directories (this w') = filter (λ mp, is_directory mp = true) (map_peers m);
  applied_last : last_applied_map_updated_at (this w') = Some (updated_at m);
  applied_selection k p h r : desired (this w') !! k = Some p → healths (this w) !! k = Some h →
    active_route h = Some r → r ∈ keys (desired_policies p) → desired_active_route p = Some r
}.

(** A failed application: a query of the device failed, or the installation of
    a peer of the map. *)
Definition map_failed m w (e : reconcile_error) : Prop :=
  query_failed lim e ∨
  ∃ ds w1, fresh m ds ∧
    (∀ k, installed (client w1) !! k = if decide (k ∈ map_keys m) then installed (client w) !! k else None) ∧
    apply_error lim ds w1 e.

Definition map_outcome m w (r : result bool reconcile_error) w' : Prop :=
  match r with
  | Ok b => stale m (this w) = negb b ∧ if b then map_applied m w w' else w' = w
  | Err e => fields_kept w w' ∧ map_failed m w e
  end.

(** The selection of a peer whose route is still in the map. *)
Lemma carry_forward_route old p h r :
  wf_desired p → active_route h = Some r → r ∈ keys (desired_policies p) →
  desired_active_route (carry_forward routes_cap old p h).1 = Some r.
Proof.
  intros Hwf Hr Hin. unfold carry_forward, old_active_route. rewrite Hr. cbn [mbind option_bind fst].
  apply list_elem_of_fmap in Hin as (q & -> & Hq).
  destruct (list_find_elem_of (λ q0, route_key_of q0 = route_key_of q) _ q Hq eq_refl) as [[i q'] Hf].
  rewrite Hf. apply list_find_Some in Hf as (Hi & Hk & _). cbn.
  pose proof (lookup_lt_Some _ _ _ Hi). rewrite Nat.min_l by lia. by rewrite Hi, <- Hk.
Qed.

Lemma carried_selection m olds ds hs :
  fresh m ds → let ds' := (carry_forward_active_policies routes_cap olds (ds, hs)).1 in
  ∀ k p h r, ds' !! k = Some p → hs !! k = Some h → active_route h = Some r →
    r ∈ keys (desired_policies p) → desired_active_route p = Some r.
Proof.
  intros [Hno Hyes] ds' k p h r Hp Hh Hr Hin.
  pose proof (carry_forward_active_spec routes_cap olds (ds, hs) k) as Hc. cbv zeta in Hc. fold ds' in Hc.
  unfold carried in Hc. cbn [fst snd] in Hc. rewrite Hp, Hh in Hc.
  destruct (ds !! k) as [p0|] eqn:Hp0; [|done].
  destruct (decide (k ∈ map_keys m)) as [Hk|Hk]; [|by rewrite Hno in Hp0].
  destruct (Hyes k Hk) as (p1 & Hp1 & _ & [Hwf0 _ _ _]). simplify_eq.
  destruct (carry_forward_peer routes_cap (olds !! k) p0 h) as [i Hi0].
  pose proof (carry_forward_route (olds !! k) p0 h r Hwf0 Hr) as Hroute.
  destruct (carry_forward routes_cap _ p0 h) as [p1 h1]. cbn [fst] in *. simplify_eq. by apply Hroute.
Qed.

Lemma directories_room m :
  map_ok m → directory_servers_from_map lim m = Ok (filter (λ mp, is_directory mp = true) (map_peers m)).
Proof.
  intros [[Hp _ _] _]. unfold directory_servers_from_map. rewrite push_all_room; [done|].
  rewrite Nat.add_0_r. eapply within_capacity_le; [apply length_filter|done].
Qed.

(** The world in which the peers [ds] of the map are applied: the vanished
    peers are gone, and nothing else has changed on the device. *)
Record prepared n m w ds w3 : Prop := {
  prepared_ok : client_ok (n + length (map_peers m)) (client w3);
  prepared_tracked : tracked lim w3;
  prepared_fields : fields_kept w w3;
  prepared_fresh : fresh m ds;
  prepared_installed k : installed (client w3) !! k =
    if decide (k ∈ map_keys m) then installed (client w) !! k else None;
  prepared_applied k : k ∈ map_keys m →
    applied_config_fingerprints (this w3) !! k = applied_config_fingerprints (this w) !! k;
  prepared_selection k p h r : ds !! k = Some p → healths (this w) !! k = Some h →
    active_route h = Some r → r ∈ keys (desired_policies p) → desired_active_route p = Some r
}.

(** Stopped before that, nothing of the map has been applied. *)
Record interrupted n m w w' : Prop := {
  interrupted_ok : client_ok (n + length (map_peers m)) (client w');
  interrupted_tracked : tracked lim w';
  interrupted_fields : fields_kept w w';
  interrupted_same k : k ∈ map_keys m → installed (client w') !! k = installed (client w) !! k ∧
    applied_config_fingerprints (this w') !! k = applied_config_fingerprints (this w) !! k
}.

Lemma reconcile_network_map_rule n m now w (Q : result bool reconcile_error → world C R → Prop) :
  map_ok m → client_ok (n + length (map_peers m)) (client w) → tracked lim w → stale m (this w) = false →
  (∀ e w', query_failed lim e → interrupted n m w w' → Q (Err e) w') →
  (∀ ds w3, prepared n m w ds w3 →
    wp (apply_desired_peers lim routes_cap (dom (installed (client w))) ds now)
      (λ r w4, match r with
        | Ok _ => Q (Ok true) (World (Reconciler (filter (λ mp, is_directory mp = true) (map_peers m)) ds
            (healths (this w4)) (applied_config_fingerprints (this w4)) (Some (updated_at m)))
            (client w4) (rng w4))
        | Err e => Q (Err e) w4
        end) w3) →
  wp (reconcile_network_map lim routes_cap usize_bits m now) Q w.
Proof.
  intros Hm Hok Ht Hst HQe HQ. unfold reconcile_network_map. wp_steps. rewrite Hst. wp_steps.
  destruct (fresh_peers m (rng w) Hm) as (ds0 & g & -> & Hf0). cbn [fst snd].
  pose proof (carried_fresh m (desired (this w)) ds0 (healths (this w)) Hf0) as Hf.
  pose proof (carried_healths (desired (this w)) ds0 (healths (this w))) as Hhs.
  pose proof (carried_selection m (desired (this w)) ds0 (healths (this w)) Hf0) as Hsel.
  destruct (carry_forward_active_policies _ _ _) as [ds hs]. cbn [fst snd] in Hf, Hhs, Hsel.
  wp_steps. cbn [this client rng].
  set (w1 := World (set_healths hs (this w)) (client w) g).
  destruct (list_peers_law _ (client w) Hok) as (r & c & E & Hok2 & Hi & Hks).
  assert (tracked lim (World (this w1) c (rng w1))) as Ht2.
  { destruct Ht as [Ha Hh]. split; cbn; rewrite Hi; [done|]. intros k Hk. apply Hh. by apply Hhs. }
  eapply wp_call; [exact E|]. destruct r as [ks|e]; cbn [map_err].
  2: { apply HQe; [by exists e, (n + length (map_peers m))%nat, (client w), c; eauto|].
       split; cbn; [done..|]. intros k _. by rewrite Hi. }
  rewrite (Hks ks eq_refl), <- Hi. set (w2 := World (this w1) c (rng w1)) in *.
  apply wp_bind. eapply wp_mono; [apply (remove_vanished_wp lim (n + length (map_peers m)) ds w2 Hok2 Ht2)|].
  intros r w3 (Hok3 & Ht3 & Hfields3 & Hsame3 & Hgone3); cbn beta iota.
  assert (∀ k, k ∈ map_keys m → is_Some (ds !! k)) as Hin.
  { intros k Hk. destruct Hf as [_ Hyes]. destruct (Hyes k Hk) as (p & Hp & _). by eexists. }
  destruct r as [[]|e].
  2: { apply HQe; [done|]. split; [done..|]. intros k Hk. destruct (Hsame3 k (Hin k Hk)) as (-> & -> & _).
       cbn. by rewrite Hi. }
  apply wp_bind. change (client w2) with c. rewrite Hi. eapply wp_mono.
  { apply (HQ ds w3). split; try done.
    - intros k. case_decide as Hk; [|apply Hgone3; by apply (proj1 Hf)].
      destruct (Hsame3 k (Hin k Hk)) as (-> & _). cbn. by rewrite Hi.
    - intros k Hk. destruct (Hsame3 k (Hin k Hk)) as (_ & -> & _). done. }
  intros [[]|e] w4 HQ4; cbn beta iota; [|done]. wp_steps. rewrite directories_room by done. by wp_steps.
Qed.

Lemma fresh_sound m ds : fresh m ds → sound_peers admits routes_cap ds.
Proof.
  intros [Hno Hyes] k p Hp. destruct (decide (k ∈ map_keys m)) as [Hk|Hk].
  - destruct (Hyes k Hk) as (p' & Hp' & _ & Hs). by simplify_eq.
  - by rewrite Hno in Hp.
Qed.

Lemma fresh_in m ds k : fresh m ds → is_Some (ds !! k) ↔ k ∈ map_keys m.
Proof.
  intros [Hno Hyes]. split.
  - intros [p Hp]. destruct (decide (k ∈ map_keys m)); [done|]. by rewrite Hno in Hp.
  - intros Hk. destruct (Hyes k Hk) as (p & Hp & _). by eexists.
Qed.

(** The peers of the map that the device has are those it had. *)
Lemma prepared_actual n m w ds w3 k :
  prepared n m w ds w3 → is_Some (ds !! k) →
  k ∈ dom (installed (client w)) ↔ is_Some (installed (client w3) !! k).
Proof.
  intros Hp Hk. rewrite (prepared_installed _ _ _ _ _ Hp), elem_of_dom.
  apply (fresh_in m) in Hk; [|apply Hp]. by rewrite decide_True.
Qed.

Lemma reconcile_network_map_wp n m now w :
  map_ok m → client_ok (n + length (map_peers m)) (client w) → tracked lim w →
  wp (reconcile_network_map lim routes_cap usize_bits m now)
    (λ r w', client_ok n (client w') ∧ tracked lim w' ∧ map_outcome m w r w') w.
Proof.
  intros Hm Hok Ht. assert (∀ c, client_ok (n + length (map_peers m)) c → client_ok n c) as Hless.
  { intros c. apply client_ok_le. lia. }
  destruct (stale m (this w)) eqn:Hst.
  { unfold reconcile_network_map, map_outcome. wp_steps. rewrite Hst. wp_steps. split_and!; try done. by apply Hless. }
  apply (reconcile_network_map_rule n); [done..| |].
  { intros e w' Hq []. split_and!; [by apply Hless|done|]. split; [done|by left]. }
  intros ds w3 Hprep. pose proof Hprep as [Hok3 Ht3 Hfields Hf Hi3 _ Hsel].
  eapply wp_mono.
  { apply (apply_desired_wp lim routes_cap n ds w3).
    - eapply client_ok_le; [|exact Hok3]. pose proof (fresh_size _ _ Hf). lia.
    - done.
    - by eapply fresh_sound.
    - intros k. by apply (prepared_actual n m).
    - intros k Hk%eq_None_not_Some. rewrite (fresh_in m ds k Hf) in Hk. by rewrite Hi3, decide_False. }
  intros [[]|e] w4 (Hok4 & Ht4 & Hfields4 & Hout); cbn beta iota.
  2: { split_and!; [done..|]. split; [by eapply fields_trans|]. right. by exists ds, w3. }
  destruct Hout as [Hsync Hpeers]. cbn [client]. split_and!; [done| |split; [done|]].
  { destruct Ht4 as [Ha Hh]. split; cbn; done. }
  split; cbn [this client desired healths directories last_applied_map_updated_at]; try done.
  - intros k. by rewrite Hpeers, (fresh_in m).
  - intros k Hk. destruct Hf as [_ Hyes]. destruct (Hyes k Hk) as (p & Hp & Hfol & Hs).
    exists p. split_and!; [done..|]. destruct (Hsync k p Hp) as [Ha Hh]. by split.
  - intros k Hk. apply eq_None_not_Some. by rewrite (fresh_in m).
Qed.

(** C12: applying a network map always returns, and keeps the cache in step with
    the device. A map that is not newer than the last is ignored; an applied
    map leaves on the device exactly the peers of the map, each in step with
    the fingerprint of its configuration and its health, and keeps the route a
    peer was moved to when the map still has it; a failed one keeps the last
    map, and fails because a query failed or a peer was refused. *)
Theorem network_map_outcomes n m now w :
  map_ok m → client_ok (n + length (map_peers m)) (client w) → tracked lim w →
  ∃ r w', reconcile_network_map lim routes_cap usize_bits m now w = Some (r, w') ∧
    client_ok n (client w') ∧ tracked lim w' ∧
    match r with
    | Ok b => stale m (this w) = negb b ∧ if b then map_applied m w w' else w' = w
    | Err e => fields_kept w w' ∧ map_failed m w e
    end.
Proof. apply reconcile_network_map_wp. Qed.

(** ** Maps that are applied *)

(** A device that only refuses overlapping addresses, for a peer of at most one
    address. *)
Class reliable_client := {
  reliable_query n c e c' : client_ok n c → list_peers c ≠ Some (Err e, c');
  reliable_remove n k c e c' : client_ok n c → remove_peer k c ≠ Some (Err e, c');
  reliable_install cfg c e ips : refused lim cfg c e → config_allowed_ips cfg = map host ips →
    Forall ip_addr_valid ips → (length ips ≤ 1)%nat → e = AllowedIPOverlap
}.

(** No address of the map belongs to two of its peers, or to another peer that
    stays. *)
Record no_conflict (m : network_map) (shown : gmap bytes view) : Prop := {
  conflict_map mp mp' ip : last_with_key (map_peers m) mp → last_with_key (map_peers m) mp' →
    tunnel_ip mp = Some ip → tunnel_ip mp' = Some ip → map_public_key mp = map_public_key mp';
  conflict_device mp ip k (v : view) : last_with_key (map_peers m) mp → tunnel_ip mp = Some ip →
    k ∈ map_keys m → k ≠ map_public_key mp → shown !! k = Some v →
    ∀ b, b ∈ view_blocks v → Table.contains b ip = false
}.

Lemma host_shares ip b : ip_addr_valid ip → share (host ip) b → Table.contains b ip = true.
Proof. intros Hip (a & Ha & Hc1 & Hc2). apply host_contains in Hc1; [by subst a|done|done]. Qed.

(** The blocks of a rendered peer. *)
Lemma rendered_blocks m mp p i b :
  map_ok m → last_with_key (map_peers m) mp → derived m mp p →
  b ∈ map Table.normalize (config_allowed_ips (rendered p i)) →
  ∃ ip, tunnel_ip mp = Some ip ∧ ip_addr_valid ip ∧ b = host ip.
Proof.
  intros Hm Hmp [_ E _ _ _] Hb. cbn in Hb. rewrite E in Hb.
  destruct (tunnel_ip mp) as [ip|] eqn:Eip; cbn in Hb; [|set_solver].
  apply list_elem_of_singleton in Hb. exists ip.
  assert (ip_addr_valid ip) by (eapply map_ok_ips; [done|by eapply last_with_key_elem|done]).
  split_and!; [done..|]. by rewrite Hb, host_normal.
Qed.

Lemma no_conflict_no_clash m w ds w1 k p shown :
  map_ok m → no_conflict m (installed (client w)) → fresh m ds →
  (∀ k, installed (client w1) !! k = if decide (k ∈ map_keys m) then installed (client w) !! k else None) →
  ds !! k = Some p → (∀ k', old_or_desired lim ds w1 shown k') →
  ¬ clash shown (rendered p (active_policy_index p)).
Proof.
  intros Hm [Hmap Hdev] Hf Hw1 Hp Hshown (b & b' & Hb & Hs & Hor).
  assert (∀ k p, ds !! k = Some p → follows m k p) as Hfol.
  { intros k0 p0 Hp0. assert (k0 ∈ map_keys m) as Hk0 by (apply (fresh_in m ds); [done|by eexists]).
    destruct (proj2 Hf k0 Hk0) as (p1 & Hp1 & ? & _). by simplify_eq. }
  destruct (Hfol k p Hp) as (mp & Hmp & Hk & Hd).
  destruct (rendered_blocks m mp p _ b Hm Hmp Hd Hb) as (ip & Hip & Hv & ->).
  apply host_shares in Hs; [|done]. destruct Hor as [[Hb' Hne]|(k' & v & Hne & Hv' & Hb')].
  - destruct (rendered_blocks m mp p _ b' Hm Hmp Hd Hb') as (ip' & Hip' & _ & ->). by simplify_eq.
  - cbn [rendered config_public_key] in Hne. rewrite (derived_key _ _ _ Hd) in Hne.
    destruct (Hshown k') as [E|(p' & Hp' & E)]; rewrite E in Hv'.
    + rewrite Hw1 in Hv'. case_decide as Hk'; [|done].
      rewrite (Hdev mp ip k' v) in Hs; try done.
    + simplify_eq. destruct (Hfol k' p' Hp') as (mp' & Hmp' & Hk' & Hd').
      cbn [config_view view_blocks] in Hb'. apply elem_of_list_to_set in Hb'.
      destruct (rendered_blocks m mp' p' _ b' Hm Hmp' Hd' Hb') as (ip' & Hip' & Hv'' & ->).
      apply host_contains in Hs; [|done|done]. subst ip'.
      destruct Hne. rewrite <- Hk'. by eapply Hmap.
Qed.

(** C13: a newer map whose addresses are in no conflict is applied by a device
    that only refuses overlapping addresses: the reconciler converges on it in
    one pass, whatever the state left by earlier failures. *)
Theorem network_map_converges `{!reliable_client} n m now w :
  map_ok m → client_ok (n + length (map_peers m)) (client w) → tracked lim w →
  stale m (this w) = false → no_conflict m (installed (client w)) →
  ∃ w', reconcile_network_map lim routes_cap usize_bits m now w = Some (Ok true, w') ∧
    client_ok n (client w') ∧ tracked lim w' ∧ map_applied m w w'.
Proof.
  intros Hm Hok Ht Hst Hnc.
  destruct (reconcile_network_map_wp n m now w Hm Hok Ht) as (r & w' & E & Hok' & Ht' & Hout).
  destruct r as [[]|e]; [|by destruct Hout as [E' _]; rewrite Hst in E'|].
  { exists w'. split_and!; [done..|]. apply Hout. }
  exfalso. destruct Hout as [_ [(e' & n' & c & c' & -> & Hc & [Hl|[k Hr]])|(ds & w1 & Hf & Hw1 & Herr)]].
  - by apply (reliable_query n' c e' c').
  - by apply (reliable_remove n' k c e' c').
  - destruct Herr as (k & p & e' & s & Hp & -> & Href & Hclash).
    pose proof (fresh_sound m ds Hf k p Hp) as [_ _ Hips _].
    assert (k ∈ map_keys m) as Hk by (apply (fresh_in m ds); [done|by eexists]).
    destruct (proj2 Hf k Hk) as (p1 & Hp1 & (mp & _ & _ & Hd) & _). simplify_eq.
    apply (reliable_install _ _ _ (desired_allowed_ips p)) in Href; [|done..|].
    + destruct (Hclash Href) as (shown & Hcl & Hshown).
      by eapply (no_conflict_no_clash m w ds w1 k p shown).
    + rewrite (derived_ips _ _ _ Hd). destruct (tunnel_ip mp); simpl; lia.
Qed.

(** ** Maps that are never applied *)

(** The device gives [a] to the peer [k], the map gives it [a'], and the
    fingerprint of the cache shows the change. *)
Record moves m w k (a a' : ip_addr) : Prop := {
  moves_valid : ip_addr_valid a;
  moves_to : ∃ mp, last_with_key (map_peers m) mp ∧ map_public_key mp = k ∧ tunnel_ip mp = Some a';
  moves_from : ∃ v, installed (client w) !! k = Some v ∧ host a ∈ view_blocks v;
  moves_detected p : follows m k p →
    applied_config_fingerprints (this w) !! k ≠ Some (from_config (rendered p (active_policy_index p)))
}.

Lemma moves_same m w w' k a a' :
  installed (client w') !! k = installed (client w) !! k →
  applied_config_fingerprints (this w') !! k = applied_config_fingerprints (this w) !! k →
  moves m w k a a' → moves m w' k a a'.
Proof. intros E1 E2 []. split; rewrite ?E1, ?E2; done. Qed.

Lemma moves_in m w k a a' : moves m w k a a' → k ∈ map_keys m.
Proof. intros [_ (mp & Hmp%last_with_key_elem & <- & _) _ _]. by apply list_elem_of_fmap_2. Qed.

Lemma last_with_key_unique ps mp mp' :
  last_with_key ps mp → last_with_key ps mp' → map_public_key mp = map_public_key mp' → mp = mp'.
Proof.
  intros (l1 & l2 & -> & Hn) (l1' & l2' & E & Hn') Hk.
  revert l1' E; induction l1 as [|q l1 IH]; intros [|q' l1'] E; cbn in E; simplify_eq; try done.
  - destruct Hn. rewrite Hk. apply list_elem_of_fmap_2. set_solver.
  - destruct Hn'. rewrite <- Hk. apply list_elem_of_fmap_2. set_solver.
  - by apply (IH l1').
Qed.

(** Giving a peer the address that another one still has is a clash. *)
Lemma moves_clash m w w' k k' a a' p :
  map_ok m → moves m w k a a' → moves m w k' a' a → k ≠ k' →
  installed (client w') !! k' = installed (client w) !! k' → follows m k p →
  clash (installed (client w')) (rendered p (active_policy_index p)).
Proof.
  intros Hm [_ (mp & Hmp & Hk & Ha') _ _] [Hv' _ (v & Hv & Hb) _] Hne E (mp' & Hmp' & Hk' & Hd).
  assert (mp' = mp) as -> by (eapply last_with_key_unique; [done..|congruence]).
  exists (host a'), (host a'). split_and!.
  - cbn. rewrite (derived_ips _ _ _ Hd), Ha'. cbn. rewrite host_normal by done. by apply list_elem_of_singleton.
  - apply share_refl; [by apply host_valid|by apply host_normal].
  - right. exists k', v. rewrite E. split_and!; [|done..]. cbn. rewrite (derived_key _ _ _ Hd). congruence.
Qed.

(** A turn of the loop while both peers are still to do. *)
Lemma exchange_step n m ds w w3 actual k k' a a' x rest now w1 :
  map_ok m → k ≠ k' → moves m w k a a' → moves m w k' a' a → prepared n m w ds w3 →
  applying lim n ds w3 actual (x :: rest) w1 → k ∈ x :: rest → k' ∈ x :: rest →
  wp (apply_desired_peer lim routes_cap actual ds now x)
    (λ r w', match r with
      | Ok _ => applying lim n ds w3 actual rest w' ∧ k ∈ rest ∧ k' ∈ rest
      | Err e => client_ok n (client w') ∧ tracked lim w' ∧ fields_kept w w' ∧
          moves m w' k a a' ∧ moves m w' k' a' a
      end) w1.
Proof.
  intros Hm Hne Hmv Hmv' [_ _ Hf3 Hfresh Hi3 Ha3 _] Happ Hin Hin'.
  destruct (applying_step lim routes_cap n ds w3 _ x rest now w1 (fresh_sound m ds Hfresh) Happ) as (p & Hp & Hwp).
  assert (follows m x p) as Hfol.
  { assert (x ∈ map_keys m) as Hx by (apply (fresh_in m ds); [done|by eexists]).
    destruct (proj2 Hfresh x Hx) as (p1 & Hp1 & ? & _). by simplify_eq. }
  assert (∀ y b b', y ∈ x :: rest → moves m w y b b' → installed (client w1) !! y = installed (client w) !! y ∧
    moves m w1 y b b') as Hstill.
  { intros y b b' Hy Hyb. destruct (applying_rest _ _ _ _ _ _ _ Happ y Hy) as [E1 E2].
    pose proof (moves_in _ _ _ _ _ Hyb) as Hyk. specialize (Hi3 y). rewrite decide_True in Hi3 by done.
    pose proof (Ha3 y Hyk). split; [congruence|]. apply (moves_same m w); congruence. }
  destruct (Hstill k a a' Hin Hmv) as [Ek Hmv1]. destruct (Hstill k' a' a Hin' Hmv') as [Ek' Hmv1'].
  eapply wp_mono; [exact Hwp|]. intros [[]|e] w2 [Hout Hrest]; cbn beta iota.
  - assert (∀ y y' b b', moves m w y b b' → moves m w y' b' b → moves m w1 y b b' → y ≠ y' →
      installed (client w1) !! y' = installed (client w) !! y' → x ≠ y) as Hnot.
    { intros y y' b b' Hy Hy' Hy1 Hyy E ->. destruct Hout as (_ & _ & [[Hfp _]|[Hno _]]).
      - by apply (moves_detected _ _ _ _ _ Hy1 p).
      - apply Hno. by apply (moves_clash m w w1 y y' b b' p). }
    split; [done|]. split.
    + apply elem_of_cons in Hin as [->|?]; [|done]. by destruct (Hnot x k' a a').
    + apply elem_of_cons in Hin' as [->|?]; [|done]. by destruct (Hnot x k a' a).
  - destruct Hrest as (Hok2 & Ht2 & Hf2 & _), Hout as (Ei & Ea & _).
    split_and!; [done..|by eapply fields_trans| |]; apply (moves_same m w1); by rewrite ?Ei, ?Ea.
Qed.

(** A map in which two peers exchange their addresses can never be applied:
    each attempt fails, whatever the order of the peers, and leaves the device
    and the reconciler such that the next attempt fails as well. *)
Theorem exchanged_addresses_rejected n m now w k k' a a' :
  map_ok m → client_ok (n + length (map_peers m)) (client w) → tracked lim w →
  stale m (this w) = false → k ≠ k' → moves m w k a a' → moves m w k' a' a →
  ∃ e w', reconcile_network_map lim routes_cap usize_bits m now w = Some (Err e, w') ∧
    client_ok n (client w') ∧ tracked lim w' ∧ stale m (this w') = false ∧
    moves m w' k a a' ∧ moves m w' k' a' a.
Proof.
  intros Hm Hok Ht Hst Hne Hmv Hmv'.
  assert (∀ w', fields_kept w w' → stale m (this w') = false) as Hstale.
  { intros w' (_ & _ & E). unfold stale in *. by rewrite E. }
  enough (wp (reconcile_network_map lim routes_cap usize_bits m now)
    (λ r w', ∃ e, r = Err e ∧ client_ok n (client w') ∧ tracked lim w' ∧ stale m (this w') = false ∧
      moves m w' k a a' ∧ moves m w' k' a' a) w) as (r & w' & E & e & -> & ?) by (by exists e, w').
  apply (reconcile_network_map_rule n); [done..| |].
  { intros e w' _ [Hok' Ht' Hf' Hsame]. exists e. split_and!; [done| |done|by apply Hstale| |].
    - eapply client_ok_le; [|exact Hok']. lia.
    - destruct (Hsame k) as [E1 E2]; [by eapply moves_in|]. by apply (moves_same m w).
    - destruct (Hsame k') as [E1 E2]; [by eapply moves_in|]. by apply (moves_same m w). }
  intros ds w3 Hprep. pose proof Hprep as [Hok3 Ht3 Hf3 Hfresh Hi3 Ha3 _].
  unfold apply_desired_peers.
  apply (wp_for_each _ (λ rest w', applying lim n ds w3 (dom (installed (client w))) rest w' ∧ k ∈ rest ∧ k' ∈ rest)).
  - split_and!; [|by eapply keys_in_order_elem, (fresh_in m), moves_in..].
    apply applying_start; [|done|intros x; by apply (prepared_actual n m)].
    eapply client_ok_le; [|exact Hok3]. pose proof (fresh_size _ _ Hfresh). lia.
  - intros x rest w1 (Happ & Hin & Hin').
    eapply wp_mono; [by apply (exchange_step n m ds w w3 _ k k' a a')|].
    intros [[]|e] w2 Hw2; cbn beta iota; [done|]. destruct Hw2 as (? & ? & ? & ? & ?). exists e.
    split_and!; auto.
  - intros w1 (_ & []%not_elem_of_nil & _).
Qed.

(** ** Sampling the health of the peers *)

Lemma select_policy_self i p : wf_desired p → select_policy (active_policy_index p) (select_policy i p) = p.
Proof.
  intros [Hlt Hr _]. destruct p as [key ips ka ps rt act]. unfold select_policy, active_policy_index in *.
  cbn in *. rewrite !Nat.min_l by lia. by rewrite Hr.
Qed.

Lemma select_policy_active p : wf_desired p → select_policy (active_policy_index p) p = p.
Proof. apply (select_policy_self O). Qed.

Lemma select_policy_index i p : (i < length (desired_policies p))%nat → active_policy_index (select_policy i p) = i.
Proof. intros. unfold active_policy_index, select_policy. cbn. lia. Qed.

Lemma sound_select k i p : sound_peer admits routes_cap k p → sound_peer admits routes_cap k (select_policy i p).
Proof. intros []. split; try done. by apply wf_select_policy. Qed.

(** Only the selections differ from [w], and what was in step still is. *)
Record reselected w w' : Prop := {
  reselected_directories : directories (this w') = directories (this w);
  reselected_last : last_applied_map_updated_at (this w') = last_applied_map_updated_at (this w);
  reselected_peers k :
    match desired (this w) !! k with
    | Some p => ∃ i, desired (this w') !! k = Some (select_policy i p) ∧
        (synced k p w → synced k (select_policy i p) w')
    | None => desired (this w') !! k = None
    end
}.

Lemma reselected_refl w : sound_peers admits routes_cap (desired (this w)) → reselected w w.
Proof.
  intros Hs. split; [done..|]. intros k. destruct (desired (this w) !! k) as [p|] eqn:E; [|done].
  exists (active_policy_index p). rewrite select_policy_active; [done|]. by apply (Hs k).
Qed.

Lemma reselected_trans w w' w'' : reselected w w' → reselected w' w'' → reselected w w''.
Proof.
  intros [E1 E2 Hp] [E1' E2' Hp']. split; [congruence..|]. intros k. specialize (Hp k). specialize (Hp' k).
  destruct (desired (this w) !! k) as [p|]; [|by rewrite Hp in Hp'].
  destruct Hp as (i & E & Hi). rewrite E in Hp'. destruct Hp' as (j & E' & Hj).
  exists j. split; [done|]. intros Hsy. by apply Hj, Hi.
Qed.

Lemma reselected_sound w w' :
  reselected w w' → sound_peers admits routes_cap (desired (this w)) → sound_peers admits routes_cap (desired (this w')).
Proof.
  intros [_ _ Hp] Hs k p E. specialize (Hp k). destruct (desired (this w) !! k) as [p0|] eqn:E0; [|congruence].
  destruct Hp as (i & E' & _). rewrite E in E'. simplify_eq. by apply sound_select, Hs.
Qed.

(** The peer [k] is reselected; nothing else changes. *)
Lemma reselected_one w w' k p i :
  sound_peers admits routes_cap (desired (this w)) →
  directories (this w') = directories (this w) →
  last_applied_map_updated_at (this w') = last_applied_map_updated_at (this w) →
  (∀ k', k' ≠ k → same_at lim k' w w') → desired (this w) !! k = Some p →
  desired (this w') = <[k := select_policy i p]> (desired (this w)) →
  (synced k p w → synced k (select_policy i p) w') → reselected w w'.
Proof.
  intros Hs E1 E2 Hsame Hp E Hsy. split; [done..|]. intros k'. rewrite E.
  destruct (decide (k' = k)) as [->|Hne].
  - rewrite Hp. exists i. by rewrite lookup_insert_eq.
  - rewrite lookup_insert_ne by done. destruct (desired (this w) !! k') as [p'|] eqn:Ep; [|done].
    exists (active_policy_index p'). rewrite select_policy_active by (by apply (Hs k')). split; [done|].
    apply (synced_same lim k' p' w w'). by apply Hsame.
Qed.

(** Moving the peer to another policy, or back when the device refuses. *)
Lemma act_on_wp n k p d previous h w :
  client_ok n (client w) → tracked lim w → sound_peers admits routes_cap (desired (this w)) →
  is_Some (installed (client w) !! k) → desired (this w) !! k = Some p → healths (this w) !! k = Some h →
  active_policy previous = active_policy_index p → map route (policies previous) = keys (desired_policies p) →
  active_policy h = decided_policy d (active_policy_index p) → (active_policy h < length (desired_policies p))%nat →
  map route (policies h) = keys (desired_policies p) →
  wp (act_on lim k d previous (active_policy_index p))
    (λ r w', client_ok n (client w') ∧ tracked lim w' ∧
      directories (this w') = directories (this w) ∧
      last_applied_map_updated_at (this w') = last_applied_map_updated_at (this w) ∧
      (∀ k', k' ≠ k → same_at lim k' w w') ∧
      ∃ i, desired (this w') = <[k := select_policy i p]> (desired (this w)) ∧
        (applied_config_fingerprints (this w) !! k = Some (from_config (rendered p (active_policy_index p))) →
         synced k (select_policy i p) w')) w.
Proof.
  intros Hok Ht Hs Hin Hp Hh Hpa Hpr Hha Hlt Hhr. pose proof (Hs k p Hp) as [Hwf Hkey Hips Hadm Hroutes].
  destruct (decision_cases d) as [(i & reason & ->)|Hno].
  2: { assert (act_on lim k d previous (active_policy_index p) = ret tt) as -> by (by destruct d; try by edestruct Hno).
       apply wp_ret. split_and!; [done..|]. exists (active_policy_index p). rewrite select_policy_active by done.
       split; [by rewrite insert_id|]. intros Ha. split; [done|]. exists h. split_and!; [done| |done].
       rewrite Hha. by destruct d; try by edestruct Hno. }
  cbn [decided_policy] in Hha. subst i. unfold act_on. wp_steps. unfold apply_active_policy. wp_steps.
  rewrite Hp. wp_steps. set (p' := select_policy (active_policy h) p).
  set (w1 := World (set_desired (<[k := p']> (desired (this w))) (this w)) (client w) (rng w)).
  rewrite config_eq. assert (tracked lim w1) as Ht1 by (destruct Ht; by split).
  assert (Forall ip_net_valid (config_allowed_ips (rendered p' (active_policy_index p')))) as Hv by (by apply rendered_valid).
  eapply wp_mono.
  { apply (install_wp lim n k p' w1 (update_peer (rendered p' (active_policy_index p')))); [done|done| |].
    - exact (update_peer_law n _ (client w1) Hok Hv (Hadm _)).
    - intros e c E. exists n, c. right. split_and!; [done| |done]. cbn. by rewrite Hkey. }
  intros r w2 (Hok2 & Ht2 & [Kd Ke Kl Ki Ka Kh] & Eh & Hout). cbn [this set_desired directories desired last_applied_map_updated_at] in *.
  destruct r as [[]|e].
  - apply wp_ret. destruct Hout as (Ha2 & _ & _). split_and!; [done..|intros k' Hne; split_and!; auto|].
    exists (active_policy h). split; [done|]. intros _. split; [done|]. exists h.
    rewrite select_policy_index by done. split_and!; [|done|done]. by rewrite Eh.
  - destruct Hout as (Ei & Ea & _). unfold insert_health. wp_steps.
    rewrite (inserted_fits lim _ (installed (client w2))); [|apply Ht2| |by eapply installed_fits].
    2: { rewrite Ei. exact Hin. }
    wp_steps. cbn [this set_healths desired]. rewrite Ke. unfold w1. cbn [this set_desired desired].
    rewrite lookup_insert_eq. unfold p'. rewrite select_policy_self by done. wp_steps.
    cbn [this client set_desired set_healths directories last_applied_map_updated_at desired].
    split_and!; [done| |done..| |].
    + destruct Ht2 as [Ha2 Hh2]. split; cbn; [done|]. intros k'. destruct (decide (k' = k)) as [->|Hne].
      * intros _. rewrite Ei. exact Hin.
      * rewrite lookup_insert_ne by done. apply Hh2.
    + intros k' Hne. unfold same_at. cbn. rewrite lookup_insert_ne by done. split_and!; auto.
    + exists (active_policy_index p). rewrite select_policy_active, insert_insert_eq by done.
      split; [done|]. intros Ha. split; cbn; [by rewrite Ea|]. exists previous. by rewrite lookup_insert_eq.
Qed.

(** The invariant of the reconciler and its device, with [n] more peers that
    may be added. *)
Record wf_world n w : Prop := {
  wf_client : client_ok n (client w);
  wf_tracked : tracked lim w;
  wf_sound : sound_peers admits routes_cap (desired (this w));
  wf_room : within_capacity (max_peers lim) (size (desired (this w)))
}.

Lemma reselected_size w w' : reselected w w' → size (desired (this w')) = size (desired (this w)).
Proof.
  intros [_ _ Hp]. rewrite <- !size_dom. f_equal. apply set_eq. intros k. rewrite !elem_of_dom. specialize (Hp k).
  destruct (desired (this w) !! k) as [p|]; [destruct Hp as (i & -> & _)|rewrite Hp]; done.
Qed.

Lemma wf_reselected n w w' :
  wf_world n w → client_ok n (client w') → tracked lim w' → reselected w w' → wf_world n w'.
Proof.
  intros [_ _ Hs Hr] Hok Ht Hre. split; [done|done|by eapply reselected_sound|by rewrite (reselected_size w)].
Qed.

Lemma reconcile_key_health_wp n now k w :
  wf_world n w → wp (reconcile_key_health lim routes_cap now k) (λ _ w', wf_world n w' ∧ reselected w w') w.
Proof.
  intros Hwf. pose proof Hwf as [Hok Ht Hs _]. pose proof (reselected_refl w Hs) as Hrefl.
  unfold reconcile_key_health. wp_steps. destruct (desired (this w) !! k) as [p|] eqn:Hp; [|by apply wp_ret].
  pose proof (Hs k p Hp) as [Hwfp _ _ _ Hroutes]. wp_steps. rewrite route_keys_room by done.
  destruct (length (desired_policies p) <=? 1)%nat eqn:Hlen; [by apply wp_ret|]. apply Nat.leb_gt in Hlen.
  apply wp_bind. destruct (get_peer_law n k (client w) Hok) as (r & c & E & Hok1 & Hi1 & Hin).
  assert (tracked lim (World (this w) c (rng w))) as Ht1 by (destruct Ht; split; cbn; by rewrite Hi1).
  eapply wp_call; [exact E|]. destruct r as [info|e]; cbn [map_err].
  2: { assert (reselected w (World (this w) c (rng w))) by (destruct Hrefl as [? ? Hre]; split; [done..|exact Hre]).
       split; [by apply (wf_reselected n w)|done]. }
  assert (is_Some (installed c !! k)) as Hin' by (rewrite Hi1; by apply Hin).
  apply wp_bind. apply (track_active_policy_wp lim routes_cap n); [done|done|done|by unfold keys; rewrite length_map|].
  intros w2 previous Ht2 Hc2 Hd2 Hk2 Ha2 Hh2 Hact Hr2. cbn [this client] in *. wp_steps. rewrite Hh2.
  unfold keys in Hact. rewrite length_map in Hact. fold (active_policy_index p) in Hact.
  assert (within_capacity routes_cap (length (keys (desired_policies p)))) as Hcap by (unfold keys; by rewrite length_map).
  assert (keys (desired_policies p) ≠ []) as Hne by (destruct (desired_policies p); [simpl in Hlen; lia|done]).
  pose proof (observe_selection routes_cap previous (info_stats info) (keys (desired_policies p)) now Hcap Hne) as Hobs.
  destruct (observe routes_cap previous _ _ now) as [d h]. destruct Hobs as (Hhr & Hha & Hhlt & _).
  unfold keys in Hhlt, Hha. rewrite length_map in Hhlt, Hha. wp_steps.
  set (w3 := World _ _ _).
  assert (tracked lim w3) as Ht3.
  { destruct Ht2 as [Ha Hh]. split; cbn; [done|]. intros k'. destruct (decide (k' = k)) as [->|Hnk].
    - intros _. by rewrite Hc2.
    - rewrite lookup_insert_ne by done. apply Hh. }
  assert (Nat.min (active_policy previous) (length (desired_policies p) - 1) = active_policy_index p)%nat as Hmin.
  { rewrite Hact. unfold active_policy_index. lia. }
  rewrite Hmin in Hha. eapply wp_mono.
  { apply (act_on_wp n k p d previous h w3); unfold w3; cbn [this client set_healths desired healths]; try done;
      rewrite ?Hc2, ?Hd2; try done; [by rewrite lookup_insert_eq|].
    rewrite Hact. unfold active_policy_index. lia. }
  intros r w4 (Hok4 & Ht4 & Ed & El & Hsame & i & Edes & Hsy).
  unfold w3 in Hsame, Ed, El, Edes, Hsy.
  cbn [this client set_healths desired directories last_applied_map_updated_at applied_config_fingerprints] in *.
  assert (reselected w w4) as Hre.
  { destruct Hk2 as [Kd _ Kl Ki Ka Kh]. cbn [this client] in *.
    apply (reselected_one w w4 k p i); [done|congruence|congruence| |done|congruence|].
    - intros k' Hne'. unfold same_at. destruct (Hsame k' Hne') as (-> & -> & ->).
      cbn [this client set_healths applied_config_fingerprints healths].
      rewrite lookup_insert_ne, Ki, Ka, Kh, Hi1 by done. done.
    - intros [Hfp _]. apply Hsy. by rewrite Ha2. }
  split; [by apply (wf_reselected n w)|done].
Qed.

Lemma health_pass_wp n now w :
  wf_world n w → wp (reconcile_peer_health_at lim routes_cap now) (λ _ w', wf_world n w' ∧ reselected w w') w.
Proof.
  intros Hwf. unfold reconcile_peer_health_at. wp_steps.
  rewrite push_all_room by (rewrite length_keys_in_order, Nat.add_0_r; apply Hwf). cbn [app].
  apply (wp_for_each _ (λ _ w', wf_world n w' ∧ reselected w w')).
  - split; [done|]. by apply reselected_refl, Hwf.
  - intros k rest w1 [Hwf1 Hre1]. eapply wp_mono; [by apply reconcile_key_health_wp|].
    intros [[]|e] w2 [Hwf2 Hre2]; (split; [done|by eapply reselected_trans]).
  - by intros w1 ?.
Qed.

(** C22: a pass over the health of the peers always returns and keeps the
    invariant. It only changes which policies are selected, and every peer
    whose fingerprint, health and selection agreed still agrees afterwards, also
    when the device refuses a switch and the pass stops there. *)
Theorem health_pass_outcomes n now w :
  wf_world n w →
  ∃ r w', reconcile_peer_health_at lim routes_cap now w = Some (r, w') ∧ wf_world n w' ∧ reselected w w'.
Proof. apply health_pass_wp. Qed.

Lemma wf_map_outcome n m w r w' :
  wf_world (n + length (map_peers m)) w → map_ok m → client_ok n (client w') → tracked lim w' →
  map_outcome m w r w' → wf_world n w'.
Proof.
  intros [_ _ Hs Hr] Hm Hok Ht Hout. destruct r as [[]|e].
  - destruct Hout as [_ [_ Hin Hout _ _ _]].
    assert (fresh m (desired (this w'))) as Hf.
    { split; [done|]. intros k Hk. destruct (Hin k Hk) as (p & ? & ? & ? & _). by exists p. }
    split; [done|done|by eapply fresh_sound|].
    eapply within_capacity_le; [by apply fresh_size|]. apply Hm.
  - destruct Hout as [_ ->]. by split.
  - destruct Hout as [(_ & E & _) _]. split; [done|done|by rewrite E..].
Qed.

(** ** The loop *)

Definition tick_ok (t : tick) : Prop :=
  match t with
  | MapTick (Some m) _ => map_ok m
  | _ => True
  end.

(** The peers that the maps of some ticks may add. *)
Definition additions (t : tick) : nat :=
  match t with
  | MapTick (Some m) _ => length (map_peers m)
  | _ => O
  end.

Lemma run_tick_wp n t w :
  tick_ok t → wf_world (n + additions t) w →
  wp (run_tick lim routes_cap usize_bits t) (λ _ w', wf_world n w') w.
Proof.
  intros Hok Hwf. destruct t as [[m|] now|now]; cbn [run_tick additions tick_ok] in *.
  - unfold fetch_and_reconcile_network_map. wp_steps. cbn [ok_or]. apply wp_bind.
    eapply wp_mono; [apply (reconcile_network_map_wp n m now w Hok); apply Hwf|].
    intros r w' (Hok' & Ht' & Hout). pose proof (wf_map_outcome n m w r w' Hwf Hok Hok' Ht' Hout).
    destruct r as [b|e]; [by apply wp_ret|done].
  - unfold fetch_and_reconcile_network_map. wp_steps. cbn [ok_or]. by rewrite Nat.add_0_r in Hwf.
  - rewrite Nat.add_0_r in Hwf. eapply wp_mono; [by apply health_pass_wp|]. by intros r w' [? _].
Qed.

Lemma run_spec n ticks w :
  Forall tick_ok ticks → wf_world (n + sum_list_with additions ticks) w →
  ∃ w', run lim routes_cap usize_bits ticks w = Some w' ∧ wf_world n w'.
Proof.
  revert w; induction ticks as [|t ticks IH]; intros w Hok Hwf; cbn in Hwf |- *.
  { exists w. by rewrite Nat.add_0_r in Hwf. }
  inversion Hok as [|? ? Ht Hts]; subst.
  rewrite (Nat.add_comm (additions t)), Nat.add_assoc in Hwf.
  destruct (run_tick_wp _ t w Ht Hwf) as (r & w1 & -> & Hwf1). cbn [mbind option_bind]. by apply IH.
Qed.

(** A new reconciler, on a device that may have peers already. *)
Lemma wf_world_new n dirs c (g : R) : client_ok n c → wf_world n (World (reconciler_new dirs) c g).
Proof.
  intros Hok. split; cbn; [done|split; cbn|by intros k p Hp|].
  - by intros k fp Hfp.
  - by intros k [h Hh].
  - rewrite map_size_empty. by destruct (max_peers lim); simpl; [lia|].
Qed.

(** The loop of the reconciler never panics and keeps the invariant,
    whatever the order of its ticks, the maps it fetches and the failures of the
    device, while the device has indexes for the peers of the maps. *)
Theorem run_never_panics n ticks w :
  Forall tick_ok ticks → wf_world (n + sum_list_with additions ticks) w →
  ∃ w', run lim routes_cap usize_bits ticks w = Some w' ∧ wf_world n w'.
Proof. apply run_spec. Qed.
End spec.

#[global] Arguments map_ok lim admits routes_cap m : clear implicits.
#[global] Arguments tick_ok lim admits routes_cap t : clear implicits.

(** ** A model device *)

(** A device that is its configuration and installs at most one address per
    peer. *)
Definition taken (shown : gmap bytes view) (key : bytes) (ip : ip_addr) : Prop :=
  map_Exists (λ k v, k ≠ key ∧ set_Exists (λ b, Table.contains b ip = true) (view_blocks v)) shown.

#[local] Instance taken_dec shown key ip : Decision (taken shown key ip).
Proof. unfold taken. apply _. Defined.

Definition model_install (c : peer_config) (shown : gmap bytes view) : result unit error * gmap bytes view :=
  let installed := <[config_public_key c := config_view c]> shown in
  match config_allowed_ips c with
  | [] => (Ok tt, installed)
  | [NetV4 (Ipv4Net a 32)] =>
      if decide (taken shown (config_public_key c) (IpV4 a)) then (Err AllowedIPOverlap, shown) else (Ok tt, installed)
  | [NetV6 (Ipv6Net a 128)] =>
      if decide (taken shown (config_public_key c) (IpV6 a)) then (Err AllowedIPOverlap, shown) else (Ok tt, installed)
  | _ => (Err Io, shown)
  end.

Definition model_device : device_client (gmap bytes view) := {|
  add_peer c shown := Some (model_install c shown);
  update_peer c shown := Some (model_install c shown);
  remove_peer k shown := Some (Ok tt, delete k shown);
  get_peer k shown :=
    Some (match shown !! k with
          | Some _ => Ok (PeerInfo None (PeerStats 0 0))
          | None => Err PeerNotFound
          end, shown);
  list_peers shown := Some (Ok (dom shown), shown)
|}.

Definition no_bounds : limits := Limits None None.

(** The one address of a configuration is taken exactly when it clashes. *)
Lemma taken_clash c shown ip :
  config_allowed_ips c = [host ip] → ip_addr_valid ip →
  taken shown (config_public_key c) ip ↔ clash shown c.
Proof.
  intros Hc Hip. unfold clash, taken. rewrite Hc. cbn [map]. rewrite host_normal by done. split.
  - intros (k & v & Hk & Hne & b & Hb & Hcb). exists (host ip), b. split; [by left|]. split; [|by right; exists k, v].
    exists ip. split_and!; [done|by apply host_contains|done].
  - intros (b & b' & ->%list_elem_of_singleton & (a & Ha & Hca%host_contains & Hcb) & Hor); [|done|done]. subst a.
    destruct Hor as [[->%list_elem_of_singleton ?]|(k & v & Hne & Hk & Hb')]; [done|].
    exists k, v. split_and!; [done..|]. by exists b'.
Qed.

Lemma model_install_law c shown :
  Forall ip_net_valid (config_allowed_ips c) → installs c shown (model_install c shown).2 (model_install c shown).1.
Proof.
  intros Hv. assert (∀ ip, config_allowed_ips c = [host ip] → ip_addr_valid ip →
    let r := if decide (taken shown (config_public_key c) ip) then (Err AllowedIPOverlap, shown)
             else (Ok tt, <[config_public_key c := config_view c]> shown) in installs c shown r.2 r.1) as Hone.
  { intros ip Hc Hip r. unfold r. pose proof (taken_clash c shown ip Hc Hip). case_decide; cbn; tauto. }
  unfold model_install. destruct (config_allowed_ips c) as [|n l] eqn:E.
  { split; [done|]. intros (b & b' & Hb & _). rewrite E in Hb. by apply not_elem_of_nil in Hb. }
  apply Forall_cons in Hv as [Hn _].
  destruct n as [[a p]|[a p]], l as [|n' l]; try (by repeat case_match; split).
  - destruct (decide (p = 32)) as [->|Hne]; [apply (Hone (IpV4 a)); [done|apply Hn]|].
    assert (∀ x y, match p with 32 => x | _ => y end = y) as -> by (intros; by repeat case_match).
    by split.
  - destruct (decide (p = 128)) as [->|Hne]; [apply (Hone (IpV6 a)); [done|apply Hn]|].
    assert (∀ x y, match p with 128 => x | _ => y end = y) as -> by (intros; by repeat case_match).
    by split.
Qed.

#[local] Existing Instances model_device merge_policies merge_policies_laws counting toy_order toy_order_laws.

#[local] Program Instance model_device_laws : device_client_laws no_bounds any_config (gmap bytes view) := {|
  client_ok _ _ := True;
  installed shown := shown
|}.
Next Obligation. done. Qed.
Next Obligation. done. Qed.
Next Obligation.
  intros n c shown _ Hv _ _. eexists _, _. split; [cbn; by rewrite (surjective_pairing (model_install c shown))|].
  split; [done|]. by apply model_install_law.
Qed.
Next Obligation.
  intros n c shown _ Hv _. eexists _, _. split; [cbn; by rewrite (surjective_pairing (model_install c shown))|].
  split; [done|]. by apply model_install_law.
Qed.
Next Obligation. intros n k shown _. by eexists _, _. Qed.
Next Obligation. intros n k shown _. eexists _, shown. split; [done|]. by destruct (shown !! k). Qed.
Next Obligation. intros n shown _. eexists _, shown. split_and!; [done..|]. by intros ks [= <-]. Qed.

Lemma model_device_reliable : reliable_client no_bounds (C := gmap bytes view).
Proof.
  split; [done|done|]. intros cfg shown e ips (n & s' & Href) Hc Hips Hlen.
  assert (model_install cfg shown = (Err e, s')) as E by (destruct Href as [(_ & _ & [= <-])|(_ & _ & [= <-])]; done).
  unfold model_install in E. rewrite Hc in E. destruct ips as [|ip [|]]; [done| |simpl in Hlen; lia].
  destruct ip; cbn in E; by case_decide; simplify_eq.
Qed.

(** The fields of a configuration that matter below. *)
Definition toy_hash : config_hash := {| from_config c :=
  foldr (λ n acc, match n with NetV4 m => v4_addr m | NetV6 m => v6_addr m end + 1 + 8 * acc)
    (default 0 (config_keepalive c)) (config_allowed_ips c) +
  1000 * match config_relay c with Some _ => 1 | None => 0 end |}.
#[local] Existing Instance toy_hash.

(** Two peers with the addresses [x] and [y]; the first can also be reached
    through the second. *)
Definition toy_map (t x y : Z) : network_map := NetworkMap t
  [MapPeer 1 [1] (Some (IpV4 x)) false [MapRoute 0 (RouteDirect None); MapRoute 9 (RouteRelay 2)];
   MapPeer 2 [2] (Some (IpV4 y)) true []].

Definition toy_world : world (gmap bytes view) Z := World (reconciler_new []) ∅ 7.
Definition toy_apply (t x y : Z) (w : world (gmap bytes view) Z) :=
  reconcile_network_map no_bounds None 64 (toy_map t x y) 0 w.
(** After the map with the addresses 10 and 20. *)
Definition toy_applied : world (gmap bytes view) Z :=
  match toy_apply 1 10 20 toy_world with
  | Some (_, w) => w
  | None => toy_world
  end.

Lemma toy_map_ok t x y : in_width 32 x → in_width 32 y → map_ok no_bounds any_config None (toy_map t x y).
Proof.
  intros Hx Hy. split; [by split| |done]. intros mp ip Hmp Hip. cbn in Hmp. rewrite !elem_of_cons, elem_of_nil in Hmp.
  destruct Hmp as [->|[->|[]]]; cbn in Hip; by simplify_eq.
Qed.

Lemma toy_wf : wf_world no_bounds None 9 toy_applied.
Proof.
  destruct (reconcile_network_map_wp no_bounds None 64 9 (toy_map 1 10 20) 0 toy_world) as (r & w' & E & Hok & Ht & Ho);
    [by apply toy_map_ok|done|by apply (wf_world_new no_bounds None O)|].
  unfold toy_applied. change (toy_apply 1 10 20 toy_world) with
    (reconcile_network_map no_bounds None 64 (toy_map 1 10 20) 0 toy_world). rewrite E. clear E.
  apply (wf_map_outcome no_bounds None 9 (toy_map 1 10 20) toy_world r w');
    [by apply wf_world_new|by apply toy_map_ok|exact Hok|exact Ht|exact Ho].
Qed.

Lemma toy_tracked : tracked no_bounds toy_applied.
Proof. apply toy_wf. Qed.

#[local] Opaque toy_applied.

Lemma network_map_outcomes_witness :
  map_ok no_bounds any_config None (toy_map 1 10 20) ∧
  (∃ w', toy_apply 1 10 20 toy_world = Some (Ok true, w') ∧ map_applied no_bounds None (toy_map 1 10 20) toy_world w') ∧
  ∃ w', toy_apply 1 30 20 toy_applied = Some (Ok false, w') ∧ w' = toy_applied.
Proof.
  split; [by apply toy_map_ok|]. split.
  - destruct (network_map_outcomes no_bounds None 64 9 (toy_map 1 10 20) 0 toy_world) as (r & w' & E & _ & _ & Hr);
      [by apply toy_map_ok|done|by apply (wf_world_new no_bounds None O)|].
    assert (fst <$> toy_apply 1 10 20 toy_world = Some (Ok true)) as Er by (vm_compute; reflexivity).
    unfold toy_apply in *. rewrite E in Er |- *. cbn in Er. injection Er as ->. exists w'. split; [done|]. apply Hr.
  - destruct (network_map_outcomes no_bounds None 64 9 (toy_map 1 30 20) 0 toy_applied) as (r & w' & E & _ & _ & Hr);
      [by apply toy_map_ok|exact I|exact toy_tracked|].
    assert (fst <$> toy_apply 1 30 20 toy_applied = Some (Ok false)) as Er by (vm_compute; reflexivity).
    unfold toy_apply in *. rewrite E in Er |- *. cbn in Er. injection Er as ->. exists w'. split; [done|]. apply Hr.
Defined.

(** The first peer moves to a free address. *)
Lemma network_map_converges_witness :
  no_conflict (toy_map 2 30 20) (client toy_applied) ∧
  ∃ w', toy_apply 2 30 20 toy_applied = Some (Ok true, w') ∧ map_applied no_bounds None (toy_map 2 30 20) toy_applied w'.
Proof.
  assert (∀ mp, last_with_key (map_peers (toy_map 2 30 20)) mp →
    mp = MapPeer 1 [1] (Some (IpV4 30)) false [MapRoute 0 (RouteDirect None); MapRoute 9 (RouteRelay 2)] ∨
    mp = MapPeer 2 [2] (Some (IpV4 20)) true []) as Hpeers.
  { intros mp Hmp%last_with_key_elem. cbn in Hmp. rewrite !elem_of_cons, elem_of_nil in Hmp. naive_solver. }
  assert (no_conflict (toy_map 2 30 20) (client toy_applied)) as Hnc.
  { split.
    - intros mp mp' ip [-> | ->]%Hpeers [-> | ->]%Hpeers; cbn; by intros [= <-].
    - intros mp ip k v [-> | ->]%Hpeers [= <-] _ Hne Hv b Hb; cbn in Hne; apply not_true_iff_false; intros Hc.
      + assert (bool_decide (taken (client toy_applied) [1] (IpV4 30)) = false) as Hno%bool_decide_eq_false_1
          by (vm_compute; reflexivity).
        apply Hno. exists k, v. split; [exact Hv|]. split; [exact Hne|]. exists b. split; [exact Hb|exact Hc].
      + assert (bool_decide (taken (client toy_applied) [2] (IpV4 20)) = false) as Hno%bool_decide_eq_false_1
          by (vm_compute; reflexivity).
        apply Hno. exists k, v. split; [exact Hv|]. split; [exact Hne|]. exists b. split; [exact Hb|exact Hc]. }
  split; [exact Hnc|].
  destruct (network_map_converges (H5 := model_device_reliable) no_bounds None 64 9
    (toy_map 2 30 20) 0 toy_applied) as (w' & ? & _ & _ & ?); [by apply toy_map_ok|exact I|exact toy_tracked| |exact Hnc|].
  - vm_compute. reflexivity.
  - exists w'. split; assumption.
Defined.

Lemma toy_last t x y mp : mp ∈ map_peers (toy_map t x y) → last_with_key (map_peers (toy_map t x y)) mp.
Proof.
  cbn. rewrite !elem_of_cons, elem_of_nil. intros [->|[->|[]]].
  - eexists [], [_]. split; [reflexivity|]. by intros [=]%list_elem_of_singleton.
  - eexists [_], []. split; [reflexivity|]. apply not_elem_of_nil.
Qed.

Lemma toy_block c n : config_allowed_ips c = [n] → Table.normalize n = n → n ∈ view_blocks (config_view c).
Proof. intros Hc Hn. cbn. rewrite Hc. cbn. rewrite Hn. set_solver. Qed.

(** A move that the map [toy_map 2 20 10] asks for; [fp] is the cached fingerprint. *)
Lemma toy_moves (w : world (gmap bytes view) Z) mp c fp x y :
  mp ∈ map_peers (toy_map 2 20 10) → tunnel_ip mp = Some (IpV4 y) → in_width 32 x → 0 ≤ y →
  installed (client w) !! map_public_key mp = Some (config_view c) → config_allowed_ips c = [host (IpV4 x)] →
  applied_config_fingerprints (this w) !! map_public_key mp = Some fp → fp < 1000 →
  y + 1 + 8 * default 0 (if is_directory mp then Some 25 else None) ≠ fp →
  moves no_bounds (toy_map 2 20 10) w (map_public_key mp) (IpV4 x) (IpV4 y).
Proof.
  intros Hmp Hy Hx Hy0 Hi Hc Hfp Hlt Hne. split; [done|exists mp; split_and!; [by apply toy_last|done|done]| |].
  - exists (config_view c). split; [done|]. apply toy_block; [done|by apply host_normal].
  - intros p (mp' & Hmp' & Hk & [_ Ei Ek _ _]).
    rewrite (last_with_key_unique _ _ _ Hmp' (toy_last _ _ _ _ Hmp) Hk) in Ei, Ek.
    rewrite Hfp. unfold rendered, from_config, toy_hash. cbn. rewrite Ei, Ek, Hy. cbn.
    intros [= E]. destruct (rendered_relay p _); [|lia].
    destruct (is_directory mp); simpl in *; lia.
Qed.

(** The two peers exchange their addresses. *)
Lemma exchanged_addresses_rejected_witness :
  moves no_bounds (toy_map 2 20 10) toy_applied [1] (IpV4 10) (IpV4 20) ∧
  ∃ e w', toy_apply 2 20 10 toy_applied = Some (Err e, w') ∧ stale (toy_map 2 20 10) (this w') = false.
Proof.
  assert (moves no_bounds (toy_map 2 20 10) toy_applied [1] (IpV4 10) (IpV4 20)) as H1.
  { apply (toy_moves toy_applied _ (PeerConfig [1] None [host (IpV4 10)] None None) 11 10 20 (list_elem_of_here _ _));
      [reflexivity|split; [discriminate|reflexivity]|discriminate|vm_compute; reflexivity|reflexivity|vm_compute; reflexivity|reflexivity|discriminate]. }
  assert (moves no_bounds (toy_map 2 20 10) toy_applied [2] (IpV4 20) (IpV4 10)) as H2.
  { apply (toy_moves toy_applied _ (PeerConfig [2] None [host (IpV4 20)] (Some 25) None) 221 20 10
      (list_elem_of_further _ _ _ (list_elem_of_here _ _)));
      [reflexivity|split; [discriminate|reflexivity]|discriminate|vm_compute; reflexivity|reflexivity|vm_compute; reflexivity|reflexivity|discriminate]. }
  split; [exact H1|].
  destruct (exchanged_addresses_rejected no_bounds None 64 9 (toy_map 2 20 10) 0 toy_applied [1] [2] (IpV4 10) (IpV4 20))
    as (e & w' & ? & _ & _ & ? & _); [by apply toy_map_ok|exact I|exact toy_tracked|vm_compute; reflexivity|discriminate|exact H1|exact H2|].
  exists e, w'. split; assumption.
Defined.

Lemma health_pass_outcomes_witness :
  wf_world no_bounds None 9 toy_applied ∧
  ∃ w', reconcile_peer_health_at no_bounds None 5 toy_applied = Some (Ok tt, w') ∧ reselected toy_applied w'.
Proof.
  split; [exact toy_wf|].
  destruct (health_pass_outcomes no_bounds None 9 5 toy_applied toy_wf) as (r & w' & E & _ & Hr).
  assert (fst <$> reconcile_peer_health_at no_bounds None 5 toy_applied = Some (Ok tt)) as Er by (vm_compute; reflexivity).
  rewrite E in Er |- *. cbn in Er. injection Er as ->.
  exists w'. split; [reflexivity|exact Hr].
Defined.

Lemma run_never_panics_witness :
  ∃ w', run no_bounds None 64 [HealthTick 1; MapTick None 2; MapTick (Some (toy_map 1 10 20)) 3;
      MapTick (Some (toy_map 2 20 10)) 4; HealthTick 5] toy_world = Some w' ∧
    last_applied_map_updated_at (this w') = Some 1 ∧ wf_world no_bounds None 0 w'.
Proof.
  destruct (run_never_panics no_bounds None 64 0 [HealthTick 1; MapTick None 2; MapTick (Some (toy_map 1 10 20)) 3;
      MapTick (Some (toy_map 2 20 10)) 4; HealthTick 5] toy_world) as (w' & E & Hwf).
  - rewrite !Forall_cons, Forall_nil. split_and!; cbn; try exact I; by apply toy_map_ok.
  - by apply wf_world_new.
  - exists w'. split; [exact E|]. split; [|exact Hwf].
    assert ((last_applied_map_updated_at ∘ this <$> run no_bounds None 64 [HealthTick 1; MapTick None 2;
      MapTick (Some (toy_map 1 10 20)) 3; MapTick (Some (toy_map 2 20 10)) 4; HealthTick 5] toy_world) = Some (Some 1)) as Er
      by (vm_compute; reflexivity).
    rewrite E in Er. injection Er as Er. exact Er.
Defined.
