(* ===== verification/ReconcilerDevice.v ===== *)
(** * The reconciler on a device

    [CommandClient] of [tendrilix/src/device.rs] keeps the promises that the
    reconciler relies on, so that the reconciler runs on the real device; and
    two defects that only show in the composition: the reconciler makes peers
    relay through peers that are relayed themselves, and it clears the
    endpoints that the device has learned. *)

From S2P Require Import Prelude IpNet AllowedIps Index Timestamper Relay Bounded PacketPool PeerHealth Handshake RateLimiter.
From S2P Require Import Timers Tunn PeerTable Device DeviceSafe DeviceRun Routes Reconciler ReconcilerSafe ReconcilerSpec.

(** ** [CommandClient] *)

(** Something that takes commands to a device and brings back their completions:
    [CommandClient::execute], with what the device does meanwhile. *)
Class executor {P A : Type} (S : Type) := {
  execute : command → S → option (result command_output error * S);
  running : S → device P A
}.

(** [map(|_| ())] and the outputs of the other commands. *)
Definition completed (r : result command_output error) : result unit error :=
  match r with
  | Ok _ => Ok tt
  | Err e => Err e
  end.

Definition peer_info_of (r : result command_output error) : result peer_info error :=
  match r with
  | Ok (OutputPeerInfo info) => Ok info
  | Ok _ => Err Io
  | Err e => Err e
  end.

Definition peer_keys_of (r : result command_output error) : result (gset bytes) error :=
  match r with
  | Ok (OutputPeerKeys keys) => Ok keys
  | Ok _ => Err Io
  | Err e => Err e
  end.

#[export] Instance command_client {P A S} `{executor P A S} : device_client S := {|
  add_peer c s := let! '(r, s) := execute (Add c) s in Some (completed r, s);
  update_peer c s := let! '(r, s) := execute (Update c) s in Some (completed r, s);
  remove_peer k s := let! '(r, s) := execute (Remove k) s in Some (completed r, s);
  get_peer k s := let! '(r, s) := execute (Get k) s in Some (peer_info_of r, s);
  list_peers s := let! '(r, s) := execute List s in Some (peer_keys_of r, s)
|}.

(** ** What the device promises *)

Section device_commands.
Context {P : Type} `{packet_pool P} `{N : noise_crypto} `{MO : map_order_laws} {A : Type} (lim : limits).
Implicit Types (d : device P A).

Definition view_of (p : peer) : view :=
  View (dom (Table.contents (peer_allowed_ips p))) (relay p) (persistent_keepalive (timers (tunnel p))).

Definition shown_by d : gmap bytes view := view_of <$> peers (state d).

Record client_good (n : nat) d : Prop := {
  good_table : wf_table (generator d) (state d);
  good_indexes : Z.of_nat n ≤ Index.remaining (generator d);
  good_room : within_capacity (max_peers lim) (size (peers (state d)))
}.

Lemma shown_blocks d k n :
  (∃ v, shown_by d !! k = Some v ∧ n ∈ view_blocks v) ↔ assigned (state d) n k.
Proof.
  unfold shown_by, assigned. rewrite lookup_fmap. split.
  - intros (v & Hv & Hn). destruct (peers (state d) !! k) as [p|]; [|done]. injection Hv as <-.
    exists p. split; [done|]. cbn in Hn. apply elem_of_dom in Hn as [[] Hn]. done.
  - intros (p & -> & Hn). exists (view_of p). split; [done|]. cbn. apply elem_of_dom. by eexists.
Qed.

Lemma clash_iff d c :
  clash (shown_by d) c ↔ clashes (state d) (config_public_key c) (config_allowed_ips c).
Proof.
  unfold clash, clashes. setoid_rewrite <- shown_blocks. split.
  - intros (n & n' & Hn & Hs & [?|(k & v & ? & ? & ?)]); [|by exists n, n', k; eauto 10].
    exists n, n', (config_public_key c). eauto 10.
  - intros (n & n' & k & Hn & Hs & [[-> ?]|[? (v & ? & ?)]]); exists n, n'; eauto 10.
Qed.

Lemma view_of_config p c :
  (∀ n, Table.contents (peer_allowed_ips p) !! n = Some tt ↔ n ∈ map Table.normalize (config_allowed_ips c)) →
  relay p = config_relay c → persistent_keepalive (timers (tunnel p)) = default 0 (config_keepalive c) →
  view_of p = config_view c.
Proof.
  intros Hn Hr Hk. unfold view_of, config_view. f_equal; [|done..]. apply set_eq. intros n.
  rewrite elem_of_dom, elem_of_list_to_set, <- Hn. split; [|by eexists]. intros [[] ?]. done.
Qed.

Lemma insert_storage_room s key i p r s' :
  insert_peer_storage lim s key i p = (r, s') →
  within_capacity (max_peers lim) (size (peers s)) → within_capacity (max_peers lim) (size (peers s')).
Proof.
  unfold insert_peer_storage. intros E Hs.
  destruct (try_insert_entry (max_peers lim) (peers s) key p) as [m|] eqn:Em; [|by simplify_eq].
  pose proof (try_insert_entry_within _ _ _ _ _ Hs Em).
  destruct (try_insert_entry _ (peers_by_idx s) i key); simplify_eq; [done|]. cbn.
  eapply within_capacity_le; [|done]. rewrite <- !size_dom. apply subseteq_size. set_solver.
Qed.

Lemma add_peer_room s c private_key g stamper now r s' g' :
  add_peer_to_state lim s c private_key g stamper now = Some (r, s', g') →
  within_capacity (max_peers lim) (size (peers s)) → within_capacity (max_peers lim) (size (peers s')).
Proof.
  unfold add_peer_to_state. intros E Hs. case_bool_decide; [by simplify_eq|].
  destruct (new_index g) as [[i g1]|]; [|done]. cbn [mbind option_bind] in E.
  destruct (peer_new _ _ _ _ _ _) as [[p|e]|]; cbn [mbind option_bind] in E; [|by simplify_eq|done].
  destruct (rebuilt_peers_by_ip_with _ _ _ _) as [[routes|e]|]; cbn [mbind option_bind] in E; [|by simplify_eq|done].
  destruct (insert_peer_storage lim s (config_public_key c) i p) as [[]] eqn:Ei; simplify_eq;
    exact (insert_storage_room _ _ _ _ _ _ Ei Hs).
Qed.

(** Replacing an existing peer keeps their number. *)
Lemma insert_existing_size s key p p' : peers s !! key = Some p →
  size (<[key := p']> (peers s)) = size (peers s).
Proof. intros Hp. apply map_size_insert_Some. by eexists. Qed.

Lemma command_add now n c d :
  client_good (S n) d → Forall ip_net_valid (config_allowed_ips c) →
  ∃ r d', handle_peer_update lim d (Add c) now = Some (r, d') ∧ client_good n d' ∧ installs c (shown_by d) (shown_by d') (completed r).
Proof.
  intros [Hwf Hrem Hroom] Hips. cbn [handle_peer_update].
  destruct (add_peer_spec lim (generator d) (state d) c (private_key d) (device_stamper d) now Hwf
    ltac:(lia) Hips) as (r & s' & g' & E & [Hwf' Hout] & Hrem'). rewrite E. cbn [mbind option_bind].
  pose proof (add_peer_room _ _ _ _ _ _ _ _ _ E Hroom) as Hroom'.
  assert (client_good n (set_generator g' (set_state s' d))) as Hgood by (split; cbn; [done|lia|done]).
  destruct r as [[]|e]; eexists _, _; (split; [done|]); (split; [exact Hgood|]); cbn [completed installs].
  - destruct Hout as (Hnone & Hno & p & Hs' & _ & Ht & _ & _ & Hre & Hb). split; [|by rewrite clash_iff].
    unfold shown_by at 1. cbn [set_generator set_state state]. rewrite Hs', fmap_insert. f_equal.
    apply view_of_config; [done|done|]. by rewrite Ht.
  - destruct e; try done; split; try done; unfold shown_by; cbn; try (by rewrite Hout); try (by destruct Hout as (-> & _)).
    intros _. apply clash_iff. apply Hout.
Qed.

Lemma command_update now n c d :
  client_good n d → Forall ip_net_valid (config_allowed_ips c) →
  ∃ r d', handle_peer_update lim d (Update c) now = Some (r, d') ∧ client_good n d' ∧ installs c (shown_by d) (shown_by d') (completed r).
Proof.
  intros [Hwf Hrem Hroom] Hips. cbn [handle_peer_update].
  destruct (update_remove_spec lim (generator d) (state d) c Hwf Hips) as ((r & s' & E & Hwf' & Hout) & _).
  rewrite E. cbn [mbind option_bind].
  assert (size (peers s') = size (peers (state d))) as Hsize.
  { destruct r as [[]|e]; [|destruct e; try done; try (by rewrite Hout); destruct Hout as [E' _]; by rewrite E'].
    destruct Hout as (_ & p & p' & Hp & -> & _). by eapply insert_existing_size. }
  assert (client_good n (set_state s' d)) as Hgood by (split; cbn; [done..|by rewrite Hsize]).
  destruct r as [[]|e]; eexists _, _; (split; [done|]); (split; [exact Hgood|]); cbn [completed installs].
  - destruct Hout as (Hno & p & p' & Hp & Hs' & _ & Ht & _ & Hre & Hb). split; [|by rewrite clash_iff].
    unfold shown_by at 1. cbn [set_state state]. rewrite Hs', fmap_insert. f_equal.
    apply view_of_config; [done|done|]. by rewrite Ht.
  - destruct e; try done; split; try done; unfold shown_by; cbn; try (by rewrite Hout); try (by destruct Hout as (-> & _)).
    intros _. apply clash_iff. apply Hout.
Qed.

Lemma collect_keys_room (l : list bytes) (acc : gset bytes) :
  NoDup l → (∀ k, k ∈ l → k ∉ acc) → within_capacity (max_peers lim) (length l + size acc) →
  collect_keys lim l acc = list_to_set l ∪ acc.
Proof.
  revert acc; induction l as [|k l IH]; intros acc Hnd Hdis Hc; cbn [collect_keys list_to_set]; [set_solver|].
  apply NoDup_cons in Hnd as [Hk Hnd]. unfold try_insert_key.
  assert (has_room (max_peers lim) (size acc) = true) as ->.
  { apply has_room_spec. eapply within_capacity_le; [|exact Hc]. simpl. lia. }
  rewrite orb_true_r, IH; [set_solver|done| |].
  - intros k' Hk'. apply not_elem_of_union. split; [set_solver|]. apply Hdis. by right.
  - rewrite size_union by (specialize (Hdis k ltac:(by left)); set_solver). rewrite size_singleton.
    eapply within_capacity_le; [|exact Hc]. simpl. lia.
Qed.

Lemma peer_keys_room n d : client_good n d → peer_keys lim (state d) = dom (shown_by d).
Proof.
  intros [_ _ Hroom]. unfold peer_keys, shown_by. rewrite collect_keys_room.
  - rewrite dom_fmap_L. apply set_eq. intros k.
    rewrite elem_of_union, elem_of_list_to_set, keys_in_order_elem, elem_of_dom. set_solver.
  - apply keys_in_order_NoDup.
  - set_solver.
  - by rewrite length_keys_in_order, size_empty, Nat.add_0_r.
Qed.

Lemma command_remove now n k d :
  client_good n d →
  ∃ d', handle_peer_update lim d (Remove k) now = Some (Ok OutputNone, d') ∧ client_good n d' ∧ shown_by d' = delete k (shown_by d).
Proof.
  intros [Hwf Hrem Hroom]. eexists. split; [done|].
  destruct (update_remove_spec lim (generator d) (state d) (PeerConfig k None [] None None) Hwf ltac:(constructor))
    as (_ & Hwt & Hp & _). cbn [config_public_key] in Hwt, Hp. split.
  - split; cbn; [done..|]. rewrite Hp. eapply within_capacity_le; [|exact Hroom].
    rewrite <- !size_dom. apply subseteq_size. set_solver.
  - unfold shown_by. cbn. by rewrite Hp, fmap_delete.
Qed.

(** The indexes a command takes, and what the types ask of its blocks. *)
Definition cost (c : command) : nat :=
  match c with
  | Add _ => 1
  | _ => 0
  end.

Definition command_valid (c : command) : Prop :=
  match c with
  | Add c | Update c => Forall ip_net_valid (config_allowed_ips c)
  | _ => True
  end.

(** What a command changes of what the device shows, and what it answers. *)
Definition command_effect (c : command) (before after : gmap bytes view) (r : result command_output error) : Prop :=
  match c with
  | CommandNone => after = before
  | Add c | Update c => installs c before after (completed r)
  | Remove k => r = Ok OutputNone ∧ after = delete k before
  | Get k => after = before ∧ (is_ok r = true → is_Some (before !! k))
  | List => after = before ∧ ∀ ks, peer_keys_of r = Ok ks → ks = dom before
  end.

Lemma command_effects now n c d :
  client_good (cost c + n) d → command_valid c →
  ∃ r d', handle_peer_update lim d c now = Some (r, d') ∧ client_good n d' ∧
    command_effect c (shown_by d) (shown_by d') r.
Proof.
  intros Hd Hc. destruct c as [|c|c|k|k|]; cbn [cost command_valid command_effect Nat.add] in *.
  - by eexists _, d.
  - by apply command_add.
  - by apply command_update.
  - destruct (command_remove now n k d Hd) as (d' & ? & ? & ?). by eexists _, d'.
  - cbn [handle_peer_update]. unfold Device.get_peer, peer_by_key, shown_by. rewrite lookup_fmap.
    by destruct (peers (state d) !! k); eexists _, d.
  - eexists _, d. split_and!; [done..|]. cbn. intros ks [= <-]. by eapply peer_keys_room.
Qed.
End device_commands.

(** What the reconciler is promised holds through anything that takes its
    commands to a device: it starts from a good state, and the command has the
    effect that it has on the device as the client knows it. *)
Class executor_laws {P A : Type} (lim : limits) (admits : peer_config → Prop) (S : Type) `{executor P A S} := {
  serving_ok : nat → S → Prop;
  serving_ok_le n n' s : (n ≤ n')%nat → serving_ok n' s → serving_ok n s;
  serving_ok_good n s : serving_ok n s → client_good lim n (running s);
  execute_law n c s : serving_ok (cost c + n) s → command_valid c →
    match c with Add c | Update c => admits c | _ => True end →
    ∃ r s', execute c s = Some (r, s') ∧ serving_ok n s' ∧
      command_effect c (shown_by (running s)) (shown_by (running s')) r
}.

(** The device keeps every promise of the interface. *)
#[export] Program Instance command_client_laws {P A S} `{E : executor P A S} (lim : limits) (admits : peer_config → Prop)
    `{!executor_laws lim admits S} : device_client_laws lim admits S := {|
  client_ok := serving_ok;
  installed s := shown_by (running s)
|}.
Next Obligation. intros. by eapply serving_ok_le. Qed.
Next Obligation. intros * [Hwf Hrem Hroom]%serving_ok_good. unfold shown_by. by rewrite map_size_fmap. Qed.
Next Obligation.
  intros * Hs Hv Ha _. destruct (execute_law n (Add p) c Hs Hv Ha) as (r & s' & E' & ? & ?).
  exists (completed r), s'. split_and!; [|done..]. cbn [add_peer command_client]. by rewrite E'.
Qed.
Next Obligation.
  intros * Hs Hv Ha. destruct (execute_law n (Update p) c Hs Hv Ha) as (r & s' & E' & ? & ?).
  exists (completed r), s'. split_and!; [|done..]. cbn [update_peer command_client]. by rewrite E'.
Qed.
Next Obligation.
  intros * Hs. destruct (execute_law n (Remove k) c Hs I I) as (r & s' & E' & ? & -> & ?).
  exists (Ok tt), s'. split_and!; [|done..]. cbn [remove_peer command_client]. by rewrite E'.
Qed.
Next Obligation.
  intros * Hs. destruct (execute_law n (Get k) c Hs I I) as (r & s' & E' & ? & ? & Hr).
  exists (peer_info_of r), s'. split_and!; [|done..|].
  - cbn [get_peer command_client]. by rewrite E'.
  - intros Hok. apply Hr. by destruct r.
Qed.
Next Obligation.
  intros * Hs. destruct (execute_law n List c Hs I I) as (r & s' & E' & ? & ? & Hr).
  exists (peer_keys_of r), s'. split_and!; [|done..]. cbn [list_peers command_client]. by rewrite E'.
Qed.

(** ** A device with a life of its own *)

Section between.
Context {P : Type} `{packet_pool P} `{N : noise_crypto} `{MO : map_order_laws} {A : Type} (lim : limits).
(** The [i]-th command is handled at the time [clock i], after [meanwhile i]:
    what else the device did since the command before. *)
Context (clock : nat → Z) (meanwhile : nat → device P A → device P A).

Record serving := Serving { device_of : device P A; handled : nat }.

(** The command is submitted, the device handles it, and its completion is
    returned. *)
Definition execute_between (c : command) (s : serving) : option (result command_output error * serving) :=
  let! '(r, d) := handle_peer_update lim (meanwhile (handled s) (device_of s)) c (clock (handled s)) in
  Some (r, Serving d (S (handled s))).

Definition serving_executor : executor serving := {| execute := execute_between; running := device_of |}.

(** What the device does on its own leaves its configuration alone. *)
Context (Hmeanwhile : ∀ i n d, client_good lim n d →
  client_good lim n (meanwhile i d) ∧ shown_by (meanwhile i d) = shown_by d).

Program Definition serving_executor_laws : @executor_laws _ _ lim any_config serving serving_executor := {|
  serving_ok n s := client_good lim n (device_of s)
|}.
Next Obligation. intros n n' s Hle []. split; [done|lia|done]. Qed.
Next Obligation. done. Qed.
Next Obligation.
  intros n c s Hs Hv _. destruct (Hmeanwhile (handled s) _ _ Hs) as [Hd Hsh].
  destruct (command_effects lim (clock (handled s)) n c _ Hd Hv) as (r & d' & E & Hg & He).
  exists r, (Serving d' (S (handled s))). cbn. unfold execute_between. rewrite E. by rewrite Hsh in He.
Qed.

(** C23: the reconciler on the real device. Started on any consistent device, it
    runs through any sequence of ticks without a panic, whatever the maps say and
    whichever commands are refused, and the tables of the device stay consistent,
    while indexes remain for the peers of the maps. *)
Theorem reconciler_runs_on_device `{policy_sort_laws} `{config_hash} {R} `{random R} routes_cap usize_bits
    n dirs ticks d (g : R) :
  Forall (tick_ok lim any_config routes_cap) ticks → client_good lim (n + sum_list_with additions ticks) d →
  ∃ w', run (H1 := command_client (H := serving_executor)) lim routes_cap usize_bits ticks
      (World (reconciler_new dirs) (Serving d 0) g) = Some w' ∧
    client_good lim n (device_of (client w')).
Proof.
  intros Hok Hd. pose (E := serving_executor). pose (laws := serving_executor_laws). destruct (run_spec lim routes_cap usize_bits n ticks
    (World (reconciler_new dirs) (Serving d 0) g) Hok) as (w' & ? & [Hg _ _ _]).
  - by apply wf_world_new.
  - by exists w'.
Qed.
End between.

(** ** Examples *)

#[local] Existing Instances toy_pool toy_noise toy_order toy_order_laws merge_policies merge_policies_laws counting toy_hash.

Abbreviation toy_serving := (@serving Heap.pool generic_authorizer).

(** A device with peers, on which the reconciler starts. *)
Definition toy_served : device Heap.pool generic_authorizer :=
  Device [1] [] (@rate_limiter_new toy_noise [] 0 [] [] 0) toy_table.1 Heap.new toy_table.2 toy_stamper AllowAll 0.

Definition toy_run (ticks : list tick) : option (world toy_serving Z) :=
  @run toy_order _ _ toy_serving (command_client (H := serving_executor no_limits (λ i, from_secs (Z.of_nat i)) (λ _ d, d))) Z _
    no_limits None 64 ticks (World (reconciler_new []) (Serving toy_served 0) 7).

Lemma reconciler_runs_on_device_witness :
  let ticks := [MapTick (Some (toy_map 1 10 20)) 0; MapTick (Some (toy_map 2 20 10)) 0; HealthTick 5] in
  client_good no_limits 4 toy_served ∧
  ∃ w', toy_run ticks = Some w' ∧ client_good no_limits 0 (device_of (client w')) ∧
    last_applied_map_updated_at (this w') = Some 1.
Proof.
  intros ticks. assert (client_good no_limits 4 toy_served) as Hg.
  { split; [exact wf_toy_table| |exact I]. vm_compute. discriminate. }
  split; [exact Hg|].
  destruct (reconciler_runs_on_device no_limits
    (λ i, from_secs (Z.of_nat i)) (λ _ d, d) ltac:(done) None 64 0 [] ticks toy_served (7 : Z)) as (w' & E & Hw').
  - unfold ticks. rewrite !Forall_cons, Forall_nil. split_and!; cbn; try exact I; by apply toy_map_ok.
  - exact Hg.
  - exists w'. split; [exact E|]. split; [exact Hw'|].
    assert (last_applied_map_updated_at ∘ this <$> toy_run ticks = Some (Some 1)) as Er by (vm_compute; reflexivity).
    unfold toy_run in Er. rewrite E in Er. injection Er as Er. exact Er.
Defined.

(** The device learns the address of the peer [k] before the third command. *)
Definition learns (k : bytes) (i : nat) (d : device Heap.pool generic_authorizer) : device Heap.pool generic_authorizer :=
  match Device.get_peer k d with
  | Some p => if (i =? 2)%nat then Device.set_peer k (set_endpoint (toy_addr 9) p) d else d
  | None => d
  end.

Definition learning_client (k : bytes) : device_client toy_serving :=
  command_client (H := serving_executor no_limits (λ i, from_secs (Z.of_nat i)) (learns k)).

(** A world with an empty device. *)
Definition fresh_world : world toy_serving Z := World (reconciler_new []) (Serving (toy_device []) 0) 7.

(** Applying maps one after the other. *)
Definition toy_maps (k : bytes) (ms : list network_map) : option (world toy_serving Z) :=
  @run toy_order _ _ toy_serving (learning_client k) Z _ no_limits None 64 (map (λ m, MapTick (Some m) 0) ms) fresh_world.

Definition toy_peer (k : Z) (directory : bool) (routes : list map_route) : map_peer :=
  MapPeer k [k] (Some (IpV4 (0x0a000000 + k))) directory routes.

Definition relay_of (k : Z) (w : world toy_serving Z) : option (option bytes) :=
  relay <$> peers (state (device_of (client w))) !! [k].
Definition endpoint_of (k : Z) (w : world toy_serving Z) : option (option socket_addr) :=
  endpoint <$> peers (state (device_of (client w))) !! [k].

(** ** Two defects of the composition *)

(** A map may say that the peer 2 is reached through the relay 3 and the peer 3
    through the relay 4: the reconciler configures exactly that chain, the one
    with which [DeviceRun.chained_relay_panics] makes the device panic. *)
Theorem chained_relays_configured :
  let m := NetworkMap 1 [toy_peer 2 false [MapRoute 0 (RouteRelay 3)]; toy_peer 3 false [MapRoute 0 (RouteRelay 4)];
    toy_peer 4 false [MapRoute 0 (RouteDirect (Some (toy_addr 4)))]] in
  ∃ w, toy_maps [9] [m] = Some w ∧ relay_of 2 w = Some (Some [3]) ∧ relay_of 3 w = Some (Some [4]) ∧
    relay_of 4 w = Some None.
Proof.
  intros m. assert ((λ w, (relay_of 2 w, relay_of 3 w, relay_of 4 w)) <$> toy_maps [9] [m] =
    Some (Some (Some [3]), Some (Some [4]), Some None)) as E by (vm_compute; reflexivity).
  destruct (toy_maps [9] [m]) as [w|]; [|discriminate E]. injection E as E2 E3 E4. by exists w.
Qed.

(** A peer without an advertised endpoint is configured without one, "without
    clearing any endpoint the device may learn"; once the device has learned
    one, a map that changes anything else about the peer clears it. *)
Theorem learned_endpoint_cleared :
  let m t directory := NetworkMap t [toy_peer 2 directory []] in
  (∃ w, toy_maps [2] [m 1 false] = Some w ∧ endpoint_of 2 w = Some None) ∧
  (∃ w, toy_maps [2] [m 1 false; m 2 false] = Some w ∧ endpoint_of 2 w = Some (Some (toy_addr 9))) ∧
  (∃ w, toy_maps [2] [m 1 false; m 2 true] = Some w ∧ endpoint_of 2 w = Some None).
Proof.
  intros m.
  assert (∀ ms e, endpoint_of 2 <$> toy_maps [2] ms = Some e → ∃ w, toy_maps [2] ms = Some w ∧ endpoint_of 2 w = e) as Hw.
  { intros ms e E. destruct (toy_maps [2] ms) as [w|]; [|discriminate E]. injection E as E. by exists w. }
  split_and!; apply Hw; vm_compute; reflexivity.
Qed.
