(* ===== verification/Commands.v ===== *)
(** * Clients of a device and the channels between them

    [CommandClient] and the receiving end in [tendrilix/src/device.rs] as a
    transition system: any number of tasks call the client, the device takes
    their commands between its other events, and a call may be cancelled where
    it awaits. Without cancellation the client refines an atomic device
    ([client_linearizable]); with it, a call may get the answer to another
    ([late_completion]), but none gets stuck ([holder_returns]). *)

From S2P Require Import Prelude IpNet AllowedIps Index Timestamper Relay PacketPool PeerHealth Handshake RateLimiter.
From S2P Require Import Timers Tunn PeerTable Device DeviceSafe DeviceRun Routes Reconciler ReconcilerSafe ReconcilerSpec.
From S2P Require Import ReconcilerDevice.

(** ** Mailboxes *)

(** The channels hold one value: [tokio::sync::watch] in the [std] build and
    the [Signal] of embassy in the others. [receive] is [None] where the source
    would wait; [closes] says whether an end notices that the other is gone. *)
Class mailbox := {
  slot : Type → Type;
  channel {T} : T → slot T;
  send {T} : T → slot T → slot T;
  receive {T} : slot T → option (T * slot T);
  discard {T} : slot T → slot T;
  closes : bool
}.

Class mailbox_laws `{mailbox} := {
  unseen {T} : slot T → option T;
  unseen_channel {T} (v : T) : unseen (channel v) = None;
  unseen_send {T} (v : T) m : unseen (send v m) = Some v;
  unseen_discard {T} (m : slot T) : unseen (discard m) = None;
  receive_unseen {T} (m : slot T) :
    match receive m with
    | Some (v, m') => unseen m = Some v ∧ unseen m' = None
    | None => unseen m = None
    end
}.

Abbreviation completion := (result command_output error).

Section commands.
Context `{B : mailbox} {D : Type}.
(** What the device does with a command, and its other events. *)
Context (serve : command → D → completion → D → Prop) (other : D → D → Prop).

(** Where a call of [execute] is. *)
Inductive call : Type :=
  | Waiting (c : command)    (* for the lock of the channel *)
  | Holding (c : command)    (* the lock, before [discard_current] *)
  | Cleared (c : command)    (* before [submit] *)
  | Submitted (c : command). (* in [wait_next] *)

(** What the loop of the device does. *)
Inductive loop : Type := Selecting | Handling (c : command) | Stopped.

Record system := System {
  calls : gmap nat call;
  owner : option nat;
  submissions : slot command;
  completions : slot completion;
  serving_loop : loop;
  served_device : D;
  clients_alive : bool
}.

Definition stopped (s : system) : bool :=
  match serving_loop s with
  | Stopped => true
  | _ => false
  end.

Definition set_submissions m (s : system) : system :=
  System (calls s) (owner s) m (completions s) (serving_loop s) (served_device s) (clients_alive s).
Definition set_completions m (s : system) : system :=
  System (calls s) (owner s) (submissions s) m (serving_loop s) (served_device s) (clients_alive s).
Definition set_loop l (s : system) : system :=
  System (calls s) (owner s) (submissions s) (completions s) l (served_device s) (clients_alive s).
Definition set_device d (s : system) : system :=
  System (calls s) (owner s) (submissions s) (completions s) (serving_loop s) d (clients_alive s).
Definition set_calls cs (s : system) : system :=
  System cs (owner s) (submissions s) (completions s) (serving_loop s) (served_device s) (clients_alive s).
Definition set_owner o (s : system) : system :=
  System (calls s) o (submissions s) (completions s) (serving_loop s) (served_device s) (clients_alive s).
Definition set_call i p (s : system) : system := set_calls (<[i := p]> (calls s)) s.

(** ** The operations of [CommandChannel] and of the device *)

Definition submit (c : command) (s : system) : result unit error * system :=
  if closes && stopped s then (Err Io, s)
  else (Ok tt, set_submissions (send c (submissions s)) s).

Definition discard_current (s : system) : system := set_completions (discard (completions s)) s.

Definition wait_next (s : system) : option (completion * system) :=
  match receive (completions s) with
  | Some (r, m) => Some (r, set_completions m s)
  | None => if closes && stopped s then Some (Err Io, s) else None
  end.

Definition receive_command (s : system) : option (command * system) :=
  match receive (submissions s) with
  | Some (c, m) => Some (c, set_submissions m s)
  | None => if closes && negb (clients_alive s) then Some (CommandNone, s) else None
  end.

Definition try_send_command_completion (r : completion) (s : system) : system :=
  set_completions (send r (completions s)) s.

(** The guard of the lock is dropped, and the call is over. *)
Definition leave (i : nat) (s : system) : system := set_owner None (set_calls (delete i (calls s)) s).

(** [Device::new]: the value a channel is created with counts as seen. *)
Definition system_new (d : D) : system :=
  System ∅ None (channel CommandNone) (channel (Ok OutputNone)) Selecting d true.

(** ** Steps *)

Inductive label : Type :=
  | Invoked (i : nat) (c : command)
  | Returned (i : nat) (c : command) (r : completion)
  | Cancelled (i : nat)
  | Served (c : command) (r : completion)
  | DeviceEvent
  | DeviceStopped
  | ClientsDropped
  | Silent.

(** [execute] runs without a pause between its two awaits, so that only a call
    that waits for the lock or for the completion can be cancelled. *)
Inductive step : system → label → system → Prop :=
  | step_invoke s i c :
      calls s !! i = None → clients_alive s = true → step s (Invoked i c) (set_call i (Waiting c) s)
  | step_lock s i c :
      owner s = None → calls s !! i = Some (Waiting c) →
      step s Silent (set_owner (Some i) (set_call i (Holding c) s))
  | step_discard s i c :
      calls s !! i = Some (Holding c) → step s Silent (set_call i (Cleared c) (discard_current s))
  | step_submit s i c s' :
      calls s !! i = Some (Cleared c) → submit c s = (Ok tt, s') → step s Silent (set_call i (Submitted c) s')
  | step_refused s i c e s' :
      calls s !! i = Some (Cleared c) → submit c s = (Err e, s') → step s (Returned i c (Err e)) (leave i s')
  | step_return s i c r s' :
      calls s !! i = Some (Submitted c) → wait_next s = Some (r, s') → step s (Returned i c r) (leave i s')
  | step_cancel_lock s i c :
      calls s !! i = Some (Waiting c) → step s (Cancelled i) (set_calls (delete i (calls s)) s)
  | step_cancel s i c :
      calls s !! i = Some (Submitted c) → step s (Cancelled i) (leave i s)
  | step_receive s c s' :
      serving_loop s = Selecting → receive_command s = Some (c, s') → step s Silent (set_loop (Handling c) s')
  | step_serve s c r d :
      serving_loop s = Handling c → serve c (served_device s) r d →
      step s (Served c r) (try_send_command_completion r (set_loop Selecting (set_device d s)))
  | step_device s d :
      serving_loop s = Selecting → other (served_device s) d → step s DeviceEvent (set_device d s)
  | step_stop s :
      serving_loop s ≠ Stopped → step s DeviceStopped (set_loop Stopped s)
  | step_drop s :
      calls s = ∅ → clients_alive s = true →
      step s ClientsDropped
        (System (calls s) (owner s) (submissions s) (completions s) (serving_loop s) (served_device s) false).

Inductive steps : system → list label → system → Prop :=
  | steps_nil s : steps s [] s
  | steps_snoc s ls s1 l s2 : steps s ls s1 → step s1 l s2 → steps s (ls ++ [l]) s2.

(** ** The abstract client

    A call waits, is served at one moment by the device, and returns what the
    device answered; once the device has stopped a waiting call may fail. *)
Inductive spec_call : Type := Pending (c : command) | Answered (c : command) (r : completion).

Record spec := Spec { spec_calls : gmap nat spec_call; spec_device : D; spec_stopped : bool }.

Inductive spec_step : spec → label → spec → Prop :=
  | spec_invoke m d b i c : m !! i = None → spec_step (Spec m d b) (Invoked i c) (Spec (<[i := Pending c]> m) d b)
  | spec_serve m d i c r d' :
      m !! i = Some (Pending c) → serve c d r d' →
      spec_step (Spec m d false) (Served c r) (Spec (<[i := Answered c r]> m) d' false)
  | spec_return m d b i c r :
      m !! i = Some (Answered c r) → spec_step (Spec m d b) (Returned i c r) (Spec (delete i m) d b)
  | spec_fail m d i c :
      m !! i = Some (Pending c) → spec_step (Spec m d true) (Returned i c (Err Io)) (Spec (delete i m) d true)
  | spec_event m d d' : other d d' → spec_step (Spec m d false) DeviceEvent (Spec m d' false)
  | spec_stop m d : spec_step (Spec m d false) DeviceStopped (Spec m d true)
  | spec_silent a : spec_step a Silent a.

Inductive spec_steps : spec → list label → spec → Prop :=
  | spec_steps_nil a : spec_steps a [] a
  | spec_steps_snoc a ls a1 l a2 : spec_steps a ls a1 → spec_step a1 l a2 → spec_steps a (ls ++ [l]) a2.

(** What the abstract client sees of a call, given the completion that waits. *)
Definition abs_call (answer : option completion) (p : call) : spec_call :=
  match p, answer with
  | Submitted c, Some r => Answered c r
  | (Waiting c | Holding c | Cleared c | Submitted c), _ => Pending c
  end.

(** Runs in which no call is cancelled and the client is kept. *)
Definition undisturbed (l : label) : Prop :=
  match l with
  | Cancelled _ | ClientsDropped => False
  | _ => True
  end.

(** What was served, and what was returned, in order. *)
Definition served (ls : list label) : list (command * completion) :=
  omap (λ l, match l with Served c r => Some (c, r) | _ => None end) ls.

Definition returned (ls : list label) : list completion :=
  omap (λ l, match l with Returned _ _ r => Some r | _ => None end) ls.

(** The call that holds the lock. *)
Definition holder (s : system) : option call := owner s ≫= λ i, calls s !! i.
End commands.

Section clients.
Context `{L : mailbox_laws} {D : Type}.
Context (serve : command → D → completion → D → Prop) (other : D → D → Prop).
Implicit Types (s : system (D := D)).

(** ** The lock *)

Definition waits (p : call) : bool :=
  match p with
  | Waiting _ => true
  | _ => false
  end.

(** The calls past the lock are the one that has it. *)
Record locked (cs : gmap nat call) (o : option nat) : Prop := {
  locked_phase i p : cs !! i = Some p → waits p = false ↔ o = Some i;
  locked_owner i : o = Some i → is_Some (cs !! i)
}.

Lemma locked_holder s i p :
  locked (calls s) (owner s) → calls s !! i = Some p → waits p = false → owner s = Some i ∧ holder s = Some p.
Proof.
  intros Hk Hp Hw. apply (locked_phase _ _ Hk i p Hp) in Hw. unfold holder. by rewrite Hw.
Qed.

Lemma locked_next cs o i p q :
  locked cs o → cs !! i = Some p → waits q = false → o = None ∨ waits p = false → locked (<[i := q]> cs) (Some i).
Proof.
  intros [Hph Hown] Hp Hq Ho. split.
  - intros j r [[<- <-]|[Hne Hj]]%lookup_insert_Some; [by rewrite Hq|].
    split; [|congruence]. intros Hr%(Hph j r Hj). destruct Ho as [->|Ho%(Hph i p Hp)]; congruence.
  - intros j [= <-]. by rewrite lookup_insert_eq.
Qed.

Lemma locked_delete cs o i p :
  locked cs o → cs !! i = Some p → waits p = false → locked (delete i cs) None.
Proof.
  intros [Hph Hown] Hp Hw%(Hph i p Hp). split; [|done].
  intros j r [Hne Hj]%lookup_delete_Some. split; [|done]. intros Hr%(Hph j r Hj). congruence.
Qed.

Lemma locked_step s l s' : locked (calls s) (owner s) → step serve other s l s' → locked (calls s') (owner s').
Proof.
  intros Hk Hs. destruct Hs as
    [s i c Hn Ha|s i c Ho Hp|s i c Hp|s i c s' Hp Hb|s i c e s' Hp Hb|s i c r s' Hp Hb|s i c Hp|s i c Hp|
     s c s' Hl Hb|s c r d Hl Hd|s d Hl Hd|s Hl|s Hc Ha]; try done; cbn.
  - destruct Hk as [Hph Hown]. split.
    + intros j p [[<- <-]|[Hne Hj]]%lookup_insert_Some; [|by apply Hph].
      split; [done|]. intros Ho. destruct (Hown _ Ho). congruence.
    + intros j Ho. destruct (decide (i = j)) as [<-|]; [by rewrite lookup_insert_eq|].
      rewrite lookup_insert_ne by done. by apply Hown.
  - rewrite Ho in Hk. eapply locked_next; [done..|by left].
  - destruct (locked_holder s i _ Hk Hp eq_refl) as [-> _]. eapply locked_next; [done..|by right].
  - destruct (locked_holder s i _ Hk Hp eq_refl) as [Ho _].
    unfold submit in Hb. destruct (closes && _); [done|]. injection Hb as <-. cbn. rewrite Ho.
    eapply locked_next; [done..|by right].
  - unfold submit in Hb. destruct (closes && _); [|done]. injection Hb as _ <-. by eapply locked_delete.
  - unfold wait_next in Hb. destruct (receive _) as [[??]|]; [|destruct (closes && _); [|done]];
      injection Hb as _ <-; by eapply locked_delete.
  - destruct Hk as [Hph Hown]. pose proof (Hph i _ Hp) as Hi. split.
    + intros j p [Hne Hj]%lookup_delete_Some. by apply Hph.
    + intros j Ho. destruct (decide (i = j)) as [<-|]; [by apply Hi in Ho|].
      rewrite lookup_delete_ne by done. by apply Hown.
  - by eapply locked_delete.
  - unfold receive_command in Hb. destruct (receive _) as [[??]|]; [|destruct (closes && _); [|done]];
      by injection Hb as _ <-.
Qed.

(** ** Undisturbed runs *)

Definition abs s : spec :=
  Spec (abs_call (unseen (completions s)) <$> calls s) (served_device s) (stopped s).

(** A command is in one place: with its caller, in the mailbox, with the
    device, or answered in the other mailbox. *)
Inductive exchange : option call → option command → loop → option completion → Prop :=
  | ExFree p : (∀ c, p ≠ Some (Submitted c)) → exchange p None Selecting None
  | ExSent c : exchange (Some (Submitted c)) (Some c) Selecting None
  | ExHandling c : exchange (Some (Submitted c)) None (Handling c) None
  | ExAnswered c r : exchange (Some (Submitted c)) None Selecting (Some r)
  | ExStopped p m : exchange p m Stopped None
  | ExStoppedAnswered c m r : exchange (Some (Submitted c)) m Stopped (Some r).

Record inv s : Prop := {
  inv_alive : clients_alive s = true;
  inv_locked : locked (calls s) (owner s);
  inv_exchange : exchange (holder s) (unseen (submissions s)) (serving_loop s) (unseen (completions s))
}.

Lemma locked_empty : locked ∅ None.
Proof. by split. Qed.

Lemma undisturbed_new d : inv (system_new d).
Proof.
  split; [done|apply locked_empty|]. unfold holder. cbn. rewrite !unseen_channel. by constructor.
Qed.

(** Only the call that has the lock sees the completion. *)
Lemma abs_update s i p r r' :
  inv s → calls s !! i = Some p → owner s = Some i →
  abs_call r' <$> calls s = <[i := abs_call r' p]> (abs_call r <$> calls s).
Proof.
  intros Hi Hp Ho. apply map_eq. intros j. rewrite lookup_fmap.
  destruct (decide (i = j)) as [<-|Hne]; [by rewrite lookup_insert_eq, Hp|].
  rewrite lookup_insert_ne, lookup_fmap by done. destruct (calls s !! j) as [q|] eqn:Hq; [|done].
  pose proof (locked_phase _ _ (inv_locked s Hi) j q Hq) as Hw. destruct q; [done|..]; destruct Hw as [Hw _];
    specialize (Hw eq_refl); congruence.
Qed.

Lemma abs_call_same s i p q r :
  calls s !! i = Some p → abs_call r q = abs_call r p → abs_call r <$> <[i := q]> (calls s) = abs_call r <$> calls s.
Proof.
  intros Hp Hq. rewrite fmap_insert, Hq. apply insert_id. by rewrite lookup_fmap, Hp.
Qed.

Lemma submit_cases c s r s' :
  submit c s = (r, s') →
  (r = Ok tt ∧ s' = set_submissions (send c (submissions s)) s) ∨
  (r = Err Io ∧ s' = s ∧ serving_loop s = Stopped).
Proof.
  unfold submit, stopped. destruct (closes && _) eqn:Hb; intros [= <- <-]; [right|by left].
  apply andb_prop in Hb as [_ Hb]. by destruct (serving_loop s).
Qed.

Lemma wait_next_cases s r s' :
  wait_next s = Some (r, s') →
  (unseen (completions s) = Some r ∧ ∃ m, unseen m = None ∧ s' = set_completions m s) ∨
  (r = Err Io ∧ s' = s ∧ unseen (completions s) = None ∧ serving_loop s = Stopped).
Proof.
  unfold wait_next, stopped. intros Hw. pose proof (receive_unseen (completions s)) as Hr.
  destruct (receive (completions s)) as [[v m]|]; [injection Hw as <- <-; left; destruct Hr; eauto|].
  destruct (closes && _) eqn:Hb; [|done]. injection Hw as <- <-. right.
  apply andb_prop in Hb as [_ Hb]. by destruct (serving_loop s).
Qed.

Lemma receive_command_cases s c s' :
  clients_alive s = true → receive_command s = Some (c, s') →
  unseen (submissions s) = Some c ∧ ∃ m, unseen m = None ∧ s' = set_submissions m s.
Proof.
  unfold receive_command. intros -> Hw. pose proof (receive_unseen (submissions s)) as Hr.
  destruct (receive (submissions s)) as [[v m]|]; [injection Hw as <- <-; destruct Hr; eauto|].
  by rewrite andb_false_r in Hw.
Qed.

Lemma holder_next s i p : owner s = Some i → calls s !! i = Some p → holder s = Some p.
Proof. unfold holder. by intros ->. Qed.

Lemma undisturbed_step s l s' : inv s → step serve other s l s' → undisturbed l → inv s'.
Proof.
  intros Hi Hs Hu. pose proof (locked_step s l s' (inv_locked s Hi) Hs) as Hk'.
  destruct Hi as [Ha Hk Hx]. split; [|done|].
  { destruct Hs as [| | |? ? ? ? ? Hb|? ? ? ? ? ? Hb|? ? ? ? ? ? Hb| | |? ? ? ? Hb| | | |]; try done; cbn.
    - apply submit_cases in Hb as [[_ ->]|[? _]]; done.
    - apply submit_cases in Hb as [[? _]|(_ & -> & _)]; done.
    - apply wait_next_cases in Hb as [(_ & m & _ & ->)|(_ & -> & _)]; done.
    - apply receive_command_cases in Hb as (_ & m & _ & ->); done. }
  destruct Hs as
    [s i c Hn _|s i c Ho Hp|s i c Hp|s i c s' Hp Hb|s i c e s' Hp Hb|s i c r s' Hp Hb| | |
     s c s' Hl Hb|s c r d Hl Hd|s d Hl Hd|s Hl|]; try done.
  - replace (holder (set_call i (Waiting c) s)) with (holder s); [done|]. unfold holder. cbn.
    destruct (owner s) as [j|] eqn:Hj; [|done]. destruct (locked_owner _ _ Hk j eq_refl). cbn.
    by rewrite lookup_insert_ne by congruence.
  - erewrite holder_next; [|done|apply lookup_insert_eq]. cbn.
    unfold holder in Hx. rewrite Ho in Hx. inversion Hx; by constructor.
  - destruct (locked_holder s i _ Hk Hp eq_refl) as [Ho Hh]. rewrite Hh in Hx.
    erewrite holder_next; [|done|apply lookup_insert_eq]. cbn. rewrite unseen_discard. inversion Hx; by constructor.
  - destruct (locked_holder s i _ Hk Hp eq_refl) as [Ho Hh]. rewrite Hh in Hx.
    apply submit_cases in Hb as [[_ ->]|[? _]]; [|done].
    erewrite holder_next; [|done|apply lookup_insert_eq]. cbn. rewrite unseen_send. inversion Hx; by constructor.
  - destruct (locked_holder s i _ Hk Hp eq_refl) as [Ho Hh]. rewrite Hh in Hx.
    apply submit_cases in Hb as [[? _]|(_ & -> & Hl)]; [done|]. cbn. rewrite Hl in Hx |- *.
    inversion Hx; constructor.
  - destruct (locked_holder s i _ Hk Hp eq_refl) as [Ho Hh]. rewrite Hh in Hx.
    apply wait_next_cases in Hb as [(Hr & m & Hr' & ->)|(_ & -> & Hr & Hl)]; cbn.
    + rewrite Hr in Hx. rewrite Hr'. inversion Hx; by constructor.
    + rewrite Hr, Hl. constructor.
  - apply receive_command_cases in Hb as (Hm & m & Hm' & ->); [|done]. cbn. change (exchange (holder s) (unseen m) (Handling c) (unseen (completions s))).
    rewrite Hm, Hl in Hx. rewrite Hm'. inversion Hx; by constructor.
  - change (exchange (holder s) (unseen (submissions s)) Selecting (unseen (send r (completions s)))).
    rewrite unseen_send. rewrite Hl in Hx. inversion Hx; by constructor.
  - change (exchange (holder s) (unseen (submissions s)) Stopped (unseen (completions s))).
    inversion Hx; by constructor.
Qed.

(** ** Simulation *)

Lemma abs_eq s s' :
  abs_call (unseen (completions s')) <$> calls s' = abs_call (unseen (completions s)) <$> calls s →
  served_device s' = served_device s → stopped s' = stopped s → abs s' = abs s.
Proof. unfold abs. by intros -> -> ->. Qed.

Lemma abs_silent s s' : abs s' = abs s → spec_step serve other (abs s) Silent (abs s').
Proof. intros ->. constructor. Qed.

(** A call returns with what its phase stands for. *)
Lemma abs_leave s s' i p c r :
  inv s → calls s !! i = Some p → owner s = Some i → calls s' = calls s → served_device s' = served_device s →
  stopped s' = stopped s →
  abs_call (unseen (completions s)) p = Answered c r ∨
  (abs_call (unseen (completions s)) p = Pending c ∧ r = Err Io ∧ stopped s = true) →
  spec_step serve other (abs s) (Returned i c r) (abs (leave i s')).
Proof.
  intros Hi Hp Ho Hc Hd Hst Hr. unfold abs. cbn. rewrite Hd, fmap_delete, Hc.
  rewrite (abs_update s i p (unseen (completions s)) (unseen (completions s')) Hi Hp Ho), delete_insert_eq.
  replace (stopped (leave i s')) with (stopped s) by (by rewrite <- Hst).
  assert ((abs_call (unseen (completions s)) <$> calls s) !! i = Some (abs_call (unseen (completions s)) p)) as Hl
    by (by rewrite lookup_fmap, Hp).
  destruct Hr as [Hr|(Hr & -> & ->)]; rewrite Hr in Hl; by constructor.
Qed.

Lemma abs_step s l s' : inv s → step serve other s l s' → undisturbed l → spec_step serve other (abs s) l (abs s').
Proof.
  intros Hi Hs Hu. pose proof (inv_exchange s Hi) as Hx. destruct Hs as
    [s i c Hn Ha|s i c Ho Hp|s i c Hp|s i c s' Hp Hb|s i c e s' Hp Hb|s i c r s' Hp Hb| | |
     s c s' Hl Hb|s c r d Hl Hd|s d Hl Hd|s Hl|]; try done.
  - unfold abs. cbn. rewrite fmap_insert. constructor. by rewrite lookup_fmap, Hn.
  - apply abs_silent, abs_eq; [|done..]. by apply (abs_call_same s i (Waiting c)).
  - destruct (locked_holder s i _ (inv_locked s Hi) Hp eq_refl) as [Ho Hh]. rewrite Hh in Hx.
    apply abs_silent, abs_eq; [|done..]. cbn. rewrite unseen_discard.
    replace (unseen (completions s)) with (None (A := completion)) by (by inversion Hx).
    by apply (abs_call_same s i (Holding c)).
  - destruct (locked_holder s i _ (inv_locked s Hi) Hp eq_refl) as [Ho Hh]. rewrite Hh in Hx.
    apply submit_cases in Hb as [[_ ->]|[? _]]; [|done].
    apply abs_silent, abs_eq; [|done..]. cbn.
    replace (unseen (completions s)) with (None (A := completion)) by (by inversion Hx).
    by apply (abs_call_same s i (Cleared c)).
  - destruct (locked_holder s i _ (inv_locked s Hi) Hp eq_refl) as [Ho Hh].
    apply submit_cases in Hb as [[? _]|([= ->] & -> & Hl)]; [done|].
    eapply abs_leave; [done..|]. right. unfold stopped. by rewrite Hl.
  - destruct (locked_holder s i _ (inv_locked s Hi) Hp eq_refl) as [Ho Hh].
    apply wait_next_cases in Hb as [(Hr & m & Hr' & ->)|(-> & -> & Hr & Hl)].
    + eapply abs_leave; [done..|]. left. by rewrite Hr.
    + eapply abs_leave; [done..|]. right. unfold stopped. by rewrite Hr, Hl.
  - apply receive_command_cases in Hb as (Hm & m & Hm' & ->); [|by apply inv_alive].
    apply abs_silent, abs_eq; [done..|]. unfold stopped. cbn. by rewrite Hl.
  - destruct (owner s) as [i|] eqn:Ho; [|unfold holder in Hx; rewrite Ho, Hl in Hx; inversion Hx].
    destruct (locked_owner _ _ (inv_locked s Hi) i Ho) as [p Hp]. unfold holder in Hx. rewrite Ho, Hl in Hx. cbn in Hx.
    rewrite Hp in Hx. unfold abs, stopped. rewrite Hl. cbn. rewrite unseen_send.
    assert (p = Submitted c ∧ unseen (completions s) = None) as [-> ->] by (by inversion Hx).
    rewrite (abs_update s i _ None (Some r) Hi Hp Ho).
    constructor; [|done]. by rewrite lookup_fmap, Hp.
  - unfold abs, stopped. cbn. rewrite Hl. by constructor.
  - unfold abs, stopped. cbn. destruct (serving_loop s); [constructor..|done].
Qed.

Lemma undisturbed_steps d ls s : steps serve other (system_new d) ls s → Forall undisturbed ls → inv s.
Proof.
  intros Hs. remember (system_new d) as s0 eqn:E. induction Hs as [|s0 ls s1 l s2 _ IH Hs]; subst.
  - intros _. apply undisturbed_new.
  - intros [Hls Hl]%Forall_app. rewrite Forall_singleton in Hl. eapply undisturbed_step; [by apply IH|done..].
Qed.

(** C18: when no call is cancelled, any number of tasks that share the client of
    a device see an atomic device: every run of calls, channels and device is a
    run in which each command is handled at one moment between its call and its
    return, and the call returns what the device answered to it; after the
    device has stopped, a call that was not served may fail. *)
Theorem client_linearizable d ls s :
  steps serve other (system_new d) ls s → Forall undisturbed ls →
  spec_steps serve other (Spec ∅ d false) ls (abs s).
Proof.
  intros Hs. remember (system_new d) as s0 eqn:E. induction Hs as [|s0 ls s1 l s2 Hr IH Hs]; subst.
  - intros _. replace (Spec ∅ d false) with (abs (system_new d)); [constructor|].
    unfold abs. cbn. by rewrite fmap_empty.
  - intros [Hls Hl]%Forall_app. rewrite Forall_singleton in Hl. econstructor; [by apply IH|].
    eapply abs_step; [by eapply undisturbed_steps|done..].
Qed.

(** ** Cancelled calls *)

Lemma steps_cons s l s1 ls s2 :
  step serve other s l s1 → steps serve other s1 ls s2 → steps serve other s (l :: ls) s2.
Proof.
  intros Hl Hs. revert Hl. induction Hs as [s1|s1 ls s2 l' s3 _ IH Hs]; intros Hl.
  - apply (steps_snoc _ _ s [] s l s1); [constructor|done].
  - apply (steps_snoc _ _ s (l :: ls) s2 l' s3); [by apply IH|done].
Qed.

Lemma receive_some {T} (m : slot T) v : unseen m = Some v → ∃ m', receive m = Some (v, m') ∧ unseen m' = None.
Proof.
  intros Hm. pose proof (receive_unseen m) as Hr. destruct (receive m) as [[w m']|]; [|congruence].
  destruct Hr. exists m'. split; [congruence|done].
Qed.

Lemma submit_running c s : serving_loop s ≠ Stopped → submit c s = (Ok tt, set_submissions (send c (submissions s)) s).
Proof. unfold submit, stopped. destruct (serving_loop s); [by rewrite andb_false_r..|done]. Qed.

Lemma receive_command_some s c m :
  receive (submissions s) = Some (c, m) → receive_command s = Some (c, set_submissions m s).
Proof. unfold receive_command. by intros ->. Qed.

Lemma wait_next_some s r m : receive (completions s) = Some (r, m) → wait_next s = Some (r, set_completions m s).
Proof. unfold wait_next. by intros ->. Qed.

(** While a call waits for a completion something is under way, be it the
    command of another. *)
Definition busy s : Prop :=
  is_Some (unseen (submissions s)) ∨ serving_loop s ≠ Selecting ∨ is_Some (unseen (completions s)).

Definition answerable s : Prop := ∀ i c, calls s !! i = Some (Submitted c) → busy s.

(** What the owner of the lock did does not concern the others. *)
Lemma answerable_owner s i q :
  locked (calls s) (owner s) → owner s = None ∨ (owner s = Some i ∧ calls s !! i = Some q ∧ ∀ c, q ≠ Submitted c) →
  answerable s.
Proof.
  intros Hk Ho j c Hj. pose proof (proj1 (locked_phase _ _ Hk j _ Hj) eq_refl) as Hj'.
  destruct Ho as [Ho|(Ho & Hq & Hn)]; [congruence|]. rewrite Ho in Hj'. injection Hj' as ->.
  rewrite Hq in Hj. injection Hj as ->. by destruct (Hn c).
Qed.

Lemma answerable_step s l s' :
  locked (calls s) (owner s) → answerable s → step serve other s l s' → answerable s'.
Proof.
  intros Hk Hb Hs. pose proof (locked_step s l s' Hk Hs) as Hk'. destruct Hs as
    [s i c Hn Ha|s i c Ho Hp|s i c Hp|s i c s' Hp Hs|s i c e s' Hp Hs|s i c r s' Hp Hs|s i c Hp|s i c Hp|
     s c s' Hl Hs|s c r d Hl Hd|s d Hl Hd|s Hl|s Hc Ha].
  - intros j c' Hj. cbn in Hj. apply lookup_insert_Some in Hj as [[_ [=]]|[_ Hj]]. by apply (Hb j c').
  - apply (answerable_owner _ i (Holding c)); [done|]. right. cbn. by rewrite lookup_insert_eq.
  - destruct (locked_holder s i _ Hk Hp eq_refl) as [Ho _].
    apply (answerable_owner _ i (Cleared c)); [done|]. right. cbn. by rewrite lookup_insert_eq.
  - apply submit_cases in Hs as [[_ ->]|[? _]]; [|done]. intros j c' _. left. cbn. rewrite unseen_send. done.
  - apply (answerable_owner _ 0 (Waiting c)); [done|by left].
  - apply (answerable_owner _ 0 (Waiting c)); [done|by left].
  - intros j c' Hj. cbn in Hj. apply lookup_delete_Some in Hj as [_ Hj]. by apply (Hb j c').
  - apply (answerable_owner _ 0 (Waiting c)); [done|by left].
  - intros _ _ _. right. by left.
  - intros _ _ _. right. right. cbn. by rewrite unseen_send.
  - exact Hb.
  - intros _ _ _. right. by left.
  - exact Hb.
Qed.

Lemma answerable_steps d ls s :
  steps serve other (system_new d) ls s → locked (calls s) (owner s) ∧ answerable s.
Proof.
  intros Hs. remember (system_new d) as s0 eqn:E. induction Hs as [|s0 ls s1 l s2 _ IH Hs]; subst.
  - split; [apply locked_empty|done].
  - destruct (IH eq_refl) as [Hk Hb]. split; [by eapply locked_step|by eapply answerable_step].
Qed.

(** The call of [i] returns within [n] steps, none of which another client
    takes. *)
Definition returns (n : nat) (i : nat) s : Prop :=
  ∃ ls s' c r, steps serve other s (ls ++ [Returned i c r]) s' ∧ (length ls < n)%nat ∧
    Forall (λ l, l = Silent ∨ ∃ c' r', l = Served c' r') ls.

Lemma returns_step n i s l s' :
  step serve other s l s' → l = Silent ∨ (∃ c r, l = Served c r) → returns n i s' → returns (S n) i s.
Proof.
  intros Hs Hl (ls & s2 & c & r & Hr & Hn & Hf). exists (l :: ls), s2, c, r. split_and!.
  - by eapply steps_cons.
  - simpl. lia.
  - by constructor.
Qed.

Lemma returns_now n i s c r s' : step serve other s (Returned i c r) s' → returns (S n) i s.
Proof.
  intros Hs. exists [], s', c, r. split_and!; [|simpl; lia|constructor].
  eapply steps_cons; [done|constructor].
Qed.

(** The commands that the device may be about to handle. *)
Definition in_flight s (c : command) : Prop :=
  serving_loop s = Handling c ∨ unseen (submissions s) = Some c ∨
  ∃ i, calls s !! i = Some (Holding c) ∨ calls s !! i = Some (Cleared c).

(** The device, or the channel if the device is gone, can answer. *)
Definition answering s : Prop :=
  (closes = true ∨ serving_loop s ≠ Stopped) ∧ ∀ c, in_flight s c → ∃ r d, serve c (served_device s) r d.

Lemma answering_step s s' :
  answering s → served_device s' = served_device s → (serving_loop s' = Stopped → serving_loop s = Stopped) →
  (∀ c, in_flight s' c → in_flight s c) → answering s'.
Proof.
  intros [Hc Hd] Hd' Hl Hf. split; [destruct Hc; auto|]. intros c Hcf. rewrite Hd'. by apply Hd, Hf.
Qed.

Lemma answered_returns n i s c r :
  calls s !! i = Some (Submitted c) → unseen (completions s) = Some r → returns (S n) i s.
Proof.
  intros Hp Hr. destruct (receive_some _ _ Hr) as (m & Hm & _).
  eapply returns_now, (step_return _ _ s i c r); [done|]. unfold wait_next. by rewrite Hm.
Qed.

Lemma handling_returns n i s c c' :
  calls s !! i = Some (Submitted c) → serving_loop s = Handling c' → answering s → returns (S (S n)) i s.
Proof.
  intros Hp Hl [_ Hd]. destruct (Hd c' (or_introl Hl)) as (r & d & Hr).
  eapply returns_step; [by eapply step_serve|by right; eauto|].
  eapply (answered_returns _ _ _ c r); [done|]. cbn. by rewrite unseen_send.
Qed.

Lemma submitted_returns i s c :
  calls s !! i = Some (Submitted c) → answering s → busy s → returns 3 i s.
Proof.
  intros Hp Ha Hb. destruct (unseen (completions s)) as [r|] eqn:Hr; [by eapply answered_returns|].
  destruct (serving_loop s) as [|c'|] eqn:Hl.
  - destruct Hb as [[c' Hm]|[?|Hb]]; [|done|by rewrite Hr in Hb; destruct Hb].
    destruct (receive_some _ _ Hm) as (m & Hm' & Hn).
    eapply returns_step; [|by left|].
    + eapply (step_receive _ _ s c'); [done|]. unfold receive_command. by rewrite Hm'.
    + apply (handling_returns _ _ _ c c'); [exact Hp|done|].
      eapply answering_step; [exact Ha|done|done|]. intros x [[= <-]|[Hx|Hx]]; [by right; left| |by right; right].
      cbn in Hx. congruence.
  - by eapply handling_returns.
  - eapply returns_now, (step_return _ _ s i c (Err Io)); [done|]. unfold wait_next, stopped.
    pose proof (receive_unseen (completions s)) as Hm. destruct (receive (completions s)) as [[v m]|];
      [destruct Hm; congruence|]. destruct Ha as [[Hc|Hc] _]; [|done]. by rewrite Hl, Hc.
Qed.

Lemma cleared_returns i s c :
  calls s !! i = Some (Cleared c) → answering s → returns 4 i s.
Proof.
  intros Hp Ha. destruct (submit c s) as [[[]|e] s'] eqn:Hs.
  - eapply returns_step; [by eapply step_submit|by left|].
    apply submit_cases in Hs as [[_ ->]|[? _]]; [|done].
    apply (submitted_returns _ _ c); [apply lookup_insert_eq| |left; cbn; by rewrite unseen_send].
    eapply answering_step; [exact Ha|done|done|]. intros x [Hx|[Hx|(j & Hx)]].
    + by left.
    + cbn in Hx. rewrite unseen_send in Hx. injection Hx as <-. right. right. eauto.
    + right. right. exists j. cbn in Hx. by destruct Hx as [[[_ [=]]|[_ ?]]%lookup_insert_Some|[[_ [=]]|[_ ?]]%lookup_insert_Some]; [left|right].
  - by eapply returns_now, step_refused.
Qed.

(** No call gets stuck, whichever calls were cancelled before: in every
    reachable state the call that has the lock can return within five steps, of
    itself and of the device, as long as the device answers the commands that
    are on the way or the channels tell that it is gone. *)
Theorem holder_returns d ls s i :
  steps serve other (system_new d) ls s → owner s = Some i → answering s → returns 5 i s.
Proof.
  intros Hs Ho Ha. destruct (answerable_steps d ls s Hs) as [Hk Hb].
  destruct (locked_owner _ _ Hk i Ho) as [p Hp]. pose proof (proj2 (locked_phase _ _ Hk i p Hp) Ho) as Hw.
  destruct p as [c|c|c|c]; [done| | |].
  - eapply returns_step; [by eapply step_discard|by left|].
    apply (cleared_returns _ _ c); [apply lookup_insert_eq|].
    eapply answering_step; [exact Ha|done|done|]. intros x [Hx|[Hx|(j & Hx)]]; [by left|by right; left|].
    right. right. cbn in Hx. destruct Hx as [Hx|Hx]; apply lookup_insert_Some in Hx as [[<- Hx]|[_ Hx]];
      simplify_eq; eauto.
  - destruct (cleared_returns i s c Hp Ha) as (ls' & s' & c' & r & ? & ? & ?).
    exists ls', s', c', r. split_and!; [done|lia|done].
  - destruct (submitted_returns i s c Hp Ha (Hb i c Hp)) as (ls' & s' & c' & r & ? & ? & ?).
    exists ls', s', c', r. split_and!; [done|lia|done].
Qed.

(** ** Commands come from calls *)

Definition command_of (p : call) : command :=
  match p with
  | Waiting c | Holding c | Cleared c | Submitted c => c
  end.

(** The commands on the way to the device. *)
Definition carried s (c : command) : Prop :=
  (∃ i p, calls s !! i = Some p ∧ command_of p = c) ∨ unseen (submissions s) = Some c ∨ serving_loop s = Handling c.

Lemma in_flight_carried s c : in_flight s c → carried s c.
Proof.
  intros [Hc|[Hc|(i & [Hc|Hc])]]; [by right; right|by right; left| |]; left; by eexists i, _.
Qed.

Lemma carried_step s l s' c :
  step serve other s l s' → carried s' c → carried s c ∨ c = CommandNone ∨ ∃ i, l = Invoked i c.
Proof.
  assert (∀ s s', carried s' c →
    (∀ i p, calls s' !! i = Some p → ∃ j q, calls s !! j = Some q ∧ command_of q = command_of p) →
    unseen (submissions s') = unseen (submissions s) → serving_loop s' = serving_loop s → carried s c) as Hsame.
  { intros s1 s2 [(i & p & Hp & <-)|[Hc'|Hc']] Hc Hm Hl; [left; by apply (Hc i p)|right; left; congruence|].
    right; right; congruence. }
  assert (∀ s i p q, calls s !! i = Some p → command_of q = command_of p → ∀ j r, <[i := q]> (calls s) !! j = Some r →
    ∃ j' q', calls s !! j' = Some q' ∧ command_of q' = command_of r) as Hins.
  { intros s1 i p q Hp Hq j r [[<- <-]|[_ Hj]]%lookup_insert_Some; [by exists i, p|by exists j, r]. }
  assert (∀ s i j r, delete i (calls s) !! j = Some r →
    ∃ j' q', calls s !! j' = Some q' ∧ command_of q' = command_of r) as Hdel.
  { intros s1 i j r [_ Hj]%lookup_delete_Some. by exists j, r. }
  intros Hs Hc. destruct Hs as
    [s i c' Hn Ha|s i c' Ho Hp|s i c' Hp|s i c' s' Hp Hb|s i c' e s' Hp Hb|s i c' r s' Hp Hb|s i c' Hp|s i c' Hp|
     s c' s' Hl Hb|s c' r d Hl Hd|s d Hl Hd|s Hl|s He Ha].
  - destruct Hc as [(j & p & Hj & <-)|[Hc|Hc]]; [|left; right; by left|left; by right; right].
    cbn in Hj. apply lookup_insert_Some in Hj as [[<- <-]|[_ Hj]]; [right; right; by exists i|].
    left; left. by exists j, p.
  - left. apply (Hsame s _ Hc); [|done..]. by apply (Hins s i _ _ Hp).
  - left. apply (Hsame s _ Hc); [|done..]. by apply (Hins s i _ _ Hp).
  - left. apply submit_cases in Hb as [[_ ->]|[? _]]; [|done]. destruct Hc as [(j & p & Hj & <-)|[Hc|Hc]].
    + left. by eapply (Hins s i _ (Submitted c')).
    + cbn in Hc. rewrite unseen_send in Hc. injection Hc as <-. left. by exists i, (Cleared c').
    + by right; right.
  - left. apply submit_cases in Hb as [[? _]|(_ & -> & _)]; [done|]. apply (Hsame s _ Hc); [|done..]. apply (Hdel s i).
  - left. apply wait_next_cases in Hb as [(_ & m & _ & ->)|(_ & -> & _)];
      (apply (Hsame s _ Hc); [|done..]); apply (Hdel s i).
  - left. apply (Hsame s _ Hc); [|done..]. apply (Hdel s i).
  - left. apply (Hsame s _ Hc); [|done..]. apply (Hdel s i).
  - unfold receive_command in Hb. pose proof (receive_unseen (submissions s)) as Hr.
    destruct (receive (submissions s)) as [[v m]|].
    + destruct Hr as [Hv Hm]. injection Hb as <- <-. left. destruct Hc as [Hc|[Hc|Hc]]; [by left| |].
      * cbn in Hc. congruence.
      * cbn in Hc. injection Hc as <-. by right; left.
    + destruct (closes && _); [|done]. injection Hb as <- <-. destruct Hc as [Hc|[Hc|Hc]]; [by left; left|left; by right; left|].
      cbn in Hc. injection Hc as <-. by right; left.
  - left. destruct Hc as [Hc|[Hc|Hc]]; [by left|by right; left|done].
  - by left.
  - left. destruct Hc as [Hc|[Hc|Hc]]; [by left|by right; left|done].
  - by left.
Qed.

(** Two overlapping calls, served one after the other. *)
Definition overlapping_calls c0 r0 c1 r1 : list label :=
  [Invoked 0 c0; Invoked 1 c1; Silent; Silent; Silent; Silent; Served c0 r0; Returned 0 c0 r0;
   Silent; Silent; Silent; Silent; Served c1 r1; Returned 1 c1 r1].

Lemma overlapping_calls_run d c0 r0 d0 c1 r1 d1 :
  serve c0 d r0 d0 → serve c1 d0 r1 d1 →
  ∃ s, steps serve other (system_new d) (overlapping_calls c0 r0 c1 r1) s ∧ served_device s = d1.
Proof.
  intros H0 H1. destruct (receive_some (send c0 (channel CommandNone)) c0 (unseen_send _ _)) as (m & Hm & _).
  destruct (receive_some (send r0 (discard (channel (Ok OutputNone)))) r0 (unseen_send _ _)) as (n & Hn & _).
  destruct (receive_some (send c1 m) c1 (unseen_send _ _)) as (m' & Hm' & _).
  destruct (receive_some (send r1 (discard n)) r1 (unseen_send _ _)) as (n' & Hn' & _).
  eexists. unfold overlapping_calls. split.
  { eapply steps_cons; [by apply step_invoke|].
    eapply steps_cons; [by apply step_invoke|].
    eapply steps_cons; [by eapply (step_lock _ _ _ 0 c0)|].
    eapply steps_cons; [by eapply (step_discard _ _ _ 0 c0)|].
    eapply steps_cons; [eapply (step_submit _ _ _ 0 c0); [done|by apply submit_running]|].
    eapply steps_cons; [eapply (step_receive _ _ _ c0); [done|by apply receive_command_some]|].
    eapply steps_cons; [by eapply (step_serve _ _ _ c0 r0 d0)|].
    eapply steps_cons; [eapply (step_return _ _ _ 0 c0 r0); [done|by apply wait_next_some]|].
    eapply steps_cons; [by eapply (step_lock _ _ _ 1 c1)|].
    eapply steps_cons; [by eapply (step_discard _ _ _ 1 c1)|].
    eapply steps_cons; [eapply (step_submit _ _ _ 1 c1); [done|by apply submit_running]|].
    eapply steps_cons; [eapply (step_receive _ _ _ c1); [done|by apply receive_command_some]|].
    eapply steps_cons; [by eapply (step_serve _ _ _ c1 r1 d1)|].
    eapply steps_cons; [eapply (step_return _ _ _ 1 c1 r1); [done|by apply wait_next_some]|].
    constructor. }
  done.
Qed.

(** Under [DeviceClient] a call reads the completion that comes next. When the
    call before was cancelled while the device handled its command, that is the
    completion of the other command, and its own command has not been handled
    yet: [c] may be any command and [c0] any other. *)
Theorem late_completion d c0 c r d' :
  serve c0 d r d' →
  ∃ ls s, steps serve other (system_new d) (ls ++ [Returned 1 c r]) s ∧
    served ls = [(c0, r)] ∧ unseen (submissions s) = Some c ∧ served_device s = d'.
Proof.
  intros Hd. destruct (receive_some (send c0 (channel CommandNone)) c0 (unseen_send _ _)) as (m & Hm & _).
  destruct (receive_some (send r (discard (discard (channel (Ok OutputNone))))) r (unseen_send _ _)) as (m' & Hm' & _).
  exists [Invoked 0 c0; Silent; Silent; Silent; Silent; Cancelled 0; Invoked 1 c; Silent; Silent; Silent; Served c0 r].
  eexists. split.
  { cbn [app].
    eapply steps_cons; [by apply step_invoke|].
    eapply steps_cons; [by eapply (step_lock _ _ _ 0 c0)|].
    eapply steps_cons; [by eapply (step_discard _ _ _ 0 c0)|].
    eapply steps_cons; [eapply (step_submit _ _ _ 0 c0); [done|by apply submit_running]|].
    eapply steps_cons; [eapply (step_receive _ _ _ c0); [done|by apply receive_command_some]|].
    eapply steps_cons; [by eapply (step_cancel _ _ _ 0 c0)|].
    eapply steps_cons; [by apply step_invoke|].
    eapply steps_cons; [by eapply (step_lock _ _ _ 1 c)|].
    eapply steps_cons; [by eapply (step_discard _ _ _ 1 c)|].
    eapply steps_cons; [eapply (step_submit _ _ _ 1 c); [done|by apply submit_running]|].
    eapply steps_cons; [by eapply (step_serve _ _ _ c0 r d')|].
    eapply steps_cons; [eapply (step_return _ _ _ 1 c r); [done|by apply wait_next_some]|].
    constructor. }
  split_and!; [done| |done]. cbn. by rewrite unseen_send.
Qed.

(** ** Order of the answers *)

(** A result leaves the mailbox at most once, and in the order of service. *)
Definition answered_so_far (ls : list label) s : list completion :=
  returned ls ++ option_list (unseen (completions s)).

Lemma served_app ls ls' : served (ls ++ ls') = served ls ++ served ls'.
Proof. apply omap_app. Qed.

Lemma returned_app ls ls' : returned (ls ++ ls') = returned ls ++ returned ls'.
Proof. apply omap_app. Qed.

Lemma in_order_step ls s l s' :
  serving_loop s ≠ Stopped → l ≠ DeviceStopped →
  answered_so_far ls s `sublist_of` map snd (served ls) → step serve other s l s' →
  serving_loop s' ≠ Stopped ∧ answered_so_far (ls ++ [l]) s' `sublist_of` map snd (served (ls ++ [l])).
Proof.
  unfold answered_so_far. intros Hn Hl Hsub Hs. rewrite returned_app, served_app, map_app.
  assert (returned ls `sublist_of` map snd (served ls)) as Hret.
  { etrans; [|exact Hsub]. apply sublist_inserts_r. done. }
  destruct Hs as [s i c _ _|s i c _ _|s i c _|s i c s' _ Hb|s i c e s' _ Hb|s i c r s' _ Hb|s i c _|s i c _|
     s c s' _ Hb|s c r d _ _|s d _ _|s _|s _ _]; cbn [returned served omap list_omap map]; rewrite ?app_nil_r;
    try (by split); cbn.
  - split; [done|]. by rewrite unseen_discard, app_nil_r.
  - apply submit_cases in Hb as [[_ ->]|[? _]]; [|done]. by split.
  - apply submit_cases in Hb as [[? _]|(_ & _ & ?)]; done.
  - apply wait_next_cases in Hb as [(Hr & m & Hm & ->)|(_ & _ & _ & ?)]; [|done].
    split; [done|]. cbn. rewrite Hm, app_nil_r. by rewrite Hr in Hsub.
  - split; [done|]. unfold receive_command in Hb. destruct (receive _) as [[? m]|];
      [by injection Hb as _ <-|destruct (closes && _); [by injection Hb as _ <-|done]].
  - split; [done|]. rewrite unseen_send. by apply sublist_app.
Qed.

(** While the device runs, what the calls return is, in this order, a part of
    what the device answered: no answer is returned twice or made up, also when
    calls are cancelled. *)
Theorem answers_in_order d ls s :
  steps serve other (system_new d) ls s → DeviceStopped ∉ ls → returned ls `sublist_of` map snd (served ls).
Proof.
  intros Hs Hl. assert (serving_loop s ≠ Stopped ∧ answered_so_far ls s `sublist_of` map snd (served ls)) as [_ Hsub].
  { remember (system_new d) as s0 eqn:E. induction Hs as [|s0 ls s1 l s2 _ IH Hs]; subst.
    - split; [done|]. unfold answered_so_far. cbn. by rewrite unseen_channel.
    - apply not_elem_of_app in Hl as [Hls Hl]. rewrite list_elem_of_singleton in Hl.
      destruct (IH eq_refl Hls). eapply in_order_step; [done|congruence|done|done]. }
  etrans; [|exact Hsub]. unfold answered_so_far. by apply sublist_inserts_r.
Qed.

(** Once the clients are gone the [std] device is given [Command::None] again
    and again, without anything coming in. *)
Lemma dropped_clients_spin s :
  closes = true → clients_alive s = false → serving_loop s = Selecting → unseen (submissions s) = None →
  serve CommandNone (served_device s) (Ok OutputNone) (served_device s) →
  ∃ s', steps serve other s [Silent; Served CommandNone (Ok OutputNone)] s' ∧
    clients_alive s' = false ∧ serving_loop s' = Selecting ∧ unseen (submissions s') = None ∧
    served_device s' = served_device s.
Proof.
  intros Hc Ha Hl Hm Hd. pose proof (receive_unseen (submissions s)) as Hr.
  destruct (receive (submissions s)) as [[v m]|] eqn:Hv; [destruct Hr; congruence|].
  eexists. split.
  - eapply steps_cons; [eapply (step_receive _ _ _ CommandNone); [done|]; unfold receive_command; by rewrite Hv, Hc, Ha|].
    eapply steps_cons; [by eapply step_serve|]. constructor.
  - done.
Qed.
End clients.

(** ** The two builds, and the device *)

(** The value and whether it was seen; an end notices that the other is gone. *)
Definition watch : mailbox := {|
  slot T := (T * bool)%type;
  channel _ v := (v, true);
  send _ v _ := (v, false);
  receive _ m := if m.2 : bool then None else Some (m.1, (m.1, true));
  discard _ m := (m.1, true);
  closes := true
|}.

Definition signal : mailbox := {|
  slot T := option T;
  channel _ _ := None;
  send _ v _ := Some v;
  receive _ m := match m with Some v => Some (v, None) | None => None end;
  discard _ _ := None;
  closes := false
|}.

Program Definition watch_laws : @mailbox_laws watch :=
  {| unseen _ (m : @slot watch _) := if m.2 : bool then None else Some m.1 |}.
Solve All Obligations with (by try intros ? [? []]).

Program Definition signal_laws : @mailbox_laws signal := {| unseen _ (m : @slot signal _) := m |}.
Solve All Obligations with (by try intros ? []).

Section device.
Context {P : Type} `{packet_pool P} `{noise_crypto} `{map_order} {A : Type} `{forwarding_authorizer A}.
Context (lim : limits) (ephemeral : nat → bytes).
Implicit Types d : device P A.

Definition device_serves (c : command) d (r : completion) (d' : device P A) : Prop :=
  ∃ now, handle_peer_update lim d c now = Some (r, d').

(** A packet or a tick. *)
Definition device_event d d' : Prop :=
  ∃ tick ev b now out tick', device_step lim ephemeral tick d ev b now = Some (out, None, tick', d').
End device.

(** ** Examples *)

#[local] Existing Instances toy_pool toy_noise toy_order.

Abbreviation toy_serves := (device_serves (P := Heap.pool) (A := generic_authorizer) no_limits).
Abbreviation toy_event := (device_event (P := Heap.pool) (A := generic_authorizer) no_limits (λ _, [])).

Definition toy_peer (k : Z) : bytes := @public_from toy_noise [k].

Lemma toy_removes : ∃ d, toy_serves (Remove (toy_peer 2)) toy_served (Ok OutputNone) d ∧
  toy_serves (Get (toy_peer 2)) d (Err PeerNotFound) d.
Proof. eexists. split; exists 0; [reflexivity|vm_compute; reflexivity]. Qed.

(** A task removes a peer while another asks for it, in both builds. *)
Lemma client_linearizable_witness :
  let ls := overlapping_calls (Remove (toy_peer 2)) (Ok OutputNone) (Get (toy_peer 2)) (Err PeerNotFound) in
  (∃ s, spec_steps toy_serves toy_event (Spec ∅ toy_served false) ls (@abs watch watch_laws _ s)) ∧
  (∃ s, spec_steps toy_serves toy_event (Spec ∅ toy_served false) ls (@abs signal signal_laws _ s)).
Proof.
  destruct toy_removes as (d & Hr & Hg). split.
  - destruct (@overlapping_calls_run watch watch_laws _ toy_serves toy_event toy_served _ _ _ _ _ _ Hr Hg)
      as (s & Hs & _). exists s.
    apply (@client_linearizable watch watch_laws _ toy_serves toy_event toy_served _ s Hs). repeat constructor.
  - destruct (@overlapping_calls_run signal signal_laws _ toy_serves toy_event toy_served _ _ _ _ _ _ Hr Hg)
      as (s & Hs & _). exists s.
    apply (@client_linearizable signal signal_laws _ toy_serves toy_event toy_served _ s Hs). repeat constructor.
Defined.

(** Asking for a peer can get the answer to a removal that was cancelled, which
    [get_peer] takes for impossible. *)
Lemma late_completion_witness :
  ∃ ls s, steps toy_serves toy_event (@system_new watch _ toy_served)
      (ls ++ [Returned 1 (Get (toy_peer 3)) (Ok OutputNone)]) s ∧
    served ls = [(Remove (toy_peer 2), Ok OutputNone)] ∧ is_Some (peers (state (served_device s)) !! (toy_peer 3)) ∧
    peer_info_of (Ok OutputNone) = Err Io.
Proof.
  destruct toy_removes as (d & Hr & _).
  destruct (@late_completion watch watch_laws _ toy_serves toy_event toy_served (Remove (toy_peer 2)) (Get (toy_peer 3)) _ d Hr)
    as (ls & s & Hs & Hl & _ & Hd).
  exists ls, s. split_and!; [done..| |done]. rewrite Hd. destruct Hr as [now [= <-]]. vm_compute. by eexists.
Defined.

Lemma holder_returns_witness :
  ∃ s : @system watch _, owner s = Some 0%nat ∧ calls s !! 0%nat = Some (Holding (Get (toy_peer 2))) ∧
    @returns watch _ toy_serves toy_event 5 0 s.
Proof.
  set (s0 := @system_new watch _ toy_served).
  set (s := set_owner (Some 0%nat) (set_call 0 (Holding (Get (toy_peer 2))) (set_call 0 (Waiting (Get (toy_peer 2))) s0))).
  exists s. split; [done|]. split; [done|].
  apply (@holder_returns watch watch_laws _ toy_serves toy_event toy_served [Invoked 0 (Get (toy_peer 2)); Silent] s 0).
  - eapply (steps_snoc _ _ _ [_]); [eapply (steps_snoc _ _ _ []); [constructor|]|]; [by apply step_invoke|].
    by apply step_lock.
  - done.
  - split; [by left|]. intros c [[=]|[[=]|(j & [Hj|Hj])]]; cbn in Hj;
      repeat (apply lookup_insert_Some in Hj as [[_ Hj]|[_ Hj]]; simplify_eq).
    eexists _, toy_served. exists 0. vm_compute. reflexivity.
Defined.
