(* ===== verification/DeviceLive.v ===== *)
(** * A device that stays on the network while it is configured

    The loop of [Device::run] in [tendrilix/src/device.rs] takes a command between
    packets and ticks. Here a client is served by a device that handles any packets
    and ticks between two commands, as [DeviceRun] models them: as long as the
    configurations give the peers roles (relays are not relayed themselves), the
    device handles all of them, and it keeps what [ReconcilerDevice] promises to
    the reconciler. *)

From S2P Require Import Prelude IpNet AllowedIps Index Timestamper Relay PacketPool PeerHealth Handshake RateLimiter Timers Tunn TunnTotal.
From S2P Require Import PeerTable Device DeviceSafe DeviceRun Routes Reconciler ReconcilerSafe ReconcilerSpec ReconcilerDevice.

Section live.
Context {P : Type} `{Q : packet_pool_laws P} `{L : noise_laws, V : !noise_open_laws}
  `{MO : map_order_laws} {A : Type} `{Au : forwarding_authorizer A} (lim : limits) (ephemeral : nat → bytes).
Implicit Types (d : device P A).

(** A packet or a tick, with the time and the buffers of its turn of the loop. *)
Record arrival := Arrival { arrival_event : event; arrival_time : Z; arrival_buffers : buffers }.

(** The device, the time of its last event, the count of its ticks and of the
    commands it has handled. *)
Record live := Live { live_device : device P A; live_time : Z; live_ticks : Z; live_handled : nat }.

Definition attend_one (a : arrival) (s : live) : option live :=
  let! '(_, _, ticks, d) := device_step lim ephemeral (live_ticks s) (live_device s) (arrival_event a)
    (arrival_buffers a) (arrival_time a) in
  Some (Live d (arrival_time a) ticks (live_handled s)).

Fixpoint attend (l : list arrival) (s : live) : option live :=
  match l with
  | [] => Some s
  | a :: l => let! s := attend_one a s in attend l s
  end.

(** A command, handled at the time [now]. *)
Definition serve_one (c : command) (b : buffers) (now : Z) (s : live) : option (result command_output error * live) :=
  let! '(_, r, ticks, d) := device_step lim ephemeral (live_ticks s) (live_device s) (FromClient c) b now in
  let! r := r in
  Some (r, Live d now ticks (S (live_handled s))).

(** What arrives before the [i]-th command, which is handled at [clock (S i)]. *)
Context (arrivals : nat → list arrival) (clock : nat → Z) (bufs : nat → buffers).

Definition attended (s : live) : option live := attend (arrivals (live_handled s)) s.

Definition execute_live (c : command) (s : live) : option (result command_output error * live) :=
  let! s := attended s in serve_one c (bufs (live_handled s)) (clock (S (live_handled s))) s.

Definition live_executor : executor live := {| execute := execute_live; running := live_device |}.

(** ** Time passes *)

Context (relays : gset bytes) (st : time_stamper).

(** A moment at which the clock of the device can be read. *)
Definition after (now : Z) (later : Z) : Prop := now ≤ later ∧ is_Some (stamp st later).

(** A packet or a tick of the types of the source. *)
Record arrival_ok (now : Z) (a : arrival) : Prop := {
  arrival_after : after now (arrival_time a);
  arrival_buffers_ok : buffers_ok (arrival_buffers a);
  arrival_unattended : unattended (arrival_event a)
}.

(** Arrivals between two moments. *)
Fixpoint in_time (now : Z) (l : list arrival) (later : Z) : Prop :=
  match l with
  | [] => now ≤ later
  | a :: l => arrival_ok now a ∧ in_time (arrival_time a) l later
  end.

Record timely : Prop := {
  timely_arrivals i : in_time (clock i) (arrivals i) (clock (S i));
  timely_clock i : is_Some (stamp st (clock (S i)));
  timely_buffers i : buffers_ok (bufs i)
}.

(** The device between two commands. *)
Record live_at (n : nat) (now : Z) (s : live) : Prop := {
  live_now : live_time s = now;
  live_reachable : reachable lim ephemeral now (live_ticks s) (live_device s);
  live_roles : wf_roles relays now (live_device s);
  live_good : client_good lim n (live_device s);
  live_stamper : device_stamper (live_device s) = st
}.

Lemma live_at_le n n' now s : (n ≤ n')%nat → live_at n' now s → live_at n now s.
Proof. intros Hle [? ? ? [? ? ?] ?]. split; try done. split; [done|lia|done]. Qed.

Lemma shown_settings d d' : same_settings d d' → shown_by d' = shown_by d.
Proof.
  intros [Hk _ _]. apply map_eq. intros k. unfold shown_by. rewrite !lookup_fmap. specialize (Hk k).
  destruct (peers (state d') !! k) as [p'|], (peers (state d) !! k) as [p|]; try done.
  apply (inj Some) in Hk. unfold settings_of, view_of in *. cbn. congruence.
Qed.

Lemma good_settings n now d d' :
  same_settings d d' → wf_roles relays now d' → client_good lim n d → client_good lim n d'.
Proof.
  intros Hs [hq Hwf] [_ Hi Hroom]. split; [apply Hwf|by rewrite (settings_generator _ _ Hs)|].
  assert (dom (peers (state d')) = dom (peers (state d))) as E.
  { pose proof (shown_settings d d' Hs) as Hd. unfold shown_by in Hd. apply (f_equal dom) in Hd. by rewrite !dom_fmap_L in Hd. }
  by rewrite <- size_dom, E, size_dom.
Qed.

(** The next event finds the device in order. *)
Lemma live_later n now now' s : live_at n now s → after now now' → wf_roles relays now' (live_device s).
Proof. intros [_ _ Hr _ Est] [Hle Hst]. eapply wf_roles_later; [exact Hr|done|by rewrite Est]. Qed.

Lemma attend_one_spec n now a s :
  live_at n now s → arrival_ok now a →
  ∃ s', attend_one a s = Some s' ∧ live_at n (arrival_time a) s' ∧ live_handled s' = live_handled s ∧
    shown_by (live_device s') = shown_by (live_device s).
Proof.
  intros Hs [Hat Hb Hu]. pose proof (live_later _ _ _ _ Hs Hat) as Hwf.
  destruct Hs as [Enow Hre Hro Hg Est], Hat as [Hle Hst].
  destruct (step_unattended lim ephemeral relays (live_ticks s) (arrival_time a) (live_device s) (arrival_event a)
    (arrival_buffers a) Hwf Hb Hu) as (out & ticks & d & E & Hwf' & Hset).
  unfold attend_one. rewrite E. cbn [mbind option_bind]. eexists. split; [done|].
  split; [|split; [done|by apply shown_settings]].
  split; cbn; [done| |done|by eapply good_settings|by rewrite (settings_stamper _ _ Hset)].
  eapply ReachStep; [exact Hre|done|by rewrite Est|exact Hb| |exact E]. by destruct (arrival_event a).
Qed.

Lemma attend_spec n l now later s :
  live_at n now s → in_time now l later →
  ∃ s' now', attend l s = Some s' ∧ now' ≤ later ∧ live_at n now' s' ∧ live_handled s' = live_handled s ∧
    shown_by (live_device s') = shown_by (live_device s).
Proof.
  revert now s; induction l as [|a l IH]; intros now s Hs Ht; cbn [attend in_time] in *.
  { by exists s, now. }
  destruct Ht as [Ha Ht]. destruct (attend_one_spec n now a s Hs Ha) as (s1 & -> & Hs1 & Hh & Hd).
  cbn [mbind option_bind]. destruct (IH _ s1 Hs1 Ht) as (s' & now' & -> & ? & ? & Hh' & Hd').
  exists s', now'. by rewrite Hh', Hd'.
Qed.

Lemma command_stamper d c now r d' : handle_peer_update lim d c now = Some (r, d') → device_stamper d' = device_stamper d.
Proof.
  destruct c as [|c|c|k|k|]; cbn [handle_peer_update]; intros E; [by simplify_eq|..].
  - destruct (add_peer_to_state _ _ _ _ _ _ _) as [[[r0 s] g]|]; [|done]. cbn [mbind option_bind] in E.
    by destruct r0; simplify_eq.
  - destruct (update_peer_in_state _ _ _) as [[r0 s]|]; [|done]. cbn [mbind option_bind] in E.
    by destruct r0; simplify_eq.
  - by simplify_eq.
  - by destruct (Device.get_peer k d); simplify_eq.
  - by simplify_eq.
Qed.

Lemma device_new_stamper priv (au : A) configs g draws sk nk pool now d g' :
  device_new lim priv au configs g st draws sk nk pool now = Some (Ok d, g') → device_stamper d = st.
Proof.
  unfold device_new. destruct (initialize draws g) as [[g1 rest]|]; [|done]. cbn [mbind option_bind].
  destruct (add_initial _ _ _ _ _ _ _) as [[[s|e] g2]|]; cbn [mbind option_bind]; intros; by simplify_eq.
Qed.

(** What configurations may come: those of the source's types that keep the roles. *)
Definition fits_roles (c : peer_config) : Prop := config_ok c ∧ in_role relays c.

Lemma fits_valid c :
  match c with Add c | Update c => fits_roles c | _ => True end → keeps_roles relays c ∧ command_valid c.
Proof. destruct c; try done; intros Hc; (split; [exact Hc|apply Hc]). Qed.

Lemma serve_one_spec n now later c b s :
  live_at (cost c + n) now s → after now later → buffers_ok b → keeps_roles relays c → command_valid c →
  ∃ r s', serve_one c b later s = Some (r, s') ∧ live_at n later s' ∧ live_handled s' = S (live_handled s) ∧
    command_effect c (shown_by (live_device s)) (shown_by (live_device s')) r.
Proof.
  intros Hs Hat Hb Hk Hv. pose proof (live_later _ _ _ _ Hs Hat) as Hwf.
  destruct Hs as [_ Hre _ Hg Est], Hat as [Hle Hst].
  destruct (command_effects lim later n c _ Hg Hv) as (r & d & E & Hg' & He).
  assert (index_left (live_device s) c) as Hi by (destruct c; try done; cbn in *; destruct Hg; lia).
  destruct (command_steps relays lim later _ c Hwf Hk Hi) as (r' & d' & E' & Hwf'). rewrite E in E'. simplify_eq.
  unfold serve_one. cbn [device_step]. rewrite E. cbn [mbind option_bind]. eexists _, _. split; [done|]. split; [|done].
  split; cbn; [done| |done|done|by rewrite (command_stamper _ _ _ _ _ E)].
  eapply (ReachStep _ _ _ _ _ _ (FromClient c)); [exact Hre|done|by rewrite Est|exact Hb|by eapply roles_command_ok|].
  cbn [device_step]. by rewrite E.
Qed.

Lemma live_law n c s :
  timely → live_at (cost c + n) (clock (live_handled s)) s → command_valid c →
  match c with Add c | Update c => fits_roles c | _ => True end →
  ∃ r s', execute_live c s = Some (r, s') ∧ live_at n (clock (live_handled s')) s' ∧
    command_effect c (shown_by (live_device s)) (shown_by (live_device s')) r.
Proof.
  intros Ht Hs Hv [Hk _]%fits_valid. unfold execute_live, attended.
  destruct (attend_spec (cost c + n) _ _ _ s Hs (timely_arrivals Ht _)) as (s1 & now1 & -> & Hle & Hs1 & Hh & <-).
  cbn [mbind option_bind]. rewrite Hh.
  destruct (serve_one_spec n now1 (clock (S (live_handled s))) c (bufs (live_handled s)) s1 Hs1)
    as (r & s' & -> & Hs' & Hh' & He); [split; [done|apply Ht]|apply Ht|done|done|].
  exists r, s'. split; [done|]. by rewrite Hh', Hh.
Qed.

(** A device on the network keeps what the reconciler is promised. *)
Program Definition live_executor_laws (Ht : timely) : @executor_laws _ _ lim fits_roles live live_executor := {|
  serving_ok n s := live_at n (clock (live_handled s)) s
|}.
Next Obligation. intros. by eapply live_at_le. Qed.
Next Obligation. by intros Ht n s []. Qed.
Next Obligation. intros Ht n c s Hs Hv Ha. by apply live_law. Qed.
End live.

(** ** Maps that keep the roles *)

(** The peers that the routes of a map name as relays are among [relays], and
    have only direct routes themselves. *)
Record map_in_roles (relays : gset bytes) (m : network_map) : Prop := {
  roles_keys mp : mp ∈ map_peers m → length (map_public_key mp) = KEY_LEN;
  roles_relays mp r k q : mp ∈ map_peers m → r ∈ map_routes mp → policy_of_route m mp r = Some (PolicyRelay k q) →
    k ∈ relays ∧ map_public_key mp ∉ relays
}.

Lemma advertised_relay m mp k q :
  PolicyRelay k q ∈ advertised m mp → ∃ r, r ∈ map_routes mp ∧ policy_of_route m mp r = Some (PolicyRelay k q).
Proof.
  unfold advertised. intros Hin.
  assert (PolicyRelay k q ∈ omap (policy_of_route m mp) (map_routes mp)) as (r & Hr & E)%list_elem_of_omap; [|by exists r].
  destruct (omap (policy_of_route m mp) (map_routes mp)); [|done]. by apply list_elem_of_singleton in Hin.
Qed.

Lemma map_in_roles_ok lim routes_cap relays m :
  map_fits lim routes_cap m →
  (∀ mp ip, mp ∈ map_peers m → tunnel_ip mp = Some ip → ip_addr_valid ip) →
  map_in_roles relays m → map_ok lim (fits_roles relays) routes_cap m.
Proof.
  intros Hfit Hips [Hk Hr]. split; [done|done|].
  intros mp p i (l1 & l2 & El & _) [E1 E2 E3 Hn _]. assert (mp ∈ map_peers m) as Hmp by (rewrite El; set_solver). split; [split|]; cbn [rendered config_allowed_ips config_public_key config_keepalive].
  - apply (rendered_valid p i). rewrite E2. destruct (tunnel_ip mp) as [ip|] eqn:E; constructor; [by eapply Hips|constructor].
  - rewrite E1. by apply Hk.
  - rewrite E3. by destruct (is_directory mp).
  - unfold in_role, rendered, rendered_relay. cbn. rewrite E1. intros r Hri.
    destruct (desired_policies p !! i) as [[|r' q]|] eqn:E; simplify_eq.
    apply list_elem_of_lookup_2, (normal_best _ _ Hn) in E as [(rt & Hrt & Hp)%advertised_relay _]. by eapply Hr.
Qed.
