(* ===== verification/SharedDevice.v ===== *)
(** * Clients, channels and a device on the network, as one system

    [Commands] is about any device; here it is the device of [DeviceRun], which
    handles packets and ticks of its own between the commands it takes from the
    tasks of [tendrilix/src/device.rs], [CommandClient]. Under the roles of
    [DeviceSafe] what the theorems of [Commands] suppose of a device holds. *)

From S2P Require Import Prelude IpNet AllowedIps Index Timestamper Relay Bounded PacketPool PeerHealth Handshake RateLimiter Timers.
From S2P Require Import Tunn TunnTotal PeerTable Device DeviceSafe DeviceRun Routes Reconciler ReconcilerSafe ReconcilerSpec.
From S2P Require Import ReconcilerDevice Commands DeviceLive.

Section shared.
Context `{B : mailbox_laws} {P : Type} `{Q : packet_pool_laws P} `{L : noise_laws, V : !noise_open_laws}
  `{MO : map_order_laws} {A : Type} `{Au : forwarding_authorizer A} (lim : limits) (ephemeral : nat → bytes).
Context (relays : gset bytes) (st : time_stamper).
Abbreviation live := (live (P := P) (A := A)).
Implicit Types (s : system (D := live)).

(** A command is handled at some later moment, and so is a packet or a tick. *)
Definition live_serves (c : command) (l : live) (r : completion) (l' : live) : Prop :=
  ∃ b now, after st (live_time l) now ∧ buffers_ok b ∧ serve_one lim ephemeral c b now l = Some (r, l').

Definition live_event (l l' : live) : Prop :=
  ∃ a, arrival_ok st (live_time l) a ∧ attend_one lim ephemeral a l = Some l'.

(** The device of [Device::new]. *)
Record started (configs : list peer_config) (l : live) : Prop := {
  started_initial : initial_ok configs;
  started_roles : Forall (in_role relays) configs;
  started_moment : is_Some (stamp st (live_time l));
  started_ticks : live_ticks l = 0;
  started_new : ∃ priv au draws seeded secret nonce pool g, initialize draws Index.new = Some seeded ∧ pool_inv pool ∧
    device_new lim priv au configs Index.new st draws secret nonce pool (live_time l) = Some (Ok (live_device l), g)
}.

Lemma add_initial_room cs priv now ps g r g' :
  add_initial lim cs priv st now ps g = Some (r, g') → within_capacity (max_peers lim) (size (peers ps)) →
  ∀ ps', r = Ok ps' → within_capacity (max_peers lim) (size (peers ps')).
Proof.
  revert ps g; induction cs as [|c cs IH]; intros ps g E Hs ps' Hr; cbn [add_initial] in E; [by simplify_eq|].
  destruct (add_peer_to_state lim ps c priv g st now) as [[[r1 s1] g1]|] eqn:Ea; [|done].
  cbn [mbind option_bind] in E. destruct r1; [|by simplify_eq].
  eapply IH; [exact E| |done]. by eapply add_peer_room.
Qed.

Lemma started_live configs (l : live) n :
  started configs l → Z.of_nat n + Z.of_nat (length configs) ≤ LFSR_MAX →
  live_at lim ephemeral relays st n (live_time l) l.
Proof.
  intros [Hi Hr Hst Ht (priv & au & draws & seeded & sk & nk & pool & g & Hg & Hp & Hnew)] Hn.
  destruct (device_new_spec lim relays priv au configs st draws sk nk pool (live_time l) seeded Hg Hi Hr Hp Hst)
    as (r & g' & E & Hd). rewrite Hnew in E. injection E as <- <-.
  destruct (Hd _ eq_refl) as [Hwf Hrem]. split; [done| |done| |by eapply device_new_stamper].
  - rewrite Ht. by eapply ReachNew.
  - split; [destruct Hwf as [hq Hwf]; apply Hwf|lia|].
    unfold device_new in Hnew. rewrite Hg in Hnew. destruct seeded as [g0 rest]. cbn [mbind option_bind] in Hnew.
    destruct (add_initial _ _ _ _ _ _ _) as [[[s|e] g1]|] eqn:Ea; cbn [mbind option_bind] in Hnew; [|done..].
    injection Hnew as <- _. cbn. eapply add_initial_room; [exact Ea| |done].
    cbn. rewrite map_size_empty. by destruct (max_peers lim); simpl; [lia|].
Qed.

(** The additions among the commands that were served. *)
Definition added_peers (ls : list label) : nat := sum_list_with (λ cr, cost cr.1) (served ls).

Lemma added_peers_snoc ls l : added_peers (ls ++ [l]) = (added_peers ls + added_peers [l])%nat.
Proof. unfold added_peers. rewrite served_app. apply sum_list_with_app. Qed.

(** The device of a run, with indexes left for [n] more peers. *)
Record in_order (n : nat) s : Prop := {
  order_live : live_at lim ephemeral relays st n (live_time (served_device s)) (served_device s);
  order_commands c : carried s c → keeps_roles relays c
}.

Lemma cost_le c : (cost c + 0 ≤ 1)%nat.
Proof. destruct c; simpl; lia. Qed.

Lemma keeps_valid c : keeps_roles relays c → command_valid c.
Proof. destruct c; try done; intros [[Hips _ _] _]; exact Hips. Qed.

Lemma in_order_stays n s l s' :
  in_order (n + added_peers [l]) s → (∀ i c, l = Invoked i c → keeps_roles relays c) →
  step live_serves live_event s l s' → in_order n s'.
Proof.
  intros [Hl Hc] Hinv Hs.
  assert (∀ c, carried s' c → keeps_roles relays c) as Hc'.
  { intros c Hcar. destruct (carried_step _ _ _ _ _ c Hs Hcar) as [?|[->|[i ->]]]; [by apply Hc|done|by eapply Hinv]. }
  split; [|exact Hc'].
  assert (served_device s' = served_device s → live_at lim ephemeral relays st n (live_time (served_device s')) (served_device s'))
    as Hsame.
  { intros ->. eapply live_at_le; [|exact Hl]. lia. }
  destruct Hs as [| | |? ? ? ? ? Hb|? ? ? ? ? ? Hb|? ? ? ? ? ? Hb| | |? ? ? ? Hb|s c r d Hlo Hd|s d Hlo Hd| |];
    try (by apply Hsame).
  - apply Hsame. by apply submit_cases in Hb as [[_ ->]|[? _]].
  - apply Hsame. by apply submit_cases in Hb as [[? _]|(_ & -> & _)].
  - apply Hsame. by apply wait_next_cases in Hb as [(_ & m & _ & ->)|(_ & -> & _)].
  - apply Hsame. unfold receive_command in Hb. destruct (receive _) as [[]|];
      [by injection Hb as _ <-|destruct (closes && _); [by injection Hb as _ <-|done]].
  - destruct Hd as (b & now & Hat & Hb & E). assert (keeps_roles relays c) as Hk by (apply Hc; by right; right).
    unfold added_peers in Hl. cbn in Hl. rewrite Nat.add_0_r, Nat.add_comm in Hl.
    destruct (serve_one_spec lim ephemeral relays st n _ now c b _ Hl Hat Hb Hk (keeps_valid c Hk))
      as (r' & l' & E' & Hl' & _). rewrite E in E'. injection E' as <- <-. cbn. by rewrite (live_now _ _ _ _ _ _ _ Hl').
  - destruct Hd as (a & Ha & E). unfold added_peers in Hl. cbn in Hl. rewrite Nat.add_0_r in Hl.
    destruct (attend_one_spec lim ephemeral relays st n _ a _ Hl Ha) as (l' & E' & Hl' & _).
    rewrite E in E'. injection E' as <-. cbn. by rewrite (live_now _ _ _ _ _ _ _ Hl').
Qed.

Lemma in_order_steps n (l : live) ls s :
  live_at lim ephemeral relays st (n + added_peers ls) (live_time l) l →
  (∀ i c, Invoked i c ∈ ls → keeps_roles relays c) →
  steps live_serves live_event (system_new l) ls s → in_order n s.
Proof.
  intros Hl Hinv Hs. remember (system_new l) as s0 eqn:E. revert n Hl.
  induction Hs as [|s0 ls s1 x s2 _ IH Hs]; subst; intros n Hl.
  - split; [cbn; by rewrite Nat.add_0_r in Hl|]. intros c [(i & p & Hp & _)|[Hc|Hc]]; [done| |done].
    cbn in Hc. by rewrite unseen_channel in Hc.
  - rewrite added_peers_snoc in Hl. apply (in_order_stays n s1 x); [|intros i c ->; apply (Hinv i); set_solver|done].
    apply IH; [intros i c ?; apply (Hinv i); set_solver|done|].
    by replace (n + added_peers [x] + added_peers ls)%nat with (n + (added_peers ls + added_peers [x]))%nat by lia.
Qed.

Definition some_buffers : buffers := Buffers (repeat 0 MAX_PACKET_SIZE) (repeat 0 MAX_PACKET_SIZE) (repeat 0 MAX_PACKET_SIZE).

(** The device answers every command that is on its way. *)
Lemma in_order_answering s :
  in_order 1 s → closes = true ∨ serving_loop s ≠ Stopped → answering live_serves s.
Proof.
  intros [Hl Hc] Ho. split; [done|]. intros c Hf%in_flight_carried. pose proof (Hc c Hf) as Hk.
  assert (live_at lim ephemeral relays st (cost c + 0) (live_time (served_device s)) (served_device s)) as Hl'
    by (by eapply live_at_le; [apply cost_le|]).
  assert (after st (live_time (served_device s)) (live_time (served_device s))) as Hat.
  { split; [done|]. destruct Hl as [_ _ [hq Hwf] _ <-]. apply Hwf. }
  assert (buffers_ok some_buffers) as Hb by (split; apply repeat_length).
  destruct (serve_one_spec lim ephemeral relays st 0 _ _ c some_buffers _ Hl' Hat Hb Hk (keeps_valid c Hk))
    as (r & l' & E & _). exists r, l'. by exists some_buffers, (live_time (served_device s)).
Qed.

(** C8: a device that any number of tasks configure while it is on the network
    never panics and answers them. From [Device::new], as long as the commands
    keep the roles of the peers and indexes are left, in every state that calls,
    cancellations, packets and ticks lead to: the device is one that [DeviceRun]
    reaches, so that all theorems about its events hold; the next packet or tick
    is handled, and so is the command that was taken; and the call that has the
    lock can return within five steps, of itself and of the device. *)
Theorem shared_device_never_panics configs (l : live) ls s :
  started configs l → steps live_serves live_event (system_new l) ls s →
  (∀ i c, Invoked i c ∈ ls → keeps_roles relays c) →
  Z.of_nat (added_peers ls) + Z.of_nat (length configs) < LFSR_MAX →
  let d := served_device s in
  reachable lim ephemeral (live_time d) (live_ticks d) (live_device d) ∧
  (∀ a, arrival_ok st (live_time d) a → is_Some (attend_one lim ephemeral a d)) ∧
  (∀ c b now, serving_loop s = Handling c → after st (live_time d) now → buffers_ok b →
    is_Some (serve_one lim ephemeral c b now d)) ∧
  ∀ i, owner s = Some i → closes = true ∨ serving_loop s ≠ Stopped → returns live_serves live_event 5 i s.
Proof.
  intros Hst Hs Hinv Hn d. unfold d; clear d. assert (in_order 1 s) as Ho.
  { eapply in_order_steps; [|exact Hinv|exact Hs]. apply (started_live configs); [done|lia]. }
  pose proof Ho as [Hl Hc]. split; [apply Hl|]. split; [|split].
  - intros a Ha. destruct (attend_one_spec lim ephemeral relays st 1 _ a _ Hl Ha) as (l' & -> & _). by eexists.
  - intros c b now Hlo Hat Hb. assert (keeps_roles relays c) as Hk by (apply Hc; by right; right).
    assert (live_at lim ephemeral relays st (cost c + 0) (live_time (served_device s)) (served_device s)) as Hl'
      by (by eapply live_at_le; [apply cost_le|]).
    destruct (serve_one_spec lim ephemeral relays st 0 _ now c b _ Hl' Hat Hb Hk (keeps_valid c Hk))
      as (r & l' & -> & _). by eexists.
  - intros i Hi Hop. eapply holder_returns; [done|done|]. by apply in_order_answering.
Qed.
End shared.

(** ** Example: a call that is cancelled while the device adds a peer *)

#[local] Existing Instances toy_pool toy_pool_laws toy_noise toy_order.

Definition toy_relay_keys : gset bytes := {[@public_from toy_noise [3]]}.

(** The peer 4, behind the peer 3. *)
Definition toy_relayed : peer_config :=
  PeerConfig (@public_from toy_noise [4]) None [NetV4 (Ipv4Net 0x0a000400 24)] (Some 25) (Some (@public_from toy_noise [3])).

Lemma toy_relayed_keeps : keeps_roles toy_relay_keys (Add toy_relayed).
Proof.
  split; [split|].
  - repeat constructor; vm_compute; congruence.
  - reflexivity.
  - cbn. lia.
  - intros r [= <-]. decide_now.
Qed.

Abbreviation toy_live := (live (P := Heap.pool) (A := generic_authorizer)).
Definition toy_online : toy_live := Live (toy_device toy_two) (from_secs 1) 0 0.

Lemma toy_started : started no_limits toy_relay_keys toy_stamper toy_two toy_online.
Proof.
  split.
  - exact toy_initial_ok.
  - repeat constructor; done.
  - vm_compute. by eexists.
  - done.
  - assert (∃ g', toy_start toy_two = Some (Ok (toy_device toy_two), g')) as [g' Hg'].
    { destruct (toy_start toy_two) as [[[d|e] g']|] eqn:E; [|vm_compute in E; discriminate..].
      exists g'. unfold toy_device. by rewrite E. }
    exists [1], AllowAll, [5; 9], (IndexGenerator 5 LFSR_MAX 9, []), [6], [7], Heap.new, g'.
    split; [reflexivity|]. split; [exact (Heap.heap_inv_new 8 4096)|exact Hg'].
Qed.

Abbreviation toy_live_serves := (live_serves (P := Heap.pool) (A := generic_authorizer) no_limits toy_secrets toy_stamper).
Abbreviation toy_live_event := (live_event (P := Heap.pool) (A := generic_authorizer) no_limits toy_secrets toy_stamper).

(** A packet of the interface. *)
Definition toy_arrival : arrival := Arrival (FromInterface (toy_ip 2 40)) (from_secs 2) toy_buffers.

Lemma toy_arrival_ok : arrival_ok toy_stamper (from_secs 1) toy_arrival.
Proof.
  split; [split; [vm_compute; congruence|vm_compute; by eexists]|exact toy_buffers_ok|].
  split; [decide_now|]. vm_compute. lia.
Qed.

Definition toy_packet_sent : toy_live :=
  match attend_one no_limits toy_secrets toy_arrival toy_online with
  | Some l => l
  | None => toy_online
  end.

Lemma toy_packet_handled : toy_live_event toy_online toy_packet_sent.
Proof.
  exists toy_arrival. split; [exact toy_arrival_ok|]. unfold toy_packet_sent.
  destruct (attend_one no_limits toy_secrets toy_arrival toy_online) as [l|] eqn:E; [done|].
  assert (is_Some (attend_one no_limits toy_secrets toy_arrival toy_online)) as [l Hl] by (vm_compute; by eexists).
  by rewrite E in Hl.
Qed.

(** After an event of the device a call submits [c] and is cancelled, and
    another waits to submit [c']. *)
Definition cancelled_call (c c' : command) : list label :=
  [DeviceEvent; Invoked 0 c; Silent; Silent; Silent; Silent; Cancelled 0; Invoked 1 c'; Silent].

Lemma cancelled_call_run {D} (serves : command → D → completion → D → Prop) (other : D → D → Prop) d d' c c' :
  other d d' → ∃ s : @system watch D,
    steps serves other (system_new d) (cancelled_call c c') s ∧
    served_device s = d' ∧ serving_loop s = Handling c ∧ owner s = Some 1%nat.
Proof.
  intros Hd. eexists. split.
  { eapply steps_cons; [by eapply step_device|].
    eapply steps_cons; [by apply step_invoke|].
    eapply steps_cons; [by eapply (step_lock _ _ _ 0 c)|].
    eapply steps_cons; [by eapply (step_discard _ _ _ 0 c)|].
    eapply steps_cons; [by eapply (step_submit _ _ _ 0 c)|].
    eapply steps_cons; [by eapply (step_receive _ _ _ c)|].
    eapply steps_cons; [by eapply (step_cancel _ _ _ 0 c)|].
    eapply steps_cons; [by apply step_invoke|].
    eapply steps_cons; [by eapply (step_lock _ _ _ 1 c')|].
    constructor. }
  done.
Qed.

Lemma cancelled_call_invoked c c' i x : Invoked i x ∈ cancelled_call c c' → x = c ∨ x = c'.
Proof.
  unfold cancelled_call. rewrite !elem_of_cons, elem_of_nil.
  intros [?|[[= _ ->]|[?|[?|[?|[?|[?|[[= _ ->]|[?|[]]]]]]]]]]; by try (left + right).
Qed.

Definition toy_labels : list label := cancelled_call (Add toy_relayed) (Get (config_public_key toy_relayed)).

Lemma shared_device_never_panics_witness : ∃ s : @system watch toy_live,
  steps toy_live_serves toy_live_event (system_new toy_online) toy_labels s ∧
  @reachable Heap.pool toy_pool toy_pool_laws toy_noise toy_order generic_authorizer _ no_limits toy_secrets
    (live_time toy_packet_sent) (live_ticks toy_packet_sent) (live_device toy_packet_sent) ∧
  is_Some (serve_one no_limits toy_secrets (Add toy_relayed) toy_buffers (from_secs 3) toy_packet_sent) ∧
  @returns watch _ toy_live_serves toy_live_event 5 1 s.
Proof.
  destruct (cancelled_call_run toy_live_serves toy_live_event toy_online toy_packet_sent (Add toy_relayed)
    (Get (config_public_key toy_relayed)) toy_packet_handled) as (s & Hs & Hd & Hl & Ho). exists s. split; [exact Hs|].
  destruct (shared_device_never_panics (B := watch_laws) (Q := toy_pool_laws) (L := toy_noise_laws) (V := toy_open_laws)
    (MO := toy_order_laws) no_limits toy_secrets toy_relay_keys toy_stamper toy_two toy_online toy_labels s toy_started Hs)
    as (Hr & _ & Hserve & Hreturns).
  - intros i c [-> | ->]%cancelled_call_invoked; [exact toy_relayed_keeps|exact I].
  - vm_compute. reflexivity.
  - rewrite Hd in *. split; [exact Hr|]. split; [|exact (Hreturns 1%nat Ho (or_introl eq_refl))].
    apply Hserve; [exact Hl| |exact toy_buffers_ok]. split; [vm_compute; congruence|vm_compute; by eexists].
Defined.
