(* ===== verification/Desktop.v ===== *)
(** * The desktop client: [src/desktop-client]

    What the client does between its configuration file and the loops of the
    device and of the reconciler: the directory servers become peers of the
    device and the first directories of the reconciler, and network maps are
    fetched from the directories over HTTP. Name resolution, the HTTP exchange
    and the decoding of a map are arguments; a string is the list of its UTF-8
    bytes. *)

From S2P Require Import Prelude IpNet AddrText AllowedIps Index Timestamper Relay Bounded PacketPool PeerHealth Handshake.
From S2P Require Import RateLimiter Timers Tunn TunnTotal PeerTable Device DeviceSafe DeviceRun Routes Reconciler ReconcilerSafe.
From S2P Require Import ReconcilerSpec ReconcilerDevice DeviceLive.

(** ** Configuration: [config.rs] *)

Record directory := Directory {
  directory_public_key : bytes;
  directory_tunnel_ips : list ip_addr;
  directory_endpoint : bytes
}.

(** [E] is what the code outside of the crate fails with. *)
Inductive desktop_error (E : Type) : Type :=
  | NoDirectories
  | NoTunnelIps (public_key : bytes)
  | NoEndpoint (public_key : bytes)
  | Unresolved (e : E)
  | NoAddresses
  | InvalidPrefix
  | InvalidId
  | InvalidUrl
  | HttpFailed (e : E)
  | HttpStatus (status : Z)
  | InvalidMap (e : E)
  | DeviceFailed (e : error).
Arguments NoDirectories {E}.
Arguments NoTunnelIps {E}.
Arguments NoEndpoint {E}.
Arguments Unresolved {E}.
Arguments NoAddresses {E}.
Arguments InvalidPrefix {E}.
Arguments InvalidId {E}.
Arguments InvalidUrl {E}.
Arguments HttpFailed {E}.
Arguments HttpStatus {E}.
Arguments InvalidMap {E}.
Arguments DeviceFailed {E}.

Class directory_peer (T E : Type) := {
  public_key_of : T → bytes;
  tunnel_ips_of : T → list ip_addr;
  endpoint_of : T → result (option socket_addr) (desktop_error E)
}.

(** [to_socket_addrs] of a host and a port in one string. *)
Definition resolver (E : Type) : Type := bytes → result (list socket_addr) E.

#[global] Instance configured_directory {E} (resolve : resolver E) : directory_peer directory E := {|
  public_key_of := directory_public_key;
  tunnel_ips_of := directory_tunnel_ips;
  endpoint_of d :=
    let? l := map_err Unresolved (resolve (directory_endpoint d)) in
    let? a := ok_or (head l) NoAddresses in
    Ok (Some a)
|}.

Fixpoint find_direct_endpoint (routes : list map_route) : option socket_addr :=
  match routes with
  | [] => None
  | r :: routes =>
      match route_kind_of r with
      | RouteDirect (Some endpoint) => Some endpoint
      | _ => find_direct_endpoint routes
      end
  end.

#[global] Instance map_directory {E} : directory_peer map_peer E := {|
  public_key_of := map_public_key;
  tunnel_ips_of p := match tunnel_ip p with Some ip => [ip] | None => [] end;
  endpoint_of p := Ok (find_direct_endpoint (map_routes p))
|}.

(** [collect] of results: the first error. *)
Fixpoint collect {A B E} (f : A → result B E) (l : list A) : result (list B) E :=
  match l with
  | [] => Ok []
  | x :: l =>
      let? y := f x in
      let? ys := collect f l in
      Ok (y :: ys)
  end.

(** ** Fetching a map: [http_client.rs] and [directory.rs] *)

Record map_endpoint := MapEndpoint { host_text : bytes; port : Z; path : bytes }.

Definition DEFAULT_HTTP_PORT : Z := 80.
(** ["/v1alpha1/map"] *)
Definition NETWORK_MAP_PATH : bytes := [47; 118; 49; 97; 108; 112; 104; 97; 49; 47; 109; 97; 112].

Definition fmt_ip_addr (a : ip_addr) : bytes :=
  concat (match a with IpV4 x => fmt_ipv4_addr x | IpV6 x => fmt_ipv6_addr x end).

Section fetch.
Context {E : Type}.

Definition from_directory {T} `{directory_peer T E} (d : T) : result map_endpoint (desktop_error E) :=
  let? ip := ok_or (head (tunnel_ips_of d)) (NoTunnelIps (public_key_of d)) in
  Ok (MapEndpoint (fmt_ip_addr ip) DEFAULT_HTTP_PORT NETWORK_MAP_PATH).

(** A host with a colon is an IPv6 address, which a URL has in brackets. *)
Definition format_http_host (h : bytes) : bytes :=
  if bool_decide (ch_colon ∈ h) && negb (bool_decide (head h = Some 91)) then [91] ++ h ++ [93] else h.

(** ["http://{}:{}{}"] *)
Definition request_url (e : map_endpoint) : bytes :=
  [104; 116; 116; 112; 58; 47; 47] ++ format_http_host (host_text e) ++ [ch_colon] ++ digits 5 10 (port e) ++ path e.

(** The code of other crates: [dns] resolves the hosts that are no addresses,
    [parse_uri] is hyper's, [connect] the connection through the interface of
    the tunnel and the handshake on it, [send_request] the exchange, with the
    status and the body, and [decode] postcard's. The attempts of one fetch are
    numbered. *)
Class http := {
  dns : bytes → Z → result (list socket_addr) E;
  parse_uri : bytes → bool;
  connect : nat → socket_addr → result unit E;
  send_request : nat → socket_addr → bytes → result (Z * result bytes E) E;
  decode : bytes → result network_map E
}.
Context `{http}.

(** [to_socket_addrs] of a host and a port. *)
Definition socket_addr_of (e : map_endpoint) : result socket_addr (desktop_error E) :=
  let? l :=
    match ip_addr_from_str (host_text e) with
    | Some (IpV4 a) => Ok [SockV4 a (port e)]
    | Some (IpV6 a) => Ok [SockV6 a (port e) 0 0]
    | None => map_err Unresolved (dns (host_text e) (port e))
    end in
  ok_or (head l) NoAddresses.

Definition get_network_map_bytes (attempt : nat) (e : map_endpoint) : result bytes (desktop_error E) :=
  let? a := socket_addr_of e in
  let? _ := map_err HttpFailed (connect attempt a) in
  if parse_uri (request_url e) then
    let? '(status, body) := map_err HttpFailed (send_request attempt a (request_url e)) in
    if (200 <=? status) && (status <? 300) then map_err HttpFailed body else Err (HttpStatus status)
  else Err InvalidUrl.

Definition get_network_map (attempt : nat) (e : map_endpoint) : result network_map (desktop_error E) :=
  let? body := get_network_map_bytes attempt e in
  map_err InvalidMap (decode body).

(** The loop of [fetch]. *)
Fixpoint fetch_from {T} `{directory_peer T E} (attempt : nat) (last_error : desktop_error E) (directories : list T) :
    result network_map (desktop_error E) :=
  match directories with
  | [] => Err last_error
  | d :: directories =>
      let? e := from_directory d in
      match get_network_map attempt e with
      | Ok m => Ok m
      | Err e => fetch_from (S attempt) e directories
      end
  end.

(** The first error is never seen, since there is a directory. *)
Definition fetch {T} `{directory_peer T E} (directories : list T) : result network_map (desktop_error E) :=
  match directories with
  | [] => Err NoDirectories
  | _ => fetch_from 0 NoDirectories directories
  end.
End fetch.

(** ** Starting: [main.rs] *)

Section start.
Context {E : Type}.

Definition directory_peer_config {T} `{directory_peer T E} (d : T) : result peer_config (desktop_error E) :=
  let? allowed_ips := collect (λ ip,
    map_err (λ _, InvalidPrefix) (ip_net_new ip (match ip with IpV4 _ => 32 | IpV6 _ => 128 end)))
    (tunnel_ips_of d) in
  let? endpoint := endpoint_of d in
  let? endpoint := ok_or endpoint (NoEndpoint (public_key_of d)) in
  Ok (PeerConfig (public_key_of d) (Some endpoint) allowed_ips (Some 25) None).

Definition directory_peer_configs {T} `{directory_peer T E} (directories : list T) :
    result (list peer_config) (desktop_error E) :=
  match directories with
  | [] => Err NoDirectories
  | _ => collect directory_peer_config directories
  end.

(** The directories with their positions; an id is an [i64]. *)
Definition reconciler_directory (resolve : resolver E) (p : nat * directory) : result map_peer (desktop_error E) :=
  let '(index, d) := p in
  if Z.of_nat index <? 2 ^ 63 then
    let? endpoint := endpoint_of (directory_peer := configured_directory resolve) d in
    Ok (MapPeer (Z.of_nat index) (directory_public_key d) (head (directory_tunnel_ips d)) true
      [MapRoute 0 (RouteDirect endpoint)])
  else Err InvalidId.

Definition reconciler_directories_from_config (resolve : resolver E) (directories : list directory) :
    result (list map_peer) (desktop_error E) :=
  match directories with
  | [] => Err NoDirectories
  | _ => collect (reconciler_directory resolve) (imap pair directories)
  end.

Context {P : Type} `{packet_pool P} `{noise_crypto} `{map_order}.

(** [main], from the parsed configuration to the two loops; the names of the
    directories are resolved twice. *)
Definition start (directories : list directory) (private_key : bytes) (relay : bool) (resolve resolve' : resolver E)
    (stamper : time_stamper) (draws : list Z) (secret_key nonce_key : bytes) (pool : P) (now : Z)
    : option (result (device P generic_authorizer * reconciler) (desktop_error E)) :=
  let forwarding_authorizer := if relay then AllowAll else RejectAll in
  match directory_peer_configs (H := configured_directory resolve) directories with
  | Err e => Some (Err e)
  | Ok peers =>
      let! '(r, _) := device_new (Limits None None) private_key forwarding_authorizer peers Index.new stamper draws
        secret_key nonce_key pool now in
      Some (let? d := map_err DeviceFailed r in
            let? dirs := reconciler_directories_from_config resolve' directories in
            Ok (d, reconciler_new dirs))
  end.
End start.

Arguments http : clear implicits.

(** ** What is fetched *)

Section fetched.
Context {E : Type} `{h : http E} {T : Type} `{directory_peer T E}.
Implicit Types (ds : list T).

(** The attempt with the [i]-th directory fails with [x]. *)
Definition attempt_fails (i : nat) (d : T) (x : desktop_error E) : Prop :=
  ∃ e, from_directory d = Ok e ∧ get_network_map i e = Err x.

Lemma from_directory_cases (d : T) :
  match from_directory d with
  | Ok e => ∃ ip, head (tunnel_ips_of d) = Some ip ∧ e = MapEndpoint (fmt_ip_addr ip) DEFAULT_HTTP_PORT NETWORK_MAP_PATH
  | Err x => x = NoTunnelIps (public_key_of d) ∧ tunnel_ips_of d = []
  end.
Proof. unfold from_directory. destruct (tunnel_ips_of d) as [|ip l]; cbn; eauto. Qed.

Lemma fetch_from_spec i x0 ds :
  match fetch_from i x0 ds with
  | Ok m => ∃ pre d post e, ds = pre ++ d :: post ∧ from_directory d = Ok e ∧
      get_network_map (i + length pre) e = Ok m ∧
      ∀ j d', pre !! j = Some d' → ∃ x, attempt_fails (i + j) d' x
  | Err x =>
      (∃ pre d post, ds = pre ++ d :: post ∧ tunnel_ips_of d = [] ∧ x = NoTunnelIps (public_key_of d) ∧
        ∀ j d', pre !! j = Some d' → ∃ x', attempt_fails (i + j) d' x') ∨
      ((∀ j d', ds !! j = Some d' → ∃ x', attempt_fails (i + j) d' x') ∧
        match last ds with
        | Some d => attempt_fails (i + (length ds - 1)) d x
        | None => x = x0
        end)
  end.
Proof.
  revert i x0. induction ds as [|d ds IH]; intros i x0; cbn [fetch_from].
  { by right. }
  pose proof (from_directory_cases d) as Hd. destruct (from_directory d) as [e|x] eqn:He; cbn [result_bind].
  2: { destruct Hd as [-> Hd]. left. by exists [], d, ds. }
  destruct (get_network_map i e) as [m|x] eqn:Hm.
  { exists [], d, ds, e. by rewrite Nat.add_0_r. }
  assert (∀ (l : list T), (∀ j d', l !! j = Some d' → ∃ x', attempt_fails (S i + j) d' x') →
    ∀ j d', (d :: l) !! j = Some d' → ∃ x', attempt_fails (i + j) d' x') as Hcons.
  { intros l Hl [|j] d' Hj; cbn in Hj.
    - injection Hj as <-. exists x, e. by rewrite Nat.add_0_r.
    - rewrite Nat.add_succ_r. by apply Hl. }
  specialize (IH (S i) x). destruct (fetch_from (S i) x ds) as [m|x'].
  - destruct IH as (pre & d1 & post & e1 & -> & ? & Hm1 & Hpre). exists (d :: pre), d1, post, e1.
    split_and!; [done|done| |by apply Hcons]. simpl. by rewrite Nat.add_succ_r.
  - destruct IH as [(pre & d1 & post & -> & ? & ? & Hpre)|[Hall Hlast]].
    + left. exists (d :: pre), d1, post. split_and!; [done..|by apply Hcons].
    + right. split; [by apply Hcons|]. destruct ds as [|d1 ds].
      * cbn in Hlast |- *. subst x'. exists e. by rewrite Nat.add_0_r.
      * rewrite last_cons_cons. destruct (last (d1 :: ds)) as [d2|] eqn:Hl; [|by apply last_None in Hl].
        replace (i + (length (d :: d1 :: ds) - 1))%nat with (S i + (length (d1 :: ds) - 1))%nat by (simpl; lia). done.
Qed.

(** C25: the outcomes of fetching a map. The directories are asked in order; the
    map is that of the first that answers with one. There is no map only when
    there is no directory, when every directory failed (the last error is
    reported), or when one without a tunnel IP came before any that answers:
    that one ends the fetch. *)
Theorem fetch_outcomes ds :
  match fetch ds with
  | Ok m => ∃ pre d post e, ds = pre ++ d :: post ∧ from_directory d = Ok e ∧
      get_network_map (length pre) e = Ok m ∧ ∀ j d', pre !! j = Some d' → ∃ x, attempt_fails j d' x
  | Err x =>
      (ds = [] ∧ x = NoDirectories) ∨
      (∃ pre d post, ds = pre ++ d :: post ∧ tunnel_ips_of d = [] ∧ x = NoTunnelIps (public_key_of d) ∧
        ∀ j d', pre !! j = Some d' → ∃ x', attempt_fails j d' x') ∨
      (∃ pre d, ds = pre ++ [d] ∧ (∀ j d', ds !! j = Some d' → ∃ x', attempt_fails j d' x') ∧
        attempt_fails (length pre) d x)
  end.
Proof.
  destruct ds as [|d ds]; [by left|]. pose proof (fetch_from_spec 0 NoDirectories (d :: ds)) as Hf.
  change (fetch (d :: ds)) with (fetch_from 0 NoDirectories (d :: ds)). cbn [Nat.add] in Hf.
  destruct (fetch_from 0 NoDirectories (d :: ds)) as [m|x]; [done|]. right.
  destruct Hf as [?|[Hall Hlast]]; [by left|]. right.
  destruct (last (d :: ds)) as [d'|] eqn:Hl; [|by apply last_None in Hl].
  apply last_Some in Hl as [pre Hpre]. exists pre, d'. split_and!; [done..|].
  rewrite Hpre, length_app in Hlast. simpl in Hlast. by rewrite Nat.add_sub in Hlast.
Qed.

(** A directory without a tunnel IP hides the ones after it. *)
Lemma addressless_directory_ends_fetch d post :
  tunnel_ips_of d = [] → fetch (d :: post) = Err (NoTunnelIps (public_key_of d)).
Proof. intros Hd. unfold fetch. cbn [fetch_from]. unfold from_directory. by rewrite Hd. Qed.
End fetched.

(** ** Starting *)

(** The [std] build has no limits. *)
Definition unlimited : limits := Limits None None.

Section collected.
Context {A B E : Type} (f : A → result B E).

Lemma collect_all (g : A → B) l : (∀ x, x ∈ l → f x = Ok (g x)) → collect f l = Ok (map g l).
Proof.
  induction l as [|x l IH]; intros Hf; [done|]. cbn [collect map]. rewrite Hf by (by left).
  cbn [result_bind]. rewrite IH; [done|]. intros y Hy. apply Hf. by right.
Qed.
End collected.

Section started.
Context {P : Type} `{Q : packet_pool_laws P} `{L : noise_laws, V : !noise_open_laws} `{MO : map_order_laws}.
Implicit Types (c : peer_config) (cs : list peer_config).

Definition blocks_count cs : nat := sum_list_with (λ c, length (config_allowed_ips c)) cs.

(** Configurations that fit on one device. *)
Record compatible cs : Prop := {
  compatible_keys : NoDup (config_public_key <$> cs);
  compatible_valid c : c ∈ cs → Forall ip_net_valid (config_allowed_ips c);
  compatible_blocks c c' n n' : c ∈ cs → c' ∈ cs → n ∈ map Table.normalize (config_allowed_ips c) →
    n' ∈ map Table.normalize (config_allowed_ips c') → share n n' →
    config_public_key c = config_public_key c' ∧ n = n';
  compatible_count : (1 + 2 * blocks_count cs ≤ Trie.node_limit None)%nat
}.

Definition views cs : gmap bytes view := list_to_map ((λ c, (config_public_key c, config_view c)) <$> cs).

Lemma views_lookup cs k v :
  NoDup (config_public_key <$> cs) →
  views cs !! k = Some v ↔ ∃ c, c ∈ cs ∧ config_public_key c = k ∧ config_view c = v.
Proof.
  intros Hnd. unfold views. rewrite <- elem_of_list_to_map.
  - rewrite list_elem_of_fmap. split; [intros (c & [= -> ->] & Hc); by exists c|intros (c & Hc & <- & <-); by exists c].
  - by rewrite <- list_fmap_compose.
Qed.

(** The blocks of the configurations, with their keys. *)
Definition keyed_blocks cs : list (bytes * ip_net) :=
  c ← cs; (λ n, (config_public_key c, n)) <$> map Table.normalize (config_allowed_ips c).

Lemma keyed_blocks_elem cs k n :
  (k, n) ∈ keyed_blocks cs ↔
    ∃ c, c ∈ cs ∧ config_public_key c = k ∧ n ∈ map Table.normalize (config_allowed_ips c).
Proof.
  unfold keyed_blocks. rewrite list_elem_of_bind. split.
  - intros (c & (n' & [= -> ->] & Hn)%list_elem_of_fmap & Hc). by exists c.
  - intros (c & Hc & <- & Hn). exists c. split; [|done]. apply list_elem_of_fmap. by exists n.
Qed.

Lemma keyed_blocks_length cs : length (keyed_blocks cs) = blocks_count cs.
Proof.
  induction cs as [|c cs IH]; [done|]. change (keyed_blocks (c :: cs)) with
    (((λ n, (config_public_key c, n)) <$> map Table.normalize (config_allowed_ips c)) ++ keyed_blocks cs).
  rewrite length_app, length_fmap, length_map, IH. done.
Qed.

(** What the tables show, as [shown_by] of a device does. *)
Definition shown_state (s : peer_state) : gmap bytes view := view_of <$> peers s.

Lemma assigned_shown s n k : assigned s n k ↔ ∃ v, shown_state s !! k = Some v ∧ n ∈ view_blocks v.
Proof.
  unfold shown_state, assigned. rewrite lookup_fmap. split.
  - intros (p & -> & Hn). exists (view_of p). split; [done|]. cbn. apply elem_of_dom. by eexists.
  - intros (v & Hv & Hn). destruct (peers s !! k) as [p|]; [|done]. injection Hv as <-.
    exists p. split; [done|]. cbn in Hn. by apply elem_of_dom in Hn as [[] Hn].
Qed.

Lemma assigned_views s cs n k :
  NoDup (config_public_key <$> cs) → shown_state s = views cs →
  assigned s n k ↔ (k, n) ∈ keyed_blocks cs.
Proof.
  intros Hnd Hs. rewrite assigned_shown, Hs, keyed_blocks_elem. setoid_rewrite views_lookup; [|done]. split.
  - intros (v & (c & Hc & <- & <-) & Hn). exists c. cbn in Hn. by rewrite elem_of_list_to_set in Hn.
  - intros (c & Hc & <- & Hn). exists (config_view c). split; [by exists c|]. cbn. by apply elem_of_list_to_set.
Qed.

(** One more configuration of a compatible list. *)
Lemma add_next g s cs c priv st now :
  compatible (c :: cs) → shown_state s = views cs → wf_table g s → 0 < Index.remaining g →
  ∃ s' g', add_peer_to_state unlimited s c priv g st now = Some (Ok tt, s', g') ∧
    wf_table g' s' ∧ Index.remaining g - 1 ≤ Index.remaining g' ∧ shown_state s' = views (c :: cs).
Proof.
  intros [Hnd Hv Hb Hn] Hs Hwf Hr. apply NoDup_cons in Hnd as [Hc Hnd].
  destruct (add_peer_spec unlimited g s c priv st now Hwf Hr (Hv c ltac:(by left))) as (r & s' & g' & E & [Hwf' Hout] & Hle).
  pose proof (λ n k, assigned_views s cs n k Hnd Hs) as Ha.
  assert (blocks_count (c :: cs) = length (config_allowed_ips c) + blocks_count cs)%nat as Hcount by done.
  destruct r as [[]|e].
  { exists s', g'. split_and!; [done..|]. destruct Hout as (_ & _ & p & Hp & _ & Ht & _ & _ & Hre & Hbl).
    unfold shown_state, views. rewrite Hp, fmap_insert. cbn [fmap list_fmap list_to_map foldr uncurry].
    f_equal; [|exact Hs]. apply view_of_config; [done|done|]. by rewrite Ht. }
  exfalso. destruct e; cbn in Hout; try done.
  - destruct Hout as (_ & _ & [p Hp]). apply Hc, list_elem_of_fmap.
    assert (shown_state s !! config_public_key c = Some (view_of p)) as Hsp by (unfold shown_state; by rewrite lookup_fmap, Hp).
    rewrite Hs in Hsp. apply views_lookup in Hsp as (c' & Hc' & Hk & _); [|done]. by exists c'.
  - destruct Hout as (_ & n & n' & k & Hn1 & Hsh & [(-> & Hn2 & Hne)|[Hne Hk]]).
    + by destruct (Hb c c n n') as [_ ->]; [by left..|done|done|done|].
    + apply Ha, keyed_blocks_elem in Hk as (c' & Hc' & <- & Hn2).
      destruct (Hb c c' n n') as [Hk _]; [by left|by right|done..|]. by apply Hne.
  - destruct Hout as (_ & [[Hl|(bs & Hbs & Hin & Hl)]|[?|?]]); [| |done..].
    { change (max_allowed_ips_per_peer unlimited) with (@None nat) in Hl. lia. }
    change (max_routes unlimited) with (@None nat) in Hl.
    assert (bs ⊆+ keyed_blocks (c :: cs)) as Hsub%submseteq_length.
    { apply NoDup_submseteq; [done|]. intros [k n] Hkn. apply Hin in Hkn. apply keyed_blocks_elem.
      case_decide as Hk.
      - exists c. split_and!; [by left|done|done].
      - apply Ha, keyed_blocks_elem in Hkn as (c' & ? & ? & ?). exists c'. split_and!; [by right|done..]. }
    rewrite keyed_blocks_length in Hsub. lia.
Qed.

Lemma compatible_suffix cs cs' : compatible (cs ++ cs') → compatible cs'.
Proof.
  intros [Hnd Hv Hb Hn]. split.
  - rewrite fmap_app in Hnd. by apply NoDup_app in Hnd as (_ & _ & ?).
  - intros c Hc. apply Hv, elem_of_app. by right.
  - intros c c' n n' Hc Hc'. apply Hb; apply elem_of_app; by right.
  - unfold blocks_count in *. rewrite sum_list_with_app in Hn. lia.
Qed.

Lemma compatible_perm cs cs' : cs ≡ₚ cs' → compatible cs → compatible cs'.
Proof.
  intros Hp [Hnd Hv Hb Hn]. split.
  - by rewrite <- Hp.
  - intros c Hc. apply Hv. by rewrite Hp.
  - intros c c' n n' Hc Hc'. apply Hb; by rewrite Hp.
  - unfold blocks_count in *. by rewrite <- Hp.
Qed.

Lemma add_initial_all priv st now cs done s g :
  compatible (cs ++ done) → shown_state s = views done → wf_table g s →
  Z.of_nat (length cs) ≤ Index.remaining g →
  ∃ s' g', add_initial unlimited cs priv st now s g = Some (Ok s', g') ∧ wf_table g' s' ∧
    Index.remaining g - Z.of_nat (length cs) ≤ Index.remaining g' ∧ shown_state s' = views (rev cs ++ done).
Proof.
  revert done s g. induction cs as [|c cs IH]; intros done s g Hcs Hs Hwf Hr; cbn [add_initial length] in *.
  { exists s, g. split_and!; [done..|lia|done]. }
  assert (compatible (cs ++ c :: done)) as Hcs' by (eapply compatible_perm; [|exact Hcs]; by rewrite <- Permutation_middle).
  destruct (add_next g s done c priv st now) as (s1 & g1 & -> & Hwf1 & Hr1 & Hs1);
    [by eapply compatible_suffix|done|done|lia|].
  cbn [mbind option_bind]. destruct (IH (c :: done) s1 g1) as (s' & g' & -> & Hwf' & Hr' & Hs'); [done..|lia|].
  exists s', g'. split_and!; [done|done|lia|]. cbn [rev]. by rewrite <- app_assoc.
Qed.

(** *** From the directories *)

Context {E : Type}.

(** The first address a name resolves to, for names that do. *)
Definition resolved (resolve : resolver E) (d : directory) : socket_addr :=
  match resolve (directory_endpoint d) with
  | Ok (a :: _) => a
  | _ => SockV4 0 0
  end.

Definition resolves (resolve : resolver E) (d : directory) : Prop :=
  ∃ a l, resolve (directory_endpoint d) = Ok (a :: l).

Definition directory_config (resolve : resolver E) (d : directory) : peer_config :=
  PeerConfig (directory_public_key d) (Some (resolved resolve d)) (map host (directory_tunnel_ips d)) (Some 25) None.

Definition first_directory (resolve : resolver E) (p : nat * directory) : map_peer :=
  MapPeer (Z.of_nat p.1) (directory_public_key p.2) (head (directory_tunnel_ips p.2)) true
    [MapRoute 0 (RouteDirect (Some (resolved resolve p.2)))].

(** A configuration with which the client starts, and with indexes left for [n]
    more peers. *)
Record startable (resolve resolve' : resolver E) (n : nat) (ds : list directory) : Prop := {
  start_some : ds ≠ [];
  start_resolves d : d ∈ ds → resolves resolve d ∧ resolves resolve' d;
  start_keys : NoDup (directory_public_key <$> ds);
  start_key_lengths d : d ∈ ds → length (directory_public_key d) = KEY_LEN;
  start_addresses : NoDup (ds ≫= directory_tunnel_ips);
  start_valid d : d ∈ ds → Forall ip_addr_valid (directory_tunnel_ips d);
  start_blocks : (1 + 2 * length (ds ≫= directory_tunnel_ips) ≤ Trie.node_limit None)%nat;
  start_indexes : Z.of_nat (n + length ds) ≤ LFSR_MAX
}.

Lemma endpoint_resolved (resolve : resolver E) d :
  resolves resolve d → endpoint_of (directory_peer := configured_directory resolve) d = Ok (Some (resolved resolve d)).
Proof. intros (a & l & Hr). unfold resolved. cbn. by rewrite Hr. Qed.

Lemma directory_peer_config_ok (resolve : resolver E) d :
  resolves resolve d → directory_peer_config (H := configured_directory resolve) d = Ok (directory_config resolve d).
Proof.
  intros Hr. unfold directory_peer_config, directory_config.
  rewrite (collect_all _ host) by (by intros []). cbn [result_bind].
  rewrite endpoint_resolved by done. done.
Qed.

Lemma NoDup_bind_inj {A B} (f : A → list B) l x y b :
  NoDup (l ≫= f) → x ∈ l → y ∈ l → b ∈ f x → b ∈ f y → x = y.
Proof.
  induction l as [|a l IH]; [by intros _ ?%not_elem_of_nil|]. cbn [mbind list_bind].
  intros (_ & Hd & Hl)%NoDup_app Hx Hy Hbx Hby. apply elem_of_cons in Hx, Hy.
  destruct Hx as [->|Hx], Hy as [->|Hy]; [done| | |by apply IH].
  - destruct (Hd b Hbx). apply list_elem_of_bind. by exists y.
  - destruct (Hd b Hby). apply list_elem_of_bind. by exists x.
Qed.

Lemma blocks_count_directories (resolve : resolver E) ds :
  blocks_count (map (directory_config resolve) ds) = length (ds ≫= directory_tunnel_ips).
Proof.
  induction ds as [|d ds IH]; [done|]. cbn [mbind list_bind]. rewrite length_app, <- IH.
  unfold blocks_count. cbn. by rewrite length_map.
Qed.

Lemma directory_blocks (resolve : resolver E) d n :
  Forall ip_addr_valid (directory_tunnel_ips d) →
  n ∈ map Table.normalize (config_allowed_ips (directory_config resolve d)) →
  ∃ ip, ip ∈ directory_tunnel_ips d ∧ ip_addr_valid ip ∧ n = host ip.
Proof.
  rewrite Forall_forall. intros Hv (m & -> & (ip & -> & Hip)%list_elem_of_fmap)%list_elem_of_fmap.
  exists ip. split_and!; [done|by apply Hv|]. by apply host_normal, Hv.
Qed.

Lemma directories_compatible (resolve resolve' : resolver E) n ds :
  startable resolve resolve' n ds → compatible (map (directory_config resolve) ds).
Proof.
  intros [_ _ Hk _ Ha Hv Hb _]. split.
  - change (map (directory_config resolve) ds) with (directory_config resolve <$> ds).
    by rewrite <- list_fmap_compose.
  - intros c (d & -> & Hd)%list_elem_of_fmap. apply Forall_map. eapply Forall_impl; [by apply Hv|].
    apply host_valid.
  - intros c c' b b' (d & -> & Hd)%list_elem_of_fmap (d' & -> & Hd')%list_elem_of_fmap Hn Hn' Hs.
    apply directory_blocks in Hn as (ip & Hip & Hvip & ->); [|by apply Hv].
    apply directory_blocks in Hn' as (ip' & Hip' & Hvip' & ->); [|by apply Hv].
    apply host_shares, host_contains in Hs as ->; [|done..].
    by rewrite (NoDup_bind_inj directory_tunnel_ips ds d d' ip').
  - by rewrite blocks_count_directories.
Qed.

Lemma directories_initial_ok (resolve resolve' : resolver E) n ds :
  startable resolve resolve' n ds → initial_ok (map (directory_config resolve) ds).
Proof.
  intros [_ _ _ Hk _ Hv _ Hn]. split.
  - apply Forall_map, Forall_forall. intros d Hd. split; [|by apply Hk|done].
    cbn. apply Forall_map. eapply Forall_impl; [by apply Hv|]. apply host_valid.
  - rewrite length_map. lia.
  - by intros c c' (d & -> & _)%list_elem_of_fmap.
Qed.

Lemma directories_in_role relays (resolve : resolver E) ds : Forall (in_role relays) (map (directory_config resolve) ds).
Proof. by apply Forall_map, Forall_true. Qed.

Lemma directory_peer_configs_ok resolve resolve' n ds :
  startable resolve resolve' n ds →
  directory_peer_configs (H := configured_directory resolve) ds = Ok (map (directory_config resolve) ds).
Proof.
  intros Hst. unfold directory_peer_configs. pose proof (start_some _ _ _ _ Hst) as Hne.
  rewrite <- (collect_all (directory_peer_config (H := configured_directory resolve))); [by destruct ds|].
  intros d Hd. by apply directory_peer_config_ok, (start_resolves _ _ _ _ Hst).
Qed.

Lemma reconciler_directories_ok resolve resolve' n ds :
  startable resolve resolve' n ds →
  reconciler_directories_from_config resolve' ds = Ok (map (first_directory resolve') (imap pair ds)).
Proof.
  intros Hst. unfold reconciler_directories_from_config. pose proof (start_some _ _ _ _ Hst) as Hne.
  rewrite <- (collect_all (reconciler_directory resolve')); [by destruct ds|].
  intros [i d] (j & d' & [= -> <-] & Hj)%elem_of_lookup_imap. unfold reconciler_directory.
  pose proof (start_indexes _ _ _ _ Hst) as Hn. pose proof (lookup_lt_Some _ _ _ Hj).
  rewrite (proj2 (Z.ltb_lt _ _)) by (unfold LFSR_MAX in Hn; lia).
  rewrite endpoint_resolved by (by apply (start_resolves _ _ _ _ Hst), (list_elem_of_lookup_2 _ j)). done.
Qed.

(** C24: the client starts and never panics. When its directories have distinct
    keys and addresses and their names resolve, the device is created and
    consistent, and has exactly the directories as peers, each reached directly at
    its own addresses with a keepalive of 25 seconds; the reconciler is given the
    directories in order. It then runs through any sequence of ticks, while the
    device handles any packets and ticks of its own before each command of the
    reconciler, and neither panics, as long as the maps do not relay their relays
    and indexes remain for their peers. *)
Theorem desktop_starts `{policy_sort_laws} `{config_hash} {R} `{random R} ephemeral routes_cap usize_bits
    resolve resolve' n ds priv relay st draws sk nk (pool : P) now seeded :
  startable resolve resolve' n ds → initialize draws Index.new = Some seeded → pool_inv pool →
  is_Some (stamp st now) →
  let r := reconciler_new (map (first_directory resolve') (imap pair ds)) in
  ∃ d, start ds priv relay resolve resolve' st draws sk nk pool now = Some (Ok (d, r)) ∧
    wf_device now d ∧
    (∀ k v, shown_by d !! k = Some v ↔ ∃ dir, dir ∈ ds ∧ directory_public_key dir = k ∧
      v = View (list_to_set (map Table.normalize (map host (directory_tunnel_ips dir)))) None 25) ∧
    ∀ relays arrivals clock bufs ticks (g : R),
      timely arrivals clock bufs st → clock 0%nat = now →
      Forall (tick_ok unlimited (fits_roles relays) routes_cap) ticks → (sum_list_with additions ticks ≤ n)%nat →
      ∃ w', run (C := live)
          (H1 := command_client (H := live_executor unlimited ephemeral arrivals clock bufs)) unlimited routes_cap
          usize_bits ticks (World r (Live d now 0 0) g) = Some w' ∧
        reachable unlimited ephemeral (live_time (client w')) (live_ticks (client w')) (live_device (client w')).
Proof.
  intros Hst Hg Hp Hs rc. set (cs := map (directory_config resolve) ds).
  pose proof (directories_compatible _ _ _ _ Hst) as Hc. fold cs in Hc.
  destruct seeded as [g0 rest]. destruct (initialize_wf draws [] rest g0 Hg) as (Hwg & Hrem & _).
  assert (Z.of_nat (length cs) + Z.of_nat n ≤ LFSR_MAX) as Hn.
  { unfold cs. rewrite length_map. pose proof (start_indexes _ _ _ _ Hst). lia. }
  destruct (add_initial_all priv st now cs [] peer_state_new g0) as (s' & g' & Hadd & Hwf' & Hr' & Hs');
    [by rewrite app_nil_r|done|by apply wf_table_new|lia|].
  destruct (device_new_spec unlimited ∅ priv (if relay then AllowAll else RejectAll) cs st draws sk nk pool now _ Hg
    (directories_initial_ok _ _ _ _ Hst) (directories_in_role _ _ _) Hp Hs) as (r & g'' & Hnew & Hwd).
  assert (∃ d, r = Ok d ∧ state d = s' ∧ generator d = g') as (d & -> & Hd & Hgen).
  { unfold device_new in Hnew. rewrite Hg in Hnew. cbn [mbind option_bind] in Hnew. rewrite Hadd in Hnew.
    cbn [mbind option_bind] in Hnew. injection Hnew as <- _. by eexists. }
  exists d. split; [|split; [exists ∅; by apply Hwd|split]].
  - unfold start. rewrite (directory_peer_configs_ok _ _ _ _ Hst). fold cs unlimited. rewrite Hnew.
    cbn [mbind option_bind map_err result_bind]. by rewrite (reconciler_directories_ok _ _ _ _ Hst).
  - intros k v. unfold shown_by. rewrite Hd. fold (shown_state s'). rewrite Hs', app_nil_r.
    assert (rev cs ≡ₚ cs) as Hrev by (by rewrite <- Permutation_rev).
    rewrite views_lookup by (rewrite Hrev; apply Hc). setoid_rewrite Hrev. split.
    + intros (c & (dir & -> & Hdir)%list_elem_of_fmap & <- & <-). by exists dir.
    + intros (dir & Hdir & <- & ->). exists (directory_config resolve dir). split; [|done].
      apply list_elem_of_fmap. by exists dir.
  - intros relays arrivals clock bufs ticks g Htime Hnow Ht Hsum.
    destruct (device_new_spec unlimited relays priv (if relay then AllowAll else RejectAll) cs st draws sk nk pool now _ Hg
      (directories_initial_ok _ _ _ _ Hst) (directories_in_role _ _ _) Hp Hs) as (r & g3 & Hnew' & Hwd').
    rewrite Hnew in Hnew'. injection Hnew' as <- <-. destruct (Hwd' d eq_refl) as [Hroles _].
    pose (ex := live_executor unlimited ephemeral arrivals clock bufs).
    pose (laws := live_executor_laws unlimited ephemeral arrivals clock bufs relays st Htime).
    destruct (run_spec unlimited routes_cap usize_bits 0 ticks (World rc (Live d now 0 0) g) Ht) as (w' & E' & Hw').
    + apply wf_world_new. cbn. split; cbn; [done| |by rewrite Hnow| |].
      * rewrite Hnow. by eapply ReachNew; [..|exact Hnew]; try done; eapply directories_initial_ok.
      * split; cbn; [by rewrite Hd, Hgen|rewrite Hgen; lia|done].
      * by eapply device_new_stamper, Hnew.
    + exists w'. split; [done|]. destruct Hw' as [Hok _ _ _]. destruct Hok as [<- Hre _ _ _]. exact Hre.
Qed.
End started.

(** ** Addresses of directories *)

Lemma fmt_u8_no_colon n : in_width 8 n → Forall (λ c, c ≠ ch_colon) (fmt_u8 n).
Proof.
  intros Hn. destruct (fmt_u8_digits n Hn) as (d & ds & -> & Hd & _). apply Forall_map.
  eapply Forall_impl; [exact Hd|]. intros x Hx. unfold is_digit in Hx.
  pose proof (from_digit_range x). unfold is_digit, ch_colon in *. lia.
Qed.

Lemma fmt_ipv4_no_colon a : in_width 32 a → ch_colon ∉ concat (fmt_ipv4_addr a).
Proof.
  intros Ha. destruct (be_bytes_4 a Ha) as (b0 & b1 & b2 & b3 & He & H0 & H1 & H2 & H3 & _).
  assert (Forall (λ c, c ≠ ch_colon) (concat (fmt_ipv4_addr a))) as Hf.
  { unfold fmt_ipv4_addr. rewrite He. cbn [concat]. rewrite !Forall_app.
    split_and!; try (by apply fmt_u8_no_colon); by repeat constructor. }
  intros Hin. rewrite Forall_forall in Hf. by apply (Hf _ Hin).
Qed.

(** [91] is an opening bracket. *)
Lemma hex16_head g rest : in_width 16 g → head rest ≠ Some 91 → head (fmt_hex16 g ++ rest) ≠ Some 91.
Proof.
  intros Hg Hr. pose proof (fmt_hex16_chars g Hg) as Hc. destruct (fmt_hex16 g) as [|c l]; [done|].
  apply Forall_cons in Hc as [Hc _]. cbn. intros [= ->]. lia.
Qed.

Lemma subslice_head gs rest :
  Forall (in_width 16) gs → head rest ≠ Some 91 → head (concat (fmt_subslice gs) ++ rest) ≠ Some 91.
Proof.
  intros Hgs Hr. destruct gs as [|g gs]; [done|]. apply Forall_cons in Hgs as [Hg _].
  rewrite concat_fmt_subslice, <- app_assoc. apply hex16_head; [done|]. by destruct gs.
Qed.

Lemma fmt_ipv6_colon a :
  in_width 128 a → ch_colon ∈ concat (fmt_ipv6_addr a) ∧ head (concat (fmt_ipv6_addr a)) ≠ Some 91.
Proof.
  intros Ha. unfold fmt_ipv6_addr. destruct (AddrText.to_ipv4_mapped a) as [v4|]; [by split; [left|]|].
  destruct (to_groups_spec 8 a Ha) as (Hl & Hg & _). unfold segments.
  generalize dependent (to_groups 8 a). intros gs Hl Hg.
  generalize (longest_zeroes 0 span_default span_default gs). intros z.
  destruct (1 <? span_len z)%nat.
  - rewrite !concat_app. split; [apply elem_of_app; right; by left|].
    apply subslice_head; [by apply Forall_take|done].
  - split; [|rewrite <- (app_nil_r (concat _)); by apply subslice_head].
    destruct gs as [|g [|g' gs]]; [done..|]. rewrite concat_fmt_subslice. apply elem_of_app. right. by left.
Qed.

Definition address_at (ip : ip_addr) (port : Z) : socket_addr :=
  match ip with
  | IpV4 a => SockV4 a port
  | IpV6 a => SockV6 a port 0 0
  end.

(** The host of a URL, as RFC 3986 has it. *)
Definition url_host (ip : ip_addr) : bytes :=
  match ip with
  | IpV4 a => concat (fmt_ipv4_addr a)
  | IpV6 a => [91] ++ concat (fmt_ipv6_addr a) ++ [93]
  end.

(** A directory is reached at its first tunnel IP: the printed host reads
    back as that address, so that no name is resolved, and the URL names it with
    an IPv6 address in brackets and an IPv4 address without. *)
Theorem directory_address {E T} `{directory_peer T E} {h : http E} (d : T) ip :
  head (tunnel_ips_of d) = Some ip → ip_addr_valid ip →
  ∃ e, from_directory d = Ok e ∧ socket_addr_of e = Ok (address_at ip 80) ∧
    request_url e = [104; 116; 116; 112; 58; 47; 47] ++ url_host ip ++ [58; 56; 48] ++ NETWORK_MAP_PATH.
Proof.
  intros Hd Hip. unfold from_directory. rewrite Hd. eexists. split; [done|]. split.
  - unfold socket_addr_of. cbn [host_text port]. unfold fmt_ip_addr. rewrite ip_addr_from_str_fmt by done. by destruct ip.
  - unfold request_url, format_http_host. cbn [host_text port path fmt_ip_addr]. destruct ip as [a|a]; cbn in Hip.
    + by rewrite bool_decide_false by (by apply fmt_ipv4_no_colon).
    + destruct (fmt_ipv6_colon a Hip). by rewrite bool_decide_true, bool_decide_false by done.
Qed.

(** ** The time of a map

    [map_timestamp] of [net_map.rs]: in the binary form, which is what the
    client fetches, a time is its whole seconds. *)

Definition timestamp_serialize (t : Z) : Z := t / NANOS_PER_SEC.

(** [in_range]: the seconds that chrono represents. *)
Definition timestamp_deserialize (in_range : Z → bool) (seconds : Z) : option Z :=
  if in_range seconds then Some (seconds * NANOS_PER_SEC) else None.

(** A map as its readers get it. *)
Definition received (m : network_map) : network_map :=
  NetworkMap (timestamp_serialize (updated_at m) * NANOS_PER_SEC) (map_peers m).

Lemma timestamp_roundtrip in_range t :
  in_range (timestamp_serialize t) = true →
  timestamp_deserialize in_range (timestamp_serialize t) = Some (t - t mod NANOS_PER_SEC).
Proof.
  intros Hr. unfold timestamp_deserialize. rewrite Hr. f_equal. unfold timestamp_serialize.
  pose proof (Z.div_mod t NANOS_PER_SEC ltac:(done)). lia.
Qed.

(** A map that changed within the second of the last one is taken for a stale
    one, until there is a change in a later second. *)
Theorem same_second_map_ignored `{order : map_order} `{policy_sort} `{config_hash} {C : Type} `{device_client C}
    {R} `{random R} lim routes_cap usize_bits (m m' : network_map) now (w : world C R) :
  last_applied_map_updated_at (this w) = Some (updated_at (received m)) → updated_at m < updated_at m' →
  timestamp_serialize (updated_at m) = timestamp_serialize (updated_at m') →
  reconcile_network_map lim routes_cap usize_bits (received m') now w = Some (Ok false, w).
Proof.
  intros Hl _ Hs. assert (stale (received m') (this w) = true) as Hst.
  { unfold stale. rewrite Hl. cbn. rewrite Hs. apply Z.leb_refl. }
  unfold reconcile_network_map, act_bind, self. cbn. by rewrite Hst.
Qed.

(** ** Examples *)

#[local] Instance toy_pool : packet_pool Heap.pool := Heap.heap_packet_pool 8 4096.
#[local] Instance toy_pool_laws : @packet_pool_laws _ toy_pool := Heap.heap_packet_pool_laws 8 4096.
#[local] Existing Instances toy_noise toy_order toy_order_laws merge_policies merge_policies_laws counting toy_hash.

Definition toy_directory (k : Z) : directory :=
  Directory (@public_from toy_noise [k]) [IpV4 (0x0a000000 + k); IpV6 k] [k].

(** The name [k] resolves to 1.2.3.[k], port 51820. *)
Definition toy_resolver : resolver unit := λ name,
  match name with
  | [k] => Ok [SockV4 (0x01020300 + k) 51820]
  | _ => Err tt
  end.

Definition toy_directories : list directory := [toy_directory 2; toy_directory 3].

Lemma toy_directories_elem d : d ∈ toy_directories → d = toy_directory 2 ∨ d = toy_directory 3.
Proof. unfold toy_directories. rewrite !elem_of_cons, elem_of_nil. tauto. Qed.

Lemma toy_startable : startable toy_resolver toy_resolver 3 toy_directories.
Proof.
  split.
  - done.
  - by intros d [-> | ->]%toy_directories_elem; split; eexists _, [].
  - decide_now.
  - by intros d [-> | ->]%toy_directories_elem.
  - decide_now.
  - by intros d [-> | ->]%toy_directories_elem; repeat constructor; cbn; unfold in_width; lia.
  - cbn [toy_directories mbind list_bind]. unfold Trie.node_limit. apply Nat2Z.inj_le. rewrite Z2Nat.id by done. done.
  - vm_compute. congruence.
Defined.

Definition toy_begin : option (result (device Heap.pool generic_authorizer * reconciler) (desktop_error unit)) :=
  start toy_directories [1] false toy_resolver toy_resolver toy_stamper [5; 9] [6] [7] Heap.new (from_secs 1).

(** The peer 4 is reached through the directory 3. *)
Definition toy_relayed_map : network_map := NetworkMap 1
  [MapPeer 2 (@public_from toy_noise [2]) (Some (IpV4 2)) true [MapRoute 0 (RouteDirect None)];
   MapPeer 3 (@public_from toy_noise [3]) (Some (IpV4 3)) true [MapRoute 0 (RouteDirect None)];
   MapPeer 4 (@public_from toy_noise [4]) (Some (IpV4 4)) false [MapRoute 0 (RouteRelay 3); MapRoute 5 (RouteDirect None)]].

Definition toy_relays : gset bytes := {[@public_from toy_noise [3]]}.

Lemma toy_relayed_map_ok : map_ok unlimited (fits_roles toy_relays) None toy_relayed_map.
Proof.
  assert (Forall (λ mp, length (map_public_key mp) = KEY_LEN ∧ Forall (λ r, ∀ k q,
    policy_of_route toy_relayed_map mp r = Some (PolicyRelay k q) → k ∈ toy_relays ∧ map_public_key mp ∉ toy_relays)
    (map_routes mp)) (map_peers toy_relayed_map)) as Hall.
  { assert (@public_from toy_noise [3] ∈ toy_relays ∧ @public_from toy_noise [4] ∉ toy_relays) as [H3 H4] by decide_now.
    repeat (apply Forall_cons; split); try by apply Forall_nil.
    all: split; [done|]; repeat (apply Forall_cons; split); try by apply Forall_nil.
    all: intros k q Hr; try done.
    assert (k = @public_from toy_noise [3]) as -> by (vm_compute in Hr; by injection Hr as <- _). done. }
  rewrite Forall_forall in Hall. apply map_in_roles_ok.
  - by split.
  - intros mp ip Hmp Hip. cbn in Hmp. rewrite !elem_of_cons, elem_of_nil in Hmp.
    destruct Hmp as [->|[->|[->|[]]]]; cbn in Hip; simplify_eq; cbn; unfold in_width; lia.
  - split; [intros; by apply Hall|]. intros mp r k q Hmp Hr. destruct (Hall mp Hmp) as [_ Hf].
    rewrite Forall_forall in Hf. by apply Hf.
Qed.

(** A handshake, a packet of the interface and a tick before each command. *)
Definition toy_arrivals (i : nat) : list arrival :=
  [Arrival (FromNetwork (toy_hello 2) (toy_addr 2)) (from_secs 2) toy_buffers;
   Arrival (FromInterface (toy_ip 3 40)) (from_secs 2) toy_buffers; Arrival TimerTick (from_secs 2) toy_buffers].
Definition toy_clock (i : nat) : Z := match i with O => from_secs 1 | _ => from_secs 2 end.

Lemma toy_timely : timely toy_arrivals toy_clock (λ _, toy_buffers) toy_stamper.
Proof.
  assert (is_Some (stamp toy_stamper (from_secs 2))) as Hst by (vm_compute; by eexists).
  pose proof toy_buffers_ok as Hb.
  assert (unattended (FromNetwork (toy_hello 2) (toy_addr 2))) as Hn.
  { split; [decide_now|]. vm_compute. lia. }
  assert (unattended (FromInterface (toy_ip 3 40))) as Hi.
  { split; [decide_now|]. vm_compute. lia. }
  split; [|by intros i|by intros i].
  intros i. unfold toy_arrivals. cbn [in_time arrival_time arrival_event arrival_buffers].
  assert (toy_clock i ≤ from_secs 2 ∧ from_secs 2 ≤ toy_clock (S i)) as [H1 H2] by (by destruct i).
  by split_and!.
Qed.

Lemma desktop_starts_witness :
  startable toy_resolver toy_resolver 3 toy_directories ∧
  ∃ d r, toy_begin = Some (Ok (d, r)) ∧ wf_device (Q := toy_pool_laws) (from_secs 1) d ∧
    dom (shown_by d) = {[@public_from toy_noise [2]; @public_from toy_noise [3]]} ∧
    is_Some (@run toy_order _ _ live (command_client (H := live_executor unlimited toy_secrets toy_arrivals toy_clock
      (λ _, toy_buffers))) Z _ unlimited None 64
      [MapTick (Some toy_relayed_map) 0; HealthTick 5] (World r (Live d (from_secs 1) 0 0) 7)).
Proof.
  split; [exact toy_startable|]. pose proof toy_relayed_map_ok as Hok. pose proof toy_timely as Htime.
  destruct (initialize [5; 9] Index.new) as [seeded|] eqn:Hg; [|by vm_compute in Hg].
  destruct (desktop_starts (L := toy_noise_laws) (V := toy_open_laws) (Q := toy_pool_laws) (MO := toy_order_laws)
    toy_secrets None 64 toy_resolver toy_resolver 3 toy_directories [1] false toy_stamper [5; 9] [6] [7]
    Heap.new (from_secs 1) seeded toy_startable Hg (Heap.heap_inv_new 8 4096) ltac:(by eexists))
    as (d & E & Hwf & Hsh & Hrun).
  exists d, (reconciler_new (map (first_directory toy_resolver) (imap pair toy_directories))).
  split; [exact E|]. split; [exact Hwf|]. split.
  - apply set_eq. intros k. rewrite elem_of_dom, elem_of_union, !elem_of_singleton. split.
    + by intros [v (dir & [-> | ->]%toy_directories_elem & <- & _)%Hsh]; [left|right].
    + intros [-> | ->]; eexists; apply Hsh.
      * exists (toy_directory 2). split; [by left|]. split; reflexivity.
      * exists (toy_directory 3). split; [by right; left|]. split; reflexivity.
  - destruct (Hrun toy_relays toy_arrivals toy_clock (λ _, toy_buffers)
      [MapTick (Some toy_relayed_map) 0; HealthTick 5] 7 Htime eq_refl) as (w' & Hw' & _); [|apply le_n|exists w'; exact Hw'].
    apply Forall_cons; split; [exact Hok|].
    apply Forall_cons. split; [exact I|constructor].
Defined.

(** A client of the web that knows no name, and one map. *)
Definition toy_http (body : bytes) : http unit := {|
  dns _ _ := Err tt;
  parse_uri _ := true;
  connect _ _ := Ok tt;
  send_request _ _ _ := Ok (200, Ok body);
  decode b := match b with [] => Err tt | _ => Ok (toy_map 1 10 20) end
|}.

Lemma directory_address_witness :
  let h := toy_http [] in
  ∃ e, from_directory (E := unit) (H := configured_directory toy_resolver) (toy_directory 2) = Ok e ∧
    socket_addr_of e = Ok (SockV4 0x0a000002 80) ∧
    request_url e =
      [104; 116; 116; 112; 58; 47; 47; 49; 48; 46; 48; 46; 48; 46; 50; 58; 56; 48;
       47; 118; 49; 97; 108; 112; 104; 97; 49; 47; 109; 97; 112].
Proof.
  intros h. destruct (directory_address (H := configured_directory toy_resolver) (h := h) (toy_directory 2)
    (IpV4 0x0a000002)) as (e & He & Ha & Hu); [reflexivity|cbn; unfold in_width; lia|].
  exists e. split; [exact He|]. split; [exact Ha|]. rewrite Hu. vm_compute. reflexivity.
Defined.

(** The second directory answers after the first has failed. *)
Example toy_fetch :
  fetch (H := {| dns _ _ := Err tt; parse_uri _ := true; connect i _ := if (i =? 0)%nat then Err tt else Ok tt;
    send_request _ _ _ := Ok (200, Ok [1]); decode _ := Ok (toy_map 1 10 20) |})
    (H0 := configured_directory toy_resolver) toy_directories = Ok (toy_map 1 10 20).
Proof. vm_compute. reflexivity. Qed.
