(* ===== verification/Nic.v ===== *)
(** * Network interfaces: [tendrilix/src/nic.rs] and [LinuxTunDevice] of
    [desktop-client/src/main.rs]

    The two interfaces that a device can be given: the queues of an
    [embassy-net] channel, and a TUN device of Linux. Both are code of other
    crates and an interface here. *)

From S2P Require Import Prelude.

Inductive nic_error : Type := NicIo | NicFull | BufferTooSmall.

(** ** The channel runner *)

(** [tx_buf] is the next packet of the stack, and waits for it when it is
    [None]; [try_rx_buf] is the length of the next free buffer; [rx_done] hands
    over what was written to the start of it. *)
Class channel_runner (C : Type) := {
  tx_buf : C → option bytes;
  tx_done : C → C;
  try_rx_buf : C → option nat;
  rx_done : bytes → C → C
}.

(** The packets that wait on both sides. *)
Class channel_runner_laws (C : Type) `{channel_runner C} := {
  outgoing : C → list bytes;
  incoming : C → list bytes;
  tx_buf_law c : tx_buf c = head (outgoing c);
  tx_done_law c : outgoing (tx_done c) = tail (outgoing c) ∧ incoming (tx_done c) = incoming c;
  rx_done_law p c : incoming (rx_done p c) = incoming c ++ [p] ∧ outgoing (rx_done p c) = outgoing c
}.

Section runner.
Context {C : Type} `{channel_runner C}.

(** [recv] into a buffer of [buf] bytes; [None] while there is no packet. *)
Definition recv (buf : nat) (c : C) : option (result bytes nic_error * C) :=
  let! packet := tx_buf c in
  if (buf <? length packet)%nat then Some (Err BufferTooSmall, tx_done c)
  else Some (Ok packet, tx_done c).

Definition send (packet : bytes) (c : C) : result unit nic_error * C :=
  match try_rx_buf c with
  | None => (Err NicFull, c)
  | Some buf =>
      if (buf <? length packet)%nat then (Err BufferTooSmall, c)
      else (Ok tt, rx_done packet c)
  end.

(** The results of receiving [n] times. *)
Fixpoint recv_many (n buf : nat) (c : C) : list (result bytes nic_error) * C :=
  match n with
  | O => ([], c)
  | S n =>
      match recv buf c with
      | Some (r, c) => let '(rs, c) := recv_many n buf c in (r :: rs, c)
      | None => ([], c)
      end
  end.

(** Each packet in turn, also when sending fails. *)
Fixpoint send_many (packets : list bytes) (c : C) : list (result unit nic_error) * C :=
  match packets with
  | [] => ([], c)
  | p :: packets =>
      let '(r, c) := send p c in
      let '(rs, c) := send_many packets c in (r :: rs, c)
  end.
End runner.

Section runner_laws.
Context {C : Type} `{channel_runner_laws C}.

Definition received_as (buf : nat) (p : bytes) : result bytes nic_error :=
  if (buf <? length p)%nat then Err BufferTooSmall else Ok p.

Lemma recv_spec buf c :
  match outgoing c with
  | [] => recv buf c = None
  | p :: l => ∃ c', recv buf c = Some (received_as buf p, c') ∧ outgoing c' = l ∧ incoming c' = incoming c
  end.
Proof.
  unfold recv, received_as. rewrite tx_buf_law. destruct (tx_done_law c) as [Ho Hi].
  destruct (outgoing c) as [|p l] eqn:E; [done|]. cbn [head mbind option_bind].
  destruct (buf <? length p)%nat; exists (tx_done c); by rewrite Ho.
Qed.

(** The packets of the stack come out in order, each once; one that is too
    large for the buffer is dropped with an error and does not block the next. *)
Theorem recv_in_order n buf c :
  let '(rs, c') := recv_many n buf c in
  rs = map (received_as buf) (take n (outgoing c)) ∧ outgoing c' = drop n (outgoing c) ∧ incoming c' = incoming c.
Proof.
  revert c. induction n as [|n IH]; intros c; cbn [recv_many]; [done|].
  pose proof (recv_spec buf c) as Hr. destruct (outgoing c) as [|p l] eqn:E.
  { by rewrite Hr. }
  destruct Hr as (c1 & -> & Ho & Hi). specialize (IH c1). destruct (recv_many n buf c1) as [rs c'].
  destruct IH as (-> & Ho' & Hi'). cbn. rewrite Ho in *. split_and!; [done|done|congruence].
Qed.

(** What arrives at the stack is exactly the packets that were accepted, in
    order and whole. *)
Theorem send_in_order packets c :
  let '(rs, c') := send_many packets c in
  length rs = length packets ∧ outgoing c' = outgoing c ∧
  incoming c' = incoming c ++ (zip packets rs ≫= λ pr, if is_ok pr.2 then [pr.1] else []).
Proof.
  revert c. induction packets as [|p packets IH]; intros c; cbn [send_many].
  { split_and!; [done..|]. by rewrite app_nil_r. }
  destruct (send p c) as [r c1] eqn:Es. specialize (IH c1). destruct (send_many packets c1) as [rs c'].
  destruct IH as (Hl & Ho & Hi). cbn [length zip zip_with mbind list_bind fst snd].
  assert (outgoing c1 = outgoing c ∧ incoming c1 = incoming c ++ (if is_ok r then [p] else [])) as [Ho1 Hi1].
  { unfold send in Es. destruct (try_rx_buf c) as [n|]; [destruct (n <? length p)%nat|]; injection Es as <- <-; cbn;
      rewrite ?app_nil_r; try done. by destruct (rx_done_law p c). }
  split_and!; [by rewrite Hl|congruence|]. rewrite Hi, Hi1, <- app_assoc. done.
Qed.
End runner_laws.

(** ** The TUN device *)

(** The result of the operating system: the packet read, or the number of bytes
    written. *)
Definition tun_recv {E} (r : result bytes E) : result bytes nic_error := map_err (λ _, NicIo) r.

Definition tun_send {E} (packet : bytes) (r : result nat E) : result unit nic_error :=
  let? len := map_err (λ _, NicIo) r in
  if (len =? length packet)%nat then Ok tt else Err NicIo.

(** ** Example: bounded queues *)

Record toy_channel := ToyChannel { toy_tx : list bytes; toy_rx : list bytes }.

#[local] Instance toy_runner : channel_runner toy_channel := {|
  tx_buf c := head (toy_tx c);
  tx_done c := ToyChannel (tail (toy_tx c)) (toy_rx c);
  try_rx_buf c := if (length (toy_rx c) <? 2)%nat then Some 3%nat else None;
  rx_done p c := ToyChannel (toy_tx c) (toy_rx c ++ [p])
|}.

#[local] Program Instance toy_runner_laws : channel_runner_laws toy_channel :=
  {| outgoing := toy_tx; incoming := toy_rx |}.
Solve All Obligations with done.

Example toy_transfers :
  (recv_many 3 2 (ToyChannel [[1]; [1; 2; 3]; [4; 5]] [])).1 = [Ok [1]; Err BufferTooSmall; Ok [4; 5]] ∧
  (send_many [[1; 2; 3; 4]; [1]; [2]; [3]] (ToyChannel [] [])).1 = [Err BufferTooSmall; Ok tt; Ok tt; Err NicFull].
Proof. by vm_compute. Qed.
