(* ===== verification/ApiError.v ===== *)
(** * API errors: [tendrilix/src/types/v1alpha1/error.rs]

    The error a directory answers with; the builds without [alloc] write its
    message into a string of 128 bytes. *)

From S2P Require Import Prelude AddrText.

Inductive error_code : Type := TooManyPeers.

Record api_error := ApiError { code : error_code; message : bytes }.

(** [{}] of a [usize], which has at most 64 bits. *)
Definition fmt_usize (n : Z) : bytes := digits 20 10 n.

(** The pieces of [format!("found {actual} peers, exceeds max of {max} peers")]. *)
Definition found_ : bytes := [102; 111; 117; 110; 100; 32].
Definition peers_exceeds_max_of_ : bytes :=
  [32; 112; 101; 101; 114; 115; 44; 32; 101; 120; 99; 101; 101; 100; 115; 32; 109; 97; 120; 32; 111; 102; 32].
Definition peers_ : bytes := [32; 112; 101; 101; 114; 115].

Definition message_pieces (actual max : Z) : list bytes :=
  [found_; fmt_usize actual; peers_exceeds_max_of_; fmt_usize max; peers_].

(** With [alloc], and without: the result of [write!] is ignored. *)
Definition format_message (alloc : bool) (actual max : Z) : bytes :=
  if alloc then concat (message_pieces actual max)
  else heapless_write 128 [] (message_pieces actual max).

Definition too_many_peers (alloc : bool) (actual max : Z) : api_error :=
  ApiError TooManyPeers (format_message alloc actual max).

(** The message always fits, so both builds report the same error. *)
Theorem too_many_peers_same actual max : too_many_peers false actual max = too_many_peers true actual max.
Proof.
  unfold too_many_peers, format_message. f_equal. apply heapless_write_fits.
  assert (∀ n, (length (fmt_usize n) ≤ 20)%nat) as Hl.
  { intros n. unfold fmt_usize, digits. rewrite length_map. destruct (digit_values_length 10 20 n); [lia..|done]. }
  pose proof (Hl actual). pose proof (Hl max). unfold message_pieces. cbn [concat]. rewrite !length_app. simpl. lia.
Qed.

(** "found 12 peers, exceeds max of 8 peers" *)
Example toy_message :
  message (too_many_peers false 12 8) =
    found_ ++ [49; 50] ++ peers_exceeds_max_of_ ++ [56] ++ peers_.
Proof. by vm_compute. Qed.
